(* ===== verification/_CoqProject ===== *)
-Q . S2P
Prelude.v
Bytes.v
RtlSid.v
RtlAcl.v
RtlSd.v
RtlBitmap.v
SeToken.v
SeObjType.v
SeAccess.v
RtlTime.v
RangeList.v
RtlUtf8.v
RtlCompress.v
RtlCrc32.v
ExRundown.v
ExRundownCache.v
FsRtlName.v
HeapLogic.v
LinkTree.v
SplayTree.v
SplayDelete.v
ListEntry.v
TableCommon.v
GenericTable.v
GenericTableWalk.v
GenericTableShare.v
McbRuns.v
Heap64.v
FsRtlMcb.v
McbTable.v
McbRemove.v
McbWalk.v
McbAdd.v
McbState.v
McbLarge.v
McbSpec.v
AvlTree.v
AvlInsert.v
AvlDelete.v
AvlTable.v
TableExample.v
McbExample.v
McbTheorems.v
TableClient.v
Containers.v
