(* ===== verification/Prelude.v ===== *)
(** * Verification of parts of the Windivs (ReactOS) kernel and run-time library

    The program is an operating system in C.  This development models the core that
    decides who may do what, the data structures of the run-time library around it, and
    some self-contained services of the kernel, for the 32 bit build:

    - sdk/lib/rtl: bitmaps, SIDs, access control lists, security descriptors, access
      masks, times, range lists, UTF-8, LZNT1 compression, CRC; lists, splay trees, generic
      tables and AVL tables.  These are libraries that the kernel and user mode share.
    - ntoskrnl/se: the security reference monitor.  [SeAccessCheck] (for kernel
      components) and the system calls [NtAccessCheck], [NtAccessCheckByType] and
      [NtAccessCheckByTypeResultList] (through [SepAccessCheck]) first use privileges
      ([SePrivilegePolicyCheck]) and the owner's rights, then let
      [SepAccessCheckWorker] walk the DACL of the descriptor with [RtlGetAce] and match
      the SIDs of its ACEs against the token ([SepSidInTokenEx]).
    - ntoskrnl/ex: rundown protection, the lock-free reference counts that keep an object
      from being torn down while it is used.
    - ntoskrnl/fsrtl: the name routines that file systems call for wild cards and paths, and
      mapping control blocks, which map the blocks of a file to blocks of the disk.  They
      keep their runs in a generic table of sdk/lib/rtl, whose routines they supply.

    ** Files

    - Prelude.v (this file): integers of the machine's widths, [NTSTATUS] values, bit
      scans, the rounding macros of rtlp.h, checked arrays, sums over lists, and the facts
      about bits that all files use (hint database [machine], tactic [case_cmp]).
    - Bytes.v: byte memory with checked reads and writes, little endian fields,
      [RtlMoveMemory] and [RtlZeroMemory], and what a write leaves alone ([frame], [keeps]).
    - RtlSid.v: sdk/lib/rtl/sid.c.
    - RtlAcl.v: sdk/lib/rtl/acl.c.
    - RtlSd.v: sdk/lib/rtl/sd.c and the accessors of ntoskrnl/include/internal/se.h.
    - RtlBitmap.v: sdk/lib/rtl/bitmap.c and [RtlFillMemoryUlong] of mem.c.
    - SeToken.v: sdk/lib/rtl/access.c; SIDs in tokens (se/sid.c), privileges
      (se/priv.c), and what the access check uses of se/token.c, se.h and rtl/sd.c.
    - SeObjType.v: se/objtype.c, object type lists.
    - SeAccess.v: se/accesschk.c, the access check.
    - RtlTime.v: sdk/lib/rtl/time.c.
    - RangeList.v: sdk/lib/rtl/rangelist.c.
    - RtlUtf8.v: sdk/lib/rtl/utf8.c.
    - RtlCompress.v: sdk/lib/rtl/compress.c.
    - RtlCrc32.v: sdk/lib/rtl/crc32.c.
    - ExRundown.v: ntoskrnl/ex/rundown.c, plain references, with the inline fast paths of
      ntoskrnl/include/internal/ex.h.
    - ExRundownCache.v: the cache-aware references of rundown.c.
    - FsRtlName.v: ntoskrnl/fsrtl/name.c.
    - HeapLogic.v: programs on a heap of objects, and a separation logic for them.
    - LinkTree.v: trees of linked nodes, positions in them, and the macros of
      sdk/include/ndk/rtlfuncs.h on splay links.
    - SplayTree.v, SplayDelete.v: sdk/lib/rtl/splaytree.c.
    - ListEntry.v: the inline list functions of sdk/include/ndk/rtlfuncs.h.
    - TableCommon.v: the search that both kinds of tables share, and the contract of the
      routines of a table's owner ([TableRoutines]).
    - GenericTable.v, GenericTableWalk.v: sdk/lib/rtl/generictable.c; GenericTableShare.v: what
      an owner may do through pointers into a table (change an element in place, delete an
      element by its own address, exchange the compare routine).
    - McbRuns.v: runs of blocks as values, and what removal and addition make of them.
    - Heap64.v: 64 bit integers on the heap.
    - FsRtlMcb.v: the code of ntoskrnl/fsrtl/largemcb.c for base control blocks.
    - McbTable.v: the routines of largemcb.c satisfy the contract of the tables (class
      [PoolRoutines] for the pool); operations on runs in the table.
    - McbRemove.v, McbWalk.v (enumeration and lookup), McbAdd.v, McbState.v
      (initialization, reset, split, truncation): the specifications of the functions.
    - McbLarge.v: the functions of largemcb.c with a mutex, and ntoskrnl/fsrtl/mcb.c.
    - McbSpec.v: the specification of a control block, and its refinement.
    - AvlTree.v (code and rotations), AvlInsert.v, AvlDelete.v: sdk/lib/rtl/avlsupp.c with
      rtlavl.h; AvlTable.v: sdk/lib/rtl/avltable.c.
    - TableExample.v: concrete routines for tables of bytes; McbExample.v: a pool, mutexes and
      a control block in memory.
    - McbTheorems.v: the theorems about mapping control blocks, with runs on examples.
    - TableClient.v: the specification of an ordered table, the class [OrderedTable] of its
      implementations, and both tables as instances.
    - Containers.v: the theorems about splay trees and tables, with runs on examples.

    ** How the code is modelled

    A function of the C source is a function of the same name; a loop is a recursive
    function named after what it does.  An integer is a [Z] with the wrap-around of its
    type written out ([u8], [u16], [u32], [u64], [s16], [s32], [s64]).  Memory is a list
    of bytes (or of words, for bitmaps) and a pointer an offset into it.  The option
    monad marks what must not happen: [None] is a read or write outside the memory, the
    dereference of NULL, the use of a freed entry, or a loop that does not end.  Hence
    a theorem that says [f .. = Some r] also says that [f] is memory safe and returns.
    An error the code reports is a status among the results.  Code under structured
    exception handling turns [None] into its handler's result.  Parameters stand for
    what is outside: success of an allocation, the outcome of probes and captures of
    user memory and of the reference to the token ([check_env] in SeAccess.v), the time
    zone bias, the upcase table.  Reference counts, debug output and the locks of the
    sequential components are not part of the states, nor are their assertions, but for
    those of mapping control blocks: the theorems' hypotheses exclude what these exclude.

    Rundown protection is concurrent, so ExRundown.v and ExRundownCache.v model it as
    transition systems: a step is one access to shared memory, a thread's state the place
    it has reached with its live locals, and [exec] interleaves any number of threads with
    the owner that waits.  There an assertion that fails, or an access to the wait block
    outside its life time, is the outcome [Fault].

    The containers are linked structures that their functions rewire in place.  There
    memory is a finite map from addresses to the objects stored (one entry per field or
    byte, at the offsets of the 32 bit layout), and a function is a program that reads and
    writes it; reading or writing an address that is not allocated fails (HeapLogic.v).
    [P ⊢ wp m Q] says that [m], run on memory of which [P] owns a part, returns, touches
    only that part, and makes [Q] true of its result and of the part.  A tree in memory is
    seen from a position as a subtree and a list of frames up to the root ([focus]).  The
    routines that a table calls through pointers are parameters ([callbacks]), and what
    the tables rely on is the class [TableRoutines], of which TableExample.v has instances.
    So are the pool ([pool]) and guarded mutexes ([mutexes]) for the control blocks.  Any
    request for memory may be refused: a [manager] says which requests are granted, by their
    number, and its assertion [supply] keeps the number of the next request and the count of
    blocks in use, so that a theorem ties each failure to a refused request and shows that
    nothing is leaked.  The assertions of largemcb.c are part of the code if [dbg] is set, as
    in a debug build; as some of them test the results of allocations, the theorems then
    require that all requests are granted ([reliable]).  A local variable whose address is taken is an
    object at an offset of a parameter [sp].

    Loops that are not structural have fuel, which the definition that starts the loop
    fixes: the size of the bitmap plus one where each round advances a bit at least
    ([find_fuel]), the quotient of the days by 365 plus one for the years ([year_loop]),
    the length of the new ACEs in bytes plus one ([new_aces]), the length of the second
    list in a merge ([merge_loop]), the number of units or bytes of a string in the
    conversions ([unicode_loop], [utf8_loop]), the bytes of the source, as every round
    consumes one at least, in LZNT1 ([entities], [chunk_loop], [skip_chunks],
    [whole_chunks]), and the lengths of expression, name and buffers in the matcher
    ([expression_loop], [old_loop], [name_loop]), and the number of objects in memory plus
    one for the loops over linked nodes ([while]), which visit no node twice.  The theorems
    show that it suffices.

    ** What is proved

    - Access check (SeAccess.v, SeToken.v, SeObjType.v).  The specification reads the
      DACL as a list of entries ([entry]) and grants a right if the first entry that
      applies to the token and names the right is an allow entry ([first_match],
      [allowed]).  [SeAccessCheck] and [NtAccessCheck] agree with it exactly, statuses
      and granted masks included; [MAXIMUM_ALLOWED] computes exactly the rights so
      granted, and what it reports can be used; a missing DACL grants; the traverse
      shortcut is sound; object ACEs act on subtrees; no right is both granted and
      denied.  Privileges, generic mappings, SIDs in tokens and the capture of object
      type lists are characterised exactly.
    - ACLs and SIDs (RtlAcl.v, RtlSid.v).  [acl_rep] relates the bytes of an ACL to the
      list of its ACEs.  Adding, inserting, deleting and looking up refine the list
      operations and keep [RtlValidAcl]; what that accepts can be walked safely.
    - Security descriptors (RtlSd.v).  [holds] relates memory to the content of a
      descriptor in either format.  A self-relative descriptor that is validated has its
      parts inside its buffer; making one self-relative preserves the content and gives
      one that is accepted; converting there and back is the identity; creation, setters
      and getters agree.
    - Bitmaps (RtlBitmap.v).  The class [MeasuresRun] says what the searches rely on of
      the run-length routines; both routines are instances.  Setting and clearing
      change exactly their range, the searches find a fit if and only if there is one
      (first fit), the longest run is longest, counting counts.
    - Times (RtlTime.v).  Times and calendar fields convert back and forth; a recurring
      cutover falls on the day its rule names.
    - Range lists (RangeList.v).  Adding and deleting keep lists sorted and disjoint;
      searching finds the highest place; inversion is the complement, merging the union.
    - Text and data formats.  UTF-8 and UTF-16 (RtlUtf8.v): the decoder accepts exactly
      the encodings of scalar values, buffers are respected, and the conversions are
      inverse.  LZNT1 (RtlCompress.v): decompression is memory safe on any input,
      implements the expansion of tokens ([expand]) on well-formed chunks, and inverts
      compression, which stores its blocks as they are.  CRC (RtlCrc32.v): the table computes the polynomial division.
    - Rundown protection (ExRundown.v, ExRundownCache.v).  The invariant [inv] of the
      transition system gives safety on every schedule and the exact meaning of the count;
      a measure shows that all schedules end, the wait included.  For the cache-aware
      variant: layout and allocation, and that its wait is wrong, whatever references are
      held: it returns while they are, and hangs once they are not.
    - Names (FsRtlName.v).  The matcher with its two buffers of positions agrees with a
      recursive matcher ([matches]); dissection splits where it should.
    - Containers (Containers.v).  Splaying moves a node to the root and keeps the order;
      deletion takes out exactly one node, on every path through the exchange of nodes.  AVL
      insertion and deletion keep every balance field right and the depth the height of
      the tree, which is logarithmic, and so bounds a search.  Both kinds of tables refine
      one specification ([table_step]) on any sequence of operations, for any routines
      that satisfy the contract, and use just the memory of their elements; enumeration visits every element in order, and deletion
      during an enumeration of an AVL table is safe.
    - Mapping control blocks (McbTheorems.v, on McbSpec.v).  The mapping of blocks is that
      of a list of runs in order ([mapped], [runs_ok]).  A client's calls refine steps on that
      list ([mcb_step]), whichever requests for memory are refused; the mutex is released and
      all memory freed.  Removal unmaps exactly its range, addition maps it, each unless a
      request it makes is refused, lookups return what is mapped, and what was added is
      found.  The table is searched by two orders in turn: runs
      that intersect are equal in one, and the runs are in order for both.

    Where the code departs from what it means to do, the theorem carries the hypothesis
    that excludes the case, and a lemma beside it evaluates the code on an example:
    [create_acl_size_wraps], [valid_acl_sid_outside], [add_ace_lowers_revision] in
    RtlAcl.v; [null_dacl_refused], [copy_absolute_shares], [make_reads_past_acl] in RtlSd.v;
    [maximum_grants_system_security], [restricted_maximum_union], [result_list_unwritten]
    in SeAccess.v; [time_fields_overflow] in RtlTime.v; [cache_aware_wait_inverted] in
    ExRundownCache.v; [get_element_counts_from_end] in Containers.v; [add_takes_over_behind] in
    McbTheorems.v, [split_breaks_order] and [truncate_refused_spec] in McbState.v; and the last
    section of RangeList.v.

    ** What is not modelled, and what may follow

    Not modelled: drivers, the graphical subsystem, user programs, hardware access,
    memory management, and the managers of objects, processes and devices, which are
    I/O or state shared with hardware.  In the modelled directories: formatting of SIDs,
    the capture of SIDs and descriptors from user memory, the creation and adjustment
    of tokens, auditing.  Of mapping control blocks the set-up of the look-aside
    lists is left out, and concurrent callers: the mutex is acquired and released around each
    call, and the theorems are about one caller.  Candidates for extension: prefix, atom and
    handle tables, byte range locks (fsrtl/filelock.c), registry hives (sdk/lib/cmlib), the
    bitmaps at 64 bits, and, as step relations, the handle tables and push locks of
    ntoskrnl/ex. *)

From stdpp Require Export base list numbers option.
From Stdlib Require Export ZArith Lia Bool.

Global Open Scope Z_scope.

(** ** Machine integers *)

(** A C value of an unsigned type is the integer it denotes; the operations
    that can leave the type's range wrap around. *)

Definition u8 (x : Z) : Z := x mod 2 ^ 8.
Definition u16 (x : Z) : Z := x mod 2 ^ 16.
Definition u32 (x : Z) : Z := x mod 2 ^ 32.
Definition u64 (x : Z) : Z := x mod 2 ^ 64.

(** Two's complement reading of a 16, 32 or 64 bit pattern. *)
Definition s16 (x : Z) : Z := (x + 2 ^ 15) mod 2 ^ 16 - 2 ^ 15.
Definition s32 (x : Z) : Z := (x + 2 ^ 31) mod 2 ^ 32 - 2 ^ 31.
Definition s64 (x : Z) : Z := (x + 2 ^ 63) mod 2 ^ 64 - 2 ^ 63.

(** [~x] and [x << n] at 32 bits. *)
Definition not32 (x : Z) : Z := 2 ^ 32 - 1 - x.
Definition shl32 (x n : Z) : Z := u32 (Z.shiftl x n).

(** [ROUND_DOWN] / [ROUND_UP] of sdk/lib/rtl/rtlp.h: [n] is cast to [ULONG_PTR]. *)
Definition ROUND_DOWN (n align : Z) : Z := Z.land (u32 n) (not32 (u32 (align - 1))).
Definition ROUND_UP (n align : Z) : Z := ROUND_DOWN (u32 n + align - 1) align.

(** [NTSTATUS] values. *)
Definition STATUS_SUCCESS : Z := 0.
Definition STATUS_SOME_NOT_MAPPED : Z := 0x00000107.
Definition STATUS_NO_MORE_ENTRIES : Z := 0x8000001A.
Definition STATUS_NOT_IMPLEMENTED : Z := 0xC0000002.
Definition STATUS_INVALID_INFO_CLASS : Z := 0xC0000003.
Definition STATUS_ACCESS_VIOLATION : Z := 0xC0000005.
Definition STATUS_INVALID_PARAMETER : Z := 0xC000000D.
Definition STATUS_NO_MEMORY : Z := 0xC0000017.
Definition STATUS_ACCESS_DENIED : Z := 0xC0000022.
Definition STATUS_BUFFER_TOO_SMALL : Z := 0xC0000023.
Definition STATUS_NOT_SUPPORTED : Z := 0xC00000BB.
Definition STATUS_UNKNOWN_REVISION : Z := 0xC0000058.
Definition STATUS_REVISION_MISMATCH : Z := 0xC0000059.
Definition STATUS_NO_IMPERSONATION_TOKEN : Z := 0xC000005C.
Definition STATUS_PRIVILEGE_NOT_HELD : Z := 0xC0000061.
Definition STATUS_INVALID_ACL : Z := 0xC0000077.
Definition STATUS_INVALID_SID : Z := 0xC0000078.
Definition STATUS_INVALID_SECURITY_DESCR : Z := 0xC0000079.
Definition STATUS_ALLOTTED_SPACE_EXCEEDED : Z := 0xC0000099.
Definition STATUS_INSUFFICIENT_RESOURCES : Z := 0xC000009A.
Definition STATUS_BAD_IMPERSONATION_LEVEL : Z := 0xC00000A5.
Definition STATUS_GENERIC_NOT_MAPPED : Z := 0xC00000E6.
Definition STATUS_BAD_DESCRIPTOR_FORMAT : Z := 0xC00000E7.
Definition STATUS_INVALID_PARAMETER_1 : Z := 0xC00000EF.
Definition STATUS_INVALID_PARAMETER_2 : Z := 0xC00000F0.
Definition STATUS_INVALID_PARAMETER_4 : Z := 0xC00000F2.
Definition STATUS_INVALID_PARAMETER_5 : Z := 0xC00000F3.
Definition STATUS_BAD_COMPRESSION_BUFFER : Z := 0xC0000242.
Definition STATUS_UNSUPPORTED_COMPRESSION : Z := 0xC000025F.
Definition STATUS_RANGE_LIST_CONFLICT : Z := 0xC0000282.
Definition STATUS_RANGE_NOT_FOUND : Z := 0xC000028C.

(** [NT_SUCCESS]: the sign bit is clear. *)
Definition NT_SUCCESS (Status : Z) : bool := Status <? 2 ^ 31.

(** The compiler intrinsics: position of the lowest and of the highest set bit
    of a nonzero word. *)
Fixpoint pos_ctz (p : positive) : Z :=
  match p with
  | xO q => 1 + pos_ctz q
  | _ => 0
  end.

Definition BitScanForward (Mask : Z) : Z :=
  match Mask with
  | Zpos p => pos_ctz p
  | _ => 0
  end.

Definition BitScanReverse (Mask : Z) : Z := Z.log2 Mask.

(** The C test [if (x & mask)]. *)
Definition has (x mask : Z) : bool := negb (Z.land x mask =? 0).

(** ** Checked access to an array *)

Definition rd {A} (b : list A) (i : Z) : option A :=
  if i <? 0 then None else b !! Z.to_nat i.

Definition wr {A} (b : list A) (i : Z) (v : A) : option (list A) :=
  if (0 <=? i) && (i <? Z.of_nat (length b)) then Some (<[Z.to_nat i := v]> b)
  else None.

(** ** Range lemmas *)

Lemma u32_range x : 0 <= u32 x < 2 ^ 32.
Proof. unfold u32. apply Z.mod_pos_bound. lia. Qed.

Lemma u32_small x : 0 <= x < 2 ^ 32 -> u32 x = x.
Proof. unfold u32. apply Z.mod_small. Qed.

Lemma s32_small x : - 2 ^ 31 <= x < 2 ^ 31 -> s32 x = x.
Proof. intros Hx. unfold s32. rewrite Z.mod_small by lia. lia. Qed.

Lemma s64_small x : - 2 ^ 63 <= x < 2 ^ 63 -> s64 x = x.
Proof. intros Hx. unfold s64. rewrite Z.mod_small by lia. lia. Qed.

(** The range of a [LONGLONG]. *)
Definition in64 (v : Z) : Prop := - 2 ^ 63 <= v < 2 ^ 63.

Lemma s64_u64 v : in64 v -> s64 (v mod 2 ^ 64) = v.
Proof.
  intros [H1 H2]. unfold s64. rewrite Zplus_mod_idemp_l. rewrite Z.mod_small by lia. lia.
Qed.

Lemma s64_range x : in64 (s64 x).
Proof. unfold in64, s64. pose proof (Z.mod_pos_bound (x + 2 ^ 63) (2 ^ 64)). lia. Qed.

Lemma s64_add_l x y : s64 (s64 x + y) = s64 (x + y).
Proof.
  unfold s64. f_equal.
  replace ((x + 2 ^ 63) mod 2 ^ 64 - 2 ^ 63 + y + 2 ^ 63) with ((x + 2 ^ 63) mod 2 ^ 64 + y) by lia.
  rewrite Zplus_mod_idemp_l. f_equal. lia.
Qed.

Lemma u64_small x : 0 <= x < 2 ^ 64 -> u64 x = x.
Proof. unfold u64. apply Z.mod_small. Qed.

Lemma u32_idemp x : u32 (u32 x) = u32 x.
Proof. apply u32_small, u32_range. Qed.

(** [case_cmp]: case analysis on every integer comparison of the goal, closing
    the impossible and the trivial cases. *)
Ltac case_cmp :=
  repeat match goal with
  | |- context [?a <=? ?c] => destruct (Z.leb_spec a c)
  | |- context [?a <? ?c] => destruct (Z.ltb_spec a c)
  | |- context [?a =? ?c] => destruct (Z.eqb_spec a c)
  end; simpl; try done; try lia.

Create HintDb machine.
#[export] Hint Resolve u32_range u32_small u64_small : machine.

(** ** Bits *)

Lemma u32_testbit x i :
  0 <= i -> Z.testbit (u32 x) i = (i <? 32) && Z.testbit x i.
Proof.
  intros Hi. unfold u32. destruct (Z.ltb_spec i 32).
  - rewrite Z.mod_pow2_bits_low by lia. reflexivity.
  - rewrite Z.mod_pow2_bits_high by lia. reflexivity.
Qed.

Lemma testbit_high w n i :
  0 <= w < 2 ^ n -> 0 <= n <= i -> Z.testbit w i = false.
Proof.
  intros Hw Hi. rewrite <- (Z.mod_small w (2 ^ n)) by lia.
  apply Z.mod_pow2_bits_high. lia.
Qed.

Lemma not32_lnot x : 0 <= x < 2 ^ 32 -> not32 x = u32 (Z.lnot x).
Proof.
  intros Hx. unfold not32, u32, Z.lnot.
  rewrite <- (Z.mod_small (2 ^ 32 - 1 - x) (2 ^ 32)) by lia.
  replace (2 ^ 32 - 1 - x) with (Z.pred (- x) + 1 * 2 ^ 32) by lia.
  rewrite Z.mod_add by lia. reflexivity.
Qed.

Lemma not32_range x : 0 <= x < 2 ^ 32 -> 0 <= not32 x < 2 ^ 32.
Proof. unfold not32. lia. Qed.

Lemma not32_testbit x i :
  0 <= x < 2 ^ 32 -> 0 <= i < 32 -> Z.testbit (not32 x) i = negb (Z.testbit x i).
Proof.
  intros Hx Hi. rewrite not32_lnot by lia.
  rewrite u32_testbit by lia. rewrite Z.lnot_spec by lia.
  rewrite (proj2 (Z.ltb_lt i 32)) by lia. reflexivity.
Qed.

Lemma shl32_testbit x n i :
  0 <= n -> 0 <= i -> Z.testbit (shl32 x n) i = (i <? 32) && Z.testbit x (i - n).
Proof.
  intros Hn Hi. unfold shl32. rewrite u32_testbit by lia.
  rewrite Z.shiftl_spec by lia. reflexivity.
Qed.

Lemma land_7 x : 0 <= x -> Z.land x 7 = x mod 8.
Proof. intros. change 7 with (Z.ones 3). rewrite Z.land_ones by lia. reflexivity. Qed.

Lemma land_31 x : 0 <= x -> Z.land x 31 = x mod 32.
Proof. intros. change 31 with (Z.ones 5). rewrite Z.land_ones by lia. reflexivity. Qed.

Lemma has_spec x mask :
  has x mask = true <-> exists i, 0 <= i /\ Z.testbit x i = true /\ Z.testbit mask i = true.
Proof.
  unfold has. rewrite negb_true_iff, Z.eqb_neq. split.
  - intros Hne. destruct (Z.eq_dec (Z.land x mask) 0) as [E|_]; [done|].
    assert (Hex : exists i, 0 <= i /\ Z.testbit (Z.land x mask) i = true).
    { destruct (Z.lt_total (Z.land x mask) 0) as [Hneg|[Hz|Hpos]]; [|done|].
      - exists (Z.succ (Z.log2 (Z.pred (- Z.land x mask)))).
        split; [pose proof (Z.log2_nonneg (Z.pred (- Z.land x mask))); lia|].
        apply Z.bits_above_log2_neg; lia.
      - exists (Z.log2 (Z.land x mask)). split; [apply Z.log2_nonneg|].
        apply Z.bit_log2. lia. }
    destruct Hex as (i & Hi & Hb). rewrite Z.land_spec in Hb.
    apply andb_true_iff in Hb as [??]. by exists i.
  - intros (i & Hi & Hx & Hm) E.
    assert (Z.testbit (Z.land x mask) i = false) by (rewrite E; apply Z.bits_0).
    rewrite Z.land_spec, Hx, Hm in *. done.
Qed.

Lemma has_1 x : has x 1 = Z.odd x.
Proof.
  unfold has. change 1 with (Z.ones 1). rewrite Z.land_ones, Zmod_odd by lia.
  by destruct (Z.odd x).
Qed.

Lemma has_false x mask i :
  has x mask = false -> 0 <= i -> Z.testbit x i && Z.testbit mask i = false.
Proof.
  unfold has. rewrite negb_false_iff, Z.eqb_eq. intros E Hi.
  rewrite <- Z.land_spec, E. apply Z.bits_0.
Qed.

(** A nonzero 32 bit word has a lowest set bit, which [BitScanForward] finds. *)
Lemma pos_ctz_nonneg p : 0 <= pos_ctz p.
Proof. induction p; simpl; lia. Qed.

Lemma pos_ctz_spec p :
  Z.testbit (Zpos p) (pos_ctz p) = true /\
  (forall i, 0 <= i < pos_ctz p -> Z.testbit (Zpos p) i = false).
Proof.
  induction p as [q IH|q [IH1 IH2]|]; simpl pos_ctz.
  - split; [reflexivity|lia].
  - pose proof (pos_ctz_nonneg q). rewrite Pos2Z.inj_xO. split.
    + rewrite Z.double_bits_succ || rewrite (Z.add_comm 1), Z.add_1_r, Z.double_bits_succ. done.
    + intros i Hi. destruct (Z.eq_dec i 0) as [->|Hne]; [by rewrite Z.testbit_even_0|].
      replace i with (Z.succ (i - 1)) by lia. rewrite Z.double_bits_succ. apply IH2. lia.
  - split; [reflexivity|lia].
Qed.

Lemma lor_range n x y :
  0 <= n -> 0 <= x < 2 ^ n -> 0 <= y < 2 ^ n -> 0 <= Z.lor x y < 2 ^ n.
Proof.
  intros Hn Hx Hy. assert (0 <= Z.lor x y) by (apply Z.lor_nonneg; lia).
  apply Z.bounded_iff_bits_nonneg'; [lia|lia|]. intros l Hl.
  rewrite Z.lor_spec, !(testbit_high _ n) by lia. done.
Qed.

Lemma land_range n x y :
  0 <= n -> 0 <= x < 2 ^ n -> 0 <= y -> 0 <= Z.land x y < 2 ^ n.
Proof.
  intros Hn Hx Hy. assert (0 <= Z.land x y) by (apply Z.land_nonneg; lia).
  apply Z.bounded_iff_bits_nonneg'; [lia|lia|]. intros l Hl.
  rewrite Z.land_spec, (testbit_high _ n) by lia. done.
Qed.

Lemma lor_add x y n : 0 <= n -> 0 <= y < 2 ^ n -> Z.lor (x * 2 ^ n) y = x * 2 ^ n + y.
Proof.
  intros Hn Hy.
  assert (E : Z.land (x * 2 ^ n) y = 0).
  { apply Z.bits_inj'. intros i Hi. rewrite Z.land_spec, Z.bits_0.
    destruct (Z.lt_ge_cases i n).
    - rewrite Z.mul_pow2_bits_low by lia. done.
    - rewrite (testbit_high y n i), andb_false_r by lia. done. }
  by rewrite <- (Z.lxor_lor _ _ E), Z.add_nocarry_lxor.
Qed.

Lemma testbit_max32 k : 0 <= k -> Z.testbit (2 ^ 32 - 1) k = (k <? 32).
Proof.
  intros Hk. change (2 ^ 32 - 1) with (Z.ones 32). destruct (Z.ltb_spec k 32).
  - apply Z.ones_spec_low. lia.
  - apply Z.ones_spec_high. lia.
Qed.

Lemma land_not32 x y : 0 <= x < 2 ^ 32 -> 0 <= y < 2 ^ 32 -> Z.land x (not32 y) = Z.ldiff x y.
Proof.
  intros Hx Hy. apply Z.bits_inj'. intros i Hi. rewrite Z.land_spec, Z.ldiff_spec.
  destruct (Z.lt_ge_cases i 32) as [Hlt|Hge].
  - by rewrite not32_testbit by lia.
  - by rewrite (testbit_high x 32 i) by lia.
Qed.

Lemma round_down_pow2 n k :
  0 <= n < 2 ^ 32 -> 0 <= k < 32 -> ROUND_DOWN n (2 ^ k) = n - n mod 2 ^ k.
Proof.
  intros Hn Hk. unfold ROUND_DOWN. assert (2 ^ k < 2 ^ 32) by (apply Z.pow_lt_mono_r; lia).
  assert (0 < 2 ^ k) by (apply Z.pow_pos_nonneg; lia).
  rewrite (u32_small n), (u32_small (2 ^ k - 1)), land_not32 by lia.
  replace (2 ^ k - 1) with (Z.ones k) by (rewrite Z.ones_equiv; lia).
  rewrite Z.ldiff_ones_r by lia.
  rewrite Z.shiftl_mul_pow2, Z.shiftr_div_pow2 by lia. rewrite Z.mod_eq by lia. lia.
Qed.

Lemma round_down_fixed n k :
  0 <= n < 2 ^ 32 -> 0 <= k < 32 -> (ROUND_DOWN n (2 ^ k) =? n) = (n mod 2 ^ k =? 0).
Proof. intros Hn Hk. rewrite round_down_pow2 by done. case_cmp. Qed.

Lemma round_up_pow2 n k :
  0 <= n -> 0 <= k < 32 -> n + 2 ^ k <= 2 ^ 32 ->
  ROUND_UP n (2 ^ k) mod 2 ^ k = 0 /\ n <= ROUND_UP n (2 ^ k) < n + 2 ^ k.
Proof.
  intros Hn Hk Hs. assert (0 < 2 ^ k) by (apply Z.pow_pos_nonneg; lia).
  unfold ROUND_UP. rewrite (u32_small n), round_down_pow2 by lia.
  set (x := n + 2 ^ k - 1). pose proof (Z.mod_pos_bound x (2 ^ k) ltac:(lia)).
  split; [|lia]. rewrite Zminus_mod, Z.mod_mod, Z.sub_diag by lia. done.
Qed.

(** ** Lists *)

Lemma elem_of_insert_cases {A} (l : list A) i x y : x ∈ <[i := y]> l -> x = y \/ x ∈ l.
Proof.
  intros (j & Hj)%list_elem_of_lookup. rewrite list_lookup_insert_Some in Hj.
  destruct Hj as [(_ & -> & _)|(_ & Hj)]; [by left|right]. by eapply list_elem_of_lookup_2.
Qed.

(** ** Sums over a list *)

Definition sum_over {A} (f : A -> Z) (l : list A) : Z := foldr (fun x acc => f x + acc) 0 l.

Lemma sum_over_insert {A} (f : A -> Z) l i x y :
  l !! i = Some x -> sum_over f (<[i := y]> l) = sum_over f l - f x + f y.
Proof.
  revert i. induction l as [|z l IH]; intros [|i] H; simpl in *; [done|done| |].
  - injection H as ->. unfold sum_over. simpl. lia.
  - unfold sum_over in *. simpl. rewrite (IH i H). lia.
Qed.

Lemma sum_over_nonneg {A} (f : A -> Z) l : (forall x, x ∈ l -> 0 <= f x) -> 0 <= sum_over f l.
Proof.
  induction l as [|z l IH]; intros H; unfold sum_over in *; simpl; [lia|].
  pose proof (H z ltac:(left)). specialize (IH ltac:(intros; apply H; by right)). lia.
Qed.

Lemma sum_over_add {A} (f g : A -> Z) l : sum_over (fun x => f x + g x) l = sum_over f l + sum_over g l.
Proof. induction l as [|x l IH]; [done|]. unfold sum_over in *. simpl. rewrite IH. lia. Qed.

Lemma sum_over_lookup_le {A} (f : A -> Z) l i x :
  (forall x, x ∈ l -> 0 <= f x) -> l !! i = Some x -> f x <= sum_over f l.
Proof.
  intros Hf Hi. revert i Hi. induction l as [|z l IH]; intros [|i] Hi; simpl in *; [done|done| |].
  - injection Hi as ->. pose proof (sum_over_nonneg f l ltac:(intros; apply Hf; by right)).
    unfold sum_over in *. simpl. lia.
  - pose proof (Hf z ltac:(left)). specialize (IH ltac:(intros; apply Hf; by right) i Hi).
    unfold sum_over in *. simpl. lia.
Qed.

Lemma sum_over_zero {A} (f : A -> Z) l x :
  (forall x, x ∈ l -> 0 <= f x) -> sum_over f l = 0 -> x ∈ l -> f x = 0.
Proof.
  intros Hf H0 (i & Hi)%list_elem_of_lookup. pose proof (sum_over_lookup_le f l i x Hf Hi).
  pose proof (Hf x ltac:(by eapply list_elem_of_lookup_2)). lia.
Qed.
