(* ===== verification/Bytes.v ===== *)
(** Memory as the code addresses it: a region is a list of bytes, a pointer an
    offset into it.  Reads and writes name the bytes they touch and fail ([None])
    when one of them is outside the region; a caller under structured exception
    handling turns that failure into its handler's result.  Integers are stored
    little endian. *)

From S2P Require Import Prelude.

Abbreviation mem := (list Z).

Definition rd_bytes (m : mem) (p : Z) (n : nat) : option (list Z) :=
  if (0 <=? p) && (p + Z.of_nat n <=? Z.of_nat (length m))
  then Some (take n (drop (Z.to_nat p) m)) else None.

Definition wr_bytes (m : mem) (p : Z) (bs : list Z) : option mem :=
  if (0 <=? p) && (p + Z.of_nat (length bs) <=? Z.of_nat (length m))
  then Some (take (Z.to_nat p) m ++ bs ++ drop (Z.to_nat p + length bs) m) else None.

(** The [n] byte little endian encoding of [v], and its value. *)
Fixpoint le (n : nat) (v : Z) : list Z :=
  match n with
  | O => []
  | S n' => u8 v :: le n' (v / 256)
  end.

Fixpoint le_val (bs : list Z) : Z :=
  match bs with
  | [] => 0
  | b :: bs' => b + 256 * le_val bs'
  end.

Definition get (n : nat) (m : mem) (p : Z) : option Z :=
  bs ← rd_bytes m p n; Some (le_val bs).

Definition set (n : nat) (m : mem) (p v : Z) : option mem := wr_bytes m p (le n v).

Abbreviation get8 := (get 1).
Abbreviation get16 := (get 2).
Abbreviation get32 := (get 4).
Abbreviation set8 := (set 1).
Abbreviation set16 := (set 2).
Abbreviation set32 := (set 4).

(** [RtlMoveMemory] inside one region; the kernel's [memcpy] is its [memmove], so
    [RtlCopyMemory] is the same operation. *)
Definition RtlMoveMemory (m : mem) (dst src : Z) (n : Z) : option mem :=
  bs ← rd_bytes m src (Z.to_nat n); wr_bytes m dst bs.

Definition RtlZeroMemory (m : mem) (dst n : Z) : option mem :=
  wr_bytes m dst (replicate (Z.to_nat n) 0).

Definition bytes_ok (m : list Z) : Prop := Forall (fun b => 0 <= b < 256) m.

(** * Laws *)

Lemma length_le n : forall v, length (le n v) = n.
Proof. induction n as [|n IH]; intros v; simpl; [done|]. by rewrite IH. Qed.

Lemma le_ok n : forall v, bytes_ok (le n v).
Proof.
  induction n as [|n IH]; intros v; constructor; [|apply IH].
  unfold u8. apply Z.mod_pos_bound. lia.
Qed.

Lemma le_val_le n : forall v, 0 <= v < 256 ^ Z.of_nat n -> le_val (le n v) = v.
Proof.
  induction n as [|n IH]; intros v Hv; cbn [le le_val].
  - change (256 ^ Z.of_nat 0) with 1 in Hv. lia.
  - rewrite Nat2Z.inj_succ, Z.pow_succ_r in Hv by lia.
    rewrite IH by (Z.div_mod_to_equations; lia). unfold u8. Z.div_mod_to_equations; lia.
Qed.

Lemma le_val_range bs : bytes_ok bs -> 0 <= le_val bs < 256 ^ Z.of_nat (length bs).
Proof.
  induction 1 as [|b bs Hb _ IH]; [done|]. cbn [le_val length].
  rewrite Nat2Z.inj_succ, Z.pow_succ_r by lia. lia.
Qed.

Lemma le_le_val bs : bytes_ok bs -> le (length bs) (le_val bs) = bs.
Proof.
  induction 1 as [|b bs Hb _ IH]; [done|]. cbn [le_val length le].
  replace ((b + 256 * le_val bs) / 256) with (le_val bs) by (Z.div_mod_to_equations; lia).
  rewrite IH. f_equal. unfold u8. Z.div_mod_to_equations; lia.
Qed.

(** A region split around the bytes an access touches. *)
Lemma rd_bytes_app m1 bs m2 p n :
  p = Z.of_nat (length m1) -> n = length bs -> rd_bytes (m1 ++ bs ++ m2) p n = Some bs.
Proof.
  intros -> ->. unfold rd_bytes.
  rewrite (proj2 (Z.leb_le _ _)), (proj2 (Z.leb_le _ _)) by (rewrite ?length_app; lia).
  simpl. by rewrite Nat2Z.id, drop_app_length, take_app_length.
Qed.

Lemma wr_bytes_app m1 old m2 p bs :
  p = Z.of_nat (length m1) -> length bs = length old ->
  wr_bytes (m1 ++ old ++ m2) p bs = Some (m1 ++ bs ++ m2).
Proof.
  intros -> Hl. unfold wr_bytes.
  rewrite (proj2 (Z.leb_le _ _)), (proj2 (Z.leb_le _ _)) by (rewrite ?length_app; lia).
  simpl. rewrite Nat2Z.id, take_app_length, Hl, drop_app_add. by rewrite drop_app_length.
Qed.

Lemma rd_bytes_some m p n bs :
  rd_bytes m p n = Some bs <->
  exists m1 m2, m = m1 ++ bs ++ m2 /\ p = Z.of_nat (length m1) /\ n = length bs.
Proof.
  split.
  - unfold rd_bytes. intros H. destruct (_ && _) eqn:E; [|done]. injection H as <-.
    rewrite andb_true_iff, !Z.leb_le in E.
    exists (take (Z.to_nat p) m), (drop n (drop (Z.to_nat p) m)).
    rewrite !take_drop, length_take, length_take, length_drop. split_and!; [done|lia|lia].
  - intros (m1 & m2 & -> & Hp & Hn). by apply rd_bytes_app.
Qed.

Lemma get_app n m1 bs m2 p :
  p = Z.of_nat (length m1) -> n = length bs -> get n (m1 ++ bs ++ m2) p = Some (le_val bs).
Proof. intros Hp Hn. unfold get. by rewrite rd_bytes_app. Qed.

Lemma set_app n m1 old m2 p v :
  p = Z.of_nat (length m1) -> length old = n ->
  set n (m1 ++ old ++ m2) p v = Some (m1 ++ le n v ++ m2).
Proof. intros Hp Hn. unfold set. apply wr_bytes_app; [done|]. by rewrite length_le. Qed.

(** Accesses that stay in one part of a region. *)
Lemma rd_bytes_app_l m t p n bs :
  rd_bytes m p n = Some bs -> rd_bytes (m ++ t) p n = Some bs.
Proof.
  rewrite !rd_bytes_some. intros (m1 & m2 & -> & Hp & Hn).
  exists m1, (m2 ++ t). by rewrite <- !app_assoc.
Qed.

Lemma rd_bytes_app_r m1 m2 p n :
  0 <= p -> rd_bytes (m1 ++ m2) (Z.of_nat (length m1) + p) n = rd_bytes m2 p n.
Proof.
  intros Hp. unfold rd_bytes. rewrite length_app.
  replace (Z.to_nat (Z.of_nat (length m1) + p)) with (length m1 + Z.to_nat p)%nat by lia.
  rewrite drop_app_add. case_cmp.
Qed.

Lemma wr_bytes_some m p bs m' :
  wr_bytes m p bs = Some m' <->
  exists m1 old m2, m = m1 ++ old ++ m2 /\ p = Z.of_nat (length m1) /\
    length old = length bs /\ m' = m1 ++ bs ++ m2.
Proof.
  split.
  - unfold wr_bytes. intros H. destruct (_ && _) eqn:E; [|done]. injection H as <-.
    rewrite andb_true_iff, !Z.leb_le in E.
    exists (take (Z.to_nat p) m), (take (length bs) (drop (Z.to_nat p) m)),
      (drop (length bs) (drop (Z.to_nat p) m)).
    rewrite !take_drop, !length_take, length_drop, drop_drop. split_and!; [done|lia|lia|done].
  - intros (m1 & old & m2 & -> & Hp & Hl & ->). by apply wr_bytes_app.
Qed.

Lemma wr_bytes_app_l m t p bs m' :
  wr_bytes m p bs = Some m' -> wr_bytes (m ++ t) p bs = Some (m' ++ t).
Proof.
  rewrite !wr_bytes_some. intros (m1 & old & m2 & -> & Hp & Hl & ->).
  exists m1, old, (m2 ++ t). by rewrite <- !app_assoc.
Qed.

Lemma wr_bytes_app_r m1 m2 p bs m' :
  0 <= p -> wr_bytes m2 p bs = Some m' ->
  wr_bytes (m1 ++ m2) (Z.of_nat (length m1) + p) bs = Some (m1 ++ m').
Proof.
  rewrite !wr_bytes_some. intros Hp (n1 & old & n2 & -> & -> & Hl & ->).
  exists (m1 ++ n1), old, n2. rewrite length_app, <- !app_assoc. split_and!; [done|lia|done|done].
Qed.

Lemma get_app_l n m t p v : get n m p = Some v -> get n (m ++ t) p = Some v.
Proof.
  unfold get. destruct (rd_bytes m p n) as [bs|] eqn:E; [|done]. simpl.
  by rewrite (rd_bytes_app_l _ _ _ _ _ E).
Qed.

Lemma get_app_r n m1 m2 p q :
  q = Z.of_nat (length m1) + p -> 0 <= p -> get n (m1 ++ m2) q = get n m2 p.
Proof. intros -> Hp. unfold get. by rewrite rd_bytes_app_r. Qed.

Lemma set_app_l n m t p v m' : set n m p v = Some m' -> set n (m ++ t) p v = Some (m' ++ t).
Proof. apply wr_bytes_app_l. Qed.

Lemma set_app_r n m1 m2 p q v m' :
  q = Z.of_nat (length m1) + p -> 0 <= p -> set n m2 p v = Some m' ->
  set n (m1 ++ m2) q v = Some (m1 ++ m').
Proof. intros -> Hp. apply wr_bytes_app_r. done. Qed.

Lemma get_some_range n m p v :
  bytes_ok m -> get n m p = Some v -> 0 <= v < 256 ^ Z.of_nat n.
Proof.
  unfold get. intros Hm. destruct (rd_bytes m p n) as [bs|] eqn:E; [|done]. simpl.
  intros [= <-]. apply rd_bytes_some in E. destruct E as (m1 & m2 & -> & _ & ->).
  apply le_val_range. unfold bytes_ok in *. rewrite !Forall_app in Hm. tauto.
Qed.

Lemma get8_lookup m p v : 0 <= p -> get8 m p = Some v <-> m !! Z.to_nat p = Some v.
Proof.
  intros Hp. unfold get. split.
  - destruct (rd_bytes m p 1) as [bs|] eqn:E; [|done]. cbn [mbind option_bind].
    intros [= <-]. apply rd_bytes_some in E. destruct E as (m1 & m2 & -> & -> & Hl).
    destruct bs as [|b [|]]; try done. rewrite Nat2Z.id.
    replace (le_val [b]) with b by (simpl; lia). by apply list_lookup_middle.
  - intros H. rewrite <- (take_drop_middle _ _ _ H) at 1.
    change (v :: drop (S (Z.to_nat p)) m) with ([v] ++ drop (S (Z.to_nat p)) m).
    rewrite rd_bytes_app; [|rewrite length_take; apply lookup_lt_Some in H; lia|done].
    simpl. f_equal. lia.
Qed.

Lemma rd_bytes_all m n : n = length m -> rd_bytes m 0 n = Some m.
Proof.
  intros ->. rewrite <- (app_nil_r m) at 1. change (m ++ []) with ([] ++ m ++ []).
  by apply rd_bytes_app.
Qed.

Lemma get8_eq m p : 0 <= p -> get8 m p = m !! Z.to_nat p.
Proof.
  intros Hp. apply option_eq. intros v. by apply get8_lookup.
Qed.

(** Filling a gap [old] from the left: [d] is what is stored already. *)
Lemma wr_bytes_next pre d old post bs p :
  p = Z.of_nat (length pre) + Z.of_nat (length d) -> (length bs <= length old)%nat ->
  wr_bytes (pre ++ d ++ old ++ post) p bs
  = Some (pre ++ (d ++ bs) ++ drop (length bs) old ++ post).
Proof.
  intros -> Hl. rewrite <- (take_drop (length bs) old) at 1.
  rewrite <- (app_assoc (take _ _)), (app_assoc pre d), wr_bytes_app.
  - by rewrite <- !app_assoc.
  - rewrite length_app. lia.
  - rewrite length_take. lia.
Qed.

(** Accesses inside a region succeed. *)
Lemma rd_bytes_in m p n :
  0 <= p -> p + Z.of_nat n <= Z.of_nat (length m) ->
  exists bs, rd_bytes m p n = Some bs /\ length bs = n.
Proof.
  intros Hp Hn. unfold rd_bytes. eexists. split; [case_cmp|].
  rewrite length_take, length_drop. lia.
Qed.

Lemma get_in n m p :
  0 <= p -> p + Z.of_nat n <= Z.of_nat (length m) -> exists v, get n m p = Some v.
Proof.
  intros Hp Hn. unfold get. destruct (rd_bytes_in m p n Hp Hn) as (bs & -> & _). by eexists.
Qed.

(** [m'] differs from [m] between [lo] and [hi] at most. *)
Definition frame (lo hi : Z) (m m' : mem) : Prop :=
  length m' = length m /\
  forall i, Z.of_nat i < lo \/ hi <= Z.of_nat i -> m' !! i = m !! i.

Lemma frame_refl lo hi m : frame lo hi m m.
Proof. by split. Qed.

Lemma frame_trans lo hi m1 m2 m3 : frame lo hi m1 m2 -> frame lo hi m2 m3 -> frame lo hi m1 m3.
Proof.
  intros [Hl1 H1] [Hl2 H2]. split; [congruence|]. intros i Hi. rewrite H2 by done. by apply H1.
Qed.

Lemma frame_widen lo hi lo' hi' m m' :
  frame lo hi m m' -> lo' <= lo -> hi <= hi' -> frame lo' hi' m m'.
Proof. intros [Hl H] ??. split; [done|]. intros i Hi. apply H. lia. Qed.

Lemma wr_bytes_in m p bs :
  0 <= p -> p + Z.of_nat (length bs) <= Z.of_nat (length m) ->
  exists m', wr_bytes m p bs = Some m' /\ frame p (p + Z.of_nat (length bs)) m m'.
Proof.
  intros Hp Hn. unfold wr_bytes. eexists. split; [case_cmp|]. split.
  - rewrite !length_app, length_take, length_drop. lia.
  - intros i Hi. destruct (decide (i < Z.to_nat p)%nat) as [Hlt|Hge].
    + rewrite lookup_app_l by (rewrite length_take; lia). by apply lookup_take_lt.
    + rewrite lookup_app_r; rewrite length_take; [|lia].
      rewrite lookup_app_r by lia. rewrite lookup_drop. f_equal. lia.
Qed.

(** Part of a piece [bs] of the region. *)
Lemma rd_bytes_slice m1 bs m2 p o n :
  p = Z.of_nat (length m1 + o) -> (o + n <= length bs)%nat ->
  rd_bytes (m1 ++ bs ++ m2) p n = Some (take n (drop o bs)).
Proof.
  intros -> Hn. rewrite <- (take_drop o bs) at 1. rewrite <- (take_drop n (drop o bs)) at 1.
  rewrite <- !app_assoc, app_assoc. apply rd_bytes_app; rewrite ?length_app, ?length_take, ?length_drop; lia.
Qed.

(** ** Reads after writes *)

(** The [n] bytes at [p] lie outside each of the ranges. *)
Definition apart (p : Z) (n : nat) (ranges : list (Z * Z)) : Prop :=
  Forall (fun r => p + Z.of_nat n <= r.1 \/ r.1 + r.2 <= p) ranges.

(** [m'] differs from [m] inside the given ranges (address, length) at most. *)
Definition keeps (ranges : list (Z * Z)) (m m' : mem) : Prop :=
  length m' = length m /\ forall p n, apart p n ranges -> rd_bytes m' p n = rd_bytes m p n.

Lemma keeps_refl ranges m : keeps ranges m m.
Proof. by split. Qed.

Lemma keeps_trans r1 r2 m1 m2 m3 : keeps r1 m1 m2 -> keeps r2 m2 m3 -> keeps (r1 ++ r2) m1 m3.
Proof.
  intros [L1 H1] [L2 H2]. split; [congruence|]. intros p n [A1 A2]%Forall_app.
  rewrite H2 by done. by apply H1.
Qed.

Lemma keeps_get ranges m m' n p : keeps ranges m m' -> apart p n ranges -> get n m' p = get n m p.
Proof. intros [_ H] A. unfold get. by rewrite H. Qed.

(** Several writes inside one range. *)
Lemma keeps_within ranges m m' lo n :
  keeps ranges m m' -> Forall (fun r => lo <= r.1 /\ r.1 + r.2 <= lo + n) ranges ->
  keeps [(lo, n)] m m'.
Proof.
  intros [L H] Hr. split; [done|]. intros p k A. apply H.
  unfold apart in *. rewrite Forall_singleton in A. cbn in A.
  revert Hr. apply Forall_impl. intros [a l]; cbn. lia.
Qed.

Lemma wr_keeps m p bs m' :
  wr_bytes m p bs = Some m' ->
  keeps [(p, Z.of_nat (length bs))] m m' /\ rd_bytes m' p (length bs) = Some bs.
Proof.
  rewrite wr_bytes_some. intros (m1 & old & m2 & -> & -> & Hl & ->). split; [|by apply rd_bytes_app].
  split; [rewrite !length_app; lia|]. intros q n A. unfold apart in A.
  rewrite Forall_singleton in A. cbn in A. destruct (Z.ltb_spec q 0) as [Hq|Hq].
  { unfold rd_bytes. by rewrite (proj2 (Z.leb_gt _ _)). }
  destruct A as [A|A].
  - unfold rd_bytes. rewrite !length_app, Hl. case_cmp.
    f_equal. rewrite !drop_app_le, !take_app_le by (rewrite ?length_drop; lia). done.
  - replace q with (Z.of_nat (length m1) + (q - Z.of_nat (length m1))) by lia.
    rewrite !rd_bytes_app_r by lia.
    replace (q - Z.of_nat (length m1)) with
      (Z.of_nat (length bs) + (q - Z.of_nat (length m1) - Z.of_nat (length bs))) by lia.
    rewrite (rd_bytes_app_r bs) by lia. rewrite <- Hl, (rd_bytes_app_r old) by lia. done.
Qed.

Lemma le_val_mod n : forall v, le_val (le n v) = v mod 256 ^ Z.of_nat n.
Proof.
  induction n as [|n IH]; intros v; cbn [le le_val]; [by rewrite Z.mod_1_r|].
  rewrite IH, Nat2Z.inj_succ, Z.pow_succ_r by lia. unfold u8. change (2 ^ 8) with 256.
  rewrite Z.rem_mul_r by lia. done.
Qed.

Lemma set_keeps n m p v m' :
  set n m p v = Some m' ->
  keeps [(p, Z.of_nat n)] m m' /\ get n m' p = Some (v mod 256 ^ Z.of_nat n).
Proof.
  intros [K R]%wr_keeps. rewrite length_le in *. split; [done|].
  unfold get. rewrite R. cbn. by rewrite le_val_mod.
Qed.

Lemma set_in n m p v :
  0 <= p -> p + Z.of_nat n <= Z.of_nat (length m) -> exists m', set n m p v = Some m'.
Proof.
  intros Hp Hn. unfold set. destruct (wr_bytes_in m p (le n v)) as (m' & E & _); rewrite ?length_le; [lia..|].
  by exists m'.
Qed.

Lemma wr_bytes_ok m p bs m' : bytes_ok m -> bytes_ok bs -> wr_bytes m p bs = Some m' -> bytes_ok m'.
Proof.
  unfold bytes_ok. rewrite wr_bytes_some. intros Hm Hbs (m1 & old & m2 & -> & _ & _ & ->).
  rewrite !Forall_app in *. tauto.
Qed.

Lemma rd_bytes_ok m p n bs : bytes_ok m -> rd_bytes m p n = Some bs -> bytes_ok bs.
Proof.
  unfold bytes_ok. rewrite rd_bytes_some. intros Hm (m1 & m2 & -> & _). rewrite !Forall_app in Hm. tauto.
Qed.

(** What is read at [p] is a prefix of the memory from [p] on. *)
Lemma rd_bytes_drop m p n bs :
  rd_bytes m p n = Some bs -> exists t, drop (Z.to_nat p) m = bs ++ t.
Proof.
  rewrite rd_bytes_some. intros (m1 & m2 & -> & -> & _). exists m2.
  by rewrite Nat2Z.id, drop_app_length.
Qed.

(** A read inside a longer one. *)
Lemma rd_bytes_sub m p n bs o k :
  rd_bytes m p n = Some bs -> 0 <= o -> (Z.to_nat o + k <= n)%nat ->
  rd_bytes m (p + o) k = Some (take k (drop (Z.to_nat o) bs)).
Proof.
  rewrite rd_bytes_some. intros (m1 & m2 & -> & -> & ->) Ho Hk.
  apply rd_bytes_slice; lia.
Qed.

Lemma rd_bytes_take m p n k bs :
  rd_bytes m p n = Some bs -> (k <= n)%nat -> rd_bytes m p k = Some (take k bs).
Proof.
  intros E Hk. rewrite <- (Z.add_0_r p). rewrite (rd_bytes_sub _ _ _ _ 0 k E) by lia.
  by rewrite drop_0.
Qed.
