(* ===== verification/RtlSid.v ===== *)
(** Security identifiers: sdk/lib/rtl/sid.c.

    A [PSID] is the memory from the address it points to on, [None] for NULL.
    Layout: [Revision] at 0, [SubAuthorityCount] at 1, [IdentifierAuthority] at
    2 to 7, the subauthorities from 8 on, four bytes each. *)

From S2P Require Import Prelude Bytes.

Definition SID_REVISION : Z := 1.
Definition SID_MAX_SUB_AUTHORITIES : Z := 15.

(** The exception handler's result stands for a read outside the region. *)
Definition RtlValidSid (Sid_ : option mem) : bool :=
  match Sid_ with
  | None => true
  | Some Sid =>
      default false (
        Revision ← get8 Sid 0;
        if negb (Z.land Revision 15 =? SID_REVISION) then Some false else
        SubAuthorityCount ← get8 Sid 1;
        if SID_MAX_SUB_AUTHORITIES <? SubAuthorityCount then Some false else
        Some true)
  end.

Definition RtlLengthRequiredSid (SubAuthorityCount : Z) : Z := u32 (8 + 4 * SubAuthorityCount).

(** [IdentifierAuthority] is its six bytes. *)
Definition RtlInitializeSid (Sid : mem) (IdentifierAuthority : list Z) (SubAuthorityCount : Z)
  : option (Z * mem) :=
  Sid ← set8 Sid 0 SID_REVISION;
  Sid ← set8 Sid 1 SubAuthorityCount;
  Sid ← wr_bytes Sid 2 IdentifierAuthority;
  Some (STATUS_SUCCESS, Sid).

(** The three accessors return addresses: offsets from [Sid]. *)
Definition RtlSubAuthoritySid (SubAuthority : Z) : Z := u32 (8 + 4 * SubAuthority).
Definition RtlSubAuthorityCountSid : Z := 1.
Definition RtlIdentifierAuthoritySid : Z := 2.

Definition RtlLengthSid (Sid : mem) : option Z :=
  SubAuthorityCount ← get8 Sid 1; Some (8 + 4 * SubAuthorityCount).

Fixpoint RtlEqualMemory (s1 s2 : mem) (n : nat) {struct n} : option bool :=
  match n with
  | O => Some true
  | S n' =>
      match s1, s2 with
      | a :: s1', b :: s2' => if a =? b then RtlEqualMemory s1' s2' n' else Some false
      | _, _ => None
      end
  end.

Definition RtlEqualSid (Sid1 Sid2 : mem) : option bool :=
  w1 ← get16 Sid1 0;
  w2 ← get16 Sid2 0;
  if negb (w1 =? w2) then Some false else
  n ← RtlLengthSid Sid1;
  RtlEqualMemory Sid1 Sid2 (Z.to_nat n).

(** [Dest] is an offset in the region [m], [Src] another region. *)
Definition RtlCopySid (BufferLength : Z) (m : mem) (Dest : Z) (Src : mem)
  : option (Z * mem) :=
  SidLength ← RtlLengthSid Src;
  if BufferLength <? SidLength then Some (STATUS_BUFFER_TOO_SMALL, m) else
  bs ← rd_bytes Src 0 (Z.to_nat SidLength);
  m ← wr_bytes m Dest bs;
  Some (STATUS_SUCCESS, m).

(** The [for] loop of [RtlEqualPrefixSid]: [n] iterations from [i]. *)
Fixpoint equal_subauthorities (Sid1 Sid2 : mem) (n : nat) (i : Z) : option bool :=
  match n with
  | O => Some true
  | S n' =>
      a ← get32 Sid1 (8 + 4 * i);
      b ← get32 Sid2 (8 + 4 * i);
      if negb (a =? b) then Some false else equal_subauthorities Sid1 Sid2 n' (i + 1)
  end.

Definition RtlEqualPrefixSid (Sid1 Sid2 : mem) : option bool :=
  r1 ← get8 Sid1 0;
  r2 ← get8 Sid2 0;
  if negb (r1 =? r2) then Some false else
  same ← RtlEqualMemory (drop 2 Sid1) (drop 2 Sid2) 6;
  if (same : bool) then
    c1 ← get8 Sid1 1;
    c2 ← get8 Sid2 1;
    if c1 =? c2 then
      if c1 =? 0 then Some true else equal_subauthorities Sid1 Sid2 (Z.to_nat (c1 - 1)) 0
    else Some false
  else Some false.

(** [Src] pairs each SID with its attributes; an entry of [Dest] pairs the offset
    of the copied SID in [SidArea] with the attributes. *)
Fixpoint RtlCopySidAndAttributesArray (Src : list (mem * Z)) (SidAreaSize : Z)
    (Dest : list (Z * Z)) (m : mem) (SidArea : Z)
  : option (Z * list (Z * Z) * mem * Z * Z) :=
  match Src with
  | [] => Some (STATUS_SUCCESS, Dest, m, SidArea, SidAreaSize)
  | (Sid, Attributes) :: Src' =>
      SidLength ← RtlLengthSid Sid;
      if SidAreaSize <? SidLength then
        Some (STATUS_BUFFER_TOO_SMALL, Dest, m, SidArea, SidAreaSize)
      else
        '(_, m) ← RtlCopySid SidLength m SidArea Sid;
        RtlCopySidAndAttributesArray Src' (SidAreaSize - SidLength)
          (Dest ++ [(SidArea, Attributes)]) m (SidArea + SidLength)
  end.

(** The fall-through [switch]: subauthorities [n - 1] down to 0. *)
Fixpoint store_subauthorities (pSid : mem) (SubAuthorities : list Z) (n : nat) : option mem :=
  match n with
  | O => Some pSid
  | S n' =>
      v ← SubAuthorities !! n';
      pSid ← set32 pSid (8 + 4 * Z.of_nat n') v;
      store_subauthorities pSid SubAuthorities n'
  end.

(** [alloc] is the allocator: fresh memory of the size asked for, or NULL. *)
Definition RtlAllocateAndInitializeSid (alloc : Z -> option mem)
    (IdentifierAuthority : list Z) (SubAuthorityCount : Z) (SubAuthorities : list Z)
  : option (Z * option mem) :=
  if 8 <? SubAuthorityCount then Some (STATUS_INVALID_SID, None) else
  match alloc (RtlLengthRequiredSid SubAuthorityCount) with
  | None => Some (STATUS_NO_MEMORY, None)
  | Some pSid =>
      '(_, pSid) ← RtlInitializeSid pSid IdentifierAuthority SubAuthorityCount;
      pSid ← store_subauthorities pSid SubAuthorities (Z.to_nat SubAuthorityCount);
      Some (STATUS_SUCCESS, Some pSid)
  end.

(** * Correctness *)

(** The memory [s] starts with the well-formed SID [sid]. *)
Record sid_at (s sid : list Z) : Prop := {
  sid_prefix : exists t, s = sid ++ t;
  sid_revision : sid !! 0%nat = Some SID_REVISION;
  sid_count : exists c, sid !! 1%nat = Some c /\ 0 <= c <= SID_MAX_SUB_AUTHORITIES /\
    Z.of_nat (length sid) = 8 + 4 * c;
  sid_bytes : bytes_ok sid
}.

Lemma sid_length s sid : sid_at s sid -> RtlLengthSid s = Some (Z.of_nat (length sid)).
Proof.
  intros [[t ->] _ (c & Hc & _ & Hl) _]. unfold RtlLengthSid. rewrite get8_eq by lia.
  change (Z.to_nat 1) with 1%nat. rewrite (lookup_app_l_Some _ _ _ _ Hc). simpl. f_equal. lia.
Qed.

Lemma sid_valid_at s sid : sid_at s sid -> RtlValidSid (Some s) = true.
Proof.
  intros [[t ->] Hr (c & Hc & Hcr & Hl) _]. unfold RtlValidSid. rewrite !get8_eq by lia.
  change (Z.to_nat 1) with 1%nat. change (Z.to_nat 0) with 0%nat.
  rewrite (lookup_app_l_Some _ _ _ _ Hc), (lookup_app_l_Some _ _ _ _ Hr). simpl.
  by rewrite (proj2 (Z.ltb_ge _ _)) by lia.
Qed.

Lemma sid_read s sid : sid_at s sid -> rd_bytes s 0 (length sid) = Some sid.
Proof. intros [[t ->] _ _ _]. by apply (rd_bytes_app [] sid t). Qed.

Lemma RtlCopySid_at s sid m p m' :
  sid_at s sid -> wr_bytes m p sid = Some m' ->
  RtlCopySid (Z.of_nat (length sid)) m p s = Some (STATUS_SUCCESS, m').
Proof.
  intros Hs Hw. unfold RtlCopySid. rewrite (sid_length s sid Hs). cbn [mbind option_bind].
  rewrite Z.ltb_irrefl, Nat2Z.id, (sid_read s sid Hs). cbn [mbind option_bind]. by rewrite Hw.
Qed.

Lemma RtlEqualMemory_spec a : forall b t1 t2,
  length a = length b ->
  RtlEqualMemory (a ++ t1) (b ++ t2) (length a) = Some (bool_decide (a = b)).
Proof.
  induction a as [|x a IH]; intros [|y b] t1 t2 Hl; try (simpl in Hl; lia).
  { done. }
  simpl. rewrite IH by (simpl in Hl; lia). destruct (Z.eqb_spec x y) as [->|Hne].
  - f_equal. apply bool_decide_ext. split; congruence.
  - rewrite bool_decide_eq_false_2; [done|]. congruence.
Qed.

(** The first two bytes as the code reads them. *)
Lemma sid_word s sid c :
  sid_at s sid -> sid !! 1%nat = Some c -> get16 s 0 = Some (SID_REVISION + 256 * c).
Proof.
  intros [[t ->] Hr _ _] Hc. destruct sid as [|r [|c' sid]]; try done.
  simpl in Hr, Hc. injection Hr as ->. injection Hc as ->.
  rewrite (get_app 2 [] [SID_REVISION; c] (sid ++ t)) by done. simpl. f_equal. lia.
Qed.

(** [RtlEqualSid] decides equality of well-formed SIDs. *)
Lemma RtlEqualSid_spec s1 s2 sid1 sid2 :
  sid_at s1 sid1 -> sid_at s2 sid2 -> RtlEqualSid s1 s2 = Some (bool_decide (sid1 = sid2)).
Proof.
  intros H1 H2. unfold RtlEqualSid.
  destruct (sid_count _ _ H1) as (c1 & Hc1 & Hr1 & Hl1).
  destruct (sid_count _ _ H2) as (c2 & Hc2 & Hr2 & Hl2).
  rewrite (sid_word _ _ _ H1 Hc1), (sid_word _ _ _ H2 Hc2), (sid_length _ _ H1).
  cbn [mbind option_bind]. destruct (Z.eqb_spec (SID_REVISION + 256 * c1) (SID_REVISION + 256 * c2)).
  - cbn [negb]. rewrite Nat2Z.id.
    destruct (sid_prefix _ _ H1) as [t1 ->], (sid_prefix _ _ H2) as [t2 ->].
    apply RtlEqualMemory_spec. lia.
  - cbn [negb]. rewrite bool_decide_eq_false_2; [done|]. congruence.
Qed.

Lemma store_subauthorities_spec subs n : forall hdr tail d,
  length hdr = 8%nat -> length tail = (4 * n)%nat -> (n <= length subs)%nat ->
  store_subauthorities (hdr ++ tail ++ d) subs n
  = Some (hdr ++ concat (le 4 <$> take n subs) ++ d).
Proof.
  induction n as [|n IH]; intros hdr tail d Hh Ht Hn; cbn [store_subauthorities].
  { destruct tail; [|simpl in Ht; lia]. done. }
  destruct (lookup_lt_is_Some_2 subs n) as [v Hv]; [lia|]. rewrite Hv. cbn [mbind option_bind].
  rewrite <- (take_drop (4 * n) tail). set (t1 := take (4 * n) tail). set (t2 := drop (4 * n) tail).
  assert (length t1 = (4 * n)%nat) by (unfold t1; rewrite length_take; lia).
  assert (length t2 = 4%nat) by (unfold t2; rewrite length_drop; lia).
  rewrite <- (app_assoc t1), (app_assoc hdr), set_app by (rewrite ?length_app; lia).
  cbn [mbind option_bind]. rewrite <- app_assoc, IH by (done || lia).
  rewrite (take_S_r _ _ _ Hv), fmap_app, concat_app, <- app_assoc. done.
Qed.

(** The SID with authority [auth] and subauthorities [subs]. *)
Definition sid_of (auth subs : list Z) : list Z :=
  [SID_REVISION; Z.of_nat (length subs)] ++ auth ++ concat (le 4 <$> subs).

Lemma length_subs subs : length (concat (le 4 <$> subs)) = (4 * length subs)%nat.
Proof.
  induction subs as [|v subs IH]; [done|]. cbn [fmap list_fmap concat].
  rewrite length_app, length_le, IH. simpl. lia.
Qed.

Lemma subs_inj subs1 : forall subs2,
  Forall (fun v => 0 <= v < 2 ^ 32) subs1 -> Forall (fun v => 0 <= v < 2 ^ 32) subs2 ->
  concat (le 4 <$> subs1) = concat (le 4 <$> subs2) -> subs1 = subs2.
Proof.
  induction subs1 as [|v subs1 IH]; intros [|w subs2] H1 H2 E; try done.
  inversion H1; inversion H2; subst. cbn [fmap list_fmap concat] in E.
  apply app_inj_1 in E as [Ev E]; [|by rewrite !length_le].
  apply (f_equal le_val) in Ev. rewrite !le_val_le in Ev by done. f_equal; auto.
Qed.

Lemma sid_of_at auth subs :
  length auth = 6%nat -> bytes_ok auth -> (length subs <= 15)%nat ->
  sid_at (sid_of auth subs) (sid_of auth subs).
Proof.
  intros Ha Hb Hn. constructor; [by exists []; rewrite app_nil_r|done| |].
  - exists (Z.of_nat (length subs)). unfold SID_MAX_SUB_AUTHORITIES, sid_of.
    rewrite !length_app, length_subs, Ha. simpl length. split_and!; [done|lia..].
  - unfold sid_of, bytes_ok. rewrite !Forall_app. split_and!; [|done|].
    + repeat constructor; unfold SID_REVISION; lia.
    + apply Forall_concat, Forall_fmap, Forall_forall. intros v _. apply le_ok.
Qed.

Lemma allocate_sid alloc auth subs m :
  alloc (8 + 4 * Z.of_nat (length subs)) = Some m ->
  Z.of_nat (length m) = 8 + 4 * Z.of_nat (length subs) ->
  length auth = 6%nat -> (length subs <= 8)%nat ->
  RtlAllocateAndInitializeSid alloc auth (Z.of_nat (length subs)) subs
  = Some (STATUS_SUCCESS, Some (sid_of auth subs)).
Proof.
  intros Hal Hm Ha Hn. unfold RtlAllocateAndInitializeSid, RtlInitializeSid, RtlLengthRequiredSid.
  rewrite (proj2 (Z.ltb_ge 8 _)), u32_small, Hal by lia.
  destruct m as [|b0 [|b1 m]]; [simpl in Hm; lia..|]. simpl length in Hm.
  rewrite (set_app 1 [] [b0] (b1 :: m) 0) by done. cbn [mbind option_bind].
  rewrite (set_app 1 (le 1 SID_REVISION) [b1] m 1) by done. cbn [mbind option_bind].
  rewrite <- (take_drop 6 m).
  rewrite (app_assoc (le 1 SID_REVISION)), wr_bytes_app by (rewrite ?length_take; done || lia).
  cbn [mbind option_bind]. rewrite Nat2Z.id, app_assoc, <- (app_nil_r (drop 6 m)).
  rewrite store_subauthorities_spec, take_ge, app_nil_r.
  - unfold sid_of. rewrite <- !app_assoc. cbn [mbind option_bind].
    replace (le 1 (Z.of_nat (length subs))) with [Z.of_nat (length subs)]; [done|].
    cbn [le]. unfold u8. by rewrite Z.mod_small by lia.
  - done.
  - rewrite !length_app, Ha. done.
  - rewrite length_drop. lia.
  - done.
Qed.

(** [RtlAllocateAndInitializeSid] builds, in the memory the allocator
    hands out, the well-formed SID with the given authority and subauthorities, and
    [RtlEqualSid] tells two such SIDs apart exactly when they differ. *)
Theorem allocate_sid_equal alloc auth1 auth2 subs1 subs2 :
  (forall n, 0 <= n -> exists m, alloc n = Some m /\ Z.of_nat (length m) = n) ->
  length auth1 = 6%nat -> length auth2 = 6%nat -> bytes_ok auth1 -> bytes_ok auth2 ->
  (length subs1 <= 8)%nat -> (length subs2 <= 8)%nat ->
  Forall (fun v => 0 <= v < 2 ^ 32) subs1 -> Forall (fun v => 0 <= v < 2 ^ 32) subs2 ->
  exists s1 s2,
    RtlAllocateAndInitializeSid alloc auth1 (Z.of_nat (length subs1)) subs1
      = Some (STATUS_SUCCESS, Some s1) /\
    RtlAllocateAndInitializeSid alloc auth2 (Z.of_nat (length subs2)) subs2
      = Some (STATUS_SUCCESS, Some s2) /\
    sid_at s1 s1 /\ sid_at s2 s2 /\
    RtlEqualSid s1 s2 = Some (bool_decide (auth1 = auth2 /\ subs1 = subs2)).
Proof.
  intros Hal Ha1 Ha2 Hb1 Hb2 Hn1 Hn2 Hs1 Hs2.
  destruct (Hal (8 + 4 * Z.of_nat (length subs1))) as (m1 & E1 & L1); [lia|].
  destruct (Hal (8 + 4 * Z.of_nat (length subs2))) as (m2 & E2 & L2); [lia|].
  exists (sid_of auth1 subs1), (sid_of auth2 subs2).
  assert (A1 := sid_of_at auth1 subs1 Ha1 Hb1 ltac:(lia)).
  assert (A2 := sid_of_at auth2 subs2 Ha2 Hb2 ltac:(lia)).
  split_and!; [by eapply allocate_sid|by eapply allocate_sid|done|done|].
  rewrite (RtlEqualSid_spec _ _ _ _ A1 A2). f_equal. apply bool_decide_ext.
  split; [|by intros [-> ->]]. unfold sid_of. intros [= _ E].
  apply app_inj_1 in E as [-> E]; [|lia]. split; [done|]. by apply subs_inj.
Qed.

Lemma allocate_sid_equal_witness :
  exists s1 s2,
    RtlAllocateAndInitializeSid (fun n => Some (replicate (Z.to_nat n) 0)) [0; 0; 0; 0; 0; 5] 1 [18]
      = Some (STATUS_SUCCESS, Some s1) /\
    RtlAllocateAndInitializeSid (fun n => Some (replicate (Z.to_nat n) 0)) [0; 0; 0; 0; 0; 5] 2 [32; 544]
      = Some (STATUS_SUCCESS, Some s2) /\ RtlEqualSid s1 s2 = Some false.
Proof.
  destruct (allocate_sid_equal (fun n => Some (replicate (Z.to_nat n) 0)) [0; 0; 0; 0; 0; 5]
    [0; 0; 0; 0; 0; 5] [18] [32; 544]) as (s1 & s2 & E1 & E2 & _ & _ & E);
    try done; try (repeat constructor; lia).
  - intros n Hn. exists (replicate (Z.to_nat n) 0). rewrite length_replicate. split; [done|lia].
  - exists s1, s2. split_and!; [exact E1|exact E2|exact E].
Defined.
