(* ===== verification/RtlAcl.v ===== *)
(** Access control lists: sdk/lib/rtl/acl.c.

    The region [m] starts at the ACL, so a pointer to an ACE is its offset from
    the ACL.  Layout of the header: [AclRevision] at 0, [Sbz1] at 1, [AclSize]
    at 2, [AceCount] at 4, [Sbz2] at 6.  Layout of an ACE: [AceType] at 0,
    [AceFlags] at 1, [AceSize] at 2, [Mask] at 4; then the SID at 8, or for an
    object ACE [Flags] at 8, the GUIDs from 12 on, and the SID. *)

From S2P Require Import Prelude Bytes RtlSid.

Definition MIN_ACL_REVISION : Z := 2.
Definition ACL_REVISION3 : Z := 3.
Definition ACL_REVISION4 : Z := 4.
Definition MAX_ACL_REVISION : Z := 4.

Definition ACCESS_ALLOWED_ACE_TYPE : Z := 0.
Definition ACCESS_DENIED_ACE_TYPE : Z := 1.
Definition SYSTEM_AUDIT_ACE_TYPE : Z := 2.
Definition ACCESS_MAX_MS_V2_ACE_TYPE : Z := 3.
Definition ACCESS_ALLOWED_COMPOUND_ACE_TYPE : Z := 4.
Definition ACCESS_MAX_MS_V3_ACE_TYPE : Z := 4.
Definition ACCESS_MIN_MS_OBJECT_ACE_TYPE : Z := 5.
Definition ACCESS_ALLOWED_OBJECT_ACE_TYPE : Z := 5.
Definition ACCESS_DENIED_OBJECT_ACE_TYPE : Z := 6.
Definition SYSTEM_AUDIT_OBJECT_ACE_TYPE : Z := 7.
Definition ACCESS_MAX_MS_OBJECT_ACE_TYPE : Z := 8.
Definition ACCESS_MAX_MS_ACE_TYPE : Z := 8.
Definition SYSTEM_AUDIT_CALLBACK_OBJECT_ACE_TYPE : Z := 15.

Definition VALID_INHERIT_FLAGS : Z := 0x1F.
Definition SUCCESSFUL_ACCESS_ACE_FLAG : Z := 0x40.
Definition FAILED_ACCESS_ACE_FLAG : Z := 0x80.
Definition ACE_OBJECT_TYPE_PRESENT : Z := 1.
Definition ACE_INHERITED_OBJECT_TYPE_PRESENT : Z := 2.

Definition sizeof_ACL : Z := 8.
Definition sizeof_ACE_HEADER : Z := 4.
Definition sizeof_ACE : Z := 8.
Definition sizeof_KNOWN_OBJECT_ACE : Z := 16.
Definition sizeof_GUID : Z := 16.

(** ** Header and ACE fields *)

Definition AclRevision (m : mem) : option Z := get8 m 0.
Definition AclSize (m : mem) : option Z := get16 m 2.
Definition AceCount (m : mem) : option Z := get16 m 4.
Definition AceType (m : mem) (Ace : Z) : option Z := get8 m Ace.
Definition AceSize (m : mem) (Ace : Z) : option Z := get16 m (Ace + 2).

(** ** Walking *)

(** The [for] loop of [RtlFirstFreeAce], [n] ACEs left; [Some None] is the
    [return FALSE]. *)
Fixpoint first_free_loop (m : mem) (AclEnd : Z) (n : nat) (Current : Z)
  : option (option Z) :=
  match n with
  | O => Some (Some Current)
  | S n' =>
      if AclEnd <=? Current then Some None else
      size ← AceSize m Current;
      first_free_loop m AclEnd n' (Current + size)
  end.

(** Result: the return value and [*FirstFreeAce]. *)
Definition RtlFirstFreeAce (m : mem) : option (bool * option Z) :=
  AclEnd ← AclSize m;
  count ← AceCount m;
  r ← first_free_loop m AclEnd (Z.to_nat count) sizeof_ACL;
  match r with
  | None => Some (false, None)
  | Some Current => Some (true, if Current <=? AclEnd then Some Current else None)
  end.

(** [n] steps to the next ACE. *)
Fixpoint skip_aces (m : mem) (n : nat) (Ace : Z) : option Z :=
  match n with
  | O => Some Ace
  | S n' => size ← AceSize m Ace; skip_aces m n' (Ace + size)
  end.

(** ** Validation *)

(** The body of the validation loop for the ACE at [Ace]. *)
Definition valid_known_ace (m : mem) (Ace AceSize : Z) : option bool :=
  if negb (ROUND_DOWN AceSize 4 =? AceSize) then Some false else
  if AceSize <? sizeof_ACE_HEADER then Some false else
  let Sid := Ace + 8 in
  Revision ← get8 m Sid;
  if negb (Revision =? SID_REVISION) then Some false else
  SubAuthorityCount ← get8 m (Sid + 1);
  if SID_MAX_SUB_AUTHORITIES <? SubAuthorityCount then Some false else
  LengthSid ← RtlLengthSid (drop (Z.to_nat Sid) m);
  Some (negb (AceSize <? sizeof_ACE_HEADER + LengthSid)).

Definition valid_object_ace (m : mem) (AclRevision Ace AceSize : Z) : option bool :=
  if AclRevision <? ACL_REVISION4 then Some false else
  if negb (ROUND_DOWN AceSize 4 =? AceSize) then Some false else
  if AceSize <? sizeof_KNOWN_OBJECT_ACE then Some false else
  Flags ← get32 m (Ace + 8);
  let GuidSize := (if has Flags ACE_OBJECT_TYPE_PRESENT then sizeof_GUID else 0) +
                  (if has Flags ACE_INHERITED_OBJECT_TYPE_PRESENT then sizeof_GUID else 0) in
  let Sid := Ace + 12 + GuidSize in
  Revision ← get8 m Sid;
  if negb (Revision =? SID_REVISION) then Some false else
  SubAuthorityCount ← get8 m (Sid + 1);
  if SID_MAX_SUB_AUTHORITIES <? SubAuthorityCount then Some false else
  LengthSid ← RtlLengthSid (drop (Z.to_nat Sid) m);
  let RequiredObjectAceSize := u16 ((sizeof_KNOWN_OBJECT_ACE - 4) + GuidSize + LengthSid) in
  Some (negb (AceSize <? RequiredObjectAceSize)).

Definition valid_ace (m : mem) (AclRevision AclSize Ace : Z) : option bool :=
  if AclSize <=? Ace + sizeof_ACE_HEADER then Some false else
  size ← AceSize m Ace;
  if negb (ROUND_DOWN size 2 =? size) then Some false else
  if AclSize <? Ace + size then Some false else
  type ← AceType m Ace;
  if type <=? ACCESS_MAX_MS_V2_ACE_TYPE then valid_known_ace m Ace size
  else if (type =? ACCESS_ALLOWED_OBJECT_ACE_TYPE) || (type =? ACCESS_DENIED_OBJECT_ACE_TYPE)
  then valid_object_ace m AclRevision Ace size
  else if type =? ACCESS_ALLOWED_COMPOUND_ACE_TYPE then Some true
  else if (ACCESS_MIN_MS_OBJECT_ACE_TYPE <=? type) && (type <=? ACCESS_MAX_MS_OBJECT_ACE_TYPE)
  then Some true
  else Some (negb (size <? sizeof_ACE_HEADER)).

Fixpoint valid_aces (m : mem) (AclRevision AclSize : Z) (n : nat) (Ace : Z) : option bool :=
  match n with
  | O => Some true
  | S n' =>
      ok ← valid_ace m AclRevision AclSize Ace;
      if negb ok then Some false else
      size ← AceSize m Ace;
      valid_aces m AclRevision AclSize n' (Ace + size)
  end.

(** A read outside the region raises the exception the handler turns into FALSE. *)
Definition RtlValidAcl (m : mem) : bool :=
  default false (
    Revision ← AclRevision m;
    if (Revision <? MIN_ACL_REVISION) || (MAX_ACL_REVISION <? Revision) then Some false else
    Size ← AclSize m;
    if negb (ROUND_DOWN Size 2 =? Size) then Some false else
    if Size <? sizeof_ACL then Some false else
    count ← AceCount m;
    valid_aces m Revision Size (Z.to_nat count) sizeof_ACL).

(** ** Adding known ACEs *)

Definition max_known_flags (audit : bool) : Z :=
  if audit
  then Z.lor VALID_INHERIT_FLAGS (Z.lor SUCCESSFUL_ACCESS_ACE_FLAG FAILED_ACCESS_ACE_FLAG)
  else VALID_INHERIT_FLAGS.

(** The end of both functions: [AceCount++] and the revision. *)
Definition finish_add (m : mem) (Revision : Z) : option (Z * mem) :=
  count ← AceCount m;
  m ← set16 m 4 (count + 1);
  m ← set8 m 0 Revision;
  Some (STATUS_SUCCESS, m).

Definition RtlpAddKnownAce (m : mem) (Revision Flags AccessMask : Z) (Sid : option mem)
    (Type_ : Z) : option (Z * mem) :=
  if negb (RtlValidSid Sid) then Some (STATUS_INVALID_SID, m) else
  rev ← AclRevision m;
  if (ACL_REVISION4 <? rev) || (ACL_REVISION4 <? Revision)
  then Some (STATUS_REVISION_MISMATCH, m) else
  let Revision := if Revision <? rev then rev else Revision in
  let InvalidFlags := Z.land Flags (not32 (max_known_flags (Type_ =? SYSTEM_AUDIT_ACE_TYPE))) in
  if negb (InvalidFlags =? 0) then Some (STATUS_INVALID_PARAMETER, m) else
  if negb (RtlValidAcl m) then Some (STATUS_INVALID_ACL, m) else
  '(ok, Ace) ← RtlFirstFreeAce m;
  if negb ok then Some (STATUS_INVALID_ACL, m) else
  Sid ← Sid;
  LengthSid ← RtlLengthSid Sid;
  let AceSize := LengthSid + sizeof_ACE in
  Size ← AclSize m;
  match Ace with
  | None => Some (STATUS_ALLOTTED_SPACE_EXCEEDED, m)
  | Some Ace =>
      if Size <? Ace + AceSize then Some (STATUS_ALLOTTED_SPACE_EXCEEDED, m) else
      m ← set8 m (Ace + 1) Flags;
      m ← set8 m Ace Type_;
      m ← set16 m (Ace + 2) AceSize;
      m ← set32 m (Ace + 4) AccessMask;
      '(_, m) ← RtlCopySid LengthSid m (Ace + 8) Sid;
      finish_add m Revision
  end.

(** [if (Guid) { RtlCopyMemory(SidStart, Guid, sizeof(GUID)); SidStart += ...; }] *)
Definition copy_guid (m : mem) (SidStart : Z) (Guid : option (list Z)) : option (mem * Z) :=
  match Guid with
  | None => Some (m, SidStart)
  | Some g => m ← wr_bytes m SidStart g; Some (m, SidStart + sizeof_GUID)
  end.

(** A GUID is its sixteen bytes. *)
Definition RtlpAddKnownObjectAce (m : mem) (Revision Flags AccessMask : Z)
    (ObjectTypeGuid InheritedObjectTypeGuid : option (list Z)) (Sid : option mem)
    (Type_ : Z) : option (Z * mem) :=
  if negb (RtlValidSid Sid) then Some (STATUS_INVALID_SID, m) else
  rev ← AclRevision m;
  if (ACL_REVISION4 <? rev) || negb (Revision =? ACL_REVISION4)
  then Some (STATUS_REVISION_MISMATCH, m) else
  let Revision := if Revision <? rev then rev else Revision in
  let InvalidFlags := Z.land Flags (not32 (max_known_flags
    ((Type_ =? SYSTEM_AUDIT_OBJECT_ACE_TYPE) || (Type_ =? SYSTEM_AUDIT_CALLBACK_OBJECT_ACE_TYPE)))) in
  if negb (InvalidFlags =? 0) then Some (STATUS_INVALID_PARAMETER, m) else
  if negb (RtlValidAcl m) then Some (STATUS_INVALID_ACL, m) else
  '(ok, Ace) ← RtlFirstFreeAce m;
  if negb ok then Some (STATUS_INVALID_ACL, m) else
  Sid ← Sid;
  LengthSid ← RtlLengthSid Sid;
  let AceSize := LengthSid + sizeof_ACE + 4 in
  let AceObjectFlags := if ObjectTypeGuid is Some _ then ACE_OBJECT_TYPE_PRESENT else 0 in
  let AceSize := if ObjectTypeGuid is Some _ then AceSize + sizeof_GUID else AceSize in
  let AceObjectFlags := if InheritedObjectTypeGuid is Some _
    then Z.lor AceObjectFlags ACE_INHERITED_OBJECT_TYPE_PRESENT else AceObjectFlags in
  let AceSize := if InheritedObjectTypeGuid is Some _ then AceSize + sizeof_GUID else AceSize in
  Size ← AclSize m;
  match Ace with
  | None => Some (STATUS_ALLOTTED_SPACE_EXCEEDED, m)
  | Some Ace =>
      if Size <? Ace + AceSize then Some (STATUS_ALLOTTED_SPACE_EXCEEDED, m) else
      m ← set8 m (Ace + 1) Flags;
      m ← set8 m Ace Type_;
      m ← set16 m (Ace + 2) AceSize;
      m ← set32 m (Ace + 4) AccessMask;
      m ← set32 m (Ace + 8) AceObjectFlags;
      '(m, SidStart) ← copy_guid m (Ace + 12) ObjectTypeGuid;
      '(m, SidStart) ← copy_guid m SidStart InheritedObjectTypeGuid;
      '(_, m) ← RtlCopySid LengthSid m SidStart Sid;
      finish_add m Revision
  end.

Definition RtlAddAccessAllowedAce (m : mem) (Revision AccessMask : Z) (Sid : option mem) :=
  RtlpAddKnownAce m Revision 0 AccessMask Sid ACCESS_ALLOWED_ACE_TYPE.

Definition RtlAddAccessAllowedAceEx (m : mem) (Revision Flags AccessMask : Z)
    (Sid : option mem) :=
  RtlpAddKnownAce m Revision Flags AccessMask Sid ACCESS_ALLOWED_ACE_TYPE.

Definition RtlAddAccessAllowedObjectAce (m : mem) (Revision Flags AccessMask : Z)
    (ObjectTypeGuid InheritedObjectTypeGuid : option (list Z)) (Sid : option mem) :=
  match ObjectTypeGuid, InheritedObjectTypeGuid with
  | None, None => RtlpAddKnownAce m Revision Flags AccessMask Sid ACCESS_ALLOWED_ACE_TYPE
  | _, _ => RtlpAddKnownObjectAce m Revision Flags AccessMask ObjectTypeGuid
              InheritedObjectTypeGuid Sid ACCESS_ALLOWED_OBJECT_ACE_TYPE
  end.

Definition RtlAddAccessDeniedAce (m : mem) (Revision AccessMask : Z) (Sid : option mem) :=
  RtlpAddKnownAce m Revision 0 AccessMask Sid ACCESS_DENIED_ACE_TYPE.

Definition RtlAddAccessDeniedAceEx (m : mem) (Revision Flags AccessMask : Z)
    (Sid : option mem) :=
  RtlpAddKnownAce m Revision Flags AccessMask Sid ACCESS_DENIED_ACE_TYPE.

Definition RtlAddAccessDeniedObjectAce (m : mem) (Revision Flags AccessMask : Z)
    (ObjectTypeGuid InheritedObjectTypeGuid : option (list Z)) (Sid : option mem) :=
  match ObjectTypeGuid, InheritedObjectTypeGuid with
  | None, None => RtlpAddKnownAce m Revision Flags AccessMask Sid ACCESS_DENIED_ACE_TYPE
  | _, _ => RtlpAddKnownObjectAce m Revision Flags AccessMask ObjectTypeGuid
              InheritedObjectTypeGuid Sid ACCESS_DENIED_OBJECT_ACE_TYPE
  end.

Definition audit_flags (Flags : Z) (Success Failure : bool) : Z :=
  let Flags := if Success then Z.lor Flags SUCCESSFUL_ACCESS_ACE_FLAG else Flags in
  if Failure then Z.lor Flags FAILED_ACCESS_ACE_FLAG else Flags.

Definition RtlAddAuditAccessAce (m : mem) (Revision AccessMask : Z) (Sid : option mem)
    (Success Failure : bool) :=
  RtlpAddKnownAce m Revision (audit_flags 0 Success Failure) AccessMask Sid
    SYSTEM_AUDIT_ACE_TYPE.

Definition RtlAddAuditAccessAceEx (m : mem) (Revision Flags AccessMask : Z)
    (Sid : option mem) (Success Failure : bool) :=
  RtlpAddKnownAce m Revision (audit_flags Flags Success Failure) AccessMask Sid
    SYSTEM_AUDIT_ACE_TYPE.

Definition RtlAddAuditAccessObjectAce (m : mem) (Revision Flags AccessMask : Z)
    (ObjectTypeGuid InheritedObjectTypeGuid : option (list Z)) (Sid : option mem)
    (Success Failure : bool) :=
  let Flags := audit_flags Flags Success Failure in
  match ObjectTypeGuid, InheritedObjectTypeGuid with
  | None, None => RtlpAddKnownAce m Revision Flags AccessMask Sid SYSTEM_AUDIT_ACE_TYPE
  | _, _ => RtlpAddKnownObjectAce m Revision Flags AccessMask ObjectTypeGuid
              InheritedObjectTypeGuid Sid SYSTEM_AUDIT_OBJECT_ACE_TYPE
  end.

(** ** Access by index, insertion, deletion *)

(** The loop of [RtlGetAce]: whether it ran to its end, and [*Ace]. *)
Fixpoint get_ace_loop (m : mem) (AclEnd : Z) (n : nat) (Ace : Z) : option (bool * Z) :=
  match n with
  | O => Some (true, Ace)
  | S n' =>
      if AclEnd <=? Ace then Some (false, Ace) else
      size ← AceSize m Ace;
      get_ace_loop m AclEnd n' (Ace + size)
  end.

(** Result: the status and [*Ace], [None] if it is not written. *)
Definition RtlGetAce (m : mem) (AceIndex : Z) : option (Z * option Z) :=
  rev ← AclRevision m;
  count ← AceCount m;
  if (rev <? MIN_ACL_REVISION) || (MAX_ACL_REVISION <? rev) || (count <=? AceIndex)
  then Some (STATUS_INVALID_PARAMETER, None) else
  Size ← AclSize m;
  '(ok, Ace) ← get_ace_loop m Size (Z.to_nat AceIndex) sizeof_ACL;
  if negb ok then Some (STATUS_INVALID_PARAMETER, Some Ace) else
  if Size <=? Ace then Some (STATUS_INVALID_PARAMETER, Some Ace)
  else Some (STATUS_SUCCESS, Some Ace).

(** [AceList] is the memory the new ACEs are in. *)
Definition RtlpAddData (m : mem) (AceList : mem) (AceListLength Ace Offset : Z)
  : option mem :=
  m ← (if 0 <? Offset then RtlMoveMemory m (Ace + AceListLength) Ace Offset else Some m);
  if negb (AceListLength =? 0) then
    bs ← rd_bytes AceList 0 (Z.to_nat AceListLength);
    wr_bytes m Ace bs
  else Some m.

Definition RtlpDeleteData (m : mem) (Ace AceSize Offset : Z) : option mem :=
  m ← (if AceSize <? Offset
       then RtlMoveMemory m Ace (Ace + AceSize) (Offset - AceSize) else Some m);
  if u32 (Offset - AceSize) <? Offset
  then RtlZeroMemory m (Ace + Offset - AceSize) AceSize else Some m.

(** The check of the new ACEs: [Ace] runs over [AceList].  [Some None] is the
    early [STATUS_INVALID_PARAMETER]; otherwise the end address and the count. *)
Fixpoint new_aces (fuel : nat) (AceList : mem) (AceListLength AclRevision Ace NewAceCount : Z)
  : option (option (Z * Z)) :=
  match fuel with
  | O => None
  | S fuel' =>
      if Ace <? AceListLength then
        type ← AceType AceList Ace;
        if (type <=? ACCESS_MAX_MS_ACE_TYPE) &&
           (if ACCESS_MAX_MS_V3_ACE_TYPE <? type then AclRevision <? ACL_REVISION4
            else if ACCESS_MAX_MS_V2_ACE_TYPE <? type then AclRevision <? ACL_REVISION3
            else false)
        then Some None else
        size ← AceSize AceList Ace;
        new_aces fuel' AceList AceListLength AclRevision (Ace + size) (u16 (NewAceCount + 1))
      else Some (Some (Ace, NewAceCount))
  end.

(** Every ACE of a well-formed list takes a byte at least, so [AceListLength] + 1
    rounds suffice; a list with an empty ACE keeps the code in its loop. *)
Definition RtlAddAce (m : mem) (AclRevision' StartingIndex : Z) (AceList : mem)
    (AceListLength : Z) : option (Z * mem) :=
  if negb (RtlValidAcl m) then Some (STATUS_INVALID_PARAMETER, m) else
  '(ok, FreeAce) ← RtlFirstFreeAce m;
  if negb ok then Some (STATUS_INVALID_PARAMETER, m) else
  r ← new_aces (S (Z.to_nat AceListLength)) AceList AceListLength AclRevision' 0 0;
  match r with
  | None => Some (STATUS_INVALID_PARAMETER, m)
  | Some (Ace, NewAceCount) =>
      if AceListLength <? Ace then Some (STATUS_INVALID_PARAMETER, m) else
      Size ← AclSize m;
      match FreeAce with
      | None => Some (STATUS_BUFFER_TOO_SMALL, m)
      | Some FreeAce =>
          if Size <? FreeAce + AceListLength then Some (STATUS_BUFFER_TOO_SMALL, m) else
          count ← AceCount m;
          Ace ← skip_aces m (Z.to_nat (Z.min StartingIndex count)) sizeof_ACL;
          m ← RtlpAddData m AceList AceListLength Ace (FreeAce - Ace);
          count ← AceCount m;
          m ← set16 m 4 (count + NewAceCount);
          rev ← AclRevision m;
          m ← set8 m 0 (Z.min rev AclRevision');
          Some (STATUS_SUCCESS, m)
      end
  end.

Definition RtlDeleteAce (m : mem) (AceIndex : Z) : option (Z * mem) :=
  if negb (RtlValidAcl m) then Some (STATUS_INVALID_PARAMETER, m) else
  count ← AceCount m;
  if count <=? AceIndex then Some (STATUS_INVALID_PARAMETER, m) else
  '(ok, FreeAce) ← RtlFirstFreeAce m;
  if negb ok then Some (STATUS_INVALID_PARAMETER, m) else
  Ace ← skip_aces m (Z.to_nat AceIndex) sizeof_ACL;
  size ← AceSize m Ace;
  m ← RtlpDeleteData m Ace size (u32 (default 0 FreeAce - Ace));
  count ← AceCount m;
  m ← set16 m 4 (count - 1);
  Some (STATUS_SUCCESS, m).

(** ** Creation and the two information classes *)

Definition RtlCreateAcl (m : mem) (AclSize AclRevision : Z) : option (Z * mem) :=
  if AclSize <? sizeof_ACL then Some (STATUS_BUFFER_TOO_SMALL, m) else
  if (AclRevision <? MIN_ACL_REVISION) || (MAX_ACL_REVISION <? AclRevision) || (65535 <? AclSize)
  then Some (STATUS_INVALID_PARAMETER, m) else
  m ← set16 m 2 (ROUND_UP AclSize 4);
  m ← set8 m 0 AclRevision;
  m ← set16 m 4 0;
  m ← set8 m 1 0;
  m ← set16 m 6 0;
  Some (STATUS_SUCCESS, m).

Inductive ACL_INFORMATION_CLASS :=
| AclRevisionInformation
| AclSizeInformation
| AclOtherInformation (n : Z).

Inductive AclInformation :=
| RevisionInfo (AclRevision : Z)
| SizeInfo (AceCount AclBytesInUse AclBytesFree : Z).

Definition RtlQueryInformationAcl (m : mem) (InformationLength : Z)
    (InformationClass : ACL_INFORMATION_CLASS) : option (Z * option AclInformation) :=
  rev ← AclRevision m;
  if (rev <? MIN_ACL_REVISION) || (MAX_ACL_REVISION <? rev)
  then Some (STATUS_INVALID_PARAMETER, None) else
  match InformationClass with
  | AclRevisionInformation =>
      if InformationLength <? 4 then Some (STATUS_BUFFER_TOO_SMALL, None)
      else Some (STATUS_SUCCESS, Some (RevisionInfo rev))
  | AclSizeInformation =>
      if InformationLength <? 12 then Some (STATUS_BUFFER_TOO_SMALL, None) else
      '(ok, Ace) ← RtlFirstFreeAce m;
      if negb ok then Some (STATUS_INVALID_PARAMETER, None) else
      count ← AceCount m;
      Size ← AclSize m;
      Some (STATUS_SUCCESS, Some (match Ace with
        | Some Ace => SizeInfo count Ace (u32 (Size - Ace))
        | None => SizeInfo count Size 0
        end))
  | AclOtherInformation _ => Some (STATUS_INVALID_INFO_CLASS, None)
  end.

(** [Info] is the [AclRevision] field of the caller's buffer. *)
Definition RtlSetInformationAcl (m : mem) (Info InformationLength : Z)
    (InformationClass : ACL_INFORMATION_CLASS) : option (Z * mem) :=
  rev ← AclRevision m;
  if (rev <? MIN_ACL_REVISION) || (MAX_ACL_REVISION <? rev)
  then Some (STATUS_INVALID_PARAMETER, m) else
  match InformationClass with
  | AclRevisionInformation =>
      if InformationLength <? 4 then Some (STATUS_BUFFER_TOO_SMALL, m) else
      if Info <=? rev then Some (STATUS_INVALID_PARAMETER, m) else
      m ← set8 m 0 Info;
      Some (STATUS_SUCCESS, m)
  | _ => Some (STATUS_INVALID_INFO_CLASS, m)
  end.

(** * Correctness *)

(** ** The abstract ACL: a revision, a size and a list of ACEs *)

(** An ACE as its bytes, the header's [AceSize] being their number. *)
Record ace_ok (a : list Z) : Prop := {
  ace_bytes : bytes_ok a;
  ace_min : sizeof_ACE_HEADER <= Z.of_nat (length a);
  ace_size : AceSize a 0 = Some (Z.of_nat (length a))
}.

Definition bytes_of (aces : list (list Z)) : Z := Z.of_nat (length (concat aces)).

Definition header (rev s1 size n s2 s3 : Z) : list Z :=
  [rev; s1] ++ le 2 size ++ le 2 n ++ [s2; s3].

(** [m] holds an ACL with these ACEs; [rest] is what follows the last one. *)
Record acl_rep (m : mem) (rev size : Z) (aces : list (list Z)) (rest : mem) : Prop := {
  rep_mem : exists s1 s2 s3,
    m = header rev s1 size (Z.of_nat (length aces)) s2 s3 ++ concat aces ++ rest;
  rep_rev : MIN_ACL_REVISION <= rev <= MAX_ACL_REVISION;
  rep_size : sizeof_ACL + bytes_of aces <= size < 2 ^ 16;
  rep_room : size <= sizeof_ACL + bytes_of aces + Z.of_nat (length rest);
  rep_count : Z.of_nat (length aces) < 2 ^ 16;
  rep_even : size mod 2 = 0;
  rep_aces : Forall ace_ok aces
}.

Lemma length_header rev s1 size n s2 s3 : length (header rev s1 size n s2 s3) = 8%nat.
Proof. done. Qed.

Lemma bytes_of_app l1 l2 : bytes_of (l1 ++ l2) = bytes_of l1 + bytes_of l2.
Proof. unfold bytes_of. rewrite concat_app, length_app. lia. Qed.

Lemma bytes_of_nonneg l : 0 <= bytes_of l.
Proof. unfold bytes_of. lia. Qed.

Lemma bytes_of_cons a l : bytes_of (a :: l) = Z.of_nat (length a) + bytes_of l.
Proof. unfold bytes_of. simpl. rewrite length_app. lia. Qed.

Lemma le2_val v : 0 <= v < 2 ^ 16 -> le_val (le 2 v) = v.
Proof. intros. by apply le_val_le. Qed.

Section header.
Context (rev s1 size n s2 s3 : Z) (t : mem).
Hypothesis Hsize : 0 <= size < 2 ^ 16.
Hypothesis Hn : 0 <= n < 2 ^ 16.

Lemma header_revision : AclRevision (header rev s1 size n s2 s3 ++ t) = Some rev.
Proof. apply get_app_l. unfold get. simpl. f_equal. lia. Qed.

Lemma header_size : AclSize (header rev s1 size n s2 s3 ++ t) = Some size.
Proof.
  apply get_app_l. unfold header. rewrite (get_app 2 [rev; s1] (le 2 size)) by done.
  by rewrite le2_val.
Qed.

Lemma header_count : AceCount (header rev s1 size n s2 s3 ++ t) = Some n.
Proof.
  apply get_app_l. unfold header. rewrite app_assoc, (get_app 2 _ (le 2 n)) by done.
  by rewrite le2_val.
Qed.

Lemma header_set_count n' :
  set16 (header rev s1 size n s2 s3 ++ t) 4 n' = Some (header rev s1 size n' s2 s3 ++ t).
Proof. apply set_app_l. done. Qed.

Lemma header_set_revision rev' :
  0 <= rev' < 256 ->
  set8 (header rev s1 size n s2 s3 ++ t) 0 rev' = Some (header rev' s1 size n s2 s3 ++ t).
Proof.
  intros Hr. apply set_app_l. unfold set, le, u8. change (2 ^ 8) with 256.
  by rewrite Z.mod_small by lia.
Qed.
End header.

(** Fields of an ACE inside a region. *)
Lemma get_ace n pre a post p q v :
  q = Z.of_nat (length pre) + p -> 0 <= p -> get n a p = Some v ->
  get n (pre ++ a ++ post) q = Some v.
Proof. intros -> Hp H. rewrite (get_app_r n pre (a ++ post) p) by done. by apply get_app_l. Qed.

Lemma ace_size_at pre a post q :
  ace_ok a -> q = Z.of_nat (length pre) ->
  AceSize (pre ++ a ++ post) q = Some (Z.of_nat (length a)).
Proof. intros [_ _ H] ->. eapply (get_ace 2 pre a post 2); [lia|lia|exact H]. Qed.

(** The three loops that step from ACE to ACE agree: over ACEs that end at or
    before [AclEnd] they reach the end of the last one. *)
Lemma walk pre aces post AclEnd p :
  Forall ace_ok aces -> p = Z.of_nat (length pre) -> p + bytes_of aces <= AclEnd ->
  let m := pre ++ concat aces ++ post in
  let e := p + bytes_of aces in
  skip_aces m (length aces) p = Some e /\
  first_free_loop m AclEnd (length aces) p = Some (Some e) /\
  get_ace_loop m AclEnd (length aces) p = Some (true, e).
Proof.
  intros Hok. revert pre p. induction Hok as [|a aces Ha Hok IH]; intros pre p Hp Hend m e.
  - unfold e, bytes_of. simpl. rewrite Z.add_0_r. done.
  - unfold m, e in *. rewrite bytes_of_cons in *. pose proof (bytes_of_nonneg aces).
    pose proof (ace_min a Ha) as Hmin. unfold sizeof_ACE_HEADER in Hmin.
    cbn [length concat skip_aces first_free_loop get_ace_loop]. rewrite <- app_assoc.
    rewrite (ace_size_at pre a _ p Ha Hp). cbn [mbind option_bind].
    rewrite (proj2 (Z.leb_gt AclEnd p)) by lia.
    specialize (IH (pre ++ a) (p + Z.of_nat (length a))).
    rewrite <- app_assoc, length_app in IH. rewrite Z.add_assoc. apply IH; lia.
Qed.

Lemma walk_prefix pre aces post AclEnd p i :
  Forall ace_ok aces -> p = Z.of_nat (length pre) -> p + bytes_of aces <= AclEnd ->
  (i <= length aces)%nat ->
  let m := pre ++ concat aces ++ post in
  let e := p + bytes_of (take i aces) in
  skip_aces m i p = Some e /\ get_ace_loop m AclEnd i p = Some (true, e).
Proof.
  intros Hok Hp Hend Hi m e. rewrite <- (take_drop i aces), bytes_of_app in Hend.
  pose proof (bytes_of_nonneg (drop i aces)).
  destruct (walk pre (take i aces) (concat (drop i aces) ++ post) AclEnd p) as (H1 & _ & H3);
    [by apply Forall_take|done|lia|].
  unfold m. rewrite <- (take_drop i aces) at 1 2. rewrite concat_app, <- app_assoc.
  rewrite length_take_le in H1, H3 by done. done.
Qed.

Lemma rep_header m rev size aces rest :
  acl_rep m rev size aces rest ->
  AclRevision m = Some rev /\ AclSize m = Some size /\
  AceCount m = Some (Z.of_nat (length aces)) /\ 2 <= rev <= 4.
Proof.
  intros [(s1 & s2 & s3 & ->) Hrev Hsz Hroom Hn _ _]. pose proof (bytes_of_nonneg aces).
  unfold sizeof_ACL in *.
  rewrite header_revision, header_size, header_count by lia. done.
Qed.

Lemma first_free_rep m rev size aces rest :
  acl_rep m rev size aces rest ->
  RtlFirstFreeAce m = Some (true, Some (sizeof_ACL + bytes_of aces)).
Proof.
  intros [(s1 & s2 & s3 & ->) Hrev Hsz Hroom Hn Heven Hok]. unfold RtlFirstFreeAce.
  pose proof (bytes_of_nonneg aces). unfold sizeof_ACL in *.
  rewrite header_size, header_count by lia. cbn [mbind option_bind]. rewrite Nat2Z.id.
  destruct (walk (header rev s1 size (Z.of_nat (length aces)) s2 s3) aces rest size 8)
    as (_ & -> & _); [done|done|lia|].
  cbn [mbind option_bind]. by rewrite (proj2 (Z.leb_le _ _)) by lia.
Qed.

(** ** Validity *)

(** The SID at offset [o] of the ACE [a]: revision 1, at most 15 subauthorities,
    and [base] bytes plus its length inside the ACE. *)
Definition sid_valid (a : list Z) (o base : Z) : bool :=
  match a !! Z.to_nat o, a !! Z.to_nat (o + 1) with
  | Some r, Some c =>
      (r =? SID_REVISION) && (c <=? SID_MAX_SUB_AUTHORITIES) &&
      (base + (8 + 4 * c) <=? Z.of_nat (length a))
  | _, _ => false
  end.

Definition guid_size (Flags : Z) : Z :=
  (if has Flags ACE_OBJECT_TYPE_PRESENT then sizeof_GUID else 0) +
  (if has Flags ACE_INHERITED_OBJECT_TYPE_PRESENT then sizeof_GUID else 0).

(** What [RtlValidAcl] requires of one ACE, as a predicate on its bytes. *)
Definition ace_valid (rev : Z) (a : list Z) : bool :=
  let size := Z.of_nat (length a) in
  match get8 a 0 with
  | None => false
  | Some type =>
      if type <=? 3 then (size mod 4 =? 0) && sid_valid a 8 4
      else if (type =? 5) || (type =? 6) then
        (4 <=? rev) && (size mod 4 =? 0) && (16 <=? size) &&
        match get32 a 8 with
        | None => false
        | Some Flags => sid_valid a (12 + guid_size Flags) (12 + guid_size Flags)
        end
      else size mod 2 =? 0
  end.

Lemma guid_size_range Flags : 0 <= guid_size Flags <= 32.
Proof. unfold guid_size, sizeof_GUID. repeat destruct (has _ _); lia. Qed.

Lemma RtlLengthSid_at m p :
  0 <= p -> RtlLengthSid (drop (Z.to_nat p) m) = (c ← get8 m (p + 1); Some (8 + 4 * c)).
Proof.
  intros Hp. unfold RtlLengthSid. rewrite !get8_eq, lookup_drop by lia.
  by replace (Z.to_nat (p + 1)) with (Z.to_nat p + Z.to_nat 1)%nat by lia.
Qed.

(** The tail both branches share: SID revision, count, and size against what the
    SID needs. *)
Definition check_sid (m : mem) (Sid size base : Z) : option bool :=
  Revision ← get8 m Sid;
  if negb (Revision =? SID_REVISION) then Some false else
  SubAuthorityCount ← get8 m (Sid + 1);
  if SID_MAX_SUB_AUTHORITIES <? SubAuthorityCount then Some false else
  Some (negb (size <? base + (8 + 4 * SubAuthorityCount))).

Lemma check_sid_valid pre a post o base :
  bytes_ok (pre ++ a ++ post) -> 0 <= o -> o - 4 <= base ->
  Z.of_nat (length a) mod 4 = 0 -> o mod 4 = 0 ->
  default false (check_sid (pre ++ a ++ post) (Z.of_nat (length pre) + o)
    (Z.of_nat (length a)) base) = sid_valid a o base.
Proof.
  intros Hm Ho Hbase Hmod Hmodo. unfold check_sid, sid_valid.
  rewrite (get_app_r 1 pre (a ++ post) o (Z.of_nat (length pre) + o)) by lia.
  rewrite (get_app_r 1 pre (a ++ post) (o + 1) (Z.of_nat (length pre) + o + 1)) by lia.
  destruct (Z.lt_ge_cases (o + 1) (Z.of_nat (length a))) as [Hlt|Hge].
  - destruct (lookup_lt_is_Some_2 a (Z.to_nat o)) as [r Hr]; [lia|].
    destruct (lookup_lt_is_Some_2 a (Z.to_nat (o + 1))) as [c Hc]; [lia|].
    rewrite Hr, Hc. apply get8_lookup in Hr, Hc; [|lia..].
    rewrite (get_app_l _ _ _ _ _ Hr), (get_app_l _ _ _ _ _ Hc). simpl. case_cmp.
  - (* the ACE is too short: the bytes read, if any, are not its own *)
    rewrite (lookup_ge_None_2 a (Z.to_nat (o + 1))) by lia.
    replace (match a !! Z.to_nat o with Some _ | None => false end) with false
      by (by destruct (a !! Z.to_nat o)).
    destruct (get8 (a ++ post) o) as [r|]; [|done]. simpl.
    destruct (r =? SID_REVISION); [|done]. simpl.
    destruct (get8 (a ++ post) (o + 1)) as [c|] eqn:Ec; [|done]. simpl.
    assert (0 <= c < 256 ^ Z.of_nat 1).
    { eapply get_some_range; [|exact Ec]. unfold bytes_ok in *. rewrite Forall_app in Hm. tauto. }
    case_cmp.
Qed.

Lemma valid_known_ace_check m Ace size :
  0 <= Ace -> 0 <= size < 2 ^ 16 ->
  valid_known_ace m Ace size =
  if size mod 4 =? 0
  then if size <? 4 then Some false else check_sid m (Ace + 8) size 4 else Some false.
Proof.
  intros HA Hs. unfold valid_known_ace, check_sid, sizeof_ACE_HEADER.
  change 4 with (2 ^ 2) at 1 4. rewrite round_down_fixed by lia.
  rewrite RtlLengthSid_at by lia.
  destruct (size mod 2 ^ 2 =? 0); [|done]. simpl negb. cbn iota.
  destruct (size <? 4); [done|]. destruct (get8 m (Ace + 8)); [|done]. cbn [mbind option_bind].
  destruct (negb _); [done|]. by destruct (get8 m (Ace + 8 + 1)).
Qed.

Lemma valid_object_ace_check m rev Ace size :
  bytes_ok m -> 0 <= Ace -> 0 <= size < 2 ^ 16 ->
  valid_object_ace m rev Ace size =
  if (4 <=? rev) && (size mod 4 =? 0) && (16 <=? size) then
    Flags ← get32 m (Ace + 8);
    check_sid m (Ace + (12 + guid_size Flags)) size (12 + guid_size Flags)
  else Some false.
Proof.
  intros Hm HA Hs. unfold valid_object_ace, check_sid, ACL_REVISION4, sizeof_KNOWN_OBJECT_ACE.
  change 4 with (2 ^ 2) at 2 5. rewrite round_down_fixed by lia.
  rewrite (Z.leb_antisym rev 4), (Z.leb_antisym size 16).
  destruct (rev <? 4); [done|]. destruct (size mod 2 ^ 2 =? 0); [|done]. simpl negb. cbn iota.
  destruct (size <? 16); [done|]. simpl andb. cbn iota.
  destruct (get32 m (Ace + 8)) as [Flags|]; [|done]. cbn [mbind option_bind].
  fold (guid_size Flags). pose proof (guid_size_range Flags). rewrite Z.add_assoc.
  rewrite RtlLengthSid_at by lia.
  destruct (get8 m (Ace + 12 + guid_size Flags)); [|done]. cbn [mbind option_bind].
  destruct (negb _); [done|].
  destruct (get8 m (Ace + 12 + guid_size Flags + 1)) as [c|] eqn:Ec; [|done].
  cbn [mbind option_bind]. apply get_some_range in Ec; [|done].
  change (256 ^ Z.of_nat 1) with 256 in Ec. destruct (_ <? c); [done|].
  unfold u16. by rewrite Z.mod_small by lia.
Qed.

(** One round of the loop is [ace_valid], a fault counting as FALSE. *)
Lemma valid_ace_spec pre a post rev AclSize :
  bytes_ok (pre ++ a ++ post) -> ace_ok a -> Z.of_nat (length a) < 2 ^ 16 ->
  let p := Z.of_nat (length pre) in
  p + 4 < AclSize -> p + Z.of_nat (length a) <= AclSize ->
  default false (valid_ace (pre ++ a ++ post) rev AclSize p) = ace_valid rev a.
Proof.
  intros Hm Ha Hl p H4 Hend.
  unfold valid_ace, ace_valid, sizeof_ACE_HEADER.
  rewrite (proj2 (Z.leb_gt AclSize (p + 4))) by lia.
  rewrite (ace_size_at pre a post p Ha eq_refl). cbn [mbind option_bind].
  change 2 with (2 ^ 1). rewrite round_down_fixed by lia.
  pose proof (ace_min a Ha) as Hmin. unfold sizeof_ACE_HEADER in Hmin.
  rewrite (proj2 (Z.ltb_ge AclSize _)) by lia.
  destruct (lookup_lt_is_Some_2 a 0) as [type Ht]; [lia|].
  change 0%nat with (Z.to_nat 0) in Ht. rewrite <- get8_eq in Ht by lia.
  unfold AceType. rewrite Ht, (get_ace 1 pre a post 0 p type) by (done || lia).
  cbn [mbind option_bind].
  unfold ACCESS_MAX_MS_V2_ACE_TYPE, ACCESS_ALLOWED_OBJECT_ACE_TYPE, ACCESS_DENIED_OBJECT_ACE_TYPE.
  destruct (type <=? 3); [|destruct ((type =? 5) || (type =? 6))].
  - rewrite valid_known_ace_check by lia.
    assert (E : Z.of_nat (length a) mod 4 = 0 -> Z.of_nat (length a) mod 2 ^ 1 = 0)
      by (intros; Z.div_mod_to_equations; lia).
    destruct (Z.eqb_spec (Z.of_nat (length a) mod 4) 0) as [E4|E4]; [|by destruct (negb _)].
    rewrite (proj2 (Z.eqb_eq _ _) (E E4)), (proj2 (Z.ltb_ge _ _)) by lia. simpl.
    apply check_sid_valid; try done; lia.
  - rewrite valid_object_ace_check by (done || lia).
    assert (E : Z.of_nat (length a) mod 4 = 0 -> Z.of_nat (length a) mod 2 ^ 1 = 0)
      by (intros; Z.div_mod_to_equations; lia).
    destruct (4 <=? rev); [|by destruct (negb _)].
    destruct (Z.eqb_spec (Z.of_nat (length a) mod 4) 0) as [E4|E4]; [|by destruct (negb _)].
    rewrite (proj2 (Z.eqb_eq _ _) (E E4)). simpl.
    destruct (Z.leb_spec 16 (Z.of_nat (length a))) as [H16|]; [|done]. simpl.
    destruct (get32 a 8) as [Flags|] eqn:EF.
    + rewrite (get_ace 4 pre a post 8 _ Flags) by (done || lia). cbn [mbind option_bind].
      apply check_sid_valid; try done; pose proof (guid_size_range Flags); try lia.
      unfold guid_size, sizeof_GUID. by repeat destruct (has _ _).
    + unfold get in EF. destruct (rd_bytes a 8 4) eqn:ER; [done|]. unfold rd_bytes in ER.
      rewrite (proj2 (Z.leb_le _ _)), (proj2 (Z.leb_le _ _)) in ER by lia. done.
  - rewrite (proj2 (Z.ltb_ge _ 4)) by lia.
    by destruct (Z.of_nat (length a) mod 2 ^ 1 =? 0), (type =? ACCESS_ALLOWED_COMPOUND_ACE_TYPE),
      ((ACCESS_MIN_MS_OBJECT_ACE_TYPE <=? type) && (type <=? ACCESS_MAX_MS_OBJECT_ACE_TYPE)).
Qed.

(** Every ACE header lies strictly inside the ACL: the code's [>=] refuses a bare
    header that ends at the ACL's end. *)
Fixpoint headers_inside (aces : list (list Z)) (p AclSize : Z) : bool :=
  match aces with
  | [] => true
  | a :: aces' =>
      (p + 4 <? AclSize) && headers_inside aces' (p + Z.of_nat (length a)) AclSize
  end.

Definition aces_valid (rev size : Z) (aces : list (list Z)) : bool :=
  headers_inside aces sizeof_ACL size && forallb (ace_valid rev) aces.

Lemma valid_aces_spec aces : forall pre post rev AclSize p,
  Forall ace_ok aces -> bytes_ok (pre ++ concat aces ++ post) ->
  p = Z.of_nat (length pre) -> p + bytes_of aces <= AclSize < 2 ^ 16 ->
  default false (valid_aces (pre ++ concat aces ++ post) rev AclSize (length aces) p)
  = headers_inside aces p AclSize && forallb (ace_valid rev) aces.
Proof.
  induction aces as [|a aces IH]; intros pre post rev AclSize p Hok Hm Hp Hend; [done|].
  inversion Hok as [|? ? Ha Hok']; subst. cbn [length valid_aces forallb concat headers_inside] in *.
  rewrite <- app_assoc in *. rewrite bytes_of_cons in *. pose proof (bytes_of_nonneg aces).
  destruct (Z.ltb_spec (Z.of_nat (length pre) + 4) AclSize) as [H4|H4].
  2:{ unfold valid_ace, sizeof_ACE_HEADER. by rewrite (proj2 (Z.leb_le _ _)) by lia. }
  rewrite <- (valid_ace_spec pre a (concat aces ++ post) rev AclSize) by (done || lia).
  destruct (valid_ace _ rev AclSize _) as [[|]|]; [|by rewrite andb_false_r..].
  cbn [mbind option_bind negb default]. rewrite !andb_true_l.
  rewrite (ace_size_at pre a _ _ Ha eq_refl). cbn [mbind option_bind].
  rewrite (app_assoc pre a). apply IH.
  - done.
  - by rewrite <- app_assoc.
  - rewrite length_app. lia.
  - lia.
Qed.

(** [RtlValidAcl] decides the validity of the abstract ACL. *)
Lemma RtlValidAcl_rep m rev size aces rest :
  acl_rep m rev size aces rest -> bytes_ok m -> RtlValidAcl m = aces_valid rev size aces.
Proof.
  intros [(s1 & s2 & s3 & ->) Hrev Hsz Hroom Hn Heven Hok] Hm. unfold RtlValidAcl, aces_valid.
  pose proof (bytes_of_nonneg aces). unfold sizeof_ACL, MIN_ACL_REVISION, MAX_ACL_REVISION in *.
  rewrite header_revision, header_size, header_count by lia. cbn [mbind option_bind].
  rewrite (proj2 (Z.ltb_ge rev 2)), (proj2 (Z.ltb_ge 4 rev)) by lia. simpl orb. cbn iota.
  change 2 with (2 ^ 1). rewrite round_down_fixed by lia.
  change (2 ^ 1) with 2. rewrite Heven. simpl negb. cbn iota.
  rewrite (proj2 (Z.ltb_ge size 8)), Nat2Z.id by lia.
  by apply valid_aces_spec; [| |done|lia].
Qed.

Lemma headers_inside_app l1 l2 S : forall p,
  headers_inside (l1 ++ l2) p S = headers_inside l1 p S && headers_inside l2 (p + bytes_of l1) S.
Proof.
  induction l1 as [|a l1 IH]; intros p; simpl; [by rewrite Z.add_0_r|].
  rewrite IH, bytes_of_cons, Z.add_assoc. by rewrite andb_assoc.
Qed.

Lemma headers_inside_room l S : forall p,
  Forall ace_ok l -> p + bytes_of l < S -> headers_inside l p S = true.
Proof.
  induction l as [|a l IH]; intros p Hok Hend; [done|]. inversion Hok as [|? ? Ha Hl]; subst.
  rewrite bytes_of_cons in Hend. pose proof (ace_min a Ha) as Hm.
  pose proof (bytes_of_nonneg l). unfold sizeof_ACE_HEADER in Hm. simpl.
  rewrite IH by (done || lia). case_cmp.
Qed.

Lemma ace_valid_mono rev rev' a : rev <= rev' -> ace_valid rev a = true -> ace_valid rev' a = true.
Proof.
  intros Hr. unfold ace_valid. destruct (get8 a 0); [|done].
  destruct (_ <=? 3); [done|]. destruct (_ || _); [|done].
  destruct (Z.leb_spec 4 rev); [|done]. by rewrite (proj2 (Z.leb_le 4 rev')) by lia.
Qed.

(** Four bytes at least per ACE: the count never reaches the width of its field. *)
Lemma count_bound aces : Forall ace_ok aces -> 4 * Z.of_nat (length aces) <= bytes_of aces.
Proof.
  induction 1 as [|a l Ha _ IH]; [done|]. rewrite bytes_of_cons. simpl length.
  pose proof (ace_min a Ha) as Hm. unfold sizeof_ACE_HEADER in Hm. lia.
Qed.

(** ** Adding ACEs *)

Definition known_ace (Type_ Flags AccessMask : Z) (sid : list Z) : list Z :=
  [Type_; Flags] ++ le 2 (Z.of_nat (length sid) + sizeof_ACE) ++ le 4 AccessMask ++ sid.

Lemma set_byte b : 0 <= b < 256 -> le 1 b = [b].
Proof. intros Hb. cbn [le]. unfold u8. by rewrite Z.mod_small. Qed.

(** The field by field initialisation writes the ACE's bytes. *)
Lemma write_known_ace pre old post Type_ Flags AccessMask s sid :
  sid_at s sid -> length old = (8 + length sid)%nat -> 0 <= Flags < 256 -> 0 <= Type_ < 256 ->
  let p := Z.of_nat (length pre) in
  exists m1 m2 m3 m4,
    set8 (pre ++ old ++ post) (p + 1) Flags = Some m1 /\
    set8 m1 p Type_ = Some m2 /\
    set16 m2 (p + 2) (Z.of_nat (length sid) + sizeof_ACE) = Some m3 /\
    set32 m3 (p + 4) AccessMask = Some m4 /\
    RtlCopySid (Z.of_nat (length sid)) m4 (p + 8) s
    = Some (STATUS_SUCCESS, pre ++ known_ace Type_ Flags AccessMask sid ++ post).
Proof.
  intros Hs Hl HF HT p.
  destruct old as [|o0 [|o1 [|o2 [|o3 [|o4 [|o5 [|o6 [|o7 os]]]]]]]]; try (simpl in Hl; lia).
  injection Hl as Hl.
  eexists _, _, _, _. split_and!.
  - apply (set_app_r 1 pre _ 1); [done|lia|].
    apply (set_app 1 [o0] [o1] ([o2; o3; o4; o5; o6; o7] ++ os ++ post)); done.
  - apply (set_app_r 1 pre _ 0); [lia|lia|]. rewrite (set_byte Flags) by done.
    apply (set_app 1 [] [o0] ([Flags; o2; o3; o4; o5; o6; o7] ++ os ++ post)); done.
  - apply (set_app_r 2 pre _ 2); [done|lia|]. rewrite (set_byte Type_) by done.
    apply (set_app 2 [Type_; Flags] [o2; o3] ([o4; o5; o6; o7] ++ os ++ post)); done.
  - apply (set_app_r 4 pre _ 4); [done|lia|].
    apply (set_app 4 ([Type_; Flags] ++ le 2 (Z.of_nat (length sid) + sizeof_ACE))
             [o4; o5; o6; o7] (os ++ post)); done.
  - apply RtlCopySid_at; [done|]. apply wr_bytes_app_r; [lia|].
    apply (wr_bytes_app ([Type_; Flags] ++ le 2 (Z.of_nat (length sid) + sizeof_ACE) ++
             le 4 AccessMask) os post 8 sid); done.
Qed.

Lemma sid_at_length s sid :
  sid_at s sid -> 8 <= Z.of_nat (length sid) <= 68 /\ Z.of_nat (length sid) mod 4 = 0.
Proof.
  intros [_ _ (c & _ & Hc & ->) _]. unfold SID_MAX_SUB_AUTHORITIES in Hc.
  split; [lia|]. Z.div_mod_to_equations; lia.
Qed.

Lemma known_ace_ok Type_ Flags AccessMask s sid :
  sid_at s sid -> 0 <= Flags < 256 -> 0 <= Type_ < 256 ->
  ace_ok (known_ace Type_ Flags AccessMask sid).
Proof.
  intros Hs HF HT. pose proof (sid_at_length s sid Hs) as [Hl _]. unfold known_ace. constructor.
  - unfold bytes_ok. rewrite !Forall_app. split_and!; try apply le_ok; [|apply (sid_bytes s sid Hs)].
    repeat constructor; lia.
  - unfold sizeof_ACE_HEADER. simpl. lia.
  - unfold AceSize. rewrite (get_app 2 [Type_; Flags] (le 2 _)) by done.
    rewrite le2_val by (unfold sizeof_ACE; lia). f_equal. unfold sizeof_ACE. simpl length. lia.
Qed.

Lemma sid_valid_app pre s sid o base :
  sid_at s sid -> o = Z.of_nat (length pre) -> base <= o ->
  sid_valid (pre ++ sid) o base = true.
Proof.
  intros [_ Hr (c & Hc & Hcr & Hl) _] -> Hb. unfold sid_valid.
  rewrite !lookup_app_r by lia.
  replace (Z.to_nat (Z.of_nat (length pre)) - length pre)%nat with 0%nat by lia.
  replace (Z.to_nat (Z.of_nat (length pre) + 1) - length pre)%nat with 1%nat by lia.
  rewrite Hr, Hc, length_app, Z.eqb_refl. case_cmp.
Qed.

Lemma known_ace_valid rev Type_ Flags AccessMask s sid :
  sid_at s sid -> 0 <= Type_ <= 3 -> ace_valid rev (known_ace Type_ Flags AccessMask sid) = true.
Proof.
  intros Hs HT. pose proof (sid_at_length s sid Hs) as [Hl Hm]. unfold ace_valid.
  assert (get8 (known_ace Type_ Flags AccessMask sid) 0 = Some Type_) as ->
    by (by rewrite get8_eq).
  rewrite (proj2 (Z.leb_le _ _)) by lia. apply andb_true_iff. split.
  - apply Z.eqb_eq. unfold known_ace. rewrite !length_app, !length_le. simpl length.
    Z.div_mod_to_equations; lia.
  - unfold known_ace. rewrite !app_assoc. apply (sid_valid_app _ s); [done|done|].
    lia.
Qed.

(** Appending an ACE that fits: the new representation, and its validity. *)
Lemma acl_rep_snoc m rev size aces old rest a rev' s1 s2 s3 :
  acl_rep m rev size aces (old ++ rest) ->
  ace_ok a -> length old = length a -> rev <= rev' <= MAX_ACL_REVISION ->
  sizeof_ACL + bytes_of aces + Z.of_nat (length a) <= size ->
  acl_rep (header rev' s1 size (Z.of_nat (length aces) + 1) s2 s3 ++ concat aces ++ a ++ rest)
    rev' size (aces ++ [a]) rest.
Proof.
  intros [_ Hrev Hsz Hroom Hn Heven Hok] Ha Hl Hr Hfit.
  assert (Hb : bytes_of (aces ++ [a]) = bytes_of aces + Z.of_nat (length a)).
  { rewrite bytes_of_app, bytes_of_cons. unfold bytes_of at 2. simpl. lia. }
  assert (Hok' : Forall ace_ok (aces ++ [a])) by (rewrite Forall_app; auto).
  pose proof (count_bound _ Hok') as Hc. rewrite Hb, length_app in Hc. simpl length in Hc.
  unfold sizeof_ACL in *. constructor; unfold sizeof_ACL; rewrite ?Hb, ?length_app; try done; simpl length.
  - exists s1, s2, s3. rewrite concat_app, <- app_assoc. simpl concat. rewrite app_nil_r.
    by replace (Z.of_nat (length aces + 1)) with (Z.of_nat (length aces) + 1) by lia.
  - lia.
  - lia.
  - rewrite length_app in Hroom. lia.
  - lia.
Qed.

Lemma aces_valid_snoc rev rev' size aces a :
  Forall ace_ok aces -> rev <= rev' -> 4 < Z.of_nat (length a) ->
  sizeof_ACL + bytes_of aces + Z.of_nat (length a) <= size ->
  aces_valid rev size aces = true -> ace_valid rev' a = true ->
  aces_valid rev' size (aces ++ [a]) = true.
Proof.
  intros Hok Hr Ha Hfit Hv Hva. unfold aces_valid in *. apply andb_true_iff in Hv as [Hh Hf].
  rewrite headers_inside_app, Hh, forallb_app. simpl. rewrite Hva.
  rewrite (proj2 (Z.ltb_lt _ _)) by lia. simpl. rewrite !andb_true_r.
  rewrite forallb_forall in Hf |- *. intros x Hx. eapply ace_valid_mono; [exact Hr|auto].
Qed.

Lemma finish_add_header rev s1 size n s2 s3 t Revision :
  0 <= size < 2 ^ 16 -> 0 <= n < 2 ^ 16 -> 0 <= Revision < 256 ->
  finish_add (header rev s1 size n s2 s3 ++ t) Revision
  = Some (STATUS_SUCCESS, header Revision s1 size (n + 1) s2 s3 ++ t).
Proof.
  intros Hs Hn Hr. unfold finish_add. rewrite header_count by done. cbn [mbind option_bind].
  rewrite header_set_count. cbn [mbind option_bind]. by rewrite header_set_revision.
Qed.

Lemma header_bytes_ok rev s1 size n s2 s3 t rev' n' t' :
  bytes_ok (header rev s1 size n s2 s3 ++ t) -> 0 <= rev' < 256 -> bytes_ok t' ->
  bytes_ok (header rev' s1 size n' s2 s3 ++ t').
Proof.
  unfold bytes_ok, header. rewrite !Forall_app. intros ((H1 & _ & _ & H2) & _) Hr Ht.
  inversion H1; subst. split_and!; try apply le_ok; try done. constructor; done.
Qed.

(** The part of the region up to the first free ACE. *)
Definition used (m : mem) (aces : list (list Z)) : mem :=
  take (Z.to_nat (sizeof_ACL + bytes_of aces)) m.

Lemma rep_split m rev size aces rest k :
  acl_rep m rev size aces rest -> 0 <= k -> sizeof_ACL + bytes_of aces + k <= size ->
  m = used m aces ++ take (Z.to_nat k) rest ++ drop (Z.to_nat k) rest /\
  Z.of_nat (length (used m aces)) = sizeof_ACL + bytes_of aces /\
  length (take (Z.to_nat k) rest) = Z.to_nat k.
Proof.
  intros Hrep Hk Hfit. pose proof (rep_room _ _ _ _ _ Hrep).
  destruct (rep_mem _ _ _ _ _ Hrep) as (s1 & s2 & s3 & ->). unfold used.
  set (hdr := header _ _ _ _ _ _). rewrite take_drop, (length_take rest).
  assert (E : Z.to_nat (sizeof_ACL + bytes_of aces) = length (hdr ++ concat aces)).
  { rewrite length_app. unfold sizeof_ACL, bytes_of, hdr. rewrite length_header. lia. }
  rewrite E, app_assoc, take_app_length. split_and!; [done| |lia].
  rewrite <- E. pose proof (bytes_of_nonneg aces). unfold sizeof_ACL. lia.
Qed.

(** What is left to do once the bytes of the new ACE [a] are stored behind the
    last one: the header. *)
Lemma finish_append m rev size aces rest a rev' :
  acl_rep m rev size aces rest -> bytes_ok m -> RtlValidAcl m = true ->
  ace_ok a -> 4 < Z.of_nat (length a) -> ace_valid rev' a = true ->
  rev <= rev' <= MAX_ACL_REVISION ->
  sizeof_ACL + bytes_of aces + Z.of_nat (length a) <= size ->
  exists m', finish_add (used m aces ++ a ++ drop (length a) rest) rev'
      = Some (STATUS_SUCCESS, m') /\
    acl_rep m' rev' size (aces ++ [a]) (drop (length a) rest) /\ RtlValidAcl m' = true.
Proof.
  intros Hrep Hm Hv Ha H4 Hva Hr Hfit.
  destruct (rep_split m rev size aces rest (Z.of_nat (length a)) Hrep) as (Em & Hp & Hold);
    [lia|done|]. rewrite Nat2Z.id in *.
  destruct (rep_mem _ _ _ _ _ Hrep) as (s1 & s2 & s3 & Em').
  pose proof (rep_rev _ _ _ _ _ Hrep) as Hrev. pose proof (rep_size _ _ _ _ _ Hrep) as Hsz.
  pose proof (rep_count _ _ _ _ _ Hrep) as Hcnt. pose proof (bytes_of_nonneg aces).
  unfold MIN_ACL_REVISION, MAX_ACL_REVISION, sizeof_ACL in Hrev, Hsz, Hr.
  set (hdr := header rev s1 size (Z.of_nat (length aces)) s2 s3) in *.
  assert (Hu : used m aces = hdr ++ concat aces).
  { unfold used. rewrite Em', app_assoc, take_app_length'; [done|].
    rewrite length_app. unfold sizeof_ACL, bytes_of, hdr. rewrite length_header. lia. }
  rewrite Hu, <- app_assoc. unfold hdr. rewrite finish_add_header by lia.
  assert (Hv' : aces_valid rev size aces = true)
    by (by rewrite <- (RtlValidAcl_rep _ _ _ _ _ Hrep Hm)).
  pose proof (rep_aces _ _ _ _ _ Hrep) as Hok.
  rewrite <- (take_drop (length a) rest) in Hrep.
  assert (Hrep' := acl_rep_snoc m rev size aces _ _ a rev' s1 s2 s3 Hrep Ha
    Hold ltac:(unfold MAX_ACL_REVISION; lia) Hfit).
  eexists. split_and!; [reflexivity|exact Hrep'|].
  rewrite (RtlValidAcl_rep _ _ _ _ _ Hrep').
  - apply (aces_valid_snoc rev); try done; lia.
  - rewrite Em' in Hm. eapply header_bytes_ok; [exact Hm|lia|].
    rewrite <- (take_drop (length a) rest) in Hm.
    unfold bytes_ok in *. rewrite !Forall_app in *. split_and!; try tauto. apply (ace_bytes a Ha).
Qed.

(** The ACE types [RtlpAddKnownAce] is called with, and the flags it accepts. *)
Definition known_args (Type_ Flags Revision : Z) : Prop :=
  0 <= Type_ <= 3 /\ 0 <= Flags < 256 /\ 0 <= Revision <= MAX_ACL_REVISION /\
  Z.land Flags (not32 (max_known_flags (Type_ =? SYSTEM_AUDIT_ACE_TYPE))) = 0.

(** C10.  [RtlpAddKnownAce] refines appending to a list: given a valid ACL and a
    well-formed SID, it stores the ACE made of its arguments after the last one and
    leaves the ACEs before it and the memory behind it as they were, and the
    ACL it leaves is valid again; if the ACE does not fit it reports that and
    changes nothing. *)
Theorem add_known_ace_appends m rev size aces rest Revision Flags AccessMask s sid Type_ :
  acl_rep m rev size aces rest -> bytes_ok m -> RtlValidAcl m = true ->
  sid_at s sid -> known_args Type_ Flags Revision ->
  let a := known_ace Type_ Flags AccessMask sid in
  let need := Z.of_nat (length a) in
  if size <? sizeof_ACL + bytes_of aces + need
  then RtlpAddKnownAce m Revision Flags AccessMask (Some s) Type_
       = Some (STATUS_ALLOTTED_SPACE_EXCEEDED, m)
  else exists m',
    RtlpAddKnownAce m Revision Flags AccessMask (Some s) Type_ = Some (STATUS_SUCCESS, m') /\
    acl_rep m' (Z.max rev Revision) size (aces ++ [a]) (drop (Z.to_nat need) rest) /\
    RtlValidAcl m' = true.
Proof.
  intros Hrep Hm Hv Hs (HT & HF & HR & Hfl) a need.
  pose proof (sid_at_length s sid Hs) as [Hls _].
  assert (Hneed : need = Z.of_nat (length sid) + sizeof_ACE)
    by (unfold need, a, sizeof_ACE; simpl length; lia).
  destruct (rep_header m rev size aces rest Hrep) as (HAr & HAs & HAc & Hrange).
  unfold RtlpAddKnownAce. rewrite (sid_valid_at s sid Hs), Hv, HAr, HAs, Hfl.
  rewrite (first_free_rep m rev size aces rest Hrep).
  cbn [mbind option_bind]. rewrite (sid_length s sid Hs). cbn [mbind option_bind]. unfold ACL_REVISION4. unfold MAX_ACL_REVISION in HR.
  rewrite (proj2 (Z.ltb_ge 4 rev)), (proj2 (Z.ltb_ge 4 Revision)) by lia.
  change (0 =? 0) with true. cbn [orb negb]. rewrite <- Hneed.
  destruct (Z.ltb_spec size (sizeof_ACL + bytes_of aces + need)) as [Hlt|Hge]; [done|].
  destruct (rep_split m rev size aces rest need Hrep) as (Em & Hp & Hold); [lia|done|].
  destruct (write_known_ace (used m aces) (take (Z.to_nat need) rest)
    (drop (Z.to_nat need) rest) Type_ Flags AccessMask s sid)
    as (m1 & m2 & m3 & m4 & E1 & E2 & E3 & E4 & E5); [done|unfold sizeof_ACE in *; lia|done|lia|].
  rewrite <- Em, Hp in E1. rewrite Hp in E2, E3, E4, E5.
  rewrite E1. cbn [mbind option_bind]. rewrite E2. cbn [mbind option_bind].
  rewrite Hneed, E3. cbn [mbind option_bind]. rewrite E4. cbn [mbind option_bind].
  rewrite E5. cbn [mbind option_bind]. fold a. rewrite <- Hneed.
  replace (if Revision <? rev then rev else Revision) with (Z.max rev Revision) by case_cmp.
  unfold need. rewrite Nat2Z.id. fold need.
  apply (finish_append m rev); try done; unfold sizeof_ACE, MAX_ACL_REVISION in *; try lia.
  - apply (known_ace_ok _ _ _ s); [done|done|lia].
  - by apply (known_ace_valid _ _ _ _ s).
Qed.

(** *** Object ACEs *)

Definition guid_ok (g : option (list Z)) : Prop :=
  forall bs, g = Some bs -> length bs = 16%nat /\ bytes_ok bs.

Definition guid_flag (g : option (list Z)) (flag : Z) : Z :=
  match g with Some _ => flag | None => 0 end.

Definition object_flags (g1 g2 : option (list Z)) : Z :=
  Z.lor (guid_flag g1 ACE_OBJECT_TYPE_PRESENT) (guid_flag g2 ACE_INHERITED_OBJECT_TYPE_PRESENT).

Definition object_prefix (Type_ Flags AccessMask size : Z) (g1 g2 : option (list Z)) : list Z :=
  [Type_; Flags] ++ le 2 size ++ le 4 AccessMask ++ le 4 (object_flags g1 g2) ++
  default [] g1 ++ default [] g2.

Definition object_size (g1 g2 : option (list Z)) (sid : list Z) : Z :=
  12 + guid_size (object_flags g1 g2) + Z.of_nat (length sid).

Definition object_ace (Type_ Flags AccessMask : Z) (g1 g2 : option (list Z)) (sid : list Z)
  : list Z :=
  object_prefix Type_ Flags AccessMask (object_size g1 g2 sid) g1 g2 ++ sid.

Lemma guids_length g1 g2 :
  guid_ok g1 -> guid_ok g2 ->
  Z.of_nat (length (default [] g1 ++ default [] g2)) = guid_size (object_flags g1 g2).
Proof.
  intros H1 H2. rewrite length_app.
  destruct g1 as [b1|], g2 as [b2|]; cbn [from_option]; unfold id;
    try (destruct (H1 _ eq_refl) as [-> _]); try (destruct (H2 _ eq_refl) as [-> _]); reflexivity.
Qed.

Lemma object_prefix_length Type_ Flags AccessMask size g1 g2 :
  guid_ok g1 -> guid_ok g2 ->
  Z.of_nat (length (object_prefix Type_ Flags AccessMask size g1 g2))
  = 12 + guid_size (object_flags g1 g2).
Proof.
  intros H1 H2. pose proof (guids_length g1 g2 H1 H2) as H. unfold object_prefix.
  rewrite !length_app, !length_le in *. simpl length. lia.
Qed.

Section object_ace.
Context (Type_ Flags AccessMask : Z) (g1 g2 : option (list Z)) (s sid : list Z).
Hypothesis Hs : sid_at s sid.
Hypothesis Hg1 : guid_ok g1.
Hypothesis Hg2 : guid_ok g2.
Hypothesis HF : 0 <= Flags < 256.
Hypothesis HT : 0 <= Type_ < 256.

Let a := object_ace Type_ Flags AccessMask g1 g2 sid.

Lemma object_ace_length : Z.of_nat (length a) = object_size g1 g2 sid.
Proof.
  unfold a, object_ace, object_size. rewrite length_app, Nat2Z.inj_add.
  by rewrite object_prefix_length.
Qed.

Lemma object_size_range : 20 <= object_size g1 g2 sid <= 112.
Proof.
  pose proof (sid_at_length s sid Hs). pose proof (guid_size_range (object_flags g1 g2)).
  unfold object_size. lia.
Qed.

Lemma object_ace_ok : ace_ok a.
Proof.
  pose proof object_size_range as Hr. constructor.
  - unfold a, object_ace, object_prefix, bytes_ok. rewrite !Forall_app.
    assert (Forall (fun b => 0 <= b < 256) (default [] g1) /\
            Forall (fun b => 0 <= b < 256) (default [] g2)) as [? ?].
    { split; [destruct g1 as [b|]|destruct g2 as [b|]]; simpl; try constructor;
        [by destruct (Hg1 b eq_refl)|by destruct (Hg2 b eq_refl)]. }
    split_and!; try apply le_ok; try done; [|apply (sid_bytes s sid Hs)].
    repeat constructor; lia.
  - rewrite object_ace_length. unfold sizeof_ACE_HEADER. lia.
  - rewrite object_ace_length. unfold AceSize, a, object_ace, object_prefix.
    rewrite <- !app_assoc, (get_app 2 [Type_; Flags] (le 2 _)) by done.
    by rewrite le2_val by lia.
Qed.

Lemma object_ace_valid rev :
  4 <= rev -> Type_ = 5 \/ Type_ = 6 -> ace_valid rev a = true.
Proof.
  intros Hr Ht. pose proof object_size_range as Hsz. unfold ace_valid.
  assert (get8 a 0 = Some Type_) as -> by (by rewrite get8_eq).
  rewrite (proj2 (Z.leb_gt Type_ 3)), (proj2 (Z.leb_le 4 rev)) by lia.
  replace ((Type_ =? 5) || (Type_ =? 6)) with true by (destruct Ht as [-> | ->]; done).
  rewrite object_ace_length, (proj2 (Z.leb_le 16 _)) by lia.
  assert (get32 a 8 = Some (object_flags g1 g2)) as ->.
  { unfold a, object_ace, object_prefix. rewrite <- !app_assoc.
    rewrite (app_assoc (le 2 _)), (app_assoc [Type_; Flags]), (get_app 4 _ (le 4 _)) by done.
    rewrite le_val_le; [done|]. by destruct g1, g2. }
  rewrite andb_true_r, andb_true_l. apply andb_true_iff. split.
  - apply Z.eqb_eq. pose proof (sid_at_length s sid Hs) as [_ Hm]. unfold object_size.
    assert (guid_size (object_flags g1 g2) mod 4 = 0) by (by destruct g1, g2).
    Z.div_mod_to_equations; lia.
  - unfold a, object_ace. apply (sid_valid_app _ s); [done| |lia].
    by rewrite object_prefix_length.
Qed.
End object_ace.

Lemma copy_guid_next pre d old post g p :
  guid_ok g -> p = Z.of_nat (length pre) + Z.of_nat (length d) ->
  (length (default [] g) <= length old)%nat ->
  copy_guid (pre ++ d ++ old ++ post) p g
  = Some (pre ++ (d ++ default [] g) ++ drop (length (default [] g)) old ++ post,
          p + Z.of_nat (length (default [] g))).
Proof.
  intros Hg Hp Hl. destruct g as [bs|]; simpl in *.
  - destruct (Hg bs eq_refl) as [E _]. unfold id in *. rewrite wr_bytes_next by done.
    simpl. by rewrite E.
  - by rewrite app_nil_r, drop_0, Z.add_0_r.
Qed.

Lemma write_object_ace pre old post Type_ Flags AccessMask g1 g2 s sid :
  sid_at s sid -> guid_ok g1 -> guid_ok g2 -> 0 <= Flags < 256 -> 0 <= Type_ < 256 ->
  let size := object_size g1 g2 sid in
  Z.of_nat (length old) = size ->
  let p := Z.of_nat (length pre) in
  exists m1 m2 m3 m4 m5 m6 m7,
    set8 (pre ++ old ++ post) (p + 1) Flags = Some m1 /\
    set8 m1 p Type_ = Some m2 /\
    set16 m2 (p + 2) size = Some m3 /\
    set32 m3 (p + 4) AccessMask = Some m4 /\
    set32 m4 (p + 8) (object_flags g1 g2) = Some m5 /\
    copy_guid m5 (p + 12) g1 = Some (m6, p + 12 + Z.of_nat (length (default [] g1))) /\
    copy_guid m6 (p + 12 + Z.of_nat (length (default [] g1))) g2
    = Some (m7, p + 12 + guid_size (object_flags g1 g2)) /\
    RtlCopySid (Z.of_nat (length sid)) m7 (p + 12 + guid_size (object_flags g1 g2)) s
    = Some (STATUS_SUCCESS, pre ++ object_ace Type_ Flags AccessMask g1 g2 sid ++ post).
Proof.
  intros Hs Hg1 Hg2 HF HT size Hl p.
  pose proof (guids_length g1 g2 Hg1 Hg2) as Hgl. rewrite length_app in Hgl.
  unfold size, object_size in *.
  destruct old as [|o0 [|o1 os]]; [simpl in Hl; pose proof (guid_size_range (object_flags g1 g2)); lia..|].
  simpl length in Hl.
  eexists _, _, _, _, _, _, _. split_and!.
  - apply (set_app_r 1 pre _ 1); [done|lia|]. apply (set_app 1 [o0] [o1] (os ++ post)); done.
  - apply (set_app_r 1 pre _ 0); [lia|lia|]. rewrite (set_byte Flags) by done.
    apply (set_app 1 [] [o0] ([Flags] ++ os ++ post)); done.
  - rewrite (set_byte Type_) by done. apply (wr_bytes_next pre [Type_; Flags] os post); simpl; lia.
  - apply wr_bytes_next; [simpl; lia|]. rewrite length_drop, !length_le. lia.
  - apply wr_bytes_next; [simpl; lia|]. rewrite !length_drop, !length_le. lia.
  - apply copy_guid_next; [done|simpl; lia|]. rewrite !length_drop, !length_le. lia.
  - replace (p + 12 + guid_size (object_flags g1 g2)) with
      (p + 12 + Z.of_nat (length (default [] g1)) + Z.of_nat (length (default [] g2))) by lia.
    apply copy_guid_next; [done| |].
    + rewrite !length_app, !length_le. simpl length. lia.
    + rewrite !length_drop, !length_le. lia.
  - apply RtlCopySid_at; [done|]. rewrite wr_bytes_next.
    + rewrite drop_ge by (rewrite !length_drop, !length_le; lia).
      unfold object_ace, object_prefix. by rewrite <- !app_assoc.
    + rewrite !length_app, !length_le. simpl length. lia.
    + rewrite !length_drop, !length_le. lia.
Qed.

Definition object_args (Type_ Flags : Z) : Prop :=
  (Type_ = ACCESS_ALLOWED_OBJECT_ACE_TYPE \/ Type_ = ACCESS_DENIED_OBJECT_ACE_TYPE) /\
  0 <= Flags < 256 /\ Z.land Flags (not32 VALID_INHERIT_FLAGS) = 0.

(** The size and the flags as the code accumulates them. *)
Lemma object_size_code g1 g2 (sid : list Z) :
  (if g2 is Some _ then
     (if g1 is Some _ then Z.of_nat (length sid) + sizeof_ACE + 4 + sizeof_GUID
      else Z.of_nat (length sid) + sizeof_ACE + 4) + sizeof_GUID
   else if g1 is Some _ then Z.of_nat (length sid) + sizeof_ACE + 4 + sizeof_GUID
   else Z.of_nat (length sid) + sizeof_ACE + 4) = object_size g1 g2 sid.
Proof.
  unfold object_size, sizeof_ACE, sizeof_GUID.
  replace (guid_size (object_flags g1 g2)) with
    ((if g1 is Some _ then 16 else 0) + (if g2 is Some _ then 16 else 0)) by (by destruct g1, g2).
  destruct g1, g2; lia.
Qed.

Lemma object_flags_code g1 g2 :
  (if g2 is Some _ then Z.lor (if g1 is Some _ then ACE_OBJECT_TYPE_PRESENT else 0)
     ACE_INHERITED_OBJECT_TYPE_PRESENT
   else (if g1 is Some _ then ACE_OBJECT_TYPE_PRESENT else 0)) = object_flags g1 g2.
Proof. by destruct g1, g2. Qed.

(** [RtlpAddKnownObjectAce] refines appending the object ACE made of its
    arguments, for every combination of the two optional GUIDs, keeps the ACL
    valid, and reports an ACE that does not fit without changing anything. *)
Theorem add_object_ace_appends m rev size aces rest Flags AccessMask g1 g2 s sid Type_ :
  acl_rep m rev size aces rest -> bytes_ok m -> RtlValidAcl m = true ->
  sid_at s sid -> guid_ok g1 -> guid_ok g2 -> object_args Type_ Flags ->
  let a := object_ace Type_ Flags AccessMask g1 g2 sid in
  let need := Z.of_nat (length a) in
  if size <? sizeof_ACL + bytes_of aces + need
  then RtlpAddKnownObjectAce m ACL_REVISION4 Flags AccessMask g1 g2 (Some s) Type_
       = Some (STATUS_ALLOTTED_SPACE_EXCEEDED, m)
  else exists m',
    RtlpAddKnownObjectAce m ACL_REVISION4 Flags AccessMask g1 g2 (Some s) Type_
      = Some (STATUS_SUCCESS, m') /\
    acl_rep m' ACL_REVISION4 size (aces ++ [a]) (drop (Z.to_nat need) rest) /\
    RtlValidAcl m' = true.
Proof.
  intros Hrep Hm Hv Hs Hg1 Hg2 (HT & HF & Hfl) a need.
  assert (HT' : 0 <= Type_ < 256 /\ (Type_ = 5 \/ Type_ = 6))
    by (destruct HT as [-> | ->]; unfold ACCESS_ALLOWED_OBJECT_ACE_TYPE,
          ACCESS_DENIED_OBJECT_ACE_TYPE; lia).
  assert (Hneed : need = object_size g1 g2 sid) by (by apply object_ace_length).
  pose proof (object_size_range g1 g2 s sid Hs) as Hor.
  destruct (rep_header m rev size aces rest Hrep) as (HAr & HAs & HAc & Hrange).
  unfold RtlpAddKnownObjectAce. rewrite (sid_valid_at s sid Hs), Hv, HAr, HAs.
  rewrite (first_free_rep m rev size aces rest Hrep). cbn [mbind option_bind].
  rewrite (sid_length s sid Hs). cbn [mbind option_bind].
  replace (_ || (Type_ =? SYSTEM_AUDIT_CALLBACK_OBJECT_ACE_TYPE)) with false
    by (destruct HT as [-> | ->]; done).
  unfold max_known_flags. rewrite Hfl. unfold ACL_REVISION4.
  rewrite (proj2 (Z.ltb_ge 4 rev)) by lia. change (4 =? 4) with true. change (0 =? 0) with true.
  cbn [orb negb].
  rewrite object_size_code, object_flags_code, <- Hneed.
  destruct (Z.ltb_spec size (sizeof_ACL + bytes_of aces + need)) as [Hlt|Hge]; [done|].
  destruct (rep_split m rev size aces rest need Hrep) as (Em & Hp & Hold); [lia|done|].
  destruct (write_object_ace (used m aces) (take (Z.to_nat need) rest)
    (drop (Z.to_nat need) rest) Type_ Flags AccessMask g1 g2 s sid)
    as (m1 & m2 & m3 & m4 & m5 & m6 & m7 & E1 & E2 & E3 & E4 & E5 & E6 & E7 & E8);
    [done|done|done|done|lia|lia|].
  rewrite <- Em, Hp in E1. rewrite <- Hneed in E3. rewrite Hp in E2, E3, E4, E5, E6, E7, E8.
  rewrite E1. cbn [mbind option_bind]. rewrite E2. cbn [mbind option_bind].
  rewrite E3. cbn [mbind option_bind]. rewrite E4. cbn [mbind option_bind].
  rewrite E5. cbn [mbind option_bind]. rewrite E6. cbn [mbind option_bind].
  rewrite E7. cbn [mbind option_bind]. rewrite E8. cbn [mbind option_bind]. fold a.
  unfold need. rewrite Nat2Z.id. fold need.
  apply (finish_append m rev); try done; unfold MAX_ACL_REVISION; try lia.
  - apply (object_ace_ok _ _ _ _ _ s); done || lia.
  - apply (object_ace_valid _ _ _ _ _ s); done || lia.
Qed.

(** ** Insertion and deletion *)

(** Moving [B] right by the length of [N] opens a gap of that length. *)
Lemma move_right pre B old rest n :
  length old = n ->
  exists gap, length gap = n /\
    RtlMoveMemory (pre ++ B ++ old ++ rest) (Z.of_nat (length pre) + Z.of_nat n)
      (Z.of_nat (length pre)) (Z.of_nat (length B))
    = Some (pre ++ gap ++ B ++ rest).
Proof.
  intros Hn. exists (take n (B ++ old)). rewrite length_take, length_app. split; [lia|].
  unfold RtlMoveMemory. rewrite Nat2Z.id, rd_bytes_app by done. cbn [mbind option_bind].
  apply wr_bytes_app_r; [lia|]. rewrite (app_assoc B), <- (take_drop n (B ++ old)) at 1.
  rewrite <- app_assoc. apply wr_bytes_app.
  - rewrite length_take, length_app. lia.
  - rewrite length_drop, length_app. lia.
Qed.

(** Moving [B] left over [a]. *)
Lemma move_left pre a B rest :
  exists tail, length tail = length a /\
    RtlMoveMemory (pre ++ a ++ B ++ rest) (Z.of_nat (length pre))
      (Z.of_nat (length pre) + Z.of_nat (length a)) (Z.of_nat (length B))
    = Some (pre ++ B ++ tail ++ rest).
Proof.
  exists (drop (length B) (a ++ B)). rewrite length_drop, length_app. split; [lia|].
  unfold RtlMoveMemory. rewrite Nat2Z.id, (app_assoc pre a), rd_bytes_app;
    [|rewrite length_app; lia|done].
  cbn [mbind option_bind]. rewrite <- app_assoc, (app_assoc a).
  rewrite <- (take_drop (length B) (a ++ B)) at 1. rewrite <- app_assoc.
  apply wr_bytes_app; [done|]. rewrite length_take, length_app. lia.
Qed.

Lemma RtlpAddData_spec pre B old rest AceList N p :
  p = Z.of_nat (length pre) -> length old = length N -> (exists t, AceList = N ++ t) ->
  RtlpAddData (pre ++ B ++ old ++ rest) AceList (Z.of_nat (length N)) p (Z.of_nat (length B))
  = Some (pre ++ N ++ B ++ rest).
Proof.
  intros -> Hl [t ->]. unfold RtlpAddData.
  destruct (move_right pre B old rest (length N) Hl) as (gap & Hgap & Emove).
  match goal with |- context [mbind _ ?e] => set (moved := e) end.
  assert (exists gap', length gap' = length N /\ moved = Some (pre ++ gap' ++ B ++ rest)) as
    (gap' & Hgap' & ->).
  { unfold moved. destruct B as [|b B]; simpl length; [exists old; done|].
    exists gap. rewrite (proj2 (Z.ltb_lt _ _)) by lia. done. }
  cbn [mbind option_bind]. destruct N as [|x N]; simpl length.
  - destruct gap'; done.
  - rewrite (proj2 (Z.eqb_neq _ _)) by lia. cbn [negb]. rewrite Nat2Z.id.
    rewrite (rd_bytes_app [] (x :: N) t) by done. cbn [mbind option_bind].
    by apply wr_bytes_app.
Qed.

Lemma RtlpDeleteData_spec pre a B rest p :
  p = Z.of_nat (length pre) -> (0 < length a)%nat ->
  Z.of_nat (length a) + Z.of_nat (length B) < 2 ^ 32 ->
  RtlpDeleteData (pre ++ a ++ B ++ rest) p (Z.of_nat (length a))
    (Z.of_nat (length a) + Z.of_nat (length B))
  = Some (pre ++ B ++ replicate (length a) 0 ++ rest).
Proof.
  intros -> Ha Hs. unfold RtlpDeleteData.
  destruct (move_left pre a B rest) as (tail & Ht & Emove).
  match goal with |- context [mbind _ ?e] => set (moved := e) end.
  assert (exists tail', length tail' = length a /\ moved = Some (pre ++ B ++ tail' ++ rest)) as
    (tail' & Ht' & ->).
  { unfold moved. destruct B as [|b B]; simpl length.
    - exists a. rewrite (proj2 (Z.ltb_ge _ _)) by lia. done.
    - exists tail. rewrite (proj2 (Z.ltb_lt _ _)) by lia. simpl length in Emove.
      replace (Z.of_nat (length a) + Z.of_nat (S (length B)) - Z.of_nat (length a))
        with (Z.of_nat (S (length B))) by lia. done. }
  cbn [mbind option_bind]. rewrite u32_small, (proj2 (Z.ltb_lt _ _)) by lia.
  unfold RtlZeroMemory. rewrite Nat2Z.id, (app_assoc pre B), wr_bytes_app.
  - by rewrite <- app_assoc.
  - rewrite length_app. lia.
  - by rewrite length_replicate.
Qed.

(** The ACE types a list of revision [rev] may get through [RtlAddAce]. *)
Definition revision_allows (rev : Z) (a : list Z) : bool :=
  match get8 a 0 with
  | Some type => negb ((5 <=? type) && (type <=? 8) && (rev <? 4)) &&
                 negb ((type =? 4) && (rev <? 3))
  | None => false
  end.

Lemma new_aces_spec rev new : forall fuel pre t n,
  Forall ace_ok new -> forallb (revision_allows rev) new = true ->
  bytes_of new < Z.of_nat fuel -> 0 <= n -> n + Z.of_nat (length new) < 2 ^ 16 ->
  let p := Z.of_nat (length pre) in
  new_aces fuel (pre ++ concat new ++ t) (p + bytes_of new) rev p n
  = Some (Some (p + bytes_of new, n + Z.of_nat (length new))).
Proof.
  induction new as [|a new IH]; intros fuel pre t n Hok Hrev Hfuel Hn Hc p;
    (destruct fuel as [|fuel]; [unfold bytes_of in Hfuel; lia|]).
  - unfold bytes_of. simpl. rewrite Z.add_0_r, Z.ltb_irrefl. by rewrite Z.add_0_r.
  - inversion Hok as [|? ? Ha Hok']; subst. simpl in Hrev. apply andb_true_iff in Hrev as [Hra Hrev].
    cbn [concat new_aces length] in *. rewrite <- app_assoc. rewrite bytes_of_cons in *.
    pose proof (bytes_of_nonneg new). pose proof (ace_min a Ha) as Hmin.
    unfold sizeof_ACE_HEADER in Hmin. rewrite (proj2 (Z.ltb_lt p _)) by lia.
    unfold revision_allows in Hra. destruct (get8 a 0) as [type|] eqn:Et; [|done].
    unfold AceType. rewrite (get_ace 1 pre a _ 0 p type) by (done || lia).
    cbn [mbind option_bind]. rewrite (ace_size_at pre a _ p Ha eq_refl).
    replace (_ && _) with false.
    + cbn [mbind option_bind]. specialize (IH fuel (pre ++ a) t (u16 (n + 1)) Hok' Hrev).
      rewrite <- app_assoc, length_app, Nat2Z.inj_add in IH. fold p in IH.
      unfold u16 in *. rewrite Z.mod_small in * by lia. rewrite Z.add_assoc, IH by lia.
      do 3 f_equal. lia.
    + revert Hra. unfold ACCESS_MAX_MS_ACE_TYPE, ACCESS_MAX_MS_V3_ACE_TYPE,
        ACCESS_MAX_MS_V2_ACE_TYPE, ACL_REVISION4, ACL_REVISION3. case_cmp.
Qed.

(** A representation rebuilt around another list of ACEs. *)
Lemma rep_with m rev size aces rest rev' aces' rest' s1 s2 s3 n :
  acl_rep m rev size aces rest -> Forall ace_ok aces' ->
  MIN_ACL_REVISION <= rev' <= MAX_ACL_REVISION -> n = Z.of_nat (length aces') ->
  sizeof_ACL + bytes_of aces' <= size ->
  bytes_of aces' + Z.of_nat (length rest') = bytes_of aces + Z.of_nat (length rest) ->
  acl_rep (header rev' s1 size n s2 s3 ++ concat aces' ++ rest') rev' size aces' rest'.
Proof.
  intros [_ Hrev Hsz Hroom Hn Heven Hok] Hok' Hr -> Hfit Hlen.
  pose proof (count_bound _ Hok'). constructor; try done.
  - by exists s1, s2, s3.
  - lia.
  - lia.
  - unfold sizeof_ACL in *. lia.
Qed.

(** Where [RtlAddAce] and [RtlDeleteAce] cut the region: at ACE [k]. *)
Lemma rep_cut m rev size aces rest k :
  acl_rep m rev size aces rest ->
  exists s1 s2 s3,
    let pre := header rev s1 size (Z.of_nat (length aces)) s2 s3 ++ concat (take k aces) in
    m = pre ++ concat (drop k aces) ++ rest /\
    Z.of_nat (length pre) = sizeof_ACL + bytes_of (take k aces) /\
    skip_aces m (Nat.min k (length aces)) sizeof_ACL = Some (Z.of_nat (length pre)).
Proof.
  intros Hrep. destruct (rep_mem _ _ _ _ _ Hrep) as (s1 & s2 & s3 & Em).
  exists s1, s2, s3. intros pre.
  assert (Hp : Z.of_nat (length pre) = sizeof_ACL + bytes_of (take k aces)).
  { unfold pre. rewrite length_app, length_header. unfold sizeof_ACL, bytes_of. lia. }
  split_and!; [|done|].
  - unfold pre. by rewrite Em, <- app_assoc, (app_assoc (concat _)), <- concat_app, take_drop.
  - rewrite Em, Hp.
    destruct (walk_prefix (header rev s1 size (Z.of_nat (length aces)) s2 s3) aces rest size
      sizeof_ACL (Nat.min k (length aces))) as [-> _]; try done.
    + apply (rep_aces _ _ _ _ _ Hrep).
    + pose proof (rep_size _ _ _ _ _ Hrep). lia.
    + lia.
    + do 2 f_equal. unfold bytes_of. do 3 f_equal. rewrite <- take_take. by rewrite firstn_all.
Qed.

(** Bytes laid out as after an insertion represent the list with the insertion. *)
Lemma rep_insert m rev size aces rest rev' new k n s1 s2 s3 :
  acl_rep m rev size aces rest -> Forall ace_ok new -> MIN_ACL_REVISION <= rev' ->
  n = Z.of_nat (length aces) + Z.of_nat (length new) ->
  sizeof_ACL + bytes_of aces + bytes_of new <= size ->
  acl_rep (header (Z.min rev rev') s1 size n s2 s3 ++ concat (take k aces) ++ concat new ++
      concat (drop k aces) ++ drop (length (concat new)) rest)
    (Z.min rev rev') size (take k aces ++ new ++ drop k aces) (drop (length (concat new)) rest).
Proof.
  intros Hrep Hnew Hmin Hn Hfit.
  pose proof (rep_room _ _ _ _ _ Hrep) as Hroom. pose proof (rep_size _ _ _ _ _ Hrep) as Hsz.
  pose proof (bytes_of_nonneg aces). destruct (rep_header _ _ _ _ _ Hrep) as (_ & _ & _ & Hrange).
  rewrite (app_assoc (concat new)), (app_assoc (concat (take k aces))), <- !concat_app.
  apply (rep_with m rev size aces rest); try done.
  - rewrite !Forall_app. pose proof (rep_aces _ _ _ _ _ Hrep).
    split_and!; [by apply Forall_take|done|by apply Forall_drop].
  - unfold MIN_ACL_REVISION, MAX_ACL_REVISION in *. lia.
  - rewrite !length_app, Hn, <- (take_drop k aces) at 1. rewrite length_app. lia.
  - rewrite !bytes_of_app. rewrite <- (take_drop k aces), bytes_of_app in Hfit. lia.
  - rewrite !bytes_of_app, length_drop. rewrite <- (take_drop k aces) at 3.
    rewrite bytes_of_app. unfold bytes_of in *. lia.
Qed.

(** [RtlAddAce] refines list insertion: the new ACEs end up in front of
    ACE [StartingIndex] (at the end if there are fewer), in their order, all
    others keep theirs, and the revision becomes the smaller of the two; the
    ACEs are not moved at all if there is no room. *)
Theorem add_ace_inserts m rev size aces rest AclRevision' StartingIndex new t :
  acl_rep m rev size aces rest -> bytes_ok m -> RtlValidAcl m = true ->
  Forall ace_ok new -> forallb (revision_allows AclRevision') new = true ->
  Z.of_nat (length new) < 2 ^ 16 ->
  MIN_ACL_REVISION <= AclRevision' -> 0 <= StartingIndex ->
  let k := Z.to_nat StartingIndex in
  if size <? sizeof_ACL + bytes_of aces + bytes_of new
  then RtlAddAce m AclRevision' StartingIndex (concat new ++ t) (bytes_of new)
       = Some (STATUS_BUFFER_TOO_SMALL, m)
  else exists m',
    RtlAddAce m AclRevision' StartingIndex (concat new ++ t) (bytes_of new)
      = Some (STATUS_SUCCESS, m') /\
    acl_rep m' (Z.min rev AclRevision') size (take k aces ++ new ++ drop k aces)
      (drop (Z.to_nat (bytes_of new)) rest).
Proof.
  intros Hrep Hm Hv Hnew Hrev Hlen Hmin Hi k.
  destruct (rep_header m rev size aces rest Hrep) as (HAr & HAs & HAc & Hrange).
  unfold RtlAddAce. rewrite Hv, HAs, HAc, (first_free_rep m rev size aces rest Hrep).
  cbn [negb mbind option_bind].
  pose proof (bytes_of_nonneg new) as Hnn.
  pose proof (new_aces_spec AclRevision' new (S (Z.to_nat (bytes_of new))) [] t 0 Hnew Hrev
    ltac:(lia) ltac:(lia) ltac:(lia)) as Hna.
  cbn [length app] in Hna. change (Z.of_nat 0) with 0 in Hna. rewrite !Z.add_0_l in Hna. rewrite Hna. clear Hna.
  cbn [mbind option_bind]. rewrite Z.ltb_irrefl.
  destruct (Z.ltb_spec size (sizeof_ACL + bytes_of aces + bytes_of new)) as [|Hfit]; [done|].
  destruct (rep_cut m rev size aces rest k Hrep) as (s1 & s2 & s3 & Em & Hp & Hskip).
  set (pre := header _ _ _ _ _ _ ++ _) in *.
  replace (Z.to_nat (Z.min StartingIndex (Z.of_nat (length aces)))) with
    (Nat.min k (length aces)) by (unfold k; lia).
  rewrite Hskip. cbn [mbind option_bind].
  assert (Hb : sizeof_ACL + bytes_of aces - Z.of_nat (length pre)
               = Z.of_nat (length (concat (drop k aces)))).
  { rewrite Hp, <- (take_drop k aces) at 1. rewrite bytes_of_app. unfold bytes_of. lia. }
  pose proof (rep_room _ _ _ _ _ Hrep) as Hroom.
  assert (Hadd : RtlpAddData m (concat new ++ t) (bytes_of new) (Z.of_nat (length pre))
    (Z.of_nat (length (concat (drop k aces))))
    = Some (pre ++ concat new ++ concat (drop k aces) ++ drop (length (concat new)) rest)).
  { rewrite Em, <- (take_drop (length (concat new)) rest) at 1.
    apply RtlpAddData_spec; [done|rewrite length_take; unfold bytes_of in *; lia|by exists t]. }
  rewrite Hb, Hadd.
  cbn [mbind option_bind]. unfold pre. rewrite <- app_assoc.
  pose proof (rep_size _ _ _ _ _ Hrep) as Hsz. pose proof (rep_count _ _ _ _ _ Hrep) as Hcnt.
  pose proof (bytes_of_nonneg aces). unfold sizeof_ACL in *.
  rewrite header_count by lia. cbn [mbind option_bind]. rewrite header_set_count.
  cbn [mbind option_bind]. rewrite header_revision. cbn [mbind option_bind].
  unfold MIN_ACL_REVISION in Hmin. rewrite header_set_revision by lia. cbn [mbind option_bind].
  eexists. split; [reflexivity|]. unfold bytes_of at 1. rewrite Nat2Z.id.
  apply (rep_insert m rev); done || (unfold MIN_ACL_REVISION, sizeof_ACL; lia).
Qed.

Lemma aces_valid_delete rev size aces k a :
  Forall ace_ok aces -> sizeof_ACL + bytes_of aces <= size -> aces !! k = Some a ->
  aces_valid rev size aces = true ->
  aces_valid rev size (take k aces ++ drop (S k) aces) = true.
Proof.
  intros Hok Hfit Hk Hv. unfold aces_valid in *. apply andb_true_iff in Hv as [_ Hf].
  apply andb_true_iff. rewrite <- (take_drop_middle _ _ _ Hk) in Hok, Hfit, Hf.
  rewrite bytes_of_app, bytes_of_cons in Hfit. rewrite Forall_app, Forall_cons_iff in Hok.
  destruct Hok as (H1 & Ha & H2). split.
  - apply headers_inside_room; [by apply Forall_app|]. rewrite bytes_of_app.
    pose proof (ace_min a Ha) as Hmin. unfold sizeof_ACE_HEADER in Hmin. lia.
  - rewrite forallb_app in *. simpl in Hf. rewrite !andb_true_iff in *. tauto.
Qed.

(** Bytes laid out as after a deletion represent the list without the ACE. *)
Lemma rep_delete m rev size aces rest k a :
  acl_rep m rev size aces rest -> aces !! k = Some a ->
  forall n s1 s2 s3, n = Z.of_nat (length aces) - 1 ->
  acl_rep (header rev s1 size n s2 s3 ++ concat (take k aces ++ drop (S k) aces) ++
      replicate (length a) 0 ++ rest)
    rev size (take k aces ++ drop (S k) aces) (replicate (length a) 0 ++ rest).
Proof.
  intros Hrep Hk n s1 s2 s3 Hn. pose proof (rep_aces _ _ _ _ _ Hrep) as Hok.
  pose proof (lookup_lt_Some _ _ _ Hk) as Hlt. pose proof (rep_size _ _ _ _ _ Hrep) as Hsz.
  assert (Hsum : bytes_of aces = bytes_of (take k aces) + Z.of_nat (length a) + bytes_of (drop (S k) aces)).
  { rewrite <- (take_drop_middle _ _ _ Hk) at 1. rewrite bytes_of_app, bytes_of_cons. lia. }
  destruct (rep_header _ _ _ _ _ Hrep) as (_ & _ & _ & Hrange).
  apply (rep_with m rev size aces rest); try done.
  - apply Forall_app. split; [by apply Forall_take|by apply Forall_drop].
  - rewrite Hn, length_app, length_take, length_drop. lia.
  - rewrite bytes_of_app. unfold bytes_of, sizeof_ACL in *. lia.
  - rewrite bytes_of_app, length_app, length_replicate. unfold bytes_of in *. lia.
Qed.

(** C32.  [RtlDeleteAce] refines list deletion: ACE [k] is gone, the others keep
    their order and contents, the freed bytes are zero, and the ACL is still
    valid; an index past the last ACE is refused without a change. *)
Theorem delete_ace_deletes m rev size aces rest AceIndex :
  acl_rep m rev size aces rest -> bytes_ok m -> RtlValidAcl m = true -> 0 <= AceIndex ->
  let k := Z.to_nat AceIndex in
  match aces !! k with
  | None => RtlDeleteAce m AceIndex = Some (STATUS_INVALID_PARAMETER, m)
  | Some a => exists m', RtlDeleteAce m AceIndex = Some (STATUS_SUCCESS, m') /\
      acl_rep m' rev size (take k aces ++ drop (S k) aces) (replicate (length a) 0 ++ rest) /\
      RtlValidAcl m' = true
  end.
Proof.
  intros Hrep Hm Hv Hi k.
  destruct (rep_header m rev size aces rest Hrep) as (HAr & HAs & HAc & Hrange).
  unfold RtlDeleteAce. rewrite Hv, HAc, (first_free_rep m rev size aces rest Hrep).
  cbn [negb mbind option_bind]. destruct (aces !! k) as [a|] eqn:Hk.
  2:{ apply lookup_ge_None_1 in Hk. by rewrite (proj2 (Z.leb_le _ _)) by lia. }
  pose proof (lookup_lt_Some _ _ _ Hk) as Hlt.
  rewrite (proj2 (Z.leb_gt _ _)) by lia.
  destruct (rep_cut m rev size aces rest k Hrep) as (s1 & s2 & s3 & Em & Hp & Hskip).
  set (pre := header _ _ _ _ _ _ ++ _) in *. set (B := concat (drop (S k) aces)).
  rewrite Nat.min_l in Hskip by lia. fold k. rewrite Hskip. cbn [mbind option_bind default].
  rewrite (drop_S _ _ _ Hk) in Em. cbn [concat] in Em. fold B in Em. rewrite <- app_assoc in Em.
  assert (Hok := rep_aces _ _ _ _ _ Hrep).
  assert (Ha : ace_ok a) by (eapply Forall_lookup_1; eauto).
  pose proof (ace_min a Ha) as Hmin. unfold sizeof_ACE_HEADER in Hmin.
  assert (HS : AceSize m (Z.of_nat (length pre)) = Some (Z.of_nat (length a)))
    by (rewrite Em; by apply ace_size_at).
  rewrite HS. cbn [mbind option_bind].
  pose proof (rep_size _ _ _ _ _ Hrep) as Hsz. pose proof (rep_count _ _ _ _ _ Hrep) as Hcnt.
  pose proof (bytes_of_nonneg (take k aces)).
  assert (Hsum : bytes_of aces = bytes_of (take k aces) + Z.of_nat (length a) + Z.of_nat (length B)).
  { rewrite <- (take_drop_middle _ _ _ Hk) at 1. rewrite bytes_of_app, bytes_of_cons.
    unfold B, bytes_of. lia. }
  assert (Hdel : RtlpDeleteData m (Z.of_nat (length pre)) (Z.of_nat (length a))
    (u32 (sizeof_ACL + bytes_of aces - Z.of_nat (length pre)))
    = Some (pre ++ B ++ replicate (length a) 0 ++ rest)).
  { unfold sizeof_ACL in *. rewrite u32_small by lia.
    replace (8 + bytes_of aces - Z.of_nat (length pre)) with
      (Z.of_nat (length a) + Z.of_nat (length B)) by lia.
    rewrite Em at 1. apply RtlpDeleteData_spec; [done|lia|lia]. }
  unfold id. rewrite Hdel. cbn [mbind option_bind]. unfold pre, B, sizeof_ACL in *.
  rewrite <- app_assoc. rewrite header_count by lia. cbn [mbind option_bind].
  rewrite header_set_count. cbn [mbind option_bind]. rewrite (app_assoc (concat _)), <- concat_app.
  pose proof (rep_delete m rev size aces rest k a Hrep Hk) as Hrep'.
  eexists. split_and!; [reflexivity|by apply Hrep'|].
  rewrite (RtlValidAcl_rep _ _ _ _ _ (Hrep' _ s1 s2 s3 eq_refl)).
  - apply (aces_valid_delete rev size aces k a); try done; [unfold sizeof_ACL; lia|].
    by rewrite <- (RtlValidAcl_rep _ _ _ _ _ Hrep Hm).
  - rewrite Em, <- app_assoc in Hm. eapply header_bytes_ok; [exact Hm|lia|].
    rewrite concat_app. unfold bytes_ok in *. rewrite !Forall_app in *.
    split_and!; try tauto. apply Forall_replicate. lia.
Qed.

(** ** Creation and access *)

(** [RtlCreateAcl] makes a valid ACL without ACEs of the size asked for,
    rounded up to a multiple of 4, and writes nothing but the eight bytes of the
    header.  The bound 65532 is sharp: for a larger size that passes the code's own
    check the rounded size does not fit its 16 bit field. *)
Theorem create_acl_empty m AclSize rev :
  bytes_ok m -> sizeof_ACL <= AclSize <= 65532 -> MIN_ACL_REVISION <= rev <= MAX_ACL_REVISION ->
  let size := ROUND_UP AclSize 4 in
  size <= Z.of_nat (length m) ->
  exists m', RtlCreateAcl m AclSize rev = Some (STATUS_SUCCESS, m') /\
    acl_rep m' rev size [] (drop 8 m) /\ RtlValidAcl m' = true /\ AclSize <= size < AclSize + 4.
Proof.
  intros Hm HS Hr size Hlen. unfold sizeof_ACL, MIN_ACL_REVISION, MAX_ACL_REVISION in HS, Hr.
  destruct (round_up_pow2 AclSize 2) as [Hmod Hrange]; [lia|lia|lia|].
  change (2 ^ 2) with 4 in *. fold size in Hmod, Hrange.
  unfold RtlCreateAcl, sizeof_ACL, MIN_ACL_REVISION, MAX_ACL_REVISION. fold size.
  rewrite (proj2 (Z.ltb_ge AclSize 8)), (proj2 (Z.ltb_ge rev 2)), (proj2 (Z.ltb_ge 4 rev)),
    (proj2 (Z.ltb_ge 65535 AclSize)) by lia. cbn [orb].
  destruct m as [|b0 [|b1 [|b2 [|b3 [|b4 [|b5 [|b6 [|b7 m]]]]]]]]; try (simpl in Hlen; lia).
  change (drop 8 (b0 :: b1 :: b2 :: b3 :: b4 :: b5 :: b6 :: b7 :: m)) with m.
  change (b0 :: b1 :: b2 :: b3 :: b4 :: b5 :: b6 :: b7 :: m)
    with ([b0; b1; b2; b3; b4; b5; b6; b7] ++ m).
  rewrite (set_app_l 2 [b0; b1; b2; b3; b4; b5; b6; b7] m 2 size
    ([b0; b1] ++ le 2 size ++ [b4; b5; b6; b7]) eq_refl).
  cbn [mbind option_bind].
  rewrite (set_app_l 1 ([b0; b1] ++ le 2 size ++ [b4; b5; b6; b7]) m 0 rev
    (le 1 rev ++ [b1] ++ le 2 size ++ [b4; b5; b6; b7]) eq_refl).
  cbn [mbind option_bind].
  rewrite (set_app_l 2 (le 1 rev ++ [b1] ++ le 2 size ++ [b4; b5; b6; b7]) m 4 0
    (le 1 rev ++ [b1] ++ le 2 size ++ [0; 0; b6; b7]) eq_refl).
  cbn [mbind option_bind].
  rewrite (set_app_l 1 (le 1 rev ++ [b1] ++ le 2 size ++ [0; 0; b6; b7]) m 1 0
    (le 1 rev ++ [0] ++ le 2 size ++ [0; 0; b6; b7]) eq_refl).
  cbn [mbind option_bind].
  rewrite (set_app_l 2 (le 1 rev ++ [0] ++ le 2 size ++ [0; 0; b6; b7]) m 6 0
    (le 1 rev ++ [0] ++ le 2 size ++ [0; 0; 0; 0]) eq_refl).
  cbn [mbind option_bind]. rewrite set_byte by lia.
  assert (Hrep : acl_rep (header rev 0 size 0 0 0 ++ m) rev size [] m).
  { simpl length in Hlen. constructor; unfold bytes_of, sizeof_ACL; simpl length; try done; try lia.
    - by exists 0, 0, 0.
    - Z.div_mod_to_equations; lia. }
  eexists. split_and!; [reflexivity|exact Hrep| |lia|lia].
  change ([rev] ++ [0] ++ le 2 size ++ [0; 0; 0; 0]) with (header rev 0 size 0 0 0).
  rewrite (RtlValidAcl_rep _ _ _ _ _ Hrep); [done|].
  apply Forall_app. split; [|by do 8 (apply Forall_inv_tail in Hm)].
  unfold header. rewrite !Forall_app. split_and!; try apply le_ok; repeat constructor; lia.
Qed.

Definition ace_offset (aces : list (list Z)) (i : nat) : Z := sizeof_ACL + bytes_of (take i aces).

(** Where the bytes of an ACE are. *)
Lemma ace_at m rev size aces rest i a :
  acl_rep m rev size aces rest -> aces !! i = Some a ->
  exists pre post, m = pre ++ a ++ post /\ Z.of_nat (length pre) = ace_offset aces i.
Proof.
  intros Hrep Ha. destruct (rep_mem _ _ _ _ _ Hrep) as (s1 & s2 & s3 & Em).
  set (hdr := header _ _ _ _ _ _) in Em.
  exists (hdr ++ concat (take i aces)), (concat (drop (S i) aces) ++ rest). split.
  - rewrite Em, <- (take_drop_middle _ _ _ Ha) at 1. rewrite concat_app. cbn [concat].
    by rewrite <- !app_assoc.
  - unfold hdr, ace_offset, bytes_of, sizeof_ACL. rewrite length_app, length_header. lia.
Qed.

Lemma RtlGetAce_rep m rev size aces rest i a :
  acl_rep m rev size aces rest -> aces !! i = Some a ->
  RtlGetAce m (Z.of_nat i) = Some (STATUS_SUCCESS, Some (ace_offset aces i)).
Proof.
  intros Hrep Ha. destruct (rep_header m rev size aces rest Hrep) as (HAr & HAs & HAc & Hrange).
  assert (Hok := rep_aces _ _ _ _ _ Hrep). pose proof (rep_size _ _ _ _ _ Hrep) as Hsz.
  unfold RtlGetAce, MIN_ACL_REVISION, MAX_ACL_REVISION, sizeof_ACL in *.
  rewrite HAr, HAs, HAc. cbn [mbind option_bind].
  rewrite (proj2 (Z.ltb_ge rev 2)), (proj2 (Z.ltb_ge 4 rev)) by lia. cbn [orb negb].
  pose proof (lookup_lt_Some _ _ _ Ha) as Hlt. rewrite (proj2 (Z.leb_gt _ (Z.of_nat i))) by lia.
  destruct (rep_mem _ _ _ _ _ Hrep) as (s1 & s2 & s3 & Em).
  destruct (walk_prefix (header rev s1 size (Z.of_nat (length aces)) s2 s3) aces rest size 8 i)
    as [_ Hw]; [done|done|lia|lia|].
  rewrite <- Em in Hw. rewrite Nat2Z.id, Hw. cbn [mbind option_bind negb].
  assert (Hsum : bytes_of aces = bytes_of (take i aces) + Z.of_nat (length a) +
                 bytes_of (drop (S i) aces))
    by (rewrite <- (take_drop_middle _ _ _ Ha) at 1; rewrite bytes_of_app, bytes_of_cons; lia).
  assert (Hmin : 4 <= Z.of_nat (length a)) by (apply ace_min; eapply Forall_lookup_1; eauto).
  pose proof (bytes_of_nonneg (drop (S i) aces)). by rewrite (proj2 (Z.leb_gt size _)) by lia.
Qed.

(** [RtlGetAce] is list lookup: index [i] of an ACL that holds [aces] yields
    the address of the bytes of ACE [i], and an index past the end
    [STATUS_INVALID_PARAMETER]; [RtlQueryInformationAcl] reports the number of ACEs,
    the bytes they and the header take, and the rest of [AclSize] as free. *)
Theorem get_ace_nth m rev size aces rest i :
  acl_rep m rev size aces rest -> 0 <= i ->
  match aces !! Z.to_nat i with
  | Some a => RtlGetAce m i = Some (STATUS_SUCCESS, Some (ace_offset aces (Z.to_nat i))) /\
              rd_bytes m (ace_offset aces (Z.to_nat i)) (length a) = Some a
  | None => RtlGetAce m i = Some (STATUS_INVALID_PARAMETER, None)
  end /\
  RtlQueryInformationAcl m 12 AclSizeInformation
  = Some (STATUS_SUCCESS, Some (SizeInfo (Z.of_nat (length aces))
      (sizeof_ACL + bytes_of aces) (size - (sizeof_ACL + bytes_of aces)))).
Proof.
  intros Hrep Hi. destruct (rep_header m rev size aces rest Hrep) as (HAr & HAs & HAc & Hrange).
  pose proof (rep_size _ _ _ _ _ Hrep) as Hsz. pose proof (bytes_of_nonneg aces).
  split.
  - destruct (aces !! Z.to_nat i) as [a|] eqn:Ha.
    + split; [rewrite <- (RtlGetAce_rep _ _ _ _ _ _ _ Hrep Ha); f_equal; lia|].
      destruct (ace_at _ _ _ _ _ _ _ Hrep Ha) as (pre & post & -> & <-). by apply rd_bytes_app.
    + apply lookup_ge_None_1 in Ha. unfold RtlGetAce, MIN_ACL_REVISION, MAX_ACL_REVISION.
      rewrite HAr, HAc. cbn [mbind option_bind].
      rewrite (proj2 (Z.ltb_ge rev 2)), (proj2 (Z.ltb_ge 4 rev)) by lia. cbn [orb negb].
      by rewrite (proj2 (Z.leb_le _ i)) by lia.
  - unfold RtlQueryInformationAcl, MIN_ACL_REVISION, MAX_ACL_REVISION, sizeof_ACL in *.
    rewrite HAr, HAs, HAc, (first_free_rep m rev size aces rest Hrep). cbn [mbind option_bind].
    rewrite (proj2 (Z.ltb_ge rev 2)), (proj2 (Z.ltb_ge 4 rev)) by lia. cbn [orb negb].
    change (12 <? 12) with false. by rewrite u32_small by (unfold sizeof_ACL; lia).
Qed.

(** ** What a positive answer of [RtlValidAcl] guarantees *)

(** The ACEs met by stepping through [m] from [p] to [e]. *)
Inductive chain (m : mem) : Z -> list (list Z) -> Z -> Prop :=
| chain_nil p : chain m p [] p
| chain_cons p (a : list Z) l e :
    AceSize m p = Some (Z.of_nat (length a)) -> rd_bytes m p (length a) = Some a ->
    chain m (p + Z.of_nat (length a)) l e -> chain m p (a :: l) e.

(** The types whose ACEs the code takes as they are. *)
Definition assumed_valid (m : mem) (p : Z) : Prop :=
  exists type, AceType m p = Some type /\ (type = 4 \/ type = 7 \/ type = 8).

Lemma rd_bytes_parts m p n :
  0 <= p -> p + Z.of_nat n <= Z.of_nat (length m) ->
  exists pre (a : list Z) post, m = pre ++ a ++ post /\ Z.of_nat (length pre) = p /\ length a = n.
Proof.
  intros Hp Hn. destruct (rd_bytes m p n) as [a|] eqn:E.
  - apply rd_bytes_some in E as (pre & post & E1 & E2 & E3). exists pre, a, post. done.
  - unfold rd_bytes in E. rewrite (proj2 (Z.leb_le _ _)), (proj2 (Z.leb_le _ _)) in E by lia. done.
Qed.

Lemma get_inside n pre a post p q v :
  get n (pre ++ a ++ post) q = Some v -> q = Z.of_nat (length pre) + p -> 0 <= p ->
  p + Z.of_nat n <= Z.of_nat (length a) -> get n a p = Some v.
Proof.
  intros H -> Hp Hl. rewrite (get_app_r n pre _ p) in H by done.
  destruct (get n a p) as [w|] eqn:E.
  - by rewrite (get_app_l n a post p w E) in H.
  - unfold get, rd_bytes in E. rewrite (proj2 (Z.leb_le _ _)), (proj2 (Z.leb_le _ _)) in E by lia.
    done.
Qed.

(** One accepted ACE: inside the ACL, and valid unless its type is not checked. *)
Lemma valid_ace_sound m rev size p :
  bytes_ok m -> 0 <= p -> size <= Z.of_nat (length m) -> size < 2 ^ 16 ->
  valid_ace m rev size p = Some true ->
  exists a, AceSize m p = Some (Z.of_nat (length a)) /\ rd_bytes m p (length a) = Some a /\
    p + Z.of_nat (length a) <= size /\ p < size /\
    (assumed_valid m p \/ ace_ok a /\ ace_valid rev a = true).
Proof.
  intros Hm Hp Hlen Hsz Hv. pose proof Hv as Hv'. unfold valid_ace, sizeof_ACE_HEADER in Hv.
  destruct (Z.leb_spec size (p + 4)); [done|].
  destruct (AceSize m p) as [sz|] eqn:ES; [|done]. cbn [mbind option_bind] in Hv.
  pose proof (get_some_range 2 m _ sz Hm ES) as Hr. change (256 ^ Z.of_nat 2) with (2 ^ 16) in Hr.
  destruct (negb (ROUND_DOWN sz 2 =? sz)); [done|].
  destruct (Z.ltb_spec size (p + sz)); [done|].
  destruct (AceType m p) as [type|] eqn:ET; [|done]. cbn [mbind option_bind] in Hv.
  destruct (rd_bytes_parts m p (Z.to_nat sz)) as (pre & a & post & Em & Ep & Ea); [lia|lia|].
  exists a. rewrite Ea, Z2Nat.id by lia.
  assert (rd_bytes m p (Z.to_nat sz) = Some a) as -> by (rewrite Em; by apply rd_bytes_app).
  split_and!; try done; try lia.
  destruct (decide (type = 4 \/ type = 7 \/ type = 8)) as [Ht|Ht]; [left; by exists type|right].
  assert (Hmin : 4 <= sz).
  { revert Hv. unfold valid_known_ace, valid_object_ace, ACCESS_MAX_MS_V2_ACE_TYPE,
      ACCESS_ALLOWED_OBJECT_ACE_TYPE, ACCESS_DENIED_OBJECT_ACE_TYPE, sizeof_ACE_HEADER,
      ACCESS_ALLOWED_COMPOUND_ACE_TYPE, ACCESS_MIN_MS_OBJECT_ACE_TYPE,
      ACCESS_MAX_MS_OBJECT_ACE_TYPE, sizeof_KNOWN_OBJECT_ACE.
    destruct (negb (ROUND_DOWN sz 4 =? sz)), (rev <? ACL_REVISION4); case_cmp. }
  assert (Hok : ace_ok a).
  { constructor; [|unfold sizeof_ACE_HEADER; lia|].
    - unfold bytes_ok in *. rewrite Em, !Forall_app in Hm. tauto.
    - rewrite Ea, Z2Nat.id by lia. subst m. eapply get_inside; [exact ES|lia|lia|lia]. }
  split; [done|]. subst m p.
  rewrite <- (valid_ace_spec pre a post rev size) by (done || lia). by rewrite Hv'.
Qed.

Lemma valid_aces_sound m rev size n : forall p,
  bytes_ok m -> 0 <= p -> size <= Z.of_nat (length m) -> p <= size < 2 ^ 16 ->
  valid_aces m rev size n p = Some true ->
  exists aces e, length aces = n /\ chain m p aces e /\ e <= size /\
    first_free_loop m size n p = Some (Some e) /\
    forall l1 a l2, aces = l1 ++ a :: l2 ->
      assumed_valid m (p + bytes_of l1) \/ ace_ok a /\ ace_valid rev a = true.
Proof.
  induction n as [|n IH]; intros p Hm Hp Hlen Hsz Hv; cbn [valid_aces first_free_loop] in *.
  { exists [], p. split_and!; try done; [constructor|lia|]. by intros []. }
  destruct (valid_ace m rev size p) as [[|]|] eqn:E; [|done|done].
  destruct (valid_ace_sound m rev size p) as (a & ES & ER & Hend & Hlt & Hok); try done; [lia|].
  cbn [mbind option_bind negb] in Hv. rewrite ES in *. cbn [mbind option_bind] in Hv.
  destruct (IH (p + Z.of_nat (length a))) as (aces & e & Hl & Hch & He & Hff & Hall);
    [done|lia|done|lia|done|].
  exists (a :: aces), e. split_and!; [simpl; lia|by constructor|done| |].
  - rewrite (proj2 (Z.leb_gt size p)) by lia. done.
  - intros [|b l1] x l2 Heq; injection Heq as -> ->.
    + by rewrite Z.add_0_r.
    + rewrite bytes_of_cons, Z.add_assoc. by eapply Hall.
Qed.

(** C21.  If [RtlValidAcl] answers TRUE for an ACL whose [AclSize] bytes are
    readable, then walking its [AceCount] ACEs stays inside [AclSize], finds the first free
    byte there, and every ACE, other than those of the types the code takes
    unchecked, is well formed and carries a SID with revision 1 and at most 15
    subauthorities that the ACE's size accounts for; the size test of the code leaves out
    the access mask, so the SID may end up to four bytes behind the ACE, see
    [valid_acl_sid_outside]. *)
Theorem valid_acl_sound m size :
  bytes_ok m -> AclSize m = Some size -> size <= Z.of_nat (length m) -> RtlValidAcl m = true ->
  exists rev aces e,
    AclRevision m = Some rev /\ 2 <= rev <= 4 /\ AceCount m = Some (Z.of_nat (length aces)) /\
    chain m sizeof_ACL aces e /\ e <= size /\ RtlFirstFreeAce m = Some (true, Some e) /\
    forall l1 a l2, aces = l1 ++ a :: l2 ->
      assumed_valid m (sizeof_ACL + bytes_of l1) \/ ace_ok a /\ ace_valid rev a = true.
Proof.
  intros Hm HS Hlen Hv. unfold RtlValidAcl in Hv. unfold RtlFirstFreeAce. rewrite HS in *.
  destruct (AclRevision m) as [rev|]; [|done]. cbn [mbind option_bind] in Hv.
  unfold MIN_ACL_REVISION, MAX_ACL_REVISION in Hv.
  destruct (Z.ltb_spec rev 2); [done|]. destruct (Z.ltb_spec 4 rev); [done|]. cbn [orb] in Hv.
  destruct (negb _); [done|]. destruct (Z.ltb_spec size sizeof_ACL) as [|H8]; [done|].
  destruct (AceCount m) as [c|] eqn:HC; [|done]. cbn [mbind option_bind] in Hv.
  pose proof (get_some_range 2 m _ c Hm HC) as Hc.
  pose proof (get_some_range 2 m _ size Hm HS) as Hs. change (256 ^ Z.of_nat 2) with (2 ^ 16) in *.
  destruct (valid_aces m rev size (Z.to_nat c) sizeof_ACL) as [[|]|] eqn:E; try done.
  destruct (valid_aces_sound m rev size (Z.to_nat c) sizeof_ACL)
    as (aces & e & Hl & Hch & He & Hff & Hall); try done; [unfold sizeof_ACL in *; lia|].
  exists rev, aces, e. split_and!; try done.
  - by rewrite Hl, Z2Nat.id by lia.
  - cbn [mbind option_bind]. rewrite Hff. cbn [mbind option_bind].
    by rewrite (proj2 (Z.leb_le _ _)) by lia.
Qed.

(** ** Limits of the code *)

(** A size of 65533 to 65535 passes the check of [RtlCreateAcl], which then stores
    the low 16 bits of the rounded size, 0: the ACL it reports as created is not
    valid. *)
Lemma create_acl_size_wraps :
  exists m', RtlCreateAcl (replicate 16 0) 65535 2 = Some (STATUS_SUCCESS, m') /\
    AclSize m' = Some 0 /\ RtlValidAcl m' = false.
Proof. eexists. split_and!; reflexivity. Qed.

(** The size check of a known ACE leaves out its mask: this ACL of 24 bytes is
    accepted although the SID of its ACE, at offset 16 and 12 bytes long, ends
    behind it. *)
Lemma valid_acl_sid_outside :
  let m := header 2 0 24 1 0 0 ++ [0; 0; 16; 0] ++ le 4 1 ++ [1; 1; 0; 0; 0; 0; 0; 1] in
  length m = 24%nat /\ RtlValidAcl m = true /\
  RtlLengthSid (drop 16 m) = Some 12 /\ rd_bytes m 16 12 = None.
Proof. split_and!; reflexivity. Qed.

Definition world_sid : list Z := [1; 1; 0; 0; 0; 0; 0; 1; 0; 0; 0; 0].

(** [RtlAddAce] takes the smaller revision, also for an ACL that has object ACEs,
    which a revision below 4 does not admit: the ACL is valid before and not after. *)
Lemma add_ace_lowers_revision :
  let o := object_ace 5 0 1 (Some (replicate 16 7)) None world_sid in
  let m := header 4 0 128 1 0 0 ++ o ++ replicate 80 0 in
  RtlValidAcl m = true /\
  exists m', RtlAddAce m 2 0 (known_ace 0 0 1 world_sid) 20 = Some (STATUS_SUCCESS, m') /\
    RtlValidAcl m' = false.
Proof. split; [reflexivity|]. eexists. split; reflexivity. Qed.

(** ** The properties at a concrete ACL *)

Lemma world_sid_at : sid_at world_sid world_sid.
Proof.
  constructor; [by exists []|done| |repeat constructor; lia].
  exists 1. split_and!; [done|lia|unfold SID_MAX_SUB_AUTHORITIES; lia|done].
Defined.

Definition example_aces : list (list Z) :=
  [known_ace 1 0 2 world_sid; known_ace 0 0 1 world_sid].

Definition example_acl : mem :=
  header 2 0 96 2 0 0 ++ concat example_aces ++ replicate 56 0.

Lemma example_acl_bytes : bytes_ok example_acl.
Proof. unfold bytes_ok. vm_compute. repeat constructor; discriminate. Defined.

Lemma example_acl_rep : acl_rep example_acl 2 96 example_aces (replicate 56 0).
Proof.
  constructor; try done; [by exists 0, 0, 0|].
  repeat constructor; try (vm_compute; discriminate); try lia; try (vm_compute; lia).
Defined.

Lemma add_known_ace_appends_witness :
  exists m', RtlpAddKnownAce example_acl 2 0 7 (Some world_sid) 0 = Some (STATUS_SUCCESS, m') /\
    RtlValidAcl m' = true.
Proof.
  destruct (add_known_ace_appends example_acl 2 96 example_aces (replicate 56 0) 2 0 7
    world_sid world_sid 0 example_acl_rep example_acl_bytes eq_refl world_sid_at)
    as (m' & E & _ & Hv).
  - unfold known_args, MAX_ACL_REVISION. split_and!; [lia..|reflexivity].
  - exists m'. split; [exact E|exact Hv].
Defined.

Lemma add_object_ace_appends_witness :
  exists m', RtlpAddKnownObjectAce example_acl 4 0 7 (Some (replicate 16 1)) None
      (Some world_sid) 5 = Some (STATUS_SUCCESS, m') /\ RtlValidAcl m' = true.
Proof.
  destruct (add_object_ace_appends example_acl 2 96 example_aces (replicate 56 0) 0 7
    (Some (replicate 16 1)) None world_sid world_sid 5 example_acl_rep example_acl_bytes
    eq_refl world_sid_at) as (m' & E & _ & Hv).
  - intros bs [= <-]. split; [done|repeat constructor; lia].
  - done.
  - unfold object_args. split_and!; [by left|lia..|reflexivity].
  - exists m'. split; [exact E|exact Hv].
Defined.

Lemma add_ace_inserts_witness :
  exists m', RtlAddAce example_acl 2 1 (known_ace 0 0 4 world_sid) 20
    = Some (STATUS_SUCCESS, m').
Proof.
  destruct (add_ace_inserts example_acl 2 96 example_aces (replicate 56 0) 2 1
    [known_ace 0 0 4 world_sid] [] example_acl_rep example_acl_bytes eq_refl)
    as (m' & E & _).
  - repeat constructor; try (vm_compute; discriminate); try lia; try (vm_compute; lia).
  - reflexivity.
  - simpl. lia.
  - unfold MIN_ACL_REVISION. lia.
  - lia.
  - exists m'. exact E.
Defined.

Lemma delete_ace_deletes_witness :
  exists m', RtlDeleteAce example_acl 0 = Some (STATUS_SUCCESS, m') /\ RtlValidAcl m' = true.
Proof.
  destruct (delete_ace_deletes example_acl 2 96 example_aces (replicate 56 0) 0
    example_acl_rep example_acl_bytes eq_refl) as (m' & E & _ & Hv); [lia|].
  exists m'. split; [exact E|exact Hv].
Defined.

Lemma create_acl_empty_witness :
  exists m', RtlCreateAcl (replicate 32 0) 30 2 = Some (STATUS_SUCCESS, m') /\
    RtlValidAcl m' = true.
Proof.
  destruct (create_acl_empty (replicate 32 0) 30 2) as (m' & E & _ & Hv & _).
  - repeat constructor; lia.
  - unfold sizeof_ACL. lia.
  - unfold MIN_ACL_REVISION, MAX_ACL_REVISION. lia.
  - vm_compute. discriminate.
  - exists m'. split; [exact E|exact Hv].
Defined.

Lemma get_ace_nth_witness : RtlGetAce example_acl 1 = Some (STATUS_SUCCESS, Some 28).
Proof.
  destruct (get_ace_nth example_acl 2 96 example_aces (replicate 56 0) 1 example_acl_rep)
    as [[E _] _]; [lia|]. exact E.
Defined.

Lemma valid_acl_sound_witness :
  exists rev aces e, chain example_acl 8 aces e /\ e <= 96 /\ 2 <= rev <= 4.
Proof.
  destruct (valid_acl_sound example_acl 96 example_acl_bytes eq_refl)
    as (rev & aces & e & _ & Hr & _ & Hc & He & _); [vm_compute; discriminate|reflexivity|].
  exists rev, aces, e. split_and!; [exact Hc|exact He|apply Hr|apply Hr].
Defined.
