(* ===== verification/RtlSd.v ===== *)
(** Security descriptors (sdk/lib/rtl/sd.c, with the accessors of
    ntoskrnl/include/internal/se.h): creation, the getters and setters, the
    validation of a self-relative descriptor against the length of its buffer,
    and the conversions between the absolute and the self-relative format.

    A descriptor, its SIDs and its ACLs live in one memory; a pointer is an
    offset in it, 0 is [NULL].  On 32 bits [SECURITY_DESCRIPTOR] (pointers) and
    [SECURITY_DESCRIPTOR_RELATIVE] (offsets) have the same layout. *)

From S2P Require Import Prelude Bytes RtlSid RtlAcl.

Definition SECURITY_DESCRIPTOR_REVISION : Z := 1.
Definition SE_OWNER_DEFAULTED : Z := 0x0001.
Definition SE_GROUP_DEFAULTED : Z := 0x0002.
Definition SE_DACL_PRESENT : Z := 0x0004.
Definition SE_DACL_DEFAULTED : Z := 0x0008.
Definition SE_SACL_PRESENT : Z := 0x0010.
Definition SE_SACL_DEFAULTED : Z := 0x0020.
Definition SE_DACL_UNTRUSTED : Z := 0x0040.
Definition SE_SERVER_SECURITY : Z := 0x0080.
Definition SE_DACL_AUTO_INHERIT_REQ : Z := 0x0100.
Definition SE_SACL_AUTO_INHERIT_REQ : Z := 0x0200.
Definition SE_DACL_AUTO_INHERITED : Z := 0x0400.
Definition SE_SACL_AUTO_INHERITED : Z := 0x0800.
Definition SE_DACL_PROTECTED : Z := 0x1000.
Definition SE_SACL_PROTECTED : Z := 0x2000.
Definition SE_RM_CONTROL_VALID : Z := 0x4000.
Definition SE_SELF_RELATIVE : Z := 0x8000.
Definition OWNER_SECURITY_INFORMATION : Z := 1.
Definition GROUP_SECURITY_INFORMATION : Z := 2.

Definition sizeof_SECURITY_DESCRIPTOR : Z := 20.
Definition sizeof_SID : Z := 12.

(** ** The structure *)

(** The memory a pointer designates; [NULL] faults. *)
Definition region (m : mem) (p : Z) : option mem :=
  if p =? 0 then None else Some (drop (Z.to_nat p) m).

Definition field (n : nat) (m : mem) (p o : Z) : option Z :=
  if p =? 0 then None else get n m (p + o).

Definition set_field (n : nat) (m : mem) (p o v : Z) : option mem :=
  if p =? 0 then None else set n m (p + o) v.

(** The offsets of the members. *)
Definition Owner_ : Z := 4.
Definition Group_ : Z := 8.
Definition Sacl_ : Z := 12.
Definition Dacl_ : Z := 16.

Definition Revision (m : mem) (Sd : Z) : option Z := field 1 m Sd 0.
Definition Sbz1 (m : mem) (Sd : Z) : option Z := field 1 m Sd 1.
Definition Control (m : mem) (Sd : Z) : option Z := field 2 m Sd 2.
Definition set_Control (m : mem) (Sd v : Z) : option mem := set_field 2 m Sd 2 v.

(** [Sd->Control &= ~Flags] and [Sd->Control |= Flags]. *)
Definition clear_Control (m : mem) (Sd Flags : Z) : option mem :=
  c ← Control m Sd; set_Control m Sd (Z.land c (not32 Flags)).

Definition or_Control (m : mem) (Sd Flags : Z) : option mem :=
  c ← Control m Sd; set_Control m Sd (Z.lor c Flags).

(** What the four accessors share: the member is an offset from the descriptor,
    0 for none, in a self-relative descriptor, and a pointer in an absolute one. *)
Definition component (m : mem) (Descriptor o : Z) : option Z :=
  c ← Control m Descriptor;
  v ← field 4 m Descriptor o;
  if has c SE_SELF_RELATIVE then
    if v =? 0 then Some 0 else Some (u32 (Descriptor + v))
  else Some v.

Definition SepGetGroupFromDescriptor (m : mem) (Descriptor : Z) : option Z :=
  component m Descriptor Group_.

Definition SepGetOwnerFromDescriptor (m : mem) (Descriptor : Z) : option Z :=
  component m Descriptor Owner_.

Definition SepGetDaclFromDescriptor (m : mem) (Descriptor : Z) : option Z :=
  c ← Control m Descriptor;
  if negb (has c SE_DACL_PRESENT) then Some 0 else component m Descriptor Dacl_.

Definition SepGetSaclFromDescriptor (m : mem) (Descriptor : Z) : option Z :=
  c ← Control m Descriptor;
  if negb (has c SE_SACL_PRESENT) then Some 0 else component m Descriptor Sacl_.

(** ** Sizes *)

(** [ROUND_UP(RtlLengthSid(Sid), sizeof(ULONG))], 0 without a SID. *)
Definition sid_size (m : mem) (Sid : Z) : option Z :=
  if Sid =? 0 then Some 0 else
  s ← region m Sid; n ← RtlLengthSid s; Some (ROUND_UP n 4).

(** [ROUND_UP(Acl->AclSize, sizeof(ULONG))], 0 without an ACL. *)
Definition acl_size (m : mem) (Acl : Z) : option Z :=
  if Acl =? 0 then Some 0 else
  s ← region m Acl; n ← AclSize s; Some (ROUND_UP n 4).

Record query := Query {
  qOwner : Z; qOwnerSize : Z;
  qGroup : Z; qGroupSize : Z;
  qDacl : Z; qDaclSize : Z;
  qSacl : Z; qSaclSize : Z
}.

Definition RtlpQuerySecurityDescriptor (m : mem) (SecurityDescriptor : Z) : option query :=
  Owner ← SepGetOwnerFromDescriptor m SecurityDescriptor;
  OwnerSize ← sid_size m Owner;
  PrimaryGroup ← SepGetGroupFromDescriptor m SecurityDescriptor;
  PrimaryGroupSize ← sid_size m PrimaryGroup;
  Dacl ← SepGetDaclFromDescriptor m SecurityDescriptor;
  DaclSize ← acl_size m Dacl;
  Sacl ← SepGetSaclFromDescriptor m SecurityDescriptor;
  SaclSize ← acl_size m Sacl;
  Some (Query Owner OwnerSize PrimaryGroup PrimaryGroupSize Dacl DaclSize Sacl SaclSize).

Definition RtlLengthSecurityDescriptor (m : mem) (SecurityDescriptor : Z) : option Z :=
  c ← Control m SecurityDescriptor;
  let Length := if has c SE_SELF_RELATIVE then sizeof_SECURITY_DESCRIPTOR
                else sizeof_SECURITY_DESCRIPTOR in
  Owner ← SepGetOwnerFromDescriptor m SecurityDescriptor;
  OwnerSize ← sid_size m Owner;
  let Length := u32 (Length + OwnerSize) in
  Group ← SepGetGroupFromDescriptor m SecurityDescriptor;
  GroupSize ← sid_size m Group;
  let Length := u32 (Length + GroupSize) in
  Dacl ← SepGetDaclFromDescriptor m SecurityDescriptor;
  DaclSize ← acl_size m Dacl;
  let Length := u32 (Length + DaclSize) in
  Sacl ← SepGetSaclFromDescriptor m SecurityDescriptor;
  SaclSize ← acl_size m Sacl;
  Some (u32 (Length + SaclSize)).

(** ** Creation *)

Definition RtlCreateSecurityDescriptor (m : mem) (Sd Rev : Z) : option (Z * mem) :=
  if negb (Rev =? SECURITY_DESCRIPTOR_REVISION) then Some (STATUS_UNKNOWN_REVISION, m) else
  r ← region m Sd;
  m ← RtlZeroMemory m Sd sizeof_SECURITY_DESCRIPTOR;
  m ← set_field 1 m Sd 0 SECURITY_DESCRIPTOR_REVISION;
  Some (STATUS_SUCCESS, m).

Definition RtlCreateSecurityDescriptorRelative (m : mem) (Sd Rev : Z) : option (Z * mem) :=
  if negb (Rev =? SECURITY_DESCRIPTOR_REVISION) then Some (STATUS_UNKNOWN_REVISION, m) else
  r ← region m Sd;
  m ← RtlZeroMemory m Sd sizeof_SECURITY_DESCRIPTOR;
  m ← set_field 1 m Sd 0 SECURITY_DESCRIPTOR_REVISION;
  m ← set_Control m Sd SE_SELF_RELATIVE;
  Some (STATUS_SUCCESS, m).

(** ** Getters

    An output the code leaves unwritten is [None]. *)

Definition RtlGetDaclSecurityDescriptor (m : mem) (Sd : Z)
    : option (Z * option bool * option Z * option bool) :=
  r ← Revision m Sd;
  if negb (r =? SECURITY_DESCRIPTOR_REVISION) then Some (STATUS_UNKNOWN_REVISION, None, None, None) else
  c ← Control m Sd;
  let DaclPresent := Z.land c SE_DACL_PRESENT =? SE_DACL_PRESENT in
  if DaclPresent then
    Dacl ← SepGetDaclFromDescriptor m Sd;
    Some (STATUS_SUCCESS, Some true, Some Dacl, Some (Z.land c SE_DACL_DEFAULTED =? SE_DACL_DEFAULTED))
  else Some (STATUS_SUCCESS, Some false, None, None).

Definition RtlGetSaclSecurityDescriptor (m : mem) (Sd : Z)
    : option (Z * option bool * option Z * option bool) :=
  r ← Revision m Sd;
  if negb (r =? SECURITY_DESCRIPTOR_REVISION) then Some (STATUS_UNKNOWN_REVISION, None, None, None) else
  c ← Control m Sd;
  let SaclPresent := Z.land c SE_SACL_PRESENT =? SE_SACL_PRESENT in
  if SaclPresent then
    Sacl ← SepGetSaclFromDescriptor m Sd;
    Some (STATUS_SUCCESS, Some true, Some Sacl, Some (Z.land c SE_SACL_DEFAULTED =? SE_SACL_DEFAULTED))
  else Some (STATUS_SUCCESS, Some false, None, None).

Definition RtlGetOwnerSecurityDescriptor (m : mem) (Sd : Z) : option (Z * option Z * option bool) :=
  r ← Revision m Sd;
  if negb (r =? SECURITY_DESCRIPTOR_REVISION) then Some (STATUS_UNKNOWN_REVISION, None, None) else
  Owner ← SepGetOwnerFromDescriptor m Sd;
  c ← Control m Sd;
  Some (STATUS_SUCCESS, Some Owner, Some (Z.land c SE_OWNER_DEFAULTED =? SE_OWNER_DEFAULTED)).

Definition RtlGetGroupSecurityDescriptor (m : mem) (Sd : Z) : option (Z * option Z * option bool) :=
  r ← Revision m Sd;
  if negb (r =? SECURITY_DESCRIPTOR_REVISION) then Some (STATUS_UNKNOWN_REVISION, None, None) else
  Group ← SepGetGroupFromDescriptor m Sd;
  c ← Control m Sd;
  Some (STATUS_SUCCESS, Some Group, Some (Z.land c SE_GROUP_DEFAULTED =? SE_GROUP_DEFAULTED)).

Definition RtlGetControlSecurityDescriptor (m : mem) (Sd : Z) : option (Z * option Z * Z) :=
  r ← Revision m Sd;
  if negb (r =? SECURITY_DESCRIPTOR_REVISION) then Some (STATUS_UNKNOWN_REVISION, None, r) else
  c ← Control m Sd;
  Some (STATUS_SUCCESS, Some c, r).

Definition RtlGetSecurityDescriptorRMControl (m : mem) (Sd : Z) : option (bool * Z) :=
  c ← Control m Sd;
  if negb (has c SE_RM_CONTROL_VALID) then Some (false, 0) else
  s ← Sbz1 m Sd;
  Some (true, s).

(** ** Setters *)

(** The guard of the four setters: the revision is the known one and the
    descriptor is absolute. *)
Definition guarded (m : mem) (Sd : Z) (k : option (Z * mem)) : option (Z * mem) :=
  r ← Revision m Sd;
  if negb (r =? SECURITY_DESCRIPTOR_REVISION) then Some (STATUS_UNKNOWN_REVISION, m) else
  c ← Control m Sd;
  if has c SE_SELF_RELATIVE then Some (STATUS_INVALID_SECURITY_DESCR, m) else k.

(** [Sd->Control &= ~Flag; if (Defaulted) Sd->Control |= Flag]. *)
Definition set_defaulted (m : mem) (Sd Flag : Z) (Defaulted : bool) : option mem :=
  m ← clear_Control m Sd Flag;
  if Defaulted then or_Control m Sd Flag else Some m.

Definition RtlSetDaclSecurityDescriptor (m : mem) (Sd : Z) (DaclPresent : bool) (Dacl : Z)
    (DaclDefaulted : bool) : option (Z * mem) :=
  guarded m Sd (
    if negb DaclPresent then
      m ← clear_Control m Sd SE_DACL_PRESENT; Some (STATUS_SUCCESS, m)
    else
      m ← set_field 4 m Sd Dacl_ Dacl;
      m ← or_Control m Sd SE_DACL_PRESENT;
      m ← set_defaulted m Sd SE_DACL_DEFAULTED DaclDefaulted;
      Some (STATUS_SUCCESS, m)).

Definition RtlSetSaclSecurityDescriptor (m : mem) (Sd : Z) (SaclPresent : bool) (Sacl : Z)
    (SaclDefaulted : bool) : option (Z * mem) :=
  guarded m Sd (
    if negb SaclPresent then
      m ← clear_Control m Sd SE_SACL_PRESENT; Some (STATUS_SUCCESS, m)
    else
      m ← set_field 4 m Sd Sacl_ Sacl;
      m ← or_Control m Sd SE_SACL_PRESENT;
      m ← set_defaulted m Sd SE_SACL_DEFAULTED SaclDefaulted;
      Some (STATUS_SUCCESS, m)).

Definition RtlSetOwnerSecurityDescriptor (m : mem) (Sd Owner : Z) (OwnerDefaulted : bool)
    : option (Z * mem) :=
  guarded m Sd (
    m ← set_field 4 m Sd Owner_ Owner;
    m ← set_defaulted m Sd SE_OWNER_DEFAULTED OwnerDefaulted;
    Some (STATUS_SUCCESS, m)).

Definition RtlSetGroupSecurityDescriptor (m : mem) (Sd Group : Z) (GroupDefaulted : bool)
    : option (Z * mem) :=
  guarded m Sd (
    m ← set_field 4 m Sd Group_ Group;
    m ← set_defaulted m Sd SE_GROUP_DEFAULTED GroupDefaulted;
    Some (STATUS_SUCCESS, m)).

Definition settable_bits : Z :=
  Z.lor SE_DACL_UNTRUSTED (Z.lor SE_SERVER_SECURITY
    (Z.lor SE_DACL_AUTO_INHERIT_REQ (Z.lor SE_SACL_AUTO_INHERIT_REQ
      (Z.lor SE_DACL_AUTO_INHERITED (Z.lor SE_SACL_AUTO_INHERITED
        (Z.lor SE_DACL_PROTECTED SE_SACL_PROTECTED)))))).

Definition RtlSetControlSecurityDescriptor (m : mem) (Sd ControlBitsOfInterest ControlBitsToSet : Z)
    : option (Z * mem) :=
  if has ControlBitsOfInterest (not32 settable_bits)
     || has ControlBitsToSet (not32 ControlBitsOfInterest)
  then Some (STATUS_INVALID_PARAMETER, m) else
  m ← clear_Control m Sd ControlBitsOfInterest;
  m ← or_Control m Sd (Z.land ControlBitsToSet ControlBitsOfInterest);
  Some (STATUS_SUCCESS, m).

Definition RtlSetAttributesSecurityDescriptor (m : mem) (Sd Control : Z) : option (Z * Z * mem) :=
  r ← Revision m Sd;
  if negb (r =? SECURITY_DESCRIPTOR_REVISION) then Some (STATUS_UNKNOWN_REVISION, r, m) else
  let Control := Z.land Control settable_bits in
  '(s, m) ← RtlSetControlSecurityDescriptor m Sd Control Control;
  Some (s, r, m).

Definition RtlSetSecurityDescriptorRMControl (m : mem) (Sd : Z) (RMControl : option Z) : option mem :=
  match RMControl with
  | None => m ← clear_Control m Sd SE_RM_CONTROL_VALID; set_field 1 m Sd 1 0
  | Some b => m ← or_Control m Sd SE_RM_CONTROL_VALID; set_field 1 m Sd 1 b
  end.

(** ** Conversions *)

(** The heap is where [RtlAllocateHeap] returned [Destination], 0 for failure. *)
Definition RtlCopySecurityDescriptor (RtlAllocateHeap : Z -> Z) (m : mem) (Sd : Z)
    : option (Z * Z * mem) :=
  q ← RtlpQuerySecurityDescriptor m Sd;
  let TotalLength := u32 (sizeof_SECURITY_DESCRIPTOR + qOwnerSize q + qGroupSize q
                          + qDaclSize q + qSaclSize q) in
  let Destination := RtlAllocateHeap TotalLength in
  if Destination =? 0 then Some (STATUS_NO_MEMORY, 0, m) else
  m ← RtlMoveMemory m Destination Sd TotalLength;
  Some (STATUS_SUCCESS, Destination, m).

(** One of the four copies of [RtlMakeSelfRelativeSD]: the component goes to
    [Current] and its offset to the member at [o]. *)
Definition copy_component (m : mem) (RelSd o Current Src Length : Z) : option (mem * Z) :=
  if Length =? 0 then Some (m, Current) else
  m ← RtlMoveMemory m Current Src Length;
  m ← set_field 4 m RelSd o (u32 (Current - RelSd));
  Some (m, u32 (Current + Length)).

(** The result is the status, [*BufferLength] and the memory. *)
Definition RtlMakeSelfRelativeSD (m : mem) (SecurityDescriptor RelSd BufferLength : Z)
    : option (Z * Z * mem) :=
  q ← RtlpQuerySecurityDescriptor m SecurityDescriptor;
  let TotalLength := u32 (sizeof_SECURITY_DESCRIPTOR + qOwnerSize q + qGroupSize q
                          + qSaclSize q + qDaclSize q) in
  if BufferLength <? TotalLength then Some (STATUS_BUFFER_TOO_SMALL, TotalLength, m) else
  r ← region m RelSd;
  m ← RtlZeroMemory m RelSd TotalLength;
  m ← RtlMoveMemory m RelSd SecurityDescriptor Owner_;
  let Current := u32 (RelSd + sizeof_SECURITY_DESCRIPTOR) in
  '(m, Current) ← copy_component m RelSd Sacl_ Current (qSacl q) (qSaclSize q);
  '(m, Current) ← copy_component m RelSd Dacl_ Current (qDacl q) (qDaclSize q);
  '(m, Current) ← copy_component m RelSd Owner_ Current (qOwner q) (qOwnerSize q);
  '(m, Current) ← copy_component m RelSd Group_ Current (qGroup q) (qGroupSize q);
  m ← or_Control m RelSd SE_SELF_RELATIVE;
  Some (STATUS_SUCCESS, BufferLength, m).

Definition RtlAbsoluteToSelfRelativeSD (m : mem) (Sd RelSd BufferLength : Z)
    : option (Z * Z * mem) :=
  c ← Control m Sd;
  if has c SE_SELF_RELATIVE then Some (STATUS_BAD_DESCRIPTOR_FORMAT, BufferLength, m) else
  RtlMakeSelfRelativeSD m Sd RelSd BufferLength.

(** The five sizes [RtlSelfRelativeToAbsoluteSD] is given, and gives back when
    one of them is too small. *)
Record sizes := Sizes {
  AbsoluteSDSize : Z; DaclSize : Z; SaclSize : Z; OwnerSize : Z; PrimaryGroupSize : Z
}.

(** [RtlMoveMemory(Dst, Src, Length); Sd->member = Dst], for a component that is there. *)
Definition move_component (m : mem) (Sd o Dst Src : Z) (Length : mem -> option Z) : option mem :=
  if Src =? 0 then Some m else
  s ← region m Src;
  n ← Length s;
  if (Dst =? 0) && negb (n =? 0) then None else
  m ← RtlMoveMemory m Dst Src n;
  set_field 4 m Sd o Dst.

Definition RtlSelfRelativeToAbsoluteSD (m : mem) (RelSd Sd : Z) (n : sizes)
    (Dacl Sacl Owner PrimaryGroup : Z) : option (Z * sizes * mem) :=
  c ← Control m RelSd;
  if negb (has c SE_SELF_RELATIVE) then Some (STATUS_BAD_DESCRIPTOR_FORMAT, n, m) else
  q ← RtlpQuerySecurityDescriptor m RelSd;
  if (Sd =? 0) || (AbsoluteSDSize n <? sizeof_SECURITY_DESCRIPTOR)
     || (OwnerSize n <? qOwnerSize q) || (PrimaryGroupSize n <? qGroupSize q)
     || (DaclSize n <? qDaclSize q) || (SaclSize n <? qSaclSize q)
  then Some (STATUS_BUFFER_TOO_SMALL,
             Sizes sizeof_SECURITY_DESCRIPTOR (qDaclSize q) (qSaclSize q)
                   (qOwnerSize q) (qGroupSize q), m) else
  m ← RtlMoveMemory m Sd RelSd sizeof_SECURITY_DESCRIPTOR;
  m ← set_field 4 m Sd Owner_ 0;
  m ← set_field 4 m Sd Group_ 0;
  m ← set_field 4 m Sd Sacl_ 0;
  m ← set_field 4 m Sd Dacl_ 0;
  m ← clear_Control m Sd SE_SELF_RELATIVE;
  m ← move_component m Sd Owner_ Owner (qOwner q) RtlLengthSid;
  m ← move_component m Sd Group_ PrimaryGroup (qGroup q) RtlLengthSid;
  m ← move_component m Sd Dacl_ Dacl (qDacl q) AclSize;
  m ← move_component m Sd Sacl_ Sacl (qSacl q) AclSize;
  Some (STATUS_SUCCESS, n, m).

(** The in-place conversion, where the two structures have the same size
    ([MoveDelta] is 0); [BufferSize] is whether the pointer is given, it is
    not written. *)
Definition RtlSelfRelativeToAbsoluteSD2 (m : mem) (Sd : Z) (BufferSize : bool) : option (Z * mem) :=
  if Sd =? 0 then Some (STATUS_INVALID_PARAMETER_1, m) else
  if negb BufferSize then Some (STATUS_INVALID_PARAMETER_2, m) else
  c ← Control m Sd;
  if negb (has c SE_SELF_RELATIVE) then Some (STATUS_BAD_DESCRIPTOR_FORMAT, m) else
  q ← RtlpQuerySecurityDescriptor m Sd;
  m ← clear_Control m Sd SE_SELF_RELATIVE;
  m ← set_field 4 m Sd Owner_ (qOwner q);
  m ← set_field 4 m Sd Group_ (qGroup q);
  m ← set_field 4 m Sd Sacl_ (qSacl q);
  m ← set_field 4 m Sd Dacl_ (qDacl q);
  Some (STATUS_SUCCESS, m).

(** ** Validation *)

(** An access fault inside is caught: the answer is [FALSE]. *)
Definition RtlValidSecurityDescriptor (m : mem) (Sd : Z) : bool :=
  default false (
    r ← Revision m Sd;
    if negb (r =? SECURITY_DESCRIPTOR_REVISION) then Some false else
    Owner ← SepGetOwnerFromDescriptor m Sd;
    if negb (Owner =? 0) && negb (RtlValidSid (region m Owner)) then Some false else
    Group ← SepGetGroupFromDescriptor m Sd;
    if negb (Group =? 0) && negb (RtlValidSid (region m Group)) then Some false else
    Dacl ← SepGetDaclFromDescriptor m Sd;
    if negb (Dacl =? 0) && negb (RtlValidAcl (default [] (region m Dacl))) then Some false else
    Sacl ← SepGetSaclFromDescriptor m Sd;
    if negb (Sacl =? 0) && negb (RtlValidAcl (default [] (region m Sacl))) then Some false else
    Some true).

(** [None] is [FALSE], [Some MaxLength] is [TRUE]. *)
Definition RtlpValidateSDOffsetAndSize (Offset Length MinLength : Z) : option Z :=
  if Offset <? sizeof_SECURITY_DESCRIPTOR then None else
  if Length <=? Offset then None else
  if Length - Offset <? MinLength then None else
  if negb (ROUND_DOWN Offset 4 =? Offset) then None else
  Some (Length - Offset).

(** The test on a SID, and on an ACL, of [RtlValidRelativeSecurityDescriptor]. *)
Definition relative_sid (m : mem) (Sd Offset SecurityDescriptorLength : Z) : option bool :=
  match RtlpValidateSDOffsetAndSize Offset SecurityDescriptorLength sizeof_SID with
  | None => Some false
  | Some Length =>
      s ← region m (u32 (Offset + Sd));
      if negb (RtlValidSid (Some s)) then Some false else
      n ← RtlLengthSid s;
      Some (negb (Length <? n))
  end.

Definition relative_acl (m : mem) (Sd Offset SecurityDescriptorLength : Z) : option bool :=
  match RtlpValidateSDOffsetAndSize Offset SecurityDescriptorLength sizeof_ACL with
  | None => Some false
  | Some Length =>
      s ← region m (u32 (Offset + Sd));
      if negb (RtlValidAcl s) then Some false else
      n ← AclSize s;
      Some (negb (Length <? n))
  end.

Definition RtlValidRelativeSecurityDescriptor (m : mem) (Sd SecurityDescriptorLength
    RequiredInformation : Z) : option bool :=
  if SecurityDescriptorLength <? sizeof_SECURITY_DESCRIPTOR then Some false else
  r ← Revision m Sd;
  if negb (r =? SECURITY_DESCRIPTOR_REVISION) then Some false else
  c ← Control m Sd;
  if negb (has c SE_SELF_RELATIVE) then Some false else
  Owner ← field 4 m Sd Owner_;
  b ← (if negb (Owner =? 0) then relative_sid m Sd Owner SecurityDescriptorLength
       else Some (negb (has RequiredInformation OWNER_SECURITY_INFORMATION)));
  if negb (b : bool) then Some false else
  Group ← field 4 m Sd Group_;
  b ← (if negb (Group =? 0) then relative_sid m Sd Group SecurityDescriptorLength
       else Some (negb (has RequiredInformation GROUP_SECURITY_INFORMATION)));
  if negb (b : bool) then Some false else
  b ← (if Z.land c SE_DACL_PRESENT =? SE_DACL_PRESENT then
         Dacl ← field 4 m Sd Dacl_; relative_acl m Sd Dacl SecurityDescriptorLength
       else Some true);
  if negb (b : bool) then Some false else
  if Z.land c SE_SACL_PRESENT =? SE_SACL_PRESENT then
    Sacl ← field 4 m Sd Sacl_; relative_acl m Sd Sacl SecurityDescriptorLength
  else Some true.

(** * Specification

    The content of a descriptor, whatever its format: the header and the bytes
    of the components that are there. *)

Record content := Content {
  revision : Z; sbz1 : Z; control : Z;
  owner : option (list Z); group : option (list Z);
  sacl : option (list Z); dacl : option (list Z)
}.

(** Where the components are, 0 for one that is not there. *)
Record places := Places { at_owner : Z; at_group : Z; at_sacl : Z; at_dacl : Z }.

Definition sid_ok (s : list Z) : Prop :=
  RtlValidSid (Some s) = true /\ RtlLengthSid s = Some (Z.of_nat (length s)).

Definition acl_ok (a : list Z) : Prop :=
  AclSize a = Some (Z.of_nat (length a)) /\ Z.of_nat (length a) < 2 ^ 16.

Definition present (ok : list Z -> Prop) (m : mem) (q : Z) (o : option (list Z)) : Prop :=
  match o with
  | None => q = 0
  | Some b => 0 < q /\ rd_bytes m q (length b) = Some b /\ ok b
  end.

(** The memory at [p] holds a descriptor of content [d], components at [a]. *)
Record holds (m : mem) (p : Z) (d : content) (a : places) : Prop := {
  holds_ptr : 0 < p /\ p + sizeof_SECURITY_DESCRIPTOR <= Z.of_nat (length m);
  holds_revision : Revision m p = Some (revision d);
  holds_sbz1 : Sbz1 m p = Some (sbz1 d);
  holds_control : Control m p = Some (control d) /\ 0 <= control d < 2 ^ 16;
  holds_owner : SepGetOwnerFromDescriptor m p = Some (at_owner a) /\
                present sid_ok m (at_owner a) (owner d);
  holds_group : SepGetGroupFromDescriptor m p = Some (at_group a) /\
                present sid_ok m (at_group a) (group d);
  holds_sacl : SepGetSaclFromDescriptor m p = Some (at_sacl a) /\
               present acl_ok m (at_sacl a) (sacl d);
  holds_dacl : SepGetDaclFromDescriptor m p = Some (at_dacl a) /\
               present acl_ok m (at_dacl a) (dacl d)
}.

Definition with_control (d : content) (c : Z) : content :=
  Content (revision d) (sbz1 d) c (owner d) (group d) (sacl d) (dacl d).

(** The room a component takes in a self-relative descriptor. *)
Definition size (o : option (list Z)) : Z :=
  match o with None => 0 | Some b => ROUND_UP (Z.of_nat (length b)) 4 end.

Definition total (d : content) : Z :=
  sizeof_SECURITY_DESCRIPTOR + size (owner d) + size (group d) + size (sacl d) + size (dacl d).

Definition place (o : option (list Z)) (x : Z) : Z :=
  match o with None => 0 | Some _ => x end.

(** The layout [RtlMakeSelfRelativeSD] gives: SACL, DACL, owner, group. *)
Definition relative_places (p : Z) (d : content) : places :=
  let s := p + sizeof_SECURITY_DESCRIPTOR in
  let c := s + size (sacl d) in
  let o := c + size (dacl d) in
  let g := o + size (owner d) in
  Places (place (owner d) o) (place (group d) g) (place (sacl d) s) (place (dacl d) c).

(** A component at [q] can be read, padding included, and lies outside of the
    [n] bytes at [lo]. *)
Definition outside (m : mem) (lo n q : Z) (o : option (list Z)) : Prop :=
  match o with
  | None => True
  | Some _ => q + size o <= Z.of_nat (length m) /\ (q + size o <= lo \/ lo + n <= q)
  end.

Definition all_outside (m : mem) (lo n : Z) (d : content) (a : places) : Prop :=
  outside m lo n (at_owner a) (owner d) /\ outside m lo n (at_group a) (group d) /\
  outside m lo n (at_sacl a) (sacl d) /\ outside m lo n (at_dacl a) (dacl d).

(** * Components *)

Ltac offsets := unfold Owner_, Group_, Sacl_, Dacl_, sizeof_SECURITY_DESCRIPTOR in *.
Ltac ranges_tac :=
  offsets; repeat (apply Forall_cons_2 || apply Forall_nil_2); cbn; lia.
Ltac apart_tac := unfold apart; ranges_tac.

Lemma sid_ok_app s t :
  sid_ok s -> RtlValidSid (Some (s ++ t)) = true /\ RtlLengthSid (s ++ t) = Some (Z.of_nat (length s)).
Proof.
  unfold sid_ok, RtlValidSid, RtlLengthSid. intros [Hv Hl].
  destruct (get8 s 0) as [r|] eqn:E0; [|done]. rewrite (get_app_l _ _ t _ _ E0).
  destruct (get8 s 1) as [c|] eqn:E1; [|done]. by rewrite (get_app_l _ _ t _ _ E1).
Qed.

Lemma get_some_in n m p v : get n m p = Some v -> 0 <= p /\ p + Z.of_nat n <= Z.of_nat (length m).
Proof.
  unfold get. destruct (rd_bytes m p n) as [bs|] eqn:E; [|done]. intros _.
  apply rd_bytes_some in E as (m1 & m2 & -> & -> & ->). rewrite !length_app. lia.
Qed.

Lemma sid_ok_length s :
  sid_ok s -> 4 <= Z.of_nat (length s) < 2 ^ 16 /\ Z.of_nat (length s) mod 4 = 0.
Proof.
  unfold sid_ok, RtlValidSid, RtlLengthSid. intros [Hv Hl].
  destruct (get8 s 0) as [r|]; [|done]. destruct (get8 s 1) as [c|] eqn:E1; [|done].
  cbn in Hv, Hl. injection Hl as Hl. apply get_some_in in E1.
  destruct (negb _) in Hv; [done|]. cbn in Hv.
  destruct (Z.ltb_spec SID_MAX_SUB_AUTHORITIES c) as [|Hc] in Hv; [done|].
  unfold SID_MAX_SUB_AUTHORITIES in Hc. rewrite <- Hl. split; [lia|].
  replace (8 + 4 * c) with ((2 + c) * 4) by lia. apply Z.mod_mul. lia.
Qed.

Lemma acl_ok_length a : acl_ok a -> 4 <= Z.of_nat (length a) < 2 ^ 16.
Proof. intros [E H]. apply get_some_in in E. lia. Qed.

Lemma acl_ok_app a t : acl_ok a -> AclSize (a ++ t) = Some (Z.of_nat (length a)).
Proof. intros [E _]. by apply get_app_l. Qed.

(** What the lemmas on a component ask of its well-formedness. *)
Class Sized (ok : list Z -> Prop) : Prop :=
  sized b : ok b -> 4 <= Z.of_nat (length b) < 2 ^ 16.

#[export] Instance sid_sized : Sized sid_ok.
Proof. intros b H. exact (proj1 (sid_ok_length b H)). Qed.

#[export] Instance acl_sized : Sized acl_ok.
Proof. exact acl_ok_length. Qed.

Lemma size_some b :
  4 <= Z.of_nat (length b) < 2 ^ 16 ->
  Z.of_nat (length b) <= size (Some b) < Z.of_nat (length b) + 4 /\ size (Some b) mod 4 = 0.
Proof.
  intros Hb. cbn [size]. change 4 with (2 ^ 2).
  destruct (round_up_pow2 (Z.of_nat (length b)) 2); lia.
Qed.

Lemma size_range ok `{!Sized ok} m q o : present ok m q o -> 0 <= size o <= 2 ^ 16.
Proof.
  destruct o as [b|]; cbn [present]; [|cbn; lia]. intros (_ & _ & Hb%sized).
  pose proof (size_some b Hb) as [Hs Hm]. change (2 ^ 16) with (16384 * 4) in *.
  Z.div_mod_to_equations. lia.
Qed.

Lemma sid_size_exact s : sid_ok s -> size (Some s) = Z.of_nat (length s).
Proof.
  intros [Hl H4]%sid_ok_length. pose proof (size_some s Hl) as [Hs Hm].
  Z.div_mod_to_equations. lia.
Qed.

Lemma region_read m q n bs :
  0 < q -> rd_bytes m q n = Some bs -> exists t, region m q = Some (bs ++ t).
Proof.
  intros Hq [t E]%rd_bytes_drop. exists t. unfold region. rewrite E. by case_cmp.
Qed.

Lemma sid_size_present m q o : present sid_ok m q o -> sid_size m q = Some (size o).
Proof.
  destruct o as [s|]; cbn [present]; [|by intros ->]. intros (Hq & Hr & Hs). unfold sid_size.
  destruct (region_read m q _ s Hq Hr) as [t ->]. rewrite (proj2 (Z.eqb_neq _ _)) by lia.
  cbn [mbind option_bind]. by rewrite (proj2 (sid_ok_app s t Hs)).
Qed.

Lemma acl_size_present m q o : present acl_ok m q o -> acl_size m q = Some (size o).
Proof.
  destruct o as [s|]; cbn [present]; [|by intros ->]. intros (Hq & Hr & Hs). unfold acl_size.
  destruct (region_read m q _ s Hq Hr) as [t ->]. rewrite (proj2 (Z.eqb_neq _ _)) by lia.
  cbn [mbind option_bind]. by rewrite (acl_ok_app s t Hs).
Qed.

Lemma present_keeps ok m m' ranges q o :
  keeps ranges m m' -> (forall b, o = Some b -> apart q (length b) ranges) ->
  present ok m q o -> present ok m' q o.
Proof.
  intros [_ K] A. destruct o as [b|]; [|done]. cbn. intros (Hq & Hr & Hb).
  split_and!; [done| |done]. rewrite K; [done|]. by apply A.
Qed.

Lemma query_holds m p d a :
  holds m p d a ->
  RtlpQuerySecurityDescriptor m p =
    Some (Query (at_owner a) (size (owner d)) (at_group a) (size (group d))
                (at_dacl a) (size (dacl d)) (at_sacl a) (size (sacl d))).
Proof.
  intros [_ _ _ _ [Eo Po] [Eg Pg] [Es Ps] [Ed Pd]]. unfold RtlpQuerySecurityDescriptor.
  rewrite Eo. cbn [mbind option_bind]. rewrite (sid_size_present _ _ _ Po). cbn [mbind option_bind].
  rewrite Eg. cbn [mbind option_bind]. rewrite (sid_size_present _ _ _ Pg). cbn [mbind option_bind].
  rewrite Ed. cbn [mbind option_bind]. rewrite (acl_size_present _ _ _ Pd). cbn [mbind option_bind].
  rewrite Es. cbn [mbind option_bind]. by rewrite (acl_size_present _ _ _ Ps).
Qed.

Lemma total_bounds m p d a : holds m p d a -> 20 <= total d < 2 ^ 19.
Proof.
  intros [_ _ _ _ [_ Po] [_ Pg] [_ Ps] [_ Pd]]. unfold total, sizeof_SECURITY_DESCRIPTOR.
  apply size_range in Po, Pg, Ps, Pd; try apply _. lia.
Qed.

(** * Building the self-relative form *)

Lemma field_get n m p o : 0 < p -> field n m p o = get n m (p + o).
Proof. intros Hp. unfold field. by rewrite (proj2 (Z.eqb_neq _ _)) by lia. Qed.

Lemma set_field_ok n m p o v :
  0 < p -> 0 <= o -> p + o + Z.of_nat n <= Z.of_nat (length m) -> 0 <= v < 256 ^ Z.of_nat n ->
  exists m', set_field n m p o v = Some m' /\ keeps [(p + o, Z.of_nat n)] m m' /\
             field n m' p o = Some v.
Proof.
  intros Hp Ho Hl Hv. unfold set_field. rewrite (proj2 (Z.eqb_neq _ _)) by lia.
  destruct (set_in n m (p + o) v) as [m' E]; [lia..|]. exists m'. split; [done|].
  destruct (set_keeps _ _ _ _ _ E) as [K G]. split; [done|].
  by rewrite field_get, G, Z.mod_small by lia.
Qed.

Lemma move_ok m dst src n bs :
  0 <= dst -> dst + n <= Z.of_nat (length m) -> 0 <= n -> rd_bytes m src (Z.to_nat n) = Some bs ->
  exists m', RtlMoveMemory m dst src n = Some m' /\ keeps [(dst, n)] m m' /\
             rd_bytes m' dst (Z.to_nat n) = Some bs.
Proof.
  intros Hd Hl Hn Hr. unfold RtlMoveMemory. rewrite Hr. cbn [mbind option_bind].
  assert (Hb : Z.of_nat (length bs) = n) by (apply rd_bytes_some in Hr as (? & ? & _ & _ & ?); lia).
  destruct (wr_bytes_in m dst bs) as (m' & E & _); [lia..|]. exists m'. split; [done|].
  apply wr_keeps in E as [K R]. rewrite Hb in K. split; [done|]. by rewrite <- Hb, Nat2Z.id.
Qed.

Lemma copy_component_ok ok `{!Sized ok} m Rel off Cur Src o :
  0 < Rel -> 0 <= off <= 16 -> Rel + 20 <= Cur ->
  Cur + size o <= Z.of_nat (length m) -> Z.of_nat (length m) < 2 ^ 32 ->
  present ok m Src o -> (forall b, o = Some b -> Src + size o <= Z.of_nat (length m)) ->
  field 4 m Rel off = Some 0 ->
  exists m', copy_component m Rel off Cur Src (size o) = Some (m', Cur + size o) /\
    keeps [(Cur, size o); (Rel + off, 4)] m m' /\
    field 4 m' Rel off = Some (place o (Cur - Rel)) /\ present ok m' (place o Cur) o.
Proof.
  intros HR Hoff HC Hend Hlen HP Hsrc Hz. unfold copy_component. destruct o as [b|].
  2: { exists m. cbn. rewrite Z.add_0_r. split_and!; [done|apply keeps_refl|done|done]. }
  cbn [present] in HP. destruct HP as (Hs & Hr & Hb). specialize (Hsrc b eq_refl).
  pose proof (size_some b (sized b Hb)) as [Hsz _]. pose proof (sized b Hb) as Hlb.
  rewrite (proj2 (Z.eqb_neq _ _)) by lia.
  destruct (rd_bytes_in m Src (Z.to_nat (size (Some b)))) as (bs & Ebs & Lbs); [lia..|].
  destruct (move_ok m Cur Src (size (Some b)) bs) as (m1 & -> & K1 & R1); [lia..|done|].
  cbn [mbind option_bind]. pose proof (proj1 K1) as L1.
  rewrite (u32_small (Cur - Rel)) by lia.
  destruct (set_field_ok 4 m1 Rel off (Cur - Rel)) as (m2 & -> & K2 & F2); [lia..|].
  cbn [mbind option_bind]. rewrite u32_small by lia. exists m2.
  split_and!; [done|exact (keeps_trans _ _ _ _ _ K1 K2)|done|].
  cbn [place present]. split_and!; [lia| |done].
  rewrite (proj2 K2) by apart_tac. rewrite (rd_bytes_take _ _ _ (length b) _ R1) by lia.
  rewrite <- Hr. symmetry. apply rd_bytes_take with (n := Z.to_nat (size (Some b))); [done|lia].
Qed.

(** [RtlZeroMemory] and the copy of the header. *)
Lemma start_relative m p Rel n :
  0 < p -> 0 < Rel -> 20 <= n -> Rel + n <= Z.of_nat (length m) ->
  p + 20 <= Z.of_nat (length m) -> p + 20 <= Rel \/ Rel + n <= p ->
  exists m1 m2, RtlZeroMemory m Rel n = Some m1 /\ RtlMoveMemory m1 Rel p Owner_ = Some m2 /\
    keeps [(Rel, n)] m m2 /\
    (forall off, 4 <= off <= 16 -> field 4 m2 Rel off = Some 0) /\
    Revision m2 Rel = Revision m p /\ Sbz1 m2 Rel = Sbz1 m p /\ Control m2 Rel = Control m p.
Proof.
  intros Hp HR Hn Hl Hpl Hdis. unfold RtlZeroMemory.
  destruct (wr_bytes_in m Rel (replicate (Z.to_nat n) 0)) as (m1 & E1 & _);
    rewrite ?length_replicate; [lia..|].
  exists m1. apply wr_keeps in E1 as HH. destruct HH as [K1 R1]. rewrite length_replicate in *.
  rewrite Z2Nat.id in K1 by lia. pose proof (proj1 K1) as L1.
  destruct (rd_bytes_in m p 4) as (h & Eh & Lh); [lia..|].
  assert (Eh1 : rd_bytes m1 p (Z.to_nat Owner_) = Some h) by (rewrite (proj2 K1) by apart_tac; done).
  destruct (move_ok m1 Rel p Owner_ h) as (m2 & E2 & K2 & R2); unfold Owner_ in *; [lia..|done|].
  exists m2. split_and!; [done|done| | | | |].
  - apply (keeps_within _ _ _ _ _ (keeps_trans _ _ _ _ _ K1 K2)). ranges_tac.
  - intros off Hoff. rewrite field_get by lia.
    rewrite (keeps_get _ _ _ _ _ K2) by apart_tac. unfold get.
    apply rd_bytes_some in R1 as (x & y & -> & -> & _).
    rewrite (rd_bytes_slice x _ y _ (Z.to_nat off) 4) by (rewrite ?length_replicate; lia).
    rewrite drop_replicate, take_replicate, Nat.min_l by lia. done.
  - unfold Revision. rewrite !field_get by lia. unfold get. rewrite !Z.add_0_r.
    by rewrite (rd_bytes_take _ _ _ 1 _ R2), (rd_bytes_take _ _ _ 1 _ Eh) by lia.
  - unfold Sbz1. rewrite !field_get by lia. unfold get.
    by rewrite (rd_bytes_sub _ _ _ _ 1 1 R2), (rd_bytes_sub _ _ _ _ 1 1 Eh) by lia.
  - unfold Control. rewrite !field_get by lia. unfold get.
    by rewrite (rd_bytes_sub _ _ _ _ 2 2 R2), (rd_bytes_sub _ _ _ _ 2 2 Eh) by lia.
Qed.

(** A component laid out at [Cur], with its offset in the member at [off]. *)
Definition laid (ok : list Z -> Prop) (m : mem) (Rel off Cur : Z) (o : option (list Z)) : Prop :=
  field 4 m Rel off = Some (place o (Cur - Rel)) /\ present ok m (place o Cur) o.

Lemma field_keeps ranges m m' n p off :
  keeps ranges m m' -> 0 < p -> apart (p + off) n ranges -> field n m' p off = field n m p off.
Proof. intros K Hp A. rewrite !field_get by done. by apply (keeps_get ranges). Qed.

Lemma laid_keeps ok `{!Sized ok} ranges m m' Rel off Cur o :
  keeps ranges m m' -> 0 < Rel -> apart (Rel + off) 4 ranges ->
  Forall (fun r => Cur + size o <= r.1 \/ r.1 + r.2 <= Cur) ranges ->
  laid ok m Rel off Cur o -> laid ok m' Rel off Cur o.
Proof.
  intros K HR A1 A2 [F P]. split; [by rewrite (field_keeps ranges m)|].
  apply (present_keeps ok m m' ranges); [done| |done]. intros b ->. cbn [place].
  cbn [place present] in P. destruct P as (_ & _ & Hb).
  pose proof (size_some b (sized b Hb)) as [Hs _].
  revert A2. apply Forall_impl. intros [x y]. cbn [fst snd]. lia.
Qed.

(** A source component is still there after writes to the new descriptor. *)
Lemma outside_keeps ok `{!Sized ok} m m' lo n q o :
  keeps [(lo, n)] m m' -> outside m lo n q o -> present ok m q o ->
  present ok m' q o /\ (forall b, o = Some b -> q + size o <= Z.of_nat (length m')).
Proof.
  intros K Ho P. rewrite (proj1 K). split; [|by intros b ->; apply Ho].
  apply (present_keeps ok m m' _ _ _ K); [|done]. intros b ->. destruct P as (_ & _ & Hb).
  pose proof (size_some b (sized b Hb)) as [Hs _]. destruct Ho as [_ Ho]. apart_tac.
Qed.

Lemma keeps_more ranges m m1 m2 lo n :
  keeps [(lo, n)] m m1 -> keeps ranges m1 m2 ->
  Forall (fun r => lo <= r.1 /\ r.1 + r.2 <= lo + n) ranges -> keeps [(lo, n)] m m2.
Proof.
  intros K1 K2 Hr. apply (keeps_within _ _ _ _ _ (keeps_trans _ _ _ _ _ K1 K2)).
  apply Forall_cons_2; [cbn; lia|done].
Qed.

Section copies.
  Context (m m2 : mem) (p Rel : Z) (d : content) (a : places).
  Context (Hh : holds m p d a) (HR : 0 < Rel) (Hroom : Rel + total d <= Z.of_nat (length m))
          (Hlen : Z.of_nat (length m) < 2 ^ 32) (Hout : all_outside m Rel (total d) d a)
          (K2 : keeps [(Rel, total d)] m m2)
          (Hzero : forall off, 4 <= off <= 16 -> field 4 m2 Rel off = Some 0).

Let s := Rel + 20.
Let c := s + size (sacl d).
Let o := c + size (dacl d).
Let g := o + size (owner d).

Lemma copies_ok :
  exists m3 m4 m5 m6,
    copy_component m2 Rel Sacl_ s (at_sacl a) (size (sacl d)) = Some (m3, c) /\
    copy_component m3 Rel Dacl_ c (at_dacl a) (size (dacl d)) = Some (m4, o) /\
    copy_component m4 Rel Owner_ o (at_owner a) (size (owner d)) = Some (m5, g) /\
    copy_component m5 Rel Group_ g (at_group a) (size (group d)) = Some (m6, Rel + total d) /\
    keeps [(Rel, total d)] m m6 /\ keeps [(Rel + 4, total d - 4)] m2 m6 /\
    laid acl_ok m6 Rel Sacl_ s (sacl d) /\ laid acl_ok m6 Rel Dacl_ c (dacl d) /\
    laid sid_ok m6 Rel Owner_ o (owner d) /\ laid sid_ok m6 Rel Group_ g (group d).
Proof.
  destruct Hh as [_ _ _ _ [_ Po] [_ Pg] [_ Ps] [_ Pd]]. destruct Hout as (Oo & Og & Os & Od).
  pose proof (size_range _ _ _ _ Po). pose proof (size_range _ _ _ _ Pg).
  pose proof (size_range _ _ _ _ Ps). pose proof (size_range _ _ _ _ Pd).
  pose proof (proj1 K2) as L2. unfold total in *. offsets. subst s c o g.
  destruct (outside_keeps _ _ _ _ _ _ _ K2 Os Ps) as [Ps2 Rs].
  destruct (copy_component_ok acl_ok m2 Rel 12 (Rel + 20) (at_sacl a) (sacl d))
    as (m3 & E3 & K3 & S3); [lia..|done|done|by apply Hzero; lia|].
  pose proof (keeps_more _ _ _ _ _ _ K2 K3 ltac:(ranges_tac)) as K03. pose proof (proj1 K03) as L3.
  destruct (outside_keeps _ _ _ _ _ _ _ K03 Od Pd) as [Pd3 Rd].
  destruct (copy_component_ok acl_ok m3 Rel 16 (Rel + 20 + size (sacl d)) (at_dacl a) (dacl d))
    as (m4 & E4 & K4 & S4); [lia..|done|done| |].
  { rewrite (field_keeps _ _ _ _ _ _ K3) by (done || apart_tac). apply Hzero; lia. }
  pose proof (keeps_more _ _ _ _ _ _ K03 K4 ltac:(ranges_tac)) as K04. pose proof (proj1 K04) as L4.
  destruct (outside_keeps _ _ _ _ _ _ _ K04 Oo Po) as [Po4 Ro].
  destruct (copy_component_ok sid_ok m4 Rel 4 (Rel + 20 + size (sacl d) + size (dacl d))
              (at_owner a) (owner d)) as (m5 & E5 & K5 & S5); [lia..|done|done| |].
  { rewrite (field_keeps _ _ _ _ _ _ K4), (field_keeps _ _ _ _ _ _ K3) by (done || apart_tac).
    apply Hzero; lia. }
  pose proof (keeps_more _ _ _ _ _ _ K04 K5 ltac:(ranges_tac)) as K05. pose proof (proj1 K05) as L5.
  destruct (outside_keeps _ _ _ _ _ _ _ K05 Og Pg) as [Pg5 Rg].
  destruct (copy_component_ok sid_ok m5 Rel 8
              (Rel + 20 + size (sacl d) + size (dacl d) + size (owner d))
              (at_group a) (group d)) as (m6 & E6 & K6 & S6); [lia..|done|done| |].
  { rewrite (field_keeps _ _ _ _ _ _ K5), (field_keeps _ _ _ _ _ _ K4),
      (field_keeps _ _ _ _ _ _ K3) by (done || apart_tac). apply Hzero; lia. }
  exists m3, m4, m5, m6. split_and!; [done|done|done| | | | | | |exact S6].
  - rewrite E6. do 2 f_equal. lia.
  - apply (keeps_more _ _ _ _ _ _ K05 K6). ranges_tac.
  - apply (keeps_within _ _ _ _ _ (keeps_trans _ _ _ _ _ (keeps_trans _ _ _ _ _
      (keeps_trans _ _ _ _ _ K3 K4) K5) K6)). ranges_tac.
  - apply (laid_keeps _ _ _ _ _ _ _ _ K6); [done|apart_tac|ranges_tac|].
    apply (laid_keeps _ _ _ _ _ _ _ _ K5); [done|apart_tac|ranges_tac|].
    apply (laid_keeps _ _ _ _ _ _ _ _ K4); [done|apart_tac|ranges_tac|exact S3].
  - apply (laid_keeps _ _ _ _ _ _ _ _ K6); [done|apart_tac|ranges_tac|].
    apply (laid_keeps _ _ _ _ _ _ _ _ K5); [done|apart_tac|ranges_tac|exact S4].
  - apply (laid_keeps _ _ _ _ _ _ _ _ K6); [done|apart_tac|ranges_tac|exact S5].
Qed.
End copies.

Lemma has_lor x y mask : has (Z.lor x y) mask = has x mask || has y mask.
Proof.
  unfold has. rewrite Z.land_lor_distr_l.
  destruct (Z.eqb_spec (Z.land x mask) 0) as [->|Hx]; [by rewrite Z.lor_0_l|].
  rewrite (proj2 (Z.eqb_neq _ _)); [done|]. by intros [? _]%Z.lor_eq_0_iff.
Qed.

Lemma or_Control_ok m p c f :
  0 < p -> p + 20 <= Z.of_nat (length m) -> Control m p = Some c -> 0 <= c < 2 ^ 16 -> 0 <= f < 2 ^ 16 ->
  exists m', or_Control m p f = Some m' /\ keeps [(p + 2, 2)] m m' /\ Control m' p = Some (Z.lor c f).
Proof.
  intros Hp Hl Ec Hc Hf. unfold or_Control. rewrite Ec. cbn [mbind option_bind].
  apply (set_field_ok 2); [lia..|]. by apply (lor_range 16).
Qed.

Lemma ldiff_range x y n : 0 <= n -> 0 <= x < 2 ^ n -> 0 <= Z.ldiff x y < 2 ^ n.
Proof.
  intros Hn Hx. rewrite <- (Z.mod_small x (2 ^ n)) by lia. rewrite <- Z.land_ones by lia.
  assert (Hb : forall z, 0 <= Z.land z (Z.ones n) < 2 ^ n).
  { intros z. rewrite Z.land_ones by lia. apply Z.mod_pos_bound. lia. }
  replace (Z.ldiff (Z.land x (Z.ones n)) y) with (Z.land (Z.ldiff x y) (Z.ones n)); [apply Hb|].
  apply Z.bits_inj'. intros i Hi. rewrite !Z.land_spec, !Z.ldiff_spec, Z.land_spec.
  destruct (Z.testbit x i), (Z.testbit y i), (Z.testbit (Z.ones n) i); done.
Qed.

Lemma clear_Control_ok m p c f :
  0 < p -> p + 20 <= Z.of_nat (length m) -> Control m p = Some c -> 0 <= c < 2 ^ 16 -> 0 <= f < 2 ^ 16 ->
  exists m', clear_Control m p f = Some m' /\ keeps [(p + 2, 2)] m m' /\
             Control m' p = Some (Z.ldiff c f).
Proof.
  intros Hp Hl Ec Hc Hf. unfold clear_Control. rewrite Ec. cbn [mbind option_bind].
  rewrite land_not32 by lia. apply (set_field_ok 2); [lia..|]. by apply (ldiff_range c f 16).
Qed.

(** A component that is laid out is what the accessor of a self-relative
    descriptor finds. *)
Lemma component_laid ok m Rel off Cur o c :
  laid ok m Rel off Cur o -> Control m Rel = Some c -> has c SE_SELF_RELATIVE = true ->
  0 < Rel < Cur -> Cur < 2 ^ 32 -> component m Rel off = Some (place o Cur).
Proof.
  intros [F _] Ec Hrel HC Hlt. unfold component. rewrite Ec, F. cbn [mbind option_bind].
  rewrite Hrel. destruct o as [b|]; cbn [place]; [|done].
  rewrite (proj2 (Z.eqb_neq _ _)) by lia. do 2 f_equal.
  rewrite u32_small; lia.
Qed.

(** Without the flag there is no ACL. *)
Lemma dacl_flag m p d a : holds m p d a -> has (control d) SE_DACL_PRESENT = false -> dacl d = None.
Proof.
  intros [_ _ _ [Ec _] _ _ _ [Ed Pd]] Hf. unfold SepGetDaclFromDescriptor in Ed.
  rewrite Ec in Ed. cbn [mbind option_bind] in Ed. rewrite Hf in Ed. injection Ed as Ed.
  destruct (dacl d); [|done]. cbn in Pd. lia.
Qed.

Lemma sacl_flag m p d a : holds m p d a -> has (control d) SE_SACL_PRESENT = false -> sacl d = None.
Proof.
  intros [_ _ _ [Ec _] _ _ [Ed Pd] _] Hf. unfold SepGetSaclFromDescriptor in Ed.
  rewrite Ec in Ed. cbn [mbind option_bind] in Ed. rewrite Hf in Ed. injection Ed as Ed.
  destruct (sacl d); [|done]. cbn in Pd. lia.
Qed.

(** The memory at [p] holds the descriptor [d] laid out as [RtlMakeSelfRelativeSD] does. *)
Record relative (m : mem) (p : Z) (d : content) : Prop := {
  rel_ptr : 0 < p /\ p + total d <= Z.of_nat (length m) /\ Z.of_nat (length m) < 2 ^ 32;
  rel_revision : Revision m p = Some (revision d);
  rel_sbz1 : Sbz1 m p = Some (sbz1 d);
  rel_control : Control m p = Some (control d) /\ 0 <= control d < 2 ^ 16;
  rel_flag : has (control d) SE_SELF_RELATIVE = true;
  rel_dacl : has (control d) SE_DACL_PRESENT = false -> dacl d = None;
  rel_sacl : has (control d) SE_SACL_PRESENT = false -> sacl d = None;
  rel_laid :
    laid acl_ok m p Sacl_ (p + 20) (sacl d) /\
    laid acl_ok m p Dacl_ (p + 20 + size (sacl d)) (dacl d) /\
    laid sid_ok m p Owner_ (p + 20 + size (sacl d) + size (dacl d)) (owner d) /\
    laid sid_ok m p Group_ (p + 20 + size (sacl d) + size (dacl d) + size (owner d)) (group d)
}.

Lemma laid_size ok `{!Sized ok} m Rel off Cur o : laid ok m Rel off Cur o -> 0 <= size o <= 2 ^ 16.
Proof. intros [_ P]. by apply size_range in P. Qed.

(** Where there is a component, there are bytes for it. *)
Lemma component_at ok `{!Sized ok} m Rel off Cur o c :
  laid ok m Rel off Cur o -> Control m Rel = Some c -> has c SE_SELF_RELATIVE = true ->
  0 < Rel < Cur -> Cur + size o <= Z.of_nat (length m) -> Z.of_nat (length m) < 2 ^ 32 ->
  component m Rel off = Some (place o Cur).
Proof.
  intros L Ec Hr HC He Hl. pose proof (laid_size _ _ _ _ _ _ L).
  eapply component_laid; [done..|lia].
Qed.

Lemma relative_holds m p d : relative m p d -> holds m p d (relative_places p d).
Proof.
  intros [(Hp & Hroom & Hlen) Er Es [Ec Hc] Hf Hd Hs (Ls & Ld & Lo & Lg)].
  pose proof (laid_size _ _ _ _ _ _ Ls). pose proof (laid_size _ _ _ _ _ _ Ld).
  pose proof (laid_size _ _ _ _ _ _ Lo). pose proof (laid_size _ _ _ _ _ _ Lg).
  unfold total in Hroom. offsets.
  pose proof (fun H => component_at _ _ _ _ _ _ _ Ls Ec Hf H) as Cs.
  pose proof (fun H => component_at _ _ _ _ _ _ _ Ld Ec Hf H) as Cd.
  pose proof (fun H => component_at _ _ _ _ _ _ _ Lo Ec Hf H) as Co.
  pose proof (fun H => component_at _ _ _ _ _ _ _ Lg Ec Hf H) as Cg.
  split; [offsets; lia|done|done|done| | | |]; cbn [relative_places at_owner at_group at_sacl at_dacl];
    (split; [|by apply Ls || by apply Ld || by apply Lo || by apply Lg]).
  - apply Co; lia.
  - apply Cg; lia.
  - unfold SepGetSaclFromDescriptor. rewrite Ec. cbn [mbind option_bind].
    destruct (has (control d) SE_SACL_PRESENT) eqn:E; cbn [negb]; [apply Cs; lia|].
    by rewrite (Hs eq_refl).
  - unfold SepGetDaclFromDescriptor. rewrite Ec. cbn [mbind option_bind].
    destruct (has (control d) SE_DACL_PRESENT) eqn:E; cbn [negb]; [apply Cd; lia|].
    by rewrite (Hd eq_refl).
Qed.

Lemma laid_relative m m' p off Cur o ok `{!Sized ok} :
  keeps [(p + 2, 2)] m m' -> 0 < p -> 4 <= off -> p + 20 <= Cur ->
  laid ok m p off Cur o -> laid ok m' p off Cur o.
Proof.
  intros K Hp Ho HC L. apply (laid_keeps _ _ _ _ _ _ _ _ K); [done|apart_tac|ranges_tac|done].
Qed.

Lemma make_success m p d a Rel n :
  holds m p d a -> 0 < Rel -> Rel + total d <= Z.of_nat (length m) -> Z.of_nat (length m) < 2 ^ 32 ->
  p + 20 <= Rel \/ Rel + total d <= p -> all_outside m Rel (total d) d a -> total d <= n ->
  exists m', RtlMakeSelfRelativeSD m p Rel n = Some (STATUS_SUCCESS, n, m') /\
    keeps [(Rel, total d)] m m' /\ relative m' Rel (with_control d (Z.lor (control d) SE_SELF_RELATIVE)).
Proof.
  intros Hh HR Hroom Hlen Hdis Hout Hn. pose proof (total_bounds _ _ _ _ Hh) as Ht.
  unfold RtlMakeSelfRelativeSD. rewrite (query_holds _ _ _ _ Hh). cbn -[Z.add u32 Z.ltb].
  change (sizeof_SECURITY_DESCRIPTOR + size (owner d) + size (group d) + size (sacl d) + size (dacl d))
    with (total d). rewrite (u32_small (total d)), (proj2 (Z.ltb_ge _ _)) by lia.
  pose proof Hh as [[Hp Hpl] Er Es [Ec Hc] _ _ _ _]. offsets.
  destruct (start_relative m p Rel (total d)) as (m1 & m2 & E1 & E2 & K2 & Hz & H2r & H2s & H2c); [lia..|]. offsets.
  unfold region. rewrite (proj2 (Z.eqb_neq Rel 0)) by lia. cbn [mbind option_bind].
  rewrite E1. cbn [mbind option_bind]. rewrite E2. cbn [mbind option_bind].
  rewrite (u32_small (Rel + 20)) by lia.
  destruct (copies_ok m m2 p Rel d a Hh HR Hroom Hlen Hout K2 Hz)
    as (m3 & m4 & m5 & m6 & E3 & E4 & E5 & E6 & K6 & K26 & Ls & Ld & Lo & Lg). offsets.
  rewrite E3. cbn [mbind option_bind]. rewrite E4. cbn [mbind option_bind].
  rewrite E5. cbn [mbind option_bind]. rewrite E6. cbn [mbind option_bind].
  pose proof (proj1 K6) as L6.
  destruct (or_Control_ok m6 Rel (control d) SE_SELF_RELATIVE) as (m7 & -> & K7 & E7);
    [lia|lia| |done|unfold SE_SELF_RELATIVE; lia|].
  { unfold Control in *. rewrite (field_keeps _ _ _ _ _ _ K26); [congruence|done|apart_tac]. }
  cbn [mbind option_bind]. exists m7. split; [done|].
  split; [apply (keeps_more _ _ _ _ _ _ K6 K7); ranges_tac|].
  pose proof (laid_size _ _ _ _ _ _ Ls). pose proof (laid_size _ _ _ _ _ _ Ld).
  pose proof (laid_size _ _ _ _ _ _ Lo). split; cbn.
  - rewrite (proj1 K7), L6. done.
  - unfold Revision in *.
    rewrite (field_keeps _ _ _ _ _ _ K7), (field_keeps _ _ _ _ _ _ K26); (done || apart_tac || congruence).
  - unfold Sbz1 in *.
    rewrite (field_keeps _ _ _ _ _ _ K7), (field_keeps _ _ _ _ _ _ K26); (done || apart_tac || congruence).
  - split; [done|]. by apply (lor_range 16).
  - rewrite has_lor. by rewrite orb_true_r.
  - rewrite has_lor. intros [? _]%orb_false_iff. by eapply dacl_flag.
  - rewrite has_lor. intros [? _]%orb_false_iff. by eapply sacl_flag.
  - split_and!; apply (laid_relative m6 m7 _ _ _ _ _ K7); done || (offsets; lia).
Qed.

(** * Validation of what was built *)

(** Bytes after the memory do not change the answers of a validation that
    did not read past its end: [read_more t] goes over a read, [guard_more] over
    a test that ends the validation. *)
Ltac read_more t :=
  match goal with
  | _ : context [get ?n ?s ?p] |- _ =>
      let E := fresh "E" in destruct (get n s p) eqn:E; [|done];
      rewrite (get_app_l _ _ t _ _ E); cbn [mbind option_bind] in *
  end.

Ltac guard_more :=
  match goal with
  | |- context [if ?b then Some false else _] => destruct b; [done|]
  end.

Lemma length_sid_drop m t q v :
  get8 m q = Some v -> RtlLengthSid (drop (Z.to_nat q) (m ++ t)) = RtlLengthSid (drop (Z.to_nat q) m ++ t).
Proof. intros [? ?]%get_some_in. by rewrite drop_app_le by lia. Qed.

Lemma length_sid_app s t v : RtlLengthSid s = Some v -> RtlLengthSid (s ++ t) = Some v.
Proof. unfold RtlLengthSid. intros H. by read_more t. Qed.

Lemma valid_known_ace_app m t Ace sz b :
  valid_known_ace m Ace sz = Some b -> valid_known_ace (m ++ t) Ace sz = Some b.
Proof.
  unfold valid_known_ace. intros H. do 2 guard_more.
  read_more t. guard_more. read_more t. guard_more. rewrite (length_sid_drop _ _ _ _ E).
  destruct (RtlLengthSid (drop (Z.to_nat (Ace + 8)) m)) eqn:E2; [|done].
  by rewrite (length_sid_app _ _ _ E2).
Qed.

Lemma valid_object_ace_app m t rev Ace sz b :
  valid_object_ace m rev Ace sz = Some b -> valid_object_ace (m ++ t) rev Ace sz = Some b.
Proof.
  unfold valid_object_ace. intros H. do 3 guard_more. read_more t.
  set (q := Ace + 12 + _) in *.
  read_more t. guard_more. read_more t. guard_more. rewrite (length_sid_drop _ _ _ _ E0).
  destruct (RtlLengthSid (drop (Z.to_nat q) m)) eqn:E2; [|done].
  by rewrite (length_sid_app _ _ _ E2).
Qed.

Lemma valid_ace_app m t rev sz Ace b :
  valid_ace m rev sz Ace = Some b -> valid_ace (m ++ t) rev sz Ace = Some b.
Proof.
  unfold valid_ace, AceSize, AceType. intros H. guard_more.
  read_more t. do 2 guard_more. read_more t.
  destruct (_ <=? _); [by apply valid_known_ace_app|].
  destruct (_ || _); [by apply valid_object_ace_app|done].
Qed.

Lemma valid_aces_app m t rev sz n : forall Ace b,
  valid_aces m rev sz n Ace = Some b -> valid_aces (m ++ t) rev sz n Ace = Some b.
Proof.
  induction n as [|n IH]; intros Ace b; [done|]. cbn [valid_aces].
  destruct (valid_ace m rev sz Ace) as [ok|] eqn:E; [|done]. rewrite (valid_ace_app _ t _ _ _ _ E).
  cbn [mbind option_bind]. destruct ok; [|done]. cbn [negb]. unfold AceSize.
  destruct (get16 m (Ace + 2)) eqn:E1; [|done]. rewrite (get_app_l _ _ t _ _ E1). apply IH.
Qed.

Lemma valid_acl_app m t : RtlValidAcl m = true -> RtlValidAcl (m ++ t) = true.
Proof.
  unfold RtlValidAcl, AclRevision, AclSize, AceCount. intros H.
  read_more t. guard_more. read_more t. do 2 guard_more. read_more t.
  destruct (valid_aces m _ _ _ _) as [b|] eqn:E3; [|done]. by rewrite (valid_aces_app _ t _ _ _ _ _ E3).
Qed.

Lemma land_flag x k : 0 <= k -> (Z.land x (2 ^ k) =? 2 ^ k) = has x (2 ^ k).
Proof.
  intros Hk. unfold has. assert (0 < 2 ^ k) by (apply Z.pow_pos_nonneg; lia).
  assert (E : Z.land x (2 ^ k) = 0 \/ Z.land x (2 ^ k) = 2 ^ k).
  { destruct (Z.testbit x k) eqn:B; [right|left]; apply Z.bits_inj'; intros i Hi;
      rewrite Z.land_spec, ?Z.bits_0; rewrite Z.pow2_bits_eqb by lia;
      destruct (Z.eqb_spec k i) as [->|]; rewrite ?B, ?andb_false_r; done. }
  destruct E as [-> | ->]; case_cmp.
Qed.

Lemma validate_offset Offset Length MinLength :
  RtlpValidateSDOffsetAndSize Offset Length MinLength =
  (if (20 <=? Offset) && (Offset <? Length) && (MinLength <=? Length - Offset) && (ROUND_DOWN Offset 4 =? Offset)
   then Some (Length - Offset) else None).
Proof. unfold RtlpValidateSDOffsetAndSize, sizeof_SECURITY_DESCRIPTOR. case_cmp. Qed.

Lemma validate_offset_ok Offset Length MinLength :
  20 <= Offset -> 0 < MinLength -> Offset + MinLength <= Length -> Length < 2 ^ 32 -> Offset mod 4 = 0 ->
  RtlpValidateSDOffsetAndSize Offset Length MinLength = Some (Length - Offset).
Proof.
  intros. rewrite validate_offset. change 4 with (2 ^ 2). rewrite round_down_fixed by lia. case_cmp.
Qed.

Section accepts.
  Context (m : mem) (p n : Z) (Hp : 0 < p) (Hend : p + n <= Z.of_nat (length m))
          (Hlen : Z.of_nat (length m) < 2 ^ 32).

Lemma relative_sid_ok off Cur s :
  laid sid_ok m p off Cur (Some s) -> sizeof_SID <= Z.of_nat (length s) -> p + 20 <= Cur ->
  (Cur - p) mod 4 = 0 -> Cur + size (Some s) <= p + n -> relative_sid m p (Cur - p) n = Some true.
Proof.
  intros [_ (Hq & Hr & Hs)] H12 HC H4 He. cbn [place] in *. unfold sizeof_SID in *.
  pose proof (size_some s (sized s Hs)) as [Hsz _]. unfold relative_sid, sizeof_SID.
  rewrite validate_offset_ok by lia. replace (Cur - p + p) with Cur by lia.
  rewrite u32_small by lia. destruct (region_read m Cur _ s Hq Hr) as [t ->].
  cbn [mbind option_bind]. destruct (sid_ok_app s t Hs) as [-> ->]. cbn [negb mbind option_bind].
  by rewrite (proj2 (Z.ltb_ge _ _)) by lia.
Qed.

Lemma relative_acl_ok off Cur a :
  laid acl_ok m p off Cur (Some a) -> RtlValidAcl a = true -> p + 20 <= Cur ->
  (Cur - p) mod 4 = 0 -> Cur + size (Some a) <= p + n -> relative_acl m p (Cur - p) n = Some true.
Proof.
  intros [_ (Hq & Hr & Hs)] Hv HC H4 He. cbn [place] in *.
  pose proof (size_some a (sized a Hs)) as [Hsz _]. unfold relative_acl, sizeof_ACL.
  assert (H8 : 8 <= Z.of_nat (length a)).
  { revert Hv. unfold RtlValidAcl. rewrite (proj1 Hs). destruct (AclRevision a); [|done].
    cbn [mbind option_bind]. guard_more. guard_more. unfold sizeof_ACL.
    destruct (Z.ltb_spec (Z.of_nat (length a)) 8); [done|lia]. }
  rewrite validate_offset_ok by lia. replace (Cur - p + p) with Cur by lia.
  rewrite u32_small by lia. destruct (region_read m Cur _ a Hq Hr) as [t ->].
  cbn [mbind option_bind]. rewrite (valid_acl_app a t Hv), (acl_ok_app a t Hs). cbn [negb mbind option_bind].
  by rewrite (proj2 (Z.ltb_ge _ _)) by lia.
Qed.
End accepts.

(** The known revision, SIDs of at least one subauthority and ACLs [RtlValidAcl] accepts. *)
Definition valid_parts (d : content) : Prop :=
  revision d = SECURITY_DESCRIPTOR_REVISION /\
  (forall s, owner d = Some s \/ group d = Some s -> sizeof_SID <= Z.of_nat (length s)) /\
  (forall x, sacl d = Some x \/ dacl d = Some x -> RtlValidAcl x = true).

Definition there (o : option (list Z)) : bool := bool_decide (is_Some o).

(** The required components are there, and an ACL is there whenever the
    control word says that one is present. *)
Definition acceptable (info : Z) (d : content) : bool :=
  (there (owner d) || negb (has info OWNER_SECURITY_INFORMATION)) &&
  (there (group d) || negb (has info GROUP_SECURITY_INFORMATION)) &&
  (there (dacl d) || negb (has (control d) SE_DACL_PRESENT)) &&
  (there (sacl d) || negb (has (control d) SE_SACL_PRESENT)).

Lemma size_mod4 ok `{!Sized ok} m q o : present ok m q o -> size o mod 4 = 0.
Proof. destruct o as [b|]; [|done]. intros (_ & _ & Hb). by apply size_some, sized. Qed.

Lemma laid_mod4 ok `{!Sized ok} m p off Cur o :
  laid ok m p off Cur o -> (Cur - p) mod 4 = 0 -> (Cur + size o - p) mod 4 = 0.
Proof.
  intros [_ P] H. apply size_mod4 in P; [|done]. replace (Cur + size o - p) with (Cur - p + size o) by lia.
  by rewrite Z.add_mod, H, P.
Qed.

Lemma sid_test m p n off Cur o (req : bool) :
  laid sid_ok m p off Cur o -> (forall s, o = Some s -> sizeof_SID <= Z.of_nat (length s)) ->
  0 < p -> p + n <= Z.of_nat (length m) -> Z.of_nat (length m) < 2 ^ 32 ->
  p + 20 <= Cur -> (Cur - p) mod 4 = 0 -> Cur + size o <= p + n ->
  (v ← field 4 m p off; if negb (v =? 0) then relative_sid m p v n else Some (negb req))
  = Some (there o || negb req).
Proof.
  intros L H12 Hp Hend Hlen HC H4 He. rewrite (proj1 L). cbn [mbind option_bind]. destruct o as [s|]; cbn [place].
  - rewrite (proj2 (Z.eqb_neq _ _)) by lia. cbn [negb]. eapply relative_sid_ok; eauto.
  - done.
Qed.

Lemma acl_test m p n off Cur o (flag : bool) :
  laid acl_ok m p off Cur o -> (forall x, o = Some x -> RtlValidAcl x = true) ->
  (flag = false -> o = None) ->
  0 < p -> p + n <= Z.of_nat (length m) -> Z.of_nat (length m) < 2 ^ 32 ->
  p + 20 <= Cur -> (Cur - p) mod 4 = 0 -> Cur + size o <= p + n ->
  (if flag then v ← field 4 m p off; relative_acl m p v n else Some true)
  = Some (there o || negb flag).
Proof.
  intros L Hv Hf Hp Hend Hlen HC H4 He. destruct flag; [|by rewrite Hf].
  rewrite (proj1 L). cbn [mbind option_bind]. destruct o as [a|]; cbn [place]; [|done].
  eapply relative_acl_ok; eauto.
Qed.

Lemma bind_if {A B} (x : option A) (f : A -> option bool) (b : bool) (k : bool -> option B) :
  (v ← x; f v) = Some b -> (v ← x; c ← f v; k c) = k b.
Proof. destruct x as [v|]; [|done]. cbn. by intros ->. Qed.

Lemma relative_accepted m p d info :
  relative m p d -> valid_parts d ->
  RtlValidRelativeSecurityDescriptor m p (total d) info = Some (acceptable info d).
Proof.
  intros [(Hp & Hroom & Hlen) Er Es [Ec Hc] Hf Hd Hs (Ls & Ld & Lo & Lg)] (Hrev & Hsid & Hacl).
  pose proof (laid_size _ _ _ _ _ _ Ls). pose proof (laid_size _ _ _ _ _ _ Ld).
  pose proof (laid_size _ _ _ _ _ _ Lo). pose proof (laid_size _ _ _ _ _ _ Lg).
  assert (M0 : (p + 20 - p) mod 4 = 0) by by replace (p + 20 - p) with 20 by lia.
  pose proof (laid_mod4 _ _ _ _ _ _ Ls M0) as M1. pose proof (laid_mod4 _ _ _ _ _ _ Ld M1) as M2.
  pose proof (laid_mod4 _ _ _ _ _ _ Lo M2) as M3.
  unfold RtlValidRelativeSecurityDescriptor, acceptable.
  rewrite (proj2 (Z.ltb_ge _ _)) by (unfold total; offsets; lia).
  rewrite Er, Hrev. cbn [mbind option_bind negb Z.eqb]. rewrite Ec. cbn [mbind option_bind].
  rewrite Hf. cbn [negb]. unfold total in *. offsets.
  rewrite (bind_if _ _ _ _ (sid_test m p _ 4 _ _ (has info OWNER_SECURITY_INFORMATION) Lo
    ltac:(eauto) Hp Hroom Hlen ltac:(lia) M2 ltac:(lia))).
  destruct (_ || _); cbn [negb andb]; [|done].
  rewrite (bind_if _ _ _ _ (sid_test m p _ 8 _ _ (has info GROUP_SECURITY_INFORMATION) Lg
    ltac:(eauto) Hp Hroom Hlen ltac:(lia) M3 ltac:(lia))).
  destruct (_ || _); cbn [negb andb]; [|done].
  rewrite (land_flag _ 2 ltac:(lia) : (Z.land (control d) SE_DACL_PRESENT =? SE_DACL_PRESENT) = has (control d) SE_DACL_PRESENT).
  rewrite (land_flag _ 4 ltac:(lia) : (Z.land (control d) SE_SACL_PRESENT =? SE_SACL_PRESENT) = has (control d) SE_SACL_PRESENT).
  rewrite (acl_test m p _ 16 _ _ (has (control d) SE_DACL_PRESENT) Ld
    ltac:(eauto) Hd Hp Hroom Hlen ltac:(lia) M1 ltac:(lia)).
  cbn [mbind option_bind]. destruct (_ || _); cbn [negb andb]; [|done].
  apply (acl_test m p _ 12 _ _ (has (control d) SE_SACL_PRESENT) Ls);
    eauto; lia.
Qed.

(** * The header of a descriptor *)

Record hdr := Hdr {
  h_revision : Z; h_sbz1 : Z; h_control : Z;
  h_owner : Z; h_group : Z; h_sacl : Z; h_dacl : Z
}.

Record header (m : mem) (p : Z) (h : hdr) : Prop := {
  header_ptr : 0 < p /\ p + 20 <= Z.of_nat (length m);
  header_revision : Revision m p = Some (h_revision h);
  header_sbz1 : Sbz1 m p = Some (h_sbz1 h);
  header_control : Control m p = Some (h_control h) /\ 0 <= h_control h < 2 ^ 16;
  header_owner : field 4 m p Owner_ = Some (h_owner h);
  header_group : field 4 m p Group_ = Some (h_group h);
  header_sacl : field 4 m p Sacl_ = Some (h_sacl h);
  header_dacl : field 4 m p Dacl_ = Some (h_dacl h)
}.

(** [f] succeeds, writing only the header, which becomes [h]. *)
Definition updates (f : option mem) (m : mem) (p : Z) (h : hdr) : Prop :=
  exists m', f = Some m' /\ keeps [(p, 20)] m m' /\ header m' p h.

(** The members a write did not touch. *)
Ltac untouched K :=
  unfold Revision, Sbz1, Control, set_Control in *; offsets;
  rewrite (field_keeps _ _ _ _ _ _ K) by (done || apart_tac).

Ltac update_header :=
  intros [[Hp Hl] Er Es [Ec Hc] Eo Eg Ea Ed] Hv;
  match goal with
  | |- updates (set_field ?n ?m ?p ?o ?v) _ _ _ =>
      destruct (set_field_ok n m p o v) as (m' & E & K & F); [offsets; lia..|];
      exists m'; split; [exact E|]; split;
      [apply (keeps_within _ _ _ _ _ K); ranges_tac|];
      split; cbn [h_revision h_sbz1 h_control h_owner h_group h_sacl h_dacl];
      [rewrite (proj1 K); lia|..];
      first [exact F | split; [exact F|lia] | split; [untouched K; done|done] | untouched K; done | done]
  end.

Section header.
  Context (m : mem) (p : Z).
  Context (r s c o g sa da : Z).

Let h := Hdr r s c o g sa da.

Lemma update_owner v :
  header m p h -> 0 <= v < 2 ^ 32 -> updates (set_field 4 m p Owner_ v) m p (Hdr r s c v g sa da).
Proof. update_header. Qed.

Lemma update_group v :
  header m p h -> 0 <= v < 2 ^ 32 -> updates (set_field 4 m p Group_ v) m p (Hdr r s c o v sa da).
Proof. update_header. Qed.

Lemma update_sacl v :
  header m p h -> 0 <= v < 2 ^ 32 -> updates (set_field 4 m p Sacl_ v) m p (Hdr r s c o g v da).
Proof. update_header. Qed.

Lemma update_dacl v :
  header m p h -> 0 <= v < 2 ^ 32 -> updates (set_field 4 m p Dacl_ v) m p (Hdr r s c o g sa v).
Proof. update_header. Qed.

Lemma update_control v :
  header m p h -> 0 <= v < 2 ^ 16 -> updates (set_Control m p v) m p (Hdr r s v o g sa da).
Proof. unfold set_Control. update_header. Qed.

Lemma update_sbz1 v :
  header m p h -> 0 <= v < 2 ^ 8 -> updates (set_field 1 m p 1 v) m p (Hdr r v c o g sa da).
Proof. update_header. Qed.

Lemma update_or f :
  header m p h -> 0 <= f < 2 ^ 16 -> updates (or_Control m p f) m p (Hdr r s (Z.lor c f) o g sa da).
Proof.
  intros Hh Hf. destruct Hh as [Hp Er Es [Ec Hc] Eo Eg Ea Ed] eqn:E. unfold or_Control.
  rewrite Ec. cbn [mbind option_bind]. apply update_control; [done|]. by apply (lor_range 16).
Qed.

Lemma update_clear f :
  header m p h -> 0 <= f < 2 ^ 16 -> updates (clear_Control m p f) m p (Hdr r s (Z.ldiff c f) o g sa da).
Proof.
  intros Hh Hf. destruct Hh as [Hp Er Es [Ec Hc] Eo Eg Ea Ed] eqn:E. unfold clear_Control.
  rewrite Ec. cbn [mbind option_bind h h_control] in *. rewrite land_not32 by lia.
  apply update_control; [done|]. by apply (ldiff_range _ _ 16).
Qed.
End header.

(** A step of a function that goes on after an update. *)
Lemma updates_bind {A} (f : option mem) m p h (k : mem -> option A) (Q : option A -> Prop) :
  updates f m p h ->
  (forall m', keeps [(p, 20)] m m' -> header m' p h -> Q (k m')) -> Q (m' ← f; k m').
Proof. intros (m' & -> & K & H) HQ. by apply HQ. Qed.

Lemma updates_trans m m1 p f h : keeps [(p, 20)] m m1 -> updates f m1 p h -> updates f m p h.
Proof.
  intros K (m' & E & K' & H). exists m'. split_and!; [done| |done].
  apply (keeps_more _ _ _ _ _ _ K K'). ranges_tac.
Qed.

Lemma update_defaulted m p r s c o g sa da f b :
  header m p (Hdr r s c o g sa da) -> 0 <= f < 2 ^ 16 ->
  updates (set_defaulted m p f b) m p (Hdr r s (if b then Z.lor c f else Z.ldiff c f) o g sa da).
Proof.
  intros Hh Hf. unfold set_defaulted. destruct (update_clear _ _ _ _ _ _ _ _ _ f Hh Hf) as (m1 & -> & K & H1).
  cbn [mbind option_bind]. destruct b; [|by exists m1].
  apply (updates_trans _ m1); [done|].
  replace (Z.lor c f) with (Z.lor (Z.ldiff c f) f); [by apply update_or|].
  apply Z.bits_inj'. intros i Hi. rewrite !Z.lor_spec, Z.ldiff_spec.
  destruct (Z.testbit c i), (Z.testbit f i); done.
Qed.

(** An absolute descriptor, from its header. *)
Lemma absolute_holds m p h d :
  header m p h -> has (h_control h) SE_SELF_RELATIVE = false ->
  revision d = h_revision h -> sbz1 d = h_sbz1 h -> control d = h_control h ->
  let flagged f x := if has (h_control h) f then x else 0 in
  present sid_ok m (h_owner h) (owner d) -> present sid_ok m (h_group h) (group d) ->
  present acl_ok m (flagged SE_SACL_PRESENT (h_sacl h)) (sacl d) ->
  present acl_ok m (flagged SE_DACL_PRESENT (h_dacl h)) (dacl d) ->
  holds m p d (Places (h_owner h) (h_group h) (flagged SE_SACL_PRESENT (h_sacl h))
                      (flagged SE_DACL_PRESENT (h_dacl h))).
Proof.
  intros [Hp Er Es [Ec Hc] Eo Eg Ea Ed] Hf R S C flagged Po Pg Ps Pd.
  assert (Hcomp : forall off v, field 4 m p off = Some v -> component m p off = Some v).
  { intros off v Hv. unfold component. rewrite Ec, Hv. cbn [mbind option_bind]. by rewrite Hf. }
  split; rewrite ?R, ?S, ?C; [done..| | | |]; (split; [|done]); cbn.
  - by apply Hcomp.
  - by apply Hcomp.
  - unfold SepGetSaclFromDescriptor, flagged. rewrite Ec. cbn [mbind option_bind].
    destruct (has (h_control h) SE_SACL_PRESENT); [by apply Hcomp|done].
  - unfold SepGetDaclFromDescriptor, flagged. rewrite Ec. cbn [mbind option_bind].
    destruct (has (h_control h) SE_DACL_PRESENT); [by apply Hcomp|done].
Qed.

(** The header of any descriptor. *)
Lemma holds_header m p d a : holds m p d a -> exists o g sa da,
  header m p (Hdr (revision d) (sbz1 d) (control d) o g sa da).
Proof.
  intros [[Hp Hl] Er Es Ec _ _ _ _]. offsets.
  destruct (get_in 4 m (p + 4)) as [o Eo]; [lia..|]. destruct (get_in 4 m (p + 8)) as [g Eg]; [lia..|].
  destruct (get_in 4 m (p + 12)) as [sa Es']; [lia..|]. destruct (get_in 4 m (p + 16)) as [da Ed]; [lia..|].
  exists o, g, sa, da. split; cbn; offsets; rewrite ?field_get by done; done.
Qed.

Lemma has_ldiff c f : 0 <= f -> has (Z.ldiff c f) f = false.
Proof.
  intros Hf. unfold has. rewrite negb_false_iff. apply Z.eqb_eq, Z.bits_inj'. intros i Hi.
  rewrite Z.land_spec, Z.ldiff_spec, Z.bits_0. by destruct (Z.testbit c i), (Z.testbit f i).
Qed.

Lemma has_ldiff_other c f g : Z.land f g = 0 -> has (Z.ldiff c f) g = has c g.
Proof.
  intros H. unfold has. do 2 f_equal. apply Z.bits_inj'. intros i Hi.
  apply (f_equal (fun z => Z.testbit z i)) in H. rewrite Z.land_spec, Z.bits_0 in H.
  rewrite !Z.land_spec, Z.ldiff_spec. by destruct (Z.testbit c i), (Z.testbit f i), (Z.testbit g i).
Qed.

Lemma has_lor_other c f g : Z.land f g = 0 -> has (Z.lor c f) g = has c g.
Proof. intros H. rewrite has_lor. unfold has at 2. rewrite H. by rewrite orb_false_r. Qed.

Lemma present_range ok m q o : present ok m q o -> Z.of_nat (length m) < 2 ^ 32 -> 0 <= q < 2 ^ 32.
Proof.
  destruct o as [b|]; [|cbn; lia]. intros (Hq & Hr & _) Hl.
  apply rd_bytes_some in Hr as (m1 & m2 & -> & -> & _). rewrite !length_app in Hl. lia.
Qed.

(** The conversion in place of a descriptor whose components are after the header. *)
Lemma to_absolute2_ok m p d a :
  holds m p d a -> has (control d) SE_SELF_RELATIVE = true -> Z.of_nat (length m) < 2 ^ 32 ->
  all_outside m p 20 d a ->
  exists m', RtlSelfRelativeToAbsoluteSD2 m p true = Some (STATUS_SUCCESS, m') /\
    keeps [(p, 20)] m m' /\ holds m' p (with_control d (Z.ldiff (control d) SE_SELF_RELATIVE)) a.
Proof.
  intros Hh Hf Hlen (Oo & Og & Os & Od). unfold RtlSelfRelativeToAbsoluteSD2.
  destruct (holds_header _ _ _ _ Hh) as (o & g & sa & da & H0).
  pose proof Hh as [[Hp _] _ _ [Ec Hc] [_ Po] [_ Pg] [_ Ps] [_ Pd]].
  rewrite (proj2 (Z.eqb_neq _ _)) by lia. cbn [negb]. rewrite Ec. cbn [mbind option_bind]. rewrite Hf. cbn [negb].
  rewrite (query_holds _ _ _ _ Hh). cbn [mbind option_bind qOwner qGroup qDacl qSacl].
  pose proof (present_range _ _ _ _ Po Hlen) as Ro. pose proof (present_range _ _ _ _ Pg Hlen) as Rg.
  pose proof (present_range _ _ _ _ Ps Hlen) as Rs. pose proof (present_range _ _ _ _ Pd Hlen) as Rd.
  destruct (update_clear _ _ _ _ _ _ _ _ _ SE_SELF_RELATIVE H0) as (m1 & -> & K1 & H1); [done|].
  cbn [mbind option_bind].
  destruct (updates_trans _ _ _ _ _ K1 (update_owner _ _ _ _ _ _ _ _ _ (at_owner a) H1 ltac:(done)))
    as (m2 & -> & K2 & H2). cbn [mbind option_bind].
  destruct (updates_trans _ _ _ _ _ K2 (update_group _ _ _ _ _ _ _ _ _ (at_group a) H2 ltac:(done)))
    as (m3 & -> & K3 & H3). cbn [mbind option_bind].
  destruct (updates_trans _ _ _ _ _ K3 (update_sacl _ _ _ _ _ _ _ _ _ (at_sacl a) H3 ltac:(done)))
    as (m4 & -> & K4 & H4). cbn [mbind option_bind].
  destruct (updates_trans _ _ _ _ _ K4 (update_dacl _ _ _ _ _ _ _ _ _ (at_dacl a) H4 ltac:(done)))
    as (m5 & -> & K5 & H5). cbn [mbind option_bind].
  exists m5. split_and!; [done|done|].
  apply (outside_keeps _ _ _ _ _ _ _ K5 Oo) in Po as [Po _]. apply (outside_keeps _ _ _ _ _ _ _ K5 Og) in Pg as [Pg _].
  apply (outside_keeps _ _ _ _ _ _ _ K5 Os) in Ps as [Ps _]. apply (outside_keeps _ _ _ _ _ _ _ K5 Od) in Pd as [Pd _].
  set (h := Hdr _ _ _ _ _ _ _) in H5.
  assert (Es : (if has (h_control h) SE_SACL_PRESENT then h_sacl h else 0) = at_sacl a).
  { cbn. rewrite has_ldiff_other by done. destruct (has (control d) SE_SACL_PRESENT) eqn:E; [done|].
    rewrite (sacl_flag _ _ _ _ Hh E) in Ps. done. }
  assert (Ed : (if has (h_control h) SE_DACL_PRESENT then h_dacl h else 0) = at_dacl a).
  { cbn. rewrite has_ldiff_other by done. destruct (has (control d) SE_DACL_PRESENT) eqn:E; [done|].
    rewrite (dacl_flag _ _ _ _ Hh E) in Pd. done. }
  pose proof (absolute_holds m5 p h (with_control d (Z.ldiff (control d) SE_SELF_RELATIVE)) H5
    ltac:(by apply has_ldiff) eq_refl eq_refl eq_refl) as HH.
  cbv zeta beta in HH. rewrite Es, Ed in HH. specialize (HH Po Pg Ps Pd). by destruct a.
Qed.

(** * What validation establishes *)

Lemma get_prefix n s t p :
  0 <= p -> p + Z.of_nat n <= Z.of_nat (length s) -> get n (s ++ t) p = get n s p.
Proof. intros Hp Hn. destruct (get_in n s p Hp Hn) as [v E]. rewrite E. by apply get_app_l. Qed.

Lemma sid_ok_prefix s t :
  RtlValidSid (Some (s ++ t)) = true -> RtlLengthSid (s ++ t) = Some (Z.of_nat (length s)) ->
  2 <= Z.of_nat (length s) -> sid_ok s.
Proof.
  unfold sid_ok, RtlValidSid, RtlLengthSid. intros Hv Hl H2. by rewrite !get_prefix in * by lia.
Qed.

Lemma acl_ok_prefix a t :
  AclSize (a ++ t) = Some (Z.of_nat (length a)) -> 4 <= Z.of_nat (length a) < 2 ^ 16 -> acl_ok a.
Proof. unfold acl_ok, AclSize. intros Hl H4. rewrite get_prefix in Hl by lia. split; [done|lia]. Qed.

Section sound.
  Context (m : mem) (p n : Z) (Hm : bytes_ok m) (Hp : 0 < p)
          (Hend : p + n <= Z.of_nat (length m)) (Hlen : Z.of_nat (length m) < 2 ^ 32).

(** A component inside the descriptor's buffer, after its header. *)
Definition inside (q : Z) (o : option (list Z)) : Prop :=
  match o with
  | None => True
  | Some b => p + 20 <= q /\ q + Z.of_nat (length b) <= p + n
  end.

Lemma validate_offset_some Offset MinLength Length :
  RtlpValidateSDOffsetAndSize Offset n MinLength = Some Length ->
  20 <= Offset < n /\ Offset + MinLength <= n /\ Length = n - Offset.
Proof. rewrite validate_offset. case_cmp; intros; simplify_eq; lia. Qed.

Lemma region_at Offset :
  20 <= Offset < n -> u32 (Offset + p) = u32 (p + Offset) /\ u32 (p + Offset) = p + Offset /\
  region m (p + Offset) = Some (drop (Z.to_nat (p + Offset)) m).
Proof.
  intros H. rewrite (Z.add_comm Offset p), u32_small by lia. split_and!; [done..|].
  unfold region. by rewrite (proj2 (Z.eqb_neq _ _)) by lia.
Qed.

Lemma cut q k : 0 <= q -> 0 <= k -> q + k <= Z.of_nat (length m) ->
  exists b t, drop (Z.to_nat q) m = b ++ t /\ Z.of_nat (length b) = k /\ rd_bytes m q (length b) = Some b.
Proof.
  intros Hq Hk Hl. destruct (rd_bytes_in m q (Z.to_nat k)) as (b & E & Lb); [lia..|].
  destruct (rd_bytes_drop _ _ _ _ E) as [t Et]. exists b, t. split_and!; [done|lia|by rewrite Lb].
Qed.

Lemma sid_test_total Offset : exists b, relative_sid m p Offset n = Some b.
Proof.
  unfold relative_sid. destruct (RtlpValidateSDOffsetAndSize _ _ _) eqn:E; [|by eexists].
  apply validate_offset_some in E as (H1 & H2 & ->). destruct (region_at _ H1) as (-> & -> & ->).
  cbn [mbind option_bind]. destruct (negb _); [by eexists|]. unfold sizeof_SID in *.
  destruct (cut (p + Offset) 12) as (b & t & -> & Lb & _); [lia..|].
  unfold RtlLengthSid. destruct (get_in 1 (b ++ t) 1) as [c ->]; [lia|rewrite length_app; lia|]. by eexists.
Qed.

Lemma acl_test_total Offset : exists b, relative_acl m p Offset n = Some b.
Proof.
  unfold relative_acl. destruct (RtlpValidateSDOffsetAndSize _ _ _) eqn:E; [|by eexists].
  apply validate_offset_some in E as (H1 & H2 & ->). destruct (region_at _ H1) as (-> & -> & ->).
  cbn [mbind option_bind]. destruct (negb _); [by eexists|]. unfold sizeof_ACL in *.
  destruct (cut (p + Offset) 8) as (b & t & -> & Lb & _); [lia..|].
  unfold AclSize. destruct (get_in 2 (b ++ t) 2) as [c ->]; [lia|rewrite length_app; lia|]. by eexists.
Qed.

Lemma sid_test_sound Offset :
  relative_sid m p Offset n = Some true ->
  u32 (p + Offset) = p + Offset /\ 20 <= Offset /\
  exists s, present sid_ok m (p + Offset) (Some s) /\ inside (p + Offset) (Some s).
Proof.
  unfold relative_sid. destruct (RtlpValidateSDOffsetAndSize _ _ _) eqn:E; [|done].
  apply validate_offset_some in E as (H1 & H2 & ->). destruct (region_at _ H1) as (-> & -> & ->).
  cbn [mbind option_bind]. destruct (RtlValidSid _) eqn:Ev; [|done]. cbn [negb].
  destruct (RtlLengthSid _) as [k|] eqn:El; [|done]. cbn [mbind option_bind]. intros [= Hk].
  apply negb_true_iff, Z.ltb_ge in Hk. split_and!; [done|lia|].
  assert (Hk2 : 8 <= k).
  { unfold RtlLengthSid in El. destruct (get8 _ 1) as [c|] eqn:Ec; [|done]. injection El as <-.
    pose proof (get_some_range 1 _ _ c (Forall_drop _ _ _ Hm) Ec). lia. }
  destruct (cut (p + Offset) k) as (s & t & Et & Ls & Rs); [lia..|]. rewrite Et, <- Ls in *.
  exists s. cbn. split_and!; [lia|done| |lia|lia]. apply (sid_ok_prefix s t); [done|done|lia].
Qed.

Lemma acl_test_sound Offset :
  relative_acl m p Offset n = Some true ->
  u32 (p + Offset) = p + Offset /\ 20 <= Offset /\
  RtlValidAcl (drop (Z.to_nat (p + Offset)) m) = true /\
  exists x, present acl_ok m (p + Offset) (Some x) /\ inside (p + Offset) (Some x).
Proof.
  unfold relative_acl. destruct (RtlpValidateSDOffsetAndSize _ _ _) eqn:E; [|done].
  apply validate_offset_some in E as (H1 & H2 & ->). destruct (region_at _ H1) as (-> & -> & ->).
  cbn [mbind option_bind]. destruct (RtlValidAcl _) eqn:Ev; [|done]. cbn [negb].
  destruct (AclSize _) as [k|] eqn:El; [|done]. cbn [mbind option_bind]. intros [= Hk].
  apply negb_true_iff, Z.ltb_ge in Hk. split_and!; [done|lia|done|].
  assert (Hk2 : 8 <= k < 2 ^ 16).
  { split; [|by apply (get_some_range 2 _ _ k (Forall_drop _ _ _ Hm) El)].
    revert Ev. unfold RtlValidAcl. rewrite El. destruct (AclRevision _); [|done].
    cbn [mbind option_bind]. do 2 guard_more. unfold sizeof_ACL. destruct (Z.ltb_spec k 8); [done|lia]. }
  destruct (cut (p + Offset) k) as (s & t & Et & Ls & Rs); [lia..|]. rewrite Et, <- Ls in *.
  exists s. cbn. split_and!; [lia|done| |lia|lia]. apply (acl_ok_prefix s t); [done|lia].
Qed.

Lemma sid_step off c v b :
  Control m p = Some c -> has c SE_SELF_RELATIVE = true -> field 4 m p off = Some v ->
  (if negb (v =? 0) then relative_sid m p v n else Some b) = Some true ->
  exists q o, component m p off = Some q /\ present sid_ok m q o /\ inside q o /\ there o || b = true.
Proof.
  intros Ec Hf Ev. unfold component. rewrite Ec, Ev. cbn [mbind option_bind]. rewrite Hf.
  destruct (v =? 0); cbn [negb]; [intros [= ->]; by exists 0, None|].
  intros (-> & _ & s & Ps & Is)%sid_test_sound. by exists (p + v), (Some s).
Qed.

Lemma acl_step off c flag :
  Control m p = Some c -> has c SE_SELF_RELATIVE = true ->
  (if flag : bool then v ← field 4 m p off; relative_acl m p v n else Some true) = Some true ->
  exists q o, (if negb flag then Some 0 else component m p off) = Some q /\
    present acl_ok m q o /\ inside q o /\ there o || negb flag = true /\
    (q <> 0 -> RtlValidAcl (drop (Z.to_nat q) m) = true).
Proof.
  intros Ec Hf. destruct flag; cbn [negb]; [|intros _; by exists 0, None].
  unfold component. rewrite Ec. cbn [mbind option_bind]. destruct (field 4 m p off) as [v|]; [|done].
  cbn [mbind option_bind]. intros (E & Hv & Hval & x & Px & Ix)%acl_test_sound. rewrite Hf.
  rewrite (proj2 (Z.eqb_neq _ _)) by lia. rewrite E. by exists (p + v), (Some x).
Qed.

End sound.

Lemma valid_sid_present m q o : present sid_ok m q o -> negb (q =? 0) && negb (RtlValidSid (region m q)) = false.
Proof.
  destruct o as [s|]; [|by intros ->]. intros (Hq & Hr & Hs).
  destruct (region_read m q _ s Hq Hr) as [t ->]. rewrite (proj1 (sid_ok_app s t Hs)). apply andb_false_r.
Qed.

Lemma valid_acl_at m q :
  (q <> 0 -> RtlValidAcl (drop (Z.to_nat q) m) = true) ->
  negb (q =? 0) && negb (RtlValidAcl (default [] (region m q))) = false.
Proof.
  intros H. unfold region. destruct (Z.eqb_spec q 0); [done|]. cbn. by rewrite H.
Qed.

(** Every test of [RtlValidRelativeSecurityDescriptor] on the way to TRUE. *)
Lemma valid_relative_steps m p n info :
  RtlValidRelativeSecurityDescriptor m p n info = Some true ->
  20 <= n /\ Revision m p = Some SECURITY_DESCRIPTOR_REVISION /\
  exists c vo vg, Control m p = Some c /\ has c SE_SELF_RELATIVE = true /\
    field 4 m p Owner_ = Some vo /\ field 4 m p Group_ = Some vg /\
    (if negb (vo =? 0) then relative_sid m p vo n
     else Some (negb (has info OWNER_SECURITY_INFORMATION))) = Some true /\
    (if negb (vg =? 0) then relative_sid m p vg n
     else Some (negb (has info GROUP_SECURITY_INFORMATION))) = Some true /\
    (if has c SE_DACL_PRESENT then v ← field 4 m p Dacl_; relative_acl m p v n else Some true) = Some true /\
    (if has c SE_SACL_PRESENT then v ← field 4 m p Sacl_; relative_acl m p v n else Some true) = Some true.
Proof.
  unfold RtlValidRelativeSecurityDescriptor. destruct (Z.ltb_spec n sizeof_SECURITY_DESCRIPTOR); [done|].
  destruct (Revision m p) as [r|]; [|done]. cbn [mbind option_bind].
  destruct (Z.eqb_spec r SECURITY_DESCRIPTOR_REVISION) as [->|]; [|done]. cbn [negb].
  destruct (Control m p) as [c|]; [|done]. cbn [mbind option_bind].
  destruct (has c SE_SELF_RELATIVE) eqn:Hf; [|done]. cbn [negb].
  destruct (field 4 m p Owner_) as [vo|]; [|done]. cbn [mbind option_bind].
  destruct (if negb (vo =? 0) then _ else _) as [[|]|] eqn:E1; [|done..]. cbn [mbind option_bind negb].
  destruct (field 4 m p Group_) as [vg|]; [|done]. cbn [mbind option_bind].
  destruct (if negb (vg =? 0) then _ else _) as [[|]|] eqn:E2; [|done..]. cbn [mbind option_bind negb].
  rewrite (land_flag _ 2 ltac:(lia) : (Z.land c SE_DACL_PRESENT =? SE_DACL_PRESENT) = has c SE_DACL_PRESENT).
  rewrite (land_flag _ 4 ltac:(lia) : (Z.land c SE_SACL_PRESENT =? SE_SACL_PRESENT) = has c SE_SACL_PRESENT).
  destruct (if has c SE_DACL_PRESENT then _ else _) as [[|]|] eqn:E3; [|done..]. cbn [mbind option_bind negb].
  intros E4. offsets. split_and!; [lia|done|]. by exists c, vo, vg.
Qed.

Lemma valid_relative_total m p n info :
  0 < p -> p + n <= Z.of_nat (length m) -> Z.of_nat (length m) < 2 ^ 32 ->
  exists b, RtlValidRelativeSecurityDescriptor m p n info = Some b.
Proof.
  intros Hp Hend Hlen. unfold RtlValidRelativeSecurityDescriptor, Revision, Control. offsets.
  destruct (Z.ltb_spec n 20) as [|Hn]; [by eexists|]. rewrite !field_get by done.
  destruct (get_in 1 m (p + 0)) as [r ->]; [lia..|]. destruct (get_in 2 m (p + 2)) as [c ->]; [lia..|].
  destruct (get_in 4 m (p + 4)) as [vo ->]; [lia..|]. destruct (get_in 4 m (p + 8)) as [vg ->]; [lia..|].
  destruct (get_in 4 m (p + 12)) as [vs ->]; [lia..|]. destruct (get_in 4 m (p + 16)) as [vd ->]; [lia..|].
  cbn [mbind option_bind]. do 2 (destruct (negb _); [by eexists|]).
  destruct (sid_test_total m p n Hp Hend Hlen vo) as [bo ->].
  destruct (sid_test_total m p n Hp Hend Hlen vg) as [bg ->].
  destruct (acl_test_total m p n Hp Hend Hlen vd) as [bd ->].
  destruct (acl_test_total m p n Hp Hend Hlen vs) as [bs ->].
  repeat match goal with
  | |- exists b, Some ?x = Some b => by exists x
  | |- context [if ?b then _ else _] => destruct b; cbn [mbind option_bind negb]
  end.
Qed.

(** C8.  On a buffer of [n] readable bytes [RtlValidRelativeSecurityDescriptor]
    answers: no read of its own is outside the memory, and where [RtlValidAcl], called
    before [AclSize] is compared with what is left of the buffer, walks ACEs past the end
    of the memory, its exception handler makes that a refusal.  If the answer is
    TRUE, the buffer holds a self-relative descriptor of revision 1 whose owner, group,
    SACL and DACL, those the kernel's accessors find, lie after the header and
    inside the [n] bytes, the required components are there, and
    [RtlValidSecurityDescriptor] accepts it as well. *)
Theorem valid_relative_sound m p n info :
  bytes_ok m -> 0 < p -> p + n <= Z.of_nat (length m) -> Z.of_nat (length m) < 2 ^ 32 ->
  (exists b, RtlValidRelativeSecurityDescriptor m p n info = Some b) /\
  (RtlValidRelativeSecurityDescriptor m p n info = Some true ->
   exists d a, holds m p d a /\ revision d = SECURITY_DESCRIPTOR_REVISION /\
     has (control d) SE_SELF_RELATIVE = true /\
     inside p n (at_owner a) (owner d) /\ inside p n (at_group a) (group d) /\
     inside p n (at_sacl a) (sacl d) /\ inside p n (at_dacl a) (dacl d) /\
     acceptable info d = true /\ RtlValidSecurityDescriptor m p = true).
Proof.
  intros Hm Hp Hend Hlen. split; [by apply valid_relative_total|]. intros H.
  apply valid_relative_steps in H as (Hn & Er & c & vo & vg & Ec & Hf & Eo & Eg & T1 & T2 & T3 & T4).
  destruct (sid_step m p n Hm Hp Hend Hlen Owner_ c vo _ Ec Hf Eo T1) as (qo & o & Co & Po & Io & Ao).
  destruct (sid_step m p n Hm Hp Hend Hlen Group_ c vg _ Ec Hf Eg T2) as (qg & g & Cg & Pg & Ig & Ag).
  destruct (acl_step m p n Hm Hp Hend Hlen Dacl_ c _ Ec Hf T3) as (qd & da & Cd & Pd & Id & Ad & Vd).
  destruct (acl_step m p n Hm Hp Hend Hlen Sacl_ c _ Ec Hf T4) as (qs & sa & Cs & Ps & Is & As & Vs).
  destruct (get_in 1 m (p + 1)) as [s1 Es]; [lia..|].
  assert (Hc : 0 <= c < 2 ^ 16).
  { unfold Control in Ec. rewrite field_get in Ec by lia. by apply (get_some_range 2) in Ec. }
  exists (Content SECURITY_DESCRIPTOR_REVISION s1 c o g sa da), (Places qo qg qs qd).
  split_and!; try done.
  - split; cbn; offsets; [lia|done|by unfold Sbz1; rewrite field_get|done|done|done| |];
      (split; [|done]); unfold SepGetSaclFromDescriptor, SepGetDaclFromDescriptor; by rewrite Ec.
  - unfold acceptable. cbn. by rewrite Ao, Ag, Ad, As.
  - unfold RtlValidSecurityDescriptor, SepGetOwnerFromDescriptor, SepGetGroupFromDescriptor,
      SepGetDaclFromDescriptor, SepGetSaclFromDescriptor. rewrite Er, Ec, Co, Cg.
    cbn [mbind option_bind negb Z.eqb SECURITY_DESCRIPTOR_REVISION Pos.eqb].
    rewrite (valid_sid_present _ _ _ Po), (valid_sid_present _ _ _ Pg), Cd. cbn [mbind option_bind].
    rewrite (valid_acl_at _ _ Vd), Cs. cbn [mbind option_bind]. by rewrite (valid_acl_at _ _ Vs).
Qed.

(** C15.  [RtlMakeSelfRelativeSD] on a descriptor in either format: with a
    buffer that is too small it says how much room is needed and changes
    nothing; otherwise it writes only the [total d] bytes of the buffer, which
    then hold a self-relative descriptor of the same content, components in the
    order SACL, DACL, owner, group.  [RtlValidRelativeSecurityDescriptor]
    accepts the result, for parts that are valid, exactly when the components
    the caller requires and the ACLs the control word announces are there. *)
Theorem make_self_relative m p d a Rel n info :
  holds m p d a -> 0 < Rel -> Rel + total d <= Z.of_nat (length m) -> Z.of_nat (length m) < 2 ^ 32 ->
  p + 20 <= Rel \/ Rel + total d <= p -> all_outside m Rel (total d) d a ->
  let d' := with_control d (Z.lor (control d) SE_SELF_RELATIVE) in
  (n < total d -> RtlMakeSelfRelativeSD m p Rel n = Some (STATUS_BUFFER_TOO_SMALL, total d, m)) /\
  (total d <= n -> exists m', RtlMakeSelfRelativeSD m p Rel n = Some (STATUS_SUCCESS, n, m') /\
     keeps [(Rel, total d)] m m' /\ holds m' Rel d' (relative_places Rel d') /\
     (valid_parts d ->
      RtlValidRelativeSecurityDescriptor m' Rel (total d) info = Some (acceptable info d))).
Proof.
  intros Hh HR Hroom Hlen Hdis Hout d'. split.
  - intros Hn. pose proof (total_bounds _ _ _ _ Hh). unfold RtlMakeSelfRelativeSD.
    rewrite (query_holds _ _ _ _ Hh). cbn -[Z.add u32 Z.ltb].
    change (sizeof_SECURITY_DESCRIPTOR + _ + _ + _ + _) with (total d).
    by rewrite (u32_small (total d)), (proj2 (Z.ltb_lt _ _)) by lia.
  - intros Hn. destruct (make_success m p d a Rel n Hh HR Hroom Hlen Hdis Hout Hn) as (m' & E & K & Hrel).
    exists m'. split_and!; [done|done|by apply relative_holds|]. intros Hv.
    rewrite (relative_accepted m' Rel d' info Hrel Hv : _ (total d) _ = _). unfold acceptable. cbn.
    by rewrite !has_lor_other.
Qed.

Lemma outside_place m p Cur o :
  p + 20 <= Cur -> Cur + size o <= Z.of_nat (length m) ->
  outside m p 20 (place o Cur) o.
Proof. intros HC He. destruct o; [|done]. cbn [outside place]. lia. Qed.

Lemma relative_outside m p d : relative m p d -> all_outside m p 20 d (relative_places p d).
Proof.
  intros [(Hp & Hroom & Hlen) _ _ _ _ _ _ (Ls & Ld & Lo & Lg)].
  pose proof (laid_size _ _ _ _ _ _ Ls). pose proof (laid_size _ _ _ _ _ _ Ld).
  pose proof (laid_size _ _ _ _ _ _ Lo). pose proof (laid_size _ _ _ _ _ _ Lg).
  unfold total in Hroom. offsets.
  split_and!; cbn -[Z.add]; apply outside_place; offsets; lia.
Qed.

(** C27.  Round trip: an absolute descriptor made self-relative by
    [RtlAbsoluteToSelfRelativeSD], then made absolute again in place by
    [RtlSelfRelativeToAbsoluteSD2], has the content it had, components included;
    neither call writes outside of the buffer. *)
Theorem self_relative_roundtrip m p d a Rel n :
  holds m p d a -> has (control d) SE_SELF_RELATIVE = false -> 0 < Rel ->
  Rel + total d <= Z.of_nat (length m) -> Z.of_nat (length m) < 2 ^ 32 ->
  p + 20 <= Rel \/ Rel + total d <= p -> all_outside m Rel (total d) d a -> total d <= n ->
  exists m1 m2, RtlAbsoluteToSelfRelativeSD m p Rel n = Some (STATUS_SUCCESS, n, m1) /\
    RtlSelfRelativeToAbsoluteSD2 m1 Rel true = Some (STATUS_SUCCESS, m2) /\
    holds m2 Rel d (relative_places Rel d) /\ keeps [(Rel, total d)] m m2.
Proof.
  intros Hh Hf HR Hroom Hlen Hdis Hout Hn.
  destruct (make_success m p d a Rel n Hh HR Hroom Hlen Hdis Hout Hn) as (m1 & E & K & Hrel).
  unfold RtlAbsoluteToSelfRelativeSD. rewrite (proj1 (holds_control _ _ _ _ Hh)). cbn [mbind option_bind].
  rewrite Hf. exists m1. pose proof (relative_outside _ _ _ Hrel) as Ho.
  destruct (to_absolute2_ok m1 Rel _ _ (relative_holds _ _ _ Hrel) (rel_flag _ _ _ Hrel)) as (m2 & E2 & K2 & H2);
    [by rewrite (proj1 K)|done|].
  exists m2. split_and!; [done|done| |].
  - destruct d as [r s c o g sa da]. cbn in *.
    replace c with (Z.ldiff (Z.lor c SE_SELF_RELATIVE) SE_SELF_RELATIVE); [done|].
    apply Z.bits_inj'. intros i Hi. rewrite Z.ldiff_spec, Z.lor_spec.
    pose proof (has_false _ _ i Hf Hi). destruct (Z.testbit c i), (Z.testbit SE_SELF_RELATIVE i); done.
  - pose proof (total_bounds _ _ _ _ Hh). apply (keeps_more _ _ _ _ _ _ K K2). ranges_tac.
Qed.

(** * Building a descriptor *)

(** A setter succeeds and the header becomes [h]. *)
Definition sets (f : option (Z * mem)) (m : mem) (p : Z) (h : hdr) : Prop :=
  exists m', f = Some (STATUS_SUCCESS, m') /\ keeps [(p, 20)] m m' /\ header m' p h.

Lemma updates_sets f m p h : updates f m p h -> sets (m' ← f; Some (STATUS_SUCCESS, m')) m p h.
Proof. intros (m' & -> & K & H). by exists m'. Qed.

Lemma sets_trans m m1 p f h : keeps [(p, 20)] m m1 -> sets f m1 p h -> sets f m p h.
Proof.
  intros K (m' & E & K' & H). exists m'. split_and!; [done| |done].
  apply (keeps_more _ _ _ _ _ _ K K'). ranges_tac.
Qed.

(** [c] with [f] set or cleared. *)
Definition flagged (c f : Z) (b : bool) : Z := if b then Z.lor c f else Z.ldiff c f.

Section setters.
  Context (m : mem) (p s c o g sa da : Z).
  Context (H : header m p (Hdr SECURITY_DESCRIPTOR_REVISION s c o g sa da))
          (Hf : has c SE_SELF_RELATIVE = false).

Lemma guarded_absolute k : guarded m p k = k.
Proof.
  destruct H as [_ Er _ [Ec _] _ _ _ _]. unfold guarded. rewrite Er, Ec. cbn. by rewrite Hf.
Qed.

Lemma set_owner_ok v b :
  0 <= v < 2 ^ 32 ->
  sets (RtlSetOwnerSecurityDescriptor m p v b) m p
       (Hdr SECURITY_DESCRIPTOR_REVISION s (flagged c SE_OWNER_DEFAULTED b) v g sa da).
Proof.
  intros Hv. unfold RtlSetOwnerSecurityDescriptor. rewrite guarded_absolute.
  destruct (update_owner _ _ _ _ _ _ _ _ _ v H Hv) as (m1 & -> & K1 & H1). cbn [mbind option_bind].
  apply (sets_trans m m1 p _ _ K1), updates_sets, (update_defaulted _ _ _ _ _ _ _ _ _ _ _ H1). done.
Qed.

Lemma set_group_ok v b :
  0 <= v < 2 ^ 32 ->
  sets (RtlSetGroupSecurityDescriptor m p v b) m p
       (Hdr SECURITY_DESCRIPTOR_REVISION s (flagged c SE_GROUP_DEFAULTED b) o v sa da).
Proof.
  intros Hv. unfold RtlSetGroupSecurityDescriptor. rewrite guarded_absolute.
  destruct (update_group _ _ _ _ _ _ _ _ _ v H Hv) as (m1 & -> & K1 & H1). cbn [mbind option_bind].
  apply (sets_trans m m1 p _ _ K1), updates_sets, (update_defaulted _ _ _ _ _ _ _ _ _ _ _ H1). done.
Qed.

Lemma set_sacl_ok (pr : bool) v b :
  0 <= v < 2 ^ 32 ->
  sets (RtlSetSaclSecurityDescriptor m p pr v b) m p
       (if pr then Hdr SECURITY_DESCRIPTOR_REVISION s
                       (flagged (Z.lor c SE_SACL_PRESENT) SE_SACL_DEFAULTED b) o g v da
        else Hdr SECURITY_DESCRIPTOR_REVISION s (Z.ldiff c SE_SACL_PRESENT) o g sa da).
Proof.
  intros Hv. unfold RtlSetSaclSecurityDescriptor. rewrite guarded_absolute. destruct pr; cbn [negb].
  - destruct (update_sacl _ _ _ _ _ _ _ _ _ v H Hv) as (m1 & -> & K1 & H1). cbn [mbind option_bind].
    apply (sets_trans m m1 p _ _ K1).
    destruct (update_or _ _ _ _ _ _ _ _ _ SE_SACL_PRESENT H1) as (m2 & -> & K2 & H2); [done|].
    cbn [mbind option_bind].
    apply (sets_trans _ m2 p _ _ K2), updates_sets, (update_defaulted _ _ _ _ _ _ _ _ _ _ _ H2). done.
  - by apply updates_sets, (update_clear _ _ _ _ _ _ _ _ _ SE_SACL_PRESENT H).
Qed.

Lemma set_dacl_ok (pr : bool) v b :
  0 <= v < 2 ^ 32 ->
  sets (RtlSetDaclSecurityDescriptor m p pr v b) m p
       (if pr then Hdr SECURITY_DESCRIPTOR_REVISION s
                       (flagged (Z.lor c SE_DACL_PRESENT) SE_DACL_DEFAULTED b) o g sa v
        else Hdr SECURITY_DESCRIPTOR_REVISION s (Z.ldiff c SE_DACL_PRESENT) o g sa da).
Proof.
  intros Hv. unfold RtlSetDaclSecurityDescriptor. rewrite guarded_absolute. destruct pr; cbn [negb].
  - destruct (update_dacl _ _ _ _ _ _ _ _ _ v H Hv) as (m1 & -> & K1 & H1). cbn [mbind option_bind].
    apply (sets_trans m m1 p _ _ K1).
    destruct (update_or _ _ _ _ _ _ _ _ _ SE_DACL_PRESENT H1) as (m2 & -> & K2 & H2); [done|].
    cbn [mbind option_bind].
    apply (sets_trans _ m2 p _ _ K2), updates_sets, (update_defaulted _ _ _ _ _ _ _ _ _ _ _ H2). done.
  - by apply updates_sets, (update_clear _ _ _ _ _ _ _ _ _ SE_DACL_PRESENT H).
Qed.
End setters.

Lemma create_ok m p :
  0 < p -> p + 20 <= Z.of_nat (length m) ->
  sets (RtlCreateSecurityDescriptor m p SECURITY_DESCRIPTOR_REVISION) m p
       (Hdr SECURITY_DESCRIPTOR_REVISION 0 0 0 0 0 0).
Proof.
  intros Hp Hl. unfold RtlCreateSecurityDescriptor, RtlZeroMemory, region. offsets.
  rewrite (proj2 (Z.eqb_neq p 0)) by lia. cbn [negb Z.eqb mbind option_bind Pos.eqb SECURITY_DESCRIPTOR_REVISION].
  destruct (wr_bytes_in m p (replicate (Z.to_nat 20) 0)) as (m1 & E1 & _); [lia|done|].
  rewrite E1. apply wr_keeps in E1 as [K1 R1]. change (length (replicate (Z.to_nat 20) 0)) with 20%nat in *. pose proof (proj1 K1) as L1.
  cbn [mbind option_bind].
  assert (Z1 : forall off k, 0 <= off -> off + Z.of_nat k <= 20 -> field k m1 p off = Some (le_val (replicate k 0))).
  { intros off k H0 Hk. rewrite field_get by lia. unfold get.
    rewrite (rd_bytes_sub _ _ _ _ off k R1) by lia. rewrite drop_replicate, take_replicate, Nat.min_l by lia. done. }
  destruct (set_field_ok 1 m1 p 0 SECURITY_DESCRIPTOR_REVISION) as (m2 & -> & K2 & F2);
    [lia|lia|rewrite L1; lia|done|].
  exists m2. split_and!; [done|apply (keeps_more _ _ _ _ _ _ K1 K2); ranges_tac|].
  split; cbn; [rewrite (proj1 K2), L1; lia|done|..]; unfold Sbz1, Control; offsets;
    rewrite (field_keeps _ _ _ _ _ _ K2) by (done || apart_tac); rewrite Z1 by lia; done.
Qed.

(** What the getters say of a descriptor of the known revision. *)
Lemma getters m p d a :
  holds m p d a -> revision d = SECURITY_DESCRIPTOR_REVISION ->
  RtlGetOwnerSecurityDescriptor m p =
    Some (STATUS_SUCCESS, Some (at_owner a), Some (has (control d) SE_OWNER_DEFAULTED)) /\
  RtlGetGroupSecurityDescriptor m p =
    Some (STATUS_SUCCESS, Some (at_group a), Some (has (control d) SE_GROUP_DEFAULTED)) /\
  RtlGetSaclSecurityDescriptor m p =
    Some (if has (control d) SE_SACL_PRESENT
          then (STATUS_SUCCESS, Some true, Some (at_sacl a), Some (has (control d) SE_SACL_DEFAULTED))
          else (STATUS_SUCCESS, Some false, None, None)) /\
  RtlGetDaclSecurityDescriptor m p =
    Some (if has (control d) SE_DACL_PRESENT
          then (STATUS_SUCCESS, Some true, Some (at_dacl a), Some (has (control d) SE_DACL_DEFAULTED))
          else (STATUS_SUCCESS, Some false, None, None)).
Proof.
  intros [_ Er _ [Ec _] [Eo _] [Eg _] [Es _] [Ed _]] Hr. rewrite Hr in Er.
  unfold RtlGetOwnerSecurityDescriptor, RtlGetGroupSecurityDescriptor, RtlGetSaclSecurityDescriptor,
    RtlGetDaclSecurityDescriptor. rewrite Er, Eo, Eg, Es, Ed, Ec.
  cbn [mbind option_bind negb Z.eqb Pos.eqb SECURITY_DESCRIPTOR_REVISION].
  change SE_OWNER_DEFAULTED with (2 ^ 0). change SE_GROUP_DEFAULTED with (2 ^ 1).
  change SE_DACL_PRESENT with (2 ^ 2). change SE_DACL_DEFAULTED with (2 ^ 3).
  change SE_SACL_PRESENT with (2 ^ 4). change SE_SACL_DEFAULTED with (2 ^ 5).
  rewrite !land_flag by lia. by repeat destruct (has (control d) _).
Qed.

(** The control word of a descriptor built from nothing. *)
Definition built_control (bo bg ps bs pd bd : bool) : Z :=
  let flag (b : bool) f := if b then f else 0 in
  Z.lor (flag bo SE_OWNER_DEFAULTED) (Z.lor (flag bg SE_GROUP_DEFAULTED)
    (Z.lor (flag ps SE_SACL_PRESENT) (Z.lor (flag (ps && bs) SE_SACL_DEFAULTED)
      (Z.lor (flag pd SE_DACL_PRESENT) (flag (pd && bd) SE_DACL_DEFAULTED))))).

Definition built (o g s d : option (list Z)) (bo bg ps bs pd bd : bool) : content :=
  Content SECURITY_DESCRIPTOR_REVISION 0 (built_control bo bg ps bs pd bd) o g
          (if ps then s else None) (if pd then d else None).

Lemma build_headers m p qo qg qs qd (bo bg ps bs pd bd : bool) :
  0 < p -> p + 20 <= Z.of_nat (length m) ->
  0 <= qo < 2 ^ 32 -> 0 <= qg < 2 ^ 32 -> 0 <= qs < 2 ^ 32 -> 0 <= qd < 2 ^ 32 ->
  exists m1 m2 m3 m4 m5,
    RtlCreateSecurityDescriptor m p SECURITY_DESCRIPTOR_REVISION = Some (STATUS_SUCCESS, m1) /\
    RtlSetOwnerSecurityDescriptor m1 p qo bo = Some (STATUS_SUCCESS, m2) /\
    RtlSetGroupSecurityDescriptor m2 p qg bg = Some (STATUS_SUCCESS, m3) /\
    RtlSetSaclSecurityDescriptor m3 p ps qs bs = Some (STATUS_SUCCESS, m4) /\
    RtlSetDaclSecurityDescriptor m4 p pd qd bd = Some (STATUS_SUCCESS, m5) /\
    keeps [(p, 20)] m m5 /\
    header m5 p (Hdr SECURITY_DESCRIPTOR_REVISION 0 (built_control bo bg ps bs pd bd) qo qg
                     (if ps then qs else 0) (if pd then qd else 0)).
Proof.
  intros Hp Hl Ho Hg Hs Hd.
  destruct (create_ok m p Hp Hl) as (m1 & E1 & K1 & H1). exists m1.
  destruct (sets_trans _ _ _ _ _ K1 (set_owner_ok _ _ _ _ _ _ _ _ H1 eq_refl qo bo Ho)) as (m2 & E2 & K2 & H2).
  exists m2.
  destruct (sets_trans _ _ _ _ _ K2 (set_group_ok _ _ _ _ _ _ _ _ H2 ltac:(by destruct bo) qg bg Hg))
    as (m3 & E3 & K3 & H3). exists m3.
  destruct (sets_trans _ _ _ _ _ K3 (set_sacl_ok _ _ _ _ _ _ _ _ H3 ltac:(by destruct bo, bg) ps qs bs Hs))
    as (m4 & E4 & K4 & H4). exists m4.
  assert (H4' : header m4 p (Hdr SECURITY_DESCRIPTOR_REVISION 0 (built_control bo bg ps bs false bd) qo qg
                                 (if ps then qs else 0) 0)) by by destruct bo, bg, ps, bs.
  destruct (sets_trans _ _ _ _ _ K4 (set_dacl_ok _ _ _ _ _ _ _ _ H4' ltac:(by destruct bo, bg, ps, bs) pd qd bd Hd))
    as (m5 & E5 & K5 & H5). exists m5.
  split_and!; try done. clear -H5. by destruct bo, bg, ps, bs, pd, bd.
Qed.

Lemma present_if ok m q o (b : bool) :
  present ok m q o -> present ok m (if b then q else 0) (if b then o else None).
Proof. by destruct b. Qed.

(** A descriptor built by [RtlCreateSecurityDescriptor] and the four
    setters holds exactly the components and flags it was given, an ACL only
    where it is said to be present, nothing but its header is written, and the
    four getters give back the pointers and the flags. *)
Theorem build_descriptor m p qo qg qs qd o g s d (bo bg ps bs pd bd : bool) :
  0 < p -> p + 20 <= Z.of_nat (length m) -> Z.of_nat (length m) < 2 ^ 32 ->
  present sid_ok m qo o -> present sid_ok m qg g -> present acl_ok m qs s -> present acl_ok m qd d ->
  outside m p 20 qo o -> outside m p 20 qg g -> outside m p 20 qs s -> outside m p 20 qd d ->
  exists m1 m2 m3 m4 m5,
    RtlCreateSecurityDescriptor m p SECURITY_DESCRIPTOR_REVISION = Some (STATUS_SUCCESS, m1) /\
    RtlSetOwnerSecurityDescriptor m1 p qo bo = Some (STATUS_SUCCESS, m2) /\
    RtlSetGroupSecurityDescriptor m2 p qg bg = Some (STATUS_SUCCESS, m3) /\
    RtlSetSaclSecurityDescriptor m3 p ps qs bs = Some (STATUS_SUCCESS, m4) /\
    RtlSetDaclSecurityDescriptor m4 p pd qd bd = Some (STATUS_SUCCESS, m5) /\
    keeps [(p, 20)] m m5 /\
    holds m5 p (built o g s d bo bg ps bs pd bd)
          (Places qo qg (if ps then qs else 0) (if pd then qd else 0)) /\
    RtlGetOwnerSecurityDescriptor m5 p = Some (STATUS_SUCCESS, Some qo, Some bo) /\
    RtlGetGroupSecurityDescriptor m5 p = Some (STATUS_SUCCESS, Some qg, Some bg) /\
    RtlGetSaclSecurityDescriptor m5 p =
      Some (if ps then (STATUS_SUCCESS, Some true, Some qs, Some bs)
            else (STATUS_SUCCESS, Some false, None, None)) /\
    RtlGetDaclSecurityDescriptor m5 p =
      Some (if pd then (STATUS_SUCCESS, Some true, Some qd, Some bd)
            else (STATUS_SUCCESS, Some false, None, None)).
Proof.
  intros Hp Hl Hlen Po Pg Ps Pd Oo Og Os Od.
  destruct (build_headers m p qo qg qs qd bo bg ps bs pd bd) as (m1 & m2 & m3 & m4 & m5 & E1 & E2 & E3 & E4 & E5 & K & H);
    [done|done|by eapply present_range..|].
  apply (outside_keeps _ _ _ _ _ _ _ K Oo) in Po as [Po _]. apply (outside_keeps _ _ _ _ _ _ _ K Og) in Pg as [Pg _].
  apply (outside_keeps _ _ _ _ _ _ _ K Os) in Ps as [Ps _]. apply (outside_keeps _ _ _ _ _ _ _ K Od) in Pd as [Pd _].
  apply (present_if _ _ _ _ ps) in Ps. apply (present_if _ _ _ _ pd) in Pd.
  assert (Hh : holds m5 p (built o g s d bo bg ps bs pd bd)
                 (Places qo qg (if ps then qs else 0) (if pd then qd else 0))).
  { pose proof (absolute_holds m5 p _ (built o g s d bo bg ps bs pd bd) H) as HH. cbv zeta beta in HH.
    cbn [h_control h_revision h_sbz1 h_owner h_group h_sacl h_dacl] in HH.
    specialize (HH ltac:(clear; by destruct bo, bg, ps, bs, pd, bd) eq_refl eq_refl eq_refl Po Pg).
    clear -HH Ps Pd. destruct bo, bg, ps, bs, pd, bd; exact (HH Ps Pd). }
  exists m1, m2, m3, m4, m5. destruct (getters _ _ _ _ Hh eq_refl) as (G1 & G2 & G3 & G4).
  split_and!; try done; rewrite ?G1, ?G2, ?G3, ?G4; clear; by destruct bo, bg, ps, bs, pd, bd.
Qed.

(** * Evaluated examples *)

(** Address 4: an absolute descriptor (DACL present); 24: the SID S-1-1-0, its
    owner and group; 36: an empty ACL, its DACL; 44: room for 52 bytes. *)
Definition example_sid : list Z := [1; 1; 0; 0; 0; 0; 0; 1; 0; 0; 0; 0].
Definition example_dacl : list Z := [2; 0; 8; 0; 0; 0; 0; 0].
Definition example_memory (control_ dacl_ : Z) : mem :=
  replicate 4 0 ++ [1; 0] ++ le 2 control_ ++ le 4 24 ++ le 4 24 ++ le 4 0 ++ le 4 dacl_
  ++ example_sid ++ example_dacl ++ replicate 52 0.

Definition example_content : content :=
  Content 1 0 4 (Some example_sid) (Some example_sid) None (Some example_dacl).
Definition example_places : places := Places 24 24 0 36.

Lemma example_holds : holds (example_memory 4 36) 4 example_content example_places.
Proof. split; vm_compute; repeat split; done. Qed.

Lemma example_outside : all_outside (example_memory 4 36) 44 (total example_content) example_content example_places.
Proof. vm_compute. by repeat split; left || done. Qed.

Lemma make_self_relative_witness :
  exists m', RtlMakeSelfRelativeSD (example_memory 4 36) 4 44 52 = Some (STATUS_SUCCESS, 52, m') /\
    RtlValidRelativeSecurityDescriptor m' 44 52 3 = Some true.
Proof.
  destruct (make_self_relative (example_memory 4 36) 4 example_content example_places 44 52 3
    example_holds ltac:(lia) ltac:(by vm_compute) ltac:(by vm_compute) ltac:(left; lia) example_outside) as [_ H].
  destruct (H ltac:(by vm_compute)) as (m' & E & _ & _ & V). exists m'. split; [exact E|].
  apply V. split_and!; [done| |]; intros x [[= <-]|[= <-]]; by vm_compute.
Defined.

Lemma self_relative_roundtrip_witness :
  exists m1 m2, RtlAbsoluteToSelfRelativeSD (example_memory 4 36) 4 44 52 = Some (STATUS_SUCCESS, 52, m1) /\
    RtlSelfRelativeToAbsoluteSD2 m1 44 true = Some (STATUS_SUCCESS, m2) /\
    SepGetOwnerFromDescriptor m2 44 = Some 72.
Proof.
  destruct (self_relative_roundtrip (example_memory 4 36) 4 example_content example_places 44 52
    example_holds eq_refl ltac:(lia) ltac:(by vm_compute) ltac:(by vm_compute) ltac:(left; lia) example_outside
    ltac:(by vm_compute)) as (m1 & m2 & E1 & E2 & H & _).
  exists m1, m2. split_and!; [exact E1|exact E2|]. apply (proj1 (holds_owner _ _ _ _ H)).
Defined.

(** A self-relative descriptor at address 4: owner at offset 20, DACL at 32. *)
Definition example_relative : mem :=
  replicate 4 0 ++ [1; 0] ++ le 2 0x8004 ++ le 4 20 ++ le 4 0 ++ le 4 0 ++ le 4 32
  ++ example_sid ++ example_dacl.

Lemma valid_relative_sound_witness :
  exists d a, holds example_relative 4 d a /\ inside 4 40 (at_dacl a) (dacl d) /\
    RtlValidSecurityDescriptor example_relative 4 = true.
Proof.
  assert (Hb : bytes_ok example_relative) 
    by (unfold bytes_ok; vm_compute; repeat constructor; discriminate).
  destruct (valid_relative_sound example_relative 4 40 1 Hb ltac:(lia) ltac:(by vm_compute) ltac:(by vm_compute))
    as [_ H].
  destruct (H ltac:(by vm_compute)) as (d & a & Hh & _ & _ & _ & _ & _ & I & _ & V).
  exists d, a. by split_and!.
Defined.

Lemma build_descriptor_witness :
  exists m', RtlGetDaclSecurityDescriptor m' 4 = Some (STATUS_SUCCESS, Some true, Some 36, Some true).
Proof.
  assert (Hs : present sid_ok (example_memory 0 0) 24 (Some example_sid)) by by vm_compute.
  assert (Hd : present acl_ok (example_memory 0 0) 36 (Some example_dacl)) by by vm_compute.
  assert (Os : outside (example_memory 0 0) 4 20 24 (Some example_sid)) by (vm_compute; split; [|right]; done).
  assert (Od : outside (example_memory 0 0) 4 20 36 (Some example_dacl)) by (vm_compute; split; [|right]; done).
  destruct (build_descriptor (example_memory 0 0) 4 24 24 0 36 (Some example_sid) (Some example_sid) None
    (Some example_dacl) false true false false true true ltac:(lia) ltac:(by vm_compute) ltac:(by vm_compute)
    Hs Hs eq_refl Hd Os Os I Od)
    as (m1 & m2 & m3 & m4 & m5 & _ & _ & _ & _ & _ & _ & _ & _ & _ & _ & G).
  exists m5. exact G.
Defined.

(** A descriptor with a NULL DACL, which grants everything to everyone: its
    self-relative form is refused by the validation. *)
Lemma null_dacl_refused :
  (r ← RtlMakeSelfRelativeSD (example_memory 4 0) 4 44 52;
   v ← RtlValidRelativeSecurityDescriptor r.2 44 44 0; Some (r.1.1, v)) = Some (STATUS_SUCCESS, false).
Proof. by vm_compute. Qed.

(** The copy of an absolute descriptor points to the components of the original. *)
Lemma copy_absolute_shares :
  (r ← RtlCopySecurityDescriptor (fun _ => 44) (example_memory 4 36) 4;
   Owner ← SepGetOwnerFromDescriptor r.2 44; Some (r.1.1, Owner)) = Some (STATUS_SUCCESS, 24).
Proof. by vm_compute. Qed.

(** An ACL of 10 bytes that ends the memory: 12 bytes of it are read. *)
Lemma make_reads_past_acl :
  let acl := [2; 0; 10; 0; 0; 0; 0; 0; 0; 0] in
  let m := replicate 60 0 ++ [1; 0] ++ le 2 4 ++ le 4 0 ++ le 4 0 ++ le 4 0 ++ le 4 80 ++ acl in
  RtlValidSecurityDescriptor m 60 = true /\ RtlMakeSelfRelativeSD m 60 8 40 = None.
Proof. by vm_compute. Qed.
