(* ===== verification/RtlBitmap.v ===== *)
(** * RtlBitmap: the run-time library's bitmaps

    Model of src/sdk/lib/rtl/bitmap.c at [_BITCOUNT = 32] (the [ULONG] build of
    the file; the 64 bit build of the same text is bitmap64.c).  A bitmap is
    the pair of its size in bits and its buffer of 32 bit words.  Reads and
    writes of the buffer are checked: [None] is an access outside of it, so
    every theorem of the form [f bm .. = Some r] also says that [f] stays inside
    the buffer and returns.  Indices wrap at 32 bits as [BITMAP_INDEX] does. *)

From S2P Require Import Prelude.

Record RTL_BITMAP := mkBitmap {
  SizeOfBitMap : Z;
  Buffer : list Z
}.

Definition _BITCOUNT : Z := 32.
Definition MAXINDEX : Z := 2 ^ 32 - 1.

(** [RtlFillMemoryUlong (Buffer + i, Length, Fill)] of mem.c. *)
Fixpoint fill_words (b : list Z) (i : Z) (Count : nat) (Fill : Z) : option (list Z) :=
  match Count with
  | O => Some b
  | S n => b' ← wr b i Fill; fill_words b' (i + 1) n Fill
  end.

Definition RtlFillMemoryUlong (b : list Z) (i Length Fill : Z) : option (list Z) :=
  fill_words b i (Z.to_nat (Length / 4)) Fill.

(** ** Runs *)

(** The loop that skips words without a bit of interest: [Value] is the last
    word read, [n] the number of words left before [MaxBuffer]; returns the word
    it stopped at and the index [Buffer] after it. *)
Fixpoint skip_words (f : Z -> Z) (b : list Z) (n : nat) (Buf Value : Z)
  : option (Z * Z) :=
  if Value =? 0 then
    match n with
    | O => Some (Value, Buf)
    | S n' => w ← rd b Buf; skip_words f b n' (Buf + 1) (f w)
    end
  else Some (Value, Buf).

(** Common text of [RtlpGetLengthOfRunClear] ([f] is the identity) and
    [RtlpGetLengthOfRunSet] ([f] is the complement): [f] is applied to every
    word as it is read. *)
Definition get_length_of_run (f : Z -> Z) (bm : RTL_BITMAP)
    (StartingIndex MaxLength : Z) : option Z :=
  if SizeOfBitMap bm <=? StartingIndex then Some 0 else
  let Buf := StartingIndex / _BITCOUNT in
  let BitPos := Z.land StartingIndex (_BITCOUNT - 1) in
  let MaxLength := Z.min MaxLength (u32 (SizeOfBitMap bm - StartingIndex)) in
  let MaxBuffer := Buf + u32 (BitPos + MaxLength + _BITCOUNT - 1) / _BITCOUNT in
  w ← rd (Buffer bm) Buf;
  let Value := shl32 (Z.shiftr (f w) BitPos) BitPos in
  '(Value, Buf) ← skip_words f (Buffer bm) (Z.to_nat (MaxBuffer - (Buf + 1))) (Buf + 1) Value;
  if Value =? 0 then Some MaxLength else
  let BitPos := BitScanForward Value in
  let Length := u32 (Buf * _BITCOUNT - StartingIndex) in
  let Length := u32 (Length + u32 (BitPos - _BITCOUNT)) in
  if u32 (SizeOfBitMap bm - StartingIndex) <? Length
  then Some (u32 (SizeOfBitMap bm - StartingIndex))
  else Some Length.

Definition RtlpGetLengthOfRunClear (bm : RTL_BITMAP) (StartingIndex MaxLength : Z)
  : option Z := get_length_of_run (fun w => w) bm StartingIndex MaxLength.

Definition RtlpGetLengthOfRunSet (bm : RTL_BITMAP) (StartingIndex MaxLength : Z)
  : option Z := get_length_of_run not32 bm StartingIndex MaxLength.

(** ** Single values *)

(** The i386 branches; [Value] is a 64 bit integer, the result a [CCHAR]. *)
Definition RtlFindMostSignificantBit (Value : Z) : Z :=
  let high := u32 (Z.shiftr Value _BITCOUNT) in
  let low := u32 Value in
  if negb (high =? 0) then BitScanReverse high + _BITCOUNT
  else if negb (low =? 0) then BitScanReverse low
  else -1.

Definition RtlFindLeastSignificantBit (Value : Z) : Z :=
  let high := u32 (Z.shiftr Value _BITCOUNT) in
  let low := u32 Value in
  if negb (low =? 0) then BitScanForward low
  else if negb (high =? 0) then BitScanForward high + _BITCOUNT
  else -1.

(** ** Setting and clearing *)

Definition RtlInitializeBitMap (BitMapBuffer : list Z) (Size : Z) : RTL_BITMAP :=
  mkBitmap Size BitMapBuffer.

Definition LengthInUlongs (bm : RTL_BITMAP) : Z :=
  u32 (SizeOfBitMap bm + _BITCOUNT - 1) / _BITCOUNT.

Definition RtlClearAllBits (bm : RTL_BITMAP) : option RTL_BITMAP :=
  b ← RtlFillMemoryUlong (Buffer bm) 0 (LengthInUlongs bm * 4) 0;
  Some (mkBitmap (SizeOfBitMap bm) b).

Definition RtlSetAllBits (bm : RTL_BITMAP) : option RTL_BITMAP :=
  b ← RtlFillMemoryUlong (Buffer bm) 0 (LengthInUlongs bm * 4) (not32 0);
  Some (mkBitmap (SizeOfBitMap bm) b).

Definition RtlClearBit (bm : RTL_BITMAP) (BitNumber : Z) : option RTL_BITMAP :=
  w ← rd (Buffer bm) (BitNumber / _BITCOUNT);
  b ← wr (Buffer bm) (BitNumber / _BITCOUNT)
         (Z.land w (not32 (shl32 1 (Z.land BitNumber (_BITCOUNT - 1)))));
  Some (mkBitmap (SizeOfBitMap bm) b).

Definition RtlSetBit (bm : RTL_BITMAP) (BitNumber : Z) : option RTL_BITMAP :=
  w ← rd (Buffer bm) (BitNumber / _BITCOUNT);
  b ← wr (Buffer bm) (BitNumber / _BITCOUNT)
         (Z.lor w (shl32 1 (Z.land BitNumber (_BITCOUNT - 1))));
  Some (mkBitmap (SizeOfBitMap bm) b).

(** The end of [RtlClearBits]: whole words from word [Buf], then what is left. *)
Definition clear_aligned (bm : RTL_BITMAP) (b : list Z) (Buf NumberToClear : Z)
  : option RTL_BITMAP :=
  b ← RtlFillMemoryUlong b Buf (Z.shiftr NumberToClear 3) 0;
  let Buf := Buf + NumberToClear / _BITCOUNT in
  let NumberToClear := Z.land NumberToClear (_BITCOUNT - 1) in
  if negb (NumberToClear =? 0) then
    let Mask := shl32 MAXINDEX NumberToClear in
    w ← rd b Buf;
    b ← wr b Buf (Z.land w Mask);
    Some (mkBitmap (SizeOfBitMap bm) b)
  else Some (mkBitmap (SizeOfBitMap bm) b).

Definition RtlClearBits (bm : RTL_BITMAP) (StartingIndex NumberToClear : Z)
  : option RTL_BITMAP :=
  let Buf := StartingIndex / _BITCOUNT in
  let Bits := Z.land StartingIndex (_BITCOUNT - 1) in
  if negb (Bits =? 0) then
    let Mask := shl32 MAXINDEX Bits in
    let Bits := _BITCOUNT - Bits in
    w ← rd (Buffer bm) Buf;
    if NumberToClear <? Bits then
      let Bits := Bits - NumberToClear in
      let Mask := Z.shiftr (shl32 Mask Bits) Bits in
      b ← wr (Buffer bm) Buf (Z.land w (not32 Mask));
      Some (mkBitmap (SizeOfBitMap bm) b)
    else
      b ← wr (Buffer bm) Buf (Z.land w (not32 Mask));
      clear_aligned bm b (Buf + 1) (NumberToClear - Bits)
  else clear_aligned bm (Buffer bm) Buf NumberToClear.

(** The end of [RtlSetBits]. *)
Definition set_aligned (bm : RTL_BITMAP) (b : list Z) (Buf NumberToSet : Z)
  : option RTL_BITMAP :=
  b ← RtlFillMemoryUlong b Buf (Z.shiftr NumberToSet 3) MAXINDEX;
  let Buf := Buf + NumberToSet / _BITCOUNT in
  let NumberToSet := Z.land NumberToSet (_BITCOUNT - 1) in
  if negb (NumberToSet =? 0) then
    let Mask := shl32 MAXINDEX NumberToSet in
    w ← rd b Buf;
    b ← wr b Buf (Z.lor w (not32 Mask));
    Some (mkBitmap (SizeOfBitMap bm) b)
  else Some (mkBitmap (SizeOfBitMap bm) b).

Definition RtlSetBits (bm : RTL_BITMAP) (StartingIndex NumberToSet : Z)
  : option RTL_BITMAP :=
  let Buf := StartingIndex / _BITCOUNT in
  let Bits := Z.land StartingIndex (_BITCOUNT - 1) in
  if negb (Bits =? 0) then
    let Mask := shl32 MAXINDEX Bits in
    let Bits := _BITCOUNT - Bits in
    w ← rd (Buffer bm) Buf;
    if NumberToSet <? Bits then
      let Bits := Bits - NumberToSet in
      let Mask := Z.shiftr (shl32 Mask Bits) Bits in
      b ← wr (Buffer bm) Buf (Z.lor w Mask);
      Some (mkBitmap (SizeOfBitMap bm) b)
    else
      b ← wr (Buffer bm) Buf (Z.lor w Mask);
      set_aligned bm b (Buf + 1) (NumberToSet - Bits)
  else set_aligned bm (Buffer bm) Buf NumberToSet.

(** ** Queries *)

Definition RtlTestBit (bm : RTL_BITMAP) (BitNumber : Z) : option bool :=
  w ← rd (Buffer bm) (BitNumber / _BITCOUNT);
  Some (negb (Z.land (Z.shiftr w (Z.land BitNumber (_BITCOUNT - 1))) 1 =? 0)).

Definition RtlAreBitsClear (bm : RTL_BITMAP) (StartingIndex Length : Z) : option bool :=
  if (SizeOfBitMap bm <? u32 (StartingIndex + Length)) ||
     (u32 (StartingIndex + Length) <=? StartingIndex)
  then Some false
  else n ← RtlpGetLengthOfRunClear bm StartingIndex Length; Some (Length <=? n).

Definition RtlAreBitsSet (bm : RTL_BITMAP) (StartingIndex Length : Z) : option bool :=
  if (SizeOfBitMap bm <? u32 (StartingIndex + Length)) ||
     (u32 (StartingIndex + Length) <=? StartingIndex)
  then Some false
  else n ← RtlpGetLengthOfRunSet bm StartingIndex Length; Some (Length <=? n).

(** Number of set bits per byte value *)
Definition BitCountTable : list Z :=
  [ 0; 1; 1; 2; 1; 2; 2; 3; 1; 2; 2; 3; 2; 3; 3; 4;
    1; 2; 2; 3; 2; 3; 3; 4; 2; 3; 3; 4; 3; 4; 4; 5;
    1; 2; 2; 3; 2; 3; 3; 4; 2; 3; 3; 4; 3; 4; 4; 5;
    2; 3; 3; 4; 3; 4; 4; 5; 3; 4; 4; 5; 4; 5; 5; 6;
    1; 2; 2; 3; 2; 3; 3; 4; 2; 3; 3; 4; 3; 4; 4; 5;
    2; 3; 3; 4; 3; 4; 4; 5; 3; 4; 4; 5; 4; 5; 5; 6;
    2; 3; 3; 4; 3; 4; 4; 5; 3; 4; 4; 5; 4; 5; 5; 6;
    3; 4; 4; 5; 4; 5; 5; 6; 4; 5; 5; 6; 5; 6; 6; 7;
    1; 2; 2; 3; 2; 3; 3; 4; 2; 3; 3; 4; 3; 4; 4; 5;
    2; 3; 3; 4; 3; 4; 4; 5; 3; 4; 4; 5; 4; 5; 5; 6;
    2; 3; 3; 4; 3; 4; 4; 5; 3; 4; 4; 5; 4; 5; 5; 6;
    3; 4; 4; 5; 4; 5; 5; 6; 4; 5; 5; 6; 5; 6; 6; 7;
    2; 3; 3; 4; 3; 4; 4; 5; 3; 4; 4; 5; 4; 5; 5; 6;
    3; 4; 4; 5; 4; 5; 5; 6; 4; 5; 5; 6; 5; 6; 6; 7;
    3; 4; 4; 5; 4; 5; 5; 6; 4; 5; 5; 6; 5; 6; 6; 7;
    4; 5; 5; 6; 5; 6; 6; 7; 5; 6; 6; 7; 6; 7; 7; 8 ].

(** The buffer seen as bytes, little endian. *)
Definition rd_byte (b : list Z) (k : Z) : option Z :=
  w ← rd b (k / 4); Some (u8 (Z.shiftr w (8 * (k mod 4)))).

Fixpoint count_bytes (b : list Z) (n : nat) (Byte BitCount : Z) : option Z :=
  match n with
  | O => Some BitCount
  | S n' =>
      v ← rd_byte b Byte;
      c ← rd BitCountTable v;
      count_bytes b n' (Byte + 1) (u32 (BitCount + c))
  end.

Definition RtlNumberOfSetBits (bm : RTL_BITMAP) : option Z :=
  let MaxByte := SizeOfBitMap bm / 8 in
  BitCount ← count_bytes (Buffer bm) (Z.to_nat MaxByte) 0 0;
  if negb (Z.land (SizeOfBitMap bm) 7 =? 0) then
    let Shift := 8 - Z.land (SizeOfBitMap bm) 7 in
    v ← rd_byte (Buffer bm) MaxByte;
    c ← rd BitCountTable (Z.land (Z.shiftl v Shift) 255);
    Some (u32 (BitCount + c))
  else Some BitCount.

Definition RtlNumberOfClearBits (bm : RTL_BITMAP) : option Z :=
  n ← RtlNumberOfSetBits bm; Some (u32 (SizeOfBitMap bm - n)).

(** ** Searching *)

(** The loop of [RtlFindClearBits] and [RtlFindSetBits].  [skip] measures the
    run of unwanted bits, [take] the run of wanted ones, [more] is the loop's
    comparison with [Margin].  [Some None] is the loop's normal end. *)
Fixpoint find_loop (skip take : Z -> Z -> option Z) (more : Z -> Z -> bool)
    (fuel : nat) (CurrentBit NumberToFind Margin : Z) : option (option Z) :=
  match fuel with
  | O => None
  | S fuel' =>
      if more (u32 (CurrentBit + NumberToFind)) Margin then
        n ← skip CurrentBit MAXINDEX;
        let CurrentBit := u32 (CurrentBit + n) in
        CurrentLength ← take CurrentBit NumberToFind;
        if NumberToFind <=? CurrentLength then Some (Some CurrentBit)
        else find_loop skip take more fuel' (u32 (CurrentBit + CurrentLength))
               NumberToFind Margin
      else Some None
  end.

Definition find_fuel (bm : RTL_BITMAP) : nat := S (Z.to_nat (SizeOfBitMap bm)).

(** The body shared by the two functions; [goto retry] is the second pass. *)
Definition find_bits (skip take : Z -> Z -> option Z) (more : Z -> Z -> bool)
    (bm : RTL_BITMAP) (NumberToFind HintIndex : Z) : option Z :=
  if SizeOfBitMap bm <? NumberToFind then Some MAXINDEX else
  let HintIndex := if SizeOfBitMap bm <=? HintIndex then 0 else HintIndex in
  if NumberToFind =? 0 then Some (Z.land HintIndex (not32 7)) else
  r ← find_loop skip take more (find_fuel bm) HintIndex NumberToFind (SizeOfBitMap bm);
  match r with
  | Some pos => Some pos
  | None =>
      if negb (HintIndex =? 0) then
        let Margin := Z.min (u32 (HintIndex + NumberToFind)) (SizeOfBitMap bm) in
        r ← find_loop skip take more (find_fuel bm) 0 NumberToFind Margin;
        match r with
        | Some pos => Some pos
        | None => Some MAXINDEX
        end
      else Some MAXINDEX
  end.

Definition RtlFindClearBits (bm : RTL_BITMAP) (NumberToFind HintIndex : Z) : option Z :=
  find_bits (RtlpGetLengthOfRunSet bm) (RtlpGetLengthOfRunClear bm) Z.ltb
    bm NumberToFind HintIndex.

Definition RtlFindSetBits (bm : RTL_BITMAP) (NumberToFind HintIndex : Z) : option Z :=
  find_bits (RtlpGetLengthOfRunClear bm) (RtlpGetLengthOfRunSet bm) Z.leb
    bm NumberToFind HintIndex.

Definition RtlFindClearBitsAndSet (bm : RTL_BITMAP) (NumberToFind HintIndex : Z)
  : option (Z * RTL_BITMAP) :=
  Position ← RtlFindClearBits bm NumberToFind HintIndex;
  if negb (Position =? MAXINDEX) then
    bm' ← RtlSetBits bm Position NumberToFind; Some (Position, bm')
  else Some (Position, bm).

Definition RtlFindSetBitsAndClear (bm : RTL_BITMAP) (NumberToFind HintIndex : Z)
  : option (Z * RTL_BITMAP) :=
  Position ← RtlFindSetBits bm NumberToFind HintIndex;
  if negb (Position =? MAXINDEX) then
    bm' ← RtlClearBits bm Position NumberToFind; Some (Position, bm')
  else Some (Position, bm).

(** The functions that report a run return its length and the run's first bit
    (the out parameter). *)
Definition RtlFindNextForwardRunClear (bm : RTL_BITMAP) (FromIndex : Z) : option (Z * Z) :=
  if SizeOfBitMap bm <=? FromIndex then Some (0, FromIndex) else
  Length ← RtlpGetLengthOfRunSet bm FromIndex MAXINDEX;
  let StartingRunIndex := u32 (FromIndex + Length) in
  n ← RtlpGetLengthOfRunClear bm (u32 (FromIndex + Length)) MAXINDEX;
  Some (n, StartingRunIndex).

Definition RtlFindNextForwardRunSet (bm : RTL_BITMAP) (FromIndex : Z) : option (Z * Z) :=
  if SizeOfBitMap bm <=? FromIndex then Some (0, FromIndex) else
  Length ← RtlpGetLengthOfRunClear bm FromIndex MAXINDEX;
  let StartingRunIndex := u32 (FromIndex + Length) in
  n ← RtlpGetLengthOfRunSet bm (u32 (FromIndex + Length)) MAXINDEX;
  Some (n, StartingRunIndex).

Definition RtlFindFirstRunClear (bm : RTL_BITMAP) : option (Z * Z) :=
  RtlFindNextForwardRunClear bm 0.

(** The two downward loops of [RtlFindLastBackwardRunClear]; [Buf] is the index
    the pointer [Buffer] has after the [--].  The first gives up ([Some None])
    below the first word, the second stops there with [Value = 0]. *)
Fixpoint skip_set_down (b : list Z) (fuel : nat) (Buf InvValue : Z)
  : option (option (Z * Z)) :=
  if InvValue =? 0 then
    if Buf <? 0 then Some None else
    match fuel with
    | O => None
    | S fuel' => w ← rd b Buf; skip_set_down b fuel' (Buf - 1) (not32 w)
    end
  else Some (Some (InvValue, Buf)).

Fixpoint skip_clear_down (b : list Z) (fuel : nat) (Buf Value : Z) : option (Z * Z) :=
  if (Value =? 0) && (0 <=? Buf) then
    match fuel with
    | O => None
    | S fuel' => w ← rd b Buf; skip_clear_down b fuel' (Buf - 1) w
    end
  else Some (Value, Buf).

(** Returns the length and, where the function writes it, [*StartingRunIndex]. *)
Definition RtlFindLastBackwardRunClear (bm : RTL_BITMAP) (FromIndex : Z)
  : option (Z * option Z) :=
  let FromIndex := Z.min FromIndex (u32 (SizeOfBitMap bm - 1)) in
  let Buf := FromIndex / _BITCOUNT in
  let BitPos := (_BITCOUNT - 1) - Z.land FromIndex (_BITCOUNT - 1) in
  w ← rd (Buffer bm) Buf;
  let InvValue := Z.shiftr (shl32 (not32 w) BitPos) BitPos in
  r ← skip_set_down (Buffer bm) (length (Buffer bm)) (Buf - 1) InvValue;
  match r with
  | None => Some (0, None)
  | Some (InvValue, Buf) =>
      let BitPos := BitScanReverse InvValue in
      let FromIndex := u32 ((Buf + 1) * _BITCOUNT + BitPos) in
      let sh := (_BITCOUNT - 1) - BitPos in
      let Value := Z.shiftr (shl32 (not32 InvValue) sh) sh in
      '(Value, Buf) ← skip_clear_down (Buffer bm) (length (Buffer bm)) Buf Value;
      let StartingRunIndex :=
        if negb (Value =? 0)
        then u32 ((Buf + 1) * _BITCOUNT + BitScanReverse Value + 1)
        else 0 in
      Some (u32 (FromIndex - StartingRunIndex), Some StartingRunIndex)
  end.

(** [RunArray] entries are pairs (StartingIndex, NumberOfBits). *)
Record RTL_BITMAP_RUN := mkRun { StartingIndex : Z; NumberOfBits : Z }.

(** First loop of [RtlFindClearRuns]: fills [RunArray] from entry [Run] on.
    Returns the array, [Run], [FromIndex] and [SmallestRun]. *)
Fixpoint first_runs (bm : RTL_BITMAP) (n : nat) (RunArray : list RTL_BITMAP_RUN)
    (Run FromIndex SmallestRun : Z)
  : option (list RTL_BITMAP_RUN * Z * Z * Z) :=
  match n with
  | O => Some (RunArray, Run, FromIndex, SmallestRun)
  | S n' =>
      '(Bits, Start) ← RtlFindNextForwardRunClear bm FromIndex;
      if Bits =? 0 then Some (RunArray, Run, FromIndex, SmallestRun) else
      RunArray ← wr RunArray Run (mkRun Start Bits);
      e ← rd RunArray SmallestRun;
      let SmallestRun := if Bits <? NumberOfBits e then Run else SmallestRun in
      first_runs bm n' RunArray (Run + 1) (u32 (Start + Bits)) SmallestRun
  end.

(** The inner [for] of the second loop: entries [Run ..] of the array. *)
Fixpoint new_smallest (n : nat) (RunArray : list RTL_BITMAP_RUN)
    (Run Bits SmallestRun : Z) : option Z :=
  match n with
  | O => Some SmallestRun
  | S n' =>
      e ← rd RunArray SmallestRun;
      let SmallestRun := if Bits <? NumberOfBits e then Run else SmallestRun in
      new_smallest n' RunArray (Run + 1) Bits SmallestRun
  end.

(** Second loop: keeps the longest runs. *)
Fixpoint longest_runs (bm : RTL_BITMAP) (fuel : nat) (SizeOfRunArray : Z)
    (RunArray : list RTL_BITMAP_RUN) (FromIndex SmallestRun : Z)
  : option (list RTL_BITMAP_RUN) :=
  match fuel with
  | O => None
  | S fuel' =>
      '(Bits, Start) ← RtlFindNextForwardRunClear bm FromIndex;
      if Bits =? 0 then Some RunArray else
      e ← rd RunArray SmallestRun;
      if NumberOfBits e <? Bits then
        RunArray ← wr RunArray SmallestRun (mkRun Start Bits);
        SmallestRun ← new_smallest (Z.to_nat SizeOfRunArray) RunArray 0 Bits SmallestRun;
        longest_runs bm fuel' SizeOfRunArray RunArray (u32 (FromIndex + Bits)) SmallestRun
      else longest_runs bm fuel' SizeOfRunArray RunArray (u32 (FromIndex + Bits)) SmallestRun
  end.

Definition RtlFindClearRuns (bm : RTL_BITMAP) (RunArray : list RTL_BITMAP_RUN)
    (SizeOfRunArray : Z) (LocateLongestRuns : bool)
  : option (Z * list RTL_BITMAP_RUN) :=
  '(RunArray, Run, FromIndex, SmallestRun)
    ← first_runs bm (Z.to_nat SizeOfRunArray) RunArray 0 0 0;
  if (Run <? SizeOfRunArray) || negb LocateLongestRuns then Some (Run, RunArray) else
  RunArray ← longest_runs bm (find_fuel bm) SizeOfRunArray RunArray FromIndex SmallestRun;
  Some (Run, RunArray).

(** The loop of the two longest-run functions, [next] being the run finder. *)
Fixpoint longest_loop (next : Z -> option (Z * Z)) (fuel : nat)
    (FromIndex MaxNumberOfBits StartIdx : Z) : option (Z * Z) :=
  match fuel with
  | O => None
  | S fuel' =>
      '(Bits, Index) ← next FromIndex;
      if Bits =? 0 then Some (MaxNumberOfBits, StartIdx) else
      let longer := MaxNumberOfBits <? Bits in
      longest_loop next fuel' (u32 (FromIndex + Bits))
        (if longer then Bits else MaxNumberOfBits) (if longer then Index else StartIdx)
  end.

(** [StartIdx] is the value [*StartingIndex] holds at the call. *)
Definition RtlFindLongestRunClear (bm : RTL_BITMAP) (StartIdx : Z) : option (Z * Z) :=
  longest_loop (RtlFindNextForwardRunClear bm) (find_fuel bm) 0 0 StartIdx.

Definition RtlFindLongestRunSet (bm : RTL_BITMAP) (StartIdx : Z) : option (Z * Z) :=
  longest_loop (RtlFindNextForwardRunSet bm) (find_fuel bm) 0 0 StartIdx.

(** * Correctness *)

(** ** The abstract bitmap: bit [i] of the buffer *)

Definition word (b : list Z) (j : Z) : Z := b !!! Z.to_nat j.

Definition bit (b : list Z) (i : Z) : bool := Z.testbit (word b (i / 32)) (i mod 32).

Definition words_ok (b : list Z) : Prop := Forall (fun w => 0 <= w < 2 ^ 32) b.

(** A well-formed bitmap: 32 bit words, enough of them for [SizeOfBitMap]; the
    size leaves room for the rounding in [RtlpGetLengthOfRunClear]. *)
Class bitmap_ok (bm : RTL_BITMAP) : Prop := {
  ok_size : 0 <= SizeOfBitMap bm <= 2 ^ 32 - 64;
  ok_words : words_ok (Buffer bm);
  ok_length : SizeOfBitMap bm <= 32 * Z.of_nat (length (Buffer bm))
}.

(** Bits [p .. p + n - 1] all have the value [v]. *)
Definition all_bits (v : bool) (b : list Z) (p n : Z) : Prop :=
  forall i, p <= i < p + n -> bit b i = v.

(** What measuring runs of bits of value [v] promises its callers. *)
Class MeasuresRun (v : bool) (bm : RTL_BITMAP) (run : Z -> Z -> option Z) : Prop := {
  run_end : forall S M, SizeOfBitMap bm <= S -> run S M = Some 0;
  run_in : forall S M, 0 <= S < SizeOfBitMap bm -> 0 <= M ->
    exists L, run S M = Some L /\ 0 <= L <= SizeOfBitMap bm - S /\
      all_bits v (Buffer bm) S L /\
      (L < Z.min M (SizeOfBitMap bm - S) -> bit (Buffer bm) (S + L) = negb v)
}.

Lemma rd_in (b : list Z) j :
  0 <= j < Z.of_nat (length b) -> rd b j = Some (word b j).
Proof.
  intros Hj. unfold rd, word. destruct (Z.ltb_spec j 0); [lia|].
  apply list_lookup_lookup_total_lt. lia.
Qed.

Lemma word_range b j : words_ok b -> 0 <= word b j < 2 ^ 32.
Proof.
  intros Hb. unfold word. destruct (decide (Z.to_nat j < length b)%nat) as [Hlt|Hge].
  - apply list_lookup_lookup_total_lt in Hlt.
    eapply Forall_lookup_1 in Hb; eauto.
  - rewrite list_lookup_total_alt, lookup_ge_None_2 by lia. simpl. lia.
Qed.

Lemma bit_word b j k : 0 <= k < 32 -> bit b (32 * j + k) = Z.testbit (word b j) k.
Proof.
  intros Hk. unfold bit.
  replace ((32 * j + k) / 32) with j by (Z.div_mod_to_equations; lia).
  replace ((32 * j + k) mod 32) with k by (Z.div_mod_to_equations; lia).
  reflexivity.
Qed.

Section runs.
Context (f : Z -> Z) (neg : bool).
Hypothesis f_range : forall w, 0 <= w < 2 ^ 32 -> 0 <= f w < 2 ^ 32.
Hypothesis f_bit : forall w k, 0 <= w < 2 ^ 32 -> 0 <= k < 32 ->
  Z.testbit (f w) k = xorb neg (Z.testbit w k).

(** Bit [i] ends the run. *)
Definition stop (b : list Z) (i : Z) : bool := xorb neg (bit b i).

Lemma stop_word b j k :
  words_ok b -> 0 <= k < 32 -> stop b (32 * j + k) = Z.testbit (f (word b j)) k.
Proof.
  intros Hb Hk. unfold stop. rewrite bit_word by lia.
  rewrite f_bit by (auto using word_range). reflexivity.
Qed.

Lemma skip_words_spec b n : forall Buf Value,
  0 <= Buf -> Buf + Z.of_nat n <= Z.of_nat (length b) ->
  exists V B', skip_words f b n Buf Value = Some (V, B') /\
    Buf <= B' <= Buf + Z.of_nat n /\
    (V = 0 -> B' = Buf + Z.of_nat n /\ Value = 0) /\
    (B' = Buf -> V = Value) /\
    (Buf < B' -> V = f (word b (B' - 1)) /\ Value = 0) /\
    (forall j, Buf <= j < B' - 1 -> f (word b j) = 0).
Proof.
  induction n as [|n IH]; intros Buf Value HB Hn; simpl.
  - exists Value, Buf.
    split_and!; try lia; destruct (Z.eqb_spec Value 0); auto; lia.
  - destruct (Z.eqb_spec Value 0) as [->|Hne].
    2:{ exists Value, Buf. split_and!; auto; lia. }
    rewrite rd_in by lia. simpl.
    destruct (IH (Buf + 1) (f (word b Buf))) as (V & B' & -> & Hr & H0 & Hsame & Hgt & Hz);
      [lia|lia|].
    exists V, B'. split_and!; try done; try lia.
    + intros Hlt. split; [|done].
      destruct (Z.eq_dec B' (Buf + 1)) as [->|Hne].
      * rewrite Hsame by done. f_equal. f_equal. lia.
      * apply Hgt. lia.
    + intros j Hj. destruct (Z.eq_dec j Buf) as [->|]; [|apply Hz; lia].
      destruct Hgt as [_ ->]; [lia|done].
Qed.

Lemma first_word_testbit w p k :
  0 <= w < 2 ^ 32 -> 0 <= p < 32 -> 0 <= k ->
  Z.testbit (shl32 (Z.shiftr w p) p) k = (k <? 32) && (p <=? k) && Z.testbit w k.
Proof.
  intros Hw Hp Hk. rewrite shl32_testbit by lia.
  destruct (Z.leb_spec p k).
  - rewrite Z.shiftr_spec by lia. replace (k - p + p) with k by lia. by rewrite andb_true_r.
  - rewrite Z.testbit_neg_r by lia. by rewrite andb_false_r.
Qed.

Lemma ctz_spec V :
  0 < V < 2 ^ 32 ->
  0 <= BitScanForward V < 32 /\ Z.testbit V (BitScanForward V) = true /\
  (forall k, 0 <= k < BitScanForward V -> Z.testbit V k = false).
Proof.
  intros HV. destruct V as [|p|p]; try lia. simpl BitScanForward.
  destruct (pos_ctz_spec p) as [H1 H2]. pose proof (pos_ctz_nonneg p).
  split_and!; auto. destruct (Z.lt_ge_cases (pos_ctz p) 32); [done|].
  rewrite (testbit_high _ 32) in H1 by lia. done.
Qed.

(** Words as bits: scanning from bit [p] of word [q] over at most [n] further
    words ends at a word [V] (index [B' - 1]) that holds the bits from [32 q + p]
    on as they are in the buffer, no stop bit lying before it. *)
Lemma scan_spec b q p n :
  words_ok b -> 0 <= q -> 0 <= p < 32 -> q + 1 + Z.of_nat n <= Z.of_nat (length b) ->
  exists V B',
    skip_words f b n (q + 1) (shl32 (Z.shiftr (f (word b q)) p) p) = Some (V, B') /\
    q + 1 <= B' <= q + 1 + Z.of_nat n /\ 0 <= V < 2 ^ 32 /\
    (V = 0 -> B' = q + 1 + Z.of_nat n) /\
    (forall k, 0 <= k < 32 -> Z.testbit V k = true -> 32 * q + p <= 32 * (B' - 1) + k) /\
    (forall k, 0 <= k < 32 -> 32 * q + p <= 32 * (B' - 1) + k ->
       Z.testbit V k = stop b (32 * (B' - 1) + k)) /\
    (forall i, 32 * q + p <= i < 32 * (B' - 1) -> stop b i = false).
Proof.
  intros Hw Hq Hp Hn. set (V0 := shl32 _ p).
  assert (Hfw : forall j, 0 <= f (word b j) < 2 ^ 32) by (auto using word_range).
  pose proof (fun k => first_word_testbit (f (word b q)) p k (Hfw q) Hp) as HV0. fold V0 in HV0.
  destruct (skip_words_spec b n (q + 1) V0) as (V & B' & -> & Hr & H0 & Hsame & Hgt & Hz);
    [lia|lia|].
  exists V, B'. split_and!; try done; try lia.
  - destruct (Z.eq_dec B' (q + 1)); [rewrite Hsame by done; apply u32_range|].
    destruct Hgt as [-> _]; [lia|apply Hfw].
  - destruct (Z.eq_dec B' (q + 1)); [rewrite Hsame by done; apply u32_range|].
    destruct Hgt as [-> _]; [lia|apply Hfw].
  - intros k Hk Ht. destruct (Z.eq_dec B' (q + 1)) as [E|E]; [|lia].
    rewrite Hsame, HV0, !andb_true_iff, Z.leb_le in Ht by (done || lia). lia.
  - intros k Hk HSk. destruct (Z.eq_dec B' (q + 1)) as [E|E].
    + rewrite Hsame by done. rewrite E in *. replace (q + 1 - 1) with q in * by lia.
      rewrite HV0, stop_word by (auto; lia).
      rewrite (proj2 (Z.ltb_lt k 32)), (proj2 (Z.leb_le p k)) by lia. done.
    + destruct Hgt as [-> _]; [lia|]. by rewrite stop_word.
  - intros i Hi. assert (Hdm : i = 32 * (i / 32) + i mod 32 /\ 0 <= i mod 32 < 32)
      by (Z.div_mod_to_equations; lia).
    set (j := i / 32) in *. set (k := i mod 32) in *. destruct Hdm as [Hdm Hk].
    rewrite Hdm, stop_word by auto. destruct (Z.eq_dec j q) as [->|Hne].
    + destruct Hgt as [_ E]; [lia|]. specialize (HV0 k). rewrite E, Z.bits_0 in HV0.
      rewrite (proj2 (Z.ltb_lt k 32)), (proj2 (Z.leb_le p k)) in HV0 by lia.
      symmetry. apply HV0. lia.
    + rewrite Hz by lia. apply Z.bits_0.
Qed.

(** The length returned: the bits of the run are not stop bits, it stays inside
    the bitmap, and if it is shorter than asked for then a stop bit follows. *)
Lemma get_length_of_run_spec bm S M :
  bitmap_ok bm -> 0 <= S < SizeOfBitMap bm -> 0 <= M ->
  exists L, get_length_of_run f bm S M = Some L /\
    0 <= L <= SizeOfBitMap bm - S /\
    (forall i, S <= i < S + L -> stop (Buffer bm) i = false) /\
    (L < Z.min M (SizeOfBitMap bm - S) -> stop (Buffer bm) (S + L) = true).
Proof.
  intros [Hsz Hw Hlen] HS HM. unfold get_length_of_run, _BITCOUNT.
  set (b := Buffer bm) in *. set (Size := SizeOfBitMap bm) in *.
  destruct (Z.leb_spec Size S); [lia|].
  rewrite land_31, (u32_small (Size - S)) by lia.
  assert (Hpq : S = 32 * (S / 32) + S mod 32 /\ 0 <= S mod 32 < 32 /\ 0 <= S / 32)
    by (Z.div_mod_to_equations; lia).
  set (p := S mod 32) in *. set (q := S / 32) in *.
  set (M' := Z.min M (Size - S)). rewrite (u32_small (p + M' + 32 - 1)) by lia.
  set (K := (p + M' + 32 - 1) / 32).
  assert (HK : 32 * K <= p + M' + 31 < 32 * K + 32) by (subst K; Z.div_mod_to_equations; lia).
  rewrite rd_in by lia. simpl.
  destruct (scan_spec b q p (Z.to_nat (q + K - (q + 1))))
    as (V & B' & -> & Hr & HVr & H0 & Hlow & HVb & Hbefore); [done|lia|lia|lia|]. simpl.
  rewrite <- (proj1 Hpq) in *.
  destruct (Z.eqb_spec V 0) as [EV|NV].
  - exists M'. specialize (H0 EV). split_and!; [done|lia|lia| |lia].
    intros i Hi. destruct (Z.lt_ge_cases i (32 * (B' - 1))); [apply Hbefore; lia|].
    replace i with (32 * (B' - 1) + (i - 32 * (B' - 1))) by lia.
    rewrite <- HVb, EV by lia. apply Z.bits_0.
  - destruct (ctz_spec V) as (Hc & Hct & Hcl); [lia|].
    set (c := BitScanForward V) in *. specialize (Hlow c Hc Hct).
    replace (u32 (u32 (B' * 32 - S) + u32 (c - 32))) with (32 * (B' - 1) + c - S)
      by (unfold u32; rewrite <- Z.add_mod, Z.mod_small; lia).
    set (P := 32 * (B' - 1) + c) in *.
    assert (Hno : forall i, S <= i < P -> stop b i = false).
    { intros i Hi. destruct (Z.lt_ge_cases i (32 * (B' - 1))); [apply Hbefore; lia|].
      replace i with (32 * (B' - 1) + (i - 32 * (B' - 1))) by lia.
      rewrite <- HVb by lia. apply Hcl. lia. }
    destruct (Z.ltb_spec (Size - S) (P - S)).
    + exists (Size - S). split_and!; [done|lia|lia| |lia]. intros. apply Hno. lia.
    + exists (P - S). replace (S + (P - S)) with P by lia.
      split_and!; [done|lia|lia|done|]. intros _. unfold P. rewrite <- HVb; [done|lia|lia].
Qed.

Lemma get_length_of_run_measures bm :
  bitmap_ok bm -> MeasuresRun neg bm (get_length_of_run f bm).
Proof.
  intros Hok. split.
  - intros S M HS. unfold get_length_of_run. by rewrite (proj2 (Z.leb_le _ _)).
  - intros S M HS HM.
    destruct (get_length_of_run_spec bm S M) as (L & -> & HL & Hb & He); auto.
    exists L. unfold stop in *. split_and!; try done; try lia.
    + intros i Hi. specialize (Hb i Hi). by destruct neg, (bit (Buffer bm) i).
    + intros Hlt. specialize (He Hlt). by destruct neg, (bit (Buffer bm) (S + L)).
Qed.
End runs.

(** ** The run lengths of the two kinds *)

#[export] Instance measures_clear bm :
  bitmap_ok bm -> MeasuresRun false bm (RtlpGetLengthOfRunClear bm).
Proof.
  intros Hok. by apply get_length_of_run_measures.
Qed.

#[export] Instance measures_set bm :
  bitmap_ok bm -> MeasuresRun true bm (RtlpGetLengthOfRunSet bm).
Proof.
  intros Hok. apply get_length_of_run_measures; auto using not32_range.
  intros. rewrite not32_testbit by auto. by destruct (Z.testbit w k).
Qed.

(** ** Clients of the run lengths *)

Section clients.
Context (v : bool) (bm : RTL_BITMAP) (run : Z -> Z -> option Z).
Context `{Hrun : !MeasuresRun v bm run}.

(** A run of [n] bits is measured as at least [n] exactly when it is one. *)
Lemma run_covers S n :
  0 <= S -> 0 < n -> S + n <= SizeOfBitMap bm ->
  exists L, run S n = Some L /\ ((n <=? L) = true <-> all_bits v (Buffer bm) S n).
Proof.
  intros HS Hn Hfit. destruct (run_in S n) as (L & E & HL & Hb & He); [lia|lia|].
  exists L. split; [done|]. rewrite Z.leb_le. split.
  - intros Hle i Hi. apply Hb. lia.
  - intros Hall. destruct (Z.lt_ge_cases L n) as [Hlt|]; [|lia].
    rewrite (Hall (S + L)) in He by lia. specialize (He ltac:(lia)).
    by destruct v.
Qed.

(** Asked for the longest possible length the measurement is exact. *)
Lemma run_exact S :
  0 <= S < SizeOfBitMap bm -> SizeOfBitMap bm <= MAXINDEX ->
  exists L, run S MAXINDEX = Some L /\ 0 <= L <= SizeOfBitMap bm - S /\
    all_bits v (Buffer bm) S L /\
    (S + L < SizeOfBitMap bm -> bit (Buffer bm) (S + L) = negb v).
Proof.
  intros HS Hm. destruct (run_in S MAXINDEX) as (L & E & HL & Hb & He); [lia|unfold MAXINDEX; lia|].
  exists L. split_and!; auto; try lia. intros. apply He. lia.
Qed.
End clients.

(** The two tests share their text too. *)
Lemma are_bits_spec v bm run S n `{!MeasuresRun v bm run} :
  SizeOfBitMap bm < 2 ^ 32 -> 0 <= S < 2 ^ 32 -> 0 <= n < 2 ^ 32 ->
  exists r,
    (if (SizeOfBitMap bm <? u32 (S + n)) || (u32 (S + n) <=? S) then Some false
     else (L ← run S n; Some (n <=? L))) = Some r /\
    (r = true <-> 0 < n /\ S + n <= SizeOfBitMap bm /\ all_bits v (Buffer bm) S n).
Proof.
  intros Hsz HS Hn. destruct (Z.lt_ge_cases (S + n) (2 ^ 32)) as [Hsm|Hbig].
  - rewrite u32_small by lia.
    destruct (Z.ltb_spec (SizeOfBitMap bm) (S + n)); simpl;
      [exists false; split; [done|]; split; [done|lia]|].
    destruct (Z.leb_spec (S + n) S); [exists false; split; [done|]; split; [done|lia]|].
    destruct (run_covers v bm run S n) as (L & -> & HL); [lia|lia|lia|].
    simpl. eexists; split; [done|]. rewrite HL. intuition lia.
  - assert (E : u32 (S + n) = S + n - 2 ^ 32).
    { unfold u32. rewrite <- (Z.mod_small (S + n - 2 ^ 32) (2 ^ 32)) by lia.
      symmetry. rewrite <- (Z.mod_add (S + n - 2 ^ 32) 1) by lia. f_equal. lia. }
    rewrite E, (proj2 (Z.leb_le (S + n - 2 ^ 32) S)) by lia. rewrite orb_true_r.
    exists false. split; [done|]. split; [done|lia].
Qed.

(** ** Updates *)

(** [b'] is [b] with bits [S .. S + n - 1] given the value [v]. *)
Record updated (v : bool) (b b' : list Z) (S n : Z) : Prop := {
  upd_length : length b' = length b;
  upd_words : words_ok b';
  upd_bit : forall i, 0 <= i ->
    bit b' i = if (S <=? i) && (i <? S + n) then v else bit b i
}.

Lemma updated_nil v b S : words_ok b -> updated v b b S 0.
Proof.
  intros Hb. split; auto. intros i Hi.
  case_cmp.
Qed.

Lemma updated_app v b b1 b2 S S' n1 n2 n :
  0 <= n1 -> 0 <= n2 -> updated v b b1 S n1 -> updated v b1 b2 S' n2 ->
  S' = S + n1 -> n = n1 + n2 -> updated v b b2 S n.
Proof.
  intros H1 H2 [L1 W1 U1] [L2 W2 U2] -> ->. split; [congruence|done|].
  intros i Hi. rewrite U2, U1 by lia.
  case_cmp.
Qed.

Lemma wr_in {A} (b : list A) j w :
  0 <= j < Z.of_nat (length b) -> wr b j w = Some (<[Z.to_nat j := w]> b).
Proof.
  intros Hj. unfold wr. rewrite (proj2 (Z.leb_le 0 j)), (proj2 (Z.ltb_lt j _)) by lia. done.
Qed.

Lemma word_insert b j w k :
  0 <= j < Z.of_nat (length b) -> 0 <= k ->
  word (<[Z.to_nat j := w]> b) k = if k =? j then w else word b k.
Proof.
  intros Hj Hk. unfold word. destruct (Z.eqb_spec k j) as [->|Hne].
  - apply list_lookup_total_insert_eq. lia.
  - apply list_lookup_total_insert_ne. lia.
Qed.

(** Changing bits [p .. p + m - 1] of one word. *)
Lemma updated_word v b j w p m :
  words_ok b -> 0 <= j < Z.of_nat (length b) -> 0 <= p -> 0 <= m -> p + m <= 32 ->
  0 <= w < 2 ^ 32 ->
  (forall k, 0 <= k < 32 -> Z.testbit w k =
     if (p <=? k) && (k <? p + m) then v else Z.testbit (word b j) k) ->
  updated v b (<[Z.to_nat j := w]> b) (32 * j + p) m.
Proof.
  intros Hb Hj Hp Hm Hpm Hw Hbits. split.
  - apply length_insert.
  - by apply Forall_insert.
  - intros i Hi.
    assert (Hdm : i = 32 * (i / 32) + i mod 32 /\ 0 <= i mod 32 < 32 /\ 0 <= i / 32)
      by (Z.div_mod_to_equations; lia).
    unfold bit at 1. rewrite word_insert by lia.
    destruct (Z.eqb_spec (i / 32) j) as [E|E].
    + rewrite Hbits by lia. unfold bit. rewrite E.
      case_cmp.
    + fold (bit b i). case_cmp.
Qed.

Lemma fill_words_updated (v : bool) b i n :
  words_ok b -> 0 <= i -> i + Z.of_nat n <= Z.of_nat (length b) ->
  exists b', fill_words b i n (if v then MAXINDEX else 0) = Some b' /\
    updated v b b' (32 * i) (32 * Z.of_nat n).
Proof.
  revert b i. induction n as [|n IH]; intros b i Hb Hi Hn; simpl fill_words.
  - exists b. split; [done|]. by apply updated_nil.
  - rewrite wr_in by lia. simpl.
    assert (Hu : updated v b (<[Z.to_nat i := if v then MAXINDEX else 0]> b) (32 * i + 0) 32).
    { apply updated_word; auto; try lia; unfold MAXINDEX.
      - destruct v; lia.
      - intros k Hk. rewrite (proj2 (Z.leb_le 0 k)), (proj2 (Z.ltb_lt k _)) by lia. simpl.
        destruct v; [|apply Z.bits_0]. rewrite testbit_max32 by lia. apply Z.ltb_lt; lia. }
    destruct (IH _ (i + 1) (upd_words _ _ _ _ _ Hu)) as (b' & -> & Hu'); [lia| |].
    { rewrite length_insert. lia. }
    exists b'. split; [done|]. replace (32 * i) with (32 * i + 0) by lia.
    eapply updated_app; [| |exact Hu|exact Hu'| |]; lia.
Qed.

(** The masks of [RtlSetBits] and [RtlClearBits]. *)
Lemma high_mask_testbit p k :
  0 <= p -> 0 <= k -> Z.testbit (shl32 MAXINDEX p) k = (k <? 32) && (p <=? k).
Proof.
  intros Hp Hk. rewrite shl32_testbit by lia. unfold MAXINDEX.
  destruct (Z.leb_spec p k).
  - rewrite testbit_max32 by lia. case_cmp.
  - rewrite Z.testbit_neg_r by lia. done.
Qed.

Lemma mid_mask_testbit p t k :
  0 <= p -> 0 <= t -> 0 <= k < 32 ->
  Z.testbit (Z.shiftr (shl32 (shl32 MAXINDEX p) t) t) k = (p <=? k) && (k <? 32 - t).
Proof.
  intros Hp Ht Hk. rewrite Z.shiftr_spec, shl32_testbit by lia.
  replace (k + t - t) with k by lia. rewrite high_mask_testbit by lia. case_cmp.
Qed.

Lemma mid_mask_range p t :
  0 <= t -> 0 <= Z.shiftr (shl32 (shl32 MAXINDEX p) t) t < 2 ^ 32.
Proof.
  intros Ht. pose proof (u32_range (Z.shiftl (shl32 MAXINDEX p) t)). fold (shl32 (shl32 MAXINDEX p) t) in *.
  rewrite Z.shiftr_div_pow2 by lia. split; [apply Z.div_pos; lia|].
  apply Z.div_lt_upper_bound; nia.
Qed.

Lemma shl32_range x n : 0 <= shl32 x n < 2 ^ 32.
Proof. apply u32_range. Qed.

(** Combining a word with a mask of the bits [p .. p + m - 1]. *)
Definition put (v : bool) (w mask : Z) : Z := if v then Z.lor w mask else Z.land w (not32 mask).

Lemma updated_put v b j mask p m :
  words_ok b -> 0 <= j < Z.of_nat (length b) -> 0 <= p -> 0 <= m -> p + m <= 32 ->
  0 <= mask < 2 ^ 32 ->
  (forall k, 0 <= k < 32 -> Z.testbit mask k = (p <=? k) && (k <? p + m)) ->
  updated v b (<[Z.to_nat j := put v (word b j) mask]> b) (32 * j + p) m.
Proof.
  intros Hb Hj Hp Hm Hpm Hmask Hbits. pose proof (word_range b j Hb).
  pose proof (not32_range mask Hmask).
  apply updated_word; auto; unfold put.
  - destruct v; [by apply lor_range|apply land_range; lia].
  - intros k Hk. destruct v.
    + rewrite Z.lor_spec, Hbits by lia. case_cmp; by rewrite ?orb_true_r, ?orb_false_r.
    + rewrite Z.land_spec, not32_testbit, Hbits by lia.
      case_cmp; by rewrite ?andb_true_r, ?andb_false_r.
Qed.

Lemma put_set w mask : Z.lor w mask = put true w mask.
Proof. done. Qed.

Lemma put_clear w mask : Z.land w mask = put false w (not32 mask).
Proof. unfold put, not32. f_equal. lia. Qed.

(** [RtlSetBits] and [RtlClearBits] as instances of one function of the value
    [v] given to the bits. *)
Definition put_aligned (v : bool) (bm : RTL_BITMAP) (b : list Z) (Buf n : Z)
  : option RTL_BITMAP :=
  b ← RtlFillMemoryUlong b Buf (Z.shiftr n 3) (if v then MAXINDEX else 0);
  let Buf := Buf + n / _BITCOUNT in
  let n := Z.land n (_BITCOUNT - 1) in
  if negb (n =? 0) then
    w ← rd b Buf;
    b ← wr b Buf (put v w (not32 (shl32 MAXINDEX n)));
    Some (mkBitmap (SizeOfBitMap bm) b)
  else Some (mkBitmap (SizeOfBitMap bm) b).

Lemma put_aligned_updated v bm b Buf n :
  words_ok b -> 0 <= Buf -> 0 <= n -> 32 * Buf + n <= 32 * Z.of_nat (length b) ->
  exists b', put_aligned v bm b Buf n = Some (mkBitmap (SizeOfBitMap bm) b') /\
    updated v b b' (32 * Buf) n.
Proof.
  intros Hb HB Hn Hfit. unfold put_aligned, RtlFillMemoryUlong, _BITCOUNT.
  rewrite Z.shiftr_div_pow2, Z.div_div by lia. change (2 ^ 3 * 4) with 32.
  rewrite land_31 by lia.
  assert (Hdm : n = 32 * (n / 32) + n mod 32 /\ 0 <= n mod 32 < 32 /\ 0 <= n / 32)
    by (Z.div_mod_to_equations; lia).
  destruct (fill_words_updated v b Buf (Z.to_nat (n / 32))) as (b1 & -> & Hu); [done|lia|lia|].
  simpl. rewrite Z2Nat.id in Hu by lia.
  pose proof (upd_words _ _ _ _ _ Hu) as Hw1. pose proof (upd_length _ _ _ _ _ Hu) as Hl1.
  destruct (Z.eqb_spec (n mod 32) 0) as [E|E]; simpl.
  - exists b1. split; [done|]. by replace n with (32 * (n / 32)) by lia.
  - rewrite rd_in by lia. simpl. rewrite wr_in by lia. simpl. eexists. split; [done|].
    eapply (updated_app _ _ _ _ _ (32 * (Buf + n / 32) + 0) _ (n mod 32));
      [| |exact Hu| | |]; try lia.
    apply updated_put; auto; try lia; [apply not32_range, shl32_range|].
    intros k Hk. rewrite not32_testbit by (lia || apply shl32_range).
    rewrite high_mask_testbit by lia. case_cmp.
Qed.

Definition put_bits (v : bool) (bm : RTL_BITMAP) (S n : Z) : option RTL_BITMAP :=
  let Buf := S / _BITCOUNT in
  let Bits := Z.land S (_BITCOUNT - 1) in
  if negb (Bits =? 0) then
    let Mask := shl32 MAXINDEX Bits in
    let Bits := _BITCOUNT - Bits in
    w ← rd (Buffer bm) Buf;
    if n <? Bits then
      let Bits := Bits - n in
      let Mask := Z.shiftr (shl32 Mask Bits) Bits in
      b ← wr (Buffer bm) Buf (put v w Mask);
      Some (mkBitmap (SizeOfBitMap bm) b)
    else
      b ← wr (Buffer bm) Buf (put v w Mask);
      put_aligned v bm b (Buf + 1) (n - Bits)
  else put_aligned v bm (Buffer bm) Buf n.

Lemma set_aligned_put bm b Buf n : set_aligned bm b Buf n = put_aligned true bm b Buf n.
Proof. done. Qed.

Lemma clear_aligned_put bm b Buf n : clear_aligned bm b Buf n = put_aligned false bm b Buf n.
Proof.
  unfold clear_aligned, put_aligned. destruct (RtlFillMemoryUlong _ _ _ _) as [b'|]; [|done].
  simpl. case_match; [|done]. destruct (rd b' _) as [w|]; [|done]. simpl. by rewrite put_clear.
Qed.

Lemma RtlSetBits_put bm S n : RtlSetBits bm S n = put_bits true bm S n.
Proof. done. Qed.

Lemma RtlClearBits_put bm S n : RtlClearBits bm S n = put_bits false bm S n.
Proof.
  unfold RtlClearBits, put_bits, put. case_match; [|by rewrite clear_aligned_put].
  destruct (rd _ _) as [w|]; [simpl|done]. case_match; [done|].
  destruct (wr _ _ _) as [b|]; [simpl|done]. apply clear_aligned_put.
Qed.

Lemma put_bits_updated v bm S n :
  words_ok (Buffer bm) -> 0 <= S -> 0 <= n -> S + n <= 32 * Z.of_nat (length (Buffer bm)) ->
  exists b', put_bits v bm S n = Some (mkBitmap (SizeOfBitMap bm) b') /\
    updated v (Buffer bm) b' S n.
Proof.
  intros Hb HS Hn Hfit. unfold put_bits, _BITCOUNT. rewrite land_31 by lia.
  assert (Hdm : S = 32 * (S / 32) + S mod 32 /\ 0 <= S mod 32 < 32 /\ 0 <= S / 32)
    by (Z.div_mod_to_equations; lia).
  set (q := S / 32) in *. set (p := S mod 32) in *.
  destruct (Z.eqb_spec p 0) as [E|E]; simpl.
  { replace S with (32 * q) by lia. apply put_aligned_updated; auto; lia. }
  rewrite rd_in by lia. simpl. destruct (Z.ltb_spec n (32 - p)).
  - rewrite wr_in by lia. simpl. eexists. split; [done|]. replace S with (32 * q + p) by lia.
    apply updated_put; auto; try lia; [apply mid_mask_range; lia|].
    intros k Hk. rewrite mid_mask_testbit by lia. case_cmp.
  - rewrite wr_in by lia. simpl.
    assert (Hu : updated v (Buffer bm)
      (<[Z.to_nat q := put v (word (Buffer bm) q) (shl32 MAXINDEX p)]> (Buffer bm)) S (32 - p)).
    { replace S with (32 * q + p) by lia.
      apply updated_put; auto; try lia; [apply shl32_range|].
      intros k Hk. rewrite high_mask_testbit by lia. case_cmp. }
    destruct (put_aligned_updated v bm _ (q + 1) (n - (32 - p)) (upd_words _ _ _ _ _ Hu))
      as (b' & -> & Hu'); [lia|lia|rewrite length_insert; lia|].
    exists b'. split; [done|]. eapply updated_app; [| |exact Hu|exact Hu'| |]; lia.
Qed.

(** ** Searching *)

Section find.
Context (v : bool) (bm : RTL_BITMAP) (skip take : Z -> Z -> option Z).
Context `{Hskip : !MeasuresRun (negb v) bm skip} `{Htake : !MeasuresRun v bm take}.
Context (more : Z -> Z -> bool) (strict : bool).
Hypothesis more_spec : forall a m, more a m = true <-> (if strict then a < m else a <= m).
Hypothesis size_ok : 0 <= SizeOfBitMap bm < 2 ^ 31.

Let Size := SizeOfBitMap bm.

(** One round of the loop: from [c] it either finds a position or moves on, and
    it moves past every place where the wanted run could start. *)
Lemma find_round c n :
  0 <= c < Size -> 0 < n <= Size ->
  exists s L, skip c MAXINDEX = Some s /\ take (u32 (c + s)) n = Some L /\
    u32 (c + s) = c + s /\ u32 (c + s + L) = c + s + L /\ 0 <= s /\ 0 <= L /\
    c + s + L <= Size /\
    (forall p, c <= p -> p + n <= Size -> all_bits v (Buffer bm) p n -> c + s <= p) /\
    (n <= L -> all_bits v (Buffer bm) (c + s) n) /\
    (L < n -> c < c + s + L /\
       forall p, c <= p -> p + n <= Size -> all_bits v (Buffer bm) p n -> c + s + L < p).
Proof.
  intros Hc Hn. unfold Size in *.
  destruct (run_exact (negb v) bm skip c) as (s & -> & Hs & Hsb & Hse); [lia|unfold MAXINDEX; lia|].
  assert (Hpast : forall p, c <= p -> p + n <= SizeOfBitMap bm ->
            all_bits v (Buffer bm) p n -> c + s <= p).
  { intros p Hp Hf Ha. destruct (Z.lt_ge_cases p (c + s)) as [Hlt|]; [|lia].
    specialize (Ha p ltac:(lia)). rewrite (Hsb p) in Ha by lia. by destruct v. }
  destruct (decide (c + s < SizeOfBitMap bm)) as [Hin|Hout].
  2:{ exists s, 0. rewrite (u32_small (c + s)), run_end, (u32_small (c + s + 0)) by lia.
      split_and!; try done; try lia. intros _. split; [lia|].
      intros p Hp Hf Ha. specialize (Hpast p Hp Hf Ha). lia. }
  destruct (run_in (c + s) n) as (L & EL & HL & HLb & HLe); [lia|lia|].
  exists s, L. rewrite (u32_small (c + s)), EL, (u32_small (c + s + L)) by lia.
  split_and!; try done; try lia.
  - intros Hle i Hi. apply HLb. lia.
  - intros Hlt. split.
    + destruct (Z.eq_dec (s + L) 0) as [E|]; [|lia]. exfalso.
      specialize (Hse ltac:(lia)). specialize (HLe ltac:(lia)).
      replace (c + s + L) with (c + s) in HLe by lia. rewrite Hse in HLe. by destruct v.
    + intros p Hp Hf Ha. specialize (Hpast p Hp Hf Ha).
      destruct (Z.lt_ge_cases (c + s + L) p) as [|Hge]; [lia|exfalso].
      destruct (decide (c + s + L < SizeOfBitMap bm)) as [Hin2|]; [|lia].
      specialize (HLe ltac:(lia)). rewrite (Ha (c + s + L)) in HLe by lia. by destruct v.
Qed.

Lemma find_loop_spec n Margin fuel : forall c,
  0 < n <= Size -> Margin <= Size -> 0 <= c <= Size -> Size - c < Z.of_nat fuel ->
  exists r, find_loop skip take more fuel c n Margin = Some r /\
    match r with
    | Some q => c <= q /\ q + n <= Size /\ all_bits v (Buffer bm) q n /\
        forall p, c <= p < q -> ~ all_bits v (Buffer bm) p n
    | None => forall p, c <= p -> p + n <= Margin -> all_bits v (Buffer bm) p n ->
                strict = true /\ p = c /\ c + n = Margin
    end.
Proof.
  induction fuel as [|fuel IH]; intros c Hn HM Hc Hf; [lia|]. simpl.
  unfold Size in *. rewrite (u32_small (c + n)) by lia.
  destruct (more (c + n) Margin) eqn:Em.
  - apply more_spec in Em. assert (Hcs : c + n <= Margin) by (destruct strict; lia).
    destruct (find_round c n) as (s & L & -> & HtL & Hu1 & Hu2 & Hs & HL & Hfit & Hmin & Hyes & Hno);
      [unfold Size; lia|unfold Size; lia|].
    unfold Size in *. simpl. rewrite HtL. simpl. rewrite Hu1. destruct (Z.leb_spec n L) as [Hle|Hlt].
    + exists (Some (c + s)). split; [done|]. split_and!; [lia|lia|auto|].
      intros p Hp Ha. specialize (Hmin p ltac:(lia) ltac:(lia) Ha). lia.
    + destruct (Hno Hlt) as [Hprog Hpast]. rewrite Hu2.
      destruct (IH (c + s + L)) as (r & -> & Hr); [lia|lia|lia|lia|].
      exists r. split; [done|]. destruct r as [q|].
      { destruct Hr as (Hq1 & Hq2 & Hq3 & Hq4). split_and!; [lia|lia|done|].
        intros p Hp Ha. specialize (Hpast p ltac:(lia) ltac:(lia) Ha).
        by apply (Hq4 p); [lia|]. }
      intros p Hp Hpm Ha. specialize (Hpast p Hp ltac:(lia) Ha).
      destruct (Hr p ltac:(lia) Hpm Ha) as (_ & -> & _). lia.
  - exists None. split; [done|]. intros p Hp Hpm Ha.
    assert (~ (if strict then c + n < Margin else c + n <= Margin)) as Hnm
      by (rewrite <- more_spec, Em; done).
    destruct strict; [split_and!; [done|lia|lia]|lia].
Qed.

#[local] Arguments find_loop : simpl never.

(** The search: it returns a fitting position, the first one from the hint on
    or else the first one of all, and [MAXINDEX] only when there is none (with
    the strict comparison, also when the whole bitmap is asked for). *)
Lemma find_bits_spec n h :
  0 < n <= Size -> 0 <= h ->
  let start := if Size <=? h then 0 else h in
  exists r, find_bits skip take more bm n h = Some r /\
    (r = MAXINDEX /\
     (forall p, 0 <= p -> p + n <= Size -> all_bits v (Buffer bm) p n -> strict = true /\ n = Size)
     \/
     0 <= r /\ r + n <= Size /\ all_bits v (Buffer bm) r n /\
     forall p, (if start <=? r then start <= p < r else 0 <= p < r) ->
       ~ all_bits v (Buffer bm) p n).
Proof.
  intros Hn Hh start. unfold find_bits, find_fuel.
  rewrite (proj2 (Z.ltb_ge _ _)), (proj2 (Z.eqb_neq n 0)) by (unfold Size in *; lia).
  fold Size. fold start. assert (Hstart : 0 <= start <= Size) by (unfold start; case_cmp).
  destruct (find_loop_spec n Size (S (Z.to_nat Size)) start) as (r & -> & Hr);
    [lia|lia|lia|unfold Size in *; lia|]. simpl.
  destruct r as [q|].
  { exists q. split; [done|]. right. destruct Hr as (H1 & H2 & H3 & H4).
    split_and!; [lia|lia|done|]. rewrite (proj2 (Z.leb_le start q)) by lia. done. }
  destruct (Z.eqb_spec start 0) as [E|E]; simpl.
  { exists MAXINDEX. split; [done|]. left. split; [done|]. intros p Hp Hf Ha.
    destruct (Hr p) as (? & ? & ?); [lia|lia|done|]. split; [done|lia]. }
  rewrite (u32_small (start + n)) by (unfold Size in *; lia).
  destruct (find_loop_spec n (Z.min (start + n) Size) (S (Z.to_nat Size)) 0)
    as (r & -> & Hr2); [lia|lia|lia|unfold Size in *; lia|]. simpl.
  destruct r as [q|]; (eexists; split; [done|]).
  - right. destruct Hr2 as (H1 & H2 & H3 & H4). split_and!; [lia|lia|done|].
    intros p. destruct (Z.leb_spec start q) as [Hle|Hlt]; [|auto].
    intros Hp. destruct (Hr q) as (_ & -> & _); [lia|lia|done|lia].
  - left. split; [done|]. intros p Hp Hf Ha.
    destruct (Z.lt_ge_cases start p) as [Hlt|Hge].
    + destruct (Hr p) as (_ & -> & _); [lia|lia|done|lia].
    + destruct (Hr2 p) as (? & ? & ?); [lia|lia|done|]. split; [done|]. lia.
Qed.
End find.

(** ** Runs in sequence *)

(** [next] reports the first run of bits [v] at or after its argument, whole. *)
Definition reports_run (v : bool) (bm : RTL_BITMAP) (next : Z -> option (Z * Z)) : Prop :=
  (forall F, SizeOfBitMap bm <= F -> next F = Some (0, F)) /\
  (forall F, 0 <= F < SizeOfBitMap bm ->
   exists n s, next F = Some (n, s) /\ F <= s /\ 0 <= n /\ s + n <= SizeOfBitMap bm /\
     all_bits (negb v) (Buffer bm) F (s - F) /\ all_bits v (Buffer bm) s n /\
     (s < SizeOfBitMap bm -> 0 < n) /\
     (s + n < SizeOfBitMap bm -> bit (Buffer bm) (s + n) = negb v)).

Lemma next_run_reports v bm skip take
    `{!MeasuresRun (negb v) bm skip, !MeasuresRun v bm take} :
  0 <= SizeOfBitMap bm <= MAXINDEX ->
  reports_run v bm (fun F =>
    if SizeOfBitMap bm <=? F then Some (0, F) else
    Length ← skip F MAXINDEX;
    n ← take (u32 (F + Length)) MAXINDEX;
    Some (n, u32 (F + Length))).
Proof.
  intros Hsz. split; [intros F HF; by rewrite (proj2 (Z.leb_le _ _))|].
  intros F HF. rewrite (proj2 (Z.leb_gt _ _)) by lia.
  destruct (run_exact (negb v) bm skip F) as (s & -> & Hs & Hsb & Hse); [lia|lia|]. simpl.
  rewrite u32_small by (unfold MAXINDEX in *; lia).
  destruct (decide (F + s < SizeOfBitMap bm)) as [Hin|Hout].
  - destruct (run_exact v bm take (F + s)) as (n & -> & Hn & Hnb & Hne); [lia|lia|].
    simpl. exists n, (F + s). replace (F + s - F) with s by lia.
    split_and!; try done; try lia. intros _.
    destruct (Z.eq_dec n 0) as [->|]; [|lia]. rewrite Z.add_0_r in Hne.
    specialize (Hse Hin). specialize (Hne Hin). rewrite Hse in Hne. by destruct v.
  - rewrite run_end by lia. simpl. exists 0, (F + s). replace (F + s - F) with s by lia.
    split_and!; try done; try lia. intros i. lia.
Qed.

Lemma next_clear_reports bm :
  bitmap_ok bm -> reports_run false bm (RtlFindNextForwardRunClear bm).
Proof.
  intros Hok. apply (next_run_reports false bm (RtlpGetLengthOfRunSet bm) _).
  destruct (ok_size (bm := bm)). unfold MAXINDEX. lia.
Qed.

Lemma next_set_reports bm :
  bitmap_ok bm -> reports_run true bm (RtlFindNextForwardRunSet bm).
Proof.
  intros Hok. apply (next_run_reports true bm (RtlpGetLengthOfRunClear bm) _).
  destruct (ok_size (bm := bm)). unfold MAXINDEX. lia.
Qed.

(** The loop advances by the length of the run found, not to its end, but never
    jumps over the start of another run. *)
Lemma longest_loop_spec v bm next fuel : forall F Max St,
  reports_run v bm next -> SizeOfBitMap bm < 2 ^ 32 ->
  0 <= F <= SizeOfBitMap bm -> 0 <= Max -> SizeOfBitMap bm - F < Z.of_nat fuel ->
  exists M' S', longest_loop next fuel F Max St = Some (M', S') /\ Max <= M' /\
    (forall p n, F <= p -> 0 <= n -> p + n <= SizeOfBitMap bm ->
       all_bits v (Buffer bm) p n -> n <= M') /\
    (M' = Max /\ S' = St \/
     0 <= S' /\ S' + M' <= SizeOfBitMap bm /\ all_bits v (Buffer bm) S' M').
Proof.
  induction fuel as [|fuel IH]; intros F Max St Hnext Hsz HF HMax Hfuel; [lia|]. simpl.
  destruct (decide (F = SizeOfBitMap bm)) as [->|Hne].
  { rewrite (proj1 Hnext) by lia. simpl. exists Max, St. split_and!; [done|lia|lia|by left]. }
  destruct (proj2 Hnext F) as (n & s & -> & Hs & Hn & Hfit & Hpre & Hrun & Hpos & Hend); [lia|].
  simpl. destruct (Z.eqb_spec n 0) as [->|Hn0].
  { exists Max, St. split_and!; [done|lia| |by left].
    intros p m Hp Hm Hpm Ha. destruct (Z.eq_dec m 0) as [->|]; [lia|].
    specialize (Ha p ltac:(lia)). rewrite (Hpre p) in Ha by lia. by destruct v. }
  rewrite u32_small by lia.
  destruct (IH (F + n) (if Max <? n then n else Max) (if Max <? n then s else St))
    as (M' & S' & -> & HM & Hall & Hres); auto; [lia|case_cmp|lia|].
  exists M', S'. assert (Hm : Max <= M' /\ n <= M') by (revert HM; case_cmp).
  split_and!; try done; try lia.
  - intros p m Hp Hm0 Hpm Ha. destruct (Z.lt_ge_cases p (F + n)) as [Hlt|]; [|by apply (Hall p)].
    destruct (Z.eq_dec m 0) as [->|]; [lia|].
    destruct (Z.lt_ge_cases p s) as [Hps|Hps].
    { specialize (Ha p ltac:(lia)). rewrite (Hpre p) in Ha by lia. by destruct v. }
    destruct (Z.lt_ge_cases (s + n) (p + m)) as [Hover|]; [|lia].
    specialize (Hend ltac:(lia)). rewrite (Ha (s + n)) in Hend by lia. by destruct v.
  - revert Hres. destruct (Z.ltb_spec Max n); [|done].
    intros [[-> ->]|Hr]; right; [split_and!; [lia|lia|done]|done].
Qed.

(** ** Scanning downwards *)

Lemma low_part_testbit x t k :
  0 <= t -> 0 <= k -> Z.testbit (Z.shiftr (shl32 x t) t) k = (k <? 32 - t) && Z.testbit x k.
Proof.
  intros Ht Hk. rewrite Z.shiftr_spec, shl32_testbit by lia.
  replace (k + t - t) with k by lia. case_cmp.
Qed.

(** The downward counterpart of [scan_spec], [f] applied to every word read:
    either every word is used up, or [V] is the word at index [B' + 1]. *)
Lemma skip_clear_down_spec b fuel : forall Buf Value,
  -1 <= Buf < Z.of_nat (length b) -> Buf < Z.of_nat fuel ->
  exists V B', skip_clear_down b fuel Buf Value = Some (V, B') /\ -1 <= B' <= Buf /\
    (V = 0 -> B' = -1) /\ (B' = Buf -> V = Value) /\
    (B' < Buf -> Value = 0 /\ V = word b (B' + 1)) /\
    (forall j, B' + 1 < j <= Buf -> word b j = 0).
Proof.
  induction fuel as [|fuel IH]; intros Buf Value HB Hf; simpl.
  - exists Value, Buf. rewrite (proj2 (Z.leb_gt 0 Buf)) by lia. rewrite andb_false_r.
    split_and!; try done; lia.
  - destruct (Z.eqb_spec Value 0) as [->|Hne]; simpl.
    2:{ exists Value, Buf. split_and!; try done; lia. }
    destruct (Z.leb_spec 0 Buf) as [Hge|Hlt].
    2:{ exists 0, Buf. split_and!; try done; lia. }
    rewrite rd_in by lia. simpl.
    destruct (IH (Buf - 1) (word b Buf)) as (V & B' & -> & Hr & H0 & Hs & Hl & Hz); [lia|lia|].
    exists V, B'. split_and!; try done; try lia.
    + intros Hlt. split; [done|]. destruct (Z.eq_dec B' (Buf - 1)) as [->|].
      * rewrite Hs by done. f_equal. lia.
      * apply Hl. lia.
    + intros j Hj. destruct (Z.eq_dec j Buf) as [->|]; [apply Hl; lia|apply Hz; lia].
Qed.

Lemma skip_set_down_spec b fuel : forall Buf InvValue,
  -1 <= Buf < Z.of_nat (length b) -> Buf < Z.of_nat fuel ->
  exists r, skip_set_down b fuel Buf InvValue = Some r /\
    match r with
    | None => InvValue = 0 /\ forall j, 0 <= j <= Buf -> not32 (word b j) = 0
    | Some (V, B') => V <> 0 /\ -1 <= B' <= Buf /\ (B' = Buf -> V = InvValue) /\
        (B' < Buf -> InvValue = 0 /\ V = not32 (word b (B' + 1))) /\
        (forall j, B' + 1 < j <= Buf -> not32 (word b j) = 0)
    end.
Proof.
  induction fuel as [|fuel IH]; intros Buf Inv HB Hf; simpl;
    (destruct (Z.eqb_spec Inv 0) as [->|Hne];
     [|exists (Some (Inv, Buf)); split_and!; try done; lia]);
    (destruct (Z.ltb_spec Buf 0) as [Hlt|Hge]; [exists None; split_and!; try done; lia|]); [lia|].
  rewrite rd_in by lia. simpl.
  destruct (IH (Buf - 1) (not32 (word b Buf))) as (r & -> & Hr); [lia|lia|].
  exists r. split; [done|]. destruct r as [[V B']|].
  - destruct Hr as (Hv & Hb & Hs & Hl & Hz). split_and!; try done; try lia.
    + intros Hlt. split; [done|]. destruct (Z.eq_dec B' (Buf - 1)) as [->|].
      * rewrite Hs by done. do 2 f_equal. lia.
      * apply Hl. lia.
    + intros j Hj. destruct (Z.eq_dec j Buf) as [->|]; [apply Hl; lia|apply Hz; lia].
  - destruct Hr as [Hw Hz]. split; [done|]. intros j Hj.
    destruct (Z.eq_dec j Buf) as [->|]; [done|apply Hz; lia].
Qed.

Lemma log2_word V :
  0 < V < 2 ^ 32 ->
  0 <= Z.log2 V < 32 /\ Z.testbit V (Z.log2 V) = true /\
  (forall k, Z.log2 V < k -> Z.testbit V k = false).
Proof.
  intros HV. split_and!.
  - apply Z.log2_nonneg.
  - apply Z.log2_lt_pow2; lia.
  - apply Z.bit_log2. lia.
  - intros k Hk. apply Z.bits_above_log2; lia.
Qed.

Lemma low_part_range x t : 0 <= t -> 0 <= Z.shiftr (shl32 x t) t < 2 ^ 32.
Proof.
  intros Ht. pose proof (shl32_range x t).
  rewrite Z.shiftr_div_pow2 by lia. split; [apply Z.div_pos; lia|].
  apply Z.div_lt_upper_bound; nia.
Qed.

Section down.
Context (f : Z -> Z) (neg : bool).
Hypothesis f_range : forall w, 0 <= w < 2 ^ 32 -> 0 <= f w < 2 ^ 32.
Hypothesis f_bit : forall w k, 0 <= w < 2 ^ 32 -> 0 <= k < 32 ->
  Z.testbit (f w) k = xorb neg (Z.testbit w k).

(** Word [q] cut off above bit [F], then whole words downwards to [B' + 1]: the
    last stop bit at or below [F], if any, is the highest bit of [V]. *)
Lemma scan_down b F V0 V B' :
  words_ok b -> let q := F / 32 in 0 <= F ->
  0 <= V0 < 2 ^ 32 ->
  (forall k, 0 <= k < 32 ->
     Z.testbit V0 k = (32 * q + k <=? F) && stop neg b (32 * q + k)) ->
  -1 <= B' <= q - 1 -> (B' = q - 1 -> V = V0) ->
  (B' < q - 1 -> V0 = 0 /\ V = f (word b (B' + 1))) ->
  (forall j, B' + 1 < j <= q - 1 -> f (word b j) = 0) ->
  let e := 32 * (B' + 1) + Z.log2 V in
  (V = 0 -> forall i, 32 * (B' + 1) <= i <= F -> stop neg b i = false) /\
  (V <> 0 -> 0 <= Z.log2 V < 32 /\ 0 <= V < 2 ^ 32 /\ e <= F /\ stop neg b e = true /\
     (forall i, e < i <= F -> stop neg b i = false) /\
     (forall k, 0 <= k <= Z.log2 V -> Z.testbit V k = stop neg b (32 * (B' + 1) + k))).
Proof.
  intros Hb q HF HV0r HV0 HB Hs Hl Hz e.
  assert (Hq : 32 * q <= F < 32 * q + 32) by (unfold q; Z.div_mod_to_equations; lia).
  assert (HV : 0 <= V < 2 ^ 32 /\ forall k, 0 <= k < 32 ->
     Z.testbit V k = (32 * (B' + 1) + k <=? F) && stop neg b (32 * (B' + 1) + k)).
  { destruct (Z.eq_dec B' (q - 1)) as [E|E].
    - rewrite Hs by done. replace (B' + 1) with q by lia. done.
    - destruct (Hl ltac:(lia)) as [_ ->]. split; [auto using word_range|].
      intros k Hk. rewrite (stop_word f) by auto. case_cmp. }
  destruct HV as [HVr HVb].
  assert (Hbetween : forall i, 32 * (B' + 1) + 32 <= i <= F -> stop neg b i = false).
  { intros i Hi. set (j := i / 32). set (k := i mod 32).
    assert (Hdm : i = 32 * j + k /\ 0 <= k < 32) by (unfold j, k; Z.div_mod_to_equations; lia).
    destruct (Z.eq_dec j q) as [E|E].
    - destruct (Hl ltac:(lia)) as [E0 _]. specialize (HV0 k ltac:(lia)).
      rewrite E0, Z.bits_0, (proj2 (Z.leb_le _ _)) in HV0 by lia.
      rewrite (proj1 Hdm), E. done.
    - rewrite (proj1 Hdm), (stop_word f), Hz by (auto; lia). apply Z.bits_0. }
  assert (Hin : forall i, 32 * (B' + 1) <= i < 32 * (B' + 1) + 32 -> i <= F ->
            stop neg b i = Z.testbit V (i - 32 * (B' + 1))).
  { intros i Hi Hle. rewrite HVb, (proj2 (Z.leb_le _ _)), andb_true_l by lia. f_equal. lia. }
  split; intros E.
  - intros i Hi. destruct (Z.lt_ge_cases i (32 * (B' + 1) + 32)); [|apply Hbetween; lia].
    rewrite Hin, E by lia. apply Z.bits_0.
  - destruct (log2_word V) as (Hk & Ht & Hab); [lia|].
    pose proof Ht as Ht'. rewrite HVb, andb_true_iff, Z.leb_le in Ht' by lia.
    destruct Ht' as [Hle Hse]. split_and!; try done; try lia.
    + intros i Hi. destruct (Z.lt_ge_cases i (32 * (B' + 1) + 32)); [|apply Hbetween; lia].
      rewrite Hin by lia. apply Hab. lia.
    + intros k Hkk. rewrite HVb, (proj2 (Z.leb_le _ _)) by lia. done.
Qed.
End down.

(** First phase: the last clear bit [e] at or before [F]. *)
Lemma last_clear_bit b F :
  words_ok b -> 0 <= F < 32 * Z.of_nat (length b) ->
  let t := 31 - F mod 32 in
  exists r,
    skip_set_down b (length b) (F / 32 - 1)
      (Z.shiftr (shl32 (not32 (word b (F / 32))) t) t) = Some r /\
    match r with
    | None => all_bits true b 0 (F + 1)
    | Some (V, B') =>
        let e := 32 * (B' + 1) + Z.log2 V in
        -1 <= B' <= F / 32 - 1 /\ 0 <= Z.log2 V < 32 /\ e <= F /\ bit b e = false /\
        all_bits true b (e + 1) (F - e) /\
        (forall k, 0 <= k <= Z.log2 V -> Z.testbit (not32 V) k = bit b (32 * (B' + 1) + k))
    end.
Proof.
  intros Hb HF t. assert (Hq : F = 32 * (F / 32) + F mod 32 /\ 0 <= F mod 32 < 32)
    by (Z.div_mod_to_equations; lia).
  set (V0 := Z.shiftr _ t). assert (Hwq := word_range b (F / 32) Hb).
  assert (HV0 : forall k, 0 <= k < 32 ->
     Z.testbit V0 k = (32 * (F / 32) + k <=? F) && stop true b (32 * (F / 32) + k)).
  { intros k Hk. unfold V0, stop. rewrite low_part_testbit, bit_word, not32_testbit by lia.
    unfold t. case_cmp. }
  destruct (skip_set_down_spec b (length b) (F / 32 - 1) V0) as (r & -> & Hr); [lia|lia|].
  exists r. split; [done|].
  assert (Hf : forall w k, 0 <= w < 2 ^ 32 -> 0 <= k < 32 ->
            Z.testbit (not32 w) k = xorb true (Z.testbit w k))
    by (intros; by rewrite not32_testbit by auto).
  assert (HV0r : 0 <= V0 < 2 ^ 32) by (apply low_part_range; lia).
  destruct r as [[V B']|].
  - destruct Hr as (Hv & HB & Hs & Hl & Hz).
    destruct (proj2 (scan_down not32 true not32_range Hf b F V0 V B' Hb ltac:(lia) HV0r HV0
                HB Hs Hl Hz) Hv) as (Hk & HVr & He & Hbe & Haft & Hbits).
    unfold stop in *. split_and!; try done; try lia.
    + by destruct (bit b _).
    + intros i Hi. specialize (Haft i ltac:(lia)). by destruct (bit b i).
    + intros k Hk'. rewrite not32_testbit, Hbits by lia. by destruct (bit b (32 * (B' + 1) + k)).
  - destruct Hr as [E Hz]. destruct (Z.lt_ge_cases (F / 32) 1) as [Hz0|Hz0].
    + destruct (scan_down not32 true not32_range Hf b F V0 V0 (-1)) as [H0 _];
        [done|lia|done|done|Z.div_mod_to_equations; lia|done|Z.div_mod_to_equations; lia
        |intros; Z.div_mod_to_equations; lia|].
      intros i Hi. specialize (H0 E i ltac:(lia)). unfold stop in H0. by destruct (bit b i).
    + destruct (scan_down not32 true not32_range Hf b F V0 0 (-1)) as [H0 _];
        [done|lia|done|done|lia|lia| |intros; apply Hz; lia|].
      { intros _. split; [done|]. rewrite Hz by lia. done. }
      intros i Hi. specialize (H0 eq_refl i ltac:(lia)). unfold stop in H0. by destruct (bit b i).
Qed.

(** Second phase: the start of the clear run that ends at bit [e]. *)
Lemma clear_run_start b e X :
  words_ok b -> 0 <= e < 32 * Z.of_nat (length b) ->
  (forall k, 0 <= k <= e mod 32 -> Z.testbit X k = bit b (32 * (e / 32) + k)) ->
  let t := 31 - e mod 32 in
  exists V B', skip_clear_down b (length b) (e / 32 - 1) (Z.shiftr (shl32 X t) t) = Some (V, B') /\
    let s := if negb (V =? 0) then 32 * (B' + 1) + Z.log2 V + 1 else 0 in
    -1 <= B' <= e / 32 - 1 /\ 0 <= s <= e + 1 /\ all_bits false b s (e + 1 - s) /\
    (0 < s -> bit b (s - 1) = true).
Proof.
  intros Hb He HX t. assert (Hq : e = 32 * (e / 32) + e mod 32 /\ 0 <= e mod 32 < 32)
    by (Z.div_mod_to_equations; lia).
  set (V0 := Z.shiftr _ t).
  assert (HV0 : forall k, 0 <= k < 32 ->
     Z.testbit V0 k = (32 * (e / 32) + k <=? e) && stop false b (32 * (e / 32) + k)).
  { intros k Hk. unfold V0, stop. rewrite low_part_testbit, xorb_false_l by lia.
    destruct (Z.leb_spec k (e mod 32)); [rewrite HX by lia|]; unfold t; case_cmp. }
  assert (HV0r : 0 <= V0 < 2 ^ 32) by (apply low_part_range; lia).
  destruct (skip_clear_down_spec b (length b) (e / 32 - 1) V0)
    as (V & B' & -> & Hr & H0 & Hs & Hl & Hz); [lia|lia|].
  exists V, B'. split; [done|].
  destruct (scan_down (fun w => w) false ltac:(auto) ltac:(by intros; rewrite xorb_false_l)
              b e V0 V B' Hb ltac:(lia) HV0r HV0 Hr Hs Hl Hz) as [Hzero Hnz].
  unfold stop in *. destruct (Z.eqb_spec V 0) as [E|E]; simpl.
  - specialize (H0 E). split_and!; try lia. intros i Hi.
    specialize (Hzero E i ltac:(lia)). by rewrite xorb_false_l in Hzero.
  - destruct (Hnz E) as (Hk & HVr & Hle & Hbe & Haft & _). rewrite xorb_false_l in Hbe.
    split_and!; try lia.
    + intros i Hi. specialize (Haft i ltac:(lia)). by rewrite xorb_false_l in Haft.
    + intros _. rewrite <- Hbe. f_equal. lia.
Qed.

(** ** Counting *)

(** Number of indices of [p .. p + n - 1] at which [f] holds. *)
Fixpoint ones (f : Z -> bool) (p : Z) (n : nat) : Z :=
  match n with
  | O => 0
  | S n' => Z.b2z (f p) + ones f (p + 1) n'
  end.

Lemma ones_app f n m : forall p, ones f p (n + m) = ones f p n + ones f (p + Z.of_nat n) m.
Proof.
  induction n as [|n IH]; intros p; simpl.
  - by rewrite Z.add_0_r.
  - rewrite IH. replace (p + Z.of_nat (S n)) with (p + 1 + Z.of_nat n) by lia. lia.
Qed.

Lemma ones_ext f g n : forall p q,
  (forall i, 0 <= i < Z.of_nat n -> f (p + i) = g (q + i)) -> ones f p n = ones g q n.
Proof.
  induction n as [|n IH]; intros p q H; [done|]. simpl. f_equal.
  - f_equal. specialize (H 0 ltac:(lia)). by rewrite !Z.add_0_r in H.
  - apply IH. intros i Hi. specialize (H (1 + i) ltac:(lia)). by rewrite !Z.add_assoc in H.
Qed.

Lemma ones_bound f n : forall p, 0 <= ones f p n <= Z.of_nat n.
Proof.
  induction n as [|n IH]; intros p; simpl; [lia|].
  specialize (IH (p + 1)). destruct (f p); simpl; lia.
Qed.

Lemma ones_false n : forall p, ones (fun _ => false) p n = 0.
Proof. induction n as [|n IH]; intros p; simpl; [done|]. by rewrite IH. Qed.

Lemma BitCountTable_spec v :
  0 <= v < 256 -> rd BitCountTable v = Some (ones (Z.testbit v) 0 8).
Proof.
  intros Hv.
  assert (H : forallb (fun v => bool_decide (rd BitCountTable v = Some (ones (Z.testbit v) 0 8)))
                (seqZ 0 256) = true) by (vm_compute; reflexivity).
  rewrite forallb_forall in H. specialize (H v).
  rewrite <- list_elem_of_In, elem_of_seqZ, bool_decide_eq_true in H. apply H. lia.
Qed.

Lemma rd_byte_spec b k :
  words_ok b -> 0 <= k < 4 * Z.of_nat (length b) ->
  exists v, rd_byte b k = Some v /\ 0 <= v < 256 /\
    forall j, 0 <= j < 8 -> Z.testbit v j = bit b (8 * k + j).
Proof.
  intros Hb Hk. unfold rd_byte. rewrite rd_in by (Z.div_mod_to_equations; lia). simpl.
  eexists. split; [done|]. unfold u8. split; [apply Z.mod_pos_bound; lia|].
  intros j Hj. change 256 with (2 ^ 8). rewrite Z.mod_pow2_bits_low, Z.shiftr_spec by lia.
  rewrite <- bit_word by (Z.div_mod_to_equations; lia).
  f_equal. Z.div_mod_to_equations; lia.
Qed.

Lemma count_bytes_spec b n : forall k c,
  words_ok b -> 0 <= k -> k + Z.of_nat n <= 4 * Z.of_nat (length b) ->
  0 <= c -> c + 8 * Z.of_nat n < 2 ^ 32 ->
  count_bytes b n k c = Some (c + ones (bit b) (8 * k) (8 * n)).
Proof.
  induction n as [|n IH]; intros k c Hb Hk Hl Hc Hs; simpl count_bytes.
  - rewrite Nat.mul_0_r. simpl. by rewrite Z.add_0_r.
  - destruct (rd_byte_spec b k) as (v & -> & Hv & Hbits); [done|lia|]. cbn [mbind option_bind].
    rewrite BitCountTable_spec by done. cbn [mbind option_bind].
    pose proof (ones_bound (Z.testbit v) 8 0). rewrite u32_small by lia.
    rewrite IH by (done || lia).
    replace (8 * S n)%nat with (8 + 8 * n)%nat by lia. rewrite ones_app.
    rewrite (ones_ext (Z.testbit v) (bit b) 8 0 (8 * k)).
    + replace (8 * k + Z.of_nat 8) with (8 * (k + 1)) by lia. f_equal. lia.
    + intros i Hi. apply Hbits. lia.
Qed.

Lemma last_byte_ones v r :
  0 <= v -> 0 < r < 8 ->
  ones (Z.testbit (Z.land (Z.shiftl v (8 - r)) 255)) 0 8 = ones (Z.testbit v) 0 (Z.to_nat r).
Proof.
  intros Hv Hr. change 255 with (Z.ones 8). rewrite Z.land_ones by lia.
  replace 8%nat with (Z.to_nat (8 - r) + Z.to_nat r)%nat by lia. rewrite ones_app.
  rewrite (ones_ext _ (fun _ => false) (Z.to_nat (8 - r)) 0 0), ones_false.
  - apply ones_ext. intros i Hi. rewrite Z.mod_pow2_bits_low, Z.shiftl_spec by lia. f_equal. lia.
  - intros i Hi. rewrite Z.mod_pow2_bits_low, Z.shiftl_spec by lia.
    apply Z.testbit_neg_r. lia.
Qed.

(** ** The run array *)

(** [runs_from bm F l F']: [l] lists, in order and without gaps, the maximal
    clear runs of [bm] from bit [F] on, the last one ending at [F']. *)
Inductive runs_from (bm : RTL_BITMAP) : Z -> list RTL_BITMAP_RUN -> Z -> Prop :=
| runs_nil F : runs_from bm F [] F
| runs_cons F s n l F' :
    F <= s -> 0 < n -> s + n <= SizeOfBitMap bm ->
    all_bits true (Buffer bm) F (s - F) -> all_bits false (Buffer bm) s n ->
    (s + n < SizeOfBitMap bm -> bit (Buffer bm) (s + n) = true) ->
    runs_from bm (s + n) l F' -> runs_from bm F (mkRun s n :: l) F'.

Definition clear_run (bm : RTL_BITMAP) (r : RTL_BITMAP_RUN) : Prop :=
  0 <= StartingIndex r /\ StartingIndex r + NumberOfBits r <= SizeOfBitMap bm /\
  all_bits false (Buffer bm) (StartingIndex r) (NumberOfBits r).

Lemma runs_from_clear bm F l F' :
  runs_from bm F l F' -> 0 <= F -> Forall (clear_run bm) l.
Proof.
  induction 1 as [F|F s n l F' HF Hn Hfit Hset Hclr Hend _ IH]; intros H0; constructor.
  - split_and!; simpl; [lia|lia|done].
  - apply IH. lia.
Qed.

(** What a call of [RtlFindNextForwardRunClear] inside the loops yields. *)
Lemma next_clear_cases bm F :
  bitmap_ok bm -> 0 <= F <= SizeOfBitMap bm ->
  exists n s, RtlFindNextForwardRunClear bm F = Some (n, s) /\
    (n = 0 /\ all_bits true (Buffer bm) F (SizeOfBitMap bm - F) \/
     0 < n /\ F <= s /\ s + n <= SizeOfBitMap bm /\
     all_bits true (Buffer bm) F (s - F) /\ all_bits false (Buffer bm) s n /\
     (s + n < SizeOfBitMap bm -> bit (Buffer bm) (s + n) = true)).
Proof.
  intros Hok HF. destruct (next_clear_reports bm Hok) as [Hend Hin].
  destruct (Z.eq_dec F (SizeOfBitMap bm)) as [->|HFne].
  - rewrite Hend by lia. exists 0, (SizeOfBitMap bm). split; [done|]. left.
    split; [done|]. intros i Hi. lia.
  - destruct (Hin F ltac:(lia)) as (n & s & -> & Hs & Hn & Hfit & Hpre & Hrun & Hpos & Hmax).
    exists n, s. split; [done|]. destruct (Z.eq_dec n 0) as [->|Hn0].
    + left. assert (s = SizeOfBitMap bm) as -> by lia. done.
    + right. split_and!; try done; lia.
Qed.

Lemma first_runs_spec bm n : bitmap_ok bm -> forall arr Run F Sm,
  0 <= Sm <= Run -> Run + Z.of_nat n <= Z.of_nat (length arr) -> 0 <= F <= SizeOfBitMap bm ->
  exists arr' l F' Sm',
    first_runs bm n arr Run F Sm = Some (arr', Run + Z.of_nat (length l), F', Sm') /\
    length arr' = length arr /\ (length l <= n)%nat /\
    0 <= Sm' /\ (Sm' < Run + Z.of_nat (length l) \/ Sm' = Sm) /\
    take (Z.to_nat Run + length l) arr' = take (Z.to_nat Run) arr ++ l /\
    runs_from bm F l F' /\ 0 <= F' <= SizeOfBitMap bm /\
    ((length l < n)%nat -> all_bits true (Buffer bm) F' (SizeOfBitMap bm - F')).
Proof.
  intros Hok. pose proof (ok_size (bm := bm)) as Hsz.
  induction n as [|n IH]; intros arr Run F Sm HS Hlen HF.
  { exists arr, [], F, Sm. simpl. rewrite Z.add_0_r, Nat.add_0_r, app_nil_r.
    split_and!; try done; try lia. constructor. }
  simpl first_runs.
  destruct (next_clear_cases bm F Hok HF)
    as (m & s & -> & [[-> Hall]|(Hm & Hs & Hfit & Hset & Hclr & Hend)]); cbn [mbind option_bind].
  { exists arr, [], F, Sm. simpl. rewrite Z.add_0_r, Nat.add_0_r, app_nil_r.
    split_and!; try done; try lia. constructor. }
  rewrite (proj2 (Z.eqb_neq m 0)), wr_in by lia. cbn [mbind option_bind].
  unfold rd at 1. rewrite (proj2 (Z.ltb_ge Sm 0)) by lia.
  destruct (lookup_lt_is_Some_2 (<[Z.to_nat Run:=mkRun s m]> arr) (Z.to_nat Sm))
    as [e ->]; [rewrite length_insert; lia|]. cbn [mbind option_bind]. rewrite u32_small by lia.
  destruct (IH (<[Z.to_nat Run:=mkRun s m]> arr) (Run + 1) (s + m)
              (if m <? NumberOfBits e then Run else Sm))
    as (arr' & l & F' & Sm' & -> & Hl & Hln & HSm & HSm2 & Htake & Hruns & HF' & Hrest);
    [case_cmp|rewrite length_insert; lia|lia|].
  rewrite length_insert in Hl. exists arr', (mkRun s m :: l), F', Sm'. simpl length.
  split_and!; try done; try lia.
  - do 4 f_equal. lia.
  - left. revert HSm2. case_cmp.
  - replace (Z.to_nat Run + S (length l))%nat with (Z.to_nat (Run + 1) + length l)%nat by lia.
    rewrite Htake. replace (Z.to_nat (Run + 1)) with (S (Z.to_nat Run)) by lia.
    rewrite (take_S_r _ _ (mkRun s m)) by (apply list_lookup_insert_eq; lia).
    by rewrite take_insert_ge, <- app_assoc by lia.
  - by constructor.
  - intros Hlt. apply Hrest. lia.
Qed.

Lemma rd_some {A} (l : list A) i :
  0 <= i < Z.of_nat (length l) -> exists e, rd l i = Some e /\ l !! Z.to_nat i = Some e.
Proof.
  intros Hi. unfold rd. rewrite (proj2 (Z.ltb_ge i 0)) by lia.
  destruct (lookup_lt_is_Some_2 l (Z.to_nat i)) as [e He]; [lia|]. eauto.
Qed.

Lemma new_smallest_in n arr Bits : forall Run Sm,
  0 <= Run -> Run + Z.of_nat n <= Z.of_nat (length arr) -> 0 <= Sm < Z.of_nat (length arr) ->
  exists Sm', new_smallest n arr Run Bits Sm = Some Sm' /\ 0 <= Sm' < Z.of_nat (length arr).
Proof.
  induction n as [|n IH]; intros Run Sm HR Hlen HS; simpl; [eauto|].
  destruct (rd_some arr Sm HS) as (e & -> & _). simpl. apply IH; [lia|lia|case_cmp].
Qed.

(** The second loop ends and only ever stores clear runs. *)
Lemma longest_runs_clear bm fuel : bitmap_ok bm -> forall arr F Sm,
  0 <= F <= SizeOfBitMap bm -> SizeOfBitMap bm - F < Z.of_nat fuel ->
  0 <= Sm < Z.of_nat (length arr) -> Forall (clear_run bm) arr ->
  exists arr', longest_runs bm fuel (Z.of_nat (length arr)) arr F Sm = Some arr' /\
    length arr' = length arr /\ Forall (clear_run bm) arr'.
Proof.
  intros Hok. pose proof (ok_size (bm := bm)) as Hsz.
  induction fuel as [|fuel IH]; intros arr F Sm HF Hfuel HS Harr; [lia|]. simpl longest_runs.
  destruct (next_clear_cases bm F Hok HF)
    as (m & s & -> & [[-> Hall]|(Hm & Hs & Hfit & Hset & Hclr & Hend)]); cbn [mbind option_bind].
  { rewrite Z.eqb_refl. eauto. }
  rewrite (proj2 (Z.eqb_neq m 0)), u32_small by lia.
  destruct (rd_some arr Sm HS) as (e & -> & _). cbn [mbind option_bind].
  destruct (NumberOfBits e <? m); [|apply IH; done || lia].
  rewrite wr_in by lia. cbn [mbind option_bind].
  destruct (new_smallest_in (Z.to_nat (Z.of_nat (length arr)))
              (<[Z.to_nat Sm:=mkRun s m]> arr) m 0 Sm) as (Sm' & -> & HS');
    [lia|rewrite length_insert; lia|rewrite length_insert; lia|].
  rewrite length_insert in HS'. cbn [mbind option_bind].
  destruct (IH (<[Z.to_nat Sm:=mkRun s m]> arr) (F + m) Sm') as (arr' & E & Hl & Hc).
  - lia.
  - lia.
  - rewrite length_insert. lia.
  - apply Forall_insert; [done|]. split_and!; simpl; [lia|lia|done].
  - rewrite length_insert in E, Hl. eauto.
Qed.

(** ** The properties *)

Lemma put_bits_ok v bm S n :
  bitmap_ok bm -> 0 <= S -> 0 <= n -> S + n <= SizeOfBitMap bm ->
  exists bm', put_bits v bm S n = Some bm' /\ bitmap_ok bm' /\
    SizeOfBitMap bm' = SizeOfBitMap bm /\
    forall i, 0 <= i ->
      bit (Buffer bm') i = if (S <=? i) && (i <? S + n) then v else bit (Buffer bm) i.
Proof.
  intros [Hsz Hw Hl] HS Hn Hfit.
  destruct (put_bits_updated v bm S n Hw) as (b' & -> & [Hlen Hw' Hbit]); [lia|lia|lia|].
  eexists. split_and!; [done| |done|done]. constructor; simpl; rewrite ?Hlen; done.
Qed.

(** [RtlSetBits] and [RtlClearBits] on a range inside the bitmap touch
    only memory of the bitmap, keep it well formed, and give exactly the bits of
    the range the new value: every other bit keeps its own. *)
Theorem set_clear_bits_exact bm S n :
  bitmap_ok bm -> 0 <= S -> 0 <= n -> S + n <= SizeOfBitMap bm ->
  exists bs bc,
    RtlSetBits bm S n = Some bs /\ RtlClearBits bm S n = Some bc /\
    bitmap_ok bs /\ bitmap_ok bc /\
    SizeOfBitMap bs = SizeOfBitMap bm /\ SizeOfBitMap bc = SizeOfBitMap bm /\
    forall i, 0 <= i ->
      bit (Buffer bs) i = (S <=? i) && (i <? S + n) || bit (Buffer bm) i /\
      bit (Buffer bc) i = negb ((S <=? i) && (i <? S + n)) && bit (Buffer bm) i.
Proof.
  intros Hok HS Hn Hfit. rewrite RtlSetBits_put, RtlClearBits_put.
  destruct (put_bits_ok true bm S n) as (bs & -> & Hs & Ls & Bs); try done.
  destruct (put_bits_ok false bm S n) as (bc & -> & Hc & Lc & Bc); try done.
  exists bs, bc. split_and!; try done. intros i Hi. rewrite Bs, Bc by done.
  by destruct ((S <=? i) && (i <? S + n)).
Qed.

(** C11.  The allocator [RtlFindClearBitsAndSet]: asked for [n] bits, at least one and
    fewer than the bitmap has, in a bitmap of less than 2^31 bits, it either returns the position of [n] clear bits inside the
    bitmap, and the bitmap with exactly these bits now set; or it returns
    [MAXINDEX], leaves the bitmap alone, and there are no [n] clear bits in a row. *)
Theorem find_clear_and_set_allocates bm n h :
  bitmap_ok bm -> SizeOfBitMap bm < 2 ^ 31 -> 0 < n < SizeOfBitMap bm -> 0 <= h ->
  exists p bm', RtlFindClearBitsAndSet bm n h = Some (p, bm') /\ bitmap_ok bm' /\
    (p = MAXINDEX /\ bm' = bm /\
     (forall q, 0 <= q -> q + n <= SizeOfBitMap bm -> ~ all_bits false (Buffer bm) q n)
     \/
     0 <= p /\ p + n <= SizeOfBitMap bm /\ all_bits false (Buffer bm) p n /\
     SizeOfBitMap bm' = SizeOfBitMap bm /\
     forall i, 0 <= i ->
       bit (Buffer bm') i = (p <=? i) && (i <? p + n) || bit (Buffer bm) i).
Proof.
  intros Hok Hsz Hn Hh. unfold RtlFindClearBitsAndSet, RtlFindClearBits.
  pose proof (ok_size (bm := bm)).
  destruct (find_bits_spec false bm (RtlpGetLengthOfRunSet bm) (RtlpGetLengthOfRunClear bm)
    Z.ltb true Z.ltb_lt ltac:(lia) n h) as (r & -> & Hr); [lia|lia|].
  cbn [mbind option_bind]. destruct Hr as [[-> Hno]|(Hr0 & Hfit & Hclr & _)].
  - rewrite Z.eqb_refl. exists MAXINDEX, bm. split_and!; try done. left.
    split_and!; try done. intros q Hq Hqn Ha. destruct (Hno q Hq Hqn Ha). lia.
  - rewrite (proj2 (Z.eqb_neq r MAXINDEX)) by (unfold MAXINDEX; lia). simpl negb. cbn iota.
    rewrite RtlSetBits_put.
    destruct (put_bits_ok true bm r n) as (bm' & -> & Hok' & Hs' & Hb'); [done|lia|lia|lia|].
    exists r, bm'. split_and!; try done. right. split_and!; try done.
Qed.

(** [RtlFindSetBits] is first fit from the hint, wrapping round: a
    position it returns starts [n] set bits inside the bitmap and no earlier
    position from the hint (or from 0, if it wrapped) does; when it returns
    [MAXINDEX] no position does. *)
Theorem find_set_bits_first_fit bm n h :
  bitmap_ok bm -> SizeOfBitMap bm < 2 ^ 31 -> 0 < n <= SizeOfBitMap bm -> 0 <= h ->
  let start := if SizeOfBitMap bm <=? h then 0 else h in
  exists r, RtlFindSetBits bm n h = Some r /\
    (r = MAXINDEX /\
     (forall p, 0 <= p -> p + n <= SizeOfBitMap bm -> ~ all_bits true (Buffer bm) p n)
     \/
     0 <= r /\ r + n <= SizeOfBitMap bm /\ all_bits true (Buffer bm) r n /\
     forall p, (if start <=? r then start <= p < r else 0 <= p < r) ->
       ~ all_bits true (Buffer bm) p n).
Proof.
  intros Hok Hsz Hn Hh start. pose proof (ok_size (bm := bm)).
  destruct (find_bits_spec true bm (RtlpGetLengthOfRunClear bm) (RtlpGetLengthOfRunSet bm)
    Z.leb false Z.leb_le ltac:(lia) n h) as (r & E & Hr); [lia|lia|].
  exists r. split; [done|]. destruct Hr as [[-> Hno]|Hr]; [left|by right].
  split; [done|]. intros p Hp Hpn Ha. by destruct (Hno p Hp Hpn Ha).
Qed.

(** [RtlAreBitsClear] and [RtlAreBitsSet] answer TRUE exactly for a
    nonempty range inside the bitmap whose bits all have the value asked for, for
    any 32 bit start and length, overflow of their sum included. *)
Theorem are_bits_iff bm S n :
  bitmap_ok bm -> 0 <= S < 2 ^ 32 -> 0 <= n < 2 ^ 32 ->
  exists c s, RtlAreBitsClear bm S n = Some c /\ RtlAreBitsSet bm S n = Some s /\
    (c = true <-> 0 < n /\ S + n <= SizeOfBitMap bm /\ all_bits false (Buffer bm) S n) /\
    (s = true <-> 0 < n /\ S + n <= SizeOfBitMap bm /\ all_bits true (Buffer bm) S n).
Proof.
  intros Hok HS Hn. pose proof (ok_size (bm := bm)).
  destruct (are_bits_spec false bm (RtlpGetLengthOfRunClear bm) S n) as (c & Ec & Hc); try done; [lia|].
  destruct (are_bits_spec true bm (RtlpGetLengthOfRunSet bm) S n) as (s & Es & Hs); try done; [lia|].
  exists c, s. done.
Qed.

(** [RtlNumberOfSetBits] is the number of set bits among the first
    [SizeOfBitMap], the padding of the last byte left out, and
    [RtlNumberOfClearBits] the number of the others. *)
Theorem number_of_bits bm :
  bitmap_ok bm ->
  let Size := SizeOfBitMap bm in
  RtlNumberOfSetBits bm = Some (ones (bit (Buffer bm)) 0 (Z.to_nat Size)) /\
  RtlNumberOfClearBits bm = Some (Size - ones (bit (Buffer bm)) 0 (Z.to_nat Size)).
Proof.
  intros [Hsz Hw Hl] Size. fold Size in Hsz, Hl.
  pose proof (ones_bound (bit (Buffer bm)) (Z.to_nat Size) 0) as Hb.
  assert (E : RtlNumberOfSetBits bm = Some (ones (bit (Buffer bm)) 0 (Z.to_nat Size))).
  2:{ split; [done|]. unfold RtlNumberOfClearBits. rewrite E. cbn [mbind option_bind].
      fold Size. rewrite u32_small by lia. done. }
  unfold RtlNumberOfSetBits. fold Size. rewrite land_7 by lia.
  assert (Hdm : Size = 8 * (Size / 8) + Size mod 8 /\ 0 <= Size mod 8 < 8 /\ 0 <= Size / 8)
    by (Z.div_mod_to_equations; lia).
  rewrite count_bytes_spec by (done || lia). cbn [mbind option_bind].
  replace (Z.to_nat Size) with (8 * Z.to_nat (Size / 8) + Z.to_nat (Size mod 8))%nat by lia.
  rewrite ones_app, Z.mul_0_r.
  destruct (Z.eqb_spec (Size mod 8) 0) as [E0|E0]; simpl negb; cbn iota.
  { rewrite E0. simpl (ones _ _ (Z.to_nat 0)). f_equal. lia. }
  destruct (rd_byte_spec (Buffer bm) (Size / 8) Hw) as (v & -> & Hv & Hbits); [lia|].
  cbn [mbind option_bind]. rewrite BitCountTable_spec.
  2:{ change 255 with (Z.ones 8). rewrite Z.land_ones by lia. apply Z.mod_pos_bound. lia. }
  cbn [mbind option_bind]. rewrite last_byte_ones by lia.
  rewrite (ones_ext (Z.testbit v) (bit (Buffer bm)) _ 0 (0 + Z.of_nat (8 * Z.to_nat (Size / 8)))).
  2:{ intros i Hi. rewrite Hbits by lia. f_equal. lia. }
  rewrite u32_small; [f_equal; lia|].
  pose proof (ones_bound (bit (Buffer bm)) (8 * Z.to_nat (Size / 8)) 0).
  pose proof (ones_bound (bit (Buffer bm)) (Z.to_nat (Size mod 8))
                (0 + Z.of_nat (8 * Z.to_nat (Size / 8)))). lia.
Qed.

(** [RtlFindLongestRunClear] and [RtlFindLongestRunSet] return, and the
    length they return is that of a longest run: no longer run exists, and if it
    is not 0 the index they store starts a run of that length. *)
Theorem longest_run_maximal bm s0 :
  bitmap_ok bm ->
  forall v : bool, exists n s,
    (if v then RtlFindLongestRunSet bm s0 else RtlFindLongestRunClear bm s0) = Some (n, s) /\
    (forall p m, 0 <= p -> 0 <= m -> p + m <= SizeOfBitMap bm ->
       all_bits v (Buffer bm) p m -> m <= n) /\
    (n = 0 /\ s = s0 \/
     0 <= s /\ s + n <= SizeOfBitMap bm /\ all_bits v (Buffer bm) s n).
Proof.
  intros Hok v. pose proof (ok_size (bm := bm)).
  assert (Hr : reports_run v bm
    (if v then RtlFindNextForwardRunSet bm else RtlFindNextForwardRunClear bm))
    by (destruct v; auto using next_set_reports, next_clear_reports).
  destruct (longest_loop_spec v bm _ (find_fuel bm) 0 0 s0 Hr)
    as (n & s & E & _ & Hmax & Hres); [lia|lia|lia|unfold find_fuel; lia|].
  exists n, s. split; [destruct v; exact E|]. done.
Qed.

(** [RtlFindLastBackwardRunClear] finds the last clear bit [e] at or
    before the start and the start [s] of the maximal clear run that ends there;
    the length it returns is [e - s], one less than the run's, and it returns
    length 0 without an index if there is no clear bit. *)
Theorem last_backward_run_clear bm F :
  bitmap_ok bm -> 0 < SizeOfBitMap bm -> 0 <= F ->
  let F' := Z.min F (SizeOfBitMap bm - 1) in
  exists n so, RtlFindLastBackwardRunClear bm F = Some (n, so) /\
    match so with
    | None => n = 0 /\ all_bits true (Buffer bm) 0 (F' + 1)
    | Some s => 0 <= s /\ 0 <= n /\ s + n <= F' /\
        all_bits false (Buffer bm) s (n + 1) /\
        all_bits true (Buffer bm) (s + n + 1) (F' - (s + n)) /\
        (0 < s -> bit (Buffer bm) (s - 1) = true)
    end.
Proof.
  intros [Hsz Hw Hl] Hpos HF F'. unfold RtlFindLastBackwardRunClear, _BITCOUNT.
  rewrite u32_small by lia. fold F'. assert (HF' : 0 <= F' < SizeOfBitMap bm) by lia.
  change (32 - 1) with 31. rewrite land_31, rd_in by (Z.div_mod_to_equations; lia).
  cbn [mbind option_bind].
  destruct (last_clear_bit (Buffer bm) F' Hw) as (r & -> & Hr); [lia|]. cbn [mbind option_bind].
  destruct r as [[V B]|]; [|by exists 0, None].
  destruct Hr as (HB & Hk & He & Hbe & Haft & Hbits). set (k := Z.log2 V) in *.
  set (e := 32 * (B + 1) + k) in *. unfold BitScanReverse. fold k.
  assert (Hem : e / 32 = B + 1 /\ e mod 32 = k)
    by (unfold e; Z.div_mod_to_equations; lia). destruct Hem as [Hed Hem].
  destruct (clear_run_start (Buffer bm) e (not32 V) Hw) as (V' & B' & E & HB' & Hs & Hclr & Hprev).
  { unfold e. lia. }
  { rewrite Hem, Hed. done. }
  rewrite Hem, Hed in E. replace (B + 1 - 1) with B in E by lia. rewrite E.
  cbn [mbind option_bind]. clear E. rewrite !(Z.mul_comm (_ + 1) 32). fold e.
  set (s := if negb (V' =? 0) then 32 * (B' + 1) + Z.log2 V' + 1 else 0) in *.
  assert (Hse : s <= e).
  { destruct (Z.eq_dec s (e + 1)) as [Ee|]; [|lia]. specialize (Hprev ltac:(lia)).
    replace (s - 1) with e in Hprev by lia. congruence. }
  exists (e - s), (Some s). split.
  - replace (if negb (V' =? 0) then u32 (32 * (B' + 1) + Z.log2 V' + 1) else 0) with s.
    + rewrite !u32_small by (rewrite ?u32_small; lia). done.
    + unfold s in *. destruct (negb (V' =? 0)); [rewrite u32_small by lia|]; done.
  - split_and!; try done; try lia.
    + by replace (e - s + 1) with (e + 1 - s) by lia.
    + by replace (s + (e - s)) with e by lia.
Qed.

(** [RtlFindClearRuns] never writes outside the array of [length arr]
    entries it is given and returns; every entry it reports is a run of clear bits
    inside the bitmap.  When it is asked for the first runs, or finds fewer than
    the array holds, the entries are the maximal clear runs of the bitmap in order,
    and if the array is not full the rest of the bitmap is set. *)
Theorem find_clear_runs bm arr locate :
  bitmap_ok bm -> arr <> [] ->
  let N := Z.of_nat (length arr) in
  exists Run arr', RtlFindClearRuns bm arr N locate = Some (Run, arr') /\
    length arr' = length arr /\ 0 <= Run <= N /\
    Forall (clear_run bm) (take (Z.to_nat Run) arr') /\
    (Run < N \/ locate = false ->
     exists F', runs_from bm 0 (take (Z.to_nat Run) arr') F' /\
       (Run < N -> all_bits true (Buffer bm) F' (SizeOfBitMap bm - F'))).
Proof.
  intros Hok Hne N. pose proof (ok_size (bm := bm)) as Hsz. unfold RtlFindClearRuns.
  destruct (first_runs_spec bm (Z.to_nat N) Hok arr 0 0 0)
    as (arr' & l & F' & Sm & -> & Hlen & Hl & HS & HS' & Ht & Hruns & HF' & Hrest); [lia..|].
  cbn [mbind option_bind]. rewrite Z.add_0_l in *. simpl in Ht.
  assert (Hcl := runs_from_clear bm 0 l F' Hruns ltac:(lia)).
  assert (HN : 0 < N) by (unfold N; destruct arr; [done|simpl; lia]).
  destruct (Z.ltb_spec (Z.of_nat (length l)) N) as [Hlt|Hge]; simpl orb.
  { exists (Z.of_nat (length l)), arr'. rewrite Nat2Z.id, Ht. split_and!; try done; try lia.
    intros _. exists F'. split; [done|]. intros _. apply Hrest. lia. }
  assert (Hfull : length l = length arr') by lia. rewrite Hfull, firstn_all in Ht. subst l.
  destruct locate; simpl negb; cbn iota.
  - destruct (longest_runs_clear bm (find_fuel bm) Hok arr' F' Sm)
      as (arr2 & E & Hl2 & Hc2); [lia|unfold find_fuel; lia|lia|done|].
    rewrite Hlen in E. fold N in E. rewrite E. cbn [mbind option_bind].
    exists (Z.of_nat (length arr')), arr2. rewrite Nat2Z.id, <- Hl2, firstn_all.
    split_and!; try done; try lia.
  - exists (Z.of_nat (length arr')), arr'. rewrite Nat2Z.id, firstn_all.
    split_and!; try done; try lia. intros _. exists F'. split; [done|lia].
Qed.

(** ** The properties at a concrete bitmap *)

Definition example_bitmap : RTL_BITMAP := mkBitmap 45 [0xF00F0FF0; 0xFFFF0F00].

Lemma example_bitmap_ok : bitmap_ok example_bitmap.
Proof. constructor; simpl; [lia|repeat constructor; lia|lia]. Defined.

Lemma set_clear_bits_exact_witness :
  exists bs bc,
    RtlSetBits example_bitmap 20 20 = Some bs /\ RtlClearBits example_bitmap 20 20 = Some bc /\
    bit (Buffer bs) 39 = true /\ bit (Buffer bc) 40 = bit (Buffer example_bitmap) 40.
Proof.
  destruct (set_clear_bits_exact example_bitmap 20 20 example_bitmap_ok)
    as (bs & bc & Es & Ec & _ & _ & _ & _ & H); [lia|lia|simpl; lia|].
  exists bs, bc. split_and!; [exact Es|exact Ec| |].
  - destruct (H 39) as [-> _]; [lia|reflexivity].
  - destruct (H 40) as [_ ->]; [lia|reflexivity].
Defined.

Lemma find_clear_and_set_allocates_witness :
  exists p bm', RtlFindClearBitsAndSet example_bitmap 7 3 = Some (p, bm') /\ bitmap_ok bm'.
Proof.
  destruct (find_clear_and_set_allocates example_bitmap 7 3 example_bitmap_ok)
    as (p & bm' & E & Hok & _); [simpl; lia..|].
  exists p, bm'. split; [exact E|exact Hok].
Defined.

Lemma find_set_bits_first_fit_witness :
  exists r, RtlFindSetBits example_bitmap 4 5 = Some r /\ r <> MAXINDEX.
Proof.
  destruct (find_set_bits_first_fit example_bitmap 4 5 example_bitmap_ok) as (r & E & _);
    [simpl; lia..|].
  exists r. split; [exact E|]. vm_compute in E. injection E as <-. done.
Defined.

Lemma are_bits_iff_witness :
  exists c s, RtlAreBitsClear example_bitmap 12 4 = Some c /\
    RtlAreBitsSet example_bitmap 4 8 = Some s.
Proof.
  destruct (are_bits_iff example_bitmap 12 4 example_bitmap_ok) as (c & _ & Ec & _); [lia..|].
  destruct (are_bits_iff example_bitmap 4 8 example_bitmap_ok) as (_ & s & _ & Es & _); [lia..|].
  exists c, s. split; [exact Ec|exact Es].
Defined.

Lemma number_of_bits_witness : RtlNumberOfSetBits example_bitmap = Some 20.
Proof. rewrite (proj1 (number_of_bits example_bitmap example_bitmap_ok)). reflexivity. Defined.

Lemma longest_run_maximal_witness :
  exists s, RtlFindLongestRunClear example_bitmap 0 = Some (8, s).
Proof.
  destruct (longest_run_maximal example_bitmap 0 example_bitmap_ok false) as (n & s & E & _).
  exists s. cbn iota in E. rewrite E. vm_compute in E. injection E as <- _. reflexivity.
Defined.

Lemma last_backward_run_clear_witness :
  exists n so, RtlFindLastBackwardRunClear example_bitmap 30 = Some (n, so).
Proof.
  destruct (last_backward_run_clear example_bitmap 30 example_bitmap_ok) as (n & so & E & _);
    [simpl; lia|lia|]. exists n, so. exact E.
Defined.

Lemma find_clear_runs_witness :
  exists Run arr', RtlFindClearRuns example_bitmap (replicate 3 (mkRun 0 0)) 3 true
    = Some (Run, arr') /\ Forall (clear_run example_bitmap) (take (Z.to_nat Run) arr').
Proof.
  destruct (find_clear_runs example_bitmap (replicate 3 (mkRun 0 0)) true example_bitmap_ok)
    as (Run & arr' & E & _ & _ & H & _); [done|]. exists Run, arr'. split; [exact E|exact H].
Defined.
