(* ===== verification/SeToken.v ===== *)
(** Tokens and privileges: sdk/lib/rtl/access.c, ntoskrnl/se/sid.c (membership of a
    SID in a token), ntoskrnl/se/priv.c, and what the access check uses of
    ntoskrnl/se/token.c and of security descriptors (sdk/lib/rtl/sd.c,
    ntoskrnl/include/internal/se.h). *)

From S2P Require Import Prelude Bytes RtlSid RtlAcl.

(** ** Access masks: access.c *)

Definition READ_CONTROL : Z := 0x00020000.
Definition WRITE_DAC : Z := 0x00040000.
Definition WRITE_OWNER : Z := 0x00080000.
Definition ACCESS_SYSTEM_SECURITY : Z := 0x01000000.
Definition MAXIMUM_ALLOWED : Z := 0x02000000.
Definition GENERIC_ALL : Z := 0x10000000.
Definition GENERIC_EXECUTE : Z := 0x20000000.
Definition GENERIC_WRITE : Z := 0x40000000.
Definition GENERIC_READ : Z := 0x80000000.
Definition GENERIC_ACCESS : Z := 0xF0000000.

Record GENERIC_MAPPING := mkMapping {
  GenericRead : Z;
  GenericWrite : Z;
  GenericExecute : Z;
  GenericAll : Z
}.

(** [a & ~b]. *)
Definition clear_bits (a b : Z) : Z := Z.land a (not32 b).

Definition RtlAreAllAccessesGranted (GrantedAccess DesiredAccess : Z) : bool :=
  Z.land (not32 GrantedAccess) DesiredAccess =? 0.

Definition RtlAreAnyAccessesGranted (GrantedAccess DesiredAccess : Z) : bool :=
  negb (Z.land GrantedAccess DesiredAccess =? 0).

Definition RtlMapGenericMask (AccessMask : Z) (GenericMapping : GENERIC_MAPPING) : Z :=
  let m := AccessMask in
  let m := if has m GENERIC_READ then Z.lor m (GenericRead GenericMapping) else m in
  let m := if has m GENERIC_WRITE then Z.lor m (GenericWrite GenericMapping) else m in
  let m := if has m GENERIC_EXECUTE then Z.lor m (GenericExecute GenericMapping) else m in
  let m := if has m GENERIC_ALL then Z.lor m (GenericAll GenericMapping) else m in
  clear_bits m (Z.lor GENERIC_READ (Z.lor GENERIC_WRITE (Z.lor GENERIC_EXECUTE GENERIC_ALL))).

(** ** Tokens *)

Inductive KPROCESSOR_MODE := KernelMode | UserMode.

(** A LUID is the pair of its low and high part. *)
Definition LUID : Type := Z * Z.

Record TOKEN := mkToken {
  UserAndGroups : list (mem * Z);     (* SID and attributes *)
  RestrictedSids : list (mem * Z);
  Privileges : list (LUID * Z);       (* LUID and attributes *)
  TokenFlags : Z
}.

Definition SE_GROUP_ENABLED : Z := 4.
Definition SE_GROUP_USE_FOR_DENY_ONLY : Z := 0x10.
Definition TOKEN_HAS_ADMIN_GROUP : Z := 8.
Definition TOKEN_IS_RESTRICTED : Z := 0x10.

Definition SeTokenIsAdmin (Token : TOKEN) : bool := has (TokenFlags Token) TOKEN_HAS_ADMIN_GROUP.
Definition SeTokenIsRestricted (Token : TOKEN) : bool := has (TokenFlags Token) TOKEN_IS_RESTRICTED.

(** S-1-5-10 and S-1-1-0, as [SepInitSecurityIDs] builds them. *)
Definition SePrincipalSelfSid : mem := sid_of [0; 0; 0; 0; 0; 5] [10].
Definition SeWorldSid : mem := sid_of [0; 0; 0; 0; 0; 1] [0].

(** The loop over the SIDs of the token, from [SidIndex] on. *)
Fixpoint sid_in_array (Sid : mem) (SidLength SidMetadata : Z) (Deny Restricted : bool)
    (SidIndex : Z) (SidAndAttributes : list (mem * Z)) : option bool :=
  match SidAndAttributes with
  | [] => Some false
  | (TokenSid, Attributes) :: rest =>
      TokenMetadata ← get16 TokenSid 0;
      same ← (if TokenMetadata =? SidMetadata
              then RtlEqualMemory Sid TokenSid (Z.to_nat SidLength) else Some false);
      if (same : bool) then
        Some ((negb Restricted && (SidIndex =? 0) && negb (has Attributes SE_GROUP_USE_FOR_DENY_ONLY))
              || has Attributes SE_GROUP_ENABLED
              || (Deny && has Attributes SE_GROUP_USE_FOR_DENY_ONLY))
      else sid_in_array Sid SidLength SidMetadata Deny Restricted (SidIndex + 1) rest
  end.

Definition SepSidInTokenEx (Token : TOKEN) (PrincipalSelfSid : option mem) (Sid : mem)
    (Deny Restricted : bool) : option bool :=
  Sid ← match PrincipalSelfSid with
        | None => Some Sid
        | Some Principal =>
            self ← RtlEqualSid SePrincipalSelfSid Sid;
            Some (if (self : bool) then Principal else Sid)
        end;
  let SidAndAttributes := if Restricted then RestrictedSids Token else UserAndGroups Token in
  SidLength ← RtlLengthSid Sid;
  SidMetadata ← get16 Sid 0;
  sid_in_array Sid SidLength SidMetadata Deny Restricted 0 SidAndAttributes.

Definition SepSidInToken (Token : TOKEN) (Sid : mem) : option bool :=
  SepSidInTokenEx Token None Sid false false.

(** [Ace] is the memory from the ACE on; [Some None] is the NULL of an
    unsupported type. *)
Definition SepGetSidFromAce (Ace : mem) : option (option mem) :=
  type ← AceType Ace 0;
  if type <=? ACCESS_MAX_MS_V2_ACE_TYPE then Some (Some (drop 8 Ace)) else
  if (type =? ACCESS_DENIED_OBJECT_ACE_TYPE) || (type =? ACCESS_ALLOWED_OBJECT_ACE_TYPE) then
    Flags ← get32 Ace 8;
    let GuidSize := (if has Flags ACE_OBJECT_TYPE_PRESENT then sizeof_GUID else 0) +
                    (if has Flags ACE_INHERITED_OBJECT_TYPE_PRESENT then sizeof_GUID else 0) in
    Some (Some (drop (Z.to_nat (12 + GuidSize)) Ace))
  else Some None.

(** ** Security descriptors *)

Definition SE_DACL_PRESENT : Z := 4.
Definition SE_DACL_DEFAULTED : Z := 8.
Definition SE_SELF_RELATIVE : Z := 0x8000.
Definition SECURITY_DESCRIPTOR_REVISION : Z := 1.

(** In the self-relative form the components are offsets into the memory
    [sd_base] of the descriptor (0 for none), otherwise they are pointers. *)
Record SECURITY_DESCRIPTOR := mkSd {
  sd_Revision : Z;
  sd_Control : Z;
  sd_base : mem;
  sd_OwnerOffset : Z;
  sd_GroupOffset : Z;
  sd_DaclOffset : Z;
  sd_Owner : option mem;
  sd_Group : option mem;
  sd_Dacl : option mem
}.

Definition SepGetOwnerFromDescriptor (sd : SECURITY_DESCRIPTOR) : option mem :=
  if has (sd_Control sd) SE_SELF_RELATIVE then
    if sd_OwnerOffset sd =? 0 then None
    else Some (drop (Z.to_nat (sd_OwnerOffset sd)) (sd_base sd))
  else sd_Owner sd.

Definition SepGetGroupFromDescriptor (sd : SECURITY_DESCRIPTOR) : option mem :=
  if has (sd_Control sd) SE_SELF_RELATIVE then
    if sd_GroupOffset sd =? 0 then None
    else Some (drop (Z.to_nat (sd_GroupOffset sd)) (sd_base sd))
  else sd_Group sd.

Definition SepGetDaclFromDescriptor (sd : SECURITY_DESCRIPTOR) : option mem :=
  if negb (has (sd_Control sd) SE_DACL_PRESENT) then None else
  if has (sd_Control sd) SE_SELF_RELATIVE then
    if sd_DaclOffset sd =? 0 then None
    else Some (drop (Z.to_nat (sd_DaclOffset sd)) (sd_base sd))
  else sd_Dacl sd.

(** Status, [*DaclPresent], [*Dacl] and [*DaclDefaulted]; the last two are not
    written when there is no DACL. *)
Definition RtlGetDaclSecurityDescriptor (Sd : SECURITY_DESCRIPTOR)
  : Z * option (bool * option (option mem * bool)) :=
  if negb (sd_Revision Sd =? SECURITY_DESCRIPTOR_REVISION)
  then (STATUS_UNKNOWN_REVISION, None) else
  let DaclPresent := Z.land (sd_Control Sd) SE_DACL_PRESENT =? SE_DACL_PRESENT in
  (STATUS_SUCCESS, Some (DaclPresent,
    if DaclPresent
    then Some (SepGetDaclFromDescriptor Sd,
               Z.land (sd_Control Sd) SE_DACL_DEFAULTED =? SE_DACL_DEFAULTED)
    else None)).

Definition SepTokenIsOwner (Token : TOKEN) (sd : SECURITY_DESCRIPTOR) : option bool :=
  Sid ← SepGetOwnerFromDescriptor sd;
  Result ← SepSidInToken Token Sid;
  if Result && has (TokenFlags Token) TOKEN_IS_RESTRICTED
  then SepSidInTokenEx Token None Sid false true
  else Some Result.

(** ** Privileges: priv.c *)

Definition SE_PRIVILEGE_ENABLED : Z := 2.
Definition SE_PRIVILEGE_USED_FOR_ACCESS : Z := 0x80000000.
Definition PRIVILEGE_SET_ALL_NECESSARY : Z := 1.
Definition SeSecurityPrivilege : LUID := (8, 0).
Definition SeTakeOwnershipPrivilege : LUID := (9, 0).
Definition SeAuditPrivilege : LUID := (21, 0).

Definition RtlEqualLuid (a b : LUID) : bool := (fst a =? fst b) && (snd a =? snd b).

(** The inner loop: the attributes of the first entry with this LUID. *)
Fixpoint token_privilege (Privileges : list (LUID * Z)) (Luid : LUID) : option Z :=
  match Privileges with
  | [] => None
  | (l, Attributes) :: rest =>
      if RtlEqualLuid l Luid then Some Attributes else token_privilege rest Luid
  end.

(** The outer loop over the requested privileges; an enabled one is marked as
    used.  Returns the result and the marked array. *)
Fixpoint privilege_loop (Token : TOKEN) (Privileges' : list (LUID * Z)) (Required : Z)
  : bool * list (LUID * Z) :=
  match Privileges' with
  | [] => (false, [])
  | (Luid, Attributes) :: rest =>
      let enabled := match token_privilege (Privileges Token) Luid with
                     | Some a => has a SE_PRIVILEGE_ENABLED
                     | None => false
                     end in
      if enabled then
        let p := (Luid, Z.lor Attributes SE_PRIVILEGE_USED_FOR_ACCESS) in
        if Required - 1 =? 0 then (true, p :: rest) else
        let '(r, rest) := privilege_loop Token rest (Required - 1) in (r, p :: rest)
      else
        let '(r, rest) := privilege_loop Token rest Required in (r, (Luid, Attributes) :: rest)
  end.

Definition SepPrivilegeCheck (Token : TOKEN) (Privileges' : list (LUID * Z))
    (PrivilegeControl : Z) (PreviousMode : KPROCESSOR_MODE) : bool * list (LUID * Z) :=
  match PreviousMode with
  | KernelMode => (true, Privileges')
  | UserMode =>
      let Required := if has PrivilegeControl PRIVILEGE_SET_ALL_NECESSARY
                      then Z.of_nat (length Privileges') else 1 in
      privilege_loop Token Privileges' Required
  end.

Definition SepSinglePrivilegeCheck (PrivilegeValue : LUID) (Token : TOKEN)
    (PreviousMode : KPROCESSOR_MODE) : bool :=
  fst (SepPrivilegeCheck Token [(PrivilegeValue, SE_PRIVILEGE_ENABLED)]
         PRIVILEGE_SET_ALL_NECESSARY PreviousMode).

Record SECURITY_SUBJECT_CONTEXT := mkSubject {
  ClientToken : option TOKEN;
  ImpersonationLevel : Z;
  PrimaryToken : TOKEN
}.

(** [SecurityImpersonation] of the enumeration of levels. *)
Definition SecurityIdentification : Z := 1.
Definition SecurityImpersonation : Z := 2.

Definition effective_token (ctx : SECURITY_SUBJECT_CONTEXT) : TOKEN :=
  match ClientToken ctx with Some t => t | None => PrimaryToken ctx end.

(** What [SePrivilegePolicyCheck] leaves behind: its status, the two masks and
    [*OutPrivilegeSet] ([None] if it is not written, [Some None] for NULL). *)
Record policy_result := mkPolicy {
  pol_Status : Z;
  pol_Desired : Z;
  pol_Granted : Z;
  pol_Set : option (option (list (LUID * Z)))
}.

(** [want_set] tells whether the caller passes [OutPrivilegeSet]; [alloc_ok]
    whether the pool has room for the set. *)
Definition SePrivilegePolicyCheck (alloc_ok : bool) (DesiredAccess GrantedAccess : Z)
    (SubjectContext : option SECURITY_SUBJECT_CONTEXT) (Token : TOKEN) (want_set : bool)
    (PreviousMode : KPROCESSOR_MODE) : policy_result :=
  let Token := match SubjectContext with
               | Some ctx => effective_token ctx
               | None => Token
               end in
  let wants_security := has DesiredAccess ACCESS_SYSTEM_SECURITY in
  if wants_security && negb (SepSinglePrivilegeCheck SeSecurityPrivilege Token PreviousMode)
  then mkPolicy STATUS_PRIVILEGE_NOT_HELD DesiredAccess GrantedAccess None else
  let AccessMask := if wants_security then ACCESS_SYSTEM_SECURITY else 0 in
  let takes := has DesiredAccess WRITE_OWNER &&
               SepSinglePrivilegeCheck SeTakeOwnershipPrivilege Token PreviousMode in
  let AccessMask := if takes then Z.lor AccessMask WRITE_OWNER else AccessMask in
  let PrivilegeCount := (if wants_security then 1 else 0) + (if takes then 1 else 0) in
  let Granted := Z.lor GrantedAccess AccessMask in
  let Desired := clear_bits DesiredAccess AccessMask in
  if negb want_set then mkPolicy STATUS_SUCCESS Desired Granted None else
  if 0 <? PrivilegeCount then
    if negb alloc_ok then mkPolicy STATUS_INSUFFICIENT_RESOURCES Desired Granted (Some None) else
    let set := (if has AccessMask WRITE_OWNER
                then [(SeTakeOwnershipPrivilege, SE_PRIVILEGE_USED_FOR_ACCESS)] else []) ++
               (if has AccessMask ACCESS_SYSTEM_SECURITY
                then [(SeSecurityPrivilege, SE_PRIVILEGE_USED_FOR_ACCESS)] else []) in
    mkPolicy STATUS_SUCCESS Desired Granted (Some (Some set))
  else mkPolicy STATUS_SUCCESS Desired Granted (Some None).

(** The audit of the result is not part of the model. *)
Definition SeCheckAuditPrivilege (ctx : SECURITY_SUBJECT_CONTEXT)
    (PreviousMode : KPROCESSOR_MODE) : bool :=
  fst (SepPrivilegeCheck (PrimaryToken ctx) [(SeAuditPrivilege, 0)]
         PRIVILEGE_SET_ALL_NECESSARY PreviousMode).

Definition SePrivilegeCheck (Privileges' : list (LUID * Z)) (Control : Z)
    (ctx : SECURITY_SUBJECT_CONTEXT) (PreviousMode : KPROCESSOR_MODE)
  : bool * list (LUID * Z) :=
  match ClientToken ctx with
  | None => SepPrivilegeCheck (PrimaryToken ctx) Privileges' Control PreviousMode
  | Some Token =>
      if ImpersonationLevel ctx <? 2 then (false, Privileges')
      else SepPrivilegeCheck Token Privileges' Control PreviousMode
  end.

(** [ctx] is the subject context the function captures. *)
Definition SeSinglePrivilegeCheck (PrivilegeValue : LUID) (ctx : SECURITY_SUBJECT_CONTEXT)
    (PreviousMode : KPROCESSOR_MODE) : bool :=
  fst (SePrivilegeCheck [(PrivilegeValue, SE_PRIVILEGE_ENABLED)]
         PRIVILEGE_SET_ALL_NECESSARY ctx PreviousMode).

Definition SeCheckPrivilegedObject (PrivilegeValue : LUID) (ctx : SECURITY_SUBJECT_CONTEXT)
    (PreviousMode : KPROCESSOR_MODE) : bool :=
  fst (SePrivilegeCheck [(PrivilegeValue, SE_PRIVILEGE_ENABLED)]
         PRIVILEGE_SET_ALL_NECESSARY ctx PreviousMode).

(** * Correctness *)

(** ** Masks, bit by bit *)

Definition mask (x : Z) : Prop := 0 <= x < 2 ^ 32.

Lemma mask_testbit x i : mask x -> 32 <= i -> Z.testbit x i = false.
Proof. intros Hx Hi. apply (testbit_high x 32); [exact Hx|lia]. Qed.

Lemma clear_bits_testbit a b i :
  mask a -> mask b -> 0 <= i ->
  Z.testbit (clear_bits a b) i = Z.testbit a i && negb (Z.testbit b i).
Proof.
  intros Ha Hb Hi. unfold clear_bits. rewrite land_not32 by done. by rewrite Z.ldiff_spec.
Qed.

Lemma mask_land a b : mask a -> 0 <= b -> mask (Z.land a b).
Proof. intros Ha Hb. by apply (land_range 32). Qed.

Lemma mask_lor a b : mask a -> mask b -> mask (Z.lor a b).
Proof. intros Ha Hb. by apply (lor_range 32). Qed.

Lemma mask_clear a b : mask a -> mask b -> mask (clear_bits a b).
Proof.
  intros Ha Hb. apply mask_land; [done|]. unfold not32, mask in *. lia.
Qed.

Lemma mask_eq a b : mask a -> mask b ->
  (forall i, 0 <= i < 32 -> Z.testbit a i = Z.testbit b i) -> a = b.
Proof.
  intros Ha Hb H. apply Z.bits_inj'. intros i Hi.
  destruct (Z.lt_ge_cases i 32); [apply H; lia|]. by rewrite !mask_testbit by done.
Qed.

Lemma mask_zero a : mask a -> (a = 0 <-> forall i, 0 <= i < 32 -> Z.testbit a i = false).
Proof.
  intros Ha. split; [intros -> i _; apply Z.bits_0|].
  intros H. apply mask_eq; [done|unfold mask; lia|]. intros i Hi. by rewrite Z.bits_0, H.
Qed.

Lemma has_bit x k : 0 <= k -> has x (2 ^ k) = Z.testbit x k.
Proof.
  intros Hk. apply eq_true_iff_eq. rewrite has_spec. split.
  - intros (i & Hi & Hx & Hb). rewrite Z.pow2_bits_eqb, Z.eqb_eq in Hb by lia. by subst i.
  - intros Hx. exists k. rewrite Z.pow2_bits_true by lia. done.
Qed.

Lemma has_zero a b : has a b = false <-> Z.land a b = 0.
Proof. unfold has. by rewrite negb_false_iff, Z.eqb_eq. Qed.

(** ** Generic rights *)

Definition wf_mapping (gm : GENERIC_MAPPING) : Prop :=
  forall x, x = GenericRead gm \/ x = GenericWrite gm \/ x = GenericExecute gm \/ x = GenericAll gm ->
    0 <= x < 2 ^ 28.

(** A right is in the mapped mask if it was in the mask or the mapping of one of the
    mask's generic rights has it. *)
Definition mapped (gm : GENERIC_MAPPING) (m i : Z) : bool :=
  Z.testbit m i ||
  (Z.testbit m 31 && Z.testbit (GenericRead gm) i) ||
  (Z.testbit m 30 && Z.testbit (GenericWrite gm) i) ||
  (Z.testbit m 29 && Z.testbit (GenericExecute gm) i) ||
  (Z.testbit m 28 && Z.testbit (GenericAll gm) i).

(** One of the four conditional ORs. *)
Definition map_bit (m k g : Z) : Z := if has m (2 ^ k) then Z.lor m g else m.

Lemma map_generic_steps m gm :
  RtlMapGenericMask m gm =
  clear_bits (map_bit (map_bit (map_bit (map_bit m 31 (GenericRead gm)) 30 (GenericWrite gm))
    29 (GenericExecute gm)) 28 (GenericAll gm)) (2 ^ 32 - 2 ^ 28).
Proof. reflexivity. Qed.

Lemma map_bit_testbit m g k i :
  0 <= k -> 0 <= i -> Z.testbit (map_bit m k g) i = Z.testbit m i || Z.testbit m k && Z.testbit g i.
Proof.
  intros Hk Hi. unfold map_bit. rewrite has_bit by lia. destruct (Z.testbit m k); simpl.
  - apply Z.lor_spec.
  - by rewrite orb_false_r.
Qed.

Lemma map_bit_high m g k i :
  0 <= g < 2 ^ 28 -> 0 <= k -> 28 <= i -> Z.testbit (map_bit m k g) i = Z.testbit m i.
Proof.
  intros Hg Hk Hi. rewrite map_bit_testbit, (testbit_high g 28) by lia.
  by rewrite andb_false_r, orb_false_r.
Qed.

Lemma map_bit_mask m g k : 0 <= g < 2 ^ 28 -> mask m -> mask (map_bit m k g).
Proof. intros Hg Hm. unfold map_bit. destruct (has _ _); [apply mask_lor|]; unfold mask in *; lia. Qed.

Lemma generic_bits i : 0 <= i < 32 -> Z.testbit (2 ^ 32 - 2 ^ 28) i = (28 <=? i).
Proof.
  intros Hi.
  assert (H : forallb (fun i => eqb (Z.testbit (2 ^ 32 - 2 ^ 28) i) (28 <=? i)) (seqZ 0 32) = true)
    by (vm_compute; reflexivity).
  rewrite forallb_forall in H. apply eqb_prop, H, list_elem_of_In, elem_of_seqZ. lia.
Qed.

Lemma map_generic_mask gm m : wf_mapping gm -> mask m -> mask (RtlMapGenericMask m gm).
Proof.
  intros Hgm Hm. rewrite map_generic_steps. apply mask_clear; [|unfold mask; lia].
  repeat apply map_bit_mask; auto.
Qed.

Lemma map_generic_testbit gm m i :
  wf_mapping gm -> mask m -> 0 <= i < 32 ->
  Z.testbit (RtlMapGenericMask m gm) i = (i <? 28) && mapped gm m i.
Proof.
  intros Hgm Hm Hi. rewrite map_generic_steps.
  assert (Hg : 0 <= GenericRead gm < 2 ^ 28 /\ 0 <= GenericWrite gm < 2 ^ 28 /\
    0 <= GenericExecute gm < 2 ^ 28 /\ 0 <= GenericAll gm < 2 ^ 28)
    by (split_and!; apply Hgm; auto).
  rewrite clear_bits_testbit by (repeat apply map_bit_mask; unfold mask in *; tauto || lia).
  rewrite generic_bits by lia.
  replace (negb (28 <=? i)) with (i <? 28) by case_cmp. rewrite andb_comm. f_equal.
  rewrite map_bit_testbit, !(map_bit_high _ _ _ 28) by (tauto || lia).
  rewrite map_bit_testbit, !(map_bit_high _ _ _ 29) by (tauto || lia).
  by rewrite map_bit_testbit, !(map_bit_high _ _ _ 30), map_bit_testbit by (tauto || lia).
Qed.

(** [RtlMapGenericMask] replaces every generic right of a mask by the rights
    its mapping gives it: the result has no generic right, keeps all others, and
    gains exactly the rights of the mappings selected.  Mapping again changes
    nothing. *)
Theorem map_generic_exact gm m :
  wf_mapping gm -> mask m ->
  let r := RtlMapGenericMask m gm in
  0 <= r < 2 ^ 28 /\ (forall i, 0 <= i < 28 -> Z.testbit r i = mapped gm m i) /\
  RtlMapGenericMask r gm = r.
Proof.
  intros Hgm Hm r. assert (Hr : mask r) by (by apply map_generic_mask).
  assert (Hhigh : forall i, 28 <= i < 32 -> Z.testbit r i = false).
  { intros i Hi. unfold r. rewrite map_generic_testbit by (done || lia). case_cmp. }
  split_and!.
  - apply Hr.
  - apply Z.bounded_iff_bits_nonneg'; [lia|apply Hr|]. intros i Hi.
    destruct (Z.lt_ge_cases i 32); [apply Hhigh; lia|]. by apply mask_testbit.
  - intros i Hi. unfold r. rewrite map_generic_testbit by (done || lia). case_cmp.
  - apply mask_eq; [by apply map_generic_mask|done|]. intros i Hi.
    rewrite map_generic_testbit by done. unfold mapped.
    rewrite !(Hhigh 31), !(Hhigh 30), !(Hhigh 29), !(Hhigh 28) by lia. simpl.
    rewrite !orb_false_r. destruct (Z.ltb_spec i 28); [done|]. symmetry. apply Hhigh. lia.
Qed.

Definition file_mapping : GENERIC_MAPPING := mkMapping 0x120089 0x120116 0x1200A0 0x1F01FF.

Lemma file_mapping_wf : wf_mapping file_mapping.
Proof. intros x [-> | [-> | [-> | ->]]]; simpl; lia. Defined.

Lemma map_generic_exact_witness :
  RtlMapGenericMask 0x80000000 file_mapping = 0x120089 /\
  0 <= RtlMapGenericMask 0x80000000 file_mapping < 2 ^ 28.
Proof.
  split; [reflexivity|]. apply (map_generic_exact file_mapping 0x80000000 file_mapping_wf).
  unfold mask. lia.
Defined.

(** ** Membership of a SID in a token *)

(** The SIDs of a token are well formed, each in memory of its own. *)
Definition token_ok (T : TOKEN) : Prop :=
  forall p, p ∈ UserAndGroups T ++ RestrictedSids T -> sid_at (fst p) (fst p).

Definition self_ok (self : option mem) : Prop := forall p, self = Some p -> sid_at p p.

Definition sid_list (T : TOKEN) (Restricted : bool) : list (mem * Z) :=
  if Restricted then RestrictedSids T else UserAndGroups T.

(** The principal's SID stands in for S-1-5-10. *)
Definition substitute (self : option mem) (sid : mem) : mem :=
  match self with
  | Some p => if bool_decide (SePrincipalSelfSid = sid) then p else sid
  | None => sid
  end.

(** What the attributes of the entry [i] of the list allow. *)
Definition counts (Deny Restricted : bool) (i : nat) (Attributes : Z) : bool :=
  (negb Restricted && (i =? 0)%nat && negb (has Attributes SE_GROUP_USE_FOR_DENY_ONLY))
  || has Attributes SE_GROUP_ENABLED
  || (Deny && has Attributes SE_GROUP_USE_FOR_DENY_ONLY).

(** The first entry with this SID decides. *)
Definition in_list (Deny Restricted : bool) (l : list (mem * Z)) (sid : mem) : bool :=
  match list_find (fun p => fst p = sid) l with
  | Some (i, (_, Attributes)) => counts Deny Restricted i Attributes
  | None => false
  end.

Definition in_token (T : TOKEN) (self : option mem) (sid : mem) (Deny Restricted : bool) : bool :=
  in_list Deny Restricted (sid_list T Restricted) (substitute self sid).

Lemma SePrincipalSelfSid_at : sid_at SePrincipalSelfSid SePrincipalSelfSid.
Proof. apply sid_of_at; [done|repeat constructor; lia|simpl; lia]. Qed.

Lemma SeWorldSid_at : sid_at SeWorldSid SeWorldSid.
Proof. apply sid_of_at; [done|repeat constructor; lia|simpl; lia]. Qed.

Lemma token_list_ok T Restricted p :
  token_ok T -> p ∈ sid_list T Restricted -> sid_at (fst p) (fst p).
Proof. intros HT Hp. apply HT, elem_of_app. destruct Restricted; auto. Qed.

Lemma sid_in_array_find s sid c Deny Restricted l : forall k,
  sid_at s sid -> sid !! 1%nat = Some c -> (forall p, p ∈ l -> sid_at (fst p) (fst p)) ->
  sid_in_array s (Z.of_nat (length sid)) (SID_REVISION + 256 * c) Deny Restricted (Z.of_nat k) l
  = Some (match list_find (fun p => fst p = sid) l with
          | Some (i, (_, Attributes)) => counts Deny Restricted (k + i) Attributes
          | None => false
          end).
Proof.
  induction l as [|[t a] l IH]; intros k Hs Hc Hl; [done|].
  assert (Ht : sid_at t t) by (apply (Hl (t, a)); left).
  destruct (sid_count _ _ Ht) as (c' & Hc' & _ & Hlen').
  destruct (sid_count _ _ Hs) as (c'' & Hc'' & _ & Hlen). rewrite Hc in Hc''. injection Hc'' as <-.
  cbn [sid_in_array list_find fst]. rewrite (sid_word _ _ _ Ht Hc'). cbn [mbind option_bind].
  replace (if _ =? _ then _ else _) with (Some (bool_decide (sid = t))).
  2:{ destruct (Z.eqb_spec (SID_REVISION + 256 * c') (SID_REVISION + 256 * c)) as [E|E].
      - rewrite Nat2Z.id. destruct (sid_prefix _ _ Hs) as [u ->].
        pose proof (RtlEqualMemory_spec sid t u []) as H. rewrite app_nil_r in H.
        rewrite H by lia. done.
      - apply f_equal, bool_decide_eq_false_2. intros <-. congruence. }
  cbn [mbind option_bind]. destruct (decide (t = sid)) as [<-|Hne].
  - rewrite bool_decide_eq_true_2 by done. unfold counts.
    rewrite Nat.add_0_r. by destruct k.
  - rewrite bool_decide_eq_false_2 by congruence.
    replace (Z.of_nat k + 1) with (Z.of_nat (S k)) by lia.
    rewrite IH by (done || (intros p Hp; apply Hl; by right)).
    destruct (list_find _ l) as [[i [u b]]|]; simpl; [|done].
    by replace (k + S i)%nat with (S (k + i)) by lia.
Qed.

(** [SepSidInTokenEx] computes [in_token]. *)
Lemma SepSidInTokenEx_spec T self s sid Deny Restricted :
  token_ok T -> self_ok self -> sid_at s sid ->
  SepSidInTokenEx T self s Deny Restricted = Some (in_token T self sid Deny Restricted).
Proof.
  intros HT Hself Hs.
  assert (E : exists s', sid_at s' (substitute self sid) /\
    match self with
    | None => Some s
    | Some Principal =>
        b ← RtlEqualSid SePrincipalSelfSid s; Some (if (b : bool) then Principal else s)
    end = Some s').
  { destruct self as [p|]; cbn [substitute]; [|by exists s].
    rewrite (RtlEqualSid_spec _ _ _ _ SePrincipalSelfSid_at Hs). cbn [mbind option_bind].
    case_bool_decide; [exists p; auto|by exists s]. }
  destruct E as (s' & Hs' & E). unfold SepSidInTokenEx. rewrite E. cbn [mbind option_bind].
  destruct (sid_count _ _ Hs') as (c & Hc & _ & _).
  rewrite (sid_length _ _ Hs'), (sid_word _ _ _ Hs' Hc). cbn [mbind option_bind].
  apply (sid_in_array_find s' (substitute self sid) c Deny Restricted _ 0 Hs' Hc).
  intros p Hp. by apply (token_list_ok T Restricted).
Qed.

(** A SID counts for a token exactly if the first entry of the token's list
    with this SID is enabled, or is the user (not used for deny only, full list),
    or is used for deny only and the question is for a deny; S-1-5-10 is replaced
    by the principal's SID.  The scan never leaves the memory of the SIDs. *)
Theorem sid_in_token_iff T self s sid Deny Restricted :
  token_ok T -> self_ok self -> sid_at s sid ->
  exists b, SepSidInTokenEx T self s Deny Restricted = Some b /\
  (b = true <-> exists i a, sid_list T Restricted !! i = Some (substitute self sid, a) /\
    (forall j p, (j < i)%nat -> sid_list T Restricted !! j = Some p -> fst p <> substitute self sid) /\
    (has a SE_GROUP_ENABLED = true \/
     (Restricted = false /\ i = 0%nat /\ has a SE_GROUP_USE_FOR_DENY_ONLY = false) \/
     (Deny = true /\ has a SE_GROUP_USE_FOR_DENY_ONLY = true))).
Proof.
  intros HT Hself Hs. rewrite (SepSidInTokenEx_spec T self s sid) by done.
  eexists. split; [reflexivity|]. unfold in_token, in_list. split.
  - destruct (list_find _ _) as [[i [t a]]|] eqn:E; [|done].
    apply list_find_Some in E as (Hi & Ht & Hj). simpl in Ht. subst t.
    unfold counts. rewrite !orb_true_iff, !andb_true_iff, !negb_true_iff, Nat.eqb_eq.
    intros Hc. exists i, a. split_and!; [done| |tauto]. intros j p Hlt Hp. by apply (Hj j p).
  - intros (i & a & Hi & Hj & Ha).
    replace (list_find _ _) with (Some (i, (substitute self sid, a))).
    2:{ symmetry. apply list_find_Some. split_and!; [done..|]. intros j p Hp Hlt. by apply (Hj j p). }
    unfold counts. rewrite !orb_true_iff, !andb_true_iff, !negb_true_iff, Nat.eqb_eq. tauto.
Qed.

(** ** Privileges *)

(** The token holds the privilege and it is enabled. *)
Definition privilege_enabled (T : TOKEN) (Luid : LUID) : bool :=
  match token_privilege (Privileges T) Luid with
  | Some a => has a SE_PRIVILEGE_ENABLED
  | None => false
  end.

Lemma privilege_loop_count T l : forall Required,
  1 <= Required ->
  fst (privilege_loop T l Required)
  = (Required <=? Z.of_nat (length (filter (fun p => privilege_enabled T (fst p) = true) l))).
Proof.
  induction l as [|[luid a] l IH]; intros R HR; [cbn; case_cmp|].
  cbn [privilege_loop]. fold (privilege_enabled T luid).
  rewrite filter_cons. cbn [fst]. destruct (privilege_enabled T luid) eqn:E.
  - rewrite decide_True by done. cbn [length]. destruct (Z.eqb_spec (R - 1) 0) as [E1|E1].
    + simpl. case_cmp.
    + specialize (IH (R - 1) ltac:(lia)). destruct (privilege_loop T l (R - 1)). simpl in *.
      rewrite IH. case_cmp.
  - rewrite decide_False by done. specialize (IH R HR).
    destruct (privilege_loop T l R). simpl in *. done.
Qed.

(** The request with the privileges marked that the check used. *)
Definition marked (T : TOKEN) (p q : LUID * Z) : Prop :=
  q = p \/ (privilege_enabled T (fst p) = true /\
            q = (fst p, Z.lor (snd p) SE_PRIVILEGE_USED_FOR_ACCESS)).

Lemma privilege_loop_marks T l : forall Required,
  Forall2 (marked T) l (snd (privilege_loop T l Required)).
Proof.
  assert (Hrefl : forall l, Forall2 (marked T) l l).
  { intros l'. apply Forall_Forall2_diag, Forall_forall. by left. }
  induction l as [|[luid a] l IH]; intros R; [done|].
  cbn [privilege_loop]. fold (privilege_enabled T luid).
  destruct (privilege_enabled T luid) eqn:E.
  - destruct (_ =? _); [constructor; [by right|apply Hrefl]|].
    specialize (IH (R - 1)). destruct (privilege_loop T l (R - 1)). constructor; [by right|done].
  - specialize (IH R). destruct (privilege_loop T l R). constructor; [by left|done].
Qed.

Lemma filter_all {A} (P : A -> Prop) `{!forall x, Decision (P x)} (l : list A) :
  (length l <= length (filter P l))%nat <-> Forall P l.
Proof.
  induction l as [|x l IH]; [split; [constructor|simpl; lia]|].
  rewrite filter_cons. pose proof (length_filter P l). destruct (decide (P x)) as [Hx|Hx]; simpl.
  - rewrite Forall_cons_iff, <- IH. split; [intros; split; [done|lia]|intros []; lia].
  - split; [lia|]. intros HF. inversion HF; contradiction.
Qed.

Lemma filter_some {A} (P : A -> Prop) `{!forall x, Decision (P x)} (l : list A) :
  (1 <= length (filter P l))%nat <-> Exists P l.
Proof.
  induction l as [|x l IH]; [split; [simpl; lia|inversion 1]|].
  rewrite filter_cons, Exists_cons, <- IH. destruct (decide (P x)); simpl; [|tauto].
  split; [by left|lia].
Qed.

(** A privilege check asked from user mode succeeds exactly if all the
    privileges (a non-empty set, [PRIVILEGE_SET_ALL_NECESSARY]) or some privilege of
    the set are held and enabled; kernel mode always passes.  The privileges marked
    as used are privileges the token has enabled, and nothing else changes. *)
Theorem privilege_check_iff T l Control Mode :
  let '(ok, l') := SepPrivilegeCheck T l Control Mode in
  Forall2 (marked T) l l' /\
  (ok = true <->
   match Mode with
   | KernelMode => True
   | UserMode =>
       if has Control PRIVILEGE_SET_ALL_NECESSARY
       then l <> [] /\ Forall (fun p => privilege_enabled T (fst p) = true) l
       else Exists (fun p => privilege_enabled T (fst p) = true) l
   end).
Proof.
  destruct (SepPrivilegeCheck T l Control Mode) as [ok l'] eqn:E.
  unfold SepPrivilegeCheck in E. destruct Mode.
  { injection E as <- <-. split; [|done]. apply Forall_Forall2_diag, Forall_forall. by left. }
  destruct l as [|p l].
  { destruct (has _ _); injection E as <- <-; (split; [done|]); split; try done.
    - by intros [? _].
    - inversion 1. }
  set (R := if has Control PRIVILEGE_SET_ALL_NECESSARY then _ else 1) in E.
  assert (HR : 1 <= R) by (unfold R; simpl; destruct (has _ _); lia).
  pose proof (privilege_loop_count T (p :: l) R HR) as Hc.
  pose proof (privilege_loop_marks T (p :: l) R) as Hm. rewrite E in Hc, Hm. cbn [fst snd] in Hc, Hm.
  split; [done|]. rewrite Hc, Z.leb_le. unfold R. destruct (has _ _).
  - rewrite <- Nat2Z.inj_le, filter_all. split; [by split|by intros []].
  - change 1 with (Z.of_nat 1). rewrite <- Nat2Z.inj_le. apply filter_some.
Qed.

Lemma single_privilege_check T luid Mode :
  SepSinglePrivilegeCheck luid T Mode
  = match Mode with KernelMode => true | UserMode => privilege_enabled T luid end.
Proof.
  destruct Mode; [done|]. unfold SepSinglePrivilegeCheck, SepPrivilegeCheck. cbn.
  fold (privilege_enabled T luid). by destruct (privilege_enabled T luid).
Qed.

(** ** The privilege policy of an access check *)

Definition held (T : TOKEN) (Mode : KPROCESSOR_MODE) (Luid : LUID) : bool :=
  match Mode with KernelMode => true | UserMode => privilege_enabled T Luid end.

(** A right that a privilege grants: [ACCESS_SYSTEM_SECURITY] always, [WRITE_OWNER]
    with the privilege to take ownership. *)
Definition privileged (T : TOKEN) (Mode : KPROCESSOR_MODE) (D i : Z) : bool :=
  Z.testbit D i && ((i =? 24) || ((i =? 19) && held T Mode SeTakeOwnershipPrivilege)).

(** The privileges used for the desired rights [D]. *)
Definition used_privileges (T : TOKEN) (Mode : KPROCESSOR_MODE) (D : Z) : list (LUID * Z) :=
  (if privileged T Mode D 19 then [(SeTakeOwnershipPrivilege, SE_PRIVILEGE_USED_FOR_ACCESS)] else [])
  ++ (if privileged T Mode D 24 then [(SeSecurityPrivilege, SE_PRIVILEGE_USED_FOR_ACCESS)] else []).

Lemma bit_mask k i : 0 <= k -> 0 <= i -> Z.testbit (2 ^ k) i = (i =? k).
Proof. intros Hk Hi. rewrite Z.pow2_bits_eqb by lia. apply Z.eqb_sym. Qed.

(** The mask [AccessMask] of the function. *)
Definition policy_mask (b24 b19 : bool) : Z :=
  let m := if b24 then 2 ^ 24 else 0 in if b19 then Z.lor m (2 ^ 19) else m.

Lemma policy_mask_range b24 b19 : mask (policy_mask b24 b19).
Proof. unfold mask. destruct b24, b19; vm_compute; split; (discriminate || reflexivity). Qed.

Lemma policy_mask_testbit b24 b19 i :
  0 <= i -> Z.testbit (policy_mask b24 b19) i = (i =? 24) && b24 || (i =? 19) && b19.
Proof.
  intros Hi. unfold policy_mask. destruct b19, b24; rewrite ?Z.lor_spec, ?Z.bits_0, ?bit_mask by lia;
    by rewrite ?andb_true_r, ?andb_false_r, ?orb_false_r.
Qed.

Lemma policy_check D G T want Mode :
  let pol := SePrivilegePolicyCheck true D G None T want Mode in
  let pm := policy_mask (Z.testbit D 24)
              (Z.testbit D 19 && held T Mode SeTakeOwnershipPrivilege) in
  if Z.testbit D 24 && negb (held T Mode SeSecurityPrivilege)
  then pol = mkPolicy STATUS_PRIVILEGE_NOT_HELD D G None
  else pol = mkPolicy STATUS_SUCCESS (clear_bits D pm) (Z.lor G pm)
    (if want then Some (match used_privileges T Mode D with [] => None | l => Some l end) else None).
Proof.
  assert (H24 : has D ACCESS_SYSTEM_SECURITY = Z.testbit D 24) by (by apply (has_bit D 24)).
  assert (H19 : has D WRITE_OWNER = Z.testbit D 19) by (by apply (has_bit D 19)).
  unfold SePrivilegePolicyCheck, used_privileges, privileged. rewrite H24, H19.
  rewrite !single_privilege_check. fold (held T Mode SeSecurityPrivilege).
  fold (held T Mode SeTakeOwnershipPrivilege).
  by destruct (Z.testbit D 24), (Z.testbit D 19), (held T Mode SeSecurityPrivilege),
    (held T Mode SeTakeOwnershipPrivilege), want.
Qed.

(** The privilege policy: [ACCESS_SYSTEM_SECURITY] without the security
    privilege fails and leaves the masks alone; otherwise it and, with the privilege
    to take ownership, [WRITE_OWNER] move from the desired to the granted rights, no
    other right changes, and the returned set names the privileges used. *)
Theorem privilege_policy_exact D G T Mode :
  mask D -> mask G ->
  let pol := SePrivilegePolicyCheck true D G None T true Mode in
  (pol_Status pol = STATUS_PRIVILEGE_NOT_HELD <->
     Z.testbit D 24 = true /\ held T Mode SeSecurityPrivilege = false) /\
  (pol_Status pol <> STATUS_PRIVILEGE_NOT_HELD ->
     pol_Status pol = STATUS_SUCCESS /\
     (forall i, 0 <= i < 32 ->
        Z.testbit (pol_Desired pol) i = Z.testbit D i && negb (privileged T Mode D i) /\
        Z.testbit (pol_Granted pol) i = Z.testbit G i || privileged T Mode D i) /\
     exists l, pol_Set pol = Some l /\ default [] l = used_privileges T Mode D).
Proof.
  intros HD HG pol. pose proof (policy_check D G T true Mode) as H. cbv zeta in H. fold pol in H.
  destruct (Z.testbit D 24 && negb (held T Mode SeSecurityPrivilege)) eqn:E.
  - rewrite andb_true_iff, negb_true_iff in E. rewrite H. cbn [pol_Status]. done.
  - rewrite H. cbn [pol_Status pol_Desired pol_Granted pol_Set]. split.
    { split; [done|]. intros [E1 E2]. by rewrite E1, E2 in E. }
    intros _. split_and!; [done| |].
    + intros i Hi.
      assert (Hp : Z.testbit (policy_mask (Z.testbit D 24)
        (Z.testbit D 19 && held T Mode SeTakeOwnershipPrivilege)) i = privileged T Mode D i).
      { rewrite policy_mask_testbit by lia. unfold privileged.
        destruct (Z.eqb_spec i 24), (Z.eqb_spec i 19); subst; try lia; simpl;
          rewrite ?andb_true_r, ?andb_false_r, ?orb_false_r; done. }
      rewrite clear_bits_testbit, Z.lor_spec, Hp by (apply policy_mask_range || lia || done).
      split; [|done]. unfold privileged. by destruct (Z.testbit D i).
    + eexists. split; [reflexivity|]. by destruct (used_privileges T Mode D).
Qed.

(** A token whose user is S-1-5-21-500, with the enabled group S-1-1-0, the group
    S-1-5-32-544 for deny only, and the privilege to take ownership enabled. *)
Definition user_sid : mem := sid_of [0; 0; 0; 0; 0; 5] [21; 500].
Definition admin_sid : mem := sid_of [0; 0; 0; 0; 0; 5] [32; 544].

Definition example_token : TOKEN :=
  mkToken [(user_sid, 0); (SeWorldSid, 7); (admin_sid, 0x10)] []
    [(SeTakeOwnershipPrivilege, 2); (SeSecurityPrivilege, 0)] 0.

Lemma user_sid_at : sid_at user_sid user_sid.
Proof. apply sid_of_at; [done|repeat constructor; lia|simpl; lia]. Qed.

Lemma admin_sid_at : sid_at admin_sid admin_sid.
Proof. apply sid_of_at; [done|repeat constructor; lia|simpl; lia]. Qed.

Lemma example_token_ok : token_ok example_token.
Proof.
  intros p Hp. simpl in Hp. rewrite !elem_of_cons, elem_of_nil in Hp.
  destruct Hp as [-> | [-> | [-> | []]]]; [apply user_sid_at|apply SeWorldSid_at|apply admin_sid_at].
Qed.

(** The deny-only group counts for a deny; the user always counts. *)
Lemma sid_in_token_iff_witness :
  SepSidInTokenEx example_token None admin_sid false false = Some false /\
  exists b, SepSidInTokenEx example_token None admin_sid true false = Some b /\ b = true.
Proof.
  split; [reflexivity|].
  destruct (sid_in_token_iff example_token None admin_sid admin_sid true false
    example_token_ok ltac:(done) admin_sid_at) as (b & Hb & Hiff).
  exists b. split; [exact Hb|]. apply Hiff. exists 2%nat, 0x10. split_and!; [done| |right; right; done].
  intros [|[|j]] p Hj Hp; [..|lia]; injection Hp as <-; vm_compute; discriminate.
Defined.

Lemma privilege_policy_exact_witness :
  let pol := SePrivilegePolicyCheck true 0x80001 0 None example_token true UserMode in
  pol_Desired pol = 1 /\ pol_Status pol = STATUS_SUCCESS.
Proof.
  split; [reflexivity|].
  apply (privilege_policy_exact 0x80001 0 example_token UserMode);
    [unfold mask; lia..|discriminate].
Defined.
