(* ===== verification/SeObjType.v ===== *)
(** Object type lists: ntoskrnl/se/objtype.c. *)

From S2P Require Import Prelude Bytes RtlSid RtlAcl SeToken.

(** A GUID is its sixteen bytes. *)
Definition GUID : Type := list Z.

Record ACCESS_CHECK_RIGHTS := mkRights {
  RemainingAccessRights : Z;
  GrantedAccessRights : Z;
  DeniedAccessRights : Z
}.

Record OBJECT_TYPE_LIST_INTERNAL := mkObjectType {
  ObjectTypeGuid : GUID;
  Level : Z;
  ObjectAccessRights : ACCESS_CHECK_RIGHTS
}.

Definition ACCESS_OBJECT_GUID : Z := 0.
Definition ACCESS_MAX_LEVEL : Z := 4.
Definition sizeof_OBJECT_TYPE_LIST : Z := 8.

(** An entry of the caller's list: its level, and the GUID its pointer leads to,
    [None] when reading it raises. *)
Record OBJECT_TYPE_LIST := mkUserType {
  ol_Level : Z;
  ol_ObjectType : option GUID
}.

(** The loop of [SepValidateObjectTypeList]: index and level of the entry before;
    a list that ends early raises as well. *)
Fixpoint validate_loop (n : nat) (ObjectTypeList : list OBJECT_TYPE_LIST)
    (ObjectTypeIndex PrevLevel : Z) : Z :=
  match n with
  | O => STATUS_SUCCESS
  | S n' =>
      match ObjectTypeList with
      | [] => STATUS_ACCESS_VIOLATION
      | o :: rest =>
          let Level := ol_Level o in
          if ACCESS_MAX_LEVEL <? Level then STATUS_INVALID_PARAMETER else
          if negb (ObjectTypeIndex =? 0) && (Level =? ACCESS_OBJECT_GUID)
          then STATUS_INVALID_PARAMETER else
          if negb (ObjectTypeIndex =? 0) && (PrevLevel + 1 <? Level)
          then STATUS_INVALID_PARAMETER else
          if (ObjectTypeIndex =? 0) && negb (Level =? ACCESS_OBJECT_GUID)
          then STATUS_INVALID_PARAMETER else
          match ol_ObjectType o with
          | None => STATUS_ACCESS_VIOLATION
          | Some _ => validate_loop n' rest (ObjectTypeIndex + 1) Level
          end
      end
  end.

Definition SepValidateObjectTypeList (ObjectTypeList : list OBJECT_TYPE_LIST)
    (ObjectTypeListLength : Z) : Z :=
  let Size := u32 (ObjectTypeListLength * sizeof_OBJECT_TYPE_LIST) in
  if Size =? 0 then STATUS_INVALID_PARAMETER else
  validate_loop (Z.to_nat ObjectTypeListLength) ObjectTypeList 0 0.

Definition SepIsEqualObjectTypeGuid (Guid1 Guid2 : GUID) : bool := bool_decide (Guid1 = Guid2).

(** The ACE's memory at the place of its [ObjectType] member. *)
Definition SepGetObjectTypeGuidFromAce (Ace : mem) : option GUID := rd_bytes Ace 12 16.

(** The index of the first entry with this GUID. *)
Fixpoint guid_index (ObjectTypeList : list OBJECT_TYPE_LIST_INTERNAL) (Guid : GUID) (i : nat)
  : option nat :=
  match ObjectTypeList with
  | [] => None
  | o :: rest =>
      if SepIsEqualObjectTypeGuid Guid (ObjectTypeGuid o) then Some i
      else guid_index rest Guid (S i)
  end.

Definition SepObjectTypeGuidInList (ObjectTypeList : list OBJECT_TYPE_LIST_INTERNAL)
    (Guid : GUID) : option nat := guid_index ObjectTypeList Guid 0.

(** The copy loop: [None] is an exception. *)
Fixpoint capture_loop (n : nat) (ObjectTypeList : list OBJECT_TYPE_LIST)
  : option (list OBJECT_TYPE_LIST_INTERNAL) :=
  match n, ObjectTypeList with
  | O, _ => Some []
  | S n', o :: rest =>
      g ← ol_ObjectType o;
      l ← capture_loop n' rest;
      Some (mkObjectType g (ol_Level o) (mkRights 0 0 0) :: l)
  | S _, [] => None
  end.

(** The caller's memory may change while the function runs: [ObjectTypeList] is what
    the validation reads, [copied] what the copy loop reads.  Result: the status
    and [*CapturedObjectTypeList] if it is written. *)
Definition SeCaptureObjectTypeList (alloc_ok : bool)
    (ObjectTypeList copied : option (list OBJECT_TYPE_LIST)) (ObjectTypeListLength : Z)
    (PreviousMode : KPROCESSOR_MODE) : Z * option (option (list OBJECT_TYPE_LIST_INTERNAL)) :=
  match PreviousMode with
  | KernelMode => (STATUS_NOT_IMPLEMENTED, None)
  | UserMode =>
      if ObjectTypeListLength =? 0 then (STATUS_SUCCESS, Some None) else
      match ObjectTypeList, copied with
      | Some l, Some l' =>
          let Status := SepValidateObjectTypeList l ObjectTypeListLength in
          if negb (NT_SUCCESS Status) then (Status, None) else
          if negb alloc_ok then (STATUS_INSUFFICIENT_RESOURCES, None) else
          match capture_loop (Z.to_nat ObjectTypeListLength) l' with
          | None => (STATUS_ACCESS_VIOLATION, None)
          | Some captured => (STATUS_SUCCESS, Some (Some captured))
          end
      | _, _ => (STATUS_INVALID_PARAMETER, None)
      end
  end.

(** * Correctness *)

(** A list describes a tree in pre-order: the root is the only entry of level 0, no
    level exceeds [ACCESS_MAX_LEVEL], and an entry is at most one level below the
    entry before it. *)
Inductive level_tree : Z -> list Z -> Prop :=
| tree_nil prev : level_tree prev []
| tree_cons prev lvl ls :
    1 <= lvl <= ACCESS_MAX_LEVEL -> lvl <= prev + 1 -> level_tree lvl ls ->
    level_tree prev (lvl :: ls).

Definition type_tree (ls : list Z) : Prop := exists ls', ls = 0 :: ls' /\ level_tree 0 ls'.

Definition readable (o : OBJECT_TYPE_LIST) : Prop := is_Some (ol_ObjectType o).

Definition level_ok (o : OBJECT_TYPE_LIST) : Prop := 0 <= ol_Level o < 2 ^ 16.

Lemma validate_loop_inner l : forall k prev,
  Forall level_ok l -> 0 < k ->
  (validate_loop (length l) l k prev = STATUS_SUCCESS <->
   level_tree prev (ol_Level <$> l) /\ Forall readable l).
Proof.
  induction l as [|o l IH]; intros k prev Hl Hk.
  { split; [|done]. intros _. split; constructor. }
  apply Forall_cons_iff in Hl as [Ho Hl]. unfold level_ok in Ho. cbn [length validate_loop fmap list_fmap].
  rewrite (proj2 (Z.eqb_neq k 0)) by lia. cbn [negb andb].
  destruct (Z.ltb_spec ACCESS_MAX_LEVEL (ol_Level o)).
  { split; [done|]. intros [H' _]. inversion H'; lia. }
  destruct (Z.eqb_spec (ol_Level o) ACCESS_OBJECT_GUID).
  { split; [done|]. intros [H' _]. inversion H'; unfold ACCESS_OBJECT_GUID in *; lia. }
  destruct (Z.ltb_spec (prev + 1) (ol_Level o)).
  { split; [done|]. intros [H' _]. inversion H'; lia. }
  unfold ACCESS_OBJECT_GUID in *. rewrite Forall_cons_iff. unfold readable at 1.
  destruct (ol_ObjectType o) as [g|].
  - rewrite IH by (done || lia). split.
    + intros [H1 H2]. split; [constructor; [lia..|done]|]. split; [by eexists|done].
    + intros [H1 [_ H2]]. by inversion H1.
  - split; [done|]. intros [_ [H' _]]. by destruct H'.
Qed.

Lemma validate_spec l n :
  Forall level_ok l -> Z.of_nat (length l) = n -> 0 < n < 2 ^ 29 ->
  (SepValidateObjectTypeList l n = STATUS_SUCCESS <->
   type_tree (ol_Level <$> l) /\ Forall readable l).
Proof.
  intros Hl Hn Hr. unfold SepValidateObjectTypeList, sizeof_OBJECT_TYPE_LIST.
  rewrite u32_small, (proj2 (Z.eqb_neq (n * 8) 0)) by lia.
  replace (Z.to_nat n) with (length l) by lia.
  destruct l as [|o l]; [simpl in Hn; lia|]. apply Forall_cons_iff in Hl as [Ho Hl].
  cbn [length validate_loop fmap list_fmap]. rewrite Z.eqb_refl. cbn [negb andb].
  unfold type_tree, level_ok, ACCESS_OBJECT_GUID in *.
  destruct (Z.ltb_spec ACCESS_MAX_LEVEL (ol_Level o)) as [H|H]; unfold ACCESS_MAX_LEVEL in H.
  { split; [done|]. intros [(ls & [= E _] & _) _]. lia. }
  destruct (Z.eqb_spec (ol_Level o) 0) as [E|E]; cbn [negb].
  2:{ split; [done|]. intros [(ls & [= E' _] & _) _]. lia. }
  rewrite Forall_cons_iff. unfold readable at 1. destruct (ol_ObjectType o) as [g|].
  - rewrite E, validate_loop_inner by (done || lia). split.
    + intros [H1 H2]. split; [by eexists|]. split; [by eexists|done].
    + intros [(ls & [= <-] & H1) [_ H2]]. done.
  - split; [done|]. intros [_ [H' _]]. by destruct H'.
Qed.

(** The validation has three outcomes. *)
Lemma validate_loop_status n : forall l k prev,
  validate_loop n l k prev ∈ [STATUS_SUCCESS; STATUS_INVALID_PARAMETER; STATUS_ACCESS_VIOLATION].
Proof.
  induction n as [|n IH]; intros l k prev; [left|]. cbn [validate_loop].
  destruct l as [|o l]; [by repeat (left || right)|]. repeat case_match; auto;
    rewrite !elem_of_cons; tauto.
Qed.

Lemma validate_status l n :
  NT_SUCCESS (SepValidateObjectTypeList l n) = true -> SepValidateObjectTypeList l n = STATUS_SUCCESS.
Proof.
  unfold SepValidateObjectTypeList. destruct (_ =? 0); [done|].
  pose proof (validate_loop_status (Z.to_nat n) l 0 0) as H.
  rewrite !elem_of_cons, elem_of_nil in H. destruct H as [-> | [-> | [-> | []]]]; done.
Qed.

(** An entry and its captured copy. *)
Definition captures (o : OBJECT_TYPE_LIST) (c : OBJECT_TYPE_LIST_INTERNAL) : Prop :=
  ol_ObjectType o = Some (ObjectTypeGuid c) /\ Level c = ol_Level o /\
  ObjectAccessRights c = mkRights 0 0 0.

Lemma capture_loop_spec l :
  Forall readable l -> exists l', capture_loop (length l) l = Some l' /\ Forall2 captures l l'.
Proof.
  induction 1 as [|o l [g Hg] _ (l' & IH & H2)]; [by exists []|].
  cbn [length capture_loop]. rewrite Hg. cbn [mbind option_bind]. rewrite IH. cbn [mbind option_bind].
  eexists. split; [done|]. constructor; [done|done].
Qed.

(** Capturing an object type list that does not change meanwhile succeeds
    exactly for a tree of readable entries in pre-order (one root, levels at most
    [ACCESS_MAX_LEVEL], no level skipped), and yields a copy of it with no rights
    recorded; an empty list is captured as none. *)
Theorem capture_iff l n :
  Forall level_ok l -> Z.of_nat (length l) = n -> n < 2 ^ 29 ->
  let '(Status, captured) := SeCaptureObjectTypeList true (Some l) (Some l) n UserMode in
  (Status = STATUS_SUCCESS <->
   l = [] \/ (type_tree (ol_Level <$> l) /\ Forall readable l)) /\
  (Status = STATUS_SUCCESS ->
   if n =? 0 then captured = Some None else exists l', captured = Some (Some l') /\ Forall2 captures l l').
Proof.
  intros Hl Hn Hr. unfold SeCaptureObjectTypeList. destruct (Z.eqb_spec n 0) as [E|E].
  { split; [|done]. split; [|done]. left. destruct l; [done|simpl in Hn; lia]. }
  pose proof (validate_spec l n Hl Hn ltac:(lia)) as Hv.
  assert (Hne : l <> []) by (intros ->; simpl in Hn; lia).
  destruct (NT_SUCCESS (SepValidateObjectTypeList l n)) eqn:Es; cbn [negb].
  - assert (Hs : SepValidateObjectTypeList l n = STATUS_SUCCESS) by (by apply validate_status).
    destruct (capture_loop_spec l) as (l' & Hc & H2); [apply Hv, Hs|].
    replace (Z.to_nat n) with (length l) by lia. rewrite Hc. split; [|by eexists].
    split; [|done]. intros _. right. by apply Hv.
  - split; [|intros H; by rewrite H in Es]. split; [intros H; by rewrite H in Es|].
    intros [H|H]; [done|]. by apply Hv in H.
Qed.

Definition example_guid (b : Z) : GUID := b :: replicate 15 0.

(** An object with a property set and a property in it. *)
Definition example_types : list OBJECT_TYPE_LIST :=
  [mkUserType 0 (Some (example_guid 1)); mkUserType 1 (Some (example_guid 2));
   mkUserType 2 (Some (example_guid 3)); mkUserType 1 (Some (example_guid 4))].

Lemma capture_iff_witness :
  fst (SeCaptureObjectTypeList true (Some example_types) (Some example_types) 4 UserMode)
  = STATUS_SUCCESS.
Proof.
  assert (Hl : Forall level_ok example_types) by (repeat constructor; cbn; lia).
  pose proof (capture_iff example_types 4 Hl eq_refl ltac:(lia)) as H.
  destruct (SeCaptureObjectTypeList _ _ _ _ _) as [Status captured] eqn:E.
  apply H. right. split.
  - eexists. split; [reflexivity|]. repeat (constructor; [unfold ACCESS_MAX_LEVEL; cbn; lia..|]).
    constructor.
  - repeat constructor; by eexists.
Defined.
