(* ===== verification/SeAccess.v ===== *)
(** The access check: ntoskrnl/se/accesschk.c.

    A DACL is the memory from its header on, an ACE the memory from its address on.
    [None] is an access outside that memory or a failed allocation-free
    precondition (a NULL pointer dereferenced); statuses and masks are results. *)

From S2P Require Import Prelude Bytes RtlSid RtlAcl SeToken SeObjType.

Definition INHERIT_ONLY_ACE : Z := 8.

(** ** Rights of an object type list *)

(** [Denied |= AccessMask & ~Granted] and [Granted |= AccessMask & ~Denied]. *)
Definition deny_rights (AccessMask : Z) (r : ACCESS_CHECK_RIGHTS) : ACCESS_CHECK_RIGHTS :=
  mkRights (RemainingAccessRights r) (GrantedAccessRights r)
    (Z.lor (DeniedAccessRights r) (clear_bits AccessMask (GrantedAccessRights r))).

Definition allow_rights (AccessMask : Z) (r : ACCESS_CHECK_RIGHTS) : ACCESS_CHECK_RIGHTS :=
  mkRights (RemainingAccessRights r)
    (Z.lor (GrantedAccessRights r) (clear_bits AccessMask (DeniedAccessRights r)))
    (DeniedAccessRights r).

Definition update_object (f : ACCESS_CHECK_RIGHTS -> ACCESS_CHECK_RIGHTS)
    (o : OBJECT_TYPE_LIST_INTERNAL) : OBJECT_TYPE_LIST_INTERNAL :=
  mkObjectType (ObjectTypeGuid o) (Level o) (f (ObjectAccessRights o)).

(** The [for] loop over the children of an object of level [TargetLevel]. *)
Fixpoint update_children (f : ACCESS_CHECK_RIGHTS -> ACCESS_CHECK_RIGHTS) (TargetLevel : Z)
    (l : list OBJECT_TYPE_LIST_INTERNAL) : list OBJECT_TYPE_LIST_INTERNAL :=
  match l with
  | [] => []
  | o :: rest =>
      if Level o <=? TargetLevel then o :: rest
      else update_object f o :: update_children f TargetLevel rest
  end.

(** [ReturnedObjectIndex]: the root without a GUID, [Some None] if the GUID is not
    in the list. *)
Definition object_index (l : list OBJECT_TYPE_LIST_INTERNAL) (Guid : option GUID) : option nat :=
  match Guid with
  | None => Some 0%nat
  | Some g => SepObjectTypeGuidInList l g
  end.

Definition update_result_list (f : ACCESS_CHECK_RIGHTS -> ACCESS_CHECK_RIGHTS)
    (l : list OBJECT_TYPE_LIST_INTERNAL) (Guid : option GUID)
  : option (list OBJECT_TYPE_LIST_INTERNAL) :=
  match object_index l Guid with
  | None => Some l
  | Some i =>
      o ← l !! i;
      Some (take i l ++ update_object f o :: update_children f (Level o) (drop (S i) l))
  end.

Definition SepDenyAccessObjectTypeResultList (l : list OBJECT_TYPE_LIST_INTERNAL)
    (AccessMask : Z) (Guid : option GUID) : option (list OBJECT_TYPE_LIST_INTERNAL) :=
  update_result_list (deny_rights AccessMask) l Guid.

Definition SepAllowAccessObjectTypeResultList (l : list OBJECT_TYPE_LIST_INTERNAL)
    (AccessMask : Z) (Guid : option GUID) : option (list OBJECT_TYPE_LIST_INTERNAL) :=
  update_result_list (allow_rights AccessMask) l Guid.

(** Returns the list and [MustBreak]. *)
Definition SepDenyAccessObjectTypeList (l : list OBJECT_TYPE_LIST_INTERNAL) (AccessMask : Z)
    (Guid : option GUID) : option (list OBJECT_TYPE_LIST_INTERNAL * bool) :=
  match object_index l Guid with
  | None => Some (l, false)
  | Some i =>
      o ← l !! i;
      let MustBreak := has (RemainingAccessRights (ObjectAccessRights o)) AccessMask in
      Some (<[i := update_object (deny_rights AccessMask) o]> l, MustBreak)
  end.

Definition SepAllowAccessObjectTypeList (l : list OBJECT_TYPE_LIST_INTERNAL) (AccessMask : Z)
    (RemoveRemainingRights : bool) (Guid : option GUID)
  : option (list OBJECT_TYPE_LIST_INTERNAL) :=
  match object_index l Guid with
  | None => Some l
  | Some i =>
      o ← l !! i;
      let remove r := if RemoveRemainingRights
        then mkRights (clear_bits (RemainingAccessRights r) AccessMask)
               (GrantedAccessRights r) (DeniedAccessRights r)
        else r in
      Some (<[i := update_object (fun r => allow_rights AccessMask (remove r)) o]> l)
  end.

(** ** Analysis of the ACEs of a DACL *)

Section analyze.
Context (Token : TOKEN) (PrincipalSelfSid : option mem) (IsTokenRestricted : bool).
Context (GenericMapping : option GENERIC_MAPPING).

(** The SID of the ACE is looked up in the token; if it is there, the result is
    the ACE's access mask with its generic rights mapped. *)
Definition ace_access (Ace : mem) (Deny : bool) : option (option Z) :=
  sid ← SepGetSidFromAce Ace;
  Sid ← sid;
  present ← SepSidInTokenEx Token PrincipalSelfSid Sid Deny IsTokenRestricted;
  if (present : bool) then
    Access ← get32 Ace 4;
    Some (Some (match GenericMapping with
                | Some gm => if has Access GENERIC_ACCESS then RtlMapGenericMask Access gm else Access
                | None => Access
                end))
  else Some None.

(** The rights of the object itself, and the object type list if there is one. *)
Definition analysis : Type := ACCESS_CHECK_RIGHTS * option (list OBJECT_TYPE_LIST_INTERNAL).

(** One ACE of the [AccessCheckMaximum] loop. *)
Definition analyze_maximum (UseResultList : bool) (Ace : mem) (st : analysis)
  : option analysis :=
  let '(Rights, ObjectTypeList) := st in
  AceFlags ← get8 Ace 1;
  if has AceFlags INHERIT_ONLY_ACE then Some st else
  type ← AceType Ace 0;
  if type =? ACCESS_DENIED_ACE_TYPE then
    a ← ace_access Ace true;
    Some (match a with Some Access => (deny_rights Access Rights, ObjectTypeList) | None => st end)
  else if type =? ACCESS_ALLOWED_ACE_TYPE then
    a ← ace_access Ace false;
    Some (match a with Some Access => (allow_rights Access Rights, ObjectTypeList) | None => st end)
  else if type =? ACCESS_DENIED_OBJECT_ACE_TYPE then
    a ← ace_access Ace true;
    match a, ObjectTypeList with
    | None, _ => Some st
    | Some Access, None => Some (deny_rights Access Rights, ObjectTypeList)
    | Some Access, Some l =>
        Guid ← SepGetObjectTypeGuidFromAce Ace;
        if negb UseResultList then
          '(l, _) ← SepDenyAccessObjectTypeList l Access (Some Guid); Some (Rights, Some l)
        else
          l ← SepDenyAccessObjectTypeResultList l Access (Some Guid); Some (Rights, Some l)
    end
  else if type =? ACCESS_ALLOWED_OBJECT_ACE_TYPE then
    a ← ace_access Ace false;
    match a, ObjectTypeList with
    | None, _ => Some st
    | Some Access, None => Some (allow_rights Access Rights, ObjectTypeList)
    | Some Access, Some l =>
        Guid ← SepGetObjectTypeGuidFromAce Ace;
        if negb UseResultList then
          l ← SepAllowAccessObjectTypeList l Access false (Some Guid); Some (Rights, Some l)
        else
          l ← SepAllowAccessObjectTypeResultList l Access (Some Guid); Some (Rights, Some l)
    end
  else Some st.

(** [Remaining &= ~Access; Granted |= Access]. *)
Definition grant_regular (Access : Z) (r : ACCESS_CHECK_RIGHTS) : ACCESS_CHECK_RIGHTS :=
  mkRights (clear_bits (RemainingAccessRights r) Access)
    (Z.lor (GrantedAccessRights r) Access) (DeniedAccessRights r).

(** A denied right that is still wanted ends the loop. *)
Definition refute (Access : Z) (st : analysis) : analysis * bool :=
  let r := fst st in
  if has (RemainingAccessRights r) Access
  then ((mkRights (RemainingAccessRights r) (GrantedAccessRights r)
           (Z.lor (DeniedAccessRights r) Access), snd st), true)
  else (st, false).

(** One ACE of the [AccessCheckRegular] loop; the flag is its [break]. *)
Definition analyze_regular (Ace : mem) (st : analysis) : option (analysis * bool) :=
  let '(Rights, ObjectTypeList) := st in
  AceFlags ← get8 Ace 1;
  if has AceFlags INHERIT_ONLY_ACE then Some (st, false) else
  type ← AceType Ace 0;
  if type =? ACCESS_DENIED_ACE_TYPE then
    a ← ace_access Ace true;
    Some (match a with Some Access => refute Access st | None => (st, false) end)
  else if type =? ACCESS_ALLOWED_ACE_TYPE then
    a ← ace_access Ace false;
    Some (match a with
          | Some Access => ((grant_regular Access Rights, ObjectTypeList), false)
          | None => (st, false)
          end)
  else if type =? ACCESS_DENIED_OBJECT_ACE_TYPE then
    a ← ace_access Ace true;
    match a, ObjectTypeList with
    | None, _ => Some (st, false)
    | Some Access, None => Some (refute Access st)
    | Some Access, Some l =>
        Guid ← SepGetObjectTypeGuidFromAce Ace;
        '(l, BreakOnDeny) ← SepDenyAccessObjectTypeList l Access (Some Guid);
        Some ((Rights, Some l), BreakOnDeny)
    end
  else if type =? ACCESS_ALLOWED_OBJECT_ACE_TYPE then
    a ← ace_access Ace false;
    match a, ObjectTypeList with
    | None, _ => Some (st, false)
    | Some Access, None => Some ((grant_regular Access Rights, ObjectTypeList), false)
    | Some Access, Some l =>
        Guid ← SepGetObjectTypeGuidFromAce Ace;
        l ← SepAllowAccessObjectTypeList l Access true (Some Guid);
        Some ((Rights, Some l), false)
    end
  else Some (st, false).
End analyze.

(** The [for] loop over the DACL: [n] ACEs from [AceIndex] on, [step] until it breaks. *)
Fixpoint dacl_loop (step : mem -> analysis -> option (analysis * bool)) (Dacl : mem) (n : nat)
    (AceIndex : Z) (st : analysis) : option analysis :=
  match n with
  | O => Some st
  | S n' =>
      '(Status, CurrentAce) ← RtlGetAce Dacl AceIndex;
      p ← CurrentAce;
      if negb (NT_SUCCESS Status) then None else
      '(st, break) ← step (drop (Z.to_nat p) Dacl) st;
      if (break : bool) then Some st else dacl_loop step Dacl n' (AceIndex + 1) st
  end.

Inductive ACCESS_CHECK_RIGHT_TYPE := AccessCheckMaximum | AccessCheckRegular.

(** The maximum loop has no [break]. *)
Definition maximum_step (Token : TOKEN) (PrincipalSelfSid : option mem) (IsTokenRestricted : bool)
    (GenericMapping : option GENERIC_MAPPING) (UseResultList : bool) (Ace : mem) (st : analysis)
  : option (analysis * bool) :=
  match analyze_maximum Token PrincipalSelfSid IsTokenRestricted GenericMapping
          UseResultList Ace st with
  | Some st => Some (st, false)
  | None => None
  end.

Definition set_remaining (RemainingAccess : Z) (r : ACCESS_CHECK_RIGHTS) : ACCESS_CHECK_RIGHTS :=
  mkRights RemainingAccess (GrantedAccessRights r) (DeniedAccessRights r).

Definition SepAnalyzeAcesFromDacl (ActionType : ACCESS_CHECK_RIGHT_TYPE) (RemainingAccess : Z)
    (Dacl : mem) (Token : TOKEN) (IsTokenRestricted : bool) (PrincipalSelfSid : option mem)
    (GenericMapping : option GENERIC_MAPPING) (UseResultList : bool) (st : analysis)
  : option analysis :=
  match AceCount Dacl with
  | None => None
  | Some count =>
      match ActionType with
      | AccessCheckMaximum =>
          dacl_loop (maximum_step Token PrincipalSelfSid IsTokenRestricted GenericMapping
                       UseResultList) Dacl (Z.to_nat count) 0 st
      | AccessCheckRegular =>
          dacl_loop (analyze_regular Token PrincipalSelfSid IsTokenRestricted GenericMapping)
            Dacl (Z.to_nat count) 0
            (set_remaining RemainingAccess (fst st),
             option_map (map (update_object (set_remaining RemainingAccess))) (snd st))
      end
  end.

(** ** The worker *)

(** What the worker writes to [GrantedAccessList] and [AccessStatusList]: one
    element each, one per entry of the object type list, or nothing. *)
Inductive access_output :=
| OutSingle (GrantedAccess AccessStatus : Z)
| OutList (l : list (Z * Z))
| OutNothing.

Record worker_result := mkWorker {
  wr_Status : Z;
  wr_Output : access_output;
  wr_Privileges : option (option (list (LUID * Z)))   (* [*Privileges], if written *)
}.

(** [ReturnCommonStatus]. *)
Definition finish_worker (UseResultList : bool) (privs : option (option (list (LUID * Z))))
    (PreviouslyGrantedAccess Status : Z) : worker_result :=
  mkWorker Status
    (if UseResultList then OutNothing else OutSingle PreviouslyGrantedAccess Status) privs.

(** Access status and granted rights of one object of the result list. *)
Definition object_result (WantedRights MaskDesired PreviouslyGrantedAccess : Z)
    (o : OBJECT_TYPE_LIST_INTERNAL) : Z * Z :=
  let GrantedRights := Z.land (Z.lor (GrantedAccessRights (ObjectAccessRights o))
                                 PreviouslyGrantedAccess) MaskDesired in
  (GrantedRights,
   if negb (GrantedRights =? 0) then
     if negb (Z.land (not32 GrantedRights) WantedRights =? 0)
     then STATUS_ACCESS_DENIED else STATUS_SUCCESS
   else STATUS_ACCESS_DENIED).

(** Some status of the list is [STATUS_ACCESS_DENIED]. *)
Definition any_denied (l : list (Z * Z)) : bool :=
  existsb (fun r => snd r =? STATUS_ACCESS_DENIED) l.

(** The end of the two branches that judge all rights at once. *)
Definition finish_maximum (UseResultList : bool) (privs : option (option (list (LUID * Z))))
    (RemainingAccess PreviouslyGrantedAccess GrantedRights : Z) : worker_result :=
  let RemainingAccess := clear_bits RemainingAccess (Z.lor MAXIMUM_ALLOWED GrantedRights) in
  if negb (RemainingAccess =? 0)
  then finish_worker UseResultList privs 0 STATUS_ACCESS_DENIED else
  let PreviouslyGrantedAccess := Z.lor PreviouslyGrantedAccess GrantedRights in
  finish_worker UseResultList privs PreviouslyGrantedAccess
    (if negb (PreviouslyGrantedAccess =? 0) then STATUS_SUCCESS else STATUS_ACCESS_DENIED).

(** [MAXIMUM_ALLOWED] is desired, or the caller wants the rights of each object. *)
Definition worker_maximum (Token : TOKEN) (PrincipalSelfSid : option mem) (Dacl : mem)
    (WantedRights MaskDesired RemainingAccess PreviouslyGrantedAccess : Z)
    (ObjectTypeList : option (list OBJECT_TYPE_LIST_INTERNAL))
    (GenericMapping : GENERIC_MAPPING) (UseResultList : bool)
    (privs : option (option (list (LUID * Z)))) : option worker_result :=
  st ← SepAnalyzeAcesFromDacl AccessCheckMaximum 0 Dacl Token false PrincipalSelfSid
         (Some GenericMapping) UseResultList (mkRights 0 0 0, ObjectTypeList);
  st ← (if SeTokenIsRestricted Token
        then SepAnalyzeAcesFromDacl AccessCheckMaximum 0 Dacl Token true PrincipalSelfSid
               (Some GenericMapping) UseResultList st
        else Some st);
  match snd st with
  | None => Some (finish_maximum UseResultList privs RemainingAccess PreviouslyGrantedAccess
                    (GrantedAccessRights (fst st)))
  | Some l =>
      if negb UseResultList then
        let GrantedRights :=
          fold_left (fun g o => Z.lor g (GrantedAccessRights (ObjectAccessRights o))) l 0 in
        Some (finish_maximum false privs RemainingAccess PreviouslyGrantedAccess GrantedRights)
      else
        let res := map (object_result WantedRights MaskDesired PreviouslyGrantedAccess) l in
        Some (mkWorker (if any_denied res then STATUS_ACCESS_DENIED else STATUS_SUCCESS)
                (OutList res) privs)
  end.

(** All remaining rights of the object, or of some object of the list, are granted. *)
Definition access_is_granted (st : analysis) : bool :=
  match snd st with
  | None => RemainingAccessRights (fst st) =? 0
  | Some l => existsb (fun o => RemainingAccessRights (ObjectAccessRights o) =? 0) l
  end.

(** A definite set of rights is desired. *)
Definition worker_regular (Token : TOKEN) (PrincipalSelfSid : option mem) (Dacl : mem)
    (DesiredAccess RemainingAccess PreviouslyGrantedAccess : Z)
    (ObjectTypeList : option (list OBJECT_TYPE_LIST_INTERNAL))
    (GenericMapping : GENERIC_MAPPING)
    (privs : option (option (list (LUID * Z)))) : option worker_result :=
  st ← SepAnalyzeAcesFromDacl AccessCheckRegular RemainingAccess Dacl Token false
         PrincipalSelfSid (Some GenericMapping) false (mkRights 0 0 0, ObjectTypeList);
  if negb (access_is_granted st)
  then Some (finish_worker false privs 0 STATUS_ACCESS_DENIED) else
  granted ← (if SeTokenIsRestricted Token
             then st ← SepAnalyzeAcesFromDacl AccessCheckRegular RemainingAccess Dacl Token true
                         PrincipalSelfSid (Some GenericMapping) false st;
                  Some (access_is_granted st)
             else Some true);
  if negb granted then Some (finish_worker false privs 0 STATUS_ACCESS_DENIED) else
  let PreviouslyGrantedAccess := Z.lor PreviouslyGrantedAccess DesiredAccess in
  if PreviouslyGrantedAccess =? 0
  then Some (finish_worker false privs PreviouslyGrantedAccess STATUS_ACCESS_DENIED)
  else Some (finish_worker false privs PreviouslyGrantedAccess STATUS_SUCCESS).

Definition empty_mapping (gm : GENERIC_MAPPING) : bool :=
  (GenericRead gm =? 0) && (GenericWrite gm =? 0) && (GenericExecute gm =? 0) &&
  (GenericAll gm =? 0).

(** From the privilege policy check on. *)
Definition worker_dacl (SecurityDescriptor : SECURITY_DESCRIPTOR) (Token : TOKEN)
    (PrincipalSelfSid : option mem) (DesiredAccess WantedRights MaskDesired : Z)
    (RemainingAccess PreviouslyGrantedAccess : Z)
    (ObjectTypeList : option (list OBJECT_TYPE_LIST_INTERNAL))
    (GenericMapping : GENERIC_MAPPING) (UseResultList : bool)
    (privs : option (option (list (LUID * Z)))) : option worker_result :=
  let finish := finish_worker UseResultList privs in
  if RemainingAccess =? 0 then Some (finish PreviouslyGrantedAccess STATUS_SUCCESS) else
  if empty_mapping GenericMapping then
    if SeTokenIsAdmin Token
    then Some (finish (Z.lor PreviouslyGrantedAccess RemainingAccess) STATUS_SUCCESS)
    else Some (finish 0 STATUS_ACCESS_DENIED)
  else
  let '(Status, dacl) := RtlGetDaclSecurityDescriptor SecurityDescriptor in
  match dacl with
  | None => Some (finish PreviouslyGrantedAccess Status)
  | Some (true, Some (Some Dacl, _)) =>
      count ← AceCount Dacl;
      if count =? 0 then
        if (RemainingAccess =? MAXIMUM_ALLOWED) && negb (PreviouslyGrantedAccess =? 0)
        then Some (finish PreviouslyGrantedAccess STATUS_SUCCESS)
        else Some (finish 0 STATUS_ACCESS_DENIED)
      else if has DesiredAccess MAXIMUM_ALLOWED || UseResultList then
        worker_maximum Token PrincipalSelfSid Dacl WantedRights MaskDesired RemainingAccess
          PreviouslyGrantedAccess ObjectTypeList GenericMapping UseResultList privs
      else
        worker_regular Token PrincipalSelfSid Dacl DesiredAccess RemainingAccess
          PreviouslyGrantedAccess ObjectTypeList GenericMapping privs
  | Some _ =>
      let Granted := Z.lor PreviouslyGrantedAccess RemainingAccess in
      let Granted := if has RemainingAccess MAXIMUM_ALLOWED
        then Z.lor (clear_bits Granted MAXIMUM_ALLOWED) (GenericAll GenericMapping)
        else Granted in
      Some (finish Granted STATUS_SUCCESS)
  end.

(** [want_privileges] tells whether [Privileges] is not NULL. *)
Definition SepAccessCheckWorker (alloc_ok : bool) (SecurityDescriptor : SECURITY_DESCRIPTOR)
    (ClientAccessToken : option TOKEN) (PrimaryAccessToken : TOKEN)
    (PrincipalSelfSid : option mem) (DesiredAccess : Z)
    (ObjectTypeList : option (list OBJECT_TYPE_LIST_INTERNAL)) (PreviouslyGrantedAccess : Z)
    (GenericMapping : GENERIC_MAPPING) (AccessMode : KPROCESSOR_MODE) (UseResultList : bool)
    (want_privileges : bool) : option worker_result :=
  if DesiredAccess =? 0 then
    if PreviouslyGrantedAccess =? 0
    then Some (finish_worker UseResultList None PreviouslyGrantedAccess STATUS_ACCESS_DENIED)
    else if want_privileges
    then Some (finish_worker UseResultList (Some None) PreviouslyGrantedAccess STATUS_SUCCESS)
    else None
  else
  let DesiredAccess := RtlMapGenericMask DesiredAccess GenericMapping in
  let PreviouslyGrantedAccess := if negb (PreviouslyGrantedAccess =? 0)
    then RtlMapGenericMask PreviouslyGrantedAccess GenericMapping
    else PreviouslyGrantedAccess in
  let RemainingAccess := DesiredAccess in
  let all := Z.lor DesiredAccess PreviouslyGrantedAccess in
  let WantedRights := if has DesiredAccess MAXIMUM_ALLOWED
                      then clear_bits all MAXIMUM_ALLOWED else all in
  let MaskDesired := if has DesiredAccess MAXIMUM_ALLOWED
                     then not32 MAXIMUM_ALLOWED else all in
  let Token := match ClientAccessToken with Some t => t | None => PrimaryAccessToken end in
  let pol := SePrivilegePolicyCheck alloc_ok RemainingAccess PreviouslyGrantedAccess None Token
               want_privileges AccessMode in
  if negb (NT_SUCCESS (pol_Status pol))
  then Some (finish_worker UseResultList (pol_Set pol) (pol_Granted pol) (pol_Status pol)) else
  worker_dacl SecurityDescriptor Token PrincipalSelfSid DesiredAccess WantedRights MaskDesired
    (pol_Desired pol) (pol_Granted pol) ObjectTypeList GenericMapping UseResultList (pol_Set pol).

(** ** The kernel's entry point *)

(** [if (DesiredAccess & (WRITE_DAC | READ_CONTROL | MAXIMUM_ALLOWED)) ...]: an owner
    gets [WRITE_DAC] and [READ_CONTROL].  Returns the two masks. *)
Definition owner_rights (Token : TOKEN) (SecurityDescriptor : SECURITY_DESCRIPTOR)
    (DesiredAccess PreviouslyGrantedAccess : Z) : option (Z * Z) :=
  let rights := Z.lor WRITE_DAC READ_CONTROL in
  if has DesiredAccess (Z.lor rights MAXIMUM_ALLOWED) then
    owner ← SepTokenIsOwner Token SecurityDescriptor;
    if (owner : bool) then
      Some (clear_bits DesiredAccess rights,
            Z.lor PreviouslyGrantedAccess
              (if has DesiredAccess MAXIMUM_ALLOWED then rights else Z.land DesiredAccess rights))
    else Some (DesiredAccess, PreviouslyGrantedAccess)
  else Some (DesiredAccess, PreviouslyGrantedAccess).

(** The return value, [*GrantedAccess] if written, [*AccessStatus] and [*Privileges]. *)
Record check_result := mkCheck {
  ck_Return : bool;
  ck_Granted : option Z;
  ck_Status : Z;
  ck_Privileges : option (option (list (LUID * Z)))
}.

(** What the worker's single output means to the caller. *)
Definition of_worker (r : worker_result) : check_result :=
  match wr_Output r with
  | OutSingle g s => mkCheck (NT_SUCCESS (wr_Status r)) (Some g) s (wr_Privileges r)
  | _ => mkCheck (NT_SUCCESS (wr_Status r)) None (wr_Status r) (wr_Privileges r)
  end.

Definition SeAccessCheck (alloc_ok : bool) (SecurityDescriptor : option SECURITY_DESCRIPTOR)
    (ctx : SECURITY_SUBJECT_CONTEXT) (DesiredAccess PreviouslyGrantedAccess : Z)
    (GenericMapping : GENERIC_MAPPING) (AccessMode : KPROCESSOR_MODE) : option check_result :=
  match AccessMode with
  | KernelMode =>
      let Granted := if has DesiredAccess MAXIMUM_ALLOWED
        then Z.lor (Z.lor (GenericAll GenericMapping) (clear_bits DesiredAccess MAXIMUM_ALLOWED))
               PreviouslyGrantedAccess
        else Z.lor DesiredAccess PreviouslyGrantedAccess in
      Some (mkCheck true (Some Granted) STATUS_SUCCESS None)
  | UserMode =>
      match SecurityDescriptor with
      | None => Some (mkCheck false None STATUS_ACCESS_DENIED None)
      | Some sd =>
          if (if ClientToken ctx is Some _ then true else false) &&
             (ImpersonationLevel ctx <? SecurityImpersonation)
          then Some (mkCheck false None STATUS_BAD_IMPERSONATION_LEVEL None) else
          '(DesiredAccess, PreviouslyGrantedAccess)
            ← owner_rights (effective_token ctx) sd DesiredAccess PreviouslyGrantedAccess;
          if DesiredAccess =? 0 then
            Some (if PreviouslyGrantedAccess =? 0
                  then mkCheck false (Some PreviouslyGrantedAccess) STATUS_ACCESS_DENIED None
                  else mkCheck true (Some PreviouslyGrantedAccess) STATUS_SUCCESS None)
          else
            r ← SepAccessCheckWorker alloc_ok sd (ClientToken ctx) (PrimaryToken ctx) None
                  DesiredAccess None PreviouslyGrantedAccess GenericMapping AccessMode false true;
            Some (of_worker r)
      end
  end.

(** The loop over the ACEs by address. *)
Fixpoint fast_traverse_loop (Dacl : mem) (DesiredAccess : Z) (n : nat) (Ace : Z) : option bool :=
  match n with
  | O => Some false
  | S n' =>
      let next := (size ← AceSize Dacl Ace; fast_traverse_loop Dacl DesiredAccess n' (Ace + size)) in
      AceFlags ← get8 Dacl (Ace + 1);
      if has AceFlags INHERIT_ONLY_ACE then next else
      type ← AceType Dacl Ace;
      if type =? ACCESS_ALLOWED_ACE_TYPE then
        Mask ← get32 Dacl (Ace + 4);
        if negb (has Mask DesiredAccess) then next else
        world ← RtlEqualSid SeWorldSid (drop (Z.to_nat (Ace + 8)) Dacl);
        if (world : bool) then Some true else next
      else if type =? ACCESS_DENIED_ACE_TYPE then
        Mask ← get32 Dacl (Ace + 4);
        if has Mask DesiredAccess then Some false else next
      else next
  end.

(** [StateFlags] are the flags of the access state. *)
Definition SeFastTraverseCheck (SecurityDescriptor : option SECURITY_DESCRIPTOR)
    (StateFlags DesiredAccess : Z) : option bool :=
  match SecurityDescriptor with
  | None => Some false
  | Some sd =>
      match SepGetDaclFromDescriptor sd with
      | None => Some true
      | Some Dacl =>
          count ← AceCount Dacl;
          if count =? 0 then Some false else
          if has StateFlags TOKEN_IS_RESTRICTED then Some false else
          fast_traverse_loop Dacl DesiredAccess (Z.to_nat count) sizeof_ACL
      end
  end.

(** ** The system calls *)

Definition SepGetPrivilegeSetLength (PrivilegeSet : option (list (LUID * Z))) : Z :=
  match PrivilegeSet with
  | None => 0
  | Some [] => 20 - 12
  | Some l => 20 + (Z.of_nat (length l) - 1) * 12
  end.

(** What the surroundings of [SepAccessCheck] contribute: the processor mode,
    whether the probes of the caller's pointers succeed, the token the handle
    stands for (with its type and impersonation level), and the captured copies
    of the security descriptor and of the principal's SID. *)
Record check_env := mkEnv {
  env_PreviousMode : KPROCESSOR_MODE;
  env_probe_ok : bool;
  env_alloc_ok : bool;
  env_token : Z * option (TOKEN * bool * Z);
  env_sd : Z * option SECURITY_DESCRIPTOR;
  env_self : Z * option mem
}.

(** Status, the outputs, and what is written to the caller's privilege set and
    to its length. *)
Record syscall_result := mkSyscall {
  sc_Status : Z;
  sc_Output : access_output;
  sc_PrivilegeSet : option (list (LUID * Z));
  sc_PrivilegeSetLength : option Z
}.

Definition sc_fail (Status : Z) : syscall_result := mkSyscall Status OutNothing None None.

(** The same access and status for the whole list, or for the single object. *)
Definition propagate (UseResultList : bool) (n : nat) (GrantedAccess AccessStatus : Z)
  : access_output :=
  if UseResultList then OutList (replicate n (GrantedAccess, AccessStatus))
  else OutSingle GrantedAccess AccessStatus.

(** From the captured security descriptor on. *)
Definition check_captured (env : check_env) (Token : TOKEN) (sd : SECURITY_DESCRIPTOR)
    (self : option mem) (DesiredAccess PreviouslyGrantedAccess : Z)
    (CapturedObjectTypeList : option (list OBJECT_TYPE_LIST_INTERNAL)) (n : nat)
    (GenericMapping : GENERIC_MAPPING) (UseResultList : bool) : option access_output :=
  '(DesiredAccess, PreviouslyGrantedAccess)
    ← owner_rights Token sd DesiredAccess PreviouslyGrantedAccess;
  if DesiredAccess =? 0
  then Some (propagate UseResultList n PreviouslyGrantedAccess STATUS_SUCCESS)
  else
    r ← SepAccessCheckWorker (env_alloc_ok env) sd (Some Token) Token self DesiredAccess
          CapturedObjectTypeList PreviouslyGrantedAccess GenericMapping (env_PreviousMode env)
          UseResultList false;
    Some (wr_Output r).

(** The privilege set is returned, then descriptor and SID are captured. *)
Definition check_privileged (env : check_env) (Token : TOKEN) (has_self : bool)
    (pol : policy_result) (PrivilegeSetLength : Z)
    (CapturedObjectTypeList : option (list OBJECT_TYPE_LIST_INTERNAL)) (n : nat)
    (GenericMapping : GENERIC_MAPPING) (UseResultList : bool) : option syscall_result :=
  let Privileges' := match pol_Set pol with Some (Some l) => Some l | _ => None end in
  let Required := match Privileges' with
                  | Some _ => SepGetPrivilegeSetLength Privileges'
                  | None => 20
                  end in
  if PrivilegeSetLength <? Required
  then Some (mkSyscall STATUS_BUFFER_TOO_SMALL OutNothing None (Some Required)) else
  let set := match Privileges' with Some l => l | None => [] end in
  let '(Status, sd) := env_sd env in
  if negb (NT_SUCCESS Status) then Some (mkSyscall Status OutNothing (Some set) None) else
  match sd with
  | None => Some (mkSyscall STATUS_INVALID_SECURITY_DESCR OutNothing (Some set) None)
  | Some sd =>
      match SepGetOwnerFromDescriptor sd, SepGetGroupFromDescriptor sd with
      | Some _, Some _ =>
          let '(Status, self) := if has_self then env_self env else (STATUS_SUCCESS, None) in
          if negb (NT_SUCCESS Status) then Some (mkSyscall Status OutNothing (Some set) None) else
          out ← check_captured env Token sd self (pol_Desired pol) (pol_Granted pol)
                  CapturedObjectTypeList n GenericMapping UseResultList;
          Some (mkSyscall STATUS_SUCCESS out (Some set) None)
      | _, _ => Some (mkSyscall STATUS_INVALID_SECURITY_DESCR OutNothing (Some set) None)
      end
  end.

(** [ObjectTypeList] is the caller's list as validated and as copied. *)
Definition SepAccessCheck (env : check_env) (has_self : bool) (DesiredAccess : Z)
    (GenericMapping : GENERIC_MAPPING) (PrivilegeSetLength : Z)
    (ObjectTypeList copied : option (list OBJECT_TYPE_LIST)) (ObjectTypeListLength : Z)
    (UseResultList : bool) : option syscall_result :=
  match env_PreviousMode env with
  | KernelMode =>
      let Granted := if has DesiredAccess MAXIMUM_ALLOWED
        then Z.lor (GenericAll GenericMapping) (clear_bits DesiredAccess MAXIMUM_ALLOWED)
        else DesiredAccess in
      Some (mkSyscall STATUS_SUCCESS (OutSingle Granted STATUS_SUCCESS) None None)
  | UserMode =>
      if negb (env_probe_ok env) then Some (sc_fail STATUS_ACCESS_VIOLATION) else
      if UseResultList && (ObjectTypeListLength =? 0)
      then Some (sc_fail STATUS_INVALID_PARAMETER) else
      if has DesiredAccess GENERIC_ACCESS then Some (sc_fail STATUS_GENERIC_NOT_MAPPED) else
      let '(Status, token) := env_token env in
      match token with
      | None => Some (sc_fail Status)
      | Some (Token, impersonation, level) =>
          if negb impersonation then Some (sc_fail STATUS_NO_IMPERSONATION_TOKEN) else
          if level <? SecurityIdentification then Some (sc_fail STATUS_BAD_IMPERSONATION_LEVEL) else
          let '(Status, captured) := SeCaptureObjectTypeList (env_alloc_ok env) ObjectTypeList
                                       copied ObjectTypeListLength (env_PreviousMode env) in
          if negb (NT_SUCCESS Status) then Some (sc_fail Status) else
          let list := match captured with Some l => l | None => None end in
          let n := Z.to_nat ObjectTypeListLength in
          let pol := SePrivilegePolicyCheck (env_alloc_ok env) DesiredAccess 0 None Token true
                       (env_PreviousMode env) in
          if negb (NT_SUCCESS (pol_Status pol))
          then Some (mkSyscall STATUS_SUCCESS (propagate UseResultList n 0 (pol_Status pol)) None None)
          else check_privileged env Token has_self pol PrivilegeSetLength list n GenericMapping
                 UseResultList
      end
  end.

Definition NtAccessCheck (env : check_env) (DesiredAccess : Z) (GenericMapping : GENERIC_MAPPING)
    (PrivilegeSetLength : Z) : option syscall_result :=
  SepAccessCheck env false DesiredAccess GenericMapping PrivilegeSetLength None None 0 false.

Definition NtAccessCheckByType (env : check_env) (has_self : bool) (DesiredAccess : Z)
    (ObjectTypeList copied : option (list OBJECT_TYPE_LIST)) (ObjectTypeListLength : Z)
    (GenericMapping : GENERIC_MAPPING) (PrivilegeSetLength : Z) : option syscall_result :=
  SepAccessCheck env has_self DesiredAccess GenericMapping PrivilegeSetLength
    ObjectTypeList copied ObjectTypeListLength false.

Definition NtAccessCheckByTypeResultList (env : check_env) (has_self : bool) (DesiredAccess : Z)
    (ObjectTypeList copied : option (list OBJECT_TYPE_LIST)) (ObjectTypeListLength : Z)
    (GenericMapping : GENERIC_MAPPING) (PrivilegeSetLength : Z) : option syscall_result :=
  SepAccessCheck env has_self DesiredAccess GenericMapping PrivilegeSetLength
    ObjectTypeList copied ObjectTypeListLength true.

(** * Correctness *)

(** ** The entries of a DACL *)

(** An ACE as the access check sees it: an allow or deny ACE, for the whole
    object or for an object type, or an ACE of a type the check skips. *)
Inductive entry :=
| EKnown (Type_ Flags Mask : Z) (sid : list Z)
| EObject (Type_ Flags Mask : Z) (g1 g2 : option GUID) (sid : list Z)
| EOther (a : list Z).

Definition encode (e : entry) : list Z :=
  match e with
  | EKnown t f m sid => known_ace t f m sid
  | EObject t f m g1 g2 sid => object_ace t f m g1 g2 sid
  | EOther a => a
  end.

Definition deny_type (t : Z) : bool :=
  (t =? ACCESS_DENIED_ACE_TYPE) || (t =? ACCESS_DENIED_OBJECT_ACE_TYPE).

Definition entry_ok (e : entry) : Prop :=
  match e with
  | EKnown t f m sid =>
      (t = ACCESS_ALLOWED_ACE_TYPE \/ t = ACCESS_DENIED_ACE_TYPE) /\
      0 <= f < 256 /\ mask m /\ sid_at sid sid
  | EObject t f m g1 g2 sid =>
      (t = ACCESS_ALLOWED_OBJECT_ACE_TYPE \/ t = ACCESS_DENIED_OBJECT_ACE_TYPE) /\
      0 <= f < 256 /\ mask m /\ guid_ok g1 /\ guid_ok g2 /\ sid_at sid sid
  | EOther a =>
      ace_ok a /\ forall t, AceType a 0 = Some t ->
        t ∉ [ACCESS_ALLOWED_ACE_TYPE; ACCESS_DENIED_ACE_TYPE; ACCESS_ALLOWED_OBJECT_ACE_TYPE;
             ACCESS_DENIED_OBJECT_ACE_TYPE]
  end.

Definition ace_mask (gm : GENERIC_MAPPING) (Access : Z) : Z :=
  if has Access GENERIC_ACCESS then RtlMapGenericMask Access gm else Access.

Lemma sid_at_app sid post : sid_at sid sid -> sid_at (sid ++ post) sid.
Proof. intros [_ H1 H2 H3]. constructor; [by exists post|done..]. Qed.

Section entries.
Context (T : TOKEN) (self : option mem) (gm : GENERIC_MAPPING).
Hypothesis HT : token_ok T.
Hypothesis Hself : self_ok self.
Hypothesis Hgm : wf_mapping gm.

(** What an entry does for the token: nothing, or allow or deny its rights. *)
Definition effect_of (Restricted : bool) (t f m : Z) (sid : list Z) : option (bool * Z) :=
  if has f INHERIT_ONLY_ACE then None else
  if in_token T self sid (deny_type t) Restricted then Some (negb (deny_type t), ace_mask gm m)
  else None.

Definition effect (Restricted : bool) (e : entry) : option (bool * Z) :=
  match e with
  | EKnown t f m sid => effect_of Restricted t f m sid
  | EObject t f m g1 g2 sid => effect_of Restricted t f m sid
  | EOther _ => None
  end.

(** Fields of an encoded entry. *)
Lemma known_fields t f m sid post :
  t <= 3 -> mask m -> let Ace := known_ace t f m sid ++ post in
  get8 Ace 1 = Some f /\ AceType Ace 0 = Some t /\ get32 Ace 4 = Some m /\
  SepGetSidFromAce Ace = Some (Some (sid ++ post)).
Proof.
  intros Ht Hm Ace. unfold Ace, known_ace, AceType.
  assert (H0 : forall x y (l : list Z), get8 (x :: y :: l) 0 = Some x /\ get8 (x :: y :: l) 1 = Some y).
  { intros x y l. rewrite !get8_eq by lia. done. }
  split_and!; [apply H0..| |].
  - set (n := Z.of_nat _ + _). rewrite <- !app_assoc, (app_assoc [t; f]).
    rewrite (get_app 4 ([t; f] ++ le 2 n) (le 4 m)) by done. by rewrite le_val_le.
  - unfold SepGetSidFromAce, AceType.
    match goal with |- context [get8 ?l 0] => replace (get8 l 0) with (Some t) by (symmetry; apply H0) end.
    cbn [mbind option_bind]. rewrite (proj2 (Z.leb_le t _)) by (unfold ACCESS_MAX_MS_V2_ACE_TYPE; lia).
    done.
Qed.

Lemma object_fields t f m g1 g2 sid post :
  (t = ACCESS_ALLOWED_OBJECT_ACE_TYPE \/ t = ACCESS_DENIED_OBJECT_ACE_TYPE) ->
  mask m -> guid_ok g1 -> guid_ok g2 -> let Ace := object_ace t f m g1 g2 sid ++ post in
  get8 Ace 1 = Some f /\ AceType Ace 0 = Some t /\ get32 Ace 4 = Some m /\
  SepGetSidFromAce Ace = Some (Some (sid ++ post)).
Proof.
  intros Ht Hm Hg1 Hg2 Ace. unfold Ace, AceType.
  assert (H0 : forall x y (l : list Z), get8 (x :: y :: l) 0 = Some x /\ get8 (x :: y :: l) 1 = Some y).
  { intros x y l. rewrite !get8_eq by lia. done. }
  split_and!; [apply H0..| |].
  - unfold object_ace, object_prefix. set (n := object_size _ _ _).
    rewrite <- !app_assoc, (app_assoc [t; f]).
    rewrite (get_app 4 ([t; f] ++ le 2 n) (le 4 m)) by done. by rewrite le_val_le.
  - assert (HF : get32 (object_ace t f m g1 g2 sid ++ post) 8 = Some (object_flags g1 g2)).
    { unfold object_ace, object_prefix. set (n := object_size _ _ _).
      rewrite <- !app_assoc, (app_assoc [t; f]), (app_assoc ([t; f] ++ le 2 n)).
      rewrite (get_app 4 (([t; f] ++ le 2 n) ++ le 4 m) (le 4 (object_flags g1 g2))) by done.
      rewrite le_val_le; [done|]. destruct g1, g2; vm_compute; split; (discriminate || reflexivity). }
    unfold SepGetSidFromAce, AceType. rewrite HF.
    replace (get8 (object_ace t f m g1 g2 sid ++ post) 0) with (Some t) by (symmetry; apply H0).
    cbn [mbind option_bind].
    replace (t <=? ACCESS_MAX_MS_V2_ACE_TYPE) with false by (by destruct Ht as [-> | ->]).
    replace (_ || _) with true by (by destruct Ht as [-> | ->]).
    fold (guid_size (object_flags g1 g2)). do 2 apply f_equal.
    unfold object_ace. rewrite <- app_assoc, <- (object_prefix_length t f m (object_size g1 g2 sid) g1 g2)
      by done. by rewrite Nat2Z.id, drop_app_length.
Qed.

Lemma ace_access_spec Restricted Ace sid post m Deny :
  SepGetSidFromAce Ace = Some (Some (sid ++ post)) -> sid_at sid sid -> get32 Ace 4 = Some m ->
  ace_access T self Restricted (Some gm) Ace Deny
  = Some (if in_token T self sid Deny Restricted then Some (ace_mask gm m) else None).
Proof.
  intros HS Hsid Hm. unfold ace_access. rewrite HS. cbn [mbind option_bind].
  rewrite (SepSidInTokenEx_spec T self (sid ++ post) sid) by (done || by apply sid_at_app).
  cbn [mbind option_bind]. rewrite Hm. by destruct (in_token _ _ _ _ _).
Qed.

(** One round of the two loops without an object type list. *)
Definition regular_round (Restricted : bool) (e : entry) (r : ACCESS_CHECK_RIGHTS)
  : ACCESS_CHECK_RIGHTS * bool :=
  match effect Restricted e with
  | None => (r, false)
  | Some (true, A) => (grant_regular A r, false)
  | Some (false, A) => (fst (fst (refute A (r, None))), snd (refute A (r, None)))
  end.

Definition maximum_round (Restricted : bool) (e : entry) (r : ACCESS_CHECK_RIGHTS)
  : ACCESS_CHECK_RIGHTS * bool :=
  match effect Restricted e with
  | None => (r, false)
  | Some (true, A) => (allow_rights A r, false)
  | Some (false, A) => (deny_rights A r, false)
  end.

(** The memory of an entry as the loops read it. *)
Lemma entry_fields e post :
  entry_ok e -> let Ace := encode e ++ post in
  exists t f, get8 Ace 1 = Some f /\ AceType Ace 0 = Some t /\
  match e with
  | EOther _ =>
      (t =? ACCESS_DENIED_ACE_TYPE) = false /\ (t =? ACCESS_ALLOWED_ACE_TYPE) = false /\
      (t =? ACCESS_DENIED_OBJECT_ACE_TYPE) = false /\ (t =? ACCESS_ALLOWED_OBJECT_ACE_TYPE) = false
  | EKnown t' f' m sid | EObject t' f' m _ _ sid =>
      t' = t /\ f' = f /\ forall Restricted Deny,
      ace_access T self Restricted (Some gm) Ace Deny
      = Some (if in_token T self sid Deny Restricted then Some (ace_mask gm m) else None)
  end.
Proof.
  destruct e as [t f m sid|t f m g1 g2 sid|a]; intros He Ace; unfold Ace, encode; clear Ace.
  - destruct He as (Ht & Hf & Hm & Hsid).
    destruct (known_fields t f m sid post) as (H1 & H2 & H3 & H4);
      [destruct Ht as [-> | ->]; vm_compute; discriminate|done|].
    exists t, f. split_and!; [done..|]. intros. by apply (ace_access_spec _ _ sid post).
  - destruct He as (Ht & Hf & Hm & Hg1 & Hg2 & Hsid).
    destruct (object_fields t f m g1 g2 sid post) as (H1 & H2 & H3 & H4); [done..|].
    exists t, f. split_and!; [done..|]. intros. by apply (ace_access_spec _ _ sid post).
  - destruct He as ([Hb Hmin _] & Ht). unfold sizeof_ACE_HEADER in Hmin.
    destruct a as [|t [|f a]]; [simpl in Hmin; lia..|]. exists t, f.
    unfold AceType in *. rewrite !get8_eq in * by lia. split_and!; [done..| | | |];
      apply Z.eqb_neq; intros ->; apply (Ht _ eq_refl); rewrite !elem_of_cons; tauto.
Qed.

Lemma refute_pair A r :
  Some (refute A (r, None)) = Some ((fst (fst (refute A (r, None))), None), snd (refute A (r, None))).
Proof. unfold refute. by destruct (has _ _). Qed.

Lemma analyze_regular_spec Restricted e post r :
  entry_ok e ->
  analyze_regular T self Restricted (Some gm) (encode e ++ post) (r, None)
  = Some ((fst (regular_round Restricted e r), None), snd (regular_round Restricted e r)).
Proof.
  intros He. destruct (entry_fields e post He) as (t & f & Hf & Ht & H).
  unfold analyze_regular, regular_round. rewrite Hf, Ht. cbn [mbind option_bind].
  destruct e as [t' f' m sid|t' f' m g1 g2 sid|a]; cbn [effect].
  - destruct H as (-> & -> & HA), He as (He & _). unfold effect_of. rewrite !HA.
    destruct (has f INHERIT_ONLY_ACE); [done|].
    destruct He as [-> | ->]; cbn; destruct (in_token _ _ _ _ _); try done; apply refute_pair.
  - destruct H as (-> & -> & HA), He as (He & _). unfold effect_of. rewrite !HA.
    destruct (has f INHERIT_ONLY_ACE); [done|].
    destruct He as [-> | ->]; cbn; destruct (in_token _ _ _ _ _); try done; apply refute_pair.
  - destruct H as (-> & -> & -> & ->). by destruct (has f INHERIT_ONLY_ACE).
Qed.

Lemma maximum_step_spec Restricted UseResultList e post r :
  entry_ok e ->
  maximum_step T self Restricted (Some gm) UseResultList (encode e ++ post) (r, None)
  = Some ((fst (maximum_round Restricted e r), None), snd (maximum_round Restricted e r)).
Proof.
  intros He. destruct (entry_fields e post He) as (t & f & Hf & Ht & H).
  unfold maximum_step, analyze_maximum, maximum_round. rewrite Hf, Ht. cbn [mbind option_bind].
  destruct e as [t' f' m sid|t' f' m g1 g2 sid|a]; cbn [effect].
  - destruct H as (-> & -> & HA), He as (He & _). unfold effect_of. rewrite !HA.
    destruct (has f INHERIT_ONLY_ACE); [done|].
    destruct He as [-> | ->]; cbn; by destruct (in_token _ _ _ _ _).
  - destruct H as (-> & -> & HA), He as (He & _). unfold effect_of. rewrite !HA.
    destruct (has f INHERIT_ONLY_ACE); [done|].
    destruct He as [-> | ->]; cbn; by destruct (in_token _ _ _ _ _).
  - destruct H as (-> & -> & -> & ->). by destruct (has f INHERIT_ONLY_ACE).
Qed.

(** ** The loop over the DACL *)

Fixpoint run (f : entry -> ACCESS_CHECK_RIGHTS -> ACCESS_CHECK_RIGHTS * bool) (es : list entry)
    (r : ACCESS_CHECK_RIGHTS) : ACCESS_CHECK_RIGHTS :=
  match es with
  | [] => r
  | e :: es => let '(r, break) := f e r in if break then r else run f es r
  end.

Section dacl.
Context (Dacl : mem) (rev size : Z) (es : list entry) (rest : mem).
Hypothesis Hrep : acl_rep Dacl rev size (encode <$> es) rest.
Hypothesis Hes : Forall entry_ok es.

Lemma dacl_loop_run step f :
  (forall e post r, entry_ok e -> step (encode e ++ post) (r, None) = Some ((fst (f e r), None), snd (f e r))) ->
  forall n k r, (k + n = length es)%nat ->
  dacl_loop step Dacl n (Z.of_nat k) (r, None) = Some (run f (drop k es) r, None).
Proof.
  intros Hstep n. induction n as [|n IH]; intros k r Hk.
  { by rewrite drop_ge by lia. }
  destruct (lookup_lt_is_Some_2 es k) as [e He]; [lia|].
  assert (Ha : (encode <$> es) !! k = Some (encode e)) by (by rewrite list_lookup_fmap, He).
  cbn [dacl_loop]. rewrite (RtlGetAce_rep _ _ _ _ _ _ _ Hrep Ha). cbn [mbind option_bind].
  change (negb (NT_SUCCESS STATUS_SUCCESS)) with false. cbn match.
  destruct (ace_at _ _ _ _ _ _ _ Hrep Ha) as (pre & post & E & <-).
  rewrite Nat2Z.id, E, drop_app_length, Hstep by (by eapply Forall_lookup_1).
  cbn [mbind option_bind]. rewrite (drop_S _ _ _ He). cbn [run]. destruct (f e r) as [r' [|]]; [done|].
  cbn [fst snd]. rewrite <- E. replace (Z.of_nat k + 1) with (Z.of_nat (S k)) by lia. apply IH. lia.
Qed.

Lemma dacl_count : AceCount Dacl = Some (Z.of_nat (length es)).
Proof. destruct (rep_header _ _ _ _ _ Hrep) as (_ & _ & H & _). by rewrite length_fmap in H. Qed.

Lemma analyze_regular_run Remaining Restricted r :
  SepAnalyzeAcesFromDacl AccessCheckRegular Remaining Dacl T Restricted self (Some gm) false (r, None)
  = Some (run (regular_round Restricted) es (set_remaining Remaining r), None).
Proof.
  unfold SepAnalyzeAcesFromDacl. rewrite dacl_count, Nat2Z.id. cbn [fst snd option_map].
  rewrite <- (drop_0 es) at 2. apply (dacl_loop_run _ _ (fun e post r => analyze_regular_spec Restricted e post r) _ 0).
  done.
Qed.

Lemma analyze_maximum_run Remaining Restricted UseResultList r :
  SepAnalyzeAcesFromDacl AccessCheckMaximum Remaining Dacl T Restricted self (Some gm) UseResultList
    (r, None)
  = Some (run (maximum_round Restricted) es r, None).
Proof.
  unfold SepAnalyzeAcesFromDacl. rewrite dacl_count, Nat2Z.id.
  rewrite <- (drop_0 es) at 2.
  apply (dacl_loop_run _ _ (fun e post r => maximum_step_spec Restricted UseResultList e post r) _ 0).
  done.
Qed.
End dacl.

(** ** The first entry that names a right decides *)

Fixpoint first_match (Restricted : bool) (es : list entry) (i : Z) : option bool :=
  match es with
  | [] => None
  | e :: es =>
      match effect Restricted e with
      | Some (allow, A) => if Z.testbit A i then Some allow else first_match Restricted es i
      | None => first_match Restricted es i
      end
  end.

Definition allowed (Restricted : bool) (es : list entry) (i : Z) : bool :=
  bool_decide (first_match Restricted es i = Some true).

Lemma effect_mask Restricted e b A : entry_ok e -> effect Restricted e = Some (b, A) -> mask A.
Proof.
  assert (H : forall t f m sid, mask m -> effect_of Restricted t f m sid = Some (b, A) -> mask A).
  { intros t f m sid Hm. unfold effect_of, ace_mask. repeat case_match; try done; intros [= _ <-];
      [by apply map_generic_mask|done]. }
  destruct e as [t f m sid|t f m g1 g2 sid|a]; intros He; [| |done].
  - destruct He as (_ & _ & Hm & _). by apply H.
  - destruct He as (_ & _ & Hm & _). by apply H.
Qed.

Lemma regular_run_zero Restricted es : forall r,
  Forall entry_ok es -> mask (RemainingAccessRights r) ->
  (RemainingAccessRights (run (regular_round Restricted) es r) = 0 <->
   forall i, 0 <= i < 32 -> Z.testbit (RemainingAccessRights r) i = true ->
     allowed Restricted es i = true).
Proof.
  unfold allowed. setoid_rewrite bool_decide_eq_true.
  induction es as [|e es IH]; intros r Hes Hr; cbn [run first_match].
  { rewrite mask_zero by done. split.
    - intros H i Hi E. by rewrite H in E by done.
    - intros H i Hi. destruct (Z.testbit _ _) eqn:E; [|done]. by specialize (H i Hi E). }
  apply Forall_cons_iff in Hes as [He Hes]. unfold regular_round at 1.
  destruct (effect Restricted e) as [[[|] A]|] eqn:Eff; [| |by apply IH].
  - assert (HA : mask A) by (by eapply effect_mask).
    rewrite IH by (done || by apply mask_clear). cbn [grant_regular RemainingAccessRights].
    split; intros H i Hi; specialize (H i Hi); rewrite clear_bits_testbit in * by (done || lia).
    + intros E. rewrite E in H. by destruct (Z.testbit A i); [|apply H].
    + intros [E EA]%andb_true_iff. specialize (H E). by destruct (Z.testbit A i).
  - assert (HA : mask A) by (by eapply effect_mask). unfold refute. cbn [fst].
    destruct (has (RemainingAccessRights r) A) eqn:Ehas; cbn [fst snd RemainingAccessRights].
    + apply has_spec in Ehas as (i & Hi & E1 & E2).
      assert (i < 32) by (destruct (Z.lt_ge_cases i 32); [done|]; by rewrite mask_testbit in E2).
      split.
      * intros E. rewrite E in E1. by rewrite Z.bits_0 in E1.
      * intros H'. specialize (H' i ltac:(lia) E1). by rewrite E2 in H'.
    + rewrite IH by done. split; intros H i Hi E; specialize (H i Hi E);
        pose proof (has_false _ _ i Ehas ltac:(lia)) as HAi; rewrite E in HAi; cbn in HAi.
      * by rewrite HAi.
      * by rewrite HAi in H.
Qed.

Lemma maximum_run_bits Restricted es : forall r i,
  Forall entry_ok es -> mask (GrantedAccessRights r) -> mask (DeniedAccessRights r) -> 0 <= i ->
  let r' := run (maximum_round Restricted) es r in
  mask (GrantedAccessRights r') /\ mask (DeniedAccessRights r') /\
  Z.testbit (GrantedAccessRights r') i
  = Z.testbit (GrantedAccessRights r) i ||
    negb (Z.testbit (DeniedAccessRights r) i) && allowed Restricted es i /\
  Z.testbit (DeniedAccessRights r') i
  = Z.testbit (DeniedAccessRights r) i ||
    negb (Z.testbit (GrantedAccessRights r) i) &&
    bool_decide (first_match Restricted es i = Some false).
Proof.
  unfold allowed. induction es as [|e es IH]; intros r i Hes HG HD Hi; cbn [run first_match].
  { split_and!; [done..| |]; by rewrite andb_false_r, orb_false_r. }
  apply Forall_cons_iff in Hes as [He Hes].
  assert (Em : maximum_round Restricted e r = match effect Restricted e with
    | None => (r, false)
    | Some (true, A) => (allow_rights A r, false)
    | Some (false, A) => (deny_rights A r, false)
    end) by reflexivity.
  destruct (effect Restricted e) as [[b A]|] eqn:Eff; rewrite Em; [|by apply IH].
  assert (HA : mask A) by (by eapply effect_mask).
  destruct b.
  1: destruct (IH (allow_rights A r) i Hes) as (H1 & H2 & H3 & H4); try done.
  3: destruct (IH (deny_rights A r) i Hes) as (H1 & H2 & H3 & H4); try done.
  1,3: by apply mask_lor, mask_clear.
  all: cbn zeta; rewrite H3, H4; split_and!; [done..| |];
    cbn [allow_rights deny_rights GrantedAccessRights DeniedAccessRights];
    rewrite Z.lor_spec, clear_bits_testbit by done;
    by destruct (Z.testbit (GrantedAccessRights r) i), (Z.testbit (DeniedAccessRights r) i),
      (Z.testbit A i).
Qed.

(** ** The worker *)

Definition right_ok (es : list entry) (i : Z) : bool :=
  allowed false es i && (negb (SeTokenIsRestricted T) || allowed true es i).

(** All rights of [R] are allowed. *)
Definition covered (es : list entry) (R : Z) : bool :=
  forallb (fun i => implb (Z.testbit R i) (right_ok es i)) (seqZ 0 32).

Lemma forallb_bits (f : Z -> bool) :
  forallb f (seqZ 0 32) = true <-> forall i, 0 <= i < 32 -> f i = true.
Proof.
  rewrite forallb_forall. setoid_rewrite <- list_elem_of_In. setoid_rewrite elem_of_seqZ.
  split; intros H i Hi; apply H; lia.
Qed.

Lemma forallb_implb (r f g : Z -> bool) (l : list Z) :
  forallb (fun i => implb (r i) (f i && g i)) l
  = forallb (fun i => implb (r i) (f i)) l && forallb (fun i => implb (r i) (g i)) l.
Proof.
  induction l as [|i l IH]; [done|]. cbn [forallb]. rewrite IH.
  destruct (r i), (f i), (g i), (forallb _ l), (forallb _ l); done.
Qed.

Lemma covered_spec es R :
  covered es R = true <->
  forall i, 0 <= i < 32 -> Z.testbit R i = true -> right_ok es i = true.
Proof.
  unfold covered. rewrite forallb_bits. by setoid_rewrite implb_true_iff.
Qed.

Lemma covered_zero es : covered es 0 = true.
Proof. apply covered_spec. intros i _. by rewrite Z.bits_0. Qed.

Lemma covered_nil R : mask R -> R <> 0 -> covered [] R = false.
Proof.
  intros HR Hne. apply not_true_is_false. intros H. apply Hne, mask_zero; [done|].
  rewrite covered_spec in H. intros i Hi. destruct (Z.testbit R i) eqn:E; [|done].
  by specialize (H i Hi E).
Qed.

Definition has_owner (sd : SECURITY_DESCRIPTOR) (owner : list Z) : Prop :=
  exists o, SepGetOwnerFromDescriptor sd = Some o /\ sid_at o owner.

(** A descriptor with a DACL that holds [es], and an owner. *)
Record descriptor (sd : SECURITY_DESCRIPTOR) (es : list entry) (owner : list Z) : Prop := {
  d_revision : sd_Revision sd = SECURITY_DESCRIPTOR_REVISION;
  d_dacl : exists Dacl rev size rest, SepGetDaclFromDescriptor sd = Some Dacl /\
    acl_rep Dacl rev size (encode <$> es) rest;
  d_entries : Forall entry_ok es;
  d_owner : has_owner sd owner
}.

Lemma land_bit x k : 0 <= k -> Z.land x (2 ^ k) = if Z.testbit x k then 2 ^ k else 0.
Proof.
  intros Hk. apply Z.bits_inj'. intros i Hi. rewrite Z.land_spec, bit_mask by done.
  destruct (Z.eqb_spec i k) as [->|Hne].
  - destruct (Z.testbit x k); [|by rewrite Z.bits_0]. by rewrite Z.pow2_bits_true.
  - rewrite andb_false_r. destruct (Z.testbit x k); [|by rewrite Z.bits_0].
    rewrite bit_mask by done. case_cmp.
Qed.

Lemma get_dacl sd es owner :
  descriptor sd es owner -> exists Dacl rev size rest dflt,
  RtlGetDaclSecurityDescriptor sd = (STATUS_SUCCESS, Some (true, Some (Some Dacl, dflt))) /\
  acl_rep Dacl rev size (encode <$> es) rest.
Proof.
  intros [Hr (Dacl & rev & size & rest & HD & Hrep) _ _]. exists Dacl, rev, size, rest.
  unfold RtlGetDaclSecurityDescriptor. rewrite Hr. change (negb (_ =? _)) with false.
  assert (Hp : (Z.land (sd_Control sd) SE_DACL_PRESENT =? SE_DACL_PRESENT) = true).
  { unfold SepGetDaclFromDescriptor in HD. rewrite (has_bit _ 2) in HD by lia.
    change SE_DACL_PRESENT with (2 ^ 2). rewrite land_bit by lia. by destruct (Z.testbit _ 2). }
  cbv zeta. rewrite Hp, HD. by eexists.
Qed.

Lemma regular_granted es Restricted Remaining g d :
  Forall entry_ok es -> mask Remaining ->
  access_is_granted (run (regular_round Restricted) es (mkRights Remaining g d), None)
  = forallb (fun i => implb (Z.testbit Remaining i) (allowed Restricted es i)) (seqZ 0 32).
Proof.
  intros Hes HR. apply eq_true_iff_eq. unfold access_is_granted. cbn [fst snd].
  rewrite Z.eqb_eq, regular_run_zero, forallb_bits by done. cbn [RemainingAccessRights].
  by setoid_rewrite implb_true_iff.
Qed.

Lemma worker_regular_spec sd es owner D W M R P privs :
  descriptor sd es owner -> empty_mapping gm = false -> mask R ->
  Z.testbit D 25 = false -> Z.testbit R 25 = false -> Z.lor P D = Z.lor P R ->
  worker_dacl sd T self D W M R P None gm false privs
  = Some (if covered es R then finish_worker false privs (Z.lor P R) STATUS_SUCCESS
          else finish_worker false privs 0 STATUS_ACCESS_DENIED).
Proof.
  intros Hd Hgm' HR HD25 HR25 Hsplit. unfold worker_dacl.
  destruct (Z.eqb_spec R 0) as [->|HR0]; [by rewrite covered_zero, Z.lor_0_r|].
  rewrite Hgm'. destruct (get_dacl sd es owner Hd) as (Dacl & rev & size & rest & dflt & -> & Hrep).
  pose proof (d_entries _ _ _ Hd) as Hes.
  rewrite (dacl_count _ _ _ _ _ Hrep). cbn [mbind option_bind].
  destruct (Z.eqb_spec (Z.of_nat (length es)) 0) as [E|_].
  { destruct es; [|simpl in E; lia]. rewrite covered_nil by done.
    destruct (Z.eqb_spec R MAXIMUM_ALLOWED) as [->|_]; [|done]. by vm_compute in HR25. }
  change MAXIMUM_ALLOWED with (2 ^ 25). rewrite has_bit, HD25 by lia. cbn [orb].
  unfold worker_regular. rewrite (analyze_regular_run _ _ _ _ _ Hrep Hes). cbn [mbind option_bind].
  unfold set_remaining. rewrite regular_granted by done. cbn [GrantedAccessRights DeniedAccessRights].
  rewrite (analyze_regular_run _ _ _ _ _ Hrep Hes). cbn [mbind option_bind]. unfold set_remaining.
  rewrite regular_granted, Hsplit by done.
  assert (Hcov : covered es R =
    forallb (fun i => implb (Z.testbit R i) (allowed false es i)) (seqZ 0 32) &&
    (negb (SeTokenIsRestricted T) ||
     forallb (fun i => implb (Z.testbit R i) (allowed true es i)) (seqZ 0 32))).
  { unfold covered, right_ok. destruct (SeTokenIsRestricted T); cbn [negb orb].
    - apply forallb_implb.
    - rewrite andb_true_r. induction (seqZ 0 32) as [|i l IH]; [done|]. cbn [forallb].
      by rewrite andb_true_r, IH. }
  rewrite Hcov. destruct (forallb _ _); [|done]. cbn [negb andb].
  assert (Hne : (Z.lor P R =? 0) = false).
  { apply Z.eqb_neq. intros E. by apply Z.lor_eq_0_iff in E as [_ E]. }
  destruct (SeTokenIsRestricted T); cbn [negb orb mbind option_bind]; [|by rewrite Hne].
  destruct (forallb _ _); [|done]. cbn [negb]. by rewrite Hne.
Qed.

(** The rights [MAXIMUM_ALLOWED] finds in the DACL. *)
Definition max_granted (es : list entry) (i : Z) : bool :=
  allowed false es i ||
  (SeTokenIsRestricted T && negb (bool_decide (first_match false es i = Some false)) &&
   allowed true es i).

Definition covered_maximum (es : list entry) (R : Z) : bool :=
  forallb (fun i => implb (Z.testbit R i) ((i =? 25) || max_granted es i)) (seqZ 0 32).

Lemma maximum_mask es :
  Forall entry_ok es ->
  let r1 := run (maximum_round false) es (mkRights 0 0 0) in
  let r2 := if SeTokenIsRestricted T then run (maximum_round true) es r1 else r1 in
  mask (GrantedAccessRights r2) /\
  forall i, 0 <= i -> Z.testbit (GrantedAccessRights r2) i = max_granted es i.
Proof.
  intros Hes r1 r2. assert (H0 : mask 0) by (unfold mask; lia).
  pose proof (fun i => maximum_run_bits false es (mkRights 0 0 0) i Hes H0 H0) as H1.
  cbv zeta in H1. fold r1 in H1. cbn [GrantedAccessRights DeniedAccessRights] in H1.
  setoid_rewrite Z.bits_0 in H1. cbn [orb negb andb] in H1.
  destruct (H1 0 ltac:(lia)) as (HG1 & HD1 & _).
  unfold r2, max_granted. destruct (SeTokenIsRestricted T); cbn [andb].
  - pose proof (fun i => maximum_run_bits true es r1 i Hes HG1 HD1) as H2. cbv zeta in H2.
    split; [apply (H2 0); lia|]. intros i Hi. destruct (H2 i Hi) as (_ & _ & -> & _).
    destruct (H1 i Hi) as (_ & _ & -> & ->). done.
  - split; [done|]. intros i Hi. rewrite orb_false_r. by destruct (H1 i Hi) as (_ & _ & -> & _).
Qed.

Lemma clear_covers R G :
  mask R -> mask G ->
  (clear_bits R (Z.lor MAXIMUM_ALLOWED G) =? 0)
  = forallb (fun i => implb (Z.testbit R i) ((i =? 25) || Z.testbit G i)) (seqZ 0 32).
Proof.
  intros HR HG. assert (HM : mask (Z.lor MAXIMUM_ALLOWED G))
    by (apply mask_lor; [vm_compute; split; (discriminate || reflexivity)|done]).
  apply eq_true_iff_eq. rewrite Z.eqb_eq, mask_zero, forallb_bits by (by apply mask_clear).
  assert (Hbit : forall i, 0 <= i < 32 -> Z.testbit (clear_bits R (Z.lor MAXIMUM_ALLOWED G)) i
    = Z.testbit R i && negb ((i =? 25) || Z.testbit G i)).
  { intros i Hi. rewrite clear_bits_testbit by (done || lia).
    change MAXIMUM_ALLOWED with (2 ^ 25). by rewrite Z.lor_spec, bit_mask by lia. }
  split; intros H i Hi; specialize (H i Hi); specialize (Hbit i Hi); [rewrite H in Hbit|rewrite Hbit];
    by destruct (Z.testbit R i), (i =? 25), (Z.testbit G i).
Qed.

Lemma covered_maximum_nil R :
  mask R -> Z.testbit R 25 = true -> covered_maximum [] R = (R =? MAXIMUM_ALLOWED).
Proof.
  intros HR H25. apply eq_true_iff_eq. unfold covered_maximum. rewrite forallb_bits, Z.eqb_eq. split.
  - intros H. apply mask_eq; [done|vm_compute; split; (discriminate || reflexivity)|].
    intros i Hi. specialize (H i Hi). change MAXIMUM_ALLOWED with (2 ^ 25). rewrite bit_mask by lia.
    unfold max_granted in H. change (allowed false [] i) with false in H.
    change (allowed true [] i) with false in H. rewrite andb_false_r in H.
    destruct (Z.eqb_spec i 25) as [E|E]; [by rewrite E|]. by destruct (Z.testbit R i).
  - intros -> i Hi. change MAXIMUM_ALLOWED with (2 ^ 25). rewrite bit_mask by lia. by destruct (i =? 25).
Qed.

Lemma worker_maximum_spec sd es owner D W M R P privs :
  descriptor sd es owner -> empty_mapping gm = false -> mask R ->
  Z.testbit D 25 = true -> Z.testbit R 25 = true ->
  exists G, mask G /\ (forall i, 0 <= i -> Z.testbit G i = max_granted es i) /\
  worker_dacl sd T self D W M R P None gm false privs
  = Some (if covered_maximum es R && negb (Z.lor P G =? 0)
          then finish_worker false privs (Z.lor P G) STATUS_SUCCESS
          else finish_worker false privs 0 STATUS_ACCESS_DENIED).
Proof.
  intros Hd Hgm' HR HD25 HR25. pose proof (d_entries _ _ _ Hd) as Hes.
  destruct (maximum_mask es Hes) as [HG HGi].
  eexists. split; [exact HG|]. split; [exact HGi|]. set (G := GrantedAccessRights _) in *.
  unfold worker_dacl. destruct (Z.eqb_spec R 0) as [->|HR0]; [by rewrite Z.bits_0 in HR25|].
  rewrite Hgm'. destruct (get_dacl sd es owner Hd) as (Dacl & rev & size & rest & dflt & -> & Hrep).
  rewrite (dacl_count _ _ _ _ _ Hrep). cbn [mbind option_bind].
  destruct (Z.eqb_spec (Z.of_nat (length es)) 0) as [E|_].
  { destruct es; [|simpl in E; lia]. rewrite covered_maximum_nil by done.
    replace (Z.lor P G) with P; [by destruct (_ && _)|].
    unfold G. cbn [run]. by destruct (SeTokenIsRestricted T); rewrite Z.lor_0_r. }
  change (has D MAXIMUM_ALLOWED) with (has D (2 ^ 25)). rewrite has_bit, HD25 by lia. cbn [orb].
  unfold worker_maximum. rewrite (analyze_maximum_run _ _ _ _ _ Hrep Hes). cbn [mbind option_bind].
  set (r1 := run (maximum_round false) es (mkRights 0 0 0)) in *.
  rewrite (analyze_maximum_run _ _ _ _ _ Hrep Hes).
  match goal with |- context [mbind _ ?e] => replace e
    with (Some (if SeTokenIsRestricted T then run (maximum_round true) es r1 else r1,
                @None (list OBJECT_TYPE_LIST_INTERNAL))) by (by destruct (SeTokenIsRestricted T)) end.
  cbn [mbind option_bind snd fst]. fold G. f_equal. unfold finish_maximum.
  rewrite clear_covers by done.
  replace (forallb _ _) with (covered_maximum es R).
  2:{ unfold covered_maximum. apply eq_true_iff_eq. rewrite !forallb_bits.
      split; intros H i Hi; specialize (H i Hi); [rewrite HGi by lia|rewrite HGi in H by lia]; done. }
  destruct (covered_maximum es R); [|done]. cbn [negb andb].
  destruct (Z.eqb_spec (Z.lor P G) 0) as [->|]; done.
Qed.

End entries.

(** ** The whole check *)

Lemma map_generic_id gm m : wf_mapping gm -> 0 <= m < 2 ^ 28 -> RtlMapGenericMask m gm = m.
Proof.
  intros Hgm Hm. assert (HM : mask m) by (unfold mask; lia).
  apply mask_eq; [by apply map_generic_mask|done|]. intros i Hi.
  rewrite map_generic_testbit by done. unfold mapped.
  rewrite !(testbit_high m 28 31), !(testbit_high m 28 30), !(testbit_high m 28 29),
    !(testbit_high m 28 28) by lia.
  cbn [andb]. rewrite !orb_false_r. destruct (Z.ltb_spec i 28); [done|].
  by rewrite (testbit_high m 28 i) by lia.
Qed.

Lemma map_generic_range gm m : wf_mapping gm -> mask m -> 0 <= RtlMapGenericMask m gm < 2 ^ 28.
Proof.
  intros Hgm Hm. pose proof (map_generic_mask gm m Hgm Hm) as H. split; [apply H|].
  apply Z.bounded_iff_bits_nonneg'; [lia|apply H|]. intros i Hi.
  destruct (Z.lt_ge_cases i 32); [|by apply mask_testbit].
  rewrite map_generic_testbit by (done || lia). case_cmp.
Qed.

(** A desired right is granted: [ACCESS_SYSTEM_SECURITY] by the security privilege only,
    [WRITE_OWNER] also by the privilege to take ownership, all others by the DACL. *)
Definition right_granted (T : TOKEN) (self : option mem) (gm : GENERIC_MAPPING) (es : list entry)
    (i : Z) : bool :=
  if i =? 24 then privilege_enabled T SeSecurityPrivilege
  else (i =? 19) && privilege_enabled T SeTakeOwnershipPrivilege || right_ok T self gm es i.

Definition all_granted (T : TOKEN) (self : option mem) (gm : GENERIC_MAPPING) (es : list entry)
    (W : Z) : bool :=
  forallb (fun i => implb (Z.testbit W i) (right_granted T self gm es i)) (seqZ 0 32).

(** A descriptor without a DACL. *)
Lemma worker_null_dacl T gm sd D W M R P self privs :
  empty_mapping gm = false -> sd_Revision sd = SECURITY_DESCRIPTOR_REVISION ->
  SepGetDaclFromDescriptor sd = None -> Z.testbit R 25 = false ->
  worker_dacl sd T self D W M R P None gm false privs
  = Some (finish_worker false privs (Z.lor P R) STATUS_SUCCESS).
Proof.
  intros Hne Hrev Hnone H25. unfold worker_dacl.
  destruct (Z.eqb_spec R 0) as [->|HR0]; [by rewrite Z.lor_0_r|]. rewrite Hne.
  unfold RtlGetDaclSecurityDescriptor. rewrite Hrev.
  change (negb (SECURITY_DESCRIPTOR_REVISION =? SECURITY_DESCRIPTOR_REVISION)) with false. cbv zeta.
  change (has R MAXIMUM_ALLOWED) with (has R (2 ^ 25)). rewrite has_bit, H25, Hnone by lia.
  by destruct (_ =? _).
Qed.

Section whole.
Context (T : TOKEN) (gm : GENERIC_MAPPING) (sd : SECURITY_DESCRIPTOR) (es : list entry).
Context (owner : list Z).
Hypothesis HT : token_ok T.
Hypothesis Hgm : wf_mapping gm.
Hypothesis Hgm' : empty_mapping gm = false.
Hypothesis Hd : descriptor sd es owner.

(** The rights the policy takes out of the desired ones. *)
Definition pm (W : Z) : Z :=
  policy_mask (Z.testbit W 24) (Z.testbit W 19 && held T UserMode SeTakeOwnershipPrivilege).

Lemma policy_bits W i : 0 <= i -> Z.testbit (pm W) i = privileged T UserMode W i.
Proof.
  intros Hi. unfold pm. rewrite policy_mask_testbit by done. unfold privileged.
  destruct (Z.eqb_spec i 24) as [E24|], (Z.eqb_spec i 19) as [E19|]; cbn [andb orb];
    rewrite ?andb_false_r, ?andb_true_r, ?orb_false_r; try (rewrite ?E24, ?E19; done); lia.
Qed.

Lemma policy_rest W i :
  mask W -> 0 <= i ->
  Z.testbit (clear_bits W (pm W)) i = Z.testbit W i && negb (privileged T UserMode W i).
Proof. intros HW Hi. by rewrite clear_bits_testbit, policy_bits by (apply policy_mask_range || done). Qed.

Lemma policy_join P W :
  mask W -> Z.lor (Z.lor P (pm W)) (clear_bits W (pm W)) = Z.lor P W /\
  Z.lor (Z.lor P (pm W)) W = Z.lor P W.
Proof.
  intros HW. split; apply Z.bits_inj'; intros i Hi; rewrite !Z.lor_spec, ?policy_rest, policy_bits by done;
    unfold privileged; destruct ((i =? 24) || _), (Z.testbit P i), (Z.testbit W i); done.
Qed.

Lemma covered_policy self W :
  mask W -> (Z.testbit W 24 = true -> privilege_enabled T SeSecurityPrivilege = true) ->
  covered T self gm es (clear_bits W (pm W)) = all_granted T self gm es W.
Proof.
  intros HW H24. apply eq_true_iff_eq. rewrite covered_spec. unfold all_granted. rewrite forallb_bits.
  split; intros H i Hi; specialize (H i Hi); rewrite policy_rest in * by (done || lia);
    unfold right_granted, privileged, held in *; destruct (Z.testbit W i) eqn:E; try done;
    destruct (Z.eqb_spec i 24) as [E24|], (i =? 19); cbn [andb orb negb implb] in *; try done;
    try (apply H24; by rewrite <- E24); destruct (privilege_enabled T SeTakeOwnershipPrivilege);
    cbn [andb orb negb implb] in *; auto; done.
Qed.

(** The worker for a definite set of rights [W], given what it makes of the DACL. *)
Lemma worker_policy (cov : Z -> bool) ct pt self D P want :
  match ct with Some t => t | None => pt end = T ->
  mask D -> D <> 0 -> 0 <= P < 2 ^ 28 ->
  let W := RtlMapGenericMask D gm in
  Z.testbit W 25 = false ->
  (forall wanted desired R P' privs, mask R -> Z.testbit R 25 = false -> Z.lor P' W = Z.lor P' R ->
     worker_dacl sd T self W wanted desired R P' None gm false privs
     = Some (if cov R then finish_worker false privs (Z.lor P' R) STATUS_SUCCESS
             else finish_worker false privs 0 STATUS_ACCESS_DENIED)) ->
  exists privs, SepAccessCheckWorker true sd ct pt self D None P gm UserMode false want
  = Some (if Z.testbit W 24 && negb (privilege_enabled T SeSecurityPrivilege)
          then finish_worker false privs P STATUS_PRIVILEGE_NOT_HELD
          else if cov (clear_bits W (pm W)) then finish_worker false privs (Z.lor P W) STATUS_SUCCESS
          else finish_worker false privs 0 STATUS_ACCESS_DENIED).
Proof.
  intros Htok HD HD0 HP W H25 Hdacl. unfold SepAccessCheckWorker.
  rewrite (proj2 (Z.eqb_neq D 0) HD0). fold W. rewrite Htok.
  replace (if negb (P =? 0) then RtlMapGenericMask P gm else P) with P
    by (rewrite map_generic_id by done; by destruct (negb _)).
  assert (HW : mask W) by (by apply map_generic_mask).
  pose proof (policy_check W P T want UserMode) as Hpol. cbv zeta in Hpol.
  change (held T UserMode SeSecurityPrivilege) with (privilege_enabled T SeSecurityPrivilege) in Hpol.
  destruct (Z.testbit W 24 && negb (privilege_enabled T SeSecurityPrivilege)) eqn:E24.
  - rewrite Hpol. by exists None.
  - rewrite Hpol. cbn [pol_Status pol_Desired pol_Set pol_Granted].
    change (negb (NT_SUCCESS STATUS_SUCCESS)) with false. cbn match. fold (pm W).
    eexists. rewrite Hdacl; [by rewrite (proj1 (policy_join P W HW))|..].
    + by apply mask_clear; [|apply policy_mask_range].
    + rewrite policy_rest by (done || lia). by rewrite H25.
    + by rewrite (proj1 (policy_join P W HW)), (proj2 (policy_join P W HW)).
Qed.

Lemma security_needed self W :
  Z.testbit W 24 && negb (privilege_enabled T SeSecurityPrivilege) = true ->
  all_granted T self gm es W = false.
Proof.
  intros [E24 Ep]%andb_true_iff. apply negb_true_iff in Ep. apply not_true_is_false. intros H.
  unfold all_granted in H. rewrite forallb_bits in H. specialize (H 24 ltac:(lia)).
  rewrite E24 in H. unfold right_granted in H. cbn in H. congruence.
Qed.

(** The status of a failed check. *)
Definition denial (W : Z) : Z :=
  if Z.testbit W 24 && negb (privilege_enabled T SeSecurityPrivilege)
  then STATUS_PRIVILEGE_NOT_HELD else STATUS_ACCESS_DENIED.

Lemma worker_spec ct pt self D P want :
  match ct with Some t => t | None => pt end = T -> self_ok self ->
  mask D -> D <> 0 -> 0 <= P < 2 ^ 28 ->
  let W := RtlMapGenericMask D gm in
  Z.testbit W 25 = false ->
  exists privs g, SepAccessCheckWorker true sd ct pt self D None P gm UserMode false want
  = Some (if all_granted T self gm es W then finish_worker false privs (Z.lor P W) STATUS_SUCCESS
          else finish_worker false privs g (denial W)).
Proof.
  intros Htok Hself HD HD0 HP W H25.
  destruct (worker_policy (covered T self gm es) ct pt self D P want) as [privs ->]; [done..| |].
  { intros. by apply (worker_regular_spec T self gm HT Hself Hgm sd es owner). }
  fold W. exists privs. unfold denial.
  destruct (Z.testbit W 24 && negb (privilege_enabled T SeSecurityPrivilege)) eqn:E24.
  - exists P. by rewrite security_needed.
  - exists 0. rewrite covered_policy; [done|by apply map_generic_mask|].
    intros E. rewrite E in E24. by apply negb_false_iff in E24.
Qed.

(** Without a DACL. *)
Lemma worker_null_spec ct pt self D P want :
  sd_Revision sd = SECURITY_DESCRIPTOR_REVISION -> SepGetDaclFromDescriptor sd = None ->
  match ct with Some t => t | None => pt end = T ->
  mask D -> D <> 0 -> 0 <= P < 2 ^ 28 ->
  let W := RtlMapGenericMask D gm in
  Z.testbit W 25 = false ->
  exists privs g, SepAccessCheckWorker true sd ct pt self D None P gm UserMode false want
  = Some (if negb (Z.testbit W 24) || privilege_enabled T SeSecurityPrivilege
          then finish_worker false privs (Z.lor P W) STATUS_SUCCESS
          else finish_worker false privs g (denial W)).
Proof.
  intros Hrev Hnone Htok HD HD0 HP W H25.
  destruct (worker_policy (fun _ => true) ct pt self D P want) as [privs ->]; [done..| |].
  { intros. by apply worker_null_dacl. }
  exists privs, P. fold W. unfold denial.
  by destruct (Z.testbit W 24), (privilege_enabled T SeSecurityPrivilege).
Qed.

(** The worker when [MAXIMUM_ALLOWED] is among the rights. *)
Lemma worker_max_spec ct pt self D P want :
  match ct with Some t => t | None => pt end = T -> self_ok self ->
  mask D -> D <> 0 -> 0 <= P < 2 ^ 28 ->
  let W := RtlMapGenericMask D gm in
  Z.testbit W 25 = true ->
  exists privs G, mask G /\ (forall i, 0 <= i -> Z.testbit G i = max_granted T self gm es i) /\
  SepAccessCheckWorker true sd ct pt self D None P gm UserMode false want
  = Some (if Z.testbit W 24 && negb (privilege_enabled T SeSecurityPrivilege)
          then finish_worker false privs P STATUS_PRIVILEGE_NOT_HELD
          else if covered_maximum T self gm es (clear_bits W (pm W)) &&
                  negb (Z.lor (Z.lor P (pm W)) G =? 0)
          then finish_worker false privs (Z.lor (Z.lor P (pm W)) G) STATUS_SUCCESS
          else finish_worker false privs 0 STATUS_ACCESS_DENIED).
Proof.
  intros Htok Hself HD HD0 HP W H25. unfold SepAccessCheckWorker.
  rewrite (proj2 (Z.eqb_neq D 0) HD0). fold W. rewrite Htok.
  replace (if negb (P =? 0) then RtlMapGenericMask P gm else P) with P
    by (rewrite map_generic_id by done; by destruct (negb _)).
  assert (HW : mask W) by (by apply map_generic_mask).
  pose proof (policy_check W P T want UserMode) as Hpol. cbv zeta in Hpol.
  change (held T UserMode SeSecurityPrivilege) with (privilege_enabled T SeSecurityPrivilege) in Hpol.
  destruct (worker_maximum_spec T self gm HT Hself Hgm sd es owner W
    (clear_bits (Z.lor W P) MAXIMUM_ALLOWED) (not32 MAXIMUM_ALLOWED)
    (clear_bits W (pm W)) (Z.lor P (pm W))
    (if want then Some (match used_privileges T UserMode W with [] => None | l => Some l end) else None))
    as (G & HG & HGi & Hw); [done..|apply mask_clear; [done|apply policy_mask_range]|done| |].
  { rewrite policy_rest by (done || lia). unfold privileged. by rewrite H25. }
  destruct (Z.testbit W 24 && negb (privilege_enabled T SeSecurityPrivilege)) eqn:E24.
  - rewrite Hpol. by exists None, G.
  - rewrite Hpol. cbn [pol_Status pol_Desired pol_Set pol_Granted].
    change (negb (NT_SUCCESS STATUS_SUCCESS)) with false. cbn match. fold (pm W).
    change (has W MAXIMUM_ALLOWED) with (has W (2 ^ 25)). rewrite has_bit, H25 by lia.
    rewrite Hw. by do 2 eexists.
Qed.

(** ** Ownership *)

Definition is_owner : bool :=
  in_token T None owner false false && (negb (SeTokenIsRestricted T) || in_token T None owner false true).

(** The rights an owner has without asking the DACL. *)
Definition owner_mask : Z := if is_owner then Z.lor WRITE_DAC READ_CONTROL else 0.

Lemma is_owner_spec : has_owner sd owner -> SepTokenIsOwner T sd = Some is_owner.
Proof.
  intros (o & Ho & Hat). unfold SepTokenIsOwner, is_owner. rewrite Ho.
  cbn [mbind option_bind]. unfold SepSidInToken.
  rewrite !(SepSidInTokenEx_spec T None o owner) by done. cbn [mbind option_bind].
  fold (SeTokenIsRestricted T). by destruct (in_token _ _ _ _ _), (SeTokenIsRestricted T).
Qed.

Lemma owner_mask_range : mask owner_mask.
Proof. unfold owner_mask, mask. destruct is_owner; vm_compute; split; (discriminate || reflexivity). Qed.

Lemma owner_mask_bits i :
  0 <= i -> Z.testbit owner_mask i = is_owner && ((i =? 18) || (i =? 17)).
Proof.
  intros Hi. unfold owner_mask. destruct is_owner; [|apply Z.bits_0].
  change WRITE_DAC with (2 ^ 18). change READ_CONTROL with (2 ^ 17).
  by rewrite Z.lor_spec, !bit_mask by lia.
Qed.

Lemma owner_rights_spec D P :
  has_owner sd owner -> mask D ->
  owner_rights T sd D P
  = Some (clear_bits D owner_mask,
          Z.lor P (if Z.testbit D 25 then owner_mask else Z.land D owner_mask)).
Proof.
  intros Hown HD. unfold owner_rights. set (rights := Z.lor WRITE_DAC READ_CONTROL).
  assert (Hnot : clear_bits D 0 = D).
  { apply mask_eq; [by apply mask_clear; [|unfold mask; lia]|done|]. intros i Hi.
    rewrite clear_bits_testbit, Z.bits_0 by (done || lia || (unfold mask; lia)). by rewrite andb_true_r. }
  assert (H25 : has D MAXIMUM_ALLOWED = Z.testbit D 25) by (by apply (has_bit D 25)).
  destruct (has D (Z.lor rights MAXIMUM_ALLOWED)) eqn:E.
  - rewrite is_owner_spec by done. cbn [mbind option_bind]. unfold owner_mask. destruct is_owner.
    + by rewrite H25.
    + rewrite Hnot, Z.land_0_r. by destruct (Z.testbit D 25); rewrite Z.lor_0_r.
  - assert (Hall : forall i, 0 <= i -> Z.testbit D i && Z.testbit (Z.lor rights MAXIMUM_ALLOWED) i = false)
      by (intros i Hi; by apply has_false).
    assert (E25 : Z.testbit D 25 = false) by (specialize (Hall 25 ltac:(lia));
      by rewrite andb_true_r in Hall).
    assert (Hland : Z.land D owner_mask = 0).
    { apply Z.bits_inj'. intros i Hi. rewrite Z.land_spec, Z.bits_0. specialize (Hall i Hi).
      rewrite Z.lor_spec in Hall. unfold owner_mask. destruct is_owner; [|by rewrite Z.bits_0, andb_false_r].
      fold rights. by destruct (Z.testbit D i), (Z.testbit rights i). }
    rewrite E25, Hland, Z.lor_0_r. do 2 f_equal.
    apply mask_eq; [done|apply mask_clear; [done|apply owner_mask_range]|]. intros i Hi.
    rewrite clear_bits_testbit by (done || apply owner_mask_range || lia).
    pose proof (f_equal (fun x => Z.testbit x i) Hland) as Hb. cbv beta in Hb.
    rewrite Z.land_spec, Z.bits_0 in Hb. by destruct (Z.testbit D i), (Z.testbit owner_mask i).
Qed.
End whole.

Definition subject_ok (ctx : SECURITY_SUBJECT_CONTEXT) : Prop :=
  match ClientToken ctx with Some _ => SecurityImpersonation <= ImpersonationLevel ctx | None => True end.

(** The parts of an access check: a token with well-formed SIDs, a mapping that is
    not empty, and a descriptor with an owner and a DACL. *)
Record check_ok (ctx : SECURITY_SUBJECT_CONTEXT) (gm : GENERIC_MAPPING) (sd : SECURITY_DESCRIPTOR)
    (es : list entry) (owner : list Z) : Prop := {
  c_token : token_ok (effective_token ctx);
  c_subject : subject_ok ctx;
  c_mapping : wf_mapping gm;
  c_nonempty : empty_mapping gm = false;
  c_descriptor : descriptor sd es owner
}.

Lemma impersonation_ok ctx :
  subject_ok ctx ->
  (if ClientToken ctx is Some _ then true else false) &&
    (ImpersonationLevel ctx <? SecurityImpersonation) = false.
Proof. unfold subject_ok. destruct (ClientToken ctx); [|done]. intros H. cbn [andb]. case_cmp. Qed.

(** [SeAccessCheck] from user mode, up to the worker. *)
Lemma access_check_unfold ctx gm sd owner D P :
  token_ok (effective_token ctx) -> subject_ok ctx -> has_owner sd owner -> mask D ->
  let om := owner_mask (effective_token ctx) owner in
  let D1 := clear_bits D om in
  let P1 := Z.lor P (if Z.testbit D 25 then om else Z.land D om) in
  SeAccessCheck true (Some sd) ctx D P gm UserMode
  = if D1 =? 0
    then Some (if P1 =? 0 then mkCheck false (Some P1) STATUS_ACCESS_DENIED None
               else mkCheck true (Some P1) STATUS_SUCCESS None)
    else r ← SepAccessCheckWorker true sd (ClientToken ctx) (PrimaryToken ctx) None D1 None P1 gm
               UserMode false true;
         Some (of_worker r).
Proof.
  intros HT Hs Hown HD om D1 P1. unfold SeAccessCheck. rewrite impersonation_ok by done.
  rewrite (owner_rights_spec _ sd owner) by done. done.
Qed.

Lemma own_rights_range T owner D P :
  mask D -> 0 <= P < 2 ^ 28 -> 0 <= Z.lor P (if Z.testbit D 25 then owner_mask T owner
                                   else Z.land D (owner_mask T owner)) < 2 ^ 28.
Proof.
  intros [HD _] HP. apply (lor_range 28); [lia|done|].
  assert (Ho : 0 <= owner_mask T owner < 2 ^ 28)
    by (unfold owner_mask; destruct (is_owner _ _); vm_compute; split; (discriminate || reflexivity)).
  destruct (Z.testbit D 25); [done|]. rewrite Z.land_comm. apply (land_range 28); lia.
Qed.

(** The rights an owner gets need not be zero for the check to succeed. *)
Lemma owner_only T owner D :
  mask D -> D <> 0 -> clear_bits D (owner_mask T owner) = 0 ->
  Z.land D (owner_mask T owner) = D.
Proof.
  intros HD HD0 E. pose proof (owner_mask_range T owner) as Ho.
  apply Z.bits_inj'. intros i Hi. rewrite Z.land_spec.
  pose proof (f_equal (fun x => Z.testbit x i) E) as Hb. cbv beta in Hb.
  rewrite clear_bits_testbit, Z.bits_0 in Hb by done.
  by destruct (Z.testbit D i), (Z.testbit (owner_mask T owner) i).
Qed.

Lemma all_granted_spec T self gm es W :
  0 <= W < 2 ^ 28 ->
  all_granted T self gm es W = true <->
  (forall i, 0 <= i < 28 -> Z.testbit W i = true -> right_granted T self gm es i = true).
Proof.
  intros HW. unfold all_granted. rewrite forallb_bits. setoid_rewrite implb_true_iff.
  split; intros H i Hi; [apply H; lia|]. intros E.
  destruct (Z.lt_ge_cases i 28); [apply H; [lia|done]|]. by rewrite (testbit_high W 28) in E by lia.
Qed.

(** [SeAccessCheck] for a definite set of rights, given the answer [ok] of the worker. *)
Lemma access_check_by ctx gm sd owner D P ok st :
  token_ok (effective_token ctx) -> subject_ok ctx -> has_owner sd owner -> wf_mapping gm ->
  mask D -> D <> 0 -> 0 <= P < 2 ^ 28 -> Z.testbit D 25 = false ->
  let om := owner_mask (effective_token ctx) owner in
  let W := RtlMapGenericMask (clear_bits D om) gm in
  (clear_bits D om = 0 -> ok = true) -> NT_SUCCESS st = false ->
  (forall P', clear_bits D om <> 0 -> 0 <= P' < 2 ^ 28 -> exists privs g,
     SepAccessCheckWorker true sd (ClientToken ctx) (PrimaryToken ctx) None (clear_bits D om) None P'
       gm UserMode false true
     = Some (if ok then finish_worker false privs (Z.lor P' W) STATUS_SUCCESS
             else finish_worker false privs g st)) ->
  exists r, SeAccessCheck true (Some sd) ctx D P gm UserMode = Some r /\ ck_Return r = ok /\
  (ok = true -> ck_Status r = STATUS_SUCCESS /\
     ck_Granted r = Some (Z.lor (Z.lor P (Z.land D om)) W)) /\
  (ok = false -> ck_Status r = st).
Proof.
  intros HT Hs Hown Hgm HD HD0 HP HD25 om W Hok Hst Hworker.
  pose proof (own_rights_range (effective_token ctx) owner D P HD HP) as HP1.
  rewrite (access_check_unfold ctx gm sd owner) by done. fold om. cbv zeta.
  rewrite HD25 in *. fold om in HP1. destruct (Z.eqb_spec (clear_bits D om) 0) as [E|E].
  - assert (HW : W = 0) by (unfold W; rewrite E; apply map_generic_id; [done|lia]).
    rewrite HW, Z.lor_0_r, (Hok E). assert (Hl : Z.land D om = D) by (by apply owner_only).
    rewrite Hl. rewrite (proj2 (Z.eqb_neq (Z.lor P D) 0)).
    2:{ intros E'. by apply Z.lor_eq_0_iff in E' as [_ E']. }
    by eexists.
  - destruct (Hworker _ E HP1) as (privs & g & ->). cbn [mbind option_bind].
    eexists. split; [reflexivity|]. by destruct ok.
Qed.

Lemma denial_fails T W : NT_SUCCESS (denial T W) = false.
Proof. unfold denial. by destruct (_ && _). Qed.

Lemma access_check_regular ctx gm sd es owner D P :
  check_ok ctx gm sd es owner -> mask D -> D <> 0 -> 0 <= P < 2 ^ 28 -> Z.testbit D 25 = false ->
  let T := effective_token ctx in
  let om := owner_mask T owner in
  let W := RtlMapGenericMask (clear_bits D om) gm in
  Z.testbit W 25 = false ->
  exists r, SeAccessCheck true (Some sd) ctx D P gm UserMode = Some r /\
  ck_Return r = all_granted T None gm es W /\
  (all_granted T None gm es W = true -> ck_Status r = STATUS_SUCCESS /\
     ck_Granted r = Some (Z.lor (Z.lor P (Z.land D om)) W)) /\
  (all_granted T None gm es W = false -> ck_Status r = denial T W).
Proof.
  intros [HT Hs Hgm Hne Hd] HD HD0 HP HD25 T om W HW25. pose proof (d_owner _ _ _ Hd) as Hown.
  apply (access_check_by ctx gm sd owner); try done; fold T om.
  - intros E. unfold W. rewrite E. apply all_granted_spec; [rewrite map_generic_id by (done || lia); lia|].
    intros i _. rewrite map_generic_id by (done || lia). by rewrite Z.bits_0.
  - apply denial_fails.
  - intros P' HD1 HP'.
    apply (worker_spec T gm sd es owner HT Hgm Hne Hd (ClientToken ctx) (PrimaryToken ctx) None); try done.
    apply mask_clear; [done|apply owner_mask_range].
Qed.

(** ** [MAXIMUM_ALLOWED] *)

(** A definite right desired besides [MAXIMUM_ALLOWED]. *)
Definition max_right (T : TOKEN) (gm : GENERIC_MAPPING) (es : list entry) (i : Z) : bool :=
  if i =? 24 then privilege_enabled T SeSecurityPrivilege
  else (i =? 19) && privilege_enabled T SeTakeOwnershipPrivilege || max_granted T None gm es i.

Lemma covered_maximum_policy T gm es W :
  0 <= W < 2 ^ 28 -> (Z.testbit W 24 = true -> privilege_enabled T SeSecurityPrivilege = true) ->
  covered_maximum T None gm es (clear_bits W (pm T W)) = true <->
  (forall i, 0 <= i < 28 -> i <> 25 -> Z.testbit W i = true -> max_right T gm es i = true).
Proof.
  intros HW H24. assert (HM : mask W) by (unfold mask; lia).
  unfold covered_maximum. rewrite forallb_bits. split; intros H i Hi.
  - intros Hne E. specialize (H i ltac:(lia)). rewrite policy_rest in H by (done || lia).
    rewrite E, (proj2 (Z.eqb_neq i 25) Hne) in H. unfold privileged, held in H. unfold max_right.
    rewrite E in H. destruct (Z.eqb_spec i 24) as [E24|]; [apply H24; by rewrite <- E24|].
    destruct (i =? 19), (privilege_enabled T SeTakeOwnershipPrivilege); done.
  - rewrite policy_rest by (done || lia). destruct (Z.testbit W i) eqn:E; [|done].
    destruct (Z.eqb_spec i 25) as [|Hne]; [by rewrite implb_true_r|]. cbn [andb orb].
    destruct (Z.lt_ge_cases i 28); [|by rewrite (testbit_high W 28) in E by lia].
    specialize (H i ltac:(lia) Hne E). unfold privileged, held. rewrite E. unfold max_right in H.
    destruct (i =? 24); [done|]. cbn [andb orb negb implb] in *.
    by destruct (i =? 19), (privilege_enabled T SeTakeOwnershipPrivilege).
Qed.

(** The bits of the granted rights. *)
Definition max_bit (T : TOKEN) (gm : GENERIC_MAPPING) (es : list entry) (owner : list Z) (P W i : Z)
  : bool :=
  Z.testbit P i || Z.testbit (owner_mask T owner) i || privileged T UserMode W i ||
  max_granted T None gm es i.

Lemma access_check_maximum ctx gm sd es owner D P :
  check_ok ctx gm sd es owner -> mask D -> 0 <= P < 2 ^ 28 -> Z.testbit D 25 = true ->
  let T := effective_token ctx in
  let W := RtlMapGenericMask (clear_bits D (owner_mask T owner)) gm in
  exists r g, SeAccessCheck true (Some sd) ctx D P gm UserMode = Some r /\ mask g /\
  (forall i, 0 <= i -> Z.testbit g i = max_bit T gm es owner P W i) /\
  (ck_Return r = true -> ck_Status r = STATUS_SUCCESS /\ ck_Granted r = Some g) /\
  (ck_Return r = true <->
   (forall i, 0 <= i < 28 -> i <> 25 -> Z.testbit W i = true -> max_right T gm es i = true) /\ g <> 0).
Proof.
  intros Hc HD HP HD25 T W. pose proof (own_rights_range T owner D P HD HP) as HP1.
  destruct Hc as [HT Hs Hgm Hne Hd].
  rewrite (access_check_unfold ctx gm sd owner) by (done || apply (d_owner _ _ _ Hd)).
  fold T. cbv zeta. rewrite HD25 in *. set (om := owner_mask T owner) in *. set (D1 := clear_bits D om) in *.
  assert (Hom : mask om) by apply owner_mask_range.
  assert (HD1 : mask D1) by (by apply mask_clear).
  assert (H25 : Z.testbit D1 25 = true).
  { unfold D1, om. rewrite clear_bits_testbit, owner_mask_bits, HD25 by (done || lia).
    by rewrite andb_false_r. }
  assert (HW25 : Z.testbit W 25 = true).
  { unfold W. rewrite map_generic_testbit by (done || lia). unfold mapped. by rewrite H25. }
  assert (HW : 0 <= W < 2 ^ 28) by (by apply map_generic_range).
  destruct (Z.eqb_spec D1 0) as [E|E]; [by rewrite E, Z.bits_0 in H25|].
  destruct (worker_max_spec T gm sd es owner HT Hgm Hne Hd (ClientToken ctx) (PrimaryToken ctx) None
    D1 (Z.lor P om) true) as (privs & G & HG & HGi & ->); [done..|]. fold W. cbn [mbind option_bind].
  set (g := Z.lor (Z.lor (Z.lor P om) (pm T W)) G).
  exists (of_worker (if Z.testbit W 24 && negb (privilege_enabled T SeSecurityPrivilege)
    then finish_worker false privs (Z.lor P om) STATUS_PRIVILEGE_NOT_HELD
    else if covered_maximum T None gm es (clear_bits W (pm T W)) && negb (g =? 0)
    then finish_worker false privs g STATUS_SUCCESS
    else finish_worker false privs 0 STATUS_ACCESS_DENIED)), g.
  split; [done|]. split.
  { apply mask_lor; [apply mask_lor; [unfold mask; lia|apply policy_mask_range]|done]. }
  split; [|split].
  - intros i Hi. unfold g. by rewrite !Z.lor_spec, HGi, policy_bits by done.
  - destruct (_ && _); [done|]. by destruct (_ && _).
  - destruct (Z.testbit W 24 && negb (privilege_enabled T SeSecurityPrivilege)) eqn:E24.
    + apply andb_true_iff in E24 as [E24 Ep]. apply negb_true_iff in Ep. split; [done|].
      intros [H _]. specialize (H 24 ltac:(lia) ltac:(lia) E24). unfold max_right in H. cbn in H. congruence.
    + rewrite <- covered_maximum_policy.
      2:{ done. }
      2:{ intros H. rewrite H in E24. by apply negb_false_iff in E24. }
      rewrite <- (Z.eqb_neq g 0), <- negb_true_iff.
      destruct (covered_maximum _ _ _ _ _), (negb (g =? 0)); cbn; intuition discriminate.
Qed.

Lemma clear_range a b : 0 <= a < 2 ^ 28 -> mask b -> 0 <= clear_bits a b < 2 ^ 28.
Proof.
  intros Ha Hb. unfold clear_bits. pose proof (not32_range b Hb). apply (land_range 28); lia.
Qed.

(** The rights granted to a check for [MAXIMUM_ALLOWED] alone. *)
Lemma maximum_alone ctx gm sd es owner r g i :
  check_ok ctx gm sd es owner ->
  SeAccessCheck true (Some sd) ctx MAXIMUM_ALLOWED 0 gm UserMode = Some r ->
  ck_Return r = true -> ck_Granted r = Some g -> 0 <= i ->
  Z.testbit g i = Z.testbit (owner_mask (effective_token ctx) owner) i ||
                  max_granted (effective_token ctx) None gm es i.
Proof.
  intros Hc Hr Hret Hg Hi.
  assert (HM : mask MAXIMUM_ALLOWED) by (vm_compute; split; (discriminate || reflexivity)).
  destruct (access_check_maximum ctx gm sd es owner MAXIMUM_ALLOWED 0)
    as (r' & g' & Hr' & _ & Hbits & H1 & _); [done..|lia|done|].
  rewrite Hr in Hr'. injection Hr' as <-. destruct (H1 Hret) as [_ Hg']. rewrite Hg in Hg'.
  injection Hg' as <-. rewrite Hbits by done. unfold max_bit. rewrite Z.bits_0. cbn [orb].
  set (om := owner_mask _ _).
  assert (E : clear_bits MAXIMUM_ALLOWED om = 2 ^ 25).
  { apply mask_eq; [apply mask_clear; [done|apply owner_mask_range]|unfold mask; lia|]. intros j Hj.
    unfold om. rewrite clear_bits_testbit, owner_mask_bits by (done || apply owner_mask_range || lia).
    change MAXIMUM_ALLOWED with (2 ^ 25). rewrite bit_mask by lia.
    destruct (Z.eqb_spec j 25) as [E|]; [rewrite E; by rewrite andb_false_r|done]. }
  rewrite E, map_generic_id by (exact (c_mapping _ _ _ _ _ Hc) || lia). unfold privileged. rewrite bit_mask by lia.
  replace ((i =? 25) && _) with false; [by rewrite orb_false_r|].
  by destruct (Z.eqb_spec i 25) as [E25|]; [rewrite E25|].
Qed.

(** ** The traverse check *)

(** What [fast_traverse_loop] computes on the entries. *)
Fixpoint fast (es : list entry) (D : Z) : bool :=
  match es with
  | [] => false
  | EKnown t f m sid :: es =>
      if has f INHERIT_ONLY_ACE || negb (has m D) then fast es D else
      if deny_type t then false else bool_decide (SeWorldSid = sid) || fast es D
  | _ :: es => fast es D
  end.

Lemma fast_traverse_loop_spec rest D es : forall pre,
  Forall entry_ok es -> Forall ace_ok (encode <$> es) ->
  fast_traverse_loop (pre ++ concat (encode <$> es) ++ rest) D (length es) (Z.of_nat (length pre))
  = Some (fast es D).
Proof.
  induction es as [|e es IH]; intros pre Hes Hok; [done|].
  apply Forall_cons_iff in Hes as [He Hes]. apply Forall_cons_iff in Hok as [Ha Hok].
  cbn [length fast_traverse_loop fmap list_fmap concat]. rewrite <- app_assoc.
  rewrite (ace_size_at pre (encode e) _ _ Ha eq_refl). cbn [mbind option_bind].
  set (post := concat (encode <$> es) ++ rest).
  assert (Hnext : fast_traverse_loop (pre ++ encode e ++ post) D (length es)
            (Z.of_nat (length pre) + Z.of_nat (length (encode e))) = Some (fast es D)).
  { unfold post. rewrite (app_assoc pre), <- Nat2Z.inj_add, <- length_app. by apply IH. }
  rewrite Hnext.
  assert (Hget : forall n p, 0 <= p ->
    get n (pre ++ encode e ++ post) (Z.of_nat (length pre) + p) = get n (encode e ++ post) p)
    by (intros n p Hp; by apply get_app_r).
  unfold AceType. rewrite <- (Z.add_0_r (Z.of_nat (length pre))), <- !Z.add_assoc, !Hget by lia.
  rewrite !Z.add_0_l. destruct e as [t f m sid|t f m g1 g2 sid|a].
  - destruct He as (Ht & Hf & Hm & Hsid).
    destruct (known_fields t f m sid post) as (H1 & H2 & H3 & _);
      [destruct Ht as [-> | ->]; vm_compute; discriminate|done|].
    unfold AceType in H2. cbn [encode] in *. rewrite H1, H2, H3. cbn [mbind option_bind].
    replace (drop _ _) with (sid ++ post).
    2:{ rewrite Z2Nat.inj_add, Nat2Z.id by lia. by rewrite drop_app_add. }
    rewrite (RtlEqualSid_spec _ _ _ _ SeWorldSid_at (sid_at_app sid post Hsid)).
    cbn [mbind option_bind fast]. destruct (has f INHERIT_ONLY_ACE); [done|].
    destruct Ht as [-> | ->]; cbn; destruct (has m D); cbn; [by case_bool_decide|done..].
  - destruct He as (Ht & Hf & Hm & Hg1 & Hg2 & Hsid).
    destruct (object_fields t f m g1 g2 sid post) as (H1 & H2 & _); [done..|].
    unfold AceType in H2. cbn [encode] in *. rewrite H1, H2. cbn [mbind option_bind fast].
    destruct (has f INHERIT_ONLY_ACE); [done|]. by destruct Ht as [-> | ->].
  - destruct (entry_fields example_token None file_mapping example_token_ok ltac:(done)
      (EOther a) post He) as (t & f & H1 & H2 & H3 & H4 & _).
    unfold AceType in H2. rewrite H1, H2. cbn [mbind option_bind fast]. rewrite H3, H4.
    by destruct (has f INHERIT_ONLY_ACE).
Qed.

(** Deny entries are plain and name no generic right. *)
Definition plain_deny (e : entry) : Prop :=
  match e with
  | EKnown t _ m _ => deny_type t = true -> 0 <= m < 2 ^ 28
  | EObject t _ _ _ _ _ => deny_type t = false
  | EOther _ => True
  end.

Lemma ace_mask_keeps gm m i :
  wf_mapping gm -> mask m -> 0 <= i < 28 -> Z.testbit m i = true -> Z.testbit (ace_mask gm m) i = true.
Proof.
  intros Hgm Hm Hi E. unfold ace_mask. destruct (has m GENERIC_ACCESS); [|done].
  rewrite map_generic_testbit by (done || lia). unfold mapped. rewrite E. case_cmp.
Qed.

Lemma ace_mask_id gm m : wf_mapping gm -> 0 <= m < 2 ^ 28 -> ace_mask gm m = m.
Proof. intros Hgm Hm. unfold ace_mask. rewrite map_generic_id by done. by destruct (has _ _). Qed.

Lemma fast_sound T gm es i :
  wf_mapping gm -> Forall entry_ok es -> Forall plain_deny es -> 0 <= i < 28 ->
  in_token T None SeWorldSid false false = true ->
  fast es (2 ^ i) = true -> first_match T None gm false es i = Some true.
Proof.
  intros Hgm Hes Hp Hi Hw. induction es as [|e es IH]; [done|].
  apply Forall_cons_iff in Hes as [He Hes]. apply Forall_cons_iff in Hp as [Hpe Hp].
  specialize (IH Hes Hp). destruct e as [t f m sid|t f m g1 g2 sid|a]; cbn [fast first_match effect]; auto.
  - destruct He as (Ht & _ & Hm & _). unfold effect_of. cbn [plain_deny] in Hpe.
    destruct (has f INHERIT_ONLY_ACE); [done|]. cbn [orb]. rewrite has_bit by lia.
    destruct (deny_type t); cbn [negb].
    + rewrite ace_mask_id by auto. destruct (Z.testbit m i) eqn:E; [done|].
      destruct (in_token T None sid true false); [|done]. by rewrite E.
    + destruct (Z.testbit m i) eqn:E.
      * cbn [negb]. intros [Heq|H]%orb_true_iff.
        -- apply bool_decide_eq_true in Heq as <-. rewrite Hw. by rewrite ace_mask_keeps.
        -- destruct (in_token T None sid false false); [|auto]. by rewrite ace_mask_keeps.
      * cbn [negb]. intros H. specialize (IH H).
        destruct (in_token T None sid false false); [|done]. by destruct (Z.testbit (ace_mask gm m) i).
  - cbn [plain_deny] in Hpe. unfold effect_of. rewrite Hpe. intros H. specialize (IH H).
    destruct (has f INHERIT_ONLY_ACE); [done|]. destruct (in_token T None sid false false); [|done].
    by destruct (Z.testbit (ace_mask gm m) i).
Qed.

Lemma fast_traverse_dacl sd es owner flags i :
  descriptor sd es owner -> SeFastTraverseCheck (Some sd) flags (2 ^ i) = Some true ->
  fast es (2 ^ i) = true.
Proof.
  intros [_ (Dacl & rev & size & rest & HD & Hrep) Hes _]. unfold SeFastTraverseCheck.
  rewrite HD, (dacl_count _ _ _ _ _ Hrep). cbn [mbind option_bind].
  destruct (_ =? _); [done|]. destruct (has _ _); [done|]. rewrite Nat2Z.id.
  destruct (rep_mem _ _ _ _ _ Hrep) as (s1 & s2 & s3 & Em). rewrite length_fmap in Em.
  set (hdr := header _ _ _ _ _ _) in Em.
  change sizeof_ACL with (Z.of_nat (length hdr)). rewrite Em, fast_traverse_loop_spec; [congruence|done|].
  exact (rep_aces _ _ _ _ _ Hrep).
Qed.

(** ** Theorems *)

(** C1.  The access check is exact.  Asked from user mode for a definite set of
    rights [D], [SeAccessCheck] always returns, and it returns TRUE exactly if every
    right wanted (generic rights mapped, an owner's [READ_CONTROL] and [WRITE_DAC]
    taken out) is granted: [ACCESS_SYSTEM_SECURITY] by the security privilege,
    [WRITE_OWNER] possibly by the privilege to take ownership, every other right by
    the first entry of the DACL that applies to the token and names it, which must be
    an allow entry (and likewise for the restricted SIDs of a restricted token).
    Then the rights granted are these, the owner's and those granted before; else the
    status says which kind of denial it is. *)
Theorem access_check_iff ctx gm sd es owner D P :
  check_ok ctx gm sd es owner -> mask D -> D <> 0 -> 0 <= P < 2 ^ 28 -> Z.testbit D 25 = false ->
  let T := effective_token ctx in
  let om := owner_mask T owner in
  let W := RtlMapGenericMask (clear_bits D om) gm in
  Z.testbit W 25 = false ->
  exists r, SeAccessCheck true (Some sd) ctx D P gm UserMode = Some r /\
  (ck_Return r = true <->
   forall i, 0 <= i < 28 -> Z.testbit W i = true -> right_granted T None gm es i = true) /\
  (ck_Return r = true -> ck_Status r = STATUS_SUCCESS /\
     ck_Granted r = Some (Z.lor (Z.lor P (Z.land D om)) W)) /\
  (ck_Return r = false -> ck_Status r = denial T W).
Proof.
  intros Hc HD HD0 HP HD25 T om W HW25.
  destruct (access_check_regular ctx gm sd es owner D P) as (r & Hr & Hret & H1 & H2); [done..|].
  exists r. rewrite Hret. split; [done|]. split; [|done]. apply all_granted_spec.
  apply map_generic_range; [apply Hc|]. apply mask_clear; [done|apply owner_mask_range].
Qed.


(** C26.  What [MAXIMUM_ALLOWED] reports can be used: for a token that is not
    restricted, every non-empty set of rights among those a check for
    [MAXIMUM_ALLOWED] grants, [ACCESS_SYSTEM_SECURITY] apart, is granted when it is
    asked for. *)
Theorem maximum_allowed_usable ctx gm sd es owner r0 g D :
  check_ok ctx gm sd es owner -> SeTokenIsRestricted (effective_token ctx) = false ->
  SeAccessCheck true (Some sd) ctx MAXIMUM_ALLOWED 0 gm UserMode = Some r0 ->
  ck_Return r0 = true -> ck_Granted r0 = Some g ->
  0 < D < 2 ^ 28 -> Z.testbit D 25 = false -> Z.testbit D 24 = false -> Z.ldiff D g = 0 ->
  exists r, SeAccessCheck true (Some sd) ctx D 0 gm UserMode = Some r /\
    ck_Return r = true /\ ck_Granted r = Some D.
Proof.
  intros Hc Hres Hmax Hret Hg HD HD25 HD24 Hsub. set (T := effective_token ctx) in *.
  set (om := owner_mask T owner).
  assert (Hom : mask om) by apply owner_mask_range. assert (HDm : mask D) by (unfold mask; lia).
  assert (HW : RtlMapGenericMask (clear_bits D om) gm = clear_bits D om).
  { apply map_generic_id; [exact (c_mapping _ _ _ _ _ Hc)|]. apply clear_range; [lia|done]. }
  destruct (access_check_regular ctx gm sd es owner D 0) as (r & Hr & Hret' & H1 & _);
    [done..|lia|lia|done| |].
  { fold T om. by rewrite HW, clear_bits_testbit, HD25 by (done || lia). }
  fold T om in H1, Hret'. rewrite HW in H1, Hret'.
  assert (Hok : ck_Return r = true).
  { rewrite Hret'. apply all_granted_spec.
    { apply clear_range; [lia|done]. }
    intros i Hi E. rewrite clear_bits_testbit, andb_true_iff, negb_true_iff in E by (done || lia).
    destruct E as [Ei Eom]. unfold right_granted, right_ok. rewrite Hres.
    destruct (Z.eqb_spec i 24) as [E24|_]; [congruence|].
    assert (Hgi : Z.testbit g i = true).
    { pose proof (f_equal (fun x => Z.testbit x i) Hsub) as Hb. cbv beta in Hb.
      rewrite Z.ldiff_spec, Z.bits_0, Ei in Hb. by destruct (Z.testbit g i). }
    rewrite (maximum_alone ctx gm sd es owner r0 g) in Hgi by (done || lia).
    fold T om in Hgi. rewrite Eom in Hgi. cbn [orb] in Hgi. unfold max_granted in Hgi.
    fold T in Hgi. rewrite Hres, orb_false_r in Hgi. rewrite Hgi. by rewrite orb_true_r. }
  exists r. split; [done|]. split; [done|]. rewrite Hret' in Hok. destruct (H1 Hok) as [_ ->]. f_equal.
  rewrite Z.lor_0_l. apply mask_eq; [apply mask_lor; [apply mask_land; [done|apply Hom]|by apply mask_clear]|done|].
  intros i Hi. rewrite Z.lor_spec, Z.land_spec, clear_bits_testbit by (done || lia).
  by destruct (Z.testbit D i), (Z.testbit om i).
Qed.

(** A descriptor without a DACL grants every right desired, save that
    [ACCESS_SYSTEM_SECURITY] needs the security privilege. *)
Theorem null_dacl_grants ctx gm sd owner D P :
  token_ok (effective_token ctx) -> subject_ok ctx -> wf_mapping gm -> empty_mapping gm = false ->
  has_owner sd owner -> sd_Revision sd = SECURITY_DESCRIPTOR_REVISION ->
  SepGetDaclFromDescriptor sd = None ->
  mask D -> D <> 0 -> 0 <= P < 2 ^ 28 -> Z.testbit D 25 = false ->
  let T := effective_token ctx in
  let om := owner_mask T owner in
  let W := RtlMapGenericMask (clear_bits D om) gm in
  Z.testbit W 25 = false ->
  exists r, SeAccessCheck true (Some sd) ctx D P gm UserMode = Some r /\
  (ck_Return r = true <-> (Z.testbit W 24 = true -> privilege_enabled T SeSecurityPrivilege = true)) /\
  (ck_Return r = true -> ck_Granted r = Some (Z.lor (Z.lor P (Z.land D om)) W)).
Proof.
  intros HT Hs Hgm Hne Hown Hrev Hnone HD HD0 HP HD25 T om W HW25.
  destruct (access_check_by ctx gm sd owner D P
    (negb (Z.testbit W 24) || privilege_enabled T SeSecurityPrivilege) (denial T W))
    as (r & Hr & Hret & H1 & _); try done; fold T om.
  - intros E. unfold W. rewrite E, map_generic_id, Z.bits_0 by (done || lia). done.
  - apply denial_fails.
  - intros P' HD1 HP'. apply (worker_null_spec T gm sd); try done.
    apply mask_clear; [done|apply owner_mask_range].
  - exists r. rewrite Hret. split; [done|]. split; [|intros E; by apply H1].
    rewrite orb_true_iff, negb_true_iff. destruct (Z.testbit W 24); intuition congruence.
Qed.

(** The traverse shortcut is sound: if [SeFastTraverseCheck] lets a caller
    pass without looking at its token, the full check grants the right to every
    token that is not restricted and has S-1-1-0 enabled.  (Deny entries are plain
    ones whose generic rights are mapped, as stored descriptors have them.) *)
Theorem fast_traverse_sound ctx gm sd es owner flags i :
  check_ok ctx gm sd es owner -> Forall plain_deny es -> 0 <= i < 16 ->
  SeTokenIsRestricted (effective_token ctx) = false ->
  in_token (effective_token ctx) None SeWorldSid false false = true ->
  SeFastTraverseCheck (Some sd) flags (2 ^ i) = Some true ->
  exists r, SeAccessCheck true (Some sd) ctx (2 ^ i) 0 gm UserMode = Some r /\
    ck_Return r = true /\ ck_Granted r = Some (2 ^ i).
Proof.
  intros Hc Hp Hi Hres Hw Hfast. pose proof Hc as [HT Hs Hgm Hne Hd].
  set (T := effective_token ctx) in *.
  pose proof (fast_traverse_dacl sd es owner flags i Hd Hfast) as Hf.
  apply (fast_sound T gm) in Hf; [|done|apply (d_entries _ _ _ Hd)|done|lia|done].
  pose proof (Z.pow_lt_mono_r 2 i 16 ltac:(lia) ltac:(lia) ltac:(lia)) as Hlt.
  pose proof (Z.pow_pos_nonneg 2 i ltac:(lia) ltac:(lia)) as Hpos.
  assert (Hbit : forall j, 0 <= j -> Z.testbit (owner_mask T owner) j = true -> j = 18 \/ j = 17).
  { intros j Hj E. rewrite owner_mask_bits, andb_true_iff, orb_true_iff, !Z.eqb_eq in E by done. tauto. }
  assert (Hclear : clear_bits (2 ^ i) (owner_mask T owner) = 2 ^ i).
  { apply mask_eq; [apply mask_clear; [unfold mask; lia|apply owner_mask_range]|unfold mask; lia|].
    intros j Hj. rewrite clear_bits_testbit by (apply owner_mask_range || (unfold mask; lia) || lia).
    rewrite bit_mask by lia. destruct (Z.eqb_spec j i) as [->|]; [|done].
    destruct (Z.testbit (owner_mask T owner) i) eqn:E; [|done]. apply Hbit in E; lia. }
  destruct (access_check_regular ctx gm sd es owner (2 ^ i) 0) as (r & Hr & Hret & H1 & _);
    [done|unfold mask; lia|lia|lia|rewrite bit_mask by lia; case_cmp|..].
  { fold T. rewrite Hclear, map_generic_id by (done || lia). rewrite bit_mask by lia. case_cmp. }
  fold T in Hret, H1. rewrite Hclear, map_generic_id in Hret, H1 by (done || lia).
  assert (Hall : all_granted T None gm es (2 ^ i) = true).
  { apply all_granted_spec; [lia|]. intros j Hj E. rewrite bit_mask in E by lia. apply Z.eqb_eq in E as ->.
    unfold right_granted, right_ok, allowed. rewrite Hf, Hres.
    destruct (Z.eqb_spec i 24); [lia|]. by rewrite orb_true_r. }
  exists r. split; [done|]. rewrite Hret. split; [done|]. destruct (H1 Hall) as [_ ->]. f_equal.
  apply Z.bits_inj'. intros j Hj. rewrite Z.lor_spec, Z.lor_0_l, Z.land_spec.
  by destruct (Z.testbit (2 ^ i) j); rewrite ?orb_true_r.
Qed.

(** ** The system call *)

(** The surroundings of a call that passes the checks of its arguments: an
    impersonation token, and a captured descriptor with an owner and a group. *)
Record env_ok (env : check_env) (T : TOKEN) (gm : GENERIC_MAPPING) (sd : SECURITY_DESCRIPTOR)
    (es : list entry) (owner : list Z) : Prop := {
  e_mode : env_PreviousMode env = UserMode;
  e_probe : env_probe_ok env = true;
  e_alloc : env_alloc_ok env = true;
  e_token : exists st level, env_token env = (st, Some (T, true, level)) /\ SecurityIdentification <= level;
  e_sd : env_sd env = (STATUS_SUCCESS, Some sd);
  e_group : SepGetGroupFromDescriptor sd <> None;
  e_token_ok : token_ok T;
  e_mapping : wf_mapping gm;
  e_nonempty : empty_mapping gm = false;
  e_descriptor : descriptor sd es owner
}.

Lemma generic_free D : 0 <= D < 2 ^ 28 -> has D GENERIC_ACCESS = false.
Proof.
  intros HD. apply has_zero, Z.bits_inj'. intros i Hi. rewrite Z.land_spec, Z.bits_0.
  destruct (Z.lt_ge_cases i 28) as [Hlt|]; [|by rewrite (testbit_high D 28) by lia].
  change GENERIC_ACCESS with (2 ^ 32 - 2 ^ 28). rewrite generic_bits by lia.
  rewrite andb_comm. case_cmp.
Qed.

Lemma privileged_granted T self gm es W i :
  (Z.testbit W 24 = true -> privilege_enabled T SeSecurityPrivilege = true) ->
  privileged T UserMode W i = true -> right_granted T self gm es i = true.
Proof.
  intros H24. unfold privileged, held, right_granted. destruct (Z.eqb_spec i 24) as [E|].
  - rewrite E. rewrite andb_true_r. exact H24.
  - cbn [orb]. intros [_ H]%andb_true_iff. by rewrite H.
Qed.

(** The rights that are left after the privileges and the owner's rights. *)
Lemma all_granted_rest T gm es owner D :
  0 <= D < 2 ^ 28 -> (Z.testbit D 24 = true -> privilege_enabled T SeSecurityPrivilege = true) ->
  all_granted T None gm es (clear_bits (clear_bits D (pm T D)) (owner_mask T owner))
  = all_granted T None gm es (clear_bits D (owner_mask T owner)).
Proof.
  intros HD H24. pose proof (owner_mask_range T owner). assert (HM : mask D) by (unfold mask; lia).
  assert (Hc : mask (clear_bits D (pm T D))) by (apply mask_clear; [done|apply policy_mask_range]).
  assert (Hi : forall i, 0 <= i < 32 ->
    implb (Z.testbit (clear_bits (clear_bits D (pm T D)) (owner_mask T owner)) i)
      (right_granted T None gm es i)
    = implb (Z.testbit (clear_bits D (owner_mask T owner)) i) (right_granted T None gm es i)).
  { intros i Hi. rewrite !(clear_bits_testbit _ (owner_mask T owner)), policy_rest by (done || lia).
    destruct (privileged T UserMode D i) eqn:E; [|by rewrite andb_true_r].
    rewrite (privileged_granted T None gm es D i) by done. by rewrite !implb_true_r. }
  apply eq_true_iff_eq. unfold all_granted. rewrite !forallb_bits.
  split; intros H' i Hr; [rewrite <- Hi|rewrite Hi]; auto.
Qed.

Lemma rejoin T owner D :
  0 <= D < 2 ^ 28 -> let om := owner_mask T owner in
  let D' := clear_bits D (pm T D) in
  Z.lor (Z.lor (pm T D) (Z.land D' om)) (clear_bits D' om) = D.
Proof.
  intros HD om D'. assert (HM : mask D) by (unfold mask; lia).
  assert (Hom : mask om) by apply owner_mask_range.
  assert (HD' : mask D') by (apply mask_clear; [done|apply policy_mask_range]).
  apply Z.bits_inj'. intros i Hi. rewrite !Z.lor_spec, Z.land_spec, clear_bits_testbit by done.
  unfold D'. rewrite policy_rest, policy_bits by done. unfold privileged.
  by destruct (Z.testbit D i), (Z.testbit om i), ((i =? 24) || _).
Qed.

(** From the captured descriptor on, for rights without generic ones. *)
Lemma check_captured_spec env T gm sd es owner D P n :
  env_ok env T gm sd es owner -> 0 <= D < 2 ^ 28 -> 0 <= P < 2 ^ 28 -> Z.testbit D 25 = false ->
  let om := owner_mask T owner in
  exists g, check_captured env T sd None D P None n gm false
  = Some (if all_granted T None gm es (clear_bits D om)
          then OutSingle (Z.lor (Z.lor P (Z.land D om)) (clear_bits D om)) STATUS_SUCCESS
          else OutSingle g (denial T (clear_bits D om))).
Proof.
  intros [Hmode _ Halloc _ _ _ HT Hgm Hne Hd] HD HP HD25 om. pose proof (d_owner _ _ _ Hd) as Hown.
  assert (HM : mask D) by (unfold mask; lia).
  pose proof (own_rights_range T owner D P HM HP) as HP1. rewrite HD25 in HP1. fold om in HP1.
  assert (Hom : mask om) by apply owner_mask_range.
  assert (HD1 : 0 <= clear_bits D om < 2 ^ 28) by (by apply clear_range).
  unfold check_captured. rewrite (owner_rights_spec T sd owner) by done. rewrite HD25. fold om.
  cbn [mbind option_bind]. destruct (Z.eqb_spec (clear_bits D om) 0) as [E|E].
  { exists 0. rewrite E, Z.lor_0_r. rewrite (proj2 (all_granted_spec _ _ _ _ 0 ltac:(lia))); [done|].
    intros i _. by rewrite Z.bits_0. }
  rewrite Hmode, Halloc.
  destruct (worker_spec T gm sd es owner HT Hgm Hne Hd (Some T) T None (clear_bits D om)
    (Z.lor P (Z.land D om)) false) as (privs & g & ->); try done.
  - unfold mask. lia.
  - rewrite map_generic_id by done. by rewrite clear_bits_testbit, HD25 by (done || lia).
  - rewrite map_generic_id by done. exists g. cbn [mbind option_bind].
    by destruct (all_granted _ _ _ _ _).
Qed.

Lemma denial_ne T W : denial T W <> STATUS_SUCCESS.
Proof. unfold denial. by destruct (_ && _). Qed.

Lemma pm_range T D : 0 <= pm T D < 2 ^ 28.
Proof. unfold pm. destruct (Z.testbit D 24), (_ && _); vm_compute; split; (discriminate || reflexivity). Qed.

Lemma used_length T D :
  SepGetPrivilegeSetLength (match used_privileges T UserMode D with [] => None | l => Some l end) <= 32.
Proof. unfold used_privileges. destruct (privileged _ _ _ _), (privileged _ _ _ _); cbn; lia. Qed.

(** C9.  The system call is exact.  For a call whose arguments are in order and
    that asks for definite rights [D], [NtAccessCheck] succeeds and answers
    [STATUS_SUCCESS] with just [D] granted exactly if every right of [D] that the
    caller does not have as owner is granted by a privilege or the DACL.  In
    particular a request for no right at all is answered with [STATUS_SUCCESS]. *)
Theorem nt_access_check_iff env T gm sd es owner D PrivilegeSetLength :
  env_ok env T gm sd es owner -> 0 <= D < 2 ^ 28 -> Z.testbit D 25 = false ->
  32 <= PrivilegeSetLength ->
  exists r g st, NtAccessCheck env D gm PrivilegeSetLength = Some r /\
  sc_Status r = STATUS_SUCCESS /\ sc_Output r = OutSingle g st /\
  (st = STATUS_SUCCESS <->
   forall i, 0 <= i < 28 -> Z.testbit (clear_bits D (owner_mask T owner)) i = true ->
     right_granted T None gm es i = true) /\
  (st = STATUS_SUCCESS -> g = D).
Proof.
  intros He HD HD25 Hlen. pose proof He as [Hmode Hprobe Halloc (st & level & Htok & Hlevel) Hsd Hgroup HT Hgm Hne Hd].
  pose proof (owner_mask_range T owner) as Hom. assert (HM : mask D) by (unfold mask; lia).
  unfold NtAccessCheck, SepAccessCheck. rewrite Hmode, Hprobe, Halloc, Htok, generic_free by done.
  cbn [negb andb]. rewrite (proj2 (Z.ltb_ge level _)) by done. cbn [SeCaptureObjectTypeList].
  change (0 =? 0) with true. cbn match. change (negb (NT_SUCCESS STATUS_SUCCESS)) with false. cbn match.
  pose proof (all_granted_spec T None gm es _ (clear_range D _ HD Hom)) as Hspec.
  pose proof (policy_check D 0 T true UserMode) as Hpol. cbv zeta in Hpol.
  change (held T UserMode SeSecurityPrivilege) with (privilege_enabled T SeSecurityPrivilege) in Hpol.
  destruct (Z.testbit D 24 && negb (privilege_enabled T SeSecurityPrivilege)) eqn:E24; rewrite Hpol.
  - do 3 eexists. split; [reflexivity|]. split; [reflexivity|]. split; [reflexivity|]. split; [|done].
    cbn [pol_Status]. rewrite <- Hspec, security_needed; [done|].
    apply andb_true_iff in E24 as [E24 Ep]. by rewrite clear_bits_testbit, owner_mask_bits, E24, Ep, andb_false_r by (done || lia).
  - cbn [pol_Status]. change (negb (NT_SUCCESS STATUS_SUCCESS)) with false. cbn match. fold (pm T D).
    unfold check_privileged. cbn [pol_Set pol_Desired pol_Granted]. rewrite Z.lor_0_l, Hsd.
    set (l := match used_privileges T UserMode D with [] => None | l => Some l end).
    pose proof (used_length T D) as Hul. fold l in Hul.
    rewrite (proj2 (Z.ltb_ge PrivilegeSetLength _)) by (destruct l; lia).
    change (negb (NT_SUCCESS STATUS_SUCCESS)) with false. cbn match.
    destruct (d_owner _ _ _ Hd) as (o & -> & _). destruct (SepGetGroupFromDescriptor sd); [|done].
    pose proof (pm_range T D) as Hpm.
    destruct (check_captured_spec env T gm sd es owner (clear_bits D (pm T D)) (pm T D) (Z.to_nat 0) He)
      as [g ->]; [apply clear_range; [done|apply policy_mask_range]|done| |].
    { by rewrite policy_rest, HD25 by (done || lia). }
    rewrite all_granted_rest, rejoin by (done || (intros E; rewrite E in E24; by apply negb_false_iff in E24)).
    cbn [mbind option_bind]. 
    destruct (all_granted T None gm es (clear_bits D (owner_mask T owner)));
      do 3 eexists; (split; [reflexivity|]); (split; [reflexivity|]); (split; [reflexivity|]);
      rewrite <- Hspec; [done|].
    split; [split; [|done]|]; intros E; by apply denial_ne in E.
Qed.

(** ** Object type lists *)

(** [j] is the object [i] of the list or below it in the tree. *)
Definition in_subtree (l : list OBJECT_TYPE_LIST_INTERNAL) (i j : nat) : Prop :=
  (i <= j)%nat /\ forall k o o', (i < k <= j)%nat -> l !! i = Some o -> l !! k = Some o' ->
    Level o < Level o'.

Lemma update_children_lookup f lvl l : forall j o,
  l !! j = Some o ->
  ((forall k o', (k <= j)%nat -> l !! k = Some o' -> lvl < Level o') ->
   update_children f lvl l !! j = Some (update_object f o)) /\
  (~ (forall k o', (k <= j)%nat -> l !! k = Some o' -> lvl < Level o') ->
   update_children f lvl l !! j = Some o).
Proof.
  induction l as [|o l IH]; intros j oj Hj; [done|]. cbn [update_children].
  destruct (Z.leb_spec (Level o) lvl) as [Hle|Hlt].
  - split; [|done]. intros H. specialize (H 0%nat o ltac:(lia) eq_refl). lia.
  - destruct j as [|j].
    + injection Hj as <-. split; [done|]. intros H. exfalso. apply H.
      intros k o' Hk Ho'. assert (k = 0)%nat as -> by lia. by injection Ho' as <-.
    + simpl in Hj |- *. destruct (IH j oj Hj) as [H1 H2]. split; intros H.
      * apply H1. intros k o' Hk Ho'. apply (H (S k)); [lia|done].
      * apply H2. intros H'. apply H. intros [|k] o' Hk Ho'; [by injection Ho' as <-|].
        apply (H' k); [lia|done].
Qed.

Lemma update_children_length f lvl l : length (update_children f lvl l) = length l.
Proof.
  induction l as [|o l IH]; [done|]. cbn [update_children]. destruct (_ <=? _); [done|].
  cbn [length]. by rewrite IH.
Qed.

Lemma guid_index_spec l g : forall k i,
  guid_index l g k = Some i ->
  exists j o, i = (k + j)%nat /\ l !! j = Some o /\ ObjectTypeGuid o = g /\
  forall j' o', (j' < j)%nat -> l !! j' = Some o' -> ObjectTypeGuid o' <> g.
Proof.
  induction l as [|o l IH]; intros k i; [done|]. cbn [guid_index]. unfold SepIsEqualObjectTypeGuid.
  case_bool_decide as E.
  - intros [= <-]. exists 0%nat, o. split_and!; [lia|done|done|]. intros j' o' Hj. lia.
  - intros H. destruct (IH _ _ H) as (j & o' & -> & Hj & Hg & Hmin).
    exists (S j), o'. split_and!; [lia|done|done|]. intros [|j'] o'' Hlt Ho''.
    + injection Ho'' as <-. congruence.
    + apply (Hmin j'); [lia|done].
Qed.

Lemma update_result_list_spec f l g i :
  SepObjectTypeGuidInList l g = Some i ->
  exists l', update_result_list f l (Some g) = Some l' /\ length l' = length l /\
  forall j o, l !! j = Some o ->
    (in_subtree l i j -> l' !! j = Some (update_object f o)) /\
    (~ in_subtree l i j -> l' !! j = Some o).
Proof.
  intros Hi. destruct (guid_index_spec _ _ _ _ Hi) as (i' & oi & -> & Hoi & _ & _). simpl in Hi.
  unfold update_result_list, object_index. rewrite Hi, Hoi. cbn [mbind option_bind].
  pose proof (lookup_lt_Some _ _ _ Hoi) as Hlt. simpl "+"%nat.
  eexists. split; [reflexivity|]. split.
  { rewrite length_app. cbn [length]. rewrite update_children_length, length_take, length_drop. lia. }
  intros j o Hj. destruct (Nat.lt_trichotomy j i') as [Hji|[->|Hji]].
  - rewrite lookup_app_l, lookup_take_lt by (rewrite ?length_take; lia). split; [|done]. intros [? _]. lia.
  - rewrite Hj in Hoi. injection Hoi as <-.
    rewrite lookup_app_r, length_take by (rewrite length_take; lia).
    replace (i' - _)%nat with 0%nat by lia. split; [done|]. intros H. exfalso. apply H.
    split; [lia|]. intros k o1 o2 Hk. lia.
  - rewrite lookup_app_r, length_take by (rewrite length_take; lia).
    replace (j - _)%nat with (S (j - S i')) by lia. cbn [lookup list_lookup].
    destruct (update_children_lookup f (Level oi) (drop (S i') l) (j - S i') o) as [H1 H2].
    { rewrite lookup_drop. rewrite <- Hj. f_equal. lia. }
    split; intros H.
    + apply H1. intros k o' Hk Ho'. rewrite lookup_drop in Ho'.
      by apply (proj2 H (S i' + k)%nat oi o'); [lia|..].
    + apply H2. intros H'. apply H. split; [lia|]. intros k o1 o2 Hk Ho1 Ho2.
      rewrite Hoi in Ho1. injection Ho1 as <-. apply (H' (k - S i')%nat); [lia|].
      rewrite lookup_drop, <- Ho2. f_equal. lia.
Qed.

(** An ACE for an object type acts, in the result list, on the object with that
    GUID and on everything below it, and on nothing else: the rights of the other
    entries, all GUIDs and all levels stay. *)
Theorem object_ace_subtree l A g i :
  SepObjectTypeGuidInList l g = Some i ->
  exists la ld, SepAllowAccessObjectTypeResultList l A (Some g) = Some la /\
  SepDenyAccessObjectTypeResultList l A (Some g) = Some ld /\
  length la = length l /\ length ld = length l /\
  forall j o, l !! j = Some o ->
    (in_subtree l i j -> la !! j = Some (update_object (allow_rights A) o) /\
                         ld !! j = Some (update_object (deny_rights A) o)) /\
    (~ in_subtree l i j -> la !! j = Some o /\ ld !! j = Some o).
Proof.
  intros Hi. destruct (update_result_list_spec (allow_rights A) l g i Hi) as (la & Ha & Hla & Hal).
  destruct (update_result_list_spec (deny_rights A) l g i Hi) as (ld & Hd & Hld & Hdl).
  exists la, ld. split_and!; [done..|]. intros j o Hj.
  destruct (Hal j o Hj), (Hdl j o Hj). split; intros Hs; auto.
Qed.

(** ** No right is granted and denied *)

Definition rights_ok (r : ACCESS_CHECK_RIGHTS) : Prop :=
  mask (GrantedAccessRights r) /\ mask (DeniedAccessRights r) /\
  Z.land (GrantedAccessRights r) (DeniedAccessRights r) = 0.

Definition analysis_ok (st : analysis) : Prop :=
  rights_ok (fst st) /\
  forall l, snd st = Some l -> Forall (fun o => rights_ok (ObjectAccessRights o)) l.

Lemma disjoint_bit r i :
  rights_ok r -> Z.testbit (GrantedAccessRights r) i && Z.testbit (DeniedAccessRights r) i = false.
Proof. intros (_ & _ & E). by rewrite <- Z.land_spec, E, Z.bits_0. Qed.

Lemma deny_rights_ok A r : mask A -> rights_ok r -> rights_ok (deny_rights A r).
Proof.
  intros HA Hr. pose proof Hr as (HG & HD & _). unfold rights_ok, deny_rights.
  cbn [GrantedAccessRights DeniedAccessRights].
  split; [done|]. split; [apply mask_lor; [done|by apply mask_clear]|].
  apply Z.bits_inj'. intros i Hi. pose proof (disjoint_bit r i Hr) as Hd.
  rewrite Z.land_spec, Z.lor_spec, clear_bits_testbit, Z.bits_0 by done.
  by destruct (Z.testbit (GrantedAccessRights r) i), (Z.testbit (DeniedAccessRights r) i), (Z.testbit A i).
Qed.

Lemma allow_rights_ok A r : mask A -> rights_ok r -> rights_ok (allow_rights A r).
Proof.
  intros HA Hr. pose proof Hr as (HG & HD & _). unfold rights_ok, allow_rights.
  cbn [GrantedAccessRights DeniedAccessRights].
  split; [apply mask_lor; [done|by apply mask_clear]|]. split; [done|].
  apply Z.bits_inj'. intros i Hi. pose proof (disjoint_bit r i Hr) as Hd.
  rewrite Z.land_spec, Z.lor_spec, clear_bits_testbit, Z.bits_0 by done.
  by destruct (Z.testbit (GrantedAccessRights r) i), (Z.testbit (DeniedAccessRights r) i), (Z.testbit A i).
Qed.

Lemma ace_access_mask T self R gm Ace Deny A :
  bytes_ok Ace -> wf_mapping gm -> ace_access T self R (Some gm) Ace Deny = Some (Some A) -> mask A.
Proof.
  intros Hb Hgm. unfold ace_access. destruct (SepGetSidFromAce Ace) as [[Sid|]|]; [|done..].
  cbn [mbind option_bind]. destruct (SepSidInTokenEx _ _ _ _ _) as [[|]|]; [|done..].
  cbn [mbind option_bind]. destruct (get32 Ace 4) as [m|] eqn:Em; [|done]. cbn [mbind option_bind].
  assert (Hm : mask m) by (by apply get_some_range in Em).
  intros [= <-]. destruct (has m GENERIC_ACCESS); [by apply map_generic_mask|done].
Qed.

Section updates.
Context (f : ACCESS_CHECK_RIGHTS -> ACCESS_CHECK_RIGHTS).
Hypothesis Hf : forall r, rights_ok r -> rights_ok (f r).
Let all_ok := Forall (fun o => rights_ok (ObjectAccessRights o)).

Lemma update_children_ok lvl l : all_ok l -> all_ok (update_children f lvl l).
Proof.
  induction 1 as [|o l Ho Hl IH]; [constructor|]. cbn [update_children].
  destruct (_ <=? _); constructor; try done. by apply Hf.
Qed.

Lemma update_result_list_ok l g l' : all_ok l -> update_result_list f l g = Some l' -> all_ok l'.
Proof.
  intros Hl. unfold update_result_list. destruct (object_index l g) as [i|]; [|by intros [= <-]].
  destruct (l !! i) as [o|] eqn:Ho; [|done]. intros [= <-]. apply Forall_app. split; [by apply Forall_take|].
  constructor; [|by apply update_children_ok, Forall_drop]. apply Hf. exact (Forall_lookup_1 _ _ _ _ Hl Ho).
Qed.

Lemma update_entry_ok l i o : all_ok l -> l !! i = Some o -> all_ok (<[i := update_object f o]> l).
Proof.
  intros Hl Ho. apply Forall_insert; [done|]. apply Hf. exact (Forall_lookup_1 _ _ _ _ Hl Ho).
Qed.
End updates.

(** The tails shared by the object ACE branches. *)
Lemma deny_list_ok (U : bool) l A g l' :
  mask A -> Forall (fun o => rights_ok (ObjectAccessRights o)) l ->
  (if negb U then '(l, _) ← SepDenyAccessObjectTypeList l A g; Some l
   else SepDenyAccessObjectTypeResultList l A g) = Some l' ->
  Forall (fun o => rights_ok (ObjectAccessRights o)) l'.
Proof.
  intros HA Hl. assert (Hf : forall r, rights_ok r -> rights_ok (deny_rights A r))
    by (intros; by apply deny_rights_ok).
  destruct U; cbn [negb].
  - by apply update_result_list_ok.
  - unfold SepDenyAccessObjectTypeList. destruct (object_index l g) as [i|]; [|by intros [= <-]].
    destruct (l !! i) as [o|] eqn:Ho; [|done]. intros [= <-]. by apply update_entry_ok.
Qed.

Lemma allow_list_ok (U : bool) l A g l' :
  mask A -> Forall (fun o => rights_ok (ObjectAccessRights o)) l ->
  (if negb U then SepAllowAccessObjectTypeList l A false g
   else SepAllowAccessObjectTypeResultList l A g) = Some l' ->
  Forall (fun o => rights_ok (ObjectAccessRights o)) l'.
Proof.
  intros HA Hl. assert (Hf : forall r, rights_ok r -> rights_ok (allow_rights A r))
    by (intros; by apply allow_rights_ok).
  destruct U; cbn [negb].
  - by apply update_result_list_ok.
  - unfold SepAllowAccessObjectTypeList. destruct (object_index l g) as [i|]; [|by intros [= <-]].
    destruct (l !! i) as [o|] eqn:Ho; [|done]. intros [= <-]. by apply update_entry_ok.
Qed.

Lemma analyze_maximum_ok T self R gm U Ace st st' :
  bytes_ok Ace -> wf_mapping gm -> analysis_ok st ->
  analyze_maximum T self R (Some gm) U Ace st = Some st' -> analysis_ok st'.
Proof.
  intros Hb Hgm Hst. destruct st as [r ol]. pose proof Hst as [Hr Hol]. cbn [fst snd] in Hr, Hol.
  unfold analyze_maximum. destruct (get8 Ace 1) as [f|]; [|done]. cbn [mbind option_bind].
  destruct (has f INHERIT_ONLY_ACE); [by intros [= <-]|].
  destruct (AceType Ace 0) as [t|]; [|done]. cbn [mbind option_bind].
  assert (Hacc : forall Deny A, ace_access T self R (Some gm) Ace Deny = Some (Some A) -> mask A)
    by (intros; by eapply ace_access_mask).
  pose proof (fun A HA => deny_rights_ok A r HA Hr) as Hdeny.
  pose proof (fun A HA => allow_rights_ok A r HA Hr) as Hallow.
  destruct (t =? _); [|destruct (t =? _); [|destruct (t =? _); [|destruct (t =? _); [|by intros [= <-]]]]].
  - destruct (ace_access _ _ _ _ _ _) as [[A|]|] eqn:E; intros [= <-]; [split; eauto|done].
  - destruct (ace_access _ _ _ _ _ _) as [[A|]|] eqn:E; intros [= <-]; [split; eauto|done].
  - destruct (ace_access _ _ _ _ _ _) as [[A|]|] eqn:E; [|by intros [= <-]|done].
    cbn [mbind option_bind]. destruct ol as [l|]; [|intros [= <-]; split; [eauto|done]].
    destruct (SepGetObjectTypeGuidFromAce Ace) as [g|]; [|done]. cbn [mbind option_bind].
    pose proof (fun l' => deny_list_ok U l A (Some g) l' (Hacc _ _ E) (Hol l eq_refl)) as Hl'.
    destruct U; cbn [negb] in *.
    + destruct (SepDenyAccessObjectTypeResultList _ _ _) as [l'|]; [|done].
      intros [= <-]. split; [done|]. intros l0 [= <-]. by apply Hl'.
    + destruct (SepDenyAccessObjectTypeList _ _ _) as [[l' b]|]; [|done].
      intros [= <-]. split; [done|]. intros l0 [= <-]. by apply Hl'.
  - destruct (ace_access _ _ _ _ _ _) as [[A|]|] eqn:E; [|by intros [= <-]|done].
    cbn [mbind option_bind]. destruct ol as [l|]; [|intros [= <-]; split; [eauto|done]].
    destruct (SepGetObjectTypeGuidFromAce Ace) as [g|]; [|done]. cbn [mbind option_bind].
    pose proof (fun l' => allow_list_ok U l A (Some g) l' (Hacc _ _ E) (Hol l eq_refl)) as Hl'.
    destruct U; cbn [negb] in *.
    + destruct (SepAllowAccessObjectTypeResultList _ _ _) as [l'|]; [|done].
      intros [= <-]. split; [done|]. intros l0 [= <-]. by apply Hl'.
    + destruct (SepAllowAccessObjectTypeList _ _ _ _) as [l'|]; [|done].
      intros [= <-]. split; [done|]. intros l0 [= <-]. by apply Hl'.
Qed.

Lemma dacl_loop_inv (I : analysis -> Prop) step Dacl :
  (forall p st st' b, I st -> step (drop p Dacl) st = Some (st', b) -> I st') ->
  forall n k st st', I st -> dacl_loop step Dacl n k st = Some st' -> I st'.
Proof.
  intros Hstep n. induction n as [|n IH]; intros k st st' HI; cbn [dacl_loop].
  { by intros [= <-]. }
  destruct (RtlGetAce Dacl k) as [[Status [p|]]|]; [|done..]. cbn [mbind option_bind].
  destruct (negb (NT_SUCCESS Status)); [done|].
  destruct (step _ st) as [[st1 b]|] eqn:E; [|done]. cbn [mbind option_bind].
  apply Hstep in E; [|done]. destruct b; [by intros [= <-]|]. by apply IH.
Qed.

(** Whatever the bytes of the DACL are, the analysis for [MAXIMUM_ALLOWED]
    keeps the invariant that no right is both granted and denied, for the object
    and for every entry of the object type list. *)
Theorem maximum_disjoint Remaining Dacl T R self gm U st st' :
  bytes_ok Dacl -> wf_mapping gm -> analysis_ok st ->
  SepAnalyzeAcesFromDacl AccessCheckMaximum Remaining Dacl T R self (Some gm) U st = Some st' ->
  analysis_ok st'.
Proof.
  intros Hb Hgm Hst. unfold SepAnalyzeAcesFromDacl. destruct (AceCount Dacl) as [n|]; [|done].
  apply dacl_loop_inv; [|done]. intros p st1 st2 b Hst1. unfold maximum_step.
  destruct (analyze_maximum _ _ _ _ _ _ _) as [st3|] eqn:E; [|done]. intros [= <- <-].
  eapply analyze_maximum_ok in E; [done| |done..]. by apply Forall_drop.
Qed.

(** ** Examples *)

(** Deny writing to the administrators, allow reading to everyone and everything to
    the user. *)
Definition example_entries : list entry :=
  [EKnown ACCESS_DENIED_ACE_TYPE 0 0x2 admin_sid;
   EKnown ACCESS_ALLOWED_ACE_TYPE 0 GENERIC_READ SeWorldSid;
   EKnown ACCESS_ALLOWED_ACE_TYPE 0 0x100FF user_sid].

Definition example_dacl : mem :=
  header 2 0 76 3 0 0 ++ concat (encode <$> example_entries).

Definition example_sd : SECURITY_DESCRIPTOR :=
  mkSd SECURITY_DESCRIPTOR_REVISION SE_DACL_PRESENT [] 0 0 0 (Some user_sid) (Some admin_sid)
    (Some example_dacl).

Definition example_ctx : SECURITY_SUBJECT_CONTEXT := mkSubject None 0 example_token.

Lemma example_entries_ok : Forall entry_ok example_entries.
Proof.
  repeat constructor; try (left; reflexivity); try (right; reflexivity);
    try (vm_compute; (discriminate || reflexivity)); try apply admin_sid_at;
    try apply SeWorldSid_at; apply user_sid_at.
Defined.

Lemma example_dacl_rep : acl_rep example_dacl 2 76 (encode <$> example_entries) [].
Proof.
  constructor; try (vm_compute; split; (discriminate || reflexivity));
    try (vm_compute; (discriminate || reflexivity)).
  - exists 0, 0, 0. rewrite app_nil_r. reflexivity.
  - repeat constructor; try (vm_compute; (discriminate || reflexivity)).
Defined.

Lemma example_check_ok : check_ok example_ctx file_mapping example_sd example_entries user_sid.
Proof.
  constructor; [apply example_token_ok|exact I|apply file_mapping_wf|reflexivity|].
  constructor; [reflexivity| |apply example_entries_ok|exists user_sid; split; [reflexivity|apply user_sid_at]].
  exists example_dacl, 2, 76, []. split; [reflexivity|apply example_dacl_rep].
Defined.

(** The user may read the object and change its DACL, but not write to it: the deny
    entry is for a group that the token has for deny only. *)
Lemma access_check_iff_witness :
  exists r, SeAccessCheck true (Some example_sd) example_ctx 0x60001 0 file_mapping UserMode = Some r /\
  ck_Granted r = Some 0x60001 /\
  exists r', SeAccessCheck true (Some example_sd) example_ctx 3 0 file_mapping UserMode = Some r' /\
  ck_Return r' = false.
Proof.
  destruct (access_check_iff example_ctx file_mapping example_sd example_entries user_sid 0x60001 0
    example_check_ok) as (r & Hr & _ & Hg & _); [unfold mask; lia|lia|lia|reflexivity..|].
  exists r. split; [exact Hr|]. vm_compute in Hr. injection Hr as <-. split; [apply Hg; reflexivity|].
  eexists. split; vm_compute; reflexivity.
Defined.


Lemma maximum_allowed_usable_witness :
  exists r, SeAccessCheck true (Some example_sd) example_ctx 0x60081 0 file_mapping UserMode = Some r /\
  ck_Return r = true /\ ck_Granted r = Some 0x60081.
Proof.
  destruct (SeAccessCheck true (Some example_sd) example_ctx MAXIMUM_ALLOWED 0 file_mapping UserMode)
    as [r0|] eqn:E; [|discriminate]. pose proof E as E'. vm_compute in E'. injection E' as E'.
  apply (maximum_allowed_usable example_ctx file_mapping example_sd example_entries user_sid r0 0x1700FD 0x60081
    example_check_ok eq_refl E); try (rewrite <- E'; reflexivity); try reflexivity; lia.
Defined.

(** The same descriptor without its DACL. *)
Definition example_sd_null : SECURITY_DESCRIPTOR :=
  mkSd SECURITY_DESCRIPTOR_REVISION SE_DACL_PRESENT [] 0 0 0 (Some user_sid) (Some admin_sid) None.

Lemma null_dacl_grants_witness :
  exists r, SeAccessCheck true (Some example_sd_null) example_ctx 2 0 file_mapping UserMode = Some r /\
  ck_Return r = true.
Proof.
  destruct (null_dacl_grants example_ctx file_mapping example_sd_null user_sid 2 0 example_token_ok I
    file_mapping_wf eq_refl (ex_intro _ user_sid (conj eq_refl user_sid_at)) eq_refl eq_refl)
    as (r & Hr & Hret & _); [unfold mask; lia|lia|lia|reflexivity..|].
  exists r. split; [exact Hr|]. apply Hret. vm_compute. discriminate.
Defined.

Definition example_traverse : list entry :=
  [EKnown ACCESS_DENIED_ACE_TYPE 0 0x2 admin_sid; EKnown ACCESS_ALLOWED_ACE_TYPE 0 0x20 SeWorldSid].

Definition example_traverse_dacl : mem :=
  header 2 0 52 2 0 0 ++ concat (encode <$> example_traverse).

Definition example_traverse_sd : SECURITY_DESCRIPTOR :=
  mkSd SECURITY_DESCRIPTOR_REVISION SE_DACL_PRESENT [] 0 0 0 (Some user_sid) (Some admin_sid)
    (Some example_traverse_dacl).

Lemma example_traverse_ok :
  check_ok example_ctx file_mapping example_traverse_sd example_traverse user_sid.
Proof.
  constructor; [apply example_token_ok|exact I|apply file_mapping_wf|reflexivity|].
  constructor; [reflexivity| | |exists user_sid; split; [reflexivity|apply user_sid_at]].
  - exists example_traverse_dacl, 2, 52, []. split; [reflexivity|].
    constructor; try (vm_compute; split; (discriminate || reflexivity));
      try (vm_compute; (discriminate || reflexivity)).
    + exists 0, 0, 0. rewrite app_nil_r. reflexivity.
    + repeat constructor; try (vm_compute; (discriminate || reflexivity)).
  - repeat constructor; try (left; reflexivity); try (right; reflexivity);
      try (vm_compute; (discriminate || reflexivity)); try apply admin_sid_at; apply SeWorldSid_at.
Defined.

Lemma fast_traverse_sound_witness :
  exists r, SeAccessCheck true (Some example_traverse_sd) example_ctx (2 ^ 5) 0 file_mapping UserMode
    = Some r /\ ck_Return r = true /\ ck_Granted r = Some (2 ^ 5).
Proof.
  apply (fast_traverse_sound example_ctx file_mapping example_traverse_sd example_traverse user_sid 0 5
    example_traverse_ok); [|lia|reflexivity..].
  repeat constructor; cbn; intros; lia || discriminate.
Defined.

Definition example_env : check_env :=
  mkEnv UserMode true true (STATUS_SUCCESS, Some (example_token, true, 2))
    (STATUS_SUCCESS, Some example_sd) (STATUS_SUCCESS, None).

Lemma nt_access_check_iff_witness :
  exists r g st, NtAccessCheck example_env 0x60001 file_mapping 32 = Some r /\
  sc_Output r = OutSingle g st /\ (st = STATUS_SUCCESS -> g = 0x60001).
Proof.
  destruct (nt_access_check_iff example_env example_token file_mapping example_sd example_entries user_sid
    0x60001 32) as (r & g & st & Hr & _ & Ho & _ & Hg); [|lia|reflexivity|lia|].
  - constructor; try reflexivity; try discriminate; try apply example_token_ok;
      try apply file_mapping_wf; [|apply example_check_ok].
    exists STATUS_SUCCESS, 2. split; [reflexivity|vm_compute; discriminate].
  - exists r, g, st. split; [exact Hr|]. split; [exact Ho|exact Hg].
Defined.

Definition example_objects : list OBJECT_TYPE_LIST_INTERNAL :=
  [mkObjectType (example_guid 1) 0 (mkRights 0 0 0); mkObjectType (example_guid 2) 1 (mkRights 0 0 0);
   mkObjectType (example_guid 3) 2 (mkRights 0 0 0); mkObjectType (example_guid 4) 1 (mkRights 0 0 0)].

Lemma object_ace_subtree_witness :
  exists la, SepAllowAccessObjectTypeResultList example_objects 5 (Some (example_guid 2)) = Some la /\
  length la = 4%nat /\ (GrantedAccessRights ∘ ObjectAccessRights <$> la) = [0; 5; 5; 0].
Proof.
  destruct (object_ace_subtree example_objects 5 (example_guid 2) 1 eq_refl)
    as (la & ld & Ha & _ & Hl & _). exists la. split; [exact Ha|]. split; [exact Hl|].
  vm_compute in Ha. injection Ha as <-. reflexivity.
Defined.

Lemma maximum_disjoint_witness :
  exists st, SepAnalyzeAcesFromDacl AccessCheckMaximum 0 example_dacl example_token false None
    (Some file_mapping) false (mkRights 0 0 0, None) = Some st /\
  Z.land (GrantedAccessRights (fst st)) (DeniedAccessRights (fst st)) = 0 /\
  DeniedAccessRights (fst st) = 2.
Proof.
  eexists. split; [vm_compute; reflexivity|]. split; [|reflexivity].
  apply (maximum_disjoint 0 example_dacl example_token false None file_mapping false (mkRights 0 0 0, None)).
  - vm_compute. repeat constructor; discriminate.
  - apply file_mapping_wf.
  - split; [|discriminate]. vm_compute. repeat split; discriminate.
  - vm_compute. reflexivity.
Defined.

(** ** Deviations *)

(** [MAXIMUM_ALLOWED] grants [ACCESS_SYSTEM_SECURITY] from an ACE to a token without the
    security privilege, which a request for the right itself refuses. *)
Definition security_sd : SECURITY_DESCRIPTOR :=
  let dacl := header 2 0 28 1 0 0 ++ known_ace ACCESS_ALLOWED_ACE_TYPE 0 0x1000001 SeWorldSid in
  mkSd SECURITY_DESCRIPTOR_REVISION SE_DACL_PRESENT [] 0 0 0 (Some admin_sid) None (Some dacl).

Lemma maximum_grants_system_security :
  SeAccessCheck true (Some security_sd) example_ctx MAXIMUM_ALLOWED 0 file_mapping UserMode
    ≫= ck_Granted = Some 0x1000001 /\
  ck_Return <$> SeAccessCheck true (Some security_sd) example_ctx ACCESS_SYSTEM_SECURITY 0 file_mapping
    UserMode = Some false.
Proof. split; vm_compute; reflexivity. Qed.

(** For a restricted token [MAXIMUM_ALLOWED] joins the rights of the two passes where
    a request for the right itself wants both: the first ACE is for a SID that only
    the restricted list has. *)
Definition restricted_ctx : SECURITY_SUBJECT_CONTEXT :=
  mkSubject None 0 (mkToken [(user_sid, 0)] [(SeWorldSid, 7)] [] TOKEN_IS_RESTRICTED).

Lemma restricted_maximum_union :
  SeAccessCheck true (Some security_sd) restricted_ctx MAXIMUM_ALLOWED 0 file_mapping UserMode
    ≫= ck_Granted = Some 0x1000001 /\
  ck_Return <$> SeAccessCheck true (Some security_sd) restricted_ctx 1 0 file_mapping UserMode
    = Some false.
Proof. split; vm_compute; reflexivity. Qed.

(** With a result list and no DACL nothing is written for the entries of the list. *)
Lemma result_list_unwritten T self D P l gm W M privs :
  D <> 0 -> empty_mapping gm = false ->
  option_map wr_Output (worker_dacl example_sd_null T self D W M D P (Some l) gm true privs)
  = Some OutNothing.
Proof.
  intros HD Hne. unfold worker_dacl. by rewrite (proj2 (Z.eqb_neq D 0) HD), Hne.
Qed.
