(* ===== verification/RtlTime.v ===== *)
(** System times and calendar fields: sdk/lib/rtl/time.c.

    A [LARGE_INTEGER] is the signed 64 bit integer of its [QuadPart], in units of
    100 ns since the first day of 1601. *)

From S2P Require Import Prelude.

Definition TICKSPERSEC : Z := 10000000.
Definition TICKSPERMSEC : Z := 10000.
Definition SECSPERDAY : Z := 86400.
Definition SECSPERHOUR : Z := 3600.
Definition SECSPERMIN : Z := 60.
Definition EPOCHWEEKDAY : Z := 1.
Definition DAYSPERWEEK : Z := 7.
Definition EPOCHYEAR : Z := 1601.
Definition DAYSPERNORMALYEAR : Z := 365.
Definition DAYSPERLEAPYEAR : Z := 366.
Definition TICKSTO1970 : Z := 0x019db1ded53e8000.
Definition TICKSTO1980 : Z := 0x01a8e79fe1d58000.

(** The fields are [CSHORT]. *)
Record TIME_FIELDS := mkFields {
  Year : Z;
  Month : Z;
  Day : Z;
  Hour : Z;
  Minute : Z;
  Second : Z;
  Milliseconds : Z;
  Weekday : Z
}.

Definition IsLeapYear (Year : Z) : bool :=
  (Z.rem Year 4 =? 0) && (negb (Z.rem Year 100 =? 0) || (Z.rem Year 400 =? 0)).

Definition YearLengths (LeapYear : bool) : Z :=
  if LeapYear then DAYSPERLEAPYEAR else DAYSPERNORMALYEAR.

Definition MonthLengths (LeapYear : bool) : list Z :=
  [31; if LeapYear then 29 else 28; 31; 30; 31; 30; 31; 31; 30; 31; 30; 31].

(** The arithmetic is that of [int]; divisions truncate. *)
Definition DaysSinceEpoch (Year : Z) : Z :=
  let Year := s32 (Year - 1) in
  let leaps Y := Z.quot Y 4 - Z.quot Y 100 + Z.quot Y 400 in
  s32 (Year * DAYSPERNORMALYEAR + leaps Year
       - ((EPOCHYEAR - 1) * DAYSPERNORMALYEAR + leaps (EPOCHYEAR - 1))).

(** [MonthLengths[IsLeapYear(Year)][Month - 1]]. *)
Definition month_length (Year Month : Z) : option Z :=
  MonthLengths (IsLeapYear Year) !! Z.to_nat (Month - 1).

(** The loop that adds the months before the current one: [n] lengths. *)
Fixpoint add_months (Months : list Z) (n : nat) (Time : Z) : Z :=
  match n, Months with
  | S n', len :: rest => add_months rest n' (s64 (Time + len))
  | _, _ => Time
  end.

(** The range check; the length of the month is only looked up for a valid month. *)
Definition fields_valid (f : TIME_FIELDS) : bool :=
  negb ((Milliseconds f <? 0) || (999 <? Milliseconds f) ||
        (Second f <? 0) || (59 <? Second f) ||
        (Minute f <? 0) || (59 <? Minute f) ||
        (Hour f <? 0) || (23 <? Hour f) ||
        (Month f <? 1) || (12 <? Month f) ||
        (Day f <? 1) ||
        match month_length (Year f) (Month f) with
        | Some len => len <? Day f
        | None => true
        end ||
        (Year f <? 1601)).

(** [None]: FALSE, and [*Time] is not written. *)
Definition RtlTimeFieldsToTime (f : TIME_FIELDS) : option Z :=
  if negb (fields_valid f) then None else
  let Time := s64 (DaysSinceEpoch (Year f)) in
  let Time := add_months (MonthLengths (IsLeapYear (Year f))) (Z.to_nat (Month f - 1)) Time in
  let Time := s64 (Time + (Day f - 1)) in
  let Time := s64 (Time * SECSPERDAY) in
  let Time := s64 (Time + (Hour f * SECSPERHOUR + Minute f * SECSPERMIN + Second f)) in
  let Time := s64 (Time * TICKSPERSEC) in
  Some (s64 (Time + Milliseconds f * TICKSPERMSEC)).

(** [Weekday] keeps its old value. *)
Definition RtlTimeToElapsedTimeFields (Time : Z) (TimeFields : TIME_FIELDS) : TIME_FIELDS :=
  let ElapsedSeconds := u64 Time / TICKSPERSEC in
  let SecondsInDay := ElapsedSeconds mod SECSPERDAY in
  let SecondsInMinute := SecondsInDay mod SECSPERHOUR in
  mkFields 0 0 (s16 (ElapsedSeconds / SECSPERDAY)) (s16 (SecondsInDay / SECSPERHOUR))
    (s16 (SecondsInMinute / SECSPERMIN)) (s16 (SecondsInMinute mod SECSPERMIN))
    (s16 (Z.quot (Z.rem Time TICKSPERSEC) TICKSPERMSEC)) (Weekday TimeFields).

(** The [while] loop for the year: year and days in it. *)
Fixpoint year_loop (fuel : nat) (CurYear Days : Z) : option (Z * Z) :=
  match fuel with
  | O => None
  | S fuel' =>
      let len := YearLengths (IsLeapYear CurYear) in
      if Days <? len then Some (CurYear, Days)
      else year_loop fuel' (u32 (CurYear + 1)) (u32 (Days - len))
  end.

(** The [for] loop for the month; [None] is a read past the end of the table. *)
Fixpoint month_loop (Months : list Z) (CurMonth Days : Z) : option (Z * Z) :=
  match Months with
  | [] => None
  | len :: rest =>
      if len <=? Days then month_loop rest (CurMonth + 1) (u32 (Days - len))
      else Some (CurMonth, Days)
  end.

(** Each round takes at least 365 days away, so this fuel is enough. *)
Definition RtlTimeToTimeFields (Time : Z) : option TIME_FIELDS :=
  let IntTime := u64 Time in
  let ms := s16 ((IntTime mod TICKSPERSEC) / TICKSPERMSEC) in
  let IntTime := IntTime / TICKSPERSEC in
  let Days := u32 (IntTime / SECSPERDAY) in
  let SecondsInDay := u32 (IntTime mod SECSPERDAY) in
  let hour := s16 (SecondsInDay / SECSPERHOUR) in
  let SecondsInDay := SecondsInDay mod SECSPERHOUR in
  let minute := s16 (SecondsInDay / SECSPERMIN) in
  let second := s16 (SecondsInDay mod SECSPERMIN) in
  let weekday := s16 (u32 (EPOCHWEEKDAY + Days) mod DAYSPERWEEK) in
  let CurYear := u32 (EPOCHYEAR + Days / DAYSPERLEAPYEAR) in
  let Days := u32 (Days - DaysSinceEpoch CurYear) in
  '(CurYear, Days) ← year_loop (S (Z.to_nat (Days / DAYSPERNORMALYEAR))) CurYear Days;
  '(CurMonth, Days) ← month_loop (MonthLengths (IsLeapYear CurYear)) 0 Days;
  Some (mkFields (s16 CurYear) (s16 (CurMonth + 1)) (s16 (Days + 1)) hour minute second ms weekday).

(** The high part of the quotient must be zero; [None] is FALSE. *)
Definition seconds_since (epoch Time : Z) : option Z :=
  let IntTime := Z.quot (s64 (Time - epoch)) TICKSPERSEC in
  if negb (Z.shiftr IntTime 32 =? 0) then None else Some (u32 IntTime).

Definition RtlTimeToSecondsSince1970 (Time : Z) : option Z := seconds_since TICKSTO1970 Time.
Definition RtlTimeToSecondsSince1980 (Time : Z) : option Z := seconds_since TICKSTO1980 Time.

Definition RtlSecondsSince1970ToTime (Seconds : Z) : Z := s64 (Seconds * TICKSPERSEC + TICKSTO1970).
Definition RtlSecondsSince1980ToTime (Seconds : Z) : Z := s64 (Seconds * TICKSPERSEC + TICKSTO1980).

(** [query] is the answer of [ZwQuerySystemInformation]: its status and the time
    zone bias.  Result: the status and the time written. *)
Definition RtlLocalTimeToSystemTime (query : Z * Z) (LocalTime : Z) : Z * option Z :=
  let '(Status, TimeZoneBias) := query in
  if negb (NT_SUCCESS Status) then (Status, None)
  else (STATUS_SUCCESS, Some (s64 (LocalTime + TimeZoneBias))).

Definition RtlSystemTimeToLocalTime (query : Z * Z) (SystemTime : Z) : Z * option Z :=
  let '(Status, TimeZoneBias) := query in
  if negb (NT_SUCCESS Status) then (Status, None)
  else (STATUS_SUCCESS, Some (s64 (SystemTime - TimeZoneBias))).

(** ** Cutover times *)

(** The days from the first of the month to the first day with the weekday wanted. *)
Definition first_weekday (first wanted : Z) : Z :=
  if first =? wanted then 0
  else if first <? wanted then wanted - first else DAYSPERWEEK - (first - wanted).

(** One round of the loop: the cutover time in the year [AdjustedYear].
    [None]: no result, a read outside the tables; [Some None]: [return FALSE]. *)
Definition cutover_round (Cutover : TIME_FIELDS) (AdjustedYear : Z) : option (option Z) :=
  let adjusted d := mkFields AdjustedYear (Month Cutover) d (Hour Cutover) (Minute Cutover)
                      (Second Cutover) (Milliseconds Cutover) 0 in
  match RtlTimeFieldsToTime (adjusted 1) with
  | None => Some None
  | Some CutoverSystemTime =>
      f ← RtlTimeToTimeFields CutoverSystemTime;
      let day := s16 (1 + s16 (first_weekday (Weekday f) (Weekday Cutover))) in
      day ← (if 1 <? Day Cutover then
               let Days := s16 (DAYSPERWEEK * (Day Cutover - 1)) in
               MonthLength ← month_length AdjustedYear (Month Cutover);
               let Days := if MonthLength <? day + Days then s16 (Days - DAYSPERWEEK) else Days in
               Some (s16 (day + Days))
             else Some day);
      Some (RtlTimeFieldsToTime (adjusted day))
  end.

(** The return value and [*SystemTime] if it is written. *)
Definition RtlCutoverTimeToSystemTime (Cutover : TIME_FIELDS) (CurrentTime : Z)
    (ThisYearsCutoverOnly : bool) : option (bool * option Z) :=
  if negb (Year Cutover =? 0) then
    match RtlTimeFieldsToTime Cutover with
    | None => Some (false, None)
    | Some SystemTime => Some (negb (SystemTime <? CurrentTime), Some SystemTime)
    end
  else if (Day Cutover =? 0) || (5 <? Day Cutover) then Some (false, None) else
  cur ← RtlTimeToTimeFields CurrentTime;
  r ← cutover_round Cutover (Year cur);
  match r with
  | None => Some (false, None)
  | Some t =>
      if ThisYearsCutoverOnly || (CurrentTime <=? t) then Some (true, Some t) else
      r ← cutover_round Cutover (s16 (Year cur + 1));
      match r with
      | None => Some (false, None)
      | Some t => Some (true, Some t)
      end
  end.

(** * Correctness *)

(** ** Years *)

(** Days from the epoch to the first day of a year, without a width. *)
Definition year_start (Y : Z) : Z :=
  365 * (Y - 1) + (Y - 1) / 4 - (Y - 1) / 100 + (Y - 1) / 400 - 584388.

Definition year_length (Y : Z) : Z := YearLengths (IsLeapYear Y).

Lemma IsLeapYear_mod Y :
  0 <= Y ->
  IsLeapYear Y = (Y mod 4 =? 0) && (negb (Y mod 100 =? 0) || (Y mod 400 =? 0)).
Proof. intros HY. unfold IsLeapYear. by rewrite !Z.rem_mod_nonneg by lia. Qed.

Lemma s16_small x : - 2 ^ 15 <= x < 2 ^ 15 -> s16 x = x.
Proof. intros Hx. unfold s16. rewrite Z.mod_small; lia. Qed.

Lemma DaysSinceEpoch_spec Y : 1601 <= Y <= 100000 -> DaysSinceEpoch Y = year_start Y.
Proof.
  intros HY. unfold DaysSinceEpoch, EPOCHYEAR, DAYSPERNORMALYEAR, year_start.
  change (1601 - 1) with 1600. rewrite (s32_small (Y - 1)) by lia.
  rewrite !Z.quot_div_nonneg by lia. change (1600 / 4) with 400. change (1600 / 100) with 16.
  change (1600 / 400) with 4. rewrite s32_small; Z.div_mod_to_equations; lia.
Qed.

Lemma year_start_succ Y : 1 <= Y -> year_start (Y + 1) = year_start Y + year_length Y.
Proof.
  intros HY. unfold year_start, year_length. rewrite IsLeapYear_mod by lia.
  replace (Y + 1 - 1) with Y by lia.
  destruct (Z.eqb_spec (Y mod 4) 0), (Z.eqb_spec (Y mod 100) 0), (Z.eqb_spec (Y mod 400) 0);
    cbn [andb orb negb YearLengths]; unfold DAYSPERLEAPYEAR, DAYSPERNORMALYEAR;
    Z.div_mod_to_equations; lia.
Qed.

Lemma year_start_bounds k : 0 <= k -> 365 * k <= year_start (1601 + k) <= 366 * k.
Proof. intros Hk. unfold year_start. Z.div_mod_to_equations; lia. Qed.

Lemma year_start_mono Y Y' : 1 <= Y <= Y' -> year_start Y <= year_start Y'.
Proof. intros H. unfold year_start. Z.div_mod_to_equations; lia. Qed.

Lemma year_length_range Y : 365 <= year_length Y <= 366.
Proof. unfold year_length, YearLengths, DAYSPERLEAPYEAR, DAYSPERNORMALYEAR. destruct (IsLeapYear Y); lia. Qed.

(** A day number belongs to one year only. *)
Lemma year_unique Y d Y' d' :
  1 <= Y -> 1 <= Y' -> 0 <= d < year_length Y -> 0 <= d' < year_length Y' ->
  year_start Y + d = year_start Y' + d' -> Y = Y' /\ d = d'.
Proof.
  intros HY HY' Hd Hd' E.
  destruct (Z.lt_trichotomy Y Y') as [H|[->|H]]; [|lia|].
  - pose proof (year_start_mono (Y + 1) Y' ltac:(lia)). rewrite year_start_succ in * by lia. lia.
  - pose proof (year_start_mono (Y' + 1) Y ltac:(lia)). rewrite year_start_succ in * by lia. lia.
Qed.

(** The loop terminates, with the year of the day. *)
Lemma year_loop_spec fuel : forall Y d,
  1 <= Y -> 0 <= d -> Y + d < 2 ^ 32 -> d / 365 < Z.of_nat fuel ->
  exists Y' d', year_loop fuel Y d = Some (Y', d') /\ Y <= Y' /\
    year_start Y' + d' = year_start Y + d /\ 0 <= d' < year_length Y'.
Proof.
  induction fuel as [|fuel IH]; intros Y d HY Hd Hr Hf; [Z.div_mod_to_equations; lia|].
  cbn [year_loop]. fold (year_length Y). pose proof (year_length_range Y).
  destruct (Z.ltb_spec d (year_length Y)).
  - exists Y, d. split_and!; lia || done.
  - rewrite !u32_small by lia.
    destruct (IH (Y + 1) (d - year_length Y)) as (Y' & d' & E & H1 & H2 & H3); try lia.
    { Z.div_mod_to_equations; lia. }
    exists Y', d'. rewrite year_start_succ in H2 by lia. split_and!; lia || done.
Qed.

Lemma year_loop_at Y d Y0 d0 :
  1601 <= Y0 <= Y -> 0 <= d < year_length Y -> 0 <= d0 < 2 ^ 31 -> Y0 < 2 ^ 31 ->
  year_start Y0 + d0 = year_start Y + d ->
  year_loop (S (Z.to_nat (d0 / DAYSPERNORMALYEAR))) Y0 d0 = Some (Y, d).
Proof.
  intros HY Hd Hd0 Hr E.
  destruct (year_loop_spec (S (Z.to_nat (d0 / DAYSPERNORMALYEAR))) Y0 d0)
    as (Y' & d' & -> & H1 & H2 & H3); try lia.
  { unfold DAYSPERNORMALYEAR. Z.div_mod_to_equations; lia. }
  destruct (year_unique Y' d' Y d) as [-> ->]; [lia..|done].
Qed.

(** ** Months *)

Definition sum (l : list Z) : Z := foldr Z.add 0 l.

Lemma month_loop_at Months : forall k len d cur,
  Forall (fun n => 0 <= n) Months -> Months !! k = Some len -> 0 <= d < len ->
  sum (take k Months) + d < 2 ^ 32 ->
  month_loop Months cur (sum (take k Months) + d) = Some (cur + Z.of_nat k, d).
Proof.
  induction Months as [|l Months IH]; intros [|k] len d cur HM Hk Hd Hr; try done.
  - injection Hk as <-. cbn [month_loop take sum foldr] in *. rewrite Z.add_0_l, Z.add_0_r in *.
    by rewrite (proj2 (Z.leb_gt l d)) by lia.
  - apply Forall_cons_iff in HM as [Hl HM]. cbn [month_loop take] in *.
    assert (Hs : 0 <= sum (take k Months)).
    { clear -HM. revert k. induction HM as [|x M Hx HM IH]; intros [|k]; cbn; try lia.
      specialize (IH k). unfold sum in IH. lia. }
    change (sum (l :: take k Months)) with (l + sum (take k Months)) in *.
    rewrite (proj2 (Z.leb_le l _)) by lia. rewrite u32_small by lia.
    replace (l + _ + d - l) with (sum (take k Months) + d) by lia.
    rewrite (IH k len d) by (done || lia). do 2 f_equal. lia.
Qed.

(** A day of the year is a day of one month. *)
Lemma split_days Months : forall d,
  0 <= d < sum Months ->
  exists k len d', Months !! k = Some len /\ d = sum (take k Months) + d' /\ 0 <= d' < len.
Proof.
  induction Months as [|l Months IH]; intros d Hd; [cbn in Hd; lia|].
  change (sum (l :: Months)) with (l + sum Months) in Hd.
  destruct (Z.lt_ge_cases d l).
  - exists 0%nat, l, d. split_and!; done || lia.
  - destruct (IH (d - l)) as (k & len & d' & Hk & E & Hd'); [lia|].
    exists (S k), len, d'. split_and!; try done; [|lia..].
    change (sum (take (S k) (l :: Months))) with (l + sum (take k Months)). lia.
Qed.

Lemma months_sum leap : sum (MonthLengths leap) = YearLengths leap.
Proof. by destruct leap. Qed.

Lemma months_range leap k len : MonthLengths leap !! k = Some len -> 28 <= len <= 31 /\ (k < 12)%nat.
Proof.
  intros H. pose proof (lookup_lt_Some _ _ _ H) as Hk. change (length _) with 12%nat in Hk.
  split; [|done]. destruct leap; do 12 (destruct k as [|k]; [injection H as <-; lia|]); lia.
Qed.

Lemma months_nonneg leap : Forall (fun n => 0 <= n) (MonthLengths leap).
Proof. destruct leap; repeat constructor; lia. Qed.

Lemma months_before leap k len :
  MonthLengths leap !! k = Some len -> 0 <= sum (take k (MonthLengths leap)) /\
  sum (take k (MonthLengths leap)) + len <= YearLengths leap.
Proof.
  intros H. destruct leap; do 12 (destruct k as [|k]; [injection H as <-; vm_compute; split; discriminate|]);
    done.
Qed.

Lemma add_months_spec Months : forall n T,
  Forall (fun x => 0 <= x) Months -> 0 <= T -> T + sum Months < 2 ^ 63 ->
  add_months Months n T = T + sum (take n Months).
Proof.
  induction Months as [|l Months IH]; intros [|n] T HM HT Hr; cbn [add_months take]; cbn [sum foldr]; try lia.
  apply Forall_cons_iff in HM as [Hl HM]. change (sum (l :: Months)) with (l + sum Months) in Hr.
  assert (Hs : 0 <= sum Months).
  { clear -HM. induction HM as [|x M Hx HM IH]; cbn; [lia|]. unfold sum in IH. lia. }
  rewrite s64_small, IH by (done || lia). unfold sum. lia.
Qed.

(** ** Moments *)

(** The number of the day [d] (from 0) of the month [k] (from 0) of the year [Y]. *)
Definition day_number (Y : Z) (k : nat) (d : Z) : Z :=
  year_start Y + sum (take k (MonthLengths (IsLeapYear Y))) + d.

Definition ticks (n s r : Z) : Z := (n * 86400 + s) * 10000000 + r.

Definition date_ok (Y : Z) (k : nat) (d : Z) : Prop :=
  1601 <= Y /\ exists len, MonthLengths (IsLeapYear Y) !! k = Some len /\ 0 <= d < len.

Lemma day_in_year Y k d :
  date_ok Y k d -> 0 <= day_number Y k d - year_start Y < year_length Y.
Proof.
  intros (HY & len & Hk & Hd). destruct (months_before _ _ _ Hk). unfold day_number, year_length. lia.
Qed.

Lemma day_number_bounds Y k d :
  date_ok Y k d -> 365 * (Y - 1601) <= day_number Y k d < 366 * (Y - 1600).
Proof.
  intros H. pose proof (day_in_year Y k d H) as Hi. pose proof (year_length_range Y) as Hl.
  destruct H as [HY _]. pose proof (year_start_bounds (Y - 1601) ltac:(lia)) as Hb.
  replace (1601 + (Y - 1601)) with Y in Hb by lia. lia.
Qed.

(** The calendar part of [RtlTimeToTimeFields]. *)
Lemma date_of_day Y k d n :
  date_ok Y k d -> n = day_number Y k d -> n < 2 ^ 25 ->
  let CurYear := u32 (EPOCHYEAR + n / DAYSPERLEAPYEAR) in
  let Days := u32 (n - DaysSinceEpoch CurYear) in
  exists Days', year_loop (S (Z.to_nat (Days / DAYSPERNORMALYEAR))) CurYear Days = Some (Y, Days') /\
  month_loop (MonthLengths (IsLeapYear Y)) 0 Days' = Some (Z.of_nat k, d).
Proof.
  intros Hok En Hn CurYear Days. pose proof (day_number_bounds Y k d Hok) as Hb.
  pose proof (day_in_year Y k d Hok) as Hin. rewrite <- En in *. destruct Hok as (HY & len & Hk & Hd).
  pose proof (months_before _ _ _ Hk) as [Hm1 Hm2]. pose proof (year_length_range Y) as Hl.
  pose proof Hl as Hl'. unfold year_length in Hl'. exists (n - year_start Y). split.
  - assert (HC : CurYear = 1601 + n / 366)
      by (unfold CurYear, EPOCHYEAR, DAYSPERLEAPYEAR; rewrite u32_small; Z.div_mod_to_equations; lia).
    pose proof (year_start_bounds (n / 366) ltac:(Z.div_mod_to_equations; lia)) as Hyb.
    assert (HD : Days = n - year_start CurYear).
    { unfold Days. rewrite DaysSinceEpoch_spec, u32_small; rewrite ?HC; Z.div_mod_to_equations; lia. }
    rewrite HC in HD. assert (Hle : 1601 + n / 366 <= Y).
    { destruct (Z.le_gt_cases (1601 + n / 366) Y); [done|].
      pose proof (year_start_mono (Y + 1) (1601 + n / 366) ltac:(lia)).
      rewrite year_start_succ in * by lia. Z.div_mod_to_equations; lia. }
    rewrite HC. apply year_loop_at; Z.div_mod_to_equations; lia.
  - replace (n - year_start Y) with (sum (take k (MonthLengths (IsLeapYear Y))) + d)
      by (unfold day_number in En; lia).
    rewrite (month_loop_at _ k len d) by (done || apply months_nonneg || lia). done.
Qed.

(** The fields of the moment [s] seconds and [r] ticks into the day [n]. *)
Definition fields_at (Y : Z) (k : nat) (d s r : Z) : TIME_FIELDS :=
  mkFields Y (Z.of_nat k + 1) (d + 1) (s / 3600) (s mod 3600 / 60) (s mod 3600 mod 60) (r / 10000)
    ((1 + day_number Y k d) mod 7).

Definition moment_ok (Y : Z) (k : nat) (d s r : Z) : Prop :=
  date_ok Y k d /\ 0 <= s < 86400 /\ 0 <= r < 10000000.

Lemma time_to_fields Y k d s r :
  moment_ok Y k d s r -> Y <= 32767 -> ticks (day_number Y k d) s r < 2 ^ 63 ->
  RtlTimeToTimeFields (ticks (day_number Y k d) s r) = Some (fields_at Y k d s r).
Proof.
  intros (Hok & Hs & Hr) HY Ht. pose proof (day_number_bounds Y k d Hok) as Hb.
  set (n := day_number Y k d) in *. pose proof Hok as (HY1 & len & Hk & Hd).
  pose proof (months_range _ _ _ Hk) as [Hlen Hk12].
  assert (Hn : 0 <= n < 2 ^ 25) by (unfold ticks in Ht; lia).
  destruct (date_of_day Y k d n Hok eq_refl) as (D' & Hyear & Hmonth); [lia|]. cbv zeta in Hyear.
  unfold RtlTimeToTimeFields, TICKSPERSEC, TICKSPERMSEC, SECSPERDAY, SECSPERHOUR, SECSPERMIN.
  assert (Hu : u64 (ticks n s r) = ticks n s r) by (apply u64_small; unfold ticks in *; lia).
  assert (H1 : ticks n s r / 10000000 = n * 86400 + s)
    by (unfold ticks; Z.div_mod_to_equations; lia).
  assert (H2 : ticks n s r mod 10000000 = r) by (unfold ticks; Z.div_mod_to_equations; lia).
  assert (H3 : (n * 86400 + s) / 86400 = n) by (Z.div_mod_to_equations; lia).
  assert (H4 : (n * 86400 + s) mod 86400 = s) by (Z.div_mod_to_equations; lia).
  cbv zeta. rewrite Hu, H1, H2, H3, H4, (u32_small n), (u32_small s), Hyear by lia.
  cbn [mbind option_bind]. rewrite Hmonth. cbn [mbind option_bind]. unfold fields_at, EPOCHWEEKDAY, DAYSPERWEEK.
  rewrite (u32_small (1 + n)) by lia. fold n.
  by rewrite !s16_small by (Z.div_mod_to_equations; lia).
Qed.

(** Every time not before the epoch is such a moment. *)
Lemma split_time T :
  0 <= T < 2 ^ 63 ->
  exists Y k d s r, moment_ok Y k d s r /\ Y <= 30828 /\ T = ticks (day_number Y k d) s r.
Proof.
  intros HT. set (n := T / 10000000 / 86400).
  assert (Hn : 0 <= n < 10675200) by (unfold n; Z.div_mod_to_equations; lia).
  destruct (year_loop_spec (S (Z.to_nat (n / 365))) 1601 n) as (Y & d0 & _ & HY & E & Hd0);
    try lia.
  change (year_start 1601) with 0 in E.
  destruct (split_days (MonthLengths (IsLeapYear Y)) d0) as (k & len & d & Hk & Ed & Hd).
  { rewrite months_sum. exact Hd0. }
  exists Y, k, d, (T / 10000000 mod 86400), (T mod 10000000).
  assert (Hok : date_ok Y k d) by (split; [lia|by exists len]).
  split; [|split].
  - split; [done|]. Z.div_mod_to_equations; lia.
  - assert (Hy : year_start Y < 10675200) by lia.
    destruct (Z.le_gt_cases Y 30828); [done|].
    pose proof (year_start_mono 30829 Y ltac:(lia)) as Hm. change (year_start 30829) with 10675308 in Hm. lia.
  - unfold day_number, ticks. replace (year_start Y + sum (take k (MonthLengths (IsLeapYear Y))) + d) with n by lia.
    unfold n. Z.div_mod_to_equations; lia.
Qed.

Lemma month_length_at Y k : month_length Y (Z.of_nat k + 1) = MonthLengths (IsLeapYear Y) !! k.
Proof. unfold month_length. f_equal. lia. Qed.

Lemma fields_valid_spec f :
  fields_valid f = true <->
  0 <= Milliseconds f <= 999 /\ 0 <= Second f <= 59 /\ 0 <= Minute f <= 59 /\ 0 <= Hour f <= 23 /\
  1 <= Month f <= 12 /\ 1601 <= Year f /\
  exists len, month_length (Year f) (Month f) = Some len /\ 1 <= Day f <= len.
Proof.
  unfold fields_valid. rewrite negb_true_iff, !orb_false_iff, !Z.ltb_ge.
  destruct (month_length (Year f) (Month f)) as [len|].
  - rewrite Z.ltb_ge. split; [intros; split_and!; try lia; exists len; split; [done|lia]|].
    intros (? & ? & ? & ? & ? & ? & len' & [= <-] & ?). lia.
  - split; [intuition discriminate|]. intros (? & ? & ? & ? & ? & ? & len' & [=] & ?).
Qed.

(** The weekday is not looked at. *)
Lemma fields_to_time Y k d s ms wd :
  date_ok Y k d -> 0 <= s < 86400 -> 0 <= ms <= 999 -> Y <= 32767 ->
  ticks (day_number Y k d) s (ms * 10000) < 2 ^ 63 ->
  RtlTimeFieldsToTime
    (mkFields Y (Z.of_nat k + 1) (d + 1) (s / 3600) (s mod 3600 / 60) (s mod 3600 mod 60) ms wd)
  = Some (ticks (day_number Y k d) s (ms * 10000)).
Proof.
  intros Hok Hs Hms HY Ht. pose proof (day_number_bounds Y k d Hok) as Hb.
  pose proof (day_in_year Y k d Hok) as Hin. pose proof Hok as (HY1 & len & Hk & Hd).
  pose proof (months_range _ _ _ Hk) as [Hlen Hk12]. pose proof (months_before _ _ _ Hk) as [Hm1 Hm2].
  unfold RtlTimeFieldsToTime.
  replace (fields_valid _) with true.
  2:{ symmetry. apply fields_valid_spec. cbn. rewrite month_length_at.
      split_and!; try (Z.div_mod_to_equations; lia). exists len. split; [done|lia]. }
  cbn [negb Year Month Day Hour Minute Second Milliseconds].
  unfold SECSPERDAY, SECSPERHOUR, SECSPERMIN, TICKSPERSEC, TICKSPERMSEC.
  pose proof (year_start_bounds (Y - 1601) ltac:(lia)) as Hyb.
  replace (1601 + (Y - 1601)) with Y in Hyb by lia.
  rewrite DaysSinceEpoch_spec, (s64_small (year_start Y)) by lia.
  rewrite add_months_spec; [|apply months_nonneg|lia|].
  2:{ rewrite months_sum. pose proof (year_length_range Y). unfold year_length in *. lia. }
  replace (Z.to_nat (Z.of_nat k + 1 - 1)) with k by lia.
  replace (_ + (d + 1 - 1)) with (day_number Y k d) by (unfold day_number; lia).
  set (n := day_number Y k d) in *.
  assert (Hsec : s / 3600 * 3600 + s mod 3600 / 60 * 60 + s mod 3600 mod 60 = s)
    by (Z.div_mod_to_equations; lia).
  unfold ticks in *. rewrite (s64_small n), (s64_small (n * 86400)), Hsec by lia.
  rewrite (s64_small (n * 86400 + s)), (s64_small ((n * 86400 + s) * 10000000)), s64_small by lia.
  done.
Qed.

(** ** Cutover times *)

Definition same_time (f g : TIME_FIELDS) : Prop :=
  Hour f = Hour g /\ Minute f = Minute g /\ Second f = Second g /\ Milliseconds f = Milliseconds g.

(** Seconds into the day. *)
Definition day_seconds (f : TIME_FIELDS) : Z := Hour f * 3600 + Minute f * 60 + Second f.

Definition clock_ok (f : TIME_FIELDS) : Prop :=
  0 <= Milliseconds f <= 999 /\ 0 <= Second f <= 59 /\ 0 <= Minute f <= 59 /\ 0 <= Hour f <= 23.

Lemma clock_split f :
  clock_ok f -> let s := day_seconds f in 0 <= s < 86400 /\
  s / 3600 = Hour f /\ s mod 3600 / 60 = Minute f /\ s mod 3600 mod 60 = Second f.
Proof.
  intros (H1 & H2 & H3 & H4) s. unfold s, day_seconds.
  set (h := Hour f) in *. set (m := Minute f) in *. set (sec := Second f) in *.
  assert (E1 : (h * 3600 + m * 60 + sec) / 3600 = h) by (Z.div_mod_to_equations; lia).
  assert (E2 : (h * 3600 + m * 60 + sec) mod 3600 = m * 60 + sec) by (Z.div_mod_to_equations; lia).
  rewrite E1, E2. split; [lia|]. split; [done|]. Z.div_mod_to_equations; lia.
Qed.

(** The last year whose times all fit. *)
Lemma last_year Y k d s r :
  moment_ok Y k d s r -> Y <= 30827 -> 0 <= ticks (day_number Y k d) s r < 2 ^ 63.
Proof.
  intros (Hok & Hs & Hr) HY. pose proof (day_in_year Y k d Hok) as Hin. pose proof Hok as [HY1 _].
  pose proof (day_number_bounds Y k d Hok).
  pose proof (year_start_mono (Y + 1) 30828 ltac:(lia)) as Hm.
  rewrite year_start_succ in Hm by lia. change (year_start 30828) with 10674942 in Hm.
  unfold ticks. lia.
Qed.

Lemma fields_to_moment f :
  fields_valid f = true -> Year f <= 30827 ->
  exists k d, let t := ticks (day_number (Year f) k d) (day_seconds f) (Milliseconds f * 10000) in
  date_ok (Year f) k d /\ Month f = Z.of_nat k + 1 /\ Day f = d + 1 /\ 0 <= t < 2 ^ 63 /\
  RtlTimeFieldsToTime f = Some t /\
  RtlTimeToTimeFields t
  = Some (fields_at (Year f) k d (day_seconds f) (Milliseconds f * 10000)).
Proof.
  intros Hv HY. apply fields_valid_spec in Hv as (Hms & Hs & Hm & Hh & Hmo & HY1 & len & Hlen & Hd).
  destruct (clock_split f) as (Hsec & E1 & E2 & E3); [split_and!; lia|].
  exists (Z.to_nat (Month f - 1)), (Day f - 1). cbv zeta.
  assert (Hok : date_ok (Year f) (Z.to_nat (Month f - 1)) (Day f - 1)).
  { split; [done|]. exists len. split; [done|lia]. }
  assert (Hmom : moment_ok (Year f) (Z.to_nat (Month f - 1)) (Day f - 1) (day_seconds f)
            (Milliseconds f * 10000)) by (split_and!; done || lia).
  pose proof (last_year _ _ _ _ _ Hmom HY) as Ht.
  split; [done|]. split; [lia|]. split; [lia|]. split; [done|]. split.
  - rewrite <- (fields_to_time _ _ _ (day_seconds f) (Milliseconds f) (Weekday f)) by (done || lia).
    rewrite E1, E2, E3, Z2Nat.id by lia. f_equal. destruct f; cbn. f_equal; lia.
  - apply time_to_fields; [done|lia|lia].
Qed.

Section cutover.
Context (Cut : TIME_FIELDS) (AY : Z).
Hypothesis HAY : 1601 <= AY <= 30827.
Hypothesis Hclock : clock_ok Cut.
Hypothesis Hmonth : 1 <= Month Cut <= 12.
Hypothesis Hday : 1 <= Day Cut <= 5.
Hypothesis Hwd : 0 <= Weekday Cut <= 6.

(** The day [D] of the month is the weekday's occurrence the cutover names: the first
    to the fourth, or the last. *)
Definition right_week (len D : Z) : Prop :=
  1 <= D <= len /\
  if Day Cut =? 5 then len < D + 7 else 7 * (Day Cut - 1) < D <= 7 * Day Cut.

Lemma first_weekday_spec first :
  0 <= first <= 6 -> 0 <= first_weekday first (Weekday Cut) <= 6 /\
  (first + first_weekday first (Weekday Cut)) mod 7 = Weekday Cut.
Proof.
  intros Hf. unfold first_weekday, DAYSPERWEEK. destruct (Z.eqb_spec first (Weekday Cut));
    [|destruct (Z.ltb_spec first (Weekday Cut))]; Z.div_mod_to_equations; lia.
Qed.

Lemma cutover_round_spec :
  exists t f len, cutover_round Cut AY = Some (Some t) /\ RtlTimeToTimeFields t = Some f /\
  0 <= t < 2 ^ 63 /\ month_length AY (Month Cut) = Some len /\
  Year f = AY /\ Month f = Month Cut /\ Weekday f = Weekday Cut /\ same_time f Cut /\
  right_week len (Day f).
Proof.
  set (k := Z.to_nat (Month Cut - 1)).
  destruct (lookup_lt_is_Some_2 (MonthLengths (IsLeapYear AY)) k) as [len Hlen]; [change (length _) with 12%nat; lia|].
  pose proof (months_range _ _ _ Hlen) as [Hl _].
  assert (Hml : month_length AY (Month Cut) = Some len) by exact Hlen.
  destruct (clock_split Cut Hclock) as (Hs & E1 & E2 & E3). set (s := day_seconds Cut) in *.
  pose proof Hclock as (Hms & _).
  set (adjusted d := mkFields AY (Month Cut) d (Hour Cut) (Minute Cut) (Second Cut) (Milliseconds Cut) 0).
  assert (Hadj : forall d, 0 <= d < len ->
    let t := ticks (day_number AY k d) s (Milliseconds Cut * 10000) in
    0 <= t < 2 ^ 63 /\ RtlTimeFieldsToTime (adjusted (d + 1)) = Some t /\
    RtlTimeToTimeFields t = Some (fields_at AY k d s (Milliseconds Cut * 10000))).
  { intros d Hd t. assert (Hok : date_ok AY k d) by (split; [lia|by exists len]).
    assert (Hmom : moment_ok AY k d s (Milliseconds Cut * 10000)) by (split_and!; done || lia).
    pose proof (last_year _ _ _ _ _ Hmom ltac:(lia)) as Ht. split; [done|]. split.
    - unfold t. rewrite <- (fields_to_time AY k d s (Milliseconds Cut) 0) by (done || lia).
      unfold adjusted. rewrite E1, E2, E3. do 2 f_equal. lia.
    - apply time_to_fields; [done|lia|lia]. }
  unfold cutover_round. cbv beta zeta.
  destruct (Hadj 0 ltac:(lia)) as (_ & H1 & H2). change (0 + 1) with 1 in H1.
  unfold adjusted in H1. rewrite H1, H2.
  cbn [mbind option_bind fields_at Weekday]. set (w := (1 + day_number AY k 0) mod 7).
  destruct (first_weekday_spec w) as [Hfw Hmod]; [unfold w; Z.div_mod_to_equations; lia|].
  set (delta := first_weekday w (Weekday Cut)) in *. rewrite !(s16_small delta), (s16_small (1 + delta)) by lia.
  set (D := if 1 <? Day Cut
            then let Days := 7 * (Day Cut - 1) in 1 + delta + (if len <? 1 + delta + Days then Days - 7 else Days)
            else 1 + delta).
  match goal with |- context [mbind _ ?e] => replace e with (Some D) end.
  2:{ unfold D, DAYSPERWEEK. destruct (1 <? Day Cut); [|done]. rewrite Hml. cbn [mbind option_bind].
      rewrite (s16_small (7 * (Day Cut - 1))) by lia. cbv zeta.
      destruct (len <? 1 + delta + 7 * (Day Cut - 1)); rewrite !s16_small; try done; rewrite ?s16_small; lia. }
  assert (HD : right_week len D).
  { unfold right_week, D. cbv zeta. destruct (Z.ltb_spec 1 (Day Cut)), (Z.eqb_spec (Day Cut) 5); try lia;
      destruct (Z.ltb_spec len (1 + delta + 7 * (Day Cut - 1))); lia. }
  assert (Hrep : exists q, D = 1 + delta + 7 * q).
  { unfold D. cbv zeta. destruct (1 <? Day Cut); [destruct (len <? _)|];
      [exists (Day Cut - 2)|exists (Day Cut - 1)|exists 0]; lia. }
  destruct (Hadj (D - 1)) as (Ht & H3 & H4); [unfold right_week in HD; lia|].
  replace (D - 1 + 1) with D in H3 by lia. unfold adjusted in H3. cbn [mbind option_bind]. rewrite H3.
  do 3 eexists. split; [reflexivity|]. split; [exact H4|]. split; [done|]. split; [exact Hml|].
  unfold fields_at, same_time. cbn [Year Month Day Hour Minute Second Milliseconds Weekday].
  split; [done|]. split; [lia|]. split.
  { destruct Hrep as [q ->]. rewrite <- Hmod. unfold w, day_number. Z.div_mod_to_equations; lia. }
  split; [rewrite E1, E2, E3; split_and!; try done; Z.div_mod_to_equations; lia|].
  by replace (D - 1 + 1) with D by lia.
Qed.
End cutover.

(** ** Theorems *)

(** From fields to time and back: valid fields up to the year 30827 convert to a
    time whose fields are the same, with the weekday that the number of the day
    determines. *)
Theorem fields_time_fields f :
  fields_valid f = true -> Year f <= 30827 ->
  exists t g, RtlTimeFieldsToTime f = Some t /\ 0 <= t < 2 ^ 63 /\ RtlTimeToTimeFields t = Some g /\
  Year g = Year f /\ Month g = Month f /\ Day g = Day f /\ same_time g f /\
  Weekday g = (1 + t / 864000000000) mod 7.
Proof.
  intros Hv HY. destruct (fields_to_moment f Hv HY) as (k & d & Hok & Hm & Hd & Ht & H1 & H2).
  apply fields_valid_spec in Hv as (Hms & Hs & Hmi & Hh & _).
  destruct (clock_split f) as (Hsec & E1 & E2 & E3); [split_and!; lia|].
  do 2 eexists. split; [exact H1|]. split; [done|]. split; [exact H2|].
  unfold fields_at, same_time. cbn [Year Month Day Hour Minute Second Milliseconds Weekday].
  rewrite E1, E2, E3. split_and!; try done; [Z.div_mod_to_equations; lia|].
  f_equal. f_equal. unfold ticks. Z.div_mod_to_equations; lia.
Qed.

(** C14.  From time to fields and back: every time not before 1601 has fields (the
    loops end and stay inside the tables), they are valid, and converting them back
    yields the time to the millisecond. *)
Theorem time_fields_time t :
  0 <= t < 2 ^ 63 ->
  exists f, RtlTimeToTimeFields t = Some f /\ fields_valid f = true /\ 0 <= Weekday f <= 6 /\
  RtlTimeFieldsToTime f = Some (t - t mod 10000).
Proof.
  intros Ht. destruct (split_time t Ht) as (Y & k & d & s & r & Hm & HY & ->).
  pose proof Hm as (Hok & Hs & Hr). pose proof Hok as (HY1 & len & Hk & Hd).
  pose proof (months_range _ _ _ Hk) as [Hlen Hk12].
  exists (fields_at Y k d s r). split; [apply time_to_fields; [done|lia|lia]|].
  assert (Hms : 0 <= r / 10000 <= 999) by (Z.div_mod_to_equations; lia).
  split; [|split].
  - apply fields_valid_spec. unfold fields_at. cbn. rewrite month_length_at.
    split_and!; try (Z.div_mod_to_equations; lia). exists len. split; [done|lia].
  - unfold fields_at. cbn. Z.div_mod_to_equations; lia.
  - assert (Hmod : ticks (day_number Y k d) s r mod 10000 = r mod 10000).
    { unfold ticks. replace ((_ * 86400 + s) * 10000000 + r)
        with (r + (day_number Y k d * 86400 + s) * 1000 * 10000) by lia. by rewrite Z.mod_add. }
    rewrite Hmod. unfold fields_at. rewrite fields_to_time; try done; try lia.
    + f_equal. unfold ticks. Z.div_mod_to_equations; lia.
    + unfold ticks in *. Z.div_mod_to_equations; lia.
Qed.

Lemma seconds_since_spec epoch t :
  0 <= epoch < 2 ^ 62 -> - 2 ^ 62 <= t < 2 ^ 63 ->
  seconds_since epoch t
  = if (- 10000000 <? t - epoch) && (t - epoch <? 2 ^ 32 * 10000000)
    then Some (Z.max 0 (t - epoch) / 10000000) else None.
Proof.
  intros He Ht. unfold seconds_since, TICKSPERSEC. rewrite s64_small by lia.
  set (x := t - epoch). rewrite Z.shiftr_div_pow2 by lia.
  assert (Hq : Z.quot x 10000000 = if 0 <=? x then x / 10000000 else - (- x / 10000000)).
  { destruct (Z.leb_spec 0 x); [by apply Z.quot_div_nonneg|].
    rewrite <- (Z.opp_involutive x) at 1. rewrite Z.quot_opp_l by lia. f_equal.
    by rewrite Z.quot_div_nonneg by lia. }
  rewrite Hq. destruct (Z.leb_spec 0 x).
  - rewrite (proj2 (Z.ltb_lt (- 10000000) x)), Z.max_r by lia. cbn [andb].
    destruct (Z.ltb_spec x (2 ^ 32 * 10000000)).
    + rewrite (proj2 (Z.eqb_eq _ 0)) by (Z.div_mod_to_equations; lia).
      cbn [negb]. rewrite u32_small; [done|]. Z.div_mod_to_equations; lia.
    + rewrite (proj2 (Z.eqb_neq _ 0)) by (Z.div_mod_to_equations; lia). done.
  - rewrite Z.max_l by lia. rewrite (proj2 (Z.ltb_lt x (2 ^ 32 * 10000000))), andb_true_r by lia.
    destruct (Z.ltb_spec (- 10000000) x).
    + replace (- x / 10000000) with 0 by (Z.div_mod_to_equations; lia). done.
    + rewrite (proj2 (Z.eqb_neq _ 0)) by (Z.div_mod_to_equations; lia). done.
Qed.

(** Seconds since 1970 and 1980: converting to a time and back is the identity
    on all 32 bit values, the epochs are midnight of 1 January 1970 and 1980, and a
    time converts exactly if it is less than a second before the epoch or less than
    2^32 seconds after it. *)
Theorem seconds_roundtrip s t :
  0 <= s < 2 ^ 32 -> - 2 ^ 62 <= t < 2 ^ 63 ->
  RtlTimeToSecondsSince1970 (RtlSecondsSince1970ToTime s) = Some s /\
  RtlTimeToSecondsSince1980 (RtlSecondsSince1980ToTime s) = Some s /\
  RtlTimeToTimeFields (RtlSecondsSince1970ToTime 0) = Some (mkFields 1970 1 1 0 0 0 0 4) /\
  RtlTimeToTimeFields (RtlSecondsSince1980ToTime 0) = Some (mkFields 1980 1 1 0 0 0 0 2) /\
  (RtlTimeToSecondsSince1970 t <> None <->
   - 10000000 < t - TICKSTO1970 < 2 ^ 32 * 10000000).
Proof.
  intros Hs Ht.
  assert (Hback : forall epoch, 0 <= epoch < 2 ^ 62 ->
    seconds_since epoch (s64 (s * TICKSPERSEC + epoch)) = Some s).
  { intros epoch He. unfold TICKSPERSEC. rewrite s64_small, seconds_since_spec by lia.
    replace (s * 10000000 + epoch - epoch) with (s * 10000000) by lia.
    rewrite (proj2 (Z.ltb_lt _ _)), (proj2 (Z.ltb_lt _ _)) by lia. cbn [andb]. f_equal.
    rewrite Z.max_r by lia. by rewrite Z.div_mul. }
  split; [apply Hback; unfold TICKSTO1970; lia|]. split; [apply Hback; unfold TICKSTO1980; lia|].
  split; [vm_compute; reflexivity|]. split; [vm_compute; reflexivity|].
  unfold RtlTimeToSecondsSince1970. rewrite seconds_since_spec by (unfold TICKSTO1970; lia).
  destruct (Z.ltb_spec (- 10000000) (t - TICKSTO1970)), (Z.ltb_spec (t - TICKSTO1970) (2 ^ 32 * 10000000));
    cbn [andb]; split; try done; lia.
Qed.

(** A recurring cutover: for a valid rule (month, time, weekday, and the first to
    fourth or the last such weekday) the function finds a time, and this time has
    the rule's month, weekday and time of day and is that occurrence of the weekday
    in its month, in the current year, or in the next if the one of the current year
    is past and the caller takes the next; then it is not before the current time. *)
Theorem cutover_right_day Cut now cur only :
  Year Cut = 0 -> clock_ok Cut -> 1 <= Month Cut <= 12 -> 1 <= Day Cut <= 5 -> 0 <= Weekday Cut <= 6 ->
  0 <= now < 2 ^ 63 -> RtlTimeToTimeFields now = Some cur -> Year cur <= 30826 ->
  exists t f len, RtlCutoverTimeToSystemTime Cut now only = Some (true, Some t) /\
  RtlTimeToTimeFields t = Some f /\ month_length (Year f) (Month f) = Some len /\
  Month f = Month Cut /\ Weekday f = Weekday Cut /\ same_time f Cut /\ right_week Cut len (Day f) /\
  (Year f = Year cur \/ (only = false /\ Year f = Year cur + 1)) /\
  (only = false -> now <= t).
Proof.
  intros HY0 Hclock Hmonth Hday Hwd Hnow Hcur HY. unfold RtlCutoverTimeToSystemTime.
  rewrite HY0. cbn [negb Z.eqb]. rewrite (proj2 (Z.eqb_neq (Day Cut) 0)), (proj2 (Z.ltb_ge 5 _)) by lia.
  cbn [orb]. rewrite Hcur. cbn [mbind option_bind].
  destruct (split_time now Hnow) as (Y & k & d & s & r & Hm & HYb & En).
  rewrite En, time_to_fields in Hcur by (done || lia). injection Hcur as <-. cbn [fields_at Year] in *.
  pose proof Hm as ((HY1 & _) & _).
  destruct (cutover_round_spec Cut Y ltac:(lia) Hclock Hmonth Hday Hwd)
    as (t & f & len & -> & Hf & Ht & Hl & HYf & HMf & HWf & HTf & HRf). cbn [mbind option_bind].
  destruct (only || (now <=? t)) eqn:Eonly.
  - exists t, f, len. rewrite HYf, HMf. split_and!; try done; [by left|].
    intros ->. by apply Z.leb_le.
  - apply orb_false_iff in Eonly as [-> Hlt]. rewrite s16_small by lia.
    destruct (cutover_round_spec Cut (Y + 1) ltac:(lia) Hclock Hmonth Hday Hwd)
      as (t' & f' & len' & -> & Hf' & Ht' & Hl' & HYf' & HMf' & HWf' & HTf' & HRf'). cbn [mbind option_bind].
    exists t', f', len'. rewrite HYf', HMf'. split_and!; try done; [by right|]. intros _.
    destruct (split_time t' Ht') as (Y' & k' & d' & s' & r' & Hm' & HYb' & Et').
    rewrite Et', time_to_fields in Hf' by (done || lia). injection Hf' as <-. cbn in HYf'.
    pose proof Hm as (Hok & Hs & Hr). pose proof Hm' as (Hok' & Hs' & Hr').
    pose proof (day_in_year _ _ _ Hok). pose proof (day_in_year _ _ _ Hok').
    pose proof (year_start_succ Y ltac:(lia)) as Hsucc. rewrite HYf' in *.
    rewrite En, Et'. unfold ticks. lia.
Qed.

Definition noon : TIME_FIELDS := mkFields 2024 2 29 12 30 15 500 0.

Lemma fields_time_fields_witness :
  exists t g, RtlTimeFieldsToTime noon = Some t /\ RtlTimeToTimeFields t = Some g /\ Day g = 29.
Proof.
  destruct (fields_time_fields noon eq_refl ltac:(vm_compute; discriminate))
    as (t & g & H1 & _ & H2 & _ & _ & H3 & _).
  exists t, g. split; [exact H1|]. split; [exact H2|exact H3].
Defined.

Lemma time_fields_time_witness :
  exists f, RtlTimeToTimeFields 133536834155009999 = Some f /\
  RtlTimeFieldsToTime f = Some 133536834155000000.
Proof.
  destruct (time_fields_time 133536834155009999 ltac:(lia)) as (f & H1 & _ & _ & H2).
  exists f. split; [exact H1|]. rewrite H2. reflexivity.
Defined.

Lemma seconds_roundtrip_witness :
  RtlTimeToSecondsSince1970 (RtlSecondsSince1970ToTime 1700000000) = Some 1700000000.
Proof. apply (seconds_roundtrip 1700000000 0); lia. Defined.

(** The last Sunday of October, at two o'clock. *)
Definition october_rule : TIME_FIELDS := mkFields 0 10 5 2 0 0 0 0.

Lemma cutover_right_day_witness :
  exists t f, RtlCutoverTimeToSystemTime october_rule 133536834155000000 false = Some (true, Some t) /\
  RtlTimeToTimeFields t = Some f /\ Weekday f = 0 /\ Day f = 27.
Proof.
  destruct (cutover_right_day october_rule 133536834155000000 (mkFields 2024 2 29 12 30 15 500 4) false)
    as (t & f & len & H1 & H2 & _ & _ & H3 & _);
    [reflexivity|unfold clock_ok; cbn; lia|cbn; lia..|vm_compute; reflexivity|cbn; lia|].
  exists t, f. split; [exact H1|]. split; [exact H2|]. split; [exact H3|].
  vm_compute in H1. injection H1 as <-. vm_compute in H2. injection H2 as <-. reflexivity.
Defined.

(** ** Deviations *)

(** Years past 30828 are accepted and overflow: the time is negative. *)
Lemma time_fields_overflow :
  RtlTimeFieldsToTime (mkFields 32767 2 28 12 30 15 500 0) = Some (-8611654503554551616).
Proof. vm_compute. reflexivity. Qed.
