(* ===== verification/RangeList.v ===== *)
(** Range lists: sdk/lib/rtl/rangelist.c.

    A list head with its entries is the list of the ranges in [Flink] order.  [None]
    is the use of an entry that has been freed. *)

From S2P Require Import Prelude.

Definition RTL_RANGE_LIST_ADD_SHARED : Z := 2.
Definition RTL_RANGE_SHARED : Z := 1.

(** [UserData] and [Owner] are pointers the functions only copy and compare. *)
Record RTL_RANGE := mkRange {
  Start : Z;
  End_ : Z;
  UserData : Z;
  Owner : Z;
  Attributes : Z;
  Flags : Z
}.

Record RTL_RANGE_LIST := mkRangeList {
  ListHead : list RTL_RANGE;
  rl_Flags : Z;
  Count : Z;
  Stamp : Z
}.

(** [Current] is the position of the entry the iterator points to. *)
Record RTL_RANGE_LIST_ITERATOR := mkIterator {
  it_Current : option nat;
  it_Stamp : Z
}.

Definition RtlInitializeRangeList : RTL_RANGE_LIST := mkRangeList [] 0 0 0.

(** [InsertTailList(&Current->Entry, ..)] inserts before the first entry that starts
    after the new range ends, or at the tail. *)
Fixpoint insert_range (r : RTL_RANGE) (l : list RTL_RANGE) : list RTL_RANGE :=
  match l with
  | [] => [r]
  | c :: l' => if End_ r <? Start c then r :: c :: l' else c :: insert_range r l'
  end.

Definition RtlAddRange (alloc_ok : bool) (RangeList : RTL_RANGE_LIST) (Start' End' Attributes' Flags' : Z)
    (UserData' Owner' : Z) : Z * RTL_RANGE_LIST :=
  if End' <? Start' then (STATUS_INVALID_PARAMETER, RangeList) else
  if negb alloc_ok then (STATUS_INSUFFICIENT_RESOURCES, RangeList) else
  let RangeEntry := mkRange Start' End' UserData' Owner' Attributes'
    (if has Flags' RTL_RANGE_LIST_ADD_SHARED then RTL_RANGE_SHARED else 0) in
  (STATUS_SUCCESS,
   mkRangeList (if Count RangeList =? 0 then ListHead RangeList ++ [RangeEntry]
                else insert_range RangeEntry (ListHead RangeList))
     (rl_Flags RangeList) (u32 (Count RangeList + 1)) (u32 (Stamp RangeList + 1))).

(** [alloc k] tells whether the [k]-th allocation succeeds. *)
Fixpoint copy_loop (alloc : nat -> bool) (k : nat) (Copy : RTL_RANGE_LIST) (l : list RTL_RANGE)
  : Z * RTL_RANGE_LIST :=
  match l with
  | [] => (STATUS_SUCCESS, mkRangeList (ListHead Copy) (rl_Flags Copy) (Count Copy)
                             (u32 (Stamp Copy + 1)))
  | r :: l' =>
      if negb (alloc k) then (STATUS_INSUFFICIENT_RESOURCES, Copy) else
      copy_loop alloc (S k)
        (mkRangeList (ListHead Copy ++ [r]) (rl_Flags Copy) (u32 (Count Copy + 1)) (Stamp Copy)) l'
  end.

Definition RtlCopyRangeList (alloc : nat -> bool) (CopyRangeList RangeList : RTL_RANGE_LIST)
  : Z * RTL_RANGE_LIST :=
  copy_loop alloc 0
    (mkRangeList (ListHead CopyRangeList) (rl_Flags RangeList) (Count CopyRangeList)
       (Stamp CopyRangeList)) (ListHead RangeList).

(** The loop reads [Entry->Flink] of an entry it has freed; [freed_readable] tells
    whether the freed memory still holds it. *)
Fixpoint delete_owner_loop (freed_readable : bool) (Owner' : Z) (kept l : list RTL_RANGE)
    (count stamp : Z) : option (list RTL_RANGE * Z * Z) :=
  match l with
  | [] => Some (kept, count, stamp)
  | r :: l' =>
      if Owner r =? Owner' then
        if freed_readable
        then delete_owner_loop freed_readable Owner' kept l' (u32 (count - 1)) (u32 (stamp + 1))
        else None
      else delete_owner_loop freed_readable Owner' (kept ++ [r]) l' count stamp
  end.

Definition RtlDeleteOwnersRanges (freed_readable : bool) (RangeList : RTL_RANGE_LIST) (Owner' : Z)
  : option (Z * RTL_RANGE_LIST) :=
  '(l, count, stamp) ← delete_owner_loop freed_readable Owner' [] (ListHead RangeList)
                         (Count RangeList) (Stamp RangeList);
  Some (STATUS_SUCCESS, mkRangeList l (rl_Flags RangeList) count stamp).

(** The list without the first entry that matches. *)
Fixpoint delete_range (Start' End' Owner' : Z) (l : list RTL_RANGE) : option (list RTL_RANGE) :=
  match l with
  | [] => None
  | r :: l' =>
      if (Start r =? Start') && (End_ r =? End') && (Owner r =? Owner') then Some l'
      else match delete_range Start' End' Owner' l' with
           | Some l' => Some (r :: l')
           | None => None
           end
  end.

Definition RtlDeleteRange (RangeList : RTL_RANGE_LIST) (Start' End' Owner' : Z)
  : Z * RTL_RANGE_LIST :=
  match delete_range Start' End' Owner' (ListHead RangeList) with
  | None => (STATUS_RANGE_NOT_FOUND, RangeList)
  | Some l => (STATUS_SUCCESS, mkRangeList l (rl_Flags RangeList) (u32 (Count RangeList - 1))
                                 (u32 (Stamp RangeList + 1)))
  end.

(** The checks for the gap that ends at [RangeMax]: [None] is not found, otherwise
    [RangeMin].  [Length] and [Alignment] are [ULONG]s. *)
Definition gap_min (RangeMax Minimum Length Alignment : Z) : option Z :=
  if u64 (RangeMax + u32 (Length - 1)) <? Minimum then None else
  let RangeMin := ROUND_DOWN (u64 (RangeMax - u32 (Length - 1))) Alignment in
  if (RangeMin <? Minimum) || (u64 (RangeMax - RangeMin) <? u32 (Length - 1)) then None
  else Some RangeMin.

(** The loop from the last entry backwards ([l] is the reversed list), with the
    largest address of the gap above the entry. *)
Fixpoint find_gap_loop (l : list RTL_RANGE) (RangeMax Minimum Length Alignment : Z) : option Z :=
  match l with
  | [] => gap_min RangeMax Minimum Length Alignment
  | CurrentEntry :: l' =>
      match gap_min RangeMax Minimum Length Alignment with
      | None => None
      | Some RangeMin =>
          if End_ CurrentEntry <? RangeMin then Some RangeMin
          else find_gap_loop l' (u64 (Start CurrentEntry - 1)) Minimum Length Alignment
      end
  end.

(** Status and [*Start] if it is written.  Flags, attribute mask and callback are
    not used by the code. *)
Definition RtlFindRange (RangeList : RTL_RANGE_LIST) (Minimum Maximum Length Alignment : Z)
  : Z * option Z :=
  if (Alignment =? 0) || (Length =? 0) then (STATUS_INVALID_PARAMETER, None) else
  match ListHead RangeList with
  | [] => (STATUS_SUCCESS, Some (ROUND_DOWN (u64 (Maximum - u32 (Length - 1))) Alignment))
  | _ =>
      match find_gap_loop (rev (ListHead RangeList)) Maximum Minimum Length Alignment with
      | Some Start' => (STATUS_SUCCESS, Some Start')
      | None => (STATUS_RANGE_NOT_FOUND, None)
      end
  end.

(** The stamp stays. *)
Definition RtlFreeRangeList (RangeList : RTL_RANGE_LIST) : RTL_RANGE_LIST :=
  mkRangeList [] 0 0 (Stamp RangeList).

Definition RtlGetFirstRange (RangeList : RTL_RANGE_LIST)
  : Z * RTL_RANGE_LIST_ITERATOR * option RTL_RANGE :=
  match ListHead RangeList with
  | [] => (STATUS_NO_MORE_ENTRIES, mkIterator None (Stamp RangeList), None)
  | r :: _ => (STATUS_SUCCESS, mkIterator (Some 0%nat) (Stamp RangeList), Some r)
  end.

(** Status, iterator and [*Range] ([None] for NULL or not written). *)
Definition RtlGetNextRange (RangeList : RTL_RANGE_LIST) (Iterator : RTL_RANGE_LIST_ITERATOR)
    (MoveForwards : bool) : option (Z * RTL_RANGE_LIST_ITERATOR * option RTL_RANGE) :=
  if negb (it_Stamp Iterator =? Stamp RangeList)
  then Some (STATUS_INVALID_PARAMETER, Iterator, None) else
  match it_Current Iterator with
  | None => Some (STATUS_NO_MORE_ENTRIES, Iterator, None)
  | Some i =>
      if (length (ListHead RangeList) <=? i)%nat then None else
      let at_end := (STATUS_NO_MORE_ENTRIES, mkIterator None (it_Stamp Iterator), None) in
      let next := if MoveForwards then Some (S i)
                  else match i with O => None | S i' => Some i' end in
      match next with
      | None => Some at_end
      | Some j =>
          match ListHead RangeList !! j with
          | None => Some at_end
          | Some r => Some (STATUS_SUCCESS, mkIterator (Some j) (it_Stamp Iterator), Some r)
          end
      end
  end.

Definition ULONGLONG_MAX : Z := 2 ^ 64 - 1.

(** The loop of [RtlInvertRangeList]; [prev] is the previous entry's [Range.End]. *)
Fixpoint invert_loop (alloc : nat -> bool) (k : nat) (Inverted : RTL_RANGE_LIST) (prev : option Z)
    (l : list RTL_RANGE) : Z * RTL_RANGE_LIST :=
  match l with
  | [] =>
      match prev with
      | None => (STATUS_SUCCESS, Inverted)
      | Some e =>
          if negb (u64 (e + 1) =? ULONGLONG_MAX)
          then RtlAddRange (alloc k) Inverted (u64 (e + 1)) ULONGLONG_MAX 0 0 0 0
          else (STATUS_SUCCESS, Inverted)
      end
  | c :: l' =>
      let add first :=
        let '(Status, Inverted) := RtlAddRange (alloc k) Inverted first (u64 (Start c - 1)) 0 0 0 0 in
        if negb (NT_SUCCESS Status) then (Status, Inverted)
        else invert_loop alloc (S k) Inverted (Some (End_ c)) l' in
      let skip := invert_loop alloc k Inverted (Some (End_ c)) l' in
      match prev with
      | None => if negb (Start c =? 0) then add 0 else skip
      | Some e => if negb (u64 (e + 1) =? Start c) then add (u64 (e + 1)) else skip
      end
  end.

Definition RtlInvertRangeList (alloc : nat -> bool) (InvertedRangeList RangeList : RTL_RANGE_LIST)
  : Z * RTL_RANGE_LIST :=
  invert_loop alloc 0 InvertedRangeList None (ListHead RangeList).

(** A range that does not conflict with [[Start', End']], as the code has it. *)
Definition no_conflict (r : RTL_RANGE) (Start' End' Flags' : Z) : bool :=
  ((End' <=? Start r) && (End' <? End_ r)) ||
  ((Start r <=? Start') && (End_ r <? Start') &&
   (negb (has Flags' RTL_RANGE_SHARED) || negb (has (Flags r) RTL_RANGE_SHARED))).

(** [*Available]; the callback decides about a range in conflict. *)
Definition RtlIsRangeAvailable (RangeList : RTL_RANGE_LIST) (Start' End' Flags' : Z)
    (Callback : option (RTL_RANGE -> bool)) : Z * bool :=
  (STATUS_SUCCESS,
   fold_left (fun Available r =>
     if negb (no_conflict r Start' End' Flags')
     then match Callback with Some f => f r | None => false end
     else Available) (ListHead RangeList) true).

(** The loop of [RtlMergeRangeLists] from the range the iterator is at; one round per
    entry of the second list. *)
Fixpoint merge_loop (alloc : nat -> bool) (k : nat) (fuel : nat) (Merged RangeList2 : RTL_RANGE_LIST)
    (Iterator : RTL_RANGE_LIST_ITERATOR) (Range : RTL_RANGE) (Flags' : Z)
  : option (Z * RTL_RANGE_LIST) :=
  match fuel with
  | O => None
  | S fuel' =>
      let '(Status, Merged) := RtlAddRange (alloc k) Merged (Start Range) (End_ Range)
        (Attributes Range) (Z.lor (Flags Range) Flags') (UserData Range) (Owner Range) in
      if negb (NT_SUCCESS Status) then Some (Status, Merged) else
      '(Status, Iterator, r) ← RtlGetNextRange RangeList2 Iterator true;
      if negb (NT_SUCCESS Status)
      then Some (if Status =? STATUS_NO_MORE_ENTRIES then STATUS_SUCCESS else Status, Merged) else
      Range ← r;
      merge_loop alloc (S k) fuel' Merged RangeList2 Iterator Range Flags'
  end.

Definition RtlMergeRangeLists (alloc : nat -> bool) (MergedRangeList RangeList1 RangeList2 : RTL_RANGE_LIST)
    (Flags' : Z) : option (Z * RTL_RANGE_LIST) :=
  let '(Status, Merged) := RtlCopyRangeList alloc MergedRangeList RangeList1 in
  if negb (NT_SUCCESS Status) then Some (Status, Merged) else
  match RtlGetFirstRange RangeList2 with
  | (Status, Iterator, None) =>
      Some (if Status =? STATUS_NO_MORE_ENTRIES then STATUS_SUCCESS else Status, Merged)
  | (_, Iterator, Some Range) =>
      merge_loop alloc (length (ListHead RangeList1)) (length (ListHead RangeList2)) Merged RangeList2
        Iterator Range Flags'
  end.

(** * Correctness *)

(** ** Sorted lists of disjoint ranges *)

Fixpoint ranges_ok (lo : Z) (l : list RTL_RANGE) : Prop :=
  match l with
  | [] => True
  | r :: l' => lo <= Start r <= End_ r /\ End_ r < 2 ^ 64 /\ ranges_ok (End_ r + 1) l'
  end.

Definition avoids (s e : Z) (r : RTL_RANGE) : Prop := e < Start r \/ End_ r < s.

Definition covers (l : list RTL_RANGE) (x : Z) : Prop := Exists (fun r => Start r <= x <= End_ r) l.

Record list_ok (rl : RTL_RANGE_LIST) : Prop := {
  lo_sorted : ranges_ok 0 (ListHead rl);
  lo_count : Count rl = Z.of_nat (length (ListHead rl));
  lo_short : Z.of_nat (length (ListHead rl)) < 2 ^ 32 - 1;
  lo_stamp : 0 <= Stamp rl < 2 ^ 32
}.

Lemma ranges_ok_mono lo lo' l : lo' <= lo -> ranges_ok lo l -> ranges_ok lo' l.
Proof. destruct l as [|r l]; [done|]. cbn. intros H (H1 & H2 & H3). split_and!; lia || done. Qed.

Lemma ranges_ok_bounds l : forall lo,
  ranges_ok lo l -> Forall (fun r => lo <= Start r <= End_ r /\ End_ r < 2 ^ 64) l.
Proof.
  induction l as [|r l IH]; intros lo H; [done|]. destruct H as (H1 & H2 & H3).
  constructor; [lia|]. eapply Forall_impl; [|apply (IH _ H3)]. cbn. lia.
Qed.

Lemma ranges_ok_app l1 : forall lo l2,
  ranges_ok lo (l1 ++ l2) <->
  ranges_ok lo l1 /\ ranges_ok lo l2 /\
  Forall (fun r => ranges_ok (End_ r + 1) l2) l1.
Proof.
  induction l1 as [|r l1 IH]; intros lo l2; cbn [app ranges_ok].
  { split; [intros H; split_and!; done|by intros (_ & H & _)]. }
  rewrite IH, Forall_cons_iff. split.
  - intros (H1 & H2 & H3 & H4 & H5). split_and!; try done; try lia.
    eapply ranges_ok_mono; [|done]. lia.
  - intros ((H1 & H2 & H3) & H4 & H5 & H6). split_and!; done || lia.
Qed.

Lemma insert_range_ok r l : forall lo,
  ranges_ok lo l -> lo <= Start r <= End_ r -> End_ r < 2 ^ 64 ->
  Forall (avoids (Start r) (End_ r)) l -> ranges_ok lo (insert_range r l).
Proof.
  induction l as [|c l IH]; intros lo Hl Hr Hm Ha; [cbn; lia|].
  apply Forall_cons_iff in Ha as [Hc Ha]. destruct Hl as (H1 & H2 & H3). cbn [insert_range].
  destruct (Z.ltb_spec (End_ r) (Start c)).
  - cbn. split_and!; done || lia.
  - destruct Hc as [Hc|Hc]; [lia|]. cbn. split_and!; [lia..|]. apply IH; done || lia.
Qed.

Lemma insert_range_perm r l : insert_range r l ≡ₚ r :: l.
Proof.
  induction l as [|c l IH]; [done|]. cbn [insert_range]. destruct (_ <? _); [done|].
  rewrite IH. apply Permutation_swap.
Qed.

Lemma delete_insert r l :
  Forall (fun c => Start c <> Start r) l ->
  delete_range (Start r) (End_ r) (Owner r) (insert_range r l) = Some l.
Proof.
  induction 1 as [|c l Hc Hl IH]; cbn [insert_range].
  { cbn. by rewrite !Z.eqb_refl. }
  destruct (_ <? _); cbn [delete_range]; [by rewrite !Z.eqb_refl|].
  rewrite (proj2 (Z.eqb_neq (Start c) (Start r)) Hc). cbn [andb]. by rewrite IH.
Qed.

Lemma covers_perm l l' x : l ≡ₚ l' -> covers l x <-> covers l' x.
Proof. unfold covers. intros H. by rewrite H. Qed.

(** The entry [RtlAddRange] makes. *)
Definition new_range (s e attr flags data owner : Z) : RTL_RANGE :=
  mkRange s e data owner attr (if has flags RTL_RANGE_LIST_ADD_SHARED then RTL_RANGE_SHARED else 0).

Lemma add_range rl s e attr flags data owner :
  list_ok rl -> s <= e ->
  RtlAddRange true rl s e attr flags data owner
  = (STATUS_SUCCESS,
     mkRangeList (insert_range (new_range s e attr flags data owner) (ListHead rl)) (rl_Flags rl)
       (Count rl + 1) (u32 (Stamp rl + 1))).
Proof.
  intros [Hs Hc Hl Hst] Hse. unfold RtlAddRange. rewrite (proj2 (Z.ltb_ge e s)) by done. cbn [negb].
  fold (new_range s e attr flags data owner). rewrite (u32_small (Count rl + 1)) by lia.
  destruct (Z.eqb_spec (Count rl) 0) as [E|]; [|done].
  destruct (ListHead rl); [done|simpl in Hc; lia].
Qed.

Lemma add_range_ok rl s e attr flags data owner :
  list_ok rl -> 0 <= s <= e -> e < 2 ^ 64 -> Forall (avoids s e) (ListHead rl) ->
  Z.of_nat (length (ListHead rl)) < 2 ^ 32 - 2 ->
  list_ok (snd (RtlAddRange true rl s e attr flags data owner)).
Proof.
  intros Hok Hse He Ha Hlen. rewrite add_range by (done || lia). pose proof Hok as [Hs Hc Hl Hst].
  constructor; cbn.
  - by apply insert_range_ok.
  - rewrite insert_range_perm. cbn [length]. lia.
  - rewrite insert_range_perm. cbn [length]. lia.
  - apply u32_range.
Qed.

(** C37.  Adding a range that overlaps none of the list keeps the list sorted and
    disjoint and adds just this range; deleting it again, by its bounds and owner,
    restores the list; each of the two changes the stamp that iterators check. *)
Theorem add_delete_range rl s e attr flags data owner :
  list_ok rl -> 0 <= s <= e -> e < 2 ^ 64 -> Forall (avoids s e) (ListHead rl) ->
  Z.of_nat (length (ListHead rl)) < 2 ^ 32 - 2 ->
  exists rl', RtlAddRange true rl s e attr flags data owner = (STATUS_SUCCESS, rl') /\ list_ok rl' /\
  ListHead rl' ≡ₚ new_range s e attr flags data owner :: ListHead rl /\ Stamp rl' <> Stamp rl /\
  exists rl'', RtlDeleteRange rl' s e owner = (STATUS_SUCCESS, rl'') /\
  ListHead rl'' = ListHead rl /\ Count rl'' = Count rl /\ Stamp rl'' <> Stamp rl'.
Proof.
  intros Hok Hse He Ha Hlen. pose proof (add_range_ok rl s e attr flags data owner Hok Hse He Ha Hlen) as Hok'.
  rewrite add_range in * by (done || lia). cbn [snd] in Hok'. pose proof Hok as [Hs Hc Hl Hst].
  assert (Hstamp : forall x, 0 <= x < 2 ^ 32 -> u32 (x + 1) <> x)
    by (intros x Hx; unfold u32; Z.div_mod_to_equations; lia).
  eexists. split; [reflexivity|]. split; [exact Hok'|]. cbn [ListHead Stamp Count].
  split; [apply insert_range_perm|]. split; [by apply Hstamp|].
  unfold RtlDeleteRange. cbn [ListHead Stamp Count rl_Flags].
  rewrite (delete_insert (new_range s e attr flags data owner)).
  2:{ apply Forall_forall. intros c Hcin. rewrite Forall_forall in Ha. specialize (Ha c Hcin).
      pose proof (ranges_ok_bounds _ _ Hs) as Hb. rewrite Forall_forall in Hb. specialize (Hb c Hcin).
      cbn. destruct Ha; lia. }
  eexists. split; [reflexivity|]. cbn [ListHead Stamp Count]. split; [done|]. split.
  - rewrite u32_small; lia.
  - apply Hstamp, u32_range.
Qed.

(** ** Searching *)

Section find.
Context (Minimum Length a : Z).
Hypothesis Hlen : 1 <= Length.
Hypothesis Ha : 0 <= a < 32.

(** An aligned place for the range below [M] that meets no range of the list. *)
Definition fits (l : list RTL_RANGE) (M s : Z) : Prop :=
  Minimum <= s /\ s + Length - 1 <= M /\ s mod 2 ^ a = 0 /\ Forall (avoids s (s + Length - 1)) l.

(** The highest aligned place below [M]. *)
Definition highest (M : Z) : Z := (M - (Length - 1)) - (M - (Length - 1)) mod 2 ^ a.

Lemma pow_a : 0 < 2 ^ a.
Proof. apply Z.pow_pos_nonneg; lia. Qed.

Lemma highest_spec M :
  highest M mod 2 ^ a = 0 /\ highest M + Length - 1 <= M /\
  forall s, s mod 2 ^ a = 0 -> s + Length - 1 <= M -> s <= highest M.
Proof.
  pose proof pow_a as Hp. unfold highest. set (x := M - (Length - 1)).
  pose proof (Z.mod_pos_bound x (2 ^ a) Hp) as Hb. split_and!.
  - rewrite Zminus_mod, Z.mod_mod, Z.sub_diag by lia. by apply Z.mod_0_l; lia.
  - lia.
  - intros s Hs Hle. assert (s <= x) by lia.
    assert (Es : s = 2 ^ a * (s / 2 ^ a)) by (rewrite (Z.div_mod s (2 ^ a)) at 1 by lia; lia).
    assert (Ex : x - x mod 2 ^ a = 2 ^ a * (x / 2 ^ a)) by (rewrite Z.mod_eq by lia; lia).
    rewrite Ex, Es. apply Z.mul_le_mono_nonneg_l; [lia|]. apply Z.div_le_mono; lia.
Qed.

Lemma gap_min_spec M :
  Length - 1 <= M < 2 ^ 32 ->
  gap_min M Minimum Length (2 ^ a) = if highest M <? Minimum then None else Some (highest M).
Proof.
  intros HM. destruct (highest_spec M) as (_ & Hle & _).
  assert (Hge : 0 <= highest M).
  { unfold highest. pose proof (Z.mod_le (M - (Length - 1)) (2 ^ a) ltac:(lia) pow_a). lia. }
  unfold gap_min. rewrite (u32_small (Length - 1)), (u64_small (M + _)), (u64_small (M - _)) by lia.
  rewrite round_down_pow2 by lia. fold (highest M). rewrite (u64_small (M - highest M)) by lia.
  rewrite (proj2 (Z.ltb_ge (M - highest M) (Length - 1))), orb_false_r by lia.
  destruct (Z.ltb_spec (M + (Length - 1)) Minimum); [|done].
  by rewrite (proj2 (Z.ltb_lt (highest M) Minimum)) by lia.
Qed.

(** The list from the top down, below [M]. *)
Fixpoint below (M : Z) (l : list RTL_RANGE) : Prop :=
  match l with
  | [] => True
  | c :: l' => Start c <= End_ c <= M /\ Length <= Start c /\ below (Start c - 1) l'
  end.

Lemma below_ends l : forall M, below M l -> Forall (fun r => End_ r <= M) l.
Proof.
  induction l as [|c l IH]; intros M H; [done|]. destruct H as (H1 & _ & H3).
  constructor; [lia|]. eapply Forall_impl; [|apply (IH _ H3)]. cbn. lia.
Qed.

Lemma find_gap_loop_spec l : forall M,
  below M l -> Length - 1 <= M < 2 ^ 32 ->
  match find_gap_loop l M Minimum Length (2 ^ a) with
  | Some s => fits l M s /\ forall s', fits l M s' -> s' <= s
  | None => forall s', ~ fits l M s'
  end.
Proof.
  induction l as [|c l IH]; intros M Hb HM; cbn [find_gap_loop]; rewrite gap_min_spec by done;
    destruct (highest_spec M) as (Hal & Hle & Hbest); destruct (Z.ltb_spec (highest M) Minimum) as [Hlt|Hge].
  - intros s' (H1 & H2 & H3 & _). specialize (Hbest s' H3 H2). lia.
  - split; [by split_and!|]. intros s' (_ & H2 & H3 & _). by apply Hbest.
  - intros s' (H1 & H2 & H3 & _). specialize (Hbest s' H3 H2). lia.
  - pose proof Hb as (H1 & H2 & H3). destruct (Z.ltb_spec (End_ c) (highest M)) as [Hc|Hc].
    + split.
      * split_and!; try done. constructor; [by right|].
        eapply Forall_impl; [|apply (below_ends _ _ H3)]. intros r Hr. right. cbn in Hr. lia.
      * intros s' (_ & Hs' & Hs'' & _). by apply Hbest.
    + assert (Hiff : forall s', fits (c :: l) M s' <-> fits l (Start c - 1) s').
      { intros s'. unfold fits. rewrite Forall_cons_iff. split.
        - intros (E1 & E2 & E3 & E4 & E5). specialize (Hbest s' E3 E2).
          destruct E4 as [E4|E4]; [|lia]. split_and!; done || lia.
        - intros (E1 & E2 & E3 & E4). split_and!; try done; [lia|]. left. lia. }
      specialize (IH (Start c - 1) H3 ltac:(lia)). rewrite u64_small by lia.
      destruct (find_gap_loop _ _ _ _ _) as [s|].
      * destruct IH as [I1 I2]. split; [by apply Hiff|]. intros s' Hs'. by apply I2, Hiff.
      * intros s' Hs'. by apply (IH s'), Hiff.
Qed.

Lemma below_rev l : forall lo M,
  ranges_ok lo l -> Forall (fun r => Length <= Start r /\ End_ r <= M) l -> below M (rev l).
Proof.
  induction l as [|c l IH] using rev_ind; intros lo M Hok HF; [done|].
  rewrite rev_app_distr. cbn [rev app below]. apply ranges_ok_app in Hok as (H1 & H2 & H3).
  apply Forall_app in HF as [HF Hc]. apply Forall_cons_iff in Hc as [Hc _]. destruct H2 as (H2 & _ & _).
  split; [lia|]. split; [lia|]. apply (IH lo); [done|].
  apply Forall_forall. intros r Hr. rewrite Forall_forall in HF, H3.
  specialize (HF r Hr). specialize (H3 r Hr). destruct H3 as [H3 _]. lia.
Qed.
End find.

Lemma Forall_rev_iff {A} (P : A -> Prop) l : Forall P (rev l) <-> Forall P l.
Proof. split; [intros H; rewrite <- (rev_involutive l)|]; by apply Forall_rev. Qed.

(** C33.  [RtlFindRange] finds the highest place: on a non-empty sorted list of
    disjoint ranges that lie below [Maximum], itself below 2^32, and leave room for the
    length below them, and for an alignment that is a power of two, it returns the highest aligned address between [Minimum] and [Maximum] at
    which the length fits without meeting a range, and reports
    [STATUS_RANGE_NOT_FOUND] exactly if there is none. *)
Theorem find_range_highest rl Minimum Maximum Length a :
  list_ok rl -> ListHead rl <> [] -> 0 <= Minimum -> 1 <= Length <= Maximum + 1 -> Maximum < 2 ^ 32 ->
  0 <= a < 32 -> Forall (fun r => Length <= Start r /\ End_ r <= Maximum) (ListHead rl) ->
  match RtlFindRange rl Minimum Maximum Length (2 ^ a) with
  | (Status, Some s) => Status = STATUS_SUCCESS /\ fits Minimum Length a (ListHead rl) Maximum s /\
      forall s', fits Minimum Length a (ListHead rl) Maximum s' -> s' <= s
  | (Status, None) => Status = STATUS_RANGE_NOT_FOUND /\
      forall s', ~ fits Minimum Length a (ListHead rl) Maximum s'
  end.
Proof.
  intros Hok Hne Hmin Hlen Hmax Ha HF. unfold RtlFindRange.
  pose proof (pow_a a Ha). rewrite (proj2 (Z.eqb_neq (2 ^ a) 0)), (proj2 (Z.eqb_neq Length 0)) by lia.
  cbn [orb]. pose proof (below_rev Length (ListHead rl) 0 Maximum (lo_sorted _ Hok) HF) as Hb.
  pose proof (find_gap_loop_spec Minimum Length a ltac:(lia) Ha (rev (ListHead rl)) Maximum Hb ltac:(lia)) as Hs.
  assert (Hfit : forall s, fits Minimum Length a (rev (ListHead rl)) Maximum s <->
                           fits Minimum Length a (ListHead rl) Maximum s)
    by (intros s; unfold fits; by rewrite Forall_rev_iff).
  destruct (ListHead rl) as [|c l] eqn:El; [done|]. destruct (find_gap_loop _ _ _ _ _) as [s|].
  - destruct Hs as [H1 H2]. split; [done|]. split; [by apply Hfit|]. intros s' Hs'. by apply H2, Hfit.
  - split; [done|]. intros s' Hs'. by apply (Hs s'), Hfit.
Qed.

(** ** Inversion *)

Lemma insert_tail r l :
  Start r <= End_ r -> Forall (fun c => Start c <= End_ c /\ End_ c < Start r) l ->
  insert_range r l = l ++ [r].
Proof.
  intros Hr. induction 1 as [|c l Hc Hl IH]; [done|]. cbn [insert_range app].
  rewrite (proj2 (Z.ltb_ge (End_ r) (Start c))) by lia. by rewrite IH.
Qed.

(** Adding behind all ranges of a list. *)
Lemma add_behind rl s e :
  list_ok rl -> 0 <= s <= e -> e < 2 ^ 64 -> Forall (fun r => End_ r < s) (ListHead rl) ->
  Z.of_nat (length (ListHead rl)) < 2 ^ 31 ->
  exists rl', RtlAddRange true rl s e 0 0 0 0 = (STATUS_SUCCESS, rl') /\ list_ok rl' /\
    ListHead rl' = ListHead rl ++ [mkRange s e 0 0 0 0].
Proof.
  intros Hok Hse He Hall Hlen.
  assert (Hb : Forall (fun r => Start r <= End_ r /\ End_ r < s) (ListHead rl)).
  { pose proof (ranges_ok_bounds _ _ (lo_sorted _ Hok)) as Hb. rewrite Forall_forall in *.
    intros r Hr. specialize (Hb r Hr). specialize (Hall r Hr). cbn in *. lia. }
  pose proof (add_range_ok rl s e 0 0 0 0 Hok Hse He) as Hok'.
  rewrite add_range in * by (done || lia). eexists. split; [reflexivity|]. split.
  - apply Hok'; [|lia]. eapply Forall_impl; [|exact Hall]. intros r Hr. right. cbn in Hr. lia.
  - cbn [ListHead]. rewrite insert_tail; [done|cbn; lia|exact Hb].
Qed.

Lemma covers_app l1 l2 x : covers (l1 ++ l2) x <-> covers l1 x \/ covers l2 x.
Proof. apply Exists_app. Qed.

Lemma covers_nil x : ~ covers [] x.
Proof. intros H. inversion H. Qed.

Lemma covers_one r x : covers [r] x <-> Start r <= x <= End_ r.
Proof. unfold covers. rewrite Exists_cons, Exists_nil. tauto. Qed.

Lemma covers_above l lo x : ranges_ok lo l -> covers l x -> lo <= x < 2 ^ 64.
Proof.
  intros Hok (r & Hr & Hx)%Exists_exists. apply ranges_ok_bounds in Hok. rewrite Forall_forall in Hok.
  specialize (Hok r Hr). cbn in Hok. lia.
Qed.

(** The first address not dealt with yet. *)
Definition after (prev : option Z) : Z := match prev with Some e => e + 1 | None => 0 end.

Lemma invert_loop_spec l : forall k I prev,
  list_ok I -> ranges_ok (after prev) l -> Forall (fun r => End_ r < after prev) (ListHead I) ->
  (prev <> None \/ l <> []) -> 0 <= after prev <= 2 ^ 64 - 2 -> Forall (fun r => End_ r <= 2 ^ 64 - 3) l ->
  Z.of_nat (length (ListHead I) + length l) < 2 ^ 31 ->
  exists I', invert_loop (fun _ => true) k I prev l = (STATUS_SUCCESS, I') /\ list_ok I' /\
  forall x, 0 <= x < 2 ^ 64 ->
    (covers (ListHead I') x <-> covers (ListHead I) x \/ (after prev <= x /\ ~ covers l x)).
Proof.
  induction l as [|c l IH]; intros k I prev HI Hl Hends Hne Hp Hmax Hlen; cbn [invert_loop].
  - destruct prev as [e|]; [|destruct Hne as [H|H]; by destruct H]. cbn [after] in *. cbn [length] in Hlen.
    rewrite (u64_small (e + 1)) by lia. unfold ULONGLONG_MAX.
    rewrite (proj2 (Z.eqb_neq (e + 1) _)) by lia. cbn [negb].
    destruct (add_behind I (e + 1) (2 ^ 64 - 1)) as (I' & H1 & H2 & H3); [done|lia|lia|done|lia|].
    exists I'. split; [done|]. split; [done|]. intros x Hx. rewrite H3, covers_app, covers_one. cbn [Start End_].
    pose proof (covers_nil x). intuition lia.
  - destruct Hl as (Hc1 & Hc2 & Hl). apply Forall_cons_iff in Hmax as [Hcm Hmax]. cbn [length] in Hlen.
    assert (Hskip : forall k I0, list_ok I0 -> Forall (fun r => End_ r < Start c) (ListHead I0) ->
      Z.of_nat (length (ListHead I0) + length l) < 2 ^ 31 ->
      (forall x, 0 <= x < 2 ^ 64 -> (covers (ListHead I0) x <->
         covers (ListHead I) x \/ after prev <= x < Start c)) ->
      exists I', invert_loop (fun _ => true) k I0 (Some (End_ c)) l = (STATUS_SUCCESS, I') /\ list_ok I' /\
      forall x, 0 <= x < 2 ^ 64 ->
        (covers (ListHead I') x <-> covers (ListHead I) x \/ (after prev <= x /\ ~ covers (c :: l) x))).
    { intros k0 I0 H1 H2 H3 H4.
      destruct (IH k0 I0 (Some (End_ c))) as (I' & HI' & Hok' & Hcov); try done; cbn [after]; try lia.
      - eapply Forall_impl; [|exact H2]. cbn. lia.
      - by left.
      - exists I'. split; [done|]. split; [done|]. intros x Hx. rewrite Hcov, H4 by done. cbn [after].
        change (c :: l) with ([c] ++ l). rewrite covers_app, covers_one.
        pose proof (covers_above l (End_ c + 1) x Hl).
        destruct (Z.lt_ge_cases x (Start c)), (Z.le_gt_cases x (End_ c)); intuition lia. }
    assert (Hadd : forall p, p = after prev -> p < Start c ->
      exists I', (let '(Status, Inverted) := RtlAddRange true I p (u64 (Start c - 1)) 0 0 0 0 in
         if negb (NT_SUCCESS Status) then (Status, Inverted)
         else invert_loop (fun _ => true) (S k) Inverted (Some (End_ c)) l) = (STATUS_SUCCESS, I') /\ list_ok I' /\
      forall x, 0 <= x < 2 ^ 64 ->
        (covers (ListHead I') x <-> covers (ListHead I) x \/ (after prev <= x /\ ~ covers (c :: l) x))).
    { intros p -> Hlt. rewrite (u64_small (Start c - 1)) by lia.
      destruct (add_behind I (after prev) (Start c - 1)) as (I0 & -> & H2 & H3); [done|lia|lia|done|lia|].
      change (negb (NT_SUCCESS STATUS_SUCCESS)) with false. cbn match. apply Hskip; [done| | |].
      - rewrite H3, Forall_app. split; [eapply Forall_impl; [|exact Hends]; cbn; lia|].
        constructor; [cbn; lia|done].
      - rewrite H3, length_app. cbn [length]. lia.
      - intros x Hx. rewrite H3, covers_app, covers_one. cbn [Start End_]. intuition lia. }
    assert (Heq : after prev = Start c ->
      exists I', invert_loop (fun _ => true) k I (Some (End_ c)) l = (STATUS_SUCCESS, I') /\ list_ok I' /\
      forall x, 0 <= x < 2 ^ 64 ->
        (covers (ListHead I') x <-> covers (ListHead I) x \/ (after prev <= x /\ ~ covers (c :: l) x))).
    { intros E. apply Hskip; [done|by rewrite <- E|lia|]. intros x Hx. rewrite E. intuition lia. }
    destruct prev as [e|]; cbn [after] in *.
    + rewrite (u64_small (e + 1)) by lia.
      destruct (Z.eqb_spec (e + 1) (Start c)); cbn [negb]; [by apply Heq|apply Hadd; [done|lia]].
    + destruct (Z.eqb_spec (Start c) 0); cbn [negb]; [apply Heq; lia|apply Hadd; [done|lia]].
Qed.

Lemma init_ok : list_ok RtlInitializeRangeList.
Proof. constructor; cbn; done || lia. Qed.

(** [RtlInvertRangeList] computes the complement: from a non-empty sorted list of
    disjoint ranges that end before the last two addresses it makes, in an empty
    list, a sorted list of disjoint ranges that covers exactly the 64 bit addresses
    the list does not cover. *)
Theorem invert_complement rl :
  list_ok rl -> ListHead rl <> [] -> Forall (fun r => End_ r <= 2 ^ 64 - 3) (ListHead rl) ->
  Z.of_nat (length (ListHead rl)) < 2 ^ 31 ->
  exists inv, RtlInvertRangeList (fun _ => true) RtlInitializeRangeList rl = (STATUS_SUCCESS, inv) /\
  list_ok inv /\
  forall x, 0 <= x < 2 ^ 64 -> (covers (ListHead inv) x <-> ~ covers (ListHead rl) x).
Proof.
  intros Hok Hne Hmax Hlen.
  destruct (invert_loop_spec (ListHead rl) 0 RtlInitializeRangeList None) as (I' & H1 & H2 & H3);
    [apply init_ok|apply Hok|done|by right|cbn; lia|done|done|].
  - exists I'. split; [done|]. split; [done|]. intros x Hx. rewrite H3 by done. cbn [after ListHead RtlInitializeRangeList].
    pose proof (covers_nil x). intuition lia.
Qed.

(** ** Copying and merging *)

Lemma copy_loop_spec l : forall k C,
  0 <= Count C -> Count C + Z.of_nat (length l) < 2 ^ 32 ->
  copy_loop (fun _ => true) k C l
  = (STATUS_SUCCESS, mkRangeList (ListHead C ++ l) (rl_Flags C) (Count C + Z.of_nat (length l))
                       (u32 (Stamp C + 1))).
Proof.
  induction l as [|r l IH]; intros k C H0 Hc; cbn [copy_loop length] in *.
  - by rewrite app_nil_r, Z.add_0_r.
  - cbn [negb]. rewrite u32_small, IH by (cbn; lia). cbn [ListHead rl_Flags Count Stamp].
    rewrite <- app_assoc. do 2 f_equal. lia.
Qed.

(** The entry made for a range of the second list. *)
Definition reflag (flags : Z) (r : RTL_RANGE) : RTL_RANGE :=
  new_range (Start r) (End_ r) (Attributes r) (Z.lor (Flags r) flags) (UserData r) (Owner r).

Lemma avoids_perm s e l l' : l ≡ₚ l' -> Forall (avoids s e) l -> Forall (avoids s e) l'.
Proof. intros H. by rewrite H. Qed.

Lemma merge_loop_spec rl2 flags fuel : forall k i M r,
  list_ok rl2 -> list_ok M -> (i + fuel)%nat = length (ListHead rl2) -> ListHead rl2 !! i = Some r ->
  Forall (fun r => Forall (avoids (Start r) (End_ r)) (ListHead M)) (drop i (ListHead rl2)) ->
  Z.of_nat (length (ListHead M) + fuel) < 2 ^ 31 ->
  exists M', merge_loop (fun _ => true) k fuel M rl2 (mkIterator (Some i) (Stamp rl2)) r flags
    = Some (STATUS_SUCCESS, M') /\ list_ok M' /\
  ListHead M' ≡ₚ (reflag flags <$> drop i (ListHead rl2)) ++ ListHead M.
Proof.
  induction fuel as [|fuel IH]; intros k i M r H2 HM Hi Hr Hav Hlen.
  { apply lookup_lt_Some in Hr. lia. }
  pose proof (drop_S _ _ _ Hr) as Hdrop. rewrite Hdrop in Hav |- *.
  apply Forall_cons_iff in Hav as [Hav1 Hav].
  pose proof (lo_sorted _ H2) as Hs. pose proof (ranges_ok_bounds _ _ Hs) as Hb.
  apply (Forall_lookup_1 _ _ _ _ Hb) in Hr as Hbr. cbn in Hbr.
  rewrite <- (take_drop i (ListHead rl2)), Hdrop in Hs. apply ranges_ok_app in Hs as (_ & Hs & _).
  destruct Hs as (_ & _ & Hs).
  cbn [merge_loop]. pose proof (add_range_ok M (Start r) (End_ r) (Attributes r) (Z.lor (Flags r) flags)
    (UserData r) (Owner r) HM ltac:(lia) ltac:(lia) Hav1 ltac:(lia)) as HM'.
  rewrite add_range in HM' |- * by (done || lia). cbn [snd] in HM'.
  set (M1 := mkRangeList _ _ _ _) in *. change (negb (NT_SUCCESS STATUS_SUCCESS)) with false. cbn match.
  assert (HP1 : ListHead M1 ≡ₚ reflag flags r :: ListHead M) by apply insert_range_perm.
  unfold RtlGetNextRange. cbn [it_Stamp it_Current]. rewrite Z.eqb_refl. cbn [negb].
  pose proof (lookup_lt_Some _ _ _ Hr) as Hlt. rewrite (proj2 (Nat.leb_gt _ _) Hlt).
  destruct (ListHead rl2 !! S i) as [r'|] eqn:Hr'; cbn [mbind option_bind].
  - change (negb (NT_SUCCESS STATUS_SUCCESS)) with false. cbn match.
    destruct (IH (S k) (S i) M1 r') as (M' & -> & HM2 & HP); try done; [lia| | |].
    + apply Forall_forall. intros q Hq. apply (avoids_perm _ _ (reflag flags r :: ListHead M)); [by rewrite HP1|].
      rewrite Forall_forall in Hav. specialize (Hav q Hq). constructor; [|done].
      apply ranges_ok_bounds in Hs. rewrite Forall_forall in Hs. specialize (Hs q Hq). cbn in Hs.
      right. cbn. lia.
    + rewrite HP1. cbn [length]. lia.
    + exists M'. split; [done|]. split; [done|]. rewrite HP, HP1. cbn [fmap list_fmap app].
      symmetry. apply Permutation_middle.
  - change (negb (NT_SUCCESS STATUS_NO_MORE_ENTRIES)) with true. cbn match. rewrite Z.eqb_refl.
    exists M1. split; [done|]. split; [done|]. rewrite HP1.
    rewrite (drop_ge _ (S i)) by (by apply lookup_ge_None_1). done.
Qed.

Lemma covers_reflag flags l x : covers (reflag flags <$> l) x <-> covers l x.
Proof. unfold covers. rewrite Exists_fmap. done. Qed.

(** [RtlMergeRangeLists] of two sorted lists whose ranges do not meet ends, and
    yields in an empty list a sorted list of disjoint ranges with the entries of
    both, covering exactly what one of the two covers. *)
Theorem merge_union rl1 rl2 flags :
  list_ok rl1 -> list_ok rl2 ->
  Forall (fun r => Forall (avoids (Start r) (End_ r)) (ListHead rl1)) (ListHead rl2) ->
  Z.of_nat (length (ListHead rl1) + length (ListHead rl2)) < 2 ^ 31 ->
  exists m, RtlMergeRangeLists (fun _ => true) RtlInitializeRangeList rl1 rl2 flags
    = Some (STATUS_SUCCESS, m) /\ list_ok m /\
  ListHead m ≡ₚ (reflag flags <$> ListHead rl2) ++ ListHead rl1 /\
  forall x, covers (ListHead m) x <-> covers (ListHead rl1) x \/ covers (ListHead rl2) x.
Proof.
  intros H1 H2 Hav Hlen. unfold RtlMergeRangeLists, RtlCopyRangeList.
  rewrite copy_loop_spec by (cbn; lia). change (negb (NT_SUCCESS STATUS_SUCCESS)) with false. cbn match.
  cbn [ListHead rl_Flags Count Stamp RtlInitializeRangeList app]. rewrite Z.add_0_l.
  set (C := mkRangeList _ _ _ _).
  assert (HC : list_ok C).
  { pose proof H1 as [Hs _ _ _]. constructor; cbn; [done|done|lia|]. by split. }
  assert (Hfin : forall m, ListHead m ≡ₚ (reflag flags <$> ListHead rl2) ++ ListHead rl1 -> forall x,
    covers (ListHead m) x <-> covers (ListHead rl1) x \/ covers (ListHead rl2) x).
  { intros m Hm x. rewrite (covers_perm _ _ x Hm), covers_app, covers_reflag. tauto. }
  unfold RtlGetFirstRange. destruct (ListHead rl2) as [|r l2] eqn:E2.
  - rewrite Z.eqb_refl. exists C. split; [done|]. split; [done|]. split; [done|]. by apply Hfin.
  - rewrite <- E2 in *.
    destruct (merge_loop_spec rl2 flags (length (ListHead rl2)) (length (ListHead rl1)) 0 C r)
      as (m & -> & Hm & HP); try done; [by rewrite E2|].
    rewrite drop_0 in HP. exists m. split; [done|]. split; [done|]. split; [done|]. by apply Hfin.
Qed.

(** ** Examples *)

Definition example_range (s e : Z) : RTL_RANGE := mkRange s e 0 1 0 0.

Definition example_list : RTL_RANGE_LIST :=
  mkRangeList [example_range 0x100 0x1FF; example_range 0x3F8 0x3FF] 0 2 2.

Lemma example_list_ok : list_ok example_list.
Proof. constructor; cbn; [split_and!; lia || done|done|lia|lia]. Defined.

Lemma add_delete_range_witness :
  exists rl', RtlAddRange true example_list 0x200 0x2FF 0 0 0 7 = (STATUS_SUCCESS, rl') /\
  list_ok rl' /\ length (ListHead rl') = 3%nat.
Proof.
  destruct (add_delete_range example_list 0x200 0x2FF 0 0 0 7 example_list_ok) as (rl' & H1 & H2 & H3 & _);
    [lia|lia| |cbn; lia|].
  - constructor; [right; cbn; lia|]. constructor; [left; cbn; lia|constructor].
  - exists rl'. split; [exact H1|]. split; [exact H2|].
    injection H1 as <-. reflexivity.
Defined.

Lemma find_range_highest_witness :
  exists s, RtlFindRange example_list 0x80 0x3FF 0x80 (2 ^ 4) = (STATUS_SUCCESS, Some s) /\
  s = 0x370 /\ fits 0x80 0x80 4 (ListHead example_list) 0x3FF s.
Proof.
  assert (HF : Forall (fun r => 0x80 <= Start r /\ End_ r <= 0x3FF) (ListHead example_list))
    by (repeat constructor; cbn; lia).
  pose proof (find_range_highest example_list 0x80 0x3FF 0x80 4 example_list_ok ltac:(discriminate)
    ltac:(lia) ltac:(lia) ltac:(lia) ltac:(lia) HF) as H.
  assert (E : RtlFindRange example_list 0x80 0x3FF 0x80 (2 ^ 4) = (STATUS_SUCCESS, Some 0x370))
    by (vm_compute; reflexivity).
  rewrite E in H. destruct H as (_ & H & _). exists 0x370. by split_and!.
Defined.

Lemma invert_complement_witness :
  exists inv, RtlInvertRangeList (fun _ => true) RtlInitializeRangeList example_list
    = (STATUS_SUCCESS, inv) /\ list_ok inv /\ covers (ListHead inv) 0x200.
Proof.
  destruct (invert_complement example_list example_list_ok) as (inv & H1 & H2 & H3);
    [discriminate|repeat constructor; cbn; lia|cbn; lia|].
  exists inv. split; [exact H1|]. split; [exact H2|]. apply H3; [lia|].
  unfold covers. cbn. intros H. inversion H as [? ? Hx|? ? Hx]; [cbn in Hx; lia|].
  inversion Hx as [? ? Hy|? ? Hy]; [cbn in Hy; lia|inversion Hy].
Defined.

Lemma merge_union_witness :
  exists m, RtlMergeRangeLists (fun _ => true) RtlInitializeRangeList example_list
    (mkRangeList [example_range 0x200 0x2FF] 0 1 1) 0 = Some (STATUS_SUCCESS, m) /\
  list_ok m /\ length (ListHead m) = 3%nat.
Proof.
  destruct (merge_union example_list (mkRangeList [example_range 0x200 0x2FF] 0 1 1) 0 example_list_ok)
    as (m & H1 & H2 & H3 & _); [constructor; cbn; lia| |cbn; lia|].
  - constructor; [|constructor]. constructor; [right; cbn; lia|]. constructor; [left; cbn; lia|constructor].
  - exists m. split; [exact H1|]. split; [exact H2|]. rewrite H3. reflexivity.
Defined.

(** ** Deviations *)

(** A range above [Maximum] makes [RtlFindRange] return an address above [Maximum]. *)
Lemma find_range_above_maximum :
  RtlFindRange (mkRangeList [example_range 1000 1999] 0 1 1) 0 500 10 (2 ^ 0)
  = (STATUS_SUCCESS, Some 990).
Proof. vm_compute. reflexivity. Qed.

(** A gap at the bottom that is too small wraps below zero and is taken for a fit. *)
Lemma find_range_wraps :
  RtlFindRange (mkRangeList [example_range 5 9] 0 1 1) 0 9 10 (2 ^ 0)
  = (STATUS_SUCCESS, Some 4294967291).
Proof. vm_compute. reflexivity. Qed.

(** In an empty list [Minimum] is not looked at. *)
Lemma find_range_empty_minimum :
  RtlFindRange RtlInitializeRangeList 400 500 1000 (2 ^ 0) = (STATUS_SUCCESS, Some 4294966797).
Proof. vm_compute. reflexivity. Qed.

(** Inverting a list that reaches the last address adds a range over everything. *)
Lemma invert_last_address :
  snd (RtlInvertRangeList (fun _ => true) RtlInitializeRangeList
         (mkRangeList [example_range 0 ULONGLONG_MAX] 0 1 1))
  = mkRangeList [mkRange 0 ULONGLONG_MAX 0 0 0 0] 0 1 1.
Proof. vm_compute. reflexivity. Qed.

(** A range whose last address is the first one of an entry is called available. *)
Lemma available_touching :
  RtlIsRangeAvailable (mkRangeList [example_range 10 20] 0 1 1) 5 10 0 None = (STATUS_SUCCESS, true).
Proof. vm_compute. reflexivity. Qed.

(** A later callback overrules an earlier refusal. *)
Lemma available_callback_last :
  RtlIsRangeAvailable (mkRangeList [example_range 10 20; example_range 30 40] 0 2 2) 15 35 0
    (Some (fun r => 30 <=? Start r)) = (STATUS_SUCCESS, true).
Proof. vm_compute. reflexivity. Qed.

(** [RtlDeleteOwnersRanges] reads the link of the entry it has just freed. *)
Lemma delete_owner_reads_freed :
  RtlDeleteOwnersRanges false example_list 1 = None.
Proof. vm_compute. reflexivity. Qed.

(** An iterator stays valid for a list that has been freed. *)
Lemma free_keeps_stamp :
  let '(_, it, _) := RtlGetFirstRange example_list in
  RtlGetNextRange (RtlFreeRangeList example_list) it true = None.
Proof. vm_compute. reflexivity. Qed.

(** Merging drops the shared flag of the second list. *)
Lemma merge_drops_shared :
  option_map (fun p => map Flags (ListHead (snd p)))
    (RtlMergeRangeLists (fun _ => true) RtlInitializeRangeList RtlInitializeRangeList
       (mkRangeList [mkRange 1 2 0 0 0 RTL_RANGE_SHARED] 0 1 1) 0) = Some [0].
Proof. vm_compute. reflexivity. Qed.
