(* ===== verification/RtlUtf8.v ===== *)
(** UTF-16 and UTF-8: sdk/lib/rtl/utf8.c.

    A string of [WCHAR]s is the list of its 16 bit units, a string of [CHAR]s the list
    of its bytes (as [BYTE]s); a destination is the list of the elements of its buffer
    and [None] for NULL.  [None] of the option monad is an access outside a buffer. *)

From S2P Require Import Prelude Bytes.

(** ** From UTF-16 to UTF-8 *)

(** The character at unit [i] of [n]: its code, the index of its last unit, and whether
    it had to be replaced. *)
Definition decode_utf16 (uni_src : list Z) (n i : Z) : option (Z * Z * bool) :=
  ch ← rd uni_src i;
  if (0xdc00 <=? ch) && (ch <=? 0xdfff) then Some (0xfffd, i, true)
  else if (0xd800 <=? ch) && (ch <=? 0xdbff) then
    if i + 1 <? n then
      let ch := shl32 (ch - 0xd800) 10 in
      next ← rd uni_src (i + 1);
      if (0xdc00 <=? next) && (next <=? 0xdfff)
      then Some (u32 (Z.lor ch (next - 0xdc00) + 0x010000), i + 1, false)
      else Some (0xfffd, i, true)
    else Some (0xfffd, i, true)
  else Some (ch, i, false).

(** The bytes of a character; [None] if the length would stay unset. *)
Definition encode_utf8 (ch : Z) : option (list Z) :=
  let trail k := Z.lor 0x80 (Z.land (Z.shiftr ch k) 0x3f) in
  if ch <? 0x80 then Some [Z.land ch 0x7f]
  else if ch <? 0x800 then Some [Z.lor 0xc0 (Z.land (Z.shiftr ch 6) 0x1f); trail 0]
  else if ch <? 0x10000 then Some [Z.lor 0xe0 (Z.land (Z.shiftr ch 12) 0x0f); trail 6; trail 0]
  else if ch <? 0x200000
  then Some [Z.lor 0xf0 (Z.land (Z.shiftr ch 18) 0x07); trail 12; trail 6; trail 0]
  else None.

(** The destination (its memory, the place to write to and the bytes left), the bytes
    written and the status. *)
Record utf8_out := mkOut8 {
  o8_dest : option (mem * Z * Z);
  o8_written : Z;
  o8_status : Z
}.

(** The bytes [utf8_ch] of a character are stored, or there is no room for them. *)
Definition put_utf8 (utf8_ch : list Z) (o : utf8_out) : option utf8_out :=
  let len := Z.of_nat (length utf8_ch) in
  match o8_dest o with
  | None => Some (mkOut8 None (u32 (o8_written o + len)) (o8_status o))
  | Some (m, p, max) =>
      if len <=? max then
        m ← wr_bytes m p utf8_ch;
        Some (mkOut8 (Some (m, p + len, max - len)) (u32 (o8_written o + len)) (o8_status o))
      else Some (mkOut8 (Some (m, p, 0)) (o8_written o) STATUS_BUFFER_TOO_SMALL)
  end.

(** Each round takes a unit at least, so one round more than units suffices. *)
Fixpoint unicode_loop (fuel : nat) (uni_src : list Z) (n i : Z) (o : utf8_out) : option utf8_out :=
  match fuel with
  | O => None
  | S fuel' =>
      if i <? n then
        '(ch, i, bad) ← decode_utf16 uni_src n i;
        let o := if bad : bool then mkOut8 (o8_dest o) (o8_written o) STATUS_SOME_NOT_MAPPED else o in
        utf8_ch ← encode_utf8 ch;
        o ← put_utf8 utf8_ch o;
        unicode_loop fuel' uni_src n (u32 (i + 1)) o
      else Some o
  end.

(** [utf8_dest] with [utf8_bytes_max]; [wants] says that [utf8_bytes_written] is not NULL.
    Result: the status, the destination's memory, and [*utf8_bytes_written] if stored. *)
Definition RtlUnicodeToUTF8N (utf8_dest : option mem) (utf8_bytes_max : Z) (wants : bool)
    (uni_src : option (list Z)) (uni_bytes : Z) : option (Z * option mem * option Z) :=
  match uni_src with
  | None => Some (STATUS_INVALID_PARAMETER_4, utf8_dest, None)
  | Some uni_src =>
      if negb wants then Some (STATUS_INVALID_PARAMETER, utf8_dest, None) else
      if bool_decide (is_Some utf8_dest) && negb (uni_bytes mod 2 =? 0)
      then Some (STATUS_INVALID_PARAMETER_5, utf8_dest, None) else
      let n := uni_bytes / 2 in
      o ← unicode_loop (S (Z.to_nat n)) uni_src n 0
            (mkOut8 ((fun m => (m, 0, utf8_bytes_max)) <$> utf8_dest) 0 STATUS_SUCCESS);
      Some (o8_status o, (fun d => fst (fst d)) <$> o8_dest o, Some (o8_written o))
  end.

(** ** From UTF-8 to UTF-16 *)

(** What the lead byte says: the bits it contributes, the number of trail bytes, and
    whether it had to be replaced. *)
Definition lead_byte (ch : Z) : Z * Z * bool :=
  if 0xf5 <=? ch then (0xfffd, 0, true)
  else if 0xf0 <=? ch then (Z.land ch 0x07, 3, false)
  else if 0xe0 <=? ch then (Z.land ch 0x0f, 2, false)
  else if 0xc2 <=? ch then (Z.land ch 0x1f, 1, false)
  else if 0x80 <=? ch then (0xfffd, 0, true)
  else (ch, 0, false).

(** The loop over [k] trail bytes: the character, the index reached, and whether all
    were trail bytes. *)
Fixpoint trail_loop (utf8_src : list Z) (k : nat) (ch i : Z) : option (Z * Z * bool) :=
  match k with
  | O => Some (ch, i, true)
  | S k' =>
      b ← rd utf8_src (i + 1);
      if Z.land b 0xc0 =? 0x80
      then trail_loop utf8_src k' (Z.lor (shl32 ch 6) (Z.land b 0x3f)) (i + 1)
      else Some (0xfffd, i, false)
  end.

(** The character that starts at byte [i]: its code, the number of its trail bytes, the
    index of its last byte, and whether it had to be replaced. *)
Definition decode_utf8 (utf8_src : list Z) (utf8_bytes i : Z) : option (Z * Z * Z * bool) :=
  b ← rd utf8_src i;
  let '(ch, trail, bad) := lead_byte b in
  if u32 (i + trail) <? utf8_bytes then
    '(ch, i, ok) ← trail_loop utf8_src (Z.to_nat trail) ch i;
    if ok : bool then Some (ch, trail, i, bad) else Some (ch, 0, i, true)
  else Some (0xfffd, 0, utf8_bytes, true).

(** The units of a character, and whether it had to be replaced. *)
Definition encode_utf16 (ch trail : Z) : list Z * bool :=
  if (0x10ffff <? ch) || ((0xd800 <=? ch) && (ch <=? 0xdfff)) ||
     ((trail =? 2) && (ch <? 0x800)) || ((trail =? 3) && (ch <? 0x10000))
  then (replicate (Z.to_nat trail) 0xfffd, true)
  else if 0x10000 <=? ch then
    let ch := ch - 0x010000 in
    ([0xd800 + Z.land (Z.shiftr ch 10) 0x3ff; 0xdc00 + Z.land ch 0x3ff], false)
  else ([u16 ch], false).

Record utf16_out := mkOut16 {
  o16_dest : option (list Z * Z * Z);
  o16_written : Z;
  o16_status : Z
}.

(** The units of a character one after the other. *)
Fixpoint put_utf16 (utf16_ch : list Z) (o : utf16_out) : option utf16_out :=
  match utf16_ch with
  | [] => Some o
  | c :: rest =>
      match o16_dest o with
      | None => put_utf16 rest (mkOut16 None (u32 (o16_written o + 1)) (o16_status o))
      | Some (m, p, max) =>
          if 2 <=? max then
            m ← wr m p c;
            put_utf16 rest (mkOut16 (Some (m, p + 1, max - 2)) (u32 (o16_written o + 1)) (o16_status o))
          else put_utf16 rest (mkOut16 (Some (m, p, 0)) (o16_written o) STATUS_BUFFER_TOO_SMALL)
      end
  end.

Fixpoint utf8_loop (fuel : nat) (utf8_src : list Z) (utf8_bytes i : Z) (o : utf16_out)
  : option utf16_out :=
  match fuel with
  | O => None
  | S fuel' =>
      if i <? utf8_bytes then
        '(ch, trail, i, bad) ← decode_utf8 utf8_src utf8_bytes i;
        let '(utf16_ch, bad') := encode_utf16 ch trail in
        let o := if bad || bad' then mkOut16 (o16_dest o) (o16_written o) STATUS_SOME_NOT_MAPPED else o in
        o ← put_utf16 utf16_ch o;
        utf8_loop fuel' utf8_src utf8_bytes (u32 (i + 1)) o
      else Some o
  end.

Definition RtlUTF8ToUnicodeN (uni_dest : option (list Z)) (uni_bytes_max : Z) (wants : bool)
    (utf8_src : option (list Z)) (utf8_bytes : Z) : option (Z * option (list Z) * option Z) :=
  match utf8_src with
  | None => Some (STATUS_INVALID_PARAMETER_4, uni_dest, None)
  | Some utf8_src =>
      if negb wants then Some (STATUS_INVALID_PARAMETER, uni_dest, None) else
      o ← utf8_loop (S (Z.to_nat utf8_bytes)) utf8_src utf8_bytes 0
            (mkOut16 ((fun m => (m, 0, uni_bytes_max)) <$> uni_dest) 0 STATUS_SUCCESS);
      Some (o16_status o, (fun d => fst (fst d)) <$> o16_dest o, Some (u32 (o16_written o * 2)))
  end.

(** * Correctness *)

(** ** The reference: scalar values and their two encodings *)

Definition scalar (c : Z) : Prop := 0 <= c < 0xd800 \/ 0xe000 <= c < 0x110000.

Definition utf8 (c : Z) : list Z :=
  if c <? 0x80 then [c]
  else if c <? 0x800 then [0xc0 + c / 64; 0x80 + c mod 64]
  else if c <? 0x10000 then [0xe0 + c / 4096; 0x80 + c / 64 mod 64; 0x80 + c mod 64]
  else [0xf0 + c / 262144; 0x80 + c / 4096 mod 64; 0x80 + c / 64 mod 64; 0x80 + c mod 64].

Definition utf16 (c : Z) : list Z :=
  if c <? 0x10000 then [c]
  else [0xd800 + (c - 0x10000) / 1024; 0xdc00 + (c - 0x10000) mod 1024].

Definition unit16 (u : Z) : Prop := 0 <= u < 0x10000.

Definition is_low (u : Z) : bool := (0xdc00 <=? u) && (u <=? 0xdfff).
Definition is_high (u : Z) : bool := (0xd800 <=? u) && (u <=? 0xdbff).

(** The characters of any sequence of units; an unpaired surrogate counts as U+FFFD. *)
Fixpoint utf16_chars (src : list Z) : list (Z * bool) :=
  match src with
  | [] => []
  | c :: t =>
      if is_low c then (0xfffd, true) :: utf16_chars t
      else if is_high c then
        match t with
        | d :: t' =>
            if is_low d then (0x10000 + (c - 0xd800) * 1024 + (d - 0xdc00), false) :: utf16_chars t'
            else (0xfffd, true) :: utf16_chars t
        | [] => [(0xfffd, true)]
        end
      else (c, false) :: utf16_chars t
  end.

(** The bytes of these characters. *)
Definition utf8_of (src : list Z) : list (list Z) := (fun p => utf8 (fst p)) <$> utf16_chars src.

(** ** Bits as arithmetic *)

Lemma land_low x n : 0 <= n -> Z.land x (Z.ones n) = x mod 2 ^ n.
Proof. intros Hn. by rewrite Z.land_ones. Qed.

Ltac div_range := split; [apply Z.div_pos; lia|apply Z.div_lt_upper_bound; lia].

Lemma trail_byte c k : 0 <= k -> Z.lor 0x80 (Z.land (Z.shiftr c k) 0x3f) = 0x80 + c / 2 ^ k mod 64.
Proof.
  intros Hk. change 0x3f with (Z.ones 6). rewrite land_low, Z.shiftr_div_pow2 by lia.
  change 0x80 with (2 * 2 ^ 6). apply lor_add; [lia|]. apply Z.mod_pos_bound. lia.
Qed.

Lemma encode_utf8_spec c : 0 <= c < 0x110000 -> encode_utf8 c = Some (utf8 c).
Proof.
  intros Hc. unfold encode_utf8, utf8. rewrite !trail_byte by lia.
  change (2 ^ 0) with 1. rewrite Z.div_1_r.
  change 0x07 with (Z.ones 3). change 0x0f with (Z.ones 4). change 0x1f with (Z.ones 5).
  change 0x7f with (Z.ones 7). rewrite !land_low, !Z.shiftr_div_pow2 by lia.
  change 0xc0 with (6 * 2 ^ 5). change 0xe0 with (14 * 2 ^ 4). change 0xf0 with (30 * 2 ^ 3).
  rewrite !lor_add by (try lia; apply Z.mod_pos_bound; lia).
  destruct (Z.ltb_spec c 0x80); [|destruct (Z.ltb_spec c 0x800); [|destruct (Z.ltb_spec c 0x10000)]].
  - by rewrite Z.mod_small by lia.
  - rewrite (Z.mod_small (c / 2 ^ 6)); [done|]. div_range.
  - rewrite (Z.mod_small (c / 2 ^ 12)); [done|]. div_range.
  - rewrite (proj2 (Z.ltb_lt c 0x200000)) by lia.
    rewrite (Z.mod_small (c / 2 ^ 18)); [done|]. div_range.
Qed.

(** ** From UTF-16: the loop reads the characters of the string *)

Lemma rd_drop {A} (l : list A) (k : nat) (j : Z) :
  0 <= j -> rd l (Z.of_nat k + j) = drop k l !! Z.to_nat j.
Proof.
  intros Hj. unfold rd. rewrite (proj2 (Z.ltb_ge _ _)) by lia.
  rewrite lookup_drop. f_equal. lia.
Qed.

Lemma decode_utf16_spec src (k : nat) :
  Forall unit16 src -> (k < length src)%nat ->
  exists ch bad (j : nat), decode_utf16 src (Z.of_nat (length src)) (Z.of_nat k)
    = Some (ch, Z.of_nat (k + j), bad) /\ (k + j < length src)%nat /\ 0 <= ch < 0x110000 /\
    utf16_chars (drop k src) = (ch, bad) :: utf16_chars (drop (S (k + j)) src).
Proof.
  intros Hok Hk. destruct (lookup_lt_is_Some_2 src k Hk) as [c Hc].
  pose proof (Forall_lookup_1 _ _ _ _ Hok Hc) as Hu. unfold unit16 in Hu.
  rewrite (drop_S _ _ _ Hc). cbn [utf16_chars]. unfold decode_utf16.
  assert (Hr : rd src (Z.of_nat k) = Some c)
    by (unfold rd; rewrite (proj2 (Z.ltb_ge _ _)), Nat2Z.id by lia; done).
  rewrite Hr. cbn [mbind option_bind]. unfold is_low, is_high.
  destruct ((0xdc00 <=? c) && (c <=? 0xdfff)) eqn:El.
  { exists 0xfffd, true, 0%nat. rewrite Nat.add_0_r. split_and!; done || lia. }
  destruct ((0xd800 <=? c) && (c <=? 0xdbff)) eqn:Eh.
  2:{ exists c, false, 0%nat. rewrite Nat.add_0_r. split_and!; done || lia. }
  rewrite andb_true_iff, !Z.leb_le in Eh.
  rewrite rd_drop, (drop_S _ _ _ Hc) by lia. change (Z.to_nat 1) with 1%nat. cbn [lookup list_lookup].
  destruct (drop (S k) src) as [|d t] eqn:Ed.
  { assert (length src <= S k)%nat by (apply (f_equal length) in Ed; rewrite length_drop in Ed; simpl in Ed; lia).
    rewrite (proj2 (Z.ltb_ge _ _)) by lia.
    exists 0xfffd, true, 0%nat. rewrite Nat.add_0_r, Ed. split_and!; done || lia. }
  assert (Hlen : (S k < length src)%nat)
    by (apply (f_equal length) in Ed; rewrite length_drop in Ed; simpl in Ed; lia).
  rewrite (proj2 (Z.ltb_lt _ _)) by lia. change ((d :: t) !! 0%nat) with (Some d). cbn [mbind option_bind].
  destruct ((0xdc00 <=? d) && (d <=? 0xdfff)) eqn:Edl.
  2:{ exists 0xfffd, true, 0%nat. rewrite Nat.add_0_r, Ed. split_and!; done || lia. }
  rewrite andb_true_iff, !Z.leb_le in Edl.
  exists (0x10000 + (c - 0xd800) * 1024 + (d - 0xdc00)), false, 1%nat.
  assert (Hd : drop (S (S k)) src = t) by (rewrite <- Nat.add_1_r, <- drop_drop, Ed; done).
  replace (S (k + 1)) with (S (S k)) by lia. rewrite Hd.
  assert (E : shl32 (c - 0xd800) 10 = (c - 0xd800) * 2 ^ 10)
    by (unfold shl32; rewrite Z.shiftl_mul_pow2 by lia; apply u32_small; lia).
  rewrite E, lor_add, u32_small by lia. split_and!; try lia; [|done].
  do 3 f_equal; lia.
Qed.

(** What the loop does to the output, character by character. *)
Definition mark (bad : bool) (o : utf8_out) : utf8_out :=
  if bad then mkOut8 (o8_dest o) (o8_written o) STATUS_SOME_NOT_MAPPED else o.

Fixpoint put_chars (l : list (Z * bool)) (o : utf8_out) : option utf8_out :=
  match l with
  | [] => Some o
  | (ch, bad) :: l' => o ← put_utf8 (utf8 ch) (mark bad o); put_chars l' o
  end.

Lemma unicode_loop_spec src fuel : forall (k : nat) o,
  Forall unit16 src -> Z.of_nat (length src) < 2 ^ 31 -> (k <= length src)%nat ->
  (length src - k < fuel)%nat ->
  unicode_loop fuel src (Z.of_nat (length src)) (Z.of_nat k) o = put_chars (utf16_chars (drop k src)) o.
Proof.
  induction fuel as [|fuel IH]; intros k o Hok Hlen Hk Hf; [lia|]. cbn [unicode_loop].
  destruct (Z.ltb_spec (Z.of_nat k) (Z.of_nat (length src))).
  2:{ rewrite drop_ge by lia. done. }
  destruct (decode_utf16_spec src k) as (ch & bad & j & E & Hj & Hch & Ec); [done|lia|].
  rewrite E, Ec. cbn [mbind option_bind put_chars]. rewrite encode_utf8_spec by lia.
  cbn [mbind option_bind]. unfold mark. destruct (put_utf8 _ _) as [o'|]; [|done]. cbn [mbind option_bind].
  rewrite u32_small by lia. replace (Z.of_nat (k + j) + 1) with (Z.of_nat (S (k + j))) by lia.
  apply IH; done || lia.
Qed.

(** The characters that fit, up to the first that does not. *)
Fixpoint fitting (l : list (list Z)) (max : Z) : list Z :=
  match l with
  | [] => []
  | b :: l' => if Z.of_nat (length b) <=? max then b ++ fitting l' (max - Z.of_nat (length b)) else []
  end.

Lemma fitting_all l : forall max,
  Z.of_nat (length (concat l)) <= max -> fitting l max = concat l.
Proof.
  induction l as [|b l IH]; intros max H; [done|]. cbn [concat fitting] in *. rewrite length_app in H.
  rewrite (proj2 (Z.leb_le _ _)), IH by lia. done.
Qed.

Lemma fitting_prefix l : forall max, 0 <= max ->
  fitting l max `prefix_of` concat l /\ Z.of_nat (length (fitting l max)) <= max.
Proof.
  induction l as [|b l IH]; intros max H; cbn [concat fitting].
  - split; [done|simpl; lia].
  - destruct (Z.leb_spec (Z.of_nat (length b)) max).
    + destruct (IH (max - Z.of_nat (length b))) as [[r Hr] Hl]; [lia|].
      rewrite length_app. split; [exists r; by rewrite Hr, app_assoc|lia].
    + split; [apply prefix_nil|simpl; lia].
Qed.

Lemma utf8_length c : (1 <= length (utf8 c) <= 4)%nat.
Proof. unfold utf8. repeat case_match; simpl; lia. Qed.

(** With a destination the bytes that fit are stored at its start; once a character does
    not fit the status says so to the end. *)
Lemma put_chars_dest l : forall pre rest p max w st,
  p = Z.of_nat (length pre) -> 0 <= max <= Z.of_nat (length rest) ->
  0 <= w -> w + max < 2 ^ 32 -> 
  let bs := (fun q => utf8 (fst q)) <$> l in
  let f := fitting bs max in
  exists q mx, put_chars l (mkOut8 (Some (pre ++ rest, p, max)) w st)
  = Some (mkOut8 (Some (pre ++ f ++ drop (length f) rest, q, mx)) (w + Z.of_nat (length f))
      (if max <? Z.of_nat (length (concat bs)) then STATUS_BUFFER_TOO_SMALL
       else if existsb snd l then STATUS_SOME_NOT_MAPPED else st)).
Proof.
  induction l as [|[c bad] l IH]; intros pre rest p max w st Hp Hmax Hw Hb bs f.
  - exists p, max. subst f bs. simpl. rewrite Z.add_0_r, (proj2 (Z.ltb_ge _ _)) by lia. done.
  - subst bs f. cbn [put_chars fmap list_fmap fst fitting concat existsb snd].
    set (bs := (fun q => utf8 (fst q)) <$> l). pose proof (utf8_length c) as Hc.
    replace (mark bad (mkOut8 (Some (pre ++ rest, p, max)) w st)) with
      (mkOut8 (Some (pre ++ rest, p, max)) w (if bad then STATUS_SOME_NOT_MAPPED else st)) by (by destruct bad).
    unfold put_utf8. cbn [o8_dest o8_written o8_status].
    destruct (Z.leb_spec (Z.of_nat (length (utf8 c))) max).
    + pose proof (wr_bytes_next pre [] rest [] (utf8 c) p) as Hwr. rewrite !app_nil_r in Hwr.
      cbn [app length] in Hwr. rewrite Hwr by lia. cbn [mbind option_bind]. rewrite u32_small by lia.
      rewrite app_assoc.
      destruct (IH (pre ++ utf8 c) (drop (length (utf8 c)) rest) (p + Z.of_nat (length (utf8 c)))
        (max - Z.of_nat (length (utf8 c))) (w + Z.of_nat (length (utf8 c)))
        (if bad then STATUS_SOME_NOT_MAPPED else st)) as (q & mx & E);
        [rewrite length_app; lia|rewrite length_drop; lia|lia|lia|].
      exists q, mx. rewrite E. fold bs. rewrite !length_app, drop_drop, <- !app_assoc.
      do 2 f_equal; [lia|].
      replace (max - Z.of_nat (length (utf8 c)) <? Z.of_nat (length (concat bs))) with
        (max <? Z.of_nat (length (utf8 c) + length (concat bs))) by case_cmp.
      by destruct bad, (existsb snd l).
    + destruct (IH pre rest p 0 w STATUS_BUFFER_TOO_SMALL) as (q & mx & E); try lia.
      exists q, mx. cbn [mbind option_bind]. rewrite E. fold bs.
      rewrite length_app, (proj2 (Z.ltb_lt max _)) by lia.
      assert (Hf : fitting bs 0 = []).
      { unfold bs. destruct l as [|[c' b'] l']; [done|]. cbn [fmap list_fmap fitting fst].
        pose proof (utf8_length c'). by rewrite (proj2 (Z.leb_gt _ _)) by lia. }
      rewrite Hf. do 2 f_equal.
      destruct l as [|[c' b'] l']; [done|]. unfold bs. cbn [fmap list_fmap concat fst].
      pose proof (utf8_length c'). rewrite length_app, (proj2 (Z.ltb_lt 0 _)) by lia. done.
Qed.

(** Without a destination the bytes are counted. *)
Lemma put_chars_count l : forall w st,
  0 <= w -> w + Z.of_nat (length (concat ((fun q => utf8 (fst q)) <$> l))) < 2 ^ 32 ->
  put_chars l (mkOut8 None w st)
  = Some (mkOut8 None (w + Z.of_nat (length (concat ((fun q => utf8 (fst q)) <$> l))))
      (if existsb snd l then STATUS_SOME_NOT_MAPPED else st)).
Proof.
  induction l as [|[c bad] l IH]; intros w st Hw Hb; cbn [put_chars fmap list_fmap fst concat existsb snd] in *.
  - by rewrite Z.add_0_r.
  - rewrite length_app in Hb |- *.
    replace (mark bad (mkOut8 None w st)) with
      (mkOut8 None w (if bad then STATUS_SOME_NOT_MAPPED else st)) by (by destruct bad).
    unfold put_utf8. cbn [o8_dest o8_written o8_status mbind option_bind].
    rewrite u32_small, IH by lia. do 2 f_equal; [lia|]. by destruct bad, (existsb snd l).
Qed.

(** Counting units and bytes: a unit gives three bytes at most. *)
Lemma utf8_of_length src : Forall unit16 src -> (length (concat (utf8_of src)) <= 3 * length src)%nat.
Proof.
  assert (H3 : forall c, unit16 c -> (length (utf8 c) <= 3)%nat).
  { intros c Hc. unfold utf8, unit16 in *.
    rewrite (proj2 (Z.ltb_lt c 0x10000)) by lia. repeat case_match; simpl; lia. }
  unfold utf8_of.
  induction src as [src IH] using (induction_ltof1 _ (@length Z)). unfold ltof in IH.
  destruct src as [|c t]; [simpl; lia|]. intros Hok. inversion_clear Hok as [|?? Hc Ht].
  cbn [utf16_chars].
  assert (Hf : (length (utf8 0xfffd) = 3)%nat) by reflexivity.
  repeat case_match; cbn [fmap list_fmap fst concat length]; rewrite ?length_app, ?Hf.
  - specialize (IH t). simpl in IH. specialize (IH ltac:(lia) Ht). lia.
  - simpl. lia.
  - inversion_clear Ht as [|?? _ Ht']. specialize (IH l). simpl in IH.
    specialize (IH ltac:(lia) Ht'). pose proof (utf8_length (0x10000 + (c - 0xd800) * 1024 + (z - 0xdc00))). lia.
  - specialize (IH (z :: l)). simpl in IH. specialize (IH ltac:(lia) Ht). simpl in *. lia.
  - specialize (IH t). simpl in IH. specialize (IH ltac:(lia) Ht). specialize (H3 c Hc). lia.
Qed.

(** A malformed string is one with an unpaired surrogate. *)
Definition unpaired (src : list Z) : bool := existsb snd (utf16_chars src).

Definition unicode_status (src : list Z) : Z :=
  if unpaired src then STATUS_SOME_NOT_MAPPED else STATUS_SUCCESS.

Lemma unicode_to_utf8_run src m max :
  Forall unit16 src -> Z.of_nat (length src) < 2 ^ 30 -> 0 <= max < 2 ^ 32 -> max <= Z.of_nat (length m) ->
  let out := fitting (utf8_of src) max in
  RtlUnicodeToUTF8N (Some m) max true (Some src) (2 * Z.of_nat (length src))
  = Some (if max <? Z.of_nat (length (concat (utf8_of src))) then STATUS_BUFFER_TOO_SMALL
          else unicode_status src, Some (out ++ drop (length out) m), Some (Z.of_nat (length out))).
Proof.
  intros Hok Hlen Hmax Hm out. unfold RtlUnicodeToUTF8N. cbn [negb].
  rewrite (Z.mul_comm 2), Z.mod_mul, Z.div_mul, andb_false_r by lia.
  pose proof (unicode_loop_spec src (S (Z.to_nat (Z.of_nat (length src)))) 0) as Hloop.
  change (Z.of_nat 0) with 0 in Hloop. rewrite drop_0 in Hloop. rewrite Hloop by (done || lia).
  cbn [fmap option_fmap option_map].
  destruct (put_chars_dest (utf16_chars src) [] m 0 max 0 STATUS_SUCCESS) as (q & mx & E); try (done || lia).
  fold (utf8_of src) in E. cbn [app] in E. by rewrite E.
Qed.

(** [RtlUnicodeToUTF8N] on any string of units, well formed or not: without a
    destination it reports the bytes needed; with one it stores a prefix of the encoding
    made of whole characters, never more than [max] bytes, leaves the rest of the buffer
    alone and reports how many bytes it stored.  The status tells a buffer that is too
    small from a string with unpaired surrogates, each of which becomes U+FFFD. *)
Theorem unicode_to_utf8_bounded src m max :
  Forall unit16 src -> Z.of_nat (length src) < 2 ^ 30 -> 0 <= max < 2 ^ 32 ->
  max <= Z.of_nat (length m) ->
  let all := concat (utf8_of src) in
  let bytes := 2 * Z.of_nat (length src) in
  let st := unicode_status src in
  RtlUnicodeToUTF8N None 0 true (Some src) bytes = Some (st, None, Some (Z.of_nat (length all))) /\
  exists out st', RtlUnicodeToUTF8N (Some m) max true (Some src) bytes
    = Some (st', Some (out ++ drop (length out) m), Some (Z.of_nat (length out))) /\
  out `prefix_of` all /\ Z.of_nat (length out) <= max /\
  (Z.of_nat (length all) <= max -> out = all /\ st' = st) /\
  (max < Z.of_nat (length all) -> st' = STATUS_BUFFER_TOO_SMALL).
Proof.
  intros Hok Hlen Hmax Hm all bytes st. pose proof (utf8_of_length src Hok) as Hall. fold all in Hall. split.
  - unfold RtlUnicodeToUTF8N, bytes. cbn [negb]. rewrite (Z.mul_comm 2), Z.mod_mul, Z.div_mul by lia.
    pose proof (unicode_loop_spec src (S (Z.to_nat (Z.of_nat (length src)))) 0) as Hloop.
    change (Z.of_nat 0) with 0 in Hloop. rewrite drop_0 in Hloop. rewrite Hloop by (done || lia).
    cbn [fmap option_fmap option_map].
    rewrite andb_false_r, put_chars_count; fold (utf8_of src); fold all; [done|lia|lia].
  - destruct (fitting_prefix (utf8_of src) max) as [Hpre Hle]; [lia|]. fold all in Hpre.
    unfold bytes. rewrite unicode_to_utf8_run by done.
    eexists _, _. split_and!; [done|done|done| |].
    + intros Hfit. rewrite fitting_all by done. by rewrite (proj2 (Z.ltb_ge _ _)) by done.
    + intros Hfit. by rewrite (proj2 (Z.ltb_lt _ _)) by done.
Qed.

(** ** From UTF-8 *)

Definition trailing (b : Z) : Prop := 0x80 <= b < 0xc0.

Lemma trail_test b : 0 <= b < 256 -> (Z.land b 0xc0 =? 0x80) = (0x80 <=? b) && (b <? 0xc0).
Proof.
  assert (H : forallb (fun n => Bool.eqb (Z.land (Z.of_nat n) 0xc0 =? 0x80)
    ((0x80 <=? Z.of_nat n) && (Z.of_nat n <? 0xc0))) (seq 0 256) = true) by (vm_compute; reflexivity).
  intros Hb. rewrite forallb_forall in H. specialize (H (Z.to_nat b)).
  rewrite Z2Nat.id in H by lia. apply eqb_prop, H, in_seq. lia.
Qed.

(** The six bits a trail byte adds. *)
Definition add_trail (ch b : Z) : Z := ch * 64 + (b - 0x80).

Lemma trail_bits ch b : 0 <= ch < 2 ^ 26 -> trailing b ->
  Z.lor (shl32 ch 6) (Z.land b 0x3f) = add_trail ch b.
Proof.
  intros Hch Hb. unfold trailing in Hb. change 0x3f with (Z.ones 6). rewrite land_low by lia.
  unfold shl32. rewrite Z.shiftl_mul_pow2, u32_small, lor_add by (try lia; apply Z.mod_pos_bound; lia).
  unfold add_trail. change (2 ^ 6) with 64. Z.div_mod_to_equations; lia.
Qed.

Lemma trail_loop_spec src k : forall ch (i : nat),
  bytes_ok src -> (i + k < length src)%nat -> 0 <= ch < 2 ^ (32 - 6 * Z.of_nat k) -> (k <= 3)%nat ->
  exists ch' (j : nat) ok, trail_loop src k ch (Z.of_nat i) = Some (ch', Z.of_nat (i + j), ok) /\
  (j <= k)%nat /\
  if ok : bool then
    j = k /\ exists bs, length bs = k /\ Forall trailing bs /\
      drop (S i) src = bs ++ drop (S (i + k)) src /\ ch' = foldl add_trail ch bs
  else ch' = 0xfffd /\ forall bs t, length bs = k -> Forall trailing bs -> drop (S i) src <> bs ++ t.
Proof.
  induction k as [|k IH]; intros ch i Hsrc Hi Hch Hk; cbn [trail_loop].
  { exists ch, 0%nat, true. rewrite Nat.add_0_r. split_and!; [done|lia|done|].
    by exists []. }
  destruct (lookup_lt_is_Some_2 src (S i)) as [b Hb]; [lia|].
  pose proof (Forall_lookup_1 _ _ _ _ Hsrc Hb) as Hbyte. cbn beta in Hbyte.
  assert (Hr : rd src (Z.of_nat i + 1) = Some b)
    by (unfold rd; rewrite (proj2 (Z.ltb_ge _ _)) by lia; rewrite <- Hb; f_equal; lia).
  rewrite Hr. cbn [mbind option_bind]. rewrite trail_test by lia.
  rewrite (drop_S _ _ _ Hb).
  destruct ((0x80 <=? b) && (b <? 0xc0)) eqn:Et.
  - rewrite andb_true_iff, Z.leb_le, Z.ltb_lt in Et.
    assert (Hch' : ch < 2 ^ 26)
      by (eapply Z.lt_le_trans; [apply Hch|apply Z.pow_le_mono_r; lia]).
    rewrite trail_bits by (unfold trailing; lia).
    replace (Z.of_nat i + 1) with (Z.of_nat (S i)) by lia.
    destruct (IH (add_trail ch b) (S i)) as (ch' & j & ok & E & Hj & Hok); [done|lia| |lia|].
    { unfold add_trail. replace (32 - 6 * Z.of_nat k) with ((32 - 6 * Z.of_nat (S k)) + 6) by lia.
      rewrite Z.pow_add_r by lia. change (2 ^ 6) with 64. lia. }
    exists ch', (S j), ok. rewrite E. split_and!; [do 3 f_equal; lia|lia|].
    destruct ok.
    + destruct Hok as (-> & bs & Hl & Ht & Hd & Hv). split; [done|]. exists (b :: bs).
      split_and!; [simpl; lia|by constructor| |done].
      cbn [app]. f_equal. rewrite Hd. by replace (S i + k)%nat with (i + S k)%nat by lia.
    + destruct Hok as [-> Hno]. split; [done|]. intros [|b' bs] t Hl Ht Heq; [done|].
      inversion_clear Ht as [|?? _ Ht']. injection Heq as _ Heq.
      by apply (Hno bs t); [simpl in Hl; lia|done|].
  - exists 0xfffd, 0%nat, false. rewrite Nat.add_0_r. split_and!; [done|lia|done|].
    intros [|b' bs] t Hl Ht Heq; [done|]. inversion_clear Ht as [|?? Hb' _].
    injection Heq as <- _. unfold trailing in Hb'.
    rewrite (proj2 (Z.leb_le _ _)), (proj2 (Z.ltb_lt _ _)) in Et by lia. done.
Qed.

(** The shape of an encoded character. *)
Lemma utf8_shape c : 0 <= c < 0x110000 ->
  exists b v bs, utf8 c = b :: bs /\ 0 <= b < 0xf5 /\
    lead_byte b = (v, Z.of_nat (length bs), false) /\ Forall trailing bs /\ foldl add_trail v bs = c.
Proof.
  intros Hc. unfold utf8, trailing.
  destruct (Z.ltb_spec c 0x80); [|destruct (Z.ltb_spec c 0x800); [|destruct (Z.ltb_spec c 0x10000)]].
  - exists c, c, []. unfold lead_byte. split_and!; try done; [lia|lia|]. case_cmp.
  - exists (0xc0 + c / 64), (c / 64), [0x80 + c mod 64].
    assert (0 <= c / 64 < 32) by div_range. assert (2 <= c / 64) by (apply Z.div_le_lower_bound; lia).
    unfold lead_byte. change 0x1f with (Z.ones 5). rewrite !land_low by lia.
    split_and!; [done|lia|lia| |repeat constructor; Z.div_mod_to_equations; lia|].
    + case_cmp. do 2 f_equal. change (2 ^ 5) with 32. Z.div_mod_to_equations; lia.
    + cbn [foldl]. unfold add_trail. Z.div_mod_to_equations; lia.
  - exists (0xe0 + c / 4096), (c / 4096), [0x80 + c / 64 mod 64; 0x80 + c mod 64].
    assert (0 <= c / 4096 < 16) by div_range.
    unfold lead_byte. change 0x0f with (Z.ones 4). rewrite !land_low by lia.
    split_and!; [done|lia|lia| |repeat constructor; Z.div_mod_to_equations; lia|].
    + case_cmp. do 2 f_equal. change (2 ^ 4) with 16. Z.div_mod_to_equations; lia.
    + cbn [foldl]. unfold add_trail. replace (c / 4096) with (c / 64 / 64) by (by rewrite Z.div_div).
      Z.div_mod_to_equations; lia.
  - exists (0xf0 + c / 262144), (c / 262144), [0x80 + c / 4096 mod 64; 0x80 + c / 64 mod 64; 0x80 + c mod 64].
    assert (0 <= c / 262144 < 5) by div_range.
    unfold lead_byte. change 0x07 with (Z.ones 3). rewrite !land_low by lia.
    split_and!; [done|lia|lia| |repeat constructor; Z.div_mod_to_equations; lia|].
    + case_cmp. do 2 f_equal. change (2 ^ 3) with 8. Z.div_mod_to_equations; lia.
    + cbn [foldl]. unfold add_trail.
      replace (c / 262144) with (c / 64 / 64 / 64) by (by rewrite !Z.div_div).
      replace (c / 4096) with (c / 64 / 64) by (by rewrite Z.div_div).
      Z.div_mod_to_equations; lia.
Qed.

Lemma encode_utf16_scalar c : scalar c ->
  encode_utf16 c (Z.of_nat (length (utf8 c)) - 1) = (utf16 c, false).
Proof.
  unfold scalar. intros Hc. unfold encode_utf16, utf16, utf8.
  change 0x3ff with (Z.ones 10). rewrite !land_low, Z.shiftr_div_pow2 by lia.
  rewrite (proj2 (Z.ltb_ge 0x10ffff c)) by lia.
  replace ((0xd800 <=? c) && (c <=? 0xdfff)) with false by (symmetry; case_cmp).
  destruct (Z.ltb_spec c 0x80); [|destruct (Z.ltb_spec c 0x800); [|destruct (Z.ltb_spec c 0x10000)]];
    cbn [length orb andb Z.of_nat]; rewrite ?(proj2 (Z.ltb_lt c 0x10000)) by lia.
  1-3: rewrite (proj2 (Z.leb_gt _ _)) by lia; unfold u16; rewrite Z.mod_small by lia; simpl; done.
  rewrite !andb_false_r, (proj2 (Z.leb_le 0x10000 c)) by lia. cbn [orb].
  change (2 ^ 10) with 1024. rewrite (Z.mod_small ((c - 0x10000) / 1024)); [done|]. div_range.
Qed.

Ltac inv_trailing :=
  repeat match goal with H : Forall trailing (_ :: _) |- _ => inversion_clear H end; unfold trailing in *.

(** Bytes of this shape whose value is acceptable are an encoded scalar value. *)
Lemma shape_utf8 b v bs : 0 <= b < 256 -> lead_byte b = (v, Z.of_nat (length bs), false) ->
  Forall trailing bs -> snd (encode_utf16 (foldl add_trail v bs) (Z.of_nat (length bs))) = false ->
  let c := foldl add_trail v bs in
  scalar c /\ b :: bs = utf8 c.
Proof.
  intros Hb Hl Ht He c. fold c in He. unfold encode_utf16 in He.
  destruct (_ || _ || _ || _) eqn:Ebad; [done|]. clear He.
  rewrite !orb_false_iff, !andb_false_iff in Ebad. destruct Ebad as [[[E1 E2] E3] E4].
  apply Z.ltb_ge in E1. unfold lead_byte in Hl. unfold utf8, scalar.
  assert (E2' : c < 0xd800 \/ 0xdfff < c) by (destruct E2 as [E2|E2]; apply Z.leb_gt in E2; lia).
  change 0x1f with (Z.ones 5) in Hl. change 0x0f with (Z.ones 4) in Hl. change 0x07 with (Z.ones 3) in Hl.
  rewrite !land_low in Hl by lia.
  destruct (Z.leb_spec 0xf5 b); [done|]. 
  destruct (Z.leb_spec 0xf0 b); [|destruct (Z.leb_spec 0xe0 b);
    [|destruct (Z.leb_spec 0xc2 b); [|destruct (Z.leb_spec 0x80 b); [done|]]]].
  - injection Hl as Hv Hn. destruct bs as [|b1 [|b2 [|b3 [|]]]]; try (simpl in Hn; lia).
    destruct E4 as [E4|E4]; [done|]. apply Z.ltb_ge in E4.
    inv_trailing. change (2 ^ 3) with 8 in Hv. assert (Ev : v = b - 0xf0) by (Z.div_mod_to_equations; lia).
    assert (Hc : c = (((b - 0xf0) * 64 + (b1 - 0x80)) * 64 + (b2 - 0x80)) * 64 + (b3 - 0x80))
      by (unfold c; cbn [foldl]; unfold add_trail; by rewrite Ev).
    clearbody c. split; [lia|]. rewrite !(proj2 (Z.ltb_ge _ _)) by lia.
    repeat f_equal; Z.div_mod_to_equations; lia.
  - injection Hl as Hv Hn. destruct bs as [|b1 [|b2 [|]]]; try (simpl in Hn; lia).
    destruct E3 as [E3|E3]; [done|]. apply Z.ltb_ge in E3.
    inv_trailing. change (2 ^ 4) with 16 in Hv. assert (Ev : v = b - 0xe0) by (Z.div_mod_to_equations; lia).
    assert (Hc : c = ((b - 0xe0) * 64 + (b1 - 0x80)) * 64 + (b2 - 0x80))
      by (unfold c; cbn [foldl]; unfold add_trail; by rewrite Ev).
    clearbody c. split; [lia|]. rewrite (proj2 (Z.ltb_ge c 0x80)), (proj2 (Z.ltb_ge c 0x800)),
      (proj2 (Z.ltb_lt c 0x10000)) by lia.
    repeat f_equal; Z.div_mod_to_equations; lia.
  - injection Hl as Hv Hn. destruct bs as [|b1 [|]]; try (simpl in Hn; lia).
    inv_trailing. change (2 ^ 5) with 32 in Hv. assert (Ev : v = b - 0xc0) by (Z.div_mod_to_equations; lia).
    assert (Hc : c = (b - 0xc0) * 64 + (b1 - 0x80)) by (unfold c; cbn [foldl]; unfold add_trail; by rewrite Ev).
    clearbody c. split; [lia|]. rewrite (proj2 (Z.ltb_ge c 0x80)), (proj2 (Z.ltb_lt c 0x800)) by lia.
    repeat f_equal; Z.div_mod_to_equations; lia.
  - injection Hl as <- Hn. destruct bs; [|simpl in Hn; lia]. unfold c. simpl.
    split; [lia|]. by rewrite (proj2 (Z.ltb_lt b 0x80)) by lia.
Qed.

(** Some scalar value starts a sequence of bytes. *)
Definition starts (s : list Z) : Prop := exists c t, scalar c /\ s = utf8 c ++ t.

Lemma lead_byte_cases b : 0 <= b < 256 ->
  let '(v, k, bad) := lead_byte b in
  0 <= k <= 3 /\ 0 <= v < 0x10000 /\ (bad = true -> v = 0xfffd /\ k = 0) /\
  (bad = false -> v < 2 ^ 14).
Proof.
  intros Hb. unfold lead_byte.
  pose proof (Z.mod_pos_bound b (2 ^ 3)). pose proof (Z.mod_pos_bound b (2 ^ 4)).
  pose proof (Z.mod_pos_bound b (2 ^ 5)).
  change 0x1f with (Z.ones 5). change 0x0f with (Z.ones 4). change 0x07 with (Z.ones 3).
  rewrite !land_low by lia.
  repeat match goal with |- context [?x <=? b] => destruct (Z.leb_spec x b) end;
    split_and!; intros; split_and?; done || lia.
Qed.

Lemma utf8_inj_app c1 c2 t1 t2 : scalar c1 -> scalar c2 -> utf8 c1 ++ t1 = utf8 c2 ++ t2 -> c1 = c2 /\ t1 = t2.
Proof.
  intros H1 H2 E. destruct (utf8_shape c1) as (b1 & v1 & s1 & E1 & _ & L1 & _ & F1); [unfold scalar in H1; lia|].
  destruct (utf8_shape c2) as (b2 & v2 & s2 & E2 & _ & L2 & _ & F2); [unfold scalar in H2; lia|].
  rewrite E1, E2 in E. injection E as <- E. rewrite L1 in L2. injection L2 as <- L2.
  apply app_inj_1 in E; [|lia]. destruct E as [<- <-]. by rewrite F1 in F2.
Qed.

(** A scalar value starts with a lead byte and as many trail bytes as this asks for. *)
Lemma starts_shape b s v n bad :
  lead_byte b = (v, n, bad) -> starts (b :: s) ->
  bad = false /\ exists bs t, Forall trailing bs /\ Z.of_nat (length bs) = n /\ s = bs ++ t /\
    snd (encode_utf16 (foldl add_trail v bs) n) = false.
Proof.
  intros El (c & t & Hc & Ec).
  destruct (utf8_shape c) as (b' & v' & bs & Eu & _ & Lb & Ht & Hf); [unfold scalar in Hc; lia|].
  rewrite Eu in Ec. injection Ec as <- Ec. rewrite El in Lb. injection Lb as -> -> ->.
  split; [done|]. exists bs, t. split_and!; try done. rewrite Hf.
  pose proof (encode_utf16_scalar c Hc) as He. rewrite Eu in He. cbn [length] in He.
  replace (Z.of_nat (S (length bs)) - 1) with (Z.of_nat (length bs)) in He by lia. by rewrite He.
Qed.

(** A character gives a unit at least, and no more units than it has bytes. *)
Lemma encode_utf16_length ch n :
  0 <= n -> (n = 0 -> 0 <= ch < 0xd800) ->
  fst (encode_utf16 ch n) <> [] /\ (length (fst (encode_utf16 ch n)) <= S (Z.to_nat n))%nat.
Proof.
  intros Hn H0. unfold encode_utf16. destruct (Z.eq_dec n 0) as [->|Hnz].
  - specialize (H0 eq_refl).
    rewrite (proj2 (Z.ltb_ge 0x10ffff ch)), (proj2 (Z.leb_gt 0xd800 ch)), (proj2 (Z.leb_gt 0x10000 ch)) by lia.
    cbn. split; [done|lia].
  - destruct (Z.to_nat n) eqn:En; [lia|].
    repeat case_match; cbn [fst length replicate]; rewrite ?length_replicate; split; done || lia.
Qed.

(** Decoding one character, wherever it starts and whatever the bytes are. *)
Lemma decode_utf8_spec src (k : nat) : bytes_ok src -> Z.of_nat (length src) < 2 ^ 31 -> (k < length src)%nat ->
  exists ch trail (i : nat) bad us bad',
    decode_utf8 src (Z.of_nat (length src)) (Z.of_nat k) = Some (ch, trail, Z.of_nat i, bad) /\
    encode_utf16 ch trail = (us, bad') /\ (k <= i <= length src)%nat /\
    us <> [] /\ (length us <= length src - k)%nat /\ (length us <= S i - k)%nat /\
    if bad || bad' then ~ starts (drop k src)
    else scalar ch /\ us = utf16 ch /\ drop k src = utf8 ch ++ drop (S i) src.
Proof.
  intros Hok Hlen Hk. destruct (lookup_lt_is_Some_2 src k Hk) as [b Hb].
  pose proof (Forall_lookup_1 _ _ _ _ Hok Hb) as Hbyte. cbn beta in Hbyte.
  unfold decode_utf8. assert (Hr : rd src (Z.of_nat k) = Some b)
    by (unfold rd; rewrite (proj2 (Z.ltb_ge _ _)), Nat2Z.id by lia; done).
  rewrite Hr. cbn [mbind option_bind]. pose proof (lead_byte_cases b Hbyte) as Hl.
  destruct (lead_byte b) as [[v n] bad] eqn:El. destruct Hl as (Hn & Hv & Hbad & Hgood).
  assert (Hsingle : encode_utf16 0xfffd 0 = ([0xfffd], false)) by reflexivity.
  rewrite (drop_S _ _ _ Hb). pose proof (starts_shape b (drop (S k) src) v n bad El) as Hstart.
  destruct (Z.ltb_spec (u32 (Z.of_nat k + n)) (Z.of_nat (length src))) as [Hin|Hout].
  2:{ exists 0xfffd, 0, (length src), true, [0xfffd], false. cbn [length]. split_and!; try (done || lia).
      cbn [orb]. intros Hs. destruct (Hstart Hs) as (_ & bs & t & _ & Hn' & Hd & _).
      apply (f_equal length) in Hd. rewrite length_drop, length_app in Hd.
      rewrite u32_small in Hout by lia. lia. }
  rewrite u32_small in Hin by lia. destruct bad.
  { destruct (Hbad eq_refl) as [-> ->]. exists 0xfffd, 0, k, true, [0xfffd], false. cbn [length].
    split_and!; try (done || lia). cbn [orb]. intros Hs. by destruct (Hstart Hs). }
  destruct (trail_loop_spec src (Z.to_nat n) v k) as (ch & j & ok & E & Hj & Hcase);
    [done|lia| |lia|].
  { split; [lia|]. eapply Z.lt_le_trans; [by apply Hgood|apply Z.pow_le_mono_r; lia]. }
  rewrite E. cbn [mbind option_bind]. destruct ok.
  - destruct Hcase as (-> & bs & Hbs & Ht & Hd & Hch).
    destruct (encode_utf16 ch n) as [us bad'] eqn:Ee.
    exists ch, n, (k + Z.to_nat n)%nat, false, us, bad'.
    assert (Hus : us <> [] /\ (length us <= S (Z.to_nat n))%nat).
    { pose proof (encode_utf16_length ch n) as Hus. rewrite Ee in Hus. apply Hus; [lia|].
      intros ->. destruct bs; [|done]. simpl in Hch. subst ch.
      unfold lead_byte in El. repeat case_match; try done; injection El as <-; lia. }
    split_and!; try (done || tauto || lia). cbn [orb]. destruct bad'.
    + intros Hs. destruct (Hstart Hs) as (_ & bs' & t & Ht' & Hn' & Hd' & He).
      rewrite Hd' in Hd. apply app_inj_1 in Hd; [|lia]. destruct Hd as [-> _].
      rewrite <- Hch, Ee in He. done.
    + destruct (shape_utf8 b v bs) as [Hsc Eu]; try done.
      { rewrite El. do 3 f_equal. lia. }
      { rewrite <- Hch, Hbs, Z2Nat.id by lia. by rewrite Ee. }
      rewrite <- Hch in Hsc, Eu. split; [done|]. split.
      * pose proof (encode_utf16_scalar ch Hsc) as He. rewrite <- Eu in He. cbn [length] in He.
        replace (Z.of_nat (S (length bs)) - 1) with n in He by lia. rewrite Ee in He. by injection He.
      * by rewrite <- Eu, Hd.
  - destruct Hcase as [-> Hno].
    exists 0xfffd, 0, (k + j)%nat, true, [0xfffd], false. cbn [length].
    split_and!; try (done || lia). cbn [orb]. intros Hs.
    destruct (Hstart Hs) as (_ & bs & t & Ht & Hn' & Hd & _). apply (Hno bs t); done || lia.
Qed.

Definition mark16 (bad : bool) (o : utf16_out) : utf16_out :=
  if bad then mkOut16 (o16_dest o) (o16_written o) STATUS_SOME_NOT_MAPPED else o.

Fixpoint put_chars16 (l : list (list Z * bool)) (o : utf16_out) : option utf16_out :=
  match l with
  | [] => Some o
  | (us, bad) :: l' => o ← put_utf16 us (mark16 bad o); put_chars16 l' o
  end.

(** Valid UTF-8: the encoding of scalar values. *)
Definition encodes (cps : list Z) (s : list Z) : Prop := Forall scalar cps /\ s = concat (utf8 <$> cps).

Definition valid_utf8 (s : list Z) : Prop := exists cps, encodes cps s.

Lemma encodes_app c cps s t :
  encodes cps s -> s = utf8 c ++ t -> scalar c -> exists cps', cps = c :: cps' /\ encodes cps' t.
Proof.
  intros [Hcps E] Es Hc. destruct cps as [|c' cps'].
  - rewrite E in Es. cbn in Es. pose proof (utf8_length c). destruct (utf8 c); [simpl in *; lia|done].
  - inversion_clear Hcps as [|?? Hc' Hcps']. cbn in E. rewrite E in Es.
    apply utf8_inj_app in Es; [|done|done]. destruct Es as [-> <-]. by exists cps'.
Qed.

(** The characters the loop finds from byte [k] on. *)
Lemma utf8_loop_spec src fuel : forall (k : nat),
  bytes_ok src -> Z.of_nat (length src) < 2 ^ 31 -> (length src - k < fuel)%nat ->
  exists l, (forall o, utf8_loop fuel src (Z.of_nat (length src)) (Z.of_nat k) o = put_chars16 l o) /\
  (length (concat (fst <$> l)) <= length src - k)%nat /\ Forall (fun p => fst p <> []) l /\
  if existsb snd l then ~ valid_utf8 (drop k src)
  else exists cps, encodes cps (drop k src) /\ concat (fst <$> l) = concat (utf16 <$> cps).
Proof.
  induction fuel as [|fuel IH]; intros k Hok Hlen Hf; [lia|]. cbn [utf8_loop].
  destruct (Z.ltb_spec (Z.of_nat k) (Z.of_nat (length src))).
  2:{ exists []. split_and!; [done|simpl; lia|done|]. exists []. split; [|done]. split; [done|].
      by rewrite drop_ge by lia. }
  destruct (decode_utf8_spec src k) as (ch & trail & i & bad & us & bad' & E & Ee & Hi & Hus & Hl1 & Hl2 & Hcase);
    [done|done|lia|].
  destruct (IH (S i)) as (l & Hl & Hll & Hne & Hrest); [done|done|lia|].
  exists ((us, bad || bad') :: l). split_and!.
  - intros o. rewrite E. cbn [mbind option_bind put_chars16]. rewrite Ee. unfold mark16.
    destruct (put_utf16 _ _); [|done]. cbn [mbind option_bind]. rewrite u32_small by lia.
    replace (Z.of_nat i + 1) with (Z.of_nat (S i)) by lia. apply Hl.
  - rewrite fmap_cons. cbn [fst concat]. rewrite length_app. lia.
  - by constructor.
  - cbn [existsb snd]. destruct (bad || bad') eqn:Eb; cbn [orb].
    + intros [cps [Hcps Ec]]. apply Hcase. destruct cps as [|c cps'].
      { apply (f_equal length) in Ec. rewrite length_drop in Ec. simpl in Ec. lia. }
      inversion_clear Hcps. exists c, (concat (utf8 <$> cps')). done.
    + destruct Hcase as (Hsc & -> & Hd). destruct (existsb snd l).
      * intros [cps Hcps]. destruct (encodes_app ch cps _ _ Hcps Hd Hsc) as (cps' & _ & Hcps').
        apply Hrest. by exists cps'.
      * destruct Hrest as (cps & [Hcps Ed] & Ec). exists (ch :: cps). rewrite !fmap_cons. cbn [fst concat].
        split; [split; [by constructor|]|].
        -- by rewrite Hd, Ed, fmap_cons.
        -- by rewrite Ec.
Qed.

(** Storing units: those that fit. *)
Lemma put_utf16_dest us : forall pre rest p max w st,
  p = Z.of_nat (length pre) -> 0 <= max -> max / 2 <= Z.of_nat (length rest) -> 0 <= w -> w + max < 2 ^ 32 ->
  let f := take (Z.to_nat (max / 2)) us in
  exists mx, put_utf16 us (mkOut16 (Some (pre ++ rest, p, max)) w st)
    = Some (mkOut16 (Some (pre ++ f ++ drop (length f) rest, p + Z.of_nat (length f), mx)) (w + Z.of_nat (length f))
        (if max / 2 <? Z.of_nat (length us) then STATUS_BUFFER_TOO_SMALL else st)) /\
    0 <= mx <= max /\ mx / 2 = Z.max 0 (max / 2 - Z.of_nat (length us)).
Proof.
  induction us as [|u us IH]; intros pre rest p max w st Hp Hmax Hrest Hw Hb f; subst f.
  - exists max. rewrite take_nil. cbn [put_utf16 length app]. rewrite drop_0, !Z.add_0_r.
    rewrite (proj2 (Z.ltb_ge _ _)) by (Z.div_mod_to_equations; lia).
    split_and!; try (done || lia). Z.div_mod_to_equations; lia.
  - cbn [put_utf16 o16_dest o16_written o16_status]. destruct (Z.leb_spec 2 max).
    + assert (Hq : max / 2 = 1 + (max - 2) / 2) by (Z.div_mod_to_equations; lia).
      assert (0 <= (max - 2) / 2) by (Z.div_mod_to_equations; lia).
      replace (Z.to_nat (max / 2)) with (S (Z.to_nat ((max - 2) / 2))) by lia. cbn [take length].
      destruct rest as [|r rest]; [simpl in Hrest; lia|]. cbn [length] in Hrest.
      unfold wr. rewrite (proj2 (Z.leb_le _ _)), (proj2 (Z.ltb_lt _ _))
        by (rewrite ?length_app; simpl; lia). cbn [andb mbind option_bind].
      rewrite Hp, Nat2Z.id, insert_app_r_alt, Nat.sub_diag, u32_small by lia.
      change (<[0%nat := u]> (r :: rest)) with ([u] ++ rest). rewrite app_assoc.
      destruct (IH (pre ++ [u]) rest (Z.of_nat (length pre) + 1) (max - 2) (w + 1) st) as (mx & E & Hmx & Hdiv);
        [rewrite length_app; simpl; lia|lia|lia|lia|lia|].
      exists mx. rewrite E. split_and!; [|lia|lia|lia]. rewrite <- !app_assoc. cbn [app drop].
      replace (max / 2 <? Z.of_nat (S (length us))) with ((max - 2) / 2 <? Z.of_nat (length us)) by case_cmp.
      do 2 f_equal; [do 3 f_equal; lia|lia].
    + assert (Hq : max / 2 = 0) by (Z.div_mod_to_equations; lia). rewrite Hq.
      destruct (IH pre rest p 0 w STATUS_BUFFER_TOO_SMALL) as (mx & E & Hmx & Hdiv); try (done || lia).
      { change (0 / 2) with 0. lia. }
      exists mx. rewrite E. change (0 / 2) with 0 in *. cbn [take Z.to_nat]. split_and!; try lia.
      cbn [length]. rewrite (proj2 (Z.ltb_lt 0 (Z.of_nat (S _)))) by lia.
      do 2 f_equal. by destruct (_ <? _).
Qed.

Lemma put_chars16_dest l : forall pre rest p max w st,
  Forall (fun q => fst q <> []) l ->
  p = Z.of_nat (length pre) -> 0 <= max -> max / 2 <= Z.of_nat (length rest) -> 0 <= w -> w + max < 2 ^ 32 ->
  let all := concat (fst <$> l) in
  let f := take (Z.to_nat (max / 2)) all in
  exists q mx, put_chars16 l (mkOut16 (Some (pre ++ rest, p, max)) w st)
    = Some (mkOut16 (Some (pre ++ f ++ drop (length f) rest, q, mx)) (w + Z.of_nat (length f))
        (if max / 2 <? Z.of_nat (length all) then STATUS_BUFFER_TOO_SMALL
         else if existsb snd l then STATUS_SOME_NOT_MAPPED else st)).
Proof.
  induction l as [|[us bad] l IH]; intros pre rest p max w st Hne Hp Hmax Hrest Hw Hb all f; subst all f.
  - exists p, max. cbn. rewrite take_nil, Z.add_0_r. cbn [length app]. rewrite drop_0.
    by rewrite (proj2 (Z.ltb_ge _ _)) by (Z.div_mod_to_equations; lia).
  - inversion_clear Hne as [|?? Hus Hne']. rewrite fmap_cons. cbn [put_chars16 fst concat existsb snd].
    set (all := concat (fst <$> l)).
    replace (mark16 bad (mkOut16 (Some (pre ++ rest, p, max)) w st)) with
      (mkOut16 (Some (pre ++ rest, p, max)) w (if bad then STATUS_SOME_NOT_MAPPED else st)) by (by destruct bad).
    destruct (put_utf16_dest us pre rest p max w (if bad then STATUS_SOME_NOT_MAPPED else st))
      as (mx & E & Hmx & Hdiv); try done.
    rewrite E. cbn [mbind option_bind]. set (f := take (Z.to_nat (max / 2)) us) in *.
    assert (Hf : length f = Nat.min (Z.to_nat (max / 2)) (length us)) by apply length_take.
    rewrite app_assoc.
    destruct (IH (pre ++ f) (drop (length f) rest) (p + Z.of_nat (length f)) mx (w + Z.of_nat (length f))
      (if max / 2 <? Z.of_nat (length us) then STATUS_BUFFER_TOO_SMALL
       else if bad then STATUS_SOME_NOT_MAPPED else st)) as (q & mx' & E');
      [done|rewrite length_app; lia|lia|rewrite length_drop; lia|lia| |].
    { assert (2 * (max / 2) <= max) by (Z.div_mod_to_equations; lia).
      assert (mx <= 2 * (mx / 2) + 1) by (Z.div_mod_to_equations; lia). lia. }
    exists q, mx'. rewrite E'. fold all. rewrite take_app.
    replace (Z.to_nat (mx / 2)) with (Z.to_nat (max / 2) - length us)%nat by lia.
    rewrite !length_app, drop_drop, <- !app_assoc. unfold f.
    do 2 f_equal; [rewrite !length_take; lia|].
    assert (Hl : (0 < length us)%nat) by (destruct us; [done|simpl; lia]).
    destruct (Z.ltb_spec (max / 2) (Z.of_nat (length us))).
    + rewrite (proj2 (Z.ltb_lt (max / 2) _)) by lia. destruct l as [|[us' b'] l'].
      * by destruct (_ <? _).
      * inversion_clear Hne' as [|?? Hus' _]. destruct us'; [done|].
        unfold all. rewrite fmap_cons. cbn [fst concat app length].
        by rewrite (proj2 (Z.ltb_lt _ _)) by lia.
    + replace (max / 2 <? Z.of_nat (length us + length all)) with (mx / 2 <? Z.of_nat (length all)) by case_cmp.
      by destruct bad, (existsb snd l).
Qed.

Lemma encodes_inj cps : forall cps' bs, encodes cps bs -> encodes cps' bs -> cps = cps'.
Proof.
  induction cps as [|c cps IH]; intros cps' bs [Hc E] [Hc' E'].
  - rewrite E in E'. destruct cps' as [|c' cps']; [done|]. cbn in E'.
    pose proof (utf8_length c'). destruct (utf8 c'); [simpl in *; lia|done].
  - inversion_clear Hc as [|?? Hsc Hcs].
    destruct (encodes_app c cps' bs (concat (utf8 <$> cps))) as (cps'' & -> & Hx); [done|done|done|].
    f_equal. by apply (IH _ (concat (utf8 <$> cps))).
Qed.

Lemma utf8_to_unicode_run bs m max :
  bytes_ok bs -> Z.of_nat (length bs) < 2 ^ 31 -> 0 <= max < 2 ^ 32 -> max / 2 <= Z.of_nat (length m) ->
  exists out st, RtlUTF8ToUnicodeN (Some m) max true (Some bs) (Z.of_nat (length bs))
    = Some (st, Some (out ++ drop (length out) m), Some (2 * Z.of_nat (length out))) /\
  2 * Z.of_nat (length out) <= max /\
  (2 * Z.of_nat (length bs) <= max ->
   (st = STATUS_SUCCESS <-> valid_utf8 bs) /\ (st <> STATUS_SUCCESS -> st = STATUS_SOME_NOT_MAPPED) /\
   forall cps, encodes cps bs -> out = concat (utf16 <$> cps)).
Proof.
  intros Hok Hlen Hmax Hm. unfold RtlUTF8ToUnicodeN. cbn [negb].
  destruct (utf8_loop_spec bs (S (Z.to_nat (Z.of_nat (length bs)))) 0) as (l & Hl & Hll & Hne & Hcase);
    [done|done|lia|].
  change (Z.of_nat 0) with 0 in Hl. rewrite Hl. rewrite drop_0 in Hcase. cbn [fmap option_fmap option_map].
  destruct (put_chars16_dest l [] m 0 max 0 STATUS_SUCCESS) as (q & mx & E); try (done || lia).
  cbn [app] in E. rewrite E. cbn [mbind option_bind o16_status o16_dest o16_written fmap option_fmap option_map fst].
  set (all := concat (fst <$> l)) in *. set (out := take (Z.to_nat (max / 2)) all).
  assert (Hout : 2 * Z.of_nat (length out) <= max)
    by (unfold out; rewrite length_take; Z.div_mod_to_equations; lia).
  rewrite u32_small by lia. eexists out, _. split; [do 3 f_equal; lia|]. split; [done|]. intros Hfit.
  assert (Hhalf : Z.of_nat (length bs) <= max / 2) by (apply Z.div_le_lower_bound; lia).
  rewrite (proj2 (Z.ltb_ge _ _)) by lia.
  assert (Hall : out = all) by (apply take_ge; lia).
  destruct (existsb snd l).
  - split_and!; [split; [done|intros; contradiction]|done|]. intros cps Hcps. destruct Hcase. by exists cps.
  - destruct Hcase as (cps & Hcps & Ec). split_and!; [split; [by exists cps|done]|done|].
    intros cps' Hcps'. rewrite Hall, Ec. by rewrite (encodes_inj cps' cps bs).
Qed.

(** C23.  [RtlUTF8ToUnicodeN] accepts exactly UTF-8.  On any bytes and for any size of the
    buffer it returns; it stores at most [max] bytes, the start of the decoded text, and
    nothing else.  When the buffer has room for a unit per byte the status is
    [STATUS_SUCCESS] exactly if the bytes encode Unicode scalar values (no overlong
    forms, no surrogates, nothing above U+10FFFF), and then the units stored are the
    UTF-16 encoding of the same scalar values. *)
Theorem utf8_to_unicode_iff bs m max :
  bytes_ok bs -> Z.of_nat (length bs) < 2 ^ 31 -> 0 <= max < 2 ^ 32 -> max / 2 <= Z.of_nat (length m) ->
  exists out st, RtlUTF8ToUnicodeN (Some m) max true (Some bs) (Z.of_nat (length bs))
    = Some (st, Some (out ++ drop (length out) m), Some (2 * Z.of_nat (length out))) /\
  2 * Z.of_nat (length out) <= max /\
  (2 * Z.of_nat (length bs) <= max ->
   (st = STATUS_SUCCESS <-> valid_utf8 bs) /\ (st <> STATUS_SUCCESS -> st = STATUS_SOME_NOT_MAPPED) /\
   forall cps, encodes cps bs -> out = concat (utf16 <$> cps)).
Proof. apply utf8_to_unicode_run. Qed.

(** ** Well-formed UTF-16 *)

Lemma utf16_unit c : scalar c -> Forall unit16 (utf16 c).
Proof.
  unfold scalar. intros Hc. unfold utf16, unit16. destruct (Z.ltb_spec c 0x10000); repeat constructor; try lia.
  all: Z.div_mod_to_equations; lia.
Qed.

Lemma utf16_chars_app c t : scalar c -> utf16_chars (utf16 c ++ t) = (c, false) :: utf16_chars t.
Proof.
  unfold scalar. intros Hc. unfold utf16. destruct (Z.ltb_spec c 0x10000); cbn [app utf16_chars]; unfold is_low, is_high.
  - replace ((0xdc00 <=? c) && (c <=? 0xdfff)) with false by (symmetry; case_cmp).
    replace ((0xd800 <=? c) && (c <=? 0xdbff)) with false by (symmetry; case_cmp). done.
  - set (h := (c - 0x10000) / 1024). set (l := (c - 0x10000) mod 1024).
    assert (Hh : 0 <= h < 1024) by (unfold h; div_range).
    assert (Hl : 0 <= l < 1024) by (apply Z.mod_pos_bound; lia).
    replace ((0xdc00 <=? 0xd800 + h) && (0xd800 + h <=? 0xdfff)) with false by (symmetry; case_cmp).
    rewrite !(proj2 (Z.leb_le _ _)) by lia. cbn [andb].
    do 2 f_equal. unfold h, l. Z.div_mod_to_equations; lia.
Qed.

Lemma utf16_chars_scalars cps : Forall scalar cps ->
  utf16_chars (concat (utf16 <$> cps)) = (fun c => (c, false)) <$> cps.
Proof.
  induction 1 as [|c cps Hc _ IH]; [done|]. rewrite !fmap_cons. cbn [concat].
  by rewrite utf16_chars_app, IH.
Qed.

Lemma existsb_unmarked (cps : list Z) : existsb snd ((fun c => (c, false)) <$> cps) = false.
Proof. by induction cps. Qed.

Lemma utf8_bytes_ok c : 0 <= c < 0x110000 -> bytes_ok (utf8 c).
Proof.
  intros Hc. destruct (utf8_shape c Hc) as (b & v & bs & -> & Hb & _ & Ht & _).
  constructor; [lia|]. revert Ht. apply Forall_impl. unfold trailing. intros; simpl; lia.
Qed.

(** C28.  Round trip: well-formed UTF-16 (the encoding of any scalar values) converts
    without loss.  [RtlUnicodeToUTF8N] succeeds into a buffer that is large enough and
    stores the UTF-8 encoding, and [RtlUTF8ToUnicodeN] turns these bytes back into the
    units it started from. *)
Theorem utf_roundtrip cps m8 m16 :
  Forall scalar cps ->
  let src := concat (utf16 <$> cps) in
  let bs := concat (utf8 <$> cps) in
  Z.of_nat (length src) < 2 ^ 28 -> (3 * length src <= length m8)%nat -> (3 * length src <= length m16)%nat ->
  RtlUnicodeToUTF8N (Some m8) (3 * Z.of_nat (length src)) true (Some src) (2 * Z.of_nat (length src))
    = Some (STATUS_SUCCESS, Some (bs ++ drop (length bs) m8), Some (Z.of_nat (length bs))) /\
  RtlUTF8ToUnicodeN (Some m16) (2 * (3 * Z.of_nat (length src))) true (Some bs) (Z.of_nat (length bs))
    = Some (STATUS_SUCCESS, Some (src ++ drop (length src) m16), Some (2 * Z.of_nat (length src))).
Proof.
  intros Hcps src bs Hlen H8 H16.
  assert (Hu : Forall unit16 src).
  { apply Forall_concat, Forall_fmap. revert Hcps. apply Forall_impl, utf16_unit. }
  assert (Hbs : bytes_ok bs).
  { apply Forall_concat, Forall_fmap. revert Hcps. apply Forall_impl. intros c Hc.
    apply utf8_bytes_ok. unfold scalar in Hc. lia. }
  assert (Hall : concat (utf8_of src) = bs).
  { unfold utf8_of, src, bs. rewrite utf16_chars_scalars by done. by rewrite <- list_fmap_compose. }
  pose proof (utf8_of_length src Hu) as Hl. rewrite Hall in Hl. split.
  - rewrite unicode_to_utf8_run by (done || lia). rewrite fitting_all, Hall by (rewrite Hall; lia).
    rewrite (proj2 (Z.ltb_ge _ _)) by lia. unfold unicode_status, unpaired, src.
    rewrite utf16_chars_scalars by done. by rewrite existsb_unmarked.
  - destruct (utf8_to_unicode_run bs m16 (2 * (3 * Z.of_nat (length src)))) as (out & st & E & _ & Hrun);
      [done|lia|lia|rewrite Z.mul_comm, Z.div_mul by lia; lia|].
    destruct Hrun as (Hst & _ & Ho); [lia|]. assert (He : encodes cps bs) by done.
    rewrite (Ho cps He) in E. fold src in E. rewrite E. do 3 f_equal. apply Hst. by exists cps.
Qed.

(** ** The properties at a concrete text: "aé€😀", and an unpaired surrogate *)

Definition example_text : list Z := [0x61; 0xe9; 0x20ac; 0x1f600].

Lemma unicode_to_utf8_bounded_witness :
  exists out st', RtlUnicodeToUTF8N (Some (replicate 6 7)) 6 true (Some [0x61; 0xd800; 0x20ac]) 6
    = Some (st', Some (out ++ drop (length out) (replicate 6 7)), Some (Z.of_nat (length out))) /\
  Z.of_nat (length out) <= 6 /\ st' = STATUS_BUFFER_TOO_SMALL.
Proof.
  destruct (unicode_to_utf8_bounded [0x61; 0xd800; 0x20ac] (replicate 6 7) 6)
    as (_ & out & st' & E & _ & Hl & _ & Hst);
    [repeat constructor; unfold unit16; lia|simpl; lia|lia|simpl; lia|].
  exists out, st'. split; [exact E|]. split; [exact Hl|]. apply Hst. vm_compute. reflexivity.
Defined.

Lemma utf8_to_unicode_iff_witness :
  exists out st, RtlUTF8ToUnicodeN (Some (replicate 4 0)) 8 true (Some [0x61; 0xc3; 0xa9]) 3
    = Some (st, Some (out ++ drop (length out) (replicate 4 0)), Some (2 * Z.of_nat (length out))) /\
  out = [0x61; 0xe9].
Proof.
  destruct (utf8_to_unicode_iff [0x61; 0xc3; 0xa9] (replicate 4 0) 8) as (out & st & E & _ & Hrun);
    [repeat constructor; lia|simpl; lia|lia|vm_compute; discriminate|].
  exists out, st. split; [exact E|]. destruct Hrun as (_ & _ & Ho); [simpl; lia|].
  apply (Ho [0x61; 0xe9]). split; [repeat constructor; unfold scalar; lia|vm_compute; reflexivity].
Defined.

Lemma utf_roundtrip_witness :
  RtlUTF8ToUnicodeN (Some (replicate 15 0)) 30 true (Some (concat (utf8 <$> example_text))) 10
  = Some (STATUS_SUCCESS, Some (concat (utf16 <$> example_text) ++ replicate 10 0), Some 10).
Proof.
  apply (utf_roundtrip example_text (replicate 15 0) (replicate 15 0));
    [repeat constructor; unfold scalar; lia|simpl; lia|simpl; lia|simpl; lia].
Defined.
