(* ===== verification/RtlCompress.v ===== *)
(** LZNT1: sdk/lib/rtl/compress.c.

    The regions [m] (destination), [s] (source) and [w] (work space) are byte memories and
    pointers offsets into them; the end pointers the code compares with are offsets too.
    [None] is an access outside a region.  NULL is [None] where the code returns it. *)

From S2P Require Import Prelude Bytes.

Definition COMPRESSION_FORMAT_NONE : Z := 0.
Definition COMPRESSION_FORMAT_DEFAULT : Z := 1.
Definition COMPRESSION_FORMAT_LZNT1 : Z := 2.
Definition COMPRESSION_ENGINE_STANDARD : Z := 0.
Definition COMPRESSION_ENGINE_MAXIMUM : Z := 0x0100.

(** ** Decompression of a chunk *)

(** The search for the number of displacement bits, [n] decrements left. *)
Fixpoint displacement_loop (n : nat) (displacement_bits distance : Z) : Z :=
  match n with
  | O => displacement_bits
  | S n' =>
      if Z.shiftl 1 (displacement_bits - 1) <? distance then displacement_bits
      else displacement_loop n' (displacement_bits - 1) distance
  end.

(** How a part of the chunk's decompression ends: go on, [return dst_cur], or
    [return NULL]. *)
Inductive outcome := Continue | Done | Bad.

(** The copy of [code_length] bytes. *)
Fixpoint copy_match (code_length : nat) (m : mem) (dst_cur dst_end code_displacement : Z)
  : option (mem * Z * outcome) :=
  match code_length with
  | O => Some (m, dst_cur, Continue)
  | S n =>
      if dst_end <=? dst_cur then Some (m, dst_cur, Done) else
      b ← get8 m (dst_cur - code_displacement);
      m ← set8 m dst_cur b;
      copy_match n m (dst_cur + 1) dst_end code_displacement
  end.

(** A backward reference: the new [src_cur] comes with the result. *)
Definition back_reference (m s : mem) (dst dst_cur dst_end src_cur src_end : Z)
  : option (mem * Z * Z * outcome) :=
  if src_end <? src_cur + 2 then Some (m, dst_cur, src_cur, Bad) else
  code ← get16 s src_cur;
  let src_cur := src_cur + 2 in
  let displacement_bits := displacement_loop 8 12 (dst_cur - dst) in
  let length_bits := 16 - displacement_bits in
  let code_length := Z.land code (Z.shiftl 1 length_bits - 1) + 3 in
  let code_displacement := Z.shiftr code length_bits + 1 in
  if dst_cur <? dst + code_displacement then Some (m, dst_cur, src_cur, Bad) else
  '(m, dst_cur, r) ← copy_match (Z.to_nat code_length) m dst_cur dst_end code_displacement;
  Some (m, dst_cur, src_cur, r).

(** The entities a flags byte announces; the marker bit leaves after eight. *)
Fixpoint entities (fuel : nat) (m s : mem) (dst dst_cur dst_end src_cur src_end flags : Z)
  : option (mem * Z * Z * outcome) :=
  match fuel with
  | O => None
  | S fuel' =>
      if has flags 0xFF00 && (src_cur <? src_end) then
        if has flags 1 then
          '(m, dst_cur, src_cur, r) ← back_reference m s dst dst_cur dst_end src_cur src_end;
          match r with
          | Continue => entities fuel' m s dst dst_cur dst_end src_cur src_end (Z.shiftr flags 1)
          | _ => Some (m, dst_cur, src_cur, r)
          end
        else if dst_end <=? dst_cur then Some (m, dst_cur, src_cur, Done) else
          b ← get8 s src_cur;
          m ← set8 m dst_cur b;
          entities fuel' m s dst (dst_cur + 1) dst_end (src_cur + 1) src_end (Z.shiftr flags 1)
      else Some (m, dst_cur, src_cur, Continue)
  end.

(** Each round takes a byte of the source at least. *)
Fixpoint chunk_loop (fuel : nat) (m s : mem) (dst dst_cur dst_end src_cur src_end : Z)
  : option (mem * option Z) :=
  match fuel with
  | O => None
  | S fuel' =>
      if (src_cur <? src_end) && (dst_cur <? dst_end) then
        b ← get8 s src_cur;
        '(m, dst_cur, src_cur, r) ← entities 9 m s dst dst_cur dst_end (src_cur + 1) src_end (Z.lor 0x8000 b);
        match r with
        | Continue => chunk_loop fuel' m s dst dst_cur dst_end src_cur src_end
        | Done => Some (m, Some dst_cur)
        | Bad => Some (m, None)
        end
      else Some (m, Some dst_cur)
  end.

Definition lznt1_decompress_chunk (m : mem) (dst dst_size : Z) (s : mem) (src src_size : Z)
  : option (mem * option Z) :=
  chunk_loop (S (Z.to_nat src_size)) m s dst dst (dst + dst_size) src (src + src_size).

(** ** Decompression of a buffer *)

(** The result of [lznt1_decompress]: the status, the memory, and [*final_size] if it is
    written ([final_size] not NULL). *)
Definition finish (m : mem) (dst dst_cur : Z) : Z * mem * option Z :=
  (STATUS_SUCCESS, m, Some (u32 (dst_cur - dst))).

Definition bad_buffer (m : mem) : Z * mem * option Z := (STATUS_BAD_COMPRESSION_BUFFER, m, None).

(** Chunks in front of [offset] are skipped: [inl] is the end of the function, [inr] the
    place and the offset reached. *)
Fixpoint skip_chunks (fuel : nat) (m s : mem) (dst src_cur src_end offset : Z)
  : option ((Z * mem * option Z) + Z * Z) :=
  match fuel with
  | O => None
  | S fuel' =>
      if (0x1000 <=? offset) && (src_cur + 2 <=? src_end) then
        chunk_header ← get16 s src_cur;
        let src_cur := src_cur + 2 in
        if chunk_header =? 0 then Some (inl (finish m dst dst)) else
        let chunk_size := Z.land chunk_header 0xFFF + 1 in
        if src_end <? src_cur + chunk_size then Some (inl (bad_buffer m)) else
        skip_chunks fuel' m s dst (src_cur + chunk_size) src_end (offset - 0x1000)
      else Some (inr (src_cur, offset))
  end.

(** The chunk that [offset] falls into. *)
Definition partial_chunk (m s : mem) (w : option mem) (dst dst_end src_cur src_end offset : Z)
  : option ((Z * mem * option Z) + mem * Z * Z) :=
  if negb (offset =? 0) && (src_cur + 2 <=? src_end) then
    chunk_header ← get16 s src_cur;
    let src_cur := src_cur + 2 in
    if chunk_header =? 0 then Some (inl (finish m dst dst)) else
    let chunk_size := Z.land chunk_header 0xFFF + 1 in
    if src_end <? src_cur + chunk_size then Some (inl (bad_buffer m)) else
    if dst_end <=? dst then Some (inl (finish m dst dst)) else
    if has chunk_header 0x8000 then
      match w with
      | None => Some (inl (STATUS_ACCESS_VIOLATION, m, None))
      | Some w =>
          '(w, ptr) ← lznt1_decompress_chunk w 0 0x1000 s src_cur chunk_size;
          match ptr with
          | None => Some (inl (bad_buffer m))
          | Some ptr =>
              if offset <? ptr then
                let block_size := Z.min (ptr - offset) (dst_end - dst) in
                bs ← rd_bytes w offset (Z.to_nat block_size);
                m ← wr_bytes m dst bs;
                Some (inr (m, dst + block_size, src_cur + chunk_size))
              else Some (inr (m, dst, src_cur + chunk_size))
          end
      end
    else if offset <? chunk_size then
      let block_size := Z.min (chunk_size - offset) (dst_end - dst) in
      bs ← rd_bytes s (src_cur + offset) (Z.to_nat block_size);
      m ← wr_bytes m dst bs;
      Some (inr (m, dst + block_size, src_cur + chunk_size))
    else Some (inr (m, dst, src_cur + chunk_size))
  else Some (inr (m, dst, src_cur)).

(** Zeroes up to the next chunk boundary of the destination; the inner [None] is the
    [goto out]. *)
Definition add_padding (m : mem) (dst dst_cur dst_end offset : Z) : option (option (mem * Z)) :=
  let block_size := Z.land (u32 (dst_cur - dst + offset)) 0xFFF in
  if block_size =? 0 then Some (Some (m, dst_cur)) else
  let block_size := 0x1000 - block_size in
  if dst_end <=? dst_cur + block_size then Some None else
  m ← RtlZeroMemory m dst_cur block_size;
  Some (Some (m, dst_cur + block_size)).

(** The remaining chunks. *)
Fixpoint whole_chunks (fuel : nat) (m s : mem) (dst dst_cur dst_end src_cur src_end offset : Z)
  : option (Z * mem * option Z) :=
  match fuel with
  | O => None
  | S fuel' =>
      if src_cur + 2 <=? src_end then
        chunk_header ← get16 s src_cur;
        let src_cur := src_cur + 2 in
        if chunk_header =? 0 then Some (finish m dst dst_cur) else
        let chunk_size := Z.land chunk_header 0xFFF + 1 in
        if src_end <? src_cur + chunk_size then Some (bad_buffer m) else
        padded ← add_padding m dst dst_cur dst_end offset;
        match padded with
        | None => Some (finish m dst dst_cur)
        | Some (m, dst_cur) =>
            if dst_end <=? dst_cur then Some (finish m dst dst_cur) else
            if has chunk_header 0x8000 then
              '(m, ptr) ← lznt1_decompress_chunk m dst_cur (dst_end - dst_cur) s src_cur chunk_size;
              match ptr with
              | None => Some (bad_buffer m)
              | Some dst_cur =>
                  whole_chunks fuel' m s dst dst_cur dst_end (src_cur + chunk_size) src_end offset
              end
            else
              let block_size := Z.min chunk_size (dst_end - dst_cur) in
              bs ← rd_bytes s src_cur (Z.to_nat block_size);
              m ← wr_bytes m dst_cur bs;
              whole_chunks fuel' m s dst (dst_cur + block_size) dst_end (src_cur + chunk_size) src_end offset
        end
      else Some (finish m dst dst_cur)
  end.

(** [dst] and [src] are the starts of the regions [m] and [s]. *)
Definition lznt1_decompress (m : mem) (dst_size : Z) (s : mem) (src_size offset : Z) (workspace : option mem)
  : option (Z * mem * option Z) :=
  if src_size <? 2 then Some (bad_buffer m) else
  r ← skip_chunks (S (Z.to_nat src_size)) m s 0 0 src_size offset;
  match r with
  | inl r => Some r
  | inr (src_cur, offset) =>
      r ← partial_chunk m s workspace 0 dst_size src_cur src_size offset;
      match r with
      | inl r => Some r
      | inr (m, dst_cur, src_cur) =>
          whole_chunks (S (Z.to_nat src_size)) m s 0 dst_cur dst_size src_cur src_size offset
      end
  end.

Definition RtlDecompressFragment (format : Z) (m : mem) (uncompressed_size : Z) (s : mem)
    (compressed_size offset : Z) (workspace : option mem) : option (Z * mem * option Z) :=
  let f := Z.land format (not32 COMPRESSION_ENGINE_MAXIMUM) in
  if f =? COMPRESSION_FORMAT_LZNT1
  then lznt1_decompress m uncompressed_size s compressed_size offset workspace
  else if (f =? COMPRESSION_FORMAT_NONE) || (f =? COMPRESSION_FORMAT_DEFAULT)
  then Some (STATUS_INVALID_PARAMETER, m, None)
  else Some (STATUS_UNSUPPORTED_COMPRESSION, m, None).

Definition RtlDecompressBuffer (format : Z) (m : mem) (uncompressed_size : Z) (s : mem)
    (compressed_size : Z) : option (Z * mem * option Z) :=
  RtlDecompressFragment format m uncompressed_size s compressed_size 0 None.

(** ** Compression: every block is stored as it is *)

Fixpoint compress_loop (fuel : nat) (s m : mem) (src_cur src_end dst_cur dst_end : Z)
  : option (Z * mem * option Z) :=
  match fuel with
  | O => None
  | S fuel' =>
      if src_cur <? src_end then
        let block_size := u32 (Z.min 0x1000 (s32 (src_end - src_cur))) in
        if dst_end <? dst_cur + 2 + block_size then Some (STATUS_BUFFER_TOO_SMALL, m, None) else
        m ← set16 m dst_cur (Z.lor 0x3000 (block_size - 1));
        let dst_cur := dst_cur + 2 in
        bs ← rd_bytes s src_cur (Z.to_nat block_size);
        m ← wr_bytes m dst_cur bs;
        compress_loop fuel' s m (src_cur + block_size) src_end (dst_cur + block_size) dst_end
      else Some (STATUS_SUCCESS, m, Some (u32 dst_cur))
  end.

Definition RtlpCompressBufferLZNT1 (s : mem) (src_size : Z) (m : mem) (dst_size : Z)
  : option (Z * mem * option Z) :=
  compress_loop (S (Z.to_nat src_size)) s m 0 src_size 0 dst_size.

Definition RtlCompressBuffer (CompressionFormatAndEngine : Z) (s : mem) (UncompressedBufferSize : Z)
    (m : mem) (CompressedBufferSize : Z) : option (Z * mem * option Z) :=
  let Format := Z.land CompressionFormatAndEngine 0xFF in
  if (Format =? COMPRESSION_FORMAT_NONE) || (Format =? COMPRESSION_FORMAT_DEFAULT)
  then Some (STATUS_INVALID_PARAMETER, m, None)
  else if Format =? COMPRESSION_FORMAT_LZNT1
  then RtlpCompressBufferLZNT1 s UncompressedBufferSize m CompressedBufferSize
  else Some (STATUS_UNSUPPORTED_COMPRESSION, m, None).

(** Status, [*BufferAndWorkSpaceSize] and [*FragmentWorkSpaceSize]. *)
Definition RtlpWorkSpaceSizeLZNT1 (Engine : Z) : Z * option (Z * Z) :=
  if Engine =? COMPRESSION_ENGINE_STANDARD then (STATUS_SUCCESS, Some (0x8010, 0x1000))
  else if Engine =? COMPRESSION_ENGINE_MAXIMUM then (STATUS_SUCCESS, Some (0x10, 0x1000))
  else (STATUS_NOT_SUPPORTED, None).

Definition RtlGetCompressionWorkSpaceSize (CompressionFormatAndEngine : Z) : Z * option (Z * Z) :=
  let Format := Z.land CompressionFormatAndEngine 0xFF in
  if (Format =? COMPRESSION_FORMAT_NONE) || (Format =? COMPRESSION_FORMAT_DEFAULT)
  then (STATUS_INVALID_PARAMETER, None)
  else if Format =? COMPRESSION_FORMAT_LZNT1
  then RtlpWorkSpaceSizeLZNT1 (Z.land CompressionFormatAndEngine 0xFF00)
  else (STATUS_UNSUPPORTED_COMPRESSION, None).

(** ** The format

    What a buffer stands for, independently of the code that reads it.  A chunk holds up to
    4096 bytes, stored or packed; a packed chunk is a sequence of groups of eight tokens,
    the last one possibly shorter, each behind a byte that tells references from literals.
    A reference takes 16 bits, split between displacement and length by the number of bytes
    the chunk has produced so far, the history [h]. *)
Inductive token := Lit (b : Z) | Ref (displacement : nat) (len : nat).

Inductive chunk := Stored (bs : list Z) | Packed (groups : list (list token)).

Definition displacement_width (h : list Z) : Z :=
  Z.max 4 (Z.min 12 (Z.log2_up (Z.of_nat (length h)))).

Fixpoint copy_back (n : nat) (h : list Z) (displacement : nat) : list Z :=
  match n with
  | O => h
  | S n' => copy_back n' (h ++ [nth (length h - displacement) h 0]) displacement
  end.

Definition expand_token (h : list Z) (t : token) : list Z :=
  match t with
  | Lit b => h ++ [b]
  | Ref d n => copy_back n h d
  end.

Definition expand (h : list Z) (ts : list token) : list Z := fold_left expand_token ts h.

Definition expand_groups (h : list Z) (gs : list (list token)) : list Z := fold_left expand gs h.

Definition encode_token (h : list Z) (t : token) : list Z :=
  match t with
  | Lit b => [b]
  | Ref d n => le 2 ((Z.of_nat d - 1) * 2 ^ (16 - displacement_width h) + (Z.of_nat n - 3))
  end.

Definition is_ref (t : token) : bool := match t with Lit _ => false | Ref _ _ => true end.

Fixpoint flags_of (ts : list token) : Z :=
  match ts with
  | [] => 0
  | t :: ts' => Z.b2z (is_ref t) + 2 * flags_of ts'
  end.

Fixpoint encode_tokens (h : list Z) (ts : list token) : list Z :=
  match ts with
  | [] => []
  | t :: ts' => encode_token h t ++ encode_tokens (expand_token h t) ts'
  end.

Fixpoint encode_groups (h : list Z) (gs : list (list token)) : list Z :=
  match gs with
  | [] => []
  | g :: gs' => (flags_of g :: encode_tokens h g) ++ encode_groups (expand h g) gs'
  end.

Definition token_ok (h : list Z) (t : token) : Prop :=
  match t with
  | Lit b => 0 <= b < 256
  | Ref d n =>
      (1 <= d <= length h)%nat /\ Z.of_nat d <= 2 ^ displacement_width h /\
      3 <= Z.of_nat n <= 2 ^ (16 - displacement_width h) + 2
  end.

Fixpoint tokens_ok (h : list Z) (ts : list token) : Prop :=
  match ts with
  | [] => True
  | t :: ts' => token_ok h t /\ tokens_ok (expand_token h t) ts'
  end.

Fixpoint groups_ok (h : list Z) (gs : list (list token)) : Prop :=
  match gs with
  | [] => True
  | g :: gs' =>
      (length g = 8 \/ length g <= 8 /\ gs' = [])%nat /\ tokens_ok h g /\ groups_ok (expand h g) gs'
  end.

(** The bytes a chunk stands for, and its encoding. *)
Definition contents (c : chunk) : list Z :=
  match c with
  | Stored bs => bs
  | Packed gs => expand_groups [] gs
  end.

Definition body (c : chunk) : list Z :=
  match c with
  | Stored bs => bs
  | Packed gs => encode_groups [] gs
  end.

Definition header (c : chunk) : Z :=
  (match c with Stored _ => 0x3000 | Packed _ => 0xB000 end) + (Z.of_nat (length (body c)) - 1).

Definition encode_chunk (c : chunk) : list Z := le 2 (header c) ++ body c.

Definition encode (cs : list chunk) : list Z := concat (map encode_chunk cs).

Definition uncompressed (cs : list chunk) : list Z := concat (map contents cs).

Definition chunk_ok (c : chunk) : Prop :=
  1 <= Z.of_nat (length (body c)) <= 4096 /\ Z.of_nat (length (contents c)) <= 4096 /\
  match c with Stored _ => True | Packed gs => groups_ok [] gs end.

(** Chunks but the last stand for 4096 bytes. *)
Fixpoint chunks_ok (cs : list chunk) : Prop :=
  match cs with
  | [] => True
  | c :: cs' => chunk_ok c /\ (cs' = [] \/ Z.of_nat (length (contents c)) = 4096) /\ chunks_ok cs'
  end.

(** What may follow the last chunk: nothing, a byte, or a zero header. *)
Definition tail_ok (t : list Z) : Prop :=
  match t with
  | [] | [_] => True
  | a :: b :: _ => a = 0 /\ b = 0
  end.

(** * Laws: any input *)

(** What a part of the decompression leaves: [dst_cur] has moved inside
    [lo, hi], and only bytes below [hi] from [lo] on have been written. *)
Definition advanced (lo hi : Z) (m : mem) (dst_cur : Z) (m' : mem) (dst_cur' : Z) : Prop :=
  frame lo hi m m' /\ dst_cur <= dst_cur' <= hi.

Lemma advanced_refl lo hi m c : c <= hi -> advanced lo hi m c m c.
Proof. intros Hc. split; [apply frame_refl|lia]. Qed.

Lemma advanced_trans lo hi m c m1 c1 m2 c2 :
  advanced lo hi m c m1 c1 -> advanced lo hi m1 c1 m2 c2 -> advanced lo hi m c m2 c2.
Proof. intros [Hf1 H1] [Hf2 H2]. split; [by eapply frame_trans|lia]. Qed.

Lemma advanced_write lo hi m c bs :
  0 <= lo <= c -> c + Z.of_nat (length bs) <= hi -> hi <= Z.of_nat (length m) ->
  exists m', wr_bytes m c bs = Some m' /\ length m' = length m /\
    advanced lo hi m c m' (c + Z.of_nat (length bs)).
Proof.
  intros Hlo Hb Hhi. destruct (wr_bytes_in m c bs) as (m' & -> & Hf); [lia..|].
  exists m'. split_and!; [done|by destruct Hf|]. split; [|lia]. eapply frame_widen; [exact Hf|lia..].
Qed.

Lemma advanced_length lo hi m c m' c' : advanced lo hi m c m' c' -> length m' = length m.
Proof. by intros [[Hl _] _]. Qed.

#[local] Hint Resolve advanced_refl : core.
#[local] Hint Extern 1 (_ <= _) => lia : core.
#[local] Hint Extern 1 (_ < _) => lia : core.

Lemma copy_match_total n lo disp :
  forall m dst_cur hi,
  0 <= lo <= dst_cur -> dst_cur <= hi <= Z.of_nat (length m) -> 0 < disp -> lo <= dst_cur - disp ->
  exists m' c r, copy_match n m dst_cur hi disp = Some (m', c, r) /\ advanced lo hi m dst_cur m' c.
Proof.
  induction n as [|n IH]; intros m dst_cur hi Hlo Hhi Hd Hs; cbn [copy_match]; [eauto 6|].
  destruct (Z.leb_spec hi dst_cur) as [?|Hlt]; [eauto 6|].
  destruct (get_in 1 m (dst_cur - disp)) as (b & ->); [lia..|]. cbn [mbind option_bind]. unfold set.
  destruct (advanced_write lo hi m dst_cur (le 1 b)) as (m1 & -> & Hl & Ha); [rewrite ?length_le; lia..|].
  rewrite length_le in Ha. cbn [mbind option_bind].
  destruct (IH m1 (dst_cur + 1) hi) as (m' & c & r & -> & Ha'); [rewrite ?Hl; lia..|].
  eauto 6 using advanced_trans.
Qed.

Lemma back_reference_total m s dst dst_cur hi src_cur src_end :
  bytes_ok s -> 0 <= src_cur <= src_end -> src_end <= Z.of_nat (length s) ->
  0 <= dst <= dst_cur -> dst_cur <= hi <= Z.of_nat (length m) ->
  exists m' c sc r, back_reference m s dst dst_cur hi src_cur src_end = Some (m', c, sc, r) /\
    advanced dst hi m dst_cur m' c /\ src_cur <= sc <= src_end.
Proof.
  intros Hok Hsrc Hse Hdst Hhi. unfold back_reference.
  destruct (Z.ltb_spec src_end (src_cur + 2)) as [?|Hge]; [eauto 10|].
  destruct (get_in 2 s src_cur) as (code & Hcode); [lia..|]. rewrite Hcode. cbn [mbind option_bind].
  apply get_some_range in Hcode as [Hcode _]; [|done].
  set (lb := 16 - displacement_loop 8 12 (dst_cur - dst)).
  assert (0 <= Z.shiftr code lb) by (apply Z.shiftr_nonneg; lia).
  destruct (Z.ltb_spec dst_cur (dst + (Z.shiftr code lb + 1))) as [?|Hv]; [eauto 10|].
  destruct (copy_match_total (Z.to_nat (Z.land code (Z.shiftl 1 lb - 1) + 3)) dst (Z.shiftr code lb + 1)
    m dst_cur hi) as (m' & c & r & -> & Ha); [lia..|]. eauto 10.
Qed.

(** The flags of a group: the marker bit reaches bit 7 after eight shifts. *)
Lemma has_ff00 x : 0 <= x < 2 ^ 16 -> has x 0xFF00 = (256 <=? x).
Proof.
  intros Hx. unfold has. change 0xFF00 with (Z.shiftl (Z.ones 8) 8).
  assert (E : Z.land x (Z.shiftl (Z.ones 8) 8) = Z.shiftl (Z.shiftr x 8) 8).
  { apply Z.bits_inj'. intros i Hi. rewrite Z.land_spec.
    destruct (Z.lt_ge_cases i 8); [rewrite !Z.shiftl_spec_low by lia; apply andb_false_r|].
    rewrite !Z.shiftl_spec, Z.shiftr_spec by lia. replace (i - 8 + 8) with i by lia.
    destruct (Z.lt_ge_cases i 16).
    - rewrite Z.ones_spec_low by lia. apply andb_true_r.
    - rewrite (testbit_high x 16) by lia. done. }
  rewrite E, Z.shiftl_mul_pow2, Z.shiftr_div_pow2 by lia.
  destruct (Z.leb_spec 256 x), (Z.eqb_spec (x / 2 ^ 8 * 2 ^ 8) 0); try done; exfalso;
    change (2 ^ 8) with 256 in *; Z.div_mod_to_equations; lia.
Qed.

Lemma flags_shift j flags :
  0 <= flags < 2 ^ (8 + Z.of_nat (S j)) -> 0 <= Z.shiftr flags 1 < 2 ^ (8 + Z.of_nat j).
Proof.
  rewrite Nat2Z.inj_succ. replace (8 + Z.succ (Z.of_nat j)) with (Z.succ (8 + Z.of_nat j)) by lia.
  rewrite Z.pow_succ_r, Z.shiftr_div_pow2 by lia. change (2 ^ 1) with 2. intros H.
  Z.div_mod_to_equations; lia.
Qed.

Lemma entities_total j :
  forall m s dst dst_cur hi src_cur src_end flags,
  bytes_ok s -> 0 <= src_cur <= src_end -> src_end <= Z.of_nat (length s) ->
  0 <= dst <= dst_cur -> dst_cur <= hi <= Z.of_nat (length m) -> 0 <= flags < 2 ^ (8 + Z.of_nat j) ->
  exists m' c sc r, entities (S j) m s dst dst_cur hi src_cur src_end flags = Some (m', c, sc, r) /\
    advanced dst hi m dst_cur m' c /\ src_cur <= sc <= src_end.
Proof.
  induction j as [|j IH]; intros m s dst dst_cur hi src_cur src_end flags Hok Hsrc Hse Hdst Hhi Hfl;
    (destruct (has flags 0xFF00 && (src_cur <? src_end)) eqn:Eh;
     [|cbn [entities]; rewrite Eh; eauto 10]).
  { rewrite has_ff00, (proj2 (Z.leb_gt 256 flags)) in Eh by lia. done. }
  apply flags_shift in Hfl. remember (S j) as fuel eqn:Ef. cbn [entities]. rewrite Eh.
  apply andb_true_iff in Eh as [_ Hlt%Z.ltb_lt]. destruct (has flags 1).
  - destruct (back_reference_total m s dst dst_cur hi src_cur src_end)
      as (m1 & c1 & sc1 & r & -> & Ha & Hs); [done..|]. cbn [mbind option_bind].
    pose proof (advanced_length _ _ _ _ _ _ Ha) as Hl. pose proof Ha as [_ Hc].
    destruct r; [|eauto 10..].
    destruct (IH m1 s dst c1 hi sc1 src_end (Z.shiftr flags 1)) as (m2 & c2 & sc2 & r2 & -> & Ha2 & Hs2);
      [done|lia..|]. exists m2, c2, sc2, r2. split_and!; eauto using advanced_trans.
  - destruct (Z.leb_spec hi dst_cur); [eauto 10|].
    destruct (get_in 1 s src_cur) as (b & ->); [lia..|]. cbn [mbind option_bind]. unfold set.
    destruct (advanced_write dst hi m dst_cur (le 1 b)) as (m1 & -> & Hl & Ha); [rewrite ?length_le; lia..|].
    rewrite length_le in Ha. cbn [mbind option_bind].
    destruct (IH m1 s dst (dst_cur + 1) hi (src_cur + 1) src_end (Z.shiftr flags 1))
      as (m2 & c2 & sc2 & r2 & -> & Ha2 & Hs2); [done|lia..|].
    exists m2, c2, sc2, r2. split_and!; eauto using advanced_trans.
Qed.

Lemma chunk_loop_total fuel :
  forall m s dst dst_cur hi src_cur src_end,
  bytes_ok s -> 0 <= src_cur <= src_end -> src_end <= Z.of_nat (length s) ->
  0 <= dst <= dst_cur -> dst_cur <= hi <= Z.of_nat (length m) -> src_end - src_cur < Z.of_nat fuel ->
  exists m' r c, chunk_loop fuel m s dst dst_cur hi src_cur src_end = Some (m', r) /\
    advanced dst hi m dst_cur m' c /\ (r = Some c \/ r = None).
Proof.
  induction fuel as [|fuel IH]; intros m s dst dst_cur hi src_cur src_end Hok Hsrc Hse Hdst Hhi Hf; [lia|].
  cbn [chunk_loop]. destruct ((src_cur <? src_end) && _) eqn:Ec; [|eauto 10].
  apply andb_true_iff in Ec as [Hlt%Z.ltb_lt Hlt2%Z.ltb_lt].
  destruct (get_in 1 s src_cur) as (b & Hb); [lia..|]. rewrite Hb. cbn [mbind option_bind].
  apply get_some_range in Hb; [|done]. change (256 ^ Z.of_nat 1) with 256 in Hb.
  destruct (entities_total 8 m s dst dst_cur hi (src_cur + 1) src_end (Z.lor 0x8000 b))
    as (m1 & c1 & sc1 & r & -> & Ha & Hs); [done|lia..|apply lor_range; lia|]. cbn [mbind option_bind].
  pose proof (advanced_length _ _ _ _ _ _ Ha) as Hl. pose proof Ha as [_ Hc].
  destruct r; [|eauto 10..].
  destruct (IH m1 s dst c1 hi sc1 src_end) as (m2 & r2 & c2 & -> & Ha2 & Hr); [done|lia..|].
  exists m2, r2, c2. split_and!; eauto using advanced_trans.
Qed.

Lemma decompress_chunk_total m s dst size src n :
  bytes_ok s -> 0 <= src -> 0 <= n -> src + n <= Z.of_nat (length s) ->
  0 <= dst -> 0 <= size -> dst + size <= Z.of_nat (length m) ->
  exists m' r c, lznt1_decompress_chunk m dst size s src n = Some (m', r) /\
    advanced dst (dst + size) m dst m' c /\ (r = Some c \/ r = None).
Proof. intros. apply chunk_loop_total; done || lia. Qed.

(** The results a decompression may have. *)
Definition result_ok (m : mem) (dst_size : Z) (r : Z * mem * option Z) : Prop :=
  let '(Status, m', final_size) := r in
  frame 0 dst_size m m' /\
  (Status = STATUS_SUCCESS /\ (exists n, final_size = Some n /\ 0 <= n <= dst_size) \/
   (Status = STATUS_BAD_COMPRESSION_BUFFER \/ Status = STATUS_ACCESS_VIOLATION) /\ final_size = None).

Lemma finish_ok m hi m' c :
  advanced 0 hi m 0 m' c -> hi < 2 ^ 32 -> result_ok m hi (finish m' 0 c).
Proof.
  intros [Hf Hc] Hhi. split; [done|left]. split; [done|]. eexists. split; [done|].
  rewrite u32_small; lia.
Qed.

Lemma bad_ok m hi m' c : advanced 0 hi m 0 m' c -> result_ok m hi (bad_buffer m').
Proof. intros [Hf _]. split; [done|right]. auto. Qed.

#[local] Hint Resolve finish_ok bad_ok : core.

Lemma chunk_size_range h : 0 <= h -> 1 <= Z.land h 0xFFF + 1 <= 4096.
Proof.
  intros Hh. change 0xFFF with (Z.ones 12). rewrite Z.land_ones by lia.
  pose proof (Z.mod_pos_bound h (2 ^ 12)). lia.
Qed.

Lemma get16_in s p :
  bytes_ok s -> 0 <= p -> p + 2 <= Z.of_nat (length s) -> exists h, get16 s p = Some h /\ 1 <= Z.land h 0xFFF + 1 <= 4096.
Proof.
  intros Hok Hp Hl. destruct (get_in 2 s p) as (h & Hh); [lia..|]. exists h. split; [done|].
  apply get_some_range in Hh; [|done]. apply chunk_size_range. lia.
Qed.

Ltac returns := eexists; split; [reflexivity|]; cbv beta iota; solve [eauto 10].

Lemma skip_chunks_total fuel hi m s src_end :
  bytes_ok s -> src_end <= Z.of_nat (length s) -> 0 <= hi < 2 ^ 32 ->
  forall src_cur offset, 0 <= src_cur <= src_end -> 0 <= offset -> src_end - src_cur < Z.of_nat fuel ->
  exists r, skip_chunks fuel m s 0 src_cur src_end offset = Some r /\
    match r with
    | inl r => result_ok m hi r
    | inr (src_cur', offset') => src_cur <= src_cur' <= src_end /\ 0 <= offset' <= offset
    end.
Proof.
  intros Hok Hse Hhi. induction fuel as [|fuel IH]; intros src_cur offset Hs Ho Hf; [lia|].
  cbn [skip_chunks]. destruct (_ && _) eqn:Ec.
  2:{ eexists. split; [done|]. simpl. lia. }
  apply andb_true_iff in Ec as [Hge%Z.leb_le Hle%Z.leb_le].
  destruct (get16_in s src_cur) as (h & -> & Hh); [done|lia..|]. cbn [mbind option_bind].
  destruct (h =? 0); [returns|]. destruct (Z.ltb_spec src_end (src_cur + 2 + (Z.land h 0xFFF + 1))); [returns|].
  destruct (IH (src_cur + 2 + (Z.land h 0xFFF + 1)) (offset - 0x1000)) as ([r|[sc o]] & -> & Hr); [lia..|returns|].
  eexists. split; [done|]. simpl. lia.
Qed.

(** A copy of [n] bytes of [s] (or of the work space) to the destination. *)
Lemma copy_total m s p c lo hi n :
  0 <= p -> 0 <= n -> p + n <= Z.of_nat (length s) ->
  0 <= lo <= c -> c + n <= hi -> hi <= Z.of_nat (length m) ->
  exists bs m', rd_bytes s p (Z.to_nat n) = Some bs /\ wr_bytes m c bs = Some m' /\
    length m' = length m /\ advanced lo hi m c m' (c + n).
Proof.
  intros. destruct (rd_bytes_in s p (Z.to_nat n)) as (bs & -> & Hbs); [lia..|].
  destruct (advanced_write lo hi m c bs) as (m' & Hm' & Hl & Ha); [lia..|].
  exists bs, m'. replace (c + n) with (c + Z.of_nat (length bs)) by lia. done.
Qed.

Lemma partial_chunk_total m s w hi src_cur src_end offset :
  bytes_ok s -> src_end <= Z.of_nat (length s) -> 0 <= hi < 2 ^ 32 -> hi <= Z.of_nat (length m) ->
  (forall w', w = Some w' -> 4096 <= Z.of_nat (length w')) ->
  0 <= src_cur <= src_end -> 0 <= offset ->
  exists r, partial_chunk m s w 0 hi src_cur src_end offset = Some r /\
    match r with
    | inl r => result_ok m hi r
    | inr (m', dst_cur, src_cur') => advanced 0 hi m 0 m' dst_cur /\ src_cur <= src_cur' <= src_end
    end.
Proof.
  intros Hok Hse Hhi Hm Hw Hs Ho. unfold partial_chunk.
  destruct (_ && _) eqn:Ec; [|returns].
  apply andb_true_iff in Ec as [_ Hle%Z.leb_le].
  destruct (get16_in s src_cur) as (h & -> & Hh); [done|lia..|]. cbn [mbind option_bind].
  set (n := Z.land h 0xFFF + 1) in *.
  destruct (h =? 0); [returns|]. destruct (Z.ltb_spec src_end (src_cur + 2 + n)); [returns|].
  destruct (Z.leb_spec hi 0); [returns|].
  destruct (has h 0x8000).
  - destruct w as [w|].
    2:{ eexists. split; [done|]. split; [apply frame_refl|]. auto. }
    specialize (Hw w eq_refl).
    destruct (decompress_chunk_total w s 0 0x1000 (src_cur + 2) n) as (w' & r & c & -> & Ha & Hr); [done|lia..|].
    cbn [mbind option_bind]. destruct Hr as [->| ->]; [|returns].
    pose proof (advanced_length _ _ _ _ _ _ Ha) as Hl. destruct Ha as [_ Hc].
    destruct (Z.ltb_spec offset c); [|returns].
    destruct (copy_total m w' offset 0 0 hi (Z.min (c - offset) (hi - 0))) as (bs & m' & -> & Hwr & _ & Ha); [lia..|].
    cbn [mbind option_bind]. rewrite Hwr. returns.
  - destruct (Z.ltb_spec offset n); [|returns].
    destruct (copy_total m s (src_cur + 2 + offset) 0 0 hi (Z.min (n - offset) (hi - 0)))
      as (bs & m' & -> & Hwr & _ & Ha); [lia..|].
    cbn [mbind option_bind]. rewrite Hwr. returns.
Qed.

Lemma add_padding_total m hi c offset :
  0 <= c -> hi <= Z.of_nat (length m) ->
  c <= hi ->
  exists r, add_padding m 0 c hi offset = Some r /\
    match r with
    | None => True
    | Some (m', c') => length m' = length m /\ advanced 0 hi m c m' c'
    end.
Proof.
  intros Hc Hm Hhi. unfold add_padding. set (k := Z.land _ 0xFFF).
  assert (0 <= k < 4096).
  { unfold k. change 0xFFF with (Z.ones 12). rewrite Z.land_ones by lia.
    apply (Z.mod_pos_bound _ (2 ^ 12)). lia. }
  destruct (Z.eqb_spec k 0); [returns|].
  destruct (Z.leb_spec hi (c + (0x1000 - k))); [returns|]. unfold RtlZeroMemory.
  destruct (advanced_write 0 hi m c (replicate (Z.to_nat (0x1000 - k)) 0)) as (m' & -> & Hl & Ha);
    [rewrite ?length_replicate; lia..|].
  rewrite length_replicate in Ha. replace (Z.of_nat (Z.to_nat (0x1000 - k))) with (0x1000 - k) in Ha by lia.
  eexists. split; [done|]. done.
Qed.

Lemma whole_chunks_total fuel m0 s hi src_end offset :
  bytes_ok s -> src_end <= Z.of_nat (length s) -> 0 <= hi < 2 ^ 32 -> hi <= Z.of_nat (length m0) ->
  forall m dst_cur src_cur,
  0 <= src_cur <= src_end -> advanced 0 hi m0 0 m dst_cur -> src_end - src_cur < Z.of_nat fuel ->
  exists r, whole_chunks fuel m s 0 dst_cur hi src_cur src_end offset = Some r /\ result_ok m0 hi r.
Proof.
  intros Hok Hse Hhi Hm0. induction fuel as [|fuel IH]; intros m c src_cur Hs Ha Hf; [lia|].
  cbn [whole_chunks]. destruct (Z.leb_spec (src_cur + 2) src_end) as [Hle|]; [|returns].
  destruct (get16_in s src_cur) as (h & -> & Hh); [done|lia..|]. cbn [mbind option_bind].
  set (n := Z.land h 0xFFF + 1) in *.
  destruct (h =? 0); [returns|]. destruct (Z.ltb_spec src_end (src_cur + 2 + n)); [returns|].
  pose proof (advanced_length _ _ _ _ _ _ Ha) as Hl. pose proof Ha as [_ Hc].
  destruct (add_padding_total m hi c offset) as ([[m1 c1]|] & -> & H1); [lia..| |returns].
  destruct H1 as [Hl1 Ha1]. pose proof (advanced_trans _ _ _ _ _ _ _ _ Ha Ha1) as Ha2.
  cbn [mbind option_bind]. destruct (Z.leb_spec hi c1); [returns|]. destruct Ha1 as [_ Hc1].
  destruct (has h 0x8000).
  - destruct (decompress_chunk_total m1 s c1 (hi - c1) (src_cur + 2) n) as (m2 & r & c2 & -> & [Hf3 Hc3] & Hr);
      [done|lia..|]. cbn [mbind option_bind].
    assert (Ha3 : advanced 0 hi m1 c1 m2 c2).
    { split; [|lia]. eapply frame_widen; [exact Hf3|lia..]. }
    pose proof (advanced_trans _ _ _ _ _ _ _ _ Ha2 Ha3). destruct Hr as [->| ->]; [|returns].
    apply IH; [lia|done|lia].
  - destruct (copy_total m1 s (src_cur + 2) c1 0 hi (Z.min n (hi - c1))) as (bs & m2 & -> & Hwr & _ & Ha3); [lia..|].
    cbn [mbind option_bind]. rewrite Hwr. cbn [mbind option_bind].
    apply IH; [lia|by eapply advanced_trans|lia].
Qed.

(** * Laws: well formed input *)

(** A destination region whose part [old], behind [pre], holds [h] at its start. *)
Definition filled (pre h old : list Z) : mem := pre ++ h ++ drop (length h) old.

Lemma filled_write pre h old bs p :
  p = Z.of_nat (length pre) + Z.of_nat (length h) -> (length (h ++ bs) <= length old)%nat ->
  wr_bytes (filled pre h old) p bs = Some (filled pre (h ++ bs) old).
Proof.
  intros -> Hl. rewrite length_app in Hl. unfold filled.
  rewrite <- (app_nil_r (drop (length h) old)), wr_bytes_next.
  - rewrite app_nil_r, drop_drop, length_app. done.
  - done.
  - rewrite length_drop. lia.
Qed.

Lemma filled_lookup pre h old j i :
  i = (length pre + j)%nat -> (j < length h)%nat -> filled pre h old !! i = h !! j.
Proof.
  intros -> Hj. unfold filled. rewrite lookup_app_r, lookup_app_l by lia. f_equal. lia.
Qed.

Lemma le1_byte b : 0 <= b < 256 -> le 1 b = [b].
Proof. intros Hb. cbn [le]. unfold u8. by rewrite Z.mod_small. Qed.

Lemma displacement_loop_spec n :
  forall k d, 4 <= k -> k = 4 + Z.of_nat n -> 0 <= d ->
  displacement_loop n k d = Z.max 4 (Z.min k (Z.log2_up d)).
Proof.
  induction n as [|n IH]; intros k d Hk Hn Hd; cbn [displacement_loop]; [lia|].
  rewrite Z.shiftl_mul_pow2, Z.mul_1_l by lia. destruct (Z.ltb_spec (2 ^ (k - 1)) d) as [Hlt|Hge].
  - apply Z.log2_up_lt_pow2 in Hlt; lia.
  - rewrite IH by lia. assert (Z.log2_up d <= k - 1); [|lia].
    destruct (Z.eq_dec d 0) as [->|]; [change (Z.log2_up 0) with 0; lia|].
    apply Z.log2_up_le_pow2; lia.
Qed.

Lemma displacement_width_loop h :
  displacement_loop 8 12 (Z.of_nat (length h)) = displacement_width h.
Proof. apply displacement_loop_spec; lia. Qed.

Lemma copy_back_prefix n d : forall h, exists x, copy_back n h d = h ++ x /\ length x = n.
Proof.
  induction n as [|n IH]; intros h; cbn [copy_back]; [exists []; by rewrite app_nil_r|].
  destruct (IH (h ++ [nth (length h - d) h 0])) as (x & -> & Hx).
  eexists. rewrite <- app_assoc. split; [done|]. simpl. lia.
Qed.

Lemma expand_token_prefix h t : exists x, expand_token h t = h ++ x.
Proof.
  destruct t as [b|d n]; [by exists [b]|]. destruct (copy_back_prefix n d h) as (x & Hx & _). by exists x.
Qed.

Lemma expand_prefix ts : forall h, exists x, expand h ts = h ++ x.
Proof.
  induction ts as [|t ts IH]; intros h; [exists []; by rewrite app_nil_r|].
  change (expand h (t :: ts)) with (expand (expand_token h t) ts).
  destruct (IH (expand_token h t)) as (x & ->), (expand_token_prefix h t) as (y & ->).
  exists (y ++ x). by rewrite app_assoc.
Qed.

Lemma expand_groups_prefix gs : forall h, exists x, expand_groups h gs = h ++ x.
Proof.
  induction gs as [|g gs IH]; intros h; [exists []; by rewrite app_nil_r|].
  change (expand_groups h (g :: gs)) with (expand_groups (expand h g) gs).
  destruct (IH (expand h g)) as (x & ->), (expand_prefix g h) as (y & ->).
  exists (y ++ x). by rewrite app_assoc.
Qed.

(** The outcome of producing [h'] in a place of [size] bytes. *)
Definition room (size : nat) (h' : list Z) : outcome :=
  if decide (length h' <= size)%nat then Continue else Done.

Lemma room_stop size h : (size < length h)%nat -> room size h = Done.
Proof. intros H. unfold room. rewrite decide_False; [done|lia]. Qed.

Lemma room_go size h : (length h <= size)%nat -> room size h = Continue.
Proof. intros H. unfold room. by rewrite decide_True. Qed.

Lemma take_full_prefix size (h x : list Z) : length h = size -> take size (h ++ x) = h.
Proof. intros <-. apply take_app_length. Qed.

Lemma take_min_length (l : list Z) n : take (length l `min` n) l = take n l.
Proof. rewrite <- take_take, take_ge; [done|]. rewrite length_take. lia. Qed.

Lemma copy_match_spec n pre old d size :
  forall h, (1 <= d <= length h)%nat -> (length h <= size)%nat -> (size <= length old)%nat ->
  Forall (fun b => 0 <= b < 256) h ->
  copy_match n (filled pre h old) (Z.of_nat (length pre) + Z.of_nat (length h))
    (Z.of_nat (length pre) + Z.of_nat size) (Z.of_nat d)
  = let h' := copy_back n h d in
    Some (filled pre (take size h') old, Z.of_nat (length pre) + Z.of_nat (length (take size h')), room size h').
Proof.
  induction n as [|n IH]; intros h Hd Hh Hs Hok; cbn [copy_match].
  - simpl. rewrite room_go, take_ge by done. done.
  - cbn [copy_back]. set (b := nth (length h - d) h 0).
    destruct (Z.leb_spec (Z.of_nat (length pre) + Z.of_nat size) (Z.of_nat (length pre) + Z.of_nat (length h))).
    + destruct (copy_back_prefix n d (h ++ [b])) as (x & -> & _). rewrite <- app_assoc. cbv zeta.
      rewrite room_stop, take_full_prefix; [done|lia|rewrite length_app; simpl; lia].
    + assert (Hb : (h !! (length h - d)%nat) = Some b).
      { destruct (lookup_lt_is_Some_2 h (length h - d)) as (v & Hv); [lia|]. rewrite Hv. f_equal.
        symmetry. apply nth_lookup_Some. done. }
      assert (0 <= b < 256) by (rewrite Forall_lookup in Hok; by eapply Hok).
      rewrite get8_eq, (filled_lookup _ _ _ (length h - d)), Hb by lia. cbn [mbind option_bind].
      unfold set. rewrite le1_byte, filled_write; [|done|rewrite length_app; simpl; lia|done].
      cbn [mbind option_bind].
      replace (_ + _ + 1) with (Z.of_nat (length pre) + Z.of_nat (length (h ++ [b])))
        by (rewrite length_app; simpl; lia).
      apply IH; rewrite ?length_app; simpl; try lia. apply Forall_app. auto.
Qed.

Lemma displacement_width_range h : 4 <= displacement_width h <= 12.
Proof. unfold displacement_width. lia. Qed.

Lemma copy_back_ok n d :
  forall h, bytes_ok h -> (1 <= d <= length h)%nat -> bytes_ok (copy_back n h d).
Proof.
  induction n as [|n IH]; intros h Hok Hd; cbn [copy_back]; [done|].
  apply IH; [|rewrite length_app; simpl; lia]. apply Forall_app. split; [done|].
  constructor; [|done]. eapply Forall_nth in Hok; [exact Hok|lia].
Qed.

Lemma expand_token_ok h t : bytes_ok h -> token_ok h t -> bytes_ok (expand_token h t).
Proof.
  intros Hh. destruct t as [b|d n]; simpl.
  - intros Hb. apply Forall_app. split; [done|]. by constructor.
  - intros (Hd & _). by apply copy_back_ok.
Qed.

Lemma expand_ok ts : forall h, bytes_ok h -> tokens_ok h ts -> bytes_ok (expand h ts).
Proof.
  induction ts as [|t ts IH]; intros h Hh Ht; [done|]. destruct Ht as [Ht Hts].
  apply (IH (expand_token h t)); [by apply expand_token_ok|done].
Qed.

(** The two fields of a reference. *)
Lemma code_fields w d n :
  4 <= w <= 12 -> 1 <= d <= 2 ^ w -> 3 <= n <= 2 ^ (16 - w) + 2 ->
  let code := (d - 1) * 2 ^ (16 - w) + (n - 3) in
  0 <= code < 2 ^ 16 /\ Z.land code (Z.shiftl 1 (16 - w) - 1) + 3 = n /\
  Z.shiftr code (16 - w) + 1 = d.
Proof.
  intros Hw Hd Hn code. assert (Hp : 0 < 2 ^ (16 - w)) by (apply Z.pow_pos_nonneg; lia).
  assert (H16 : 2 ^ 16 = 2 ^ w * 2 ^ (16 - w)) by (rewrite <- Z.pow_add_r by lia; f_equal; lia).
  unfold code. split_and!; [nia|nia| |].
  - rewrite Z.shiftl_mul_pow2, Z.mul_1_l by lia.
    replace (2 ^ (16 - w) - 1) with (Z.ones (16 - w)) by (rewrite Z.ones_equiv; lia).
    rewrite Z.land_ones, (Z.add_comm ((d - 1) * _)), Z.mod_add, Z.mod_small by lia. lia.
  - rewrite Z.shiftr_div_pow2, Z.div_add_l, Z.div_small by lia. lia.
Qed.

Lemma back_reference_spec pre old s size h d n spre stail src_end :
  token_ok h (Ref d n) -> bytes_ok h -> (length h <= size)%nat -> (size <= length old)%nat ->
  s = spre ++ encode_token h (Ref d n) ++ stail -> Z.of_nat (length spre) + 2 <= src_end ->
  let h' := expand_token h (Ref d n) in
  back_reference (filled pre h old) s (Z.of_nat (length pre)) (Z.of_nat (length pre) + Z.of_nat (length h))
    (Z.of_nat (length pre) + Z.of_nat size) (Z.of_nat (length spre)) src_end
  = Some (filled pre (take size h') old, Z.of_nat (length pre) + Z.of_nat (length (take size h')),
      Z.of_nat (length spre) + 2, room size h').
Proof.
  intros (Hd & Hdw & Hn) Hok Hsz Hold -> Hend h'. unfold back_reference, encode_token.
  pose proof (displacement_width_range h) as Hw.
  destruct (code_fields (displacement_width h) (Z.of_nat d) (Z.of_nat n)) as (Hc & Hl & Hdis); [lia..|].
  rewrite (proj2 (Z.ltb_ge src_end _)) by lia.
  rewrite get_app by (done || by rewrite length_le). rewrite le_val_le by exact Hc. cbn [mbind option_bind].
  replace (Z.of_nat (length pre) + Z.of_nat (length h) - Z.of_nat (length pre)) with (Z.of_nat (length h)) by lia.
  rewrite displacement_width_loop, Hl, Hdis, Nat2Z.id.
  rewrite (proj2 (Z.ltb_ge (_ + Z.of_nat (length h)) _)) by lia.
  rewrite copy_match_spec by done. done.
Qed.

Lemma flags_of_range ts : 0 <= flags_of ts < 2 ^ Z.of_nat (length ts).
Proof.
  induction ts as [|t ts IH]; [simpl; lia|]. cbn [flags_of length].
  rewrite Nat2Z.inj_succ, Z.pow_succ_r by lia. destruct (is_ref t); simpl Z.b2z; lia.
Qed.

(** The flags word when [k] tokens may follow and [t] is next. *)
Lemma flags_next k t ts :
  (length ts <= k)%nat -> (k <= 7)%nat ->
  let flags := 2 ^ (7 + Z.of_nat (S k)) + flags_of (t :: ts) in
  has flags 0xFF00 = true /\ has flags 1 = is_ref t /\
  Z.shiftr flags 1 = 2 ^ (7 + Z.of_nat k) + flags_of ts.
Proof.
  intros Hts Hk flags. pose proof (flags_of_range ts) as Hr.
  assert (2 ^ Z.of_nat (length ts) <= 2 ^ Z.of_nat k) by (apply Z.pow_le_mono_r; lia).
  assert (2 ^ Z.of_nat k <= 2 ^ 7) by (apply Z.pow_le_mono_r; lia).
  assert (E : flags = 2 * (2 ^ 7 * 2 ^ Z.of_nat k + flags_of ts) + Z.b2z (is_ref t)).
  { unfold flags. cbn [flags_of]. rewrite Nat2Z.inj_succ, <- Z.add_1_l, !Z.pow_add_r by lia. lia. }
  assert (0 <= Z.b2z (is_ref t) <= 1) by (destruct (is_ref t); simpl; lia).
  assert (0 < 2 ^ Z.of_nat k) by lia. change (2 ^ 7) with 128 in *.
  rewrite E. split_and!.
  - rewrite has_ff00 by lia. apply Z.leb_le. lia.
  - rewrite has_1, Z.add_comm, Z.odd_add_mul_2. by destruct (is_ref t).
  - rewrite Z.shiftr_div_pow2, Z.pow_add_r by lia. change (2 ^ 1) with 2. change (2 ^ 7) with 128.
    Z.div_mod_to_equations; lia.
Qed.

Section Chunk.
Context (pre old : list Z) (size : nat) (Hold : (size <= length old)%nat).

(** The state of the decompression when the history is [h'], cut to the room there is. *)
Definition reached (h' : list Z) : mem * Z :=
  (filled pre (take size h') old, Z.of_nat (length pre) + Z.of_nat (length (take size h'))).

Lemma reached_all h : (length h <= size)%nat -> reached h = (filled pre h old, Z.of_nat (length pre) + Z.of_nat (length h)).
Proof. intros H. unfold reached. by rewrite take_ge. Qed.

Lemma reached_cut h x : (size <= length h)%nat -> reached (h ++ x) = reached h.
Proof. intros H. unfold reached. by rewrite take_app_le. Qed.

Lemma entities_step s k h t rest spre src_end flags :
  has flags 0xFF00 = true -> has flags 1 = is_ref t -> token_ok h t -> bytes_ok h -> (length h <= size)%nat ->
  s = spre ++ encode_token h t ++ rest -> Z.of_nat (length (spre ++ encode_token h t)) <= src_end ->
  let h' := expand_token h t in
  let run := entities (S (S k)) (filled pre h old) s (Z.of_nat (length pre))
    (Z.of_nat (length pre) + Z.of_nat (length h)) (Z.of_nat (length pre) + Z.of_nat size)
    (Z.of_nat (length spre)) src_end flags in
  ((length h' <= size)%nat -> run =
    entities (S k) (filled pre h' old) s (Z.of_nat (length pre))
    (Z.of_nat (length pre) + Z.of_nat (length h')) (Z.of_nat (length pre) + Z.of_nat size)
    (Z.of_nat (length (spre ++ encode_token h t))) src_end (Z.shiftr flags 1)) /\
  ((size < length h')%nat -> exists sc, run = Some (reached h', sc, Done)).
Proof.
  intros E1 E2 Ht Hh Hsz Hs Hend h' run. unfold run. remember (S k) as fuel. cbn [entities]. rewrite E1, E2.
  rewrite length_app in Hend |- *.
  assert (1 <= length (encode_token h t))%nat by (destruct t; simpl; lia).
  rewrite (proj2 (Z.ltb_lt (Z.of_nat (length spre)) src_end)) by lia. cbn [andb].
  destruct t as [b|d n]; cbn [is_ref].
  - assert (Hl : length h' = S (length h)) by (unfold h'; simpl; rewrite length_app; simpl; lia).
    split; intros Hle.
    + rewrite (proj2 (Z.leb_gt (_ + Z.of_nat size) _)) by lia.
      cbn [encode_token] in *. rewrite Hs, get_app by done. rewrite <- Hs. cbn [mbind option_bind le_val].
      replace (b + 256 * 0) with b by lia.
      unfold set. rewrite le1_byte, filled_write; [|done|rewrite length_app; simpl; lia|done].
      cbn [mbind option_bind length]. rewrite Hl. f_equal; lia.
    + rewrite (proj2 (Z.leb_le (_ + Z.of_nat size) _)) by lia. eexists.
      unfold h'. cbn [expand_token]. rewrite reached_cut, reached_all by lia. done.
  - rewrite (back_reference_spec pre old s size h d n spre rest) by (done || (simpl in Hend; lia)).
    fold h'. cbn [mbind option_bind]. split; intros Hle.
    + rewrite (room_go size h'), (take_ge h') by done. cbn [encode_token]. rewrite length_le. f_equal; lia.
    + rewrite room_stop by done. by eexists.
Qed.

Lemma entities_spec srest s g :
  forall k h stail spre src_end flags,
  tokens_ok h g -> bytes_ok h -> (length h <= size)%nat ->
  s = spre ++ encode_tokens h g ++ stail ++ srest ->
  src_end = Z.of_nat (length (spre ++ encode_tokens h g ++ stail)) ->
  (length g <= k <= 8)%nat -> (length g = k \/ stail = [])%nat ->
  flags = 2 ^ (7 + Z.of_nat k) + flags_of g ->
  exists sc,
    entities (S k) (filled pre h old) s (Z.of_nat (length pre)) (Z.of_nat (length pre) + Z.of_nat (length h))
      (Z.of_nat (length pre) + Z.of_nat size) (Z.of_nat (length spre)) src_end flags
    = Some (reached (expand h g), sc, room size (expand h g)) /\
    (room size (expand h g) = Continue -> sc = Z.of_nat (length (spre ++ encode_tokens h g))).
Proof.
  induction g as [|t ts IH]; intros k h stail spre src_end flags Hok Hh Hsz Hs Hend Hk Hlast Hfl.
  - change (expand h []) with h. rewrite room_go, reached_all by done.
    exists (Z.of_nat (length spre)). split; [|by rewrite app_nil_r]. cbn [entities].
    rewrite app_nil_l in Hend.
    replace (has flags 0xFF00 && (Z.of_nat (length spre) <? src_end)) with false; [done|].
    symmetry. destruct Hlast as [Hl | ->].
    + simpl in Hl. subst k flags. done.
    + rewrite app_nil_r in Hend. subst src_end. rewrite Z.ltb_irrefl. apply andb_false_r.
  - destruct Hok as [Ht Hts]. cbn [length] in *. destruct k as [|k]; [lia|].
    destruct (flags_next k t ts) as (E1 & E2 & E3); [lia..|]. rewrite <- Hfl in E1, E2, E3.
    cbn [encode_tokens] in *. rewrite <- app_assoc in Hs, Hend.
    change (expand h (t :: ts)) with (expand (expand_token h t) ts).
    destruct (entities_step s k h t (encode_tokens (expand_token h t) ts ++ stail ++ srest) spre src_end flags)
      as [Hgo Hstop]; [done..|subst src_end; rewrite !length_app; lia|].
    pose proof (expand_token_ok h t Hh Ht) as Hh'. set (h' := expand_token h t) in *.
    destruct (expand_prefix ts h') as (x & Hx).
    destruct (decide (length h' <= size)%nat) as [Hle|Hgt].
    + rewrite Hgo by done.
      destruct (IH k h' stail (spre ++ encode_token h t) src_end (Z.shiftr flags 1)) as (sc & E & Hsc);
        [done|done|done|by rewrite <- app_assoc|by rewrite <- app_assoc|lia|destruct Hlast; [left; lia|by right]|done|].
      exists sc. rewrite <- app_assoc in Hsc. done.
    + destruct Hstop as (sc & ->); [lia|]. exists sc.
      rewrite Hx, reached_cut, room_stop by (rewrite ?length_app; lia). done.
Qed.

(** The memory and the pointer a chunk's decompression leaves. *)
Lemma chunk_loop_spec srest s gs :
  forall fuel h spre,
  groups_ok h gs -> bytes_ok h -> (length h <= size)%nat ->
  s = spre ++ encode_groups h gs ++ srest -> (length gs < fuel)%nat ->
  let src_end := Z.of_nat (length (spre ++ encode_groups h gs)) in
  let '(m', c) := reached (expand_groups h gs) in
  chunk_loop fuel (filled pre h old) s (Z.of_nat (length pre)) (Z.of_nat (length pre) + Z.of_nat (length h))
    (Z.of_nat (length pre) + Z.of_nat size) (Z.of_nat (length spre)) src_end = Some (m', Some c).
Proof.
  induction gs as [|g gs IH]; intros fuel h spre Hok Hh Hsz Hs Hf src_end; (destruct fuel as [|fuel]; [simpl in Hf; lia|]).
  - change (expand_groups h []) with h. rewrite reached_all by done. cbn [chunk_loop].
    unfold src_end. rewrite app_nil_r, Z.ltb_irrefl. done.
  - change (expand_groups h (g :: gs)) with (expand_groups (expand h g) gs).
    destruct Hok as (Hg & Ht & Hgs). cbn [chunk_loop encode_groups] in *.
    rewrite <- app_comm_cons in *. set (body := encode_tokens h g) in *.
    set (rest := encode_groups (expand h g) gs) in *.
    rewrite (proj2 (Z.ltb_lt (Z.of_nat (length spre)) src_end)) by (unfold src_end; rewrite length_app; simpl; lia).
    destruct (expand_prefix g h) as (x & Hx). destruct (expand_groups_prefix gs (expand h g)) as (y & Hy).
    destruct (Z.ltb_spec (Z.of_nat (length pre) + Z.of_nat (length h)) (Z.of_nat (length pre) + Z.of_nat size)) as [Hlt|Hge]; cbn [andb].
    2:{ rewrite Hy, Hx, <- app_assoc, reached_cut, reached_all by lia. done. }
    pose proof (flags_of_range g) as Hr. assert (Hlg : (length g <= 8)%nat) by lia.
    assert (2 ^ Z.of_nat (length g) <= 2 ^ 8) by (apply Z.pow_le_mono_r; lia).
    assert (Hs' : s = (spre ++ [flags_of g]) ++ body ++ rest ++ srest) by (rewrite Hs, <- !app_assoc; simpl; by rewrite <- ?app_assoc).
    assert (Hse : src_end = Z.of_nat (length ((spre ++ [flags_of g]) ++ body ++ rest)))
      by (unfold src_end; f_equal; rewrite !length_app; simpl; rewrite ?length_app; simpl; lia).
    replace (get8 s (Z.of_nat (length spre))) with (Some (flags_of g)).
    2:{ rewrite Hs. change (flags_of g :: body ++ rest) with ([flags_of g] ++ body ++ rest).
        rewrite <- app_assoc, get_app by done. simpl. f_equal. lia. }
    cbn [mbind option_bind].
    destruct (entities_spec srest s g 8 h rest (spre ++ [flags_of g]) src_end (Z.lor 0x8000 (flags_of g)))
      as (sc & E & Hsc); [done..|lia| |change 0x8000 with (1 * 2 ^ 15); rewrite lor_add by lia; done|].
    { destruct Hg as [Hg|[_ ->]]; [by left|by right]. }
    replace (Z.of_nat (length spre) + 1) with (Z.of_nat (length (spre ++ [flags_of g])))
      by (rewrite length_app; simpl; lia).
    rewrite E. cbn [mbind option_bind].
    destruct (decide (length (expand h g) <= size)%nat) as [Hle|Hgt].
    + rewrite room_go in Hsc |- * by done. rewrite Hsc, Hse by done. rewrite (reached_all (expand h g)) by done.
      cbn beta iota. replace ((spre ++ [flags_of g]) ++ body ++ rest) with (((spre ++ [flags_of g]) ++ body) ++ rest)
        by (by rewrite <- app_assoc).
      apply IH; [done|by apply expand_ok|done|by rewrite <- app_assoc|simpl in Hf; lia].
    + rewrite Hy, reached_cut, room_stop by lia. done.
Qed.
End Chunk.

Lemma filled_nil pre old : filled pre [] old = pre ++ old.
Proof. done. Qed.

Lemma encode_groups_length gs : forall h, (length gs <= length (encode_groups h gs))%nat.
Proof.
  induction gs as [|g gs IH]; intros h; [simpl; lia|]. cbn [encode_groups length].
  rewrite length_app. specialize (IH (expand h g)). simpl. lia.
Qed.

Lemma decompress_packed pre old size gs s spre srest :
  groups_ok [] gs -> (size <= length old)%nat -> s = spre ++ encode_groups [] gs ++ srest ->
  let x := take size (expand_groups [] gs) in
  lznt1_decompress_chunk (pre ++ old) (Z.of_nat (length pre)) (Z.of_nat size) s
    (Z.of_nat (length spre)) (Z.of_nat (length (encode_groups [] gs)))
  = Some (filled pre x old, Some (Z.of_nat (length pre) + Z.of_nat (length x))).
Proof.
  intros Hok Hold Hs x. unfold lznt1_decompress_chunk. rewrite Nat2Z.id.
  pose proof (encode_groups_length gs []).
  pose proof (chunk_loop_spec pre old size Hold srest s gs (S (length (encode_groups [] gs))) [] spre
    Hok (Forall_nil_2 _) ltac:(simpl; lia) Hs ltac:(lia)) as H'.
  cbn zeta beta in H'. unfold reached in H'. cbn beta iota in H'. rewrite length_app, Nat2Z.inj_add in H'.
  cbn [length] in H'. rewrite Z.add_0_r in H'. exact H'.
Qed.

Definition is_packed (c : chunk) : bool := match c with Stored _ => false | Packed _ => true end.

(** The header a chunk starts with. *)
Lemma header_fields c :
  chunk_ok c ->
  0 <= header c < 2 ^ 16 /\ header c <> 0 /\ Z.land (header c) 0xFFF + 1 = Z.of_nat (length (body c)) /\
  has (header c) 0x8000 = is_packed c.
Proof.
  intros (Hb & _). unfold header. set (n := Z.of_nat (length (body c)) - 1).
  assert (Hn : 0 <= n < 2 ^ 12) by lia.
  assert (E : exists k, match c with Stored _ => 0x3000 | Packed _ => 0xB000 end = k * 2 ^ 12 /\ k = 3 + 8 * Z.b2z (is_packed c))
    by (eexists; split; [|reflexivity]; by destruct c).
  destruct E as (k & -> & Hk). assert (0 <= Z.b2z (is_packed c) <= 1) by (destruct c; simpl; lia).
  split_and!; [lia..| |].
  - change 0xFFF with (Z.ones 12). rewrite Z.land_ones, Z.add_comm, (Z.add_comm (k * _)), Z.mod_add, Z.mod_small by lia. lia.
  - unfold has. change 0x8000 with (2 ^ 15). rewrite <- Z.land_comm.
    rewrite <- (lor_add k n 12) by lia. rewrite Z.land_lor_distr_r.
    replace (Z.land (2 ^ 15) n) with 0.
    2:{ symmetry. apply Z.bits_inj'. intros i Hi. rewrite Z.land_spec, Z.bits_0, Z.pow2_bits_eqb by lia.
        destruct (Z.eqb_spec 15 i); [|done]. rewrite (testbit_high n 12) by lia. done. }
    rewrite Z.lor_0_r. subst k. by destruct c.
Qed.

(** Reading the header of the chunk at the front of the source. *)
Lemma get_header c spre rest p :
  chunk_ok c -> p = Z.of_nat (length spre) -> get16 (spre ++ encode_chunk c ++ rest) p = Some (header c).
Proof.
  intros Hc ->. destruct (header_fields c Hc) as (Hr & _). unfold encode_chunk. rewrite <- app_assoc.
  rewrite get_app by (done || by rewrite length_le). by rewrite le_val_le.
Qed.

Lemma get_tail spre t p :
  tail_ok t -> p = Z.of_nat (length spre) -> (2 <= length t)%nat -> get16 (spre ++ t) p = Some 0.
Proof.
  intros Ht Hp Hl. destruct t as [|a [|b t]]; [simpl in Hl; lia..|]. destruct Ht as [-> ->].
  change (0 :: 0 :: t) with ([0; 0] ++ t). by rewrite get_app.
Qed.

Lemma length_encode_chunk c : length (encode_chunk c) = (2 + length (body c))%nat.
Proof. unfold encode_chunk. by rewrite length_app, length_le. Qed.

Lemma add_padding_aligned m c hi offset :
  (c + offset) mod 4096 = 0 -> add_padding m 0 c hi offset = Some (Some (m, c)).
Proof.
  intros Ha. unfold add_padding, u32. change 0xFFF with (Z.ones 12). rewrite Z.land_ones by lia.
  rewrite Z.mod_mod_divide by (by exists (2 ^ 20)).
  rewrite Z.sub_0_r. change (2 ^ 12) with 4096. by rewrite Ha.
Qed.

Lemma add_padding_full m c offset :
  add_padding m 0 c c offset = Some None \/ add_padding m 0 c c offset = Some (Some (m, c)).
Proof.
  unfold add_padding. set (k := Z.land _ _). assert (0 <= k < 4096).
  { unfold k. change 0xFFF with (Z.ones 12). rewrite Z.land_ones by lia. apply (Z.mod_pos_bound _ (2 ^ 12)). lia. }
  destruct (Z.eqb_spec k 0); [by right|left]. rewrite (proj2 (Z.leb_le c _)) by lia. done.
Qed.

Section Buffer.
Context (m0 t : list Z) (size : nat).
Context (Ht : tail_ok t) (Hsize : (size <= length m0)%nat) (Hbound : Z.of_nat size < 2 ^ 32).

(** The end of the decompression with [x] in the destination. *)
Definition delivered (x : list Z) : Z * mem * option Z :=
  (STATUS_SUCCESS, filled [] x m0, Some (Z.of_nat (length x))).

Lemma finish_delivered x c :
  c = Z.of_nat (length x) -> (length x <= size)%nat -> finish (filled [] x m0) 0 c = delivered x.
Proof. intros -> Hx. unfold finish, delivered. rewrite u32_small by lia. by rewrite Z.sub_0_r. Qed.

(** One chunk, aligned or not needed any more. *)
Lemma whole_chunk_step fuel s c out spre rest offset :
  chunk_ok c -> (length out <= size)%nat -> s = spre ++ encode_chunk c ++ rest ->
  (Z.of_nat (length out) + offset) mod 4096 = 0 \/ length out = size ->
  let x := take size (out ++ contents c) in
  whole_chunks (S fuel) (filled [] out m0) s 0 (Z.of_nat (length out)) (Z.of_nat size)
    (Z.of_nat (length spre)) (Z.of_nat (length s)) offset
  = if decide (length out = size) then Some (delivered out) else
    whole_chunks fuel (filled [] x m0) s 0 (Z.of_nat (length x)) (Z.of_nat size)
    (Z.of_nat (length (spre ++ encode_chunk c))) (Z.of_nat (length s)) offset.
Proof.
  intros Hc Hout Hs Hal x. destruct (header_fields c Hc) as (Hh & Hnz & Hn & Hp).
  assert (Hlen : length s = (length spre + (2 + length (body c)) + length rest)%nat)
    by (rewrite Hs, !length_app, length_encode_chunk; lia).
  cbn [whole_chunks]. rewrite (proj2 (Z.leb_le (_ + 2) _)) by lia.
  rewrite Hs at 1. rewrite get_header by done. cbn [mbind option_bind].
  rewrite (proj2 (Z.eqb_neq _ _)) by done. rewrite Hn, Hp, (proj2 (Z.ltb_ge _ _)) by lia.
  destruct (decide (length out = size)) as [Hd|Hne].
  { rewrite <- Hd. destruct (add_padding_full (filled [] out m0) (Z.of_nat (length out)) offset) as [-> | ->]; cbn [mbind option_bind];
      [|rewrite (proj2 (Z.leb_le _ _)) by lia]; by rewrite finish_delivered. }
  destruct Hal as [Hal|]; [|done]. rewrite add_padding_aligned by done. cbn [mbind option_bind].
  rewrite (proj2 (Z.leb_gt _ _)) by lia.
  assert (Hpos : Z.of_nat (length (spre ++ encode_chunk c)) = Z.of_nat (length spre) + 2 + Z.of_nat (length (body c)))
    by (rewrite length_app, length_encode_chunk; lia).
  assert (Hs' : s = (spre ++ le 2 (header c)) ++ body c ++ rest)
    by (rewrite Hs; unfold encode_chunk; by rewrite <- !app_assoc).
  assert (Hp' : Z.of_nat (length spre) + 2 = Z.of_nat (length (spre ++ le 2 (header c))))
    by (rewrite length_app, length_le; lia).
  assert (Hx : x = out ++ take (size - length out) (contents c)) by (unfold x; by rewrite take_app_ge).
  destruct c as [bs|gs]; cbn [is_packed body contents] in *.
  - rewrite Hp' at 1. rewrite Hs' at 1.
    rewrite (rd_bytes_slice _ bs rest _ 0) by lia. cbn [mbind option_bind]. rewrite drop_0.
    replace (Z.to_nat _) with (length bs `min` (size - length out))%nat by lia. rewrite take_min_length.
    rewrite filled_write; [|done|rewrite <- Hx; unfold x; rewrite length_take; lia].
    rewrite <- Hx, Hpos. cbn [mbind option_bind]. f_equal. rewrite Hx, length_app, length_take. lia.
  - rewrite Hp' at 1. unfold filled at 1. rewrite app_nil_l.
    replace (Z.of_nat size - Z.of_nat (length out)) with (Z.of_nat (size - length out)) by lia.
    destruct Hc as (_ & _ & Hg).
    rewrite (decompress_packed out (drop (length out) m0) (size - length out) gs s _ rest Hg);
      [|rewrite length_drop; lia|done]. cbn [mbind option_bind].
    rewrite Hpos, Hx, length_app, Nat2Z.inj_add. unfold filled.
    rewrite app_nil_l, length_app, <- app_assoc, drop_drop. done.
Qed.

Lemma whole_chunks_spec s offset cs :
  forall fuel out spre,
  chunks_ok cs -> (length out <= size)%nat -> s = spre ++ encode cs ++ t -> (length cs < fuel)%nat ->
  cs = [] \/ (Z.of_nat (length out) + offset) mod 4096 = 0 \/ length out = size ->
  whole_chunks fuel (filled [] out m0) s 0 (Z.of_nat (length out)) (Z.of_nat size)
    (Z.of_nat (length spre)) (Z.of_nat (length s)) offset
  = Some (delivered (take size (out ++ uncompressed cs))).
Proof.
  induction cs as [|c cs IH]; intros fuel out spre Hok Hout Hs Hf Hal; (destruct fuel as [|fuel]; [simpl in Hf; lia|]).
  - change (uncompressed []) with (@nil Z). change (encode [] ++ t) with t in Hs.
    rewrite app_nil_r, take_ge by done. cbn [whole_chunks]. rewrite Hs, length_app.
    destruct (Z.leb_spec (Z.of_nat (length spre) + 2) (Z.of_nat (length spre + length t))).
    + rewrite get_tail by (done || lia). cbn [mbind option_bind]. by rewrite finish_delivered.
    + by rewrite finish_delivered.
  - destruct Hok as (Hc & Hfull & Hcs). destruct Hal as [|Hal]; [done|].
    change (encode (c :: cs)) with (encode_chunk c ++ encode cs) in Hs. rewrite <- app_assoc in Hs.
    change (uncompressed (c :: cs)) with (contents c ++ uncompressed cs).
    rewrite (whole_chunk_step fuel s c out spre (encode cs ++ t)) by done.
    destruct (decide (length out = size)) as [Hd|Hd]; [by rewrite take_full_prefix|].
    destruct Hal as [Hal|]; [|done].
    rewrite IH; [|done|rewrite length_take; lia|by rewrite <- app_assoc|simpl in Hf; lia|].
    + do 2 f_equal. rewrite app_assoc. destruct (decide (size <= length (out ++ contents c))%nat).
      * rewrite take_app_le by (rewrite length_take; lia). rewrite take_take, (take_app_le (out ++ _)) by done.
        f_equal. lia.
      * by rewrite (take_ge (out ++ contents c)) by lia.
    + destruct (decide (size <= length (out ++ contents c))%nat) as [Hge|Hlt].
      { right. right. rewrite length_take. lia. }
      destruct Hfull as [->|Hfull]; [by left|right; left].
      rewrite take_ge, length_app by lia.
      replace (_ + offset) with (Z.of_nat (length out) + offset + 1 * 4096) by lia. by rewrite Z.mod_add.
Qed.

(** The chunk the offset falls into: what it contributes is what follows [offset] in it. *)
Lemma partial_chunk_spec s w c spre rest offset :
  chunk_ok c -> s = spre ++ encode_chunk c ++ rest -> 0 < offset -> 4096 <= Z.of_nat (length w) ->
  let x := take size (drop (Z.to_nat offset) (contents c)) in
  partial_chunk m0 s (Some w) 0 (Z.of_nat size) (Z.of_nat (length spre)) (Z.of_nat (length s)) offset
  = Some (if decide (size = 0%nat) then inl (delivered [])
          else inr (filled [] x m0, Z.of_nat (length x), Z.of_nat (length (spre ++ encode_chunk c)))).
Proof.
  intros Hc Hs Ho Hw x. destruct (header_fields c Hc) as (Hh & Hnz & Hn & Hp).
  assert (Hlen : length s = (length spre + (2 + length (body c)) + length rest)%nat)
    by (rewrite Hs, !length_app, length_encode_chunk; lia).
  unfold partial_chunk. rewrite (proj2 (Z.eqb_neq offset 0)), (proj2 (Z.leb_le (_ + 2) _)) by lia. cbn [negb andb].
  rewrite Hs at 1. rewrite get_header by done. cbn [mbind option_bind].
  rewrite (proj2 (Z.eqb_neq _ _)) by done. rewrite Hn, Hp, (proj2 (Z.ltb_ge _ _)) by lia.
  destruct (decide (size = 0%nat)) as [Hz|Hz].
  { rewrite (proj2 (Z.leb_le _ _)) by lia. rewrite <- (finish_delivered [] 0) by (done || (simpl; lia)). done. }
  rewrite (proj2 (Z.leb_gt _ _)) by lia.
  assert (Hs' : s = (spre ++ le 2 (header c)) ++ body c ++ rest)
    by (rewrite Hs; unfold encode_chunk; by rewrite <- !app_assoc).
  assert (Hpos : Z.of_nat (length (spre ++ encode_chunk c)) = Z.of_nat (length spre) + 2 + Z.of_nat (length (body c)))
    by (rewrite length_app, length_encode_chunk; lia).
  assert (Hp' : Z.of_nat (length spre) + 2 = Z.of_nat (length (spre ++ le 2 (header c))))
    by (rewrite length_app, length_le; lia).
  (* the copy of the part behind the offset, from the work space or the source *)
  assert (Hcopy : forall src p, p = Z.of_nat (length src) + offset ->
    let block := Z.min (Z.of_nat (length (contents c)) - offset) (Z.of_nat size - 0) in
    forall post, offset < Z.of_nat (length (contents c)) ->
    rd_bytes (src ++ contents c ++ post) p (Z.to_nat block) = Some x /\
    wr_bytes m0 0 x = Some (filled [] x m0) /\ 0 + block = Z.of_nat (length x)).
  { intros src p -> block post Hlt. assert (Hx : length x = Z.to_nat block)
      by (unfold x, block; rewrite length_take, length_drop; lia).
    split_and!; [|apply (filled_write [] [] m0 x 0); [done|rewrite app_nil_l; unfold x; rewrite length_take; lia]|lia].
    rewrite (rd_bytes_slice _ _ _ _ (Z.to_nat offset)) by lia. f_equal. unfold x.
    replace (Z.to_nat block) with (length (drop (Z.to_nat offset) (contents c)) `min` size)%nat
      by (unfold block; rewrite length_drop; lia).
    apply take_min_length. }
  assert (Hnone : Z.of_nat (length (contents c)) <= offset -> x = [])
    by (intros; unfold x; rewrite drop_ge, take_nil by lia; done).
  destruct Hc as (_ & H4k & Hg). destruct c as [bs|gs]; cbn [is_packed body contents] in *.
  - destruct (Z.ltb_spec offset (Z.of_nat (length bs))) as [Hlt|Hge].
    + destruct (Hcopy (spre ++ le 2 (header (Stored bs))) _ eq_refl rest Hlt) as (E1 & E2 & E3).
      rewrite Hp', Hs' at 1. rewrite E1. cbn [mbind option_bind]. rewrite E2, E3, Hpos. done.
    + rewrite Hnone, Hpos by done. done.
  - pose proof (decompress_packed [] w (Z.to_nat 4096) gs s (spre ++ le 2 (header (Packed gs))) rest Hg ltac:(lia) Hs') as E.
    rewrite <- Hp' in E. cbn [length app] in E. change (Z.of_nat (Z.to_nat 4096)) with 0x1000 in E.
    change (Z.of_nat 0) with 0 in E. rewrite E. cbn [mbind option_bind]. rewrite take_ge by lia.
    rewrite Z.add_0_l. destruct (Z.ltb_spec offset (Z.of_nat (length (expand_groups [] gs)))) as [Hlt|Hge].
    + destruct (Hcopy [] offset ltac:(simpl; lia) (drop (length (expand_groups [] gs)) w) Hlt) as (E1 & E2 & E3).
      unfold filled at 1. rewrite E1. cbn [mbind option_bind]. rewrite E2, E3, Hpos. done.
    + rewrite Hnone, Hpos by done. done.
Qed.

Lemma skip_step fuel s c spre rest offset :
  chunk_ok c -> s = spre ++ encode_chunk c ++ rest -> 0x1000 <= offset ->
  skip_chunks (S fuel) m0 s 0 (Z.of_nat (length spre)) (Z.of_nat (length s)) offset
  = skip_chunks fuel m0 s 0 (Z.of_nat (length (spre ++ encode_chunk c))) (Z.of_nat (length s)) (offset - 0x1000).
Proof.
  intros Hc Hs Hge. destruct (header_fields c Hc) as (Hh & Hnz & Hn & Hp).
  assert (Hlen : (length spre + (2 + length (body c)) <= length s)%nat)
    by (rewrite Hs, !length_app, length_encode_chunk; lia).
  cbn [skip_chunks]. rewrite (proj2 (Z.leb_le 0x1000 _)), (proj2 (Z.leb_le (_ + 2) _)) by lia. cbn [andb].
  rewrite Hs at 1. rewrite get_header by done. cbn [mbind option_bind].
  rewrite (proj2 (Z.eqb_neq _ _)), Hn, (proj2 (Z.ltb_ge _ _)) by (done || lia).
  f_equal. rewrite length_app, length_encode_chunk. lia.
Qed.

Lemma skip_chunks_spec s cs :
  forall fuel spre offset,
  chunks_ok cs -> s = spre ++ encode cs ++ t -> 0 <= offset -> (length cs < fuel)%nat ->
  let run := skip_chunks fuel m0 s 0 (Z.of_nat (length spre)) (Z.of_nat (length s)) offset in
  run = Some (inl (delivered [])) /\ drop (Z.to_nat offset) (uncompressed cs) = [] \/
  exists cs' spre' offset', run = Some (inr (Z.of_nat (length spre'), offset')) /\
    chunks_ok cs' /\ s = spre' ++ encode cs' ++ t /\ 0 <= offset' /\ (length cs' <= length cs)%nat /\
    (offset' < 4096 \/ cs' = [] /\ (length t < 2)%nat) /\ offset' mod 4096 = offset mod 4096 /\
    drop (Z.to_nat offset) (uncompressed cs) = drop (Z.to_nat offset') (uncompressed cs').
Proof.
  induction cs as [|c cs IH]; intros fuel spre offset Hok Hs Ho Hf; (destruct fuel as [|fuel]; [simpl in Hf; lia|]);
    (destruct (Z.leb_spec 0x1000 offset) as [Hge|Hlt];
      [|right; eexists _, spre, offset; cbn [skip_chunks]; rewrite (proj2 (Z.leb_gt 0x1000 offset)) by lia;
        split_and!; try done; by left]).
  - cbn [skip_chunks]. rewrite (proj2 (Z.leb_le 0x1000 offset)) by lia.
    change (encode [] ++ t) with t in Hs. rewrite Hs, length_app. cbn [andb].
    destruct (Z.leb_spec (Z.of_nat (length spre) + 2) (Z.of_nat (length spre + length t))).
    + left. rewrite get_tail by (done || lia). cbn [mbind option_bind].
      rewrite <- (finish_delivered [] 0) by (done || (simpl; lia)). split; [done|apply drop_nil].
    + right. exists [], spre, offset. split_and!; try done. right. split; [done|lia].
  - destruct Hok as (Hc & Hfull & Hcs).
    change (encode (c :: cs)) with (encode_chunk c ++ encode cs) in Hs. rewrite <- app_assoc in Hs.
    change (uncompressed (c :: cs)) with (contents c ++ uncompressed cs).
    rewrite (skip_step fuel s c spre (encode cs ++ t)) by done.
    assert (Hdrop : drop (Z.to_nat offset) (contents c ++ uncompressed cs) = drop (Z.to_nat (offset - 0x1000)) (uncompressed cs)).
    { destruct Hc as (_ & H4k & _). rewrite drop_app_ge by lia. destruct Hfull as [->|Hfull]; [by change (uncompressed []) with (@nil Z); rewrite !drop_nil|].
      f_equal. lia. }
    rewrite Hdrop. destruct (IH fuel (spre ++ encode_chunk c) (offset - 0x1000)) as [Hl|(cs' & spre' & o' & E & Hok' & Hs' & Ho' & Hl' & Hc' & Hm & Hd)];
      [done|by rewrite <- app_assoc|lia|simpl in Hf; lia|by left|right].
    exists cs', spre', o'. split_and!; try done; [simpl; lia|].
    rewrite Hm, <- (Z.mod_add (offset - 0x1000) 1 4096) by lia. f_equal. lia.
Qed.

Lemma encode_length cs : (length cs <= length (encode cs))%nat.
Proof.
  induction cs as [|c cs IH]; [done|]. change (encode (c :: cs)) with (encode_chunk c ++ encode cs).
  rewrite length_app, length_encode_chunk. simpl. lia.
Qed.

Lemma partial_chunk_tail s workspace spre offset :
  s = spre ++ t ->
  let run := partial_chunk m0 s workspace 0 (Z.of_nat size) (Z.of_nat (length spre)) (Z.of_nat (length s)) offset in
  run = Some (inl (delivered [])) \/ run = Some (inr (m0, 0, Z.of_nat (length spre))).
Proof.
  intros ->. rewrite length_app. unfold partial_chunk.
  destruct (Z.leb_spec (Z.of_nat (length spre) + 2) (Z.of_nat (length spre + length t))).
  - destruct (Z.eqb_spec offset 0); cbn [negb andb]; [by right|left].
    rewrite get_tail by (done || lia). cbn [mbind option_bind].
    rewrite <- (finish_delivered [] 0) by (done || (simpl; lia)). done.
  - rewrite andb_false_r. by right.
Qed.

(** What follows [offset], cut to the room there is. *)
Lemma decompress_spec cs s offset workspace :
  chunks_ok cs -> s = encode cs ++ t -> (2 <= length s)%nat -> 0 <= offset ->
  offset mod 4096 = 0 \/ (exists w, workspace = Some w /\ 4096 <= Z.of_nat (length w)) ->
  lznt1_decompress m0 (Z.of_nat size) s (Z.of_nat (length s)) offset workspace
  = Some (delivered (take size (drop (Z.to_nat offset) (uncompressed cs)))).
Proof.
  intros Hok Hs Hl Ho Hw. unfold lznt1_decompress. rewrite (proj2 (Z.ltb_ge _ 2)), Nat2Z.id by lia.
  pose proof (encode_length cs). assert (length s = length (encode cs) + length t)%nat by (rewrite Hs; apply length_app).
  destruct (skip_chunks_spec s cs (S (length s)) [] offset)
    as [[E Hd]|(cs' & spre' & o & E & Hok' & Hs' & Ho' & Hl' & Hc' & Hm & Hd)]; [done..|lia| |];
    change (Z.of_nat (length [])) with 0 in E; rewrite E; cbn [mbind option_bind]; rewrite Hd; [by rewrite take_nil|].
  destruct (decide (o = 0)) as [->|Hne].
  { unfold partial_chunk. cbn [negb andb Z.eqb mbind option_bind].
    change m0 with (filled [] [] m0) at 1. rewrite (whole_chunks_spec s 0 cs' _ [] spre') by (done || (simpl; lia) || auto).
    done. }
  destruct cs' as [|c cs'].
  - change (uncompressed []) with (@nil Z). rewrite drop_nil, take_nil.
    destruct (partial_chunk_tail s workspace spre' o Hs') as [-> | ->]; [done|]. cbn [mbind option_bind].
    change m0 with (filled [] [] m0) at 1. rewrite (whole_chunks_spec s o [] _ [] spre') by (done || (simpl; lia) || auto).
    change (uncompressed []) with (@nil Z). by rewrite app_nil_l, take_nil.
  - destruct Hw as [Hw|(w & -> & Hw)].
    { exfalso. destruct Hc' as [Hc'|[]]; [|done]. rewrite Hw, Z.mod_small in Hm by lia. done. }
    change (encode (c :: cs')) with (encode_chunk c ++ encode cs') in Hs'. rewrite <- app_assoc in Hs'.
    destruct Hok' as (Hc & Hfull & Hcs'). destruct Hc' as [Hc'|[]]; [|done].
    rewrite (partial_chunk_spec s w c spre' (encode cs' ++ t)) by (done || lia). cbn [mbind option_bind].
    change (uncompressed (c :: cs')) with (contents c ++ uncompressed cs').
    destruct (decide (size = 0%nat)) as [Hz|Hz]; [by rewrite Hz|].
    rewrite (whole_chunks_spec s o cs' _ _ (spre' ++ encode_chunk c));
      [|done|rewrite length_take; lia|by rewrite <- app_assoc|simpl in Hl'; lia|].
    + do 2 f_equal. rewrite drop_app. destruct Hfull as [-> | Hfull].
      * change (uncompressed []) with (@nil Z). rewrite drop_nil, !app_nil_r, take_take. f_equal. lia.
      * replace (Z.to_nat o - length (contents c))%nat with 0%nat by lia. rewrite drop_0.
        set (y := drop _ _). destruct (decide (size <= length y)%nat).
        -- rewrite take_app_le by (rewrite length_take; lia). rewrite take_take, (take_app_le y) by done. f_equal. lia.
        -- rewrite (take_ge y) by lia. done.
    + destruct Hfull as [-> | Hfull]; [by left|right]. rewrite length_take, length_drop.
      destruct (decide (size <= length (contents c) - Z.to_nat o)%nat); [right; lia|left].
      replace (_ + o) with 4096 by lia. done.
Qed.
End Buffer.

(** ** Compression *)

(** The size of a block; folded, so that it is not counted out. *)
Definition CHUNK : nat := Z.to_nat 0x1000.

Lemma CHUNK_eq : Z.of_nat CHUNK = 0x1000.
Proof. done. Qed.

#[local] Opaque CHUNK.

(** The stored chunks of a source. *)
Fixpoint blocks (fuel : nat) (s : list Z) : list chunk :=
  match fuel with
  | O => []
  | S fuel' => match s with [] => [] | _ => Stored (take CHUNK s) :: blocks fuel' (drop CHUNK s) end
  end.

Lemma blocks_ok fuel :
  forall s, (length s < fuel)%nat -> chunks_ok (blocks fuel s) /\ uncompressed (blocks fuel s) = s.
Proof.
  pose proof CHUNK_eq.
  induction fuel as [|fuel IH]; intros s Hf; [lia|]. destruct s as [|b s']; [done|].
  set (s := b :: s') in *. assert (1 <= length s)%nat by (unfold s; simpl; lia).
  change (blocks (S fuel) s) with (Stored (take CHUNK s) :: blocks fuel (drop CHUNK s)).
  destruct (IH (drop CHUNK s)) as [Hok Hu]; [rewrite length_drop; lia|].
  split; [split; [|split; [|done]]|].
  - unfold chunk_ok. cbn [body contents]. rewrite length_take. split_and!; lia || done.
  - cbn [contents]. rewrite length_take. destruct (decide (CHUNK < length s)%nat); [right; lia|left].
    rewrite drop_ge by lia. by destruct fuel.
  - change (uncompressed (?c :: ?cs)) with (contents c ++ uncompressed cs). rewrite Hu. apply take_drop.
Qed.

Lemma blocks_cons fuel s :
  s <> [] -> blocks (S fuel) s = Stored (take CHUNK s) :: blocks fuel (drop CHUNK s).
Proof. by destruct s. Qed.

Lemma encode_cons c cs : encode (c :: cs) = encode_chunk c ++ encode cs.
Proof. done. Qed.

(** One block, with its header, behind the output so far, [d]. *)
Lemma compress_step s spre rest fuel d old room :
  s = spre ++ rest -> rest <> [] -> (room <= length old)%nat -> Z.of_nat (length s) < 2 ^ 31 ->
  let c := Stored (take CHUNK rest) in
  let n := length (encode_chunk c) in
  compress_loop (S fuel) s (d ++ old) (Z.of_nat (length spre)) (Z.of_nat (length s)) (Z.of_nat (length d))
    (Z.of_nat (length d + room))
  = if decide (n <= room)%nat
    then compress_loop fuel s ((d ++ encode_chunk c) ++ drop n old) (Z.of_nat (length (spre ++ take CHUNK rest)))
      (Z.of_nat (length s)) (Z.of_nat (length (d ++ encode_chunk c))) (Z.of_nat (length d + room))
    else Some (STATUS_BUFFER_TOO_SMALL, d ++ old, None).
Proof.
  pose proof CHUNK_eq.
  intros Hs Hne Hroom Hs31 c n. assert (Hpos : (1 <= length rest)%nat) by (destruct rest; [done|simpl; lia]).
  assert (Hn : n = (2 + length (take CHUNK rest))%nat) by apply length_encode_chunk.
  pose proof (length_take rest CHUNK) as Hlt.
  cbn [compress_loop]. rewrite (proj2 (Z.ltb_lt _ _)) by (rewrite Hs, length_app; lia).
  assert (Hls : length s = (length spre + length rest)%nat) by (by rewrite Hs, length_app).
  rewrite s32_small, u32_small by lia.
  replace (Z.min 0x1000 _) with (Z.of_nat (length (take CHUNK rest))) by lia.
  destruct (decide (n <= room)%nat) as [Hle|Hgt]; [|by rewrite (proj2 (Z.ltb_lt _ _)) by lia].
  rewrite (proj2 (Z.ltb_ge _ _)) by lia.
  replace (Z.lor 0x3000 _) with (header c).
  2:{ unfold header, c. cbn [body]. change 0x3000 with (3 * 2 ^ 12). by rewrite lor_add by lia. }
  rewrite <- (take_drop 2 old) at 1. rewrite set_app by (done || (rewrite length_take; lia)).
  cbn [mbind option_bind]. rewrite Hs at 1. rewrite <- (take_drop CHUNK rest) at 1.
  rewrite rd_bytes_app by (done || lia). cbn [mbind option_bind].
  rewrite <- (app_nil_r (drop 2 old)), app_assoc. rewrite <- (app_nil_l (drop 2 old ++ [])).
  rewrite wr_bytes_next by (rewrite ?length_app, ?length_le, ?length_drop; simpl; lia).
  cbn [mbind option_bind]. rewrite app_nil_l, app_nil_r, drop_drop, <- Hn.
  unfold n at 1 2. rewrite <- app_assoc.
  f_equal; [unfold encode_chunk; by rewrite <- !app_assoc|rewrite length_app; lia..].
Qed.

Lemma compress_loop_spec s fuel :
  Z.of_nat (length s) < 2 ^ 31 -> forall spre rest d old room,
  s = spre ++ rest -> (length rest < fuel)%nat -> (room <= length old)%nat -> Z.of_nat (length d + room) < 2 ^ 32 ->
  let e := encode (blocks fuel rest) in
  let run := compress_loop fuel s (d ++ old) (Z.of_nat (length spre)) (Z.of_nat (length s)) (Z.of_nat (length d))
    (Z.of_nat (length d + room)) in
  ((length e <= room)%nat ->
    run = Some (STATUS_SUCCESS, d ++ e ++ drop (length e) old, Some (Z.of_nat (length d + length e)))) /\
  ((room < length e)%nat -> exists m', run = Some (STATUS_BUFFER_TOO_SMALL, m', None)).
Proof.
  pose proof CHUNK_eq. intros Hs31.
  induction fuel as [|fuel IH]; intros spre rest d old room Hs Hf Hroom Hw e run; [lia|].
  destruct (decide (rest = [])) as [->|Hne].
  - unfold run, e. cbn [compress_loop blocks]. rewrite app_nil_r in Hs. subst spre.
    rewrite Z.ltb_irrefl. change (length (encode [])) with 0%nat. split; [|lia]. intros _.
    rewrite u32_small by lia. rewrite Nat.add_0_r. done.
  - unfold run, e. rewrite (compress_step s spre rest) by done. rewrite blocks_cons, encode_cons, length_app by done.
    set (c := Stored (take CHUNK rest)). assert (Hpos : (1 <= length rest)%nat) by (destruct rest; [done|simpl; lia]).
    destruct (decide (length (encode_chunk c) <= room)%nat) as [Hle|Hgt]; [|split; [lia|by eexists]].
    destruct (IH (spre ++ take CHUNK rest) (drop CHUNK rest) (d ++ encode_chunk c) (drop (length (encode_chunk c)) old)
      (room - length (encode_chunk c))%nat) as [Hyes Hno];
      [by rewrite <- app_assoc, take_drop|rewrite length_drop; lia|rewrite length_drop; lia|rewrite length_app; lia|].
    replace (length (d ++ encode_chunk c) + (room - length (encode_chunk c)))%nat with (length d + room)%nat in *
      by (rewrite length_app; lia).
    split; intros Hcmp; [rewrite Hyes by lia|apply Hno; lia].
    rewrite <- !app_assoc, drop_drop, length_app, Nat.add_assoc. done.
Qed.

Lemma encode_blocks_length fuel :
  forall s, (length s < fuel)%nat ->
  Z.of_nat (length (encode (blocks fuel s)))
  = Z.of_nat (length s) + 2 * ((Z.of_nat (length s) + 4095) / 4096).
Proof.
  pose proof CHUNK_eq.
  induction fuel as [|fuel IH]; intros s Hf; [lia|].
  destruct (decide (s = [])) as [->|Hne]; [done|].
  assert (1 <= length s)%nat by (destruct s; [done|simpl; lia]).
  rewrite blocks_cons, encode_cons, length_app, length_encode_chunk by done. cbn [body].
  rewrite Nat2Z.inj_add, IH, length_take, length_drop by (rewrite length_drop; lia).
  destruct (decide (CHUNK <= length s)%nat).
  - replace (Z.of_nat (length s) + 4095) with (Z.of_nat (length s - CHUNK) + 4095 + 1 * 4096) by lia.
    rewrite Z.div_add by lia. lia.
  - replace (length s - CHUNK)%nat with 0%nat by lia. change ((Z.of_nat 0 + 4095) / 4096) with 0.
    rewrite <- (Z.div_unique (Z.of_nat (length s) + 4095) 4096 1 (Z.of_nat (length s) - 1)) by lia. lia.
Qed.

(** The formats the two directions agree on: LZNT1 with the standard or the maximum engine. *)
Definition lznt1_format (format : Z) : Prop :=
  format = Z.lor COMPRESSION_FORMAT_LZNT1 COMPRESSION_ENGINE_STANDARD \/
  format = Z.lor COMPRESSION_FORMAT_LZNT1 COMPRESSION_ENGINE_MAXIMUM.

Lemma fragment_lznt1 format m n s k offset w :
  lznt1_format format -> RtlDecompressFragment format m n s k offset w = lznt1_decompress m n s k offset w.
Proof. by intros [-> | ->]. Qed.

Lemma result_ok_returns m size r :
  result_ok m size r -> exists Status m' final_size,
    Some r = Some (Status, m', final_size) /\ frame 0 size m m' /\
    (Status = STATUS_SUCCESS <-> exists n, final_size = Some n) /\
    (forall n, final_size = Some n -> 0 <= n <= size).
Proof.
  destruct r as [[Status m'] fin]. intros [Hf H]. exists Status, m', fin. split_and!; [done|done|..];
    destruct H as [(-> & n & -> & Hn)|[Hst ->]].
  - split; [by exists n|done].
  - split; [intros ->; by destruct Hst|by intros [n ?]].
  - by intros ? [= <-].
  - done.
Qed.

Lemma error_returns m size st :
  st <> STATUS_SUCCESS -> exists Status m' final_size,
    Some (st, m, None) = Some (Status, m', final_size) /\ frame 0 size m m' /\
    (Status = STATUS_SUCCESS <-> exists n : Z, final_size = Some n) /\
    (forall n, final_size = Some n -> 0 <= n <= size).
Proof.
  intros Hst. exists st, m, None. split; [done|]. split; [apply frame_refl|]. split; [|done].
  split; [done|by intros [n ?]].
Qed.

(** * Theorems *)

(** C25.  Decompression is safe on any input: whatever the format, the bytes of the source,
    the sizes and the offset, with a work space of 4096 bytes or none, the call returns,
    stays inside the source, the work space and the destination, writes nothing outside the
    destination's [uncompressed_size] bytes, and reports a final size exactly when it
    succeeds, at most that size. *)
Theorem decompress_safe format m uncompressed_size s compressed_size offset workspace
  (Hs : bytes_ok s) (Hcs : 0 <= compressed_size <= Z.of_nat (length s))
  (Hus : 0 <= uncompressed_size <= Z.of_nat (length m)) (Hus32 : uncompressed_size < 2 ^ 32)
  (Hoff : 0 <= offset) (Hw : forall w, workspace = Some w -> 4096 <= Z.of_nat (length w)) :
  exists Status m' final_size,
    RtlDecompressFragment format m uncompressed_size s compressed_size offset workspace
      = Some (Status, m', final_size) /\
    frame 0 uncompressed_size m m' /\
    (Status = STATUS_SUCCESS <-> exists n, final_size = Some n) /\
    (forall n, final_size = Some n -> 0 <= n <= uncompressed_size).
Proof.
  unfold RtlDecompressFragment.
  destruct (_ =? COMPRESSION_FORMAT_LZNT1); [|destruct (_ || _); by apply error_returns].
  unfold lznt1_decompress. destruct (Z.ltb_spec compressed_size 2); [apply result_ok_returns; eauto|].
  destruct (skip_chunks_total (S (Z.to_nat compressed_size)) uncompressed_size m s compressed_size
    ltac:(done) ltac:(lia) ltac:(lia) 0 offset) as ([r|[sc o]] & -> & Hr); [lia..|by apply result_ok_returns|].
  cbn [mbind option_bind].
  destruct (partial_chunk_total m s workspace uncompressed_size sc compressed_size o)
    as ([r|[[m1 c1] sc1]] & -> & Hr1); [done|lia..|done|lia|lia|by apply result_ok_returns|]. cbn [mbind option_bind].
  destruct Hr1 as [Ha Hsc].
  destruct (whole_chunks_total (S (Z.to_nat compressed_size)) m s uncompressed_size compressed_size o
    ltac:(done) ltac:(lia) ltac:(lia) ltac:(lia) m1 c1 sc1) as (r & -> & Hr2); [lia|done|lia|]. by apply result_ok_returns.
Qed.

(** A reference before the start of the chunk is refused. *)
Lemma decompress_safe_witness :
  exists Status m' final_size,
    RtlDecompressFragment COMPRESSION_FORMAT_LZNT1 (replicate 6 0) 5 [2; 0xB0; 1; 0xFF; 0xFF] 5 0 None
      = Some (Status, m', final_size) /\
    frame 0 5 (replicate 6 0) m' /\
    (Status = STATUS_SUCCESS <-> exists n, final_size = Some n) /\
    (forall n, final_size = Some n -> 0 <= n <= 5).
Proof.
  apply (decompress_safe COMPRESSION_FORMAT_LZNT1 (replicate 6 0) 5 [2; 0xB0; 1; 0xFF; 0xFF] 5 0 None);
    [repeat constructor; lia|simpl; lia|simpl; lia|lia|lia|done].
Defined.

(** C4.  Decompression implements the format: on the encoding of chunks, stored or packed,
    each but the last of 4096 bytes, [RtlDecompressFragment] delivers the bytes the chunks
    stand for, references expanded, from [offset] on and as many as the destination takes;
    the rest of the destination keeps its contents.  An offset that is no multiple of 4096
    needs a work space.  The last chunk is not padded to 4096 bytes: from an offset behind
    its bytes nothing is delivered, and a destination that is too small is filled and
    reported as a success, where the tests of [winetests/ntdll/rtl.c], marked as failing,
    expect padding and errors. *)
Theorem decompress_expands format m size cs t offset workspace
  (Hf : lznt1_format format) (Hcs : chunks_ok cs) (Ht : tail_ok t)
  (Hlen : (2 <= length (encode cs ++ t))%nat)
  (Hsize : (size <= length m)%nat) (Hsize32 : Z.of_nat size < 2 ^ 32) (Hoff : 0 <= offset)
  (Hw : offset mod 4096 = 0 \/ exists w, workspace = Some w /\ 4096 <= Z.of_nat (length w)) :
  let s := encode cs ++ t in
  let x := take size (drop (Z.to_nat offset) (uncompressed cs)) in
  RtlDecompressFragment format m (Z.of_nat size) s (Z.of_nat (length s)) offset workspace
  = Some (STATUS_SUCCESS, x ++ drop (length x) m, Some (Z.of_nat (length x))).
Proof.
  intros s x. rewrite fragment_lznt1 by done.
  rewrite (decompress_spec m t size Ht Hsize Hsize32 cs s offset workspace) by done. done.
Qed.

(** "abababa" packed as two literals and a reference; five bytes from offset 1 on. *)
Lemma decompress_expands_witness :
  chunks_ok [Packed [[Lit 97; Lit 98; Ref 2 5]]] /\
  RtlDecompressFragment COMPRESSION_FORMAT_LZNT1 (replicate 6 0) 5 [4; 0xB0; 4; 97; 98; 2; 0x10; 0; 0] 9 1
    (Some (replicate (Z.to_nat 4096) 0))
  = Some (STATUS_SUCCESS, [98; 97; 98; 97; 98; 0], Some 5).
Proof.
  assert (Hok : chunks_ok [Packed [[Lit 97; Lit 98; Ref 2 5]]]).
  { unfold chunks_ok, chunk_ok. cbn [groups_ok tokens_ok token_ok].
    split_and!; first [done|by left|right; split; [simpl; lia|done]|simpl; lia|vm_compute; done]. }
  split; [exact Hok|].
  exact (decompress_expands COMPRESSION_FORMAT_LZNT1 (replicate 6 0) 5 [Packed [[Lit 97; Lit 98; Ref 2 5]]] [0; 0] 1
    (Some (replicate (Z.to_nat 4096) 0)) ltac:(by left) Hok ltac:(done) ltac:(vm_compute; lia) ltac:(simpl; lia)
    ltac:(lia) ltac:(lia) ltac:(right; eexists; split; [reflexivity|rewrite length_replicate; lia])).
Defined.

(** C34.  What [RtlCompressBuffer] stores [RtlDecompressBuffer] restores: the compression of
    a non-empty source of less than 2^31 bytes, the range of a pointer difference, takes two
    bytes per 4096 byte block more than the source (every block is stored as it is) and
    succeeds exactly when the destination has them, and decompressing the result gives the
    source. *)
Theorem compress_roundtrip format s m u
  (Hf : lznt1_format format) (Hne : s <> []) (Hs31 : Z.of_nat (length s) < 2 ^ 31)
  (Hm : Z.of_nat (length m) < 2 ^ 32) (Hu : (length s <= length u)%nat) (Hu32 : Z.of_nat (length u) < 2 ^ 32) :
  let n := Z.of_nat (length s) + 2 * ((Z.of_nat (length s) + 4095) / 4096) in
  (n <= Z.of_nat (length m) -> exists m',
    RtlCompressBuffer format s (Z.of_nat (length s)) m (Z.of_nat (length m))
      = Some (STATUS_SUCCESS, m', Some n) /\
    RtlDecompressBuffer format u (Z.of_nat (length u)) (take (Z.to_nat n) m') n
      = Some (STATUS_SUCCESS, s ++ drop (length s) u, Some (Z.of_nat (length s)))) /\
  (Z.of_nat (length m) < n -> exists m',
    RtlCompressBuffer format s (Z.of_nat (length s)) m (Z.of_nat (length m))
      = Some (STATUS_BUFFER_TOO_SMALL, m', None)).
Proof.
  intros n. set (fuel := S (length s)). set (cs := blocks fuel s).
  assert (Hn : Z.of_nat (length (encode cs)) = n) by (apply encode_blocks_length; unfold fuel; lia).
  assert (Hcs : (3 <= length (encode cs))%nat).
  { pose proof CHUNK_eq. unfold cs, fuel. rewrite blocks_cons, encode_cons, length_app, length_encode_chunk by done.
    cbn [body]. rewrite length_take. destruct s; [done|]. simpl length. lia. }
  destruct (blocks_ok fuel s) as [Hok Hun]; [unfold fuel; lia|]. fold cs in Hok, Hun. clearbody n.
  assert (Hrun : RtlCompressBuffer format s (Z.of_nat (length s)) m (Z.of_nat (length m))
    = RtlpCompressBufferLZNT1 s (Z.of_nat (length s)) m (Z.of_nat (length m))) by (by destruct Hf as [-> | ->]).
  rewrite Hrun. unfold RtlpCompressBufferLZNT1. rewrite Nat2Z.id.
  destruct (compress_loop_spec s fuel Hs31 [] s [] m (length m)) as [Hyes Hno]; [done|unfold fuel; lia|done|simpl; lia|].
  fold cs in Hyes, Hno. split; [|intros H; apply Hno; lia].
  intros Hle. eexists. rewrite <- Hn. split; [apply Hyes; lia|].
  rewrite Nat2Z.id, app_nil_l, take_app_le, take_ge by lia. unfold RtlDecompressBuffer. rewrite fragment_lznt1 by done.
  rewrite <- (app_nil_r (encode cs)).
  rewrite (decompress_spec u [] (length u) I ltac:(lia) Hu32 cs); [|done|done|rewrite app_nil_r; lia|lia|by left].
  rewrite Hun. change (Z.to_nat 0) with 0%nat. rewrite drop_0, take_ge by done. done.
Qed.

Lemma compress_roundtrip_witness :
  exists m',
    RtlCompressBuffer 0x102 [7; 8; 9] 3 (replicate 6 0) 6 = Some (STATUS_SUCCESS, m', Some 5) /\
    RtlDecompressBuffer 0x102 (replicate 4 1) 4 (take 5 m') 5 = Some (STATUS_SUCCESS, [7; 8; 9; 1], Some 3).
Proof.
  apply (proj1 (compress_roundtrip 0x102 [7; 8; 9] (replicate 6 0) (replicate 4 1)
    ltac:(by right) ltac:(done) ltac:(simpl; lia) ltac:(simpl; lia) ltac:(simpl; lia) ltac:(simpl; lia))).
  vm_compute. done.
Defined.
