(* ===== verification/RtlCrc32.v ===== *)
(** The checksum of sdk/lib/rtl/crc32.c. *)

From S2P Require Import Prelude Bytes.

(** CRC polynomial 0xedb88320 *)
Definition CrcTable : list Z :=
  [0x00000000; 0x77073096; 0xee0e612c; 0x990951ba; 0x076dc419; 0x706af48f; 0xe963a535; 0x9e6495a3;
   0x0edb8832; 0x79dcb8a4; 0xe0d5e91e; 0x97d2d988; 0x09b64c2b; 0x7eb17cbd; 0xe7b82d07; 0x90bf1d91;
   0x1db71064; 0x6ab020f2; 0xf3b97148; 0x84be41de; 0x1adad47d; 0x6ddde4eb; 0xf4d4b551; 0x83d385c7;
   0x136c9856; 0x646ba8c0; 0xfd62f97a; 0x8a65c9ec; 0x14015c4f; 0x63066cd9; 0xfa0f3d63; 0x8d080df5;
   0x3b6e20c8; 0x4c69105e; 0xd56041e4; 0xa2677172; 0x3c03e4d1; 0x4b04d447; 0xd20d85fd; 0xa50ab56b;
   0x35b5a8fa; 0x42b2986c; 0xdbbbc9d6; 0xacbcf940; 0x32d86ce3; 0x45df5c75; 0xdcd60dcf; 0xabd13d59;
   0x26d930ac; 0x51de003a; 0xc8d75180; 0xbfd06116; 0x21b4f4b5; 0x56b3c423; 0xcfba9599; 0xb8bda50f;
   0x2802b89e; 0x5f058808; 0xc60cd9b2; 0xb10be924; 0x2f6f7c87; 0x58684c11; 0xc1611dab; 0xb6662d3d;
   0x76dc4190; 0x01db7106; 0x98d220bc; 0xefd5102a; 0x71b18589; 0x06b6b51f; 0x9fbfe4a5; 0xe8b8d433;
   0x7807c9a2; 0x0f00f934; 0x9609a88e; 0xe10e9818; 0x7f6a0dbb; 0x086d3d2d; 0x91646c97; 0xe6635c01;
   0x6b6b51f4; 0x1c6c6162; 0x856530d8; 0xf262004e; 0x6c0695ed; 0x1b01a57b; 0x8208f4c1; 0xf50fc457;
   0x65b0d9c6; 0x12b7e950; 0x8bbeb8ea; 0xfcb9887c; 0x62dd1ddf; 0x15da2d49; 0x8cd37cf3; 0xfbd44c65;
   0x4db26158; 0x3ab551ce; 0xa3bc0074; 0xd4bb30e2; 0x4adfa541; 0x3dd895d7; 0xa4d1c46d; 0xd3d6f4fb;
   0x4369e96a; 0x346ed9fc; 0xad678846; 0xda60b8d0; 0x44042d73; 0x33031de5; 0xaa0a4c5f; 0xdd0d7cc9;
   0x5005713c; 0x270241aa; 0xbe0b1010; 0xc90c2086; 0x5768b525; 0x206f85b3; 0xb966d409; 0xce61e49f;
   0x5edef90e; 0x29d9c998; 0xb0d09822; 0xc7d7a8b4; 0x59b33d17; 0x2eb40d81; 0xb7bd5c3b; 0xc0ba6cad;
   0xedb88320; 0x9abfb3b6; 0x03b6e20c; 0x74b1d29a; 0xead54739; 0x9dd277af; 0x04db2615; 0x73dc1683;
   0xe3630b12; 0x94643b84; 0x0d6d6a3e; 0x7a6a5aa8; 0xe40ecf0b; 0x9309ff9d; 0x0a00ae27; 0x7d079eb1;
   0xf00f9344; 0x8708a3d2; 0x1e01f268; 0x6906c2fe; 0xf762575d; 0x806567cb; 0x196c3671; 0x6e6b06e7;
   0xfed41b76; 0x89d32be0; 0x10da7a5a; 0x67dd4acc; 0xf9b9df6f; 0x8ebeeff9; 0x17b7be43; 0x60b08ed5;
   0xd6d6a3e8; 0xa1d1937e; 0x38d8c2c4; 0x4fdff252; 0xd1bb67f1; 0xa6bc5767; 0x3fb506dd; 0x48b2364b;
   0xd80d2bda; 0xaf0a1b4c; 0x36034af6; 0x41047a60; 0xdf60efc3; 0xa867df55; 0x316e8eef; 0x4669be79;
   0xcb61b38c; 0xbc66831a; 0x256fd2a0; 0x5268e236; 0xcc0c7795; 0xbb0b4703; 0x220216b9; 0x5505262f;
   0xc5ba3bbe; 0xb2bd0b28; 0x2bb45a92; 0x5cb36a04; 0xc2d7ffa7; 0xb5d0cf31; 0x2cd99e8b; 0x5bdeae1d;
   0x9b64c2b0; 0xec63f226; 0x756aa39c; 0x026d930a; 0x9c0906a9; 0xeb0e363f; 0x72076785; 0x05005713;
   0x95bf4a82; 0xe2b87a14; 0x7bb12bae; 0x0cb61b38; 0x92d28e9b; 0xe5d5be0d; 0x7cdcefb7; 0x0bdbdf21;
   0x86d3d2d4; 0xf1d4e242; 0x68ddb3f8; 0x1fda836e; 0x81be16cd; 0xf6b9265b; 0x6fb077e1; 0x18b74777;
   0x88085ae6; 0xff0f6a70; 0x66063bca; 0x11010b5c; 0x8f659eff; 0xf862ae69; 0x616bffd3; 0x166ccf45;
   0xa00ae278; 0xd70dd2ee; 0x4e048354; 0x3903b3c2; 0xa7672661; 0xd06016f7; 0x4969474d; 0x3e6e77db;
   0xaed16a4a; 0xd9d65adc; 0x40df0b66; 0x37d83bf0; 0xa9bcae53; 0xdebb9ec5; 0x47b2cf7f; 0x30b5ffe9;
   0xbdbdf21c; 0xcabac28a; 0x53b39330; 0x24b4a3a6; 0xbad03605; 0xcdd70693; 0x54de5729; 0x23d967bf;
   0xb3667a2e; 0xc4614ab8; 0x5d681b02; 0x2a6f2b94; 0xb40bbe37; 0xc30c8ea1; 0x5a05df1b; 0x2d02ef8d].

(** The loop over [Length] bytes of [Data]. *)
Fixpoint crc_loop (n : nat) (CrcValue : Z) (m : mem) (Data : Z) : option Z :=
  match n with
  | O => Some CrcValue
  | S n' =>
      b ← get8 m Data;
      t ← rd CrcTable (Z.land (Z.lxor CrcValue b) 0xFF);
      crc_loop n' (Z.lxor t (Z.shiftr CrcValue 8)) m (Data + 1)
  end.

Definition RtlComputeCrc32 (Initial : Z) (m : mem) (Data Length : Z) : option Z :=
  CrcValue ← crc_loop (Z.to_nat Length) (not32 Initial) m Data;
  Some (not32 CrcValue).

(** ** The division the table stands for

    The register is shifted right a bit at a time, the polynomial subtracted when a one leaves;
    a byte enters at the low end. *)
Definition crc_bit (c : Z) : Z := Z.lxor (Z.shiftr c 1) (if Z.odd c then 0xedb88320 else 0).

Definition crc_byte (c b : Z) : Z := Nat.iter 8 crc_bit (Z.lxor c b).

Definition crc32 (Initial : Z) (bs : list Z) : Z := not32 (fold_left crc_byte bs (not32 Initial)).

(** * Laws *)

Lemma crc_bit_unfold c : crc_bit c = Z.lxor (Z.shiftr c 1) (if Z.odd c then 0xedb88320 else 0).
Proof. done. Qed.

Lemma crc_bit_lxor x y : crc_bit (Z.lxor x y) = Z.lxor (crc_bit x) (crc_bit y).
Proof.
  unfold crc_bit. rewrite Z.shiftr_lxor.
  assert (E : Z.odd (Z.lxor x y) = xorb (Z.odd x) (Z.odd y)) by (rewrite <- !Z.bit0_odd; apply Z.lxor_spec).
  rewrite E. apply Z.bits_inj'. intros i _. rewrite !Z.lxor_spec.
  destruct (Z.odd x), (Z.odd y); simpl xorb; cbv iota; rewrite ?Z.bits_0;
    destruct (Z.testbit (Z.shiftr x 1) i), (Z.testbit (Z.shiftr y 1) i), (Z.testbit 0xedb88320 i); done.
Qed.

Lemma crc_bits_lxor n x y :
  Nat.iter n crc_bit (Z.lxor x y) = Z.lxor (Nat.iter n crc_bit x) (Nat.iter n crc_bit y).
Proof. induction n as [|n IH]; [done|]. cbn [Nat.iter nat_rect]. rewrite <- crc_bit_lxor. f_equal. exact IH. Qed.

Lemma crc_bit_even h : crc_bit (2 * h) = h.
Proof.
  unfold crc_bit. rewrite Z.odd_mul. cbn [Z.odd andb]. rewrite Z.lxor_0_r, Z.shiftr_div_pow2 by lia.
  change (2 ^ 1) with 2. rewrite Z.mul_comm, Z.div_mul by lia. done.
Qed.

Lemma crc_bits_high h : Nat.iter 8 crc_bit (256 * h) = h.
Proof.
  replace (256 * h) with (2 * (2 * (2 * (2 * (2 * (2 * (2 * (2 * h)))))))) by lia.
  cbn [Nat.iter nat_rect]. by rewrite !crc_bit_even.
Qed.

(** Every entry of the table is eight steps of the division. *)
Lemma table_entries :
  forallb (fun i => match rd CrcTable (Z.of_nat i) with Some t => t =? Nat.iter 8 crc_bit (Z.of_nat i) | None => false end)
    (seq 0 256) = true.
Proof. vm_compute. reflexivity. Qed.

Lemma table_spec i : 0 <= i < 256 -> rd CrcTable i = Some (Nat.iter 8 crc_bit i).
Proof.
  intros Hi. pose proof table_entries as H. rewrite forallb_forall in H.
  specialize (H (Z.to_nat i) ltac:(apply in_seq; lia)). rewrite Z2Nat.id in H by lia.
  destruct (rd CrcTable i); [|done]. apply Z.eqb_eq in H. by subst.
Qed.

(** Neither table nor division is to be computed in what follows. *)
#[local] Opaque CrcTable crc_bit.

Lemma split_byte x : x = Z.lxor (x mod 256) (256 * (x / 256)).
Proof.
  rewrite Z.lxor_comm, <- Z.add_nocarry_lxor; [apply Z.div_mod; lia|].
  apply Z.bits_inj'. intros i Hi. rewrite Z.land_spec, Z.bits_0. change 256 with (2 ^ 8). rewrite Z.mul_comm.
  destruct (Z.lt_ge_cases i 8).
  - by rewrite Z.mul_pow2_bits_low by lia.
  - by rewrite Z.mod_pow2_bits_high, andb_false_r by lia.
Qed.

Lemma shiftr_byte c b : 0 <= b < 256 -> Z.lxor c b / 256 = Z.shiftr c 8.
Proof.
  intros Hb. change 256 with (2 ^ 8). rewrite <- Z.shiftr_div_pow2, Z.shiftr_lxor by lia.
  rewrite (Z.shiftr_div_pow2 b), (Z.div_small b) by lia. apply Z.lxor_0_r.
Qed.

Lemma crc_step c b :
  rd CrcTable (Z.land (Z.lxor c b) 0xFF) = Some (Nat.iter 8 crc_bit (Z.land (Z.lxor c b) 0xFF)) /\
  (0 <= b < 256 -> Z.lxor (Nat.iter 8 crc_bit (Z.land (Z.lxor c b) 0xFF)) (Z.shiftr c 8) = crc_byte c b).
Proof.
  assert (E : Z.land (Z.lxor c b) 0xFF = Z.lxor c b mod 256) by (apply (Z.land_ones _ 8); lia). rewrite E.
  split; [apply table_spec, Z.mod_pos_bound; lia|]. intros Hb.
  rewrite <- (shiftr_byte c b Hb). unfold crc_byte. rewrite (split_byte (Z.lxor c b)) at 3.
  by rewrite crc_bits_lxor, crc_bits_high.
Qed.

Lemma lxor_range x y : 0 <= x < 2 ^ 32 -> 0 <= y < 2 ^ 32 -> 0 <= Z.lxor x y < 2 ^ 32.
Proof.
  intros Hx Hy. assert (0 <= Z.lxor x y) by (apply Z.lxor_nonneg; lia).
  apply Z.bounded_iff_bits_nonneg'; [lia|lia|].
  intros l Hl. rewrite Z.lxor_spec, !(testbit_high _ 32) by lia. done.
Qed.

Lemma crc_bit_range y : 0 <= y < 2 ^ 32 -> 0 <= crc_bit y < 2 ^ 32.
Proof.
  intros Hy. rewrite crc_bit_unfold. apply lxor_range; [|destruct (Z.odd y); lia].
  rewrite Z.shiftr_div_pow2 by lia. change (2 ^ 1) with 2. Z.div_mod_to_equations. lia.
Qed.

Lemma crc_bits_range n x : 0 <= x < 2 ^ 32 -> 0 <= Nat.iter n crc_bit x < 2 ^ 32.
Proof. intros Hx. induction n as [|n IH]; [exact Hx|]. exact (crc_bit_range _ IH). Qed.

Lemma crc_byte_range c b : 0 <= c < 2 ^ 32 -> 0 <= b < 256 -> 0 <= crc_byte c b < 2 ^ 32.
Proof. intros Hc Hb. apply crc_bits_range, lxor_range; lia. Qed.

Lemma fold_left_cons {A B} (f : A -> B -> A) b l a : fold_left f (b :: l) a = fold_left f l (f a b).
Proof. done. Qed.

Lemma crc_loop_spec m2 bs :
  bytes_ok bs -> forall m1 c p, p = Z.of_nat (length m1) ->
  crc_loop (length bs) c (m1 ++ bs ++ m2) p = Some (fold_left crc_byte bs c).
Proof.
  induction 1 as [|b bs Hb _ IH]; intros m1 c p Hp; [done|]. cbn [crc_loop length]. rewrite fold_left_cons.
  replace (m1 ++ (b :: bs) ++ m2) with (m1 ++ [b] ++ bs ++ m2) by done.
  rewrite get_app by done. cbn [mbind option_bind le_val]. replace (b + 256 * 0) with b by lia.
  destruct (crc_step c b) as [-> E]. cbn [mbind option_bind]. rewrite E by done.
  rewrite (app_assoc m1 [b]). apply IH. rewrite length_app. simpl. lia.
Qed.

Lemma crc_fold_range bs : bytes_ok bs -> forall c, 0 <= c < 2 ^ 32 -> 0 <= fold_left crc_byte bs c < 2 ^ 32.
Proof. induction 1 as [|b bs Hb _ IH]; intros c Hc; [done|]. rewrite fold_left_cons. apply IH. by apply crc_byte_range. Qed.

(** * Theorems *)

(** C40.  The table-driven checksum is the bit by bit division by the polynomial 0xedb88320
    of the bytes at [Data], and it can be computed in pieces: the checksum of two blocks is
    the checksum of the second one started with that of the first. *)
Theorem crc32_divides Initial m1 a b m2
  (Hi : 0 <= Initial < 2 ^ 32) (Ha : bytes_ok a) (Hb : bytes_ok b) :
  let m := m1 ++ (a ++ b) ++ m2 in
  let p := Z.of_nat (length m1) in
  RtlComputeCrc32 Initial m p (Z.of_nat (length (a ++ b))) = Some (crc32 Initial (a ++ b)) /\
  crc32 Initial (a ++ b) = crc32 (crc32 Initial a) b.
Proof.
  intros m p. unfold RtlComputeCrc32, m, p. rewrite Nat2Z.id, crc_loop_spec by (done || by apply Forall_app).
  split; [done|]. unfold crc32. rewrite fold_left_app. f_equal. f_equal.
  pose proof (crc_fold_range a Ha (not32 Initial) ltac:(apply not32_range; lia)). unfold not32 in *. lia.
Qed.

#[local] Transparent CrcTable crc_bit.

(** The check value of the CRC-32 standard: the digits 1 to 9. *)
Lemma crc32_divides_witness :
  RtlComputeCrc32 0 [0x31; 0x32; 0x33; 0x34; 0x35; 0x36; 0x37; 0x38; 0x39] 0 9 = Some 0xCBF43926.
Proof.
  refine (eq_trans (proj1 (crc32_divides 0 [] [0x31; 0x32; 0x33; 0x34] [0x35; 0x36; 0x37; 0x38; 0x39] [] _ _ _)) _);
    [lia|repeat constructor; lia|repeat constructor; lia|vm_compute; reflexivity].
Defined.
