(* ===== verification/ExRundown.v ===== *)
(** Rundown protection: ntoskrnl/ex/rundown.c and the inline fast paths of
    ntoskrnl/include/internal/ex.h.

    The code runs on any number of processors without a lock, so the model is a transition
    system: a step is one access to shared memory (a read of [RunRef->Count], an interlocked
    operation, [KeSetEvent]), with the local computation up to the next one.  A thread's
    state is the place it has reached, with the locals that are live there, and the number
    of references it holds.  The wait block lives on the stack of the waiting thread: it
    is there while that function has not returned, and an access to it at any other time, or a
    failing [ASSERT], is a fault. *)

From S2P Require Import Prelude.

Definition EX_RUNDOWN_ACTIVE : Z := 1.
Definition EX_RUNDOWN_COUNT_SHIFT : Z := 1.
Definition EX_RUNDOWN_COUNT_INC : Z := 2.

(** [EX_RUNDOWN_WAIT_BLOCK]: the event is absent until [KeInitializeEvent]. *)
Record block := Block { bCount : Z; WakeEvent : option bool }.

(** [ExpChangeRundown], the interlocked compare and exchange: the value found and the
    value left. *)
Definition ExpChangeRundown (Count NewValue Value : Z) : Z * Z :=
  (Count, if Count =? Value then NewValue else Count).

(** One reference, or the [Count] references of the [Ex] functions. *)
Inductive amount := One | Many (Count : Z).

Definition refs_of (a : amount) : Z := match a with One => 1 | Many n => n end.

Definition increment (a : amount) : Z :=
  match a with
  | One => EX_RUNDOWN_COUNT_INC
  | Many n => u32 (EX_RUNDOWN_COUNT_INC * n)
  end.

(** Where a thread is.  [_ExAcquireRundownProtection] and [_ExReleaseRundownProtection] are
    the fast paths, before their read of the count and before their exchange;
    [ExfAcquireRundownProtection(Ex)] and [ExfReleaseRundownProtection(Ex)] are at their
    first read or in their loop. *)
Inductive pc :=
| Idle
| FastAcquire | FastAcquireCas (Value : Z)
| Acquire (a : amount) | AcquireLoop (a : amount) (Value : Z)
| FastRelease | FastReleaseCas (Value : Z)
| Release (a : amount) | ReleaseLoop (a : amount) (Value : Z)
| SetEvent (WaitBlock : Z).

#[export] Instance amount_eq_dec : EqDecision amount.
Proof. solve_decision. Defined.

#[export] Instance pc_eq_dec : EqDecision pc.
Proof. solve_decision. Defined.

Section Machine.

(** The address of the wait block, and whether [KeNumberProcessors > 1]. *)
Context (W : Z) (smp : bool).

Definition block_at (b : option block) (p : Z) : option block := if p =? W then b else None.

(** [ASSERT] *)
Definition assert (c : bool) : option unit := if c then Some tt else None.

(** [!InterlockedDecrementSizeT(&WaitBlock->Count)], and the comparison of the value
    [InterlockedExchangeAddSizeT] finds: the count left and whether it is down to zero. *)
Definition remove_count (a : amount) (Count : Z) : Z * bool :=
  match a with
  | One => let c := u32 (Count - 1) in (c, c =? 0)
  | Many n => (u32 (Count - n), s32 Count =? s32 n)
  end.

(** The shared accesses of the functions.  The result is the count and the block left, the
    place reached, and the references gained. *)

(** The exchange of [_ExAcquireRundownProtection]. *)
Definition fast_acquire (Count : Z) (b : option block) (Value : Z) : option (Z * option block * pc * Z) :=
  let '(NewValue, Count) := ExpChangeRundown Count (u32 (Value + EX_RUNDOWN_COUNT_INC)) Value in
  if negb (NewValue =? Value) then Some (Count, b, Acquire One, 0)
  else Some (Count, b, Idle, 1).

(** A round of the loop of [ExfAcquireRundownProtection(Ex)]. *)
Definition acquire_loop (Count : Z) (b : option block) (a : amount) (Value : Z)
  : option (Z * option block * pc * Z) :=
  if has Value EX_RUNDOWN_ACTIVE then Some (Count, b, Idle, 0) else
  let '(NewValue, Count) := ExpChangeRundown Count (u32 (Value + increment a)) Value in
  if NewValue =? Value then Some (Count, b, Idle, refs_of a)
  else Some (Count, b, AcquireLoop a NewValue, 0).

(** The exchange of [_ExReleaseRundownProtection]. *)
Definition fast_release (Count : Z) (b : option block) (Value : Z) : option (Z * option block * pc * Z) :=
  let '(NewValue, Count) := ExpChangeRundown Count (u32 (Value - EX_RUNDOWN_COUNT_INC)) Value in
  if negb (NewValue =? Value) then Some (Count, b, Release One, 0)
  else assert ((EX_RUNDOWN_COUNT_INC <=? Value) || smp);; Some (Count, b, Idle, -1).

(** A round of the loop of [ExfReleaseRundownProtection(Ex)]. *)
Definition release_loop (Count : Z) (b : option block) (a : amount) (Value : Z)
  : option (Z * option block * pc * Z) :=
  if negb (has Value EX_RUNDOWN_ACTIVE) then
    assert ((increment a <=? Value) || smp);;
    let '(NewValue, Count) := ExpChangeRundown Count (u32 (Value - increment a)) Value in
    if NewValue =? Value then Some (Count, b, Idle, - refs_of a)
    else Some (Count, b, ReleaseLoop a NewValue, 0)
  else
    let WaitBlock := Z.land Value (not32 EX_RUNDOWN_ACTIVE) in
    wb ← block_at b WaitBlock;
    assert ((refs_of a <=? bCount wb) || smp);;
    let '(c, zero) := remove_count a (bCount wb) in
    let b := Some (Block c (WakeEvent wb)) in
    Some (Count, b, if zero then SetEvent WaitBlock else Idle, - refs_of a).

(** A step of a thread. *)
Definition thread_step (Count : Z) (b : option block) (p : pc) : option (Z * option block * pc * Z) :=
  match p with
  | Idle => Some (Count, b, Idle, 0)
  | FastAcquire => Some (Count, b, FastAcquireCas (Z.land Count (not32 EX_RUNDOWN_ACTIVE)), 0)
  | FastAcquireCas Value => fast_acquire Count b Value
  | Acquire a => Some (Count, b, AcquireLoop a Count, 0)
  | AcquireLoop a Value => acquire_loop Count b a Value
  | FastRelease => Some (Count, b, FastReleaseCas (Z.land Count (not32 EX_RUNDOWN_ACTIVE)), 0)
  | FastReleaseCas Value => fast_release Count b Value
  | Release a => Some (Count, b, ReleaseLoop a Count, 0)
  | ReleaseLoop a Value => release_loop Count b a Value
  | SetEvent WaitBlock =>
      wb ← block_at b WaitBlock;
      _ ← WakeEvent wb;
      Some (Count, Some (Block (bCount wb) (Some true)), Idle, 0)
  end.

(** The thread that runs the object down. *)
Inductive opc :=
| Out                                        (* the object is in use *)
| FastWait                                   (* _ExWaitForRundownProtectionRelease *)
| Wait                                       (* ExfWaitForRundownProtectionRelease *)
| WaitLoop (Value : Z) (Event : bool)        (* its loop; whether Event is set *)
| Waiting                                    (* in KeWaitForSingleObject *)
| Returned.                                  (* the wait is over *)

(** The result of a step: the next state, no step (the thread blocks or has nothing to do),
    or a fault. *)
Inductive result (A : Type) := Next (a : A) | Blocked | Fault.
Arguments Next {A} _.
Arguments Blocked {A}.
Arguments Fault {A}.

(** The event is a synchronization event: the wait resets it, but the block is gone then.
    The block's fields are private until its address is exchanged in, so they are written in
    the same step. *)
Definition owner_step (Count : Z) (b : option block) (o : opc) : result (Z * option block * opc) :=
  match o with
  | Out | Returned => Blocked
  | FastWait =>
      let '(Value, Count) := ExpChangeRundown Count EX_RUNDOWN_ACTIVE 0 in
      if negb (Value =? 0) && negb (Value =? EX_RUNDOWN_ACTIVE) then Next (Count, b, Wait)
      else Next (Count, b, Returned)
  | Wait =>
      let '(Value, Count) := ExpChangeRundown Count EX_RUNDOWN_ACTIVE 0 in
      if (Value =? 0) || (Value =? EX_RUNDOWN_ACTIVE) then Next (Count, b, Returned)
      else Next (Count, Some (Block 0 None), WaitLoop Value false)
  | WaitLoop Value Event =>
      let n := Z.shiftr Value EX_RUNDOWN_COUNT_SHIFT in
      let WaitBlockPointer := Z.lor W EX_RUNDOWN_ACTIVE in
      match b with
      | None => Fault
      | Some wb =>
          let '(wb, Event) :=
            if negb (n =? 0) && negb Event then (Block (bCount wb) (Some false), true) else (wb, Event) in
          let wb := Block n (WakeEvent wb) in
          let '(NewValue, Count) := ExpChangeRundown Count WaitBlockPointer Value in
          if NewValue =? Value then
            if n =? 0 then Next (Count, None, Returned) else Next (Count, Some wb, Waiting)
          else if has NewValue EX_RUNDOWN_ACTIVE then Fault
          else Next (Count, Some wb, WaitLoop NewValue Event)
      end
  | Waiting =>
      match b with
      | Some (Block c (Some true)) => if c =? 0 then Next (Count, None, Returned) else Fault
      | Some (Block _ (Some false)) => Blocked
      | _ => Fault
      end
  end.

(** ** The system *)

Record thread := Thread { place : pc; held : Z }.
Record system := System { Count : Z; wait_block : option block; threads : list thread; owner : opc }.

(** The functions a thread may call; a release needs the references. *)
Inductive call :=
| CallFastAcquire | CallAcquire (a : amount) | CallFastRelease | CallRelease (a : amount).

Definition enter (c : call) : pc :=
  match c with
  | CallFastAcquire => FastAcquire
  | CallAcquire a => Acquire a
  | CallFastRelease => FastRelease
  | CallRelease a => Release a
  end.

(** The references a thread is about to gain. *)
Definition pending (p : pc) : Z :=
  match p with
  | FastAcquire | FastAcquireCas _ => 1
  | Acquire a | AcquireLoop a _ => refs_of a
  | _ => 0
  end.


(** The references held, and those held or about to be. *)
Definition total (ts : list thread) : Z := sum_over held ts.
Definition claimed (ts : list thread) : Z := sum_over (fun t => held t + pending (place t)) ts.

(** What callers promise: amounts are positive, the references fit the count, and a release
    gives back what the thread holds. *)
Definition allowed (s : system) (t : thread) (c : call) : bool :=
  match c with
  | CallFastAcquire => claimed (threads s) + 1 <? 2 ^ 31
  | CallAcquire a => (1 <=? refs_of a) && (claimed (threads s) + refs_of a <? 2 ^ 31)
  | CallFastRelease => 1 <=? held t
  | CallRelease a => (1 <=? refs_of a) && (refs_of a <=? held t)
  end.

(** The owner's calls: wait while the object is in use or after completion;
    [ExfRundownCompleted] and [ExfReInitializeRundownProtection] after the wait. *)
Inductive owner_call := CallFastWait | CallWait | CallCompleted | CallReInitialize.

Definition owner_enter (Count : Z) (o : opc) (c : owner_call) : result (Z * opc) :=
  match c, o with
  | (CallFastWait | CallWait) as c, (Out | Returned) =>
      if match o with Out => true | _ => Count =? EX_RUNDOWN_ACTIVE end
      then Next (Count, match c with CallFastWait => FastWait | _ => Wait end) else Blocked
  | CallCompleted, Returned =>
      if has Count EX_RUNDOWN_ACTIVE then Next (EX_RUNDOWN_ACTIVE, Returned) else Fault
  | CallReInitialize, Returned =>
      if has Count EX_RUNDOWN_ACTIVE then Next (0, Out) else Fault
  | _, _ => Blocked
  end.

Inductive label := Call (i : nat) (c : call) | Run (i : nat) | OwnerCall (c : owner_call) | OwnerRun.

Definition exec (s : system) (l : label) : result system :=
  match l with
  | Call i c =>
      match threads s !! i with
      | Some (Thread Idle h as t) =>
          if allowed s t c
          then Next (System (Count s) (wait_block s) (<[i := Thread (enter c) h]> (threads s)) (owner s))
          else Blocked
      | _ => Blocked
      end
  | Run i =>
      match threads s !! i with
      | None | Some (Thread Idle _) => Blocked
      | Some (Thread p h) =>
          match thread_step (Count s) (wait_block s) p with
          | None => Fault
          | Some (c, b, p, d) => Next (System c b (<[i := Thread p (h + d)]> (threads s)) (owner s))
          end
      end
  | OwnerCall c =>
      match owner_enter (Count s) (owner s) c with
      | Next (c, o) => Next (System c (wait_block s) (threads s) o)
      | Blocked => Blocked
      | Fault => Fault
      end
  | OwnerRun =>
      match owner_step (Count s) (wait_block s) (owner s) with
      | Next (c, b, o) => Next (System c b (threads s) o)
      | Blocked => Blocked
      | Fault => Fault
      end
  end.

(** A schedule. *)
Fixpoint run (ls : list label) (s : system) : result system :=
  match ls with
  | [] => Next s
  | l :: ls' =>
      match exec s l with
      | Next s' => run ls' s'
      | r => r
      end
  end.

(** [ExfInitializeRundownProtection], with [n] threads that hold nothing. *)
Definition initial (n : nat) : system := System 0 None (replicate n (Thread Idle 0)) Out.

Inductive reachable (n : nat) : system -> Prop :=
| reachable_init : reachable n (initial n)
| reachable_step s l s' : reachable n s -> exec s l = Next s' -> reachable n s'.

(** A step of a call that has begun. *)
Definition internal (s s' : system) : Prop := (exists i, exec s (Run i) = Next s') \/ exec s OwnerRun = Next s'.

End Machine.

Arguments Next {A} _.
Arguments Blocked {A}.
Arguments Fault {A}.

(** * Laws *)

Section Invariant.

Context (W : Z) (smp : bool).
Context (HW : 0 < W < 2 ^ 32 - 1) (HWeven : Z.odd W = false).

(** ** Bits of the count *)

Lemma active_bit v : has v EX_RUNDOWN_ACTIVE = Z.odd v.
Proof. apply has_1. Qed.

Lemma mask_active v : 0 <= v < 2 ^ 32 -> Z.land v (not32 EX_RUNDOWN_ACTIVE) = 2 * (v / 2).
Proof.
  intros Hv. rewrite land_not32 by (done || (unfold EX_RUNDOWN_ACTIVE; lia)).
  change EX_RUNDOWN_ACTIVE with (Z.ones 1). rewrite Z.ldiff_ones_r, Z.shiftl_mul_pow2, Z.shiftr_div_pow2 by lia.
  change (2 ^ 1) with 2. lia.
Qed.

Lemma half_W : W = 2 * (W / 2).
Proof. rewrite <- Z.negb_even, negb_false_iff, Z.even_spec in HWeven. destruct HWeven as [k ->]. Z.div_mod_to_equations; lia. Qed.

Lemma pointer_W : Z.lor W EX_RUNDOWN_ACTIVE = W + 1.
Proof.
  rewrite half_W at 1. rewrite Z.mul_comm. change (W / 2 * 2) with (W / 2 * 2 ^ 1).
  rewrite lor_add by (unfold EX_RUNDOWN_ACTIVE; lia). pose proof half_W. unfold EX_RUNDOWN_ACTIVE. lia.
Qed.

Lemma odd_pointer : Z.odd (W + 1) = true.
Proof. by rewrite Z.odd_add, HWeven. Qed.

Lemma mask_pointer : Z.land (W + 1) (not32 EX_RUNDOWN_ACTIVE) = W.
Proof. rewrite mask_active by lia. pose proof half_W. Z.div_mod_to_equations; lia. Qed.

Lemma odd_double x : Z.odd (2 * x) = false.
Proof. by rewrite Z.odd_mul. Qed.

Lemma increment_small a : 1 <= refs_of a < 2 ^ 31 -> increment a = 2 * refs_of a.
Proof. intros Ha. destruct a as [|n]; [done|]. simpl in *. unfold EX_RUNDOWN_COUNT_INC. apply u32_small. lia. Qed.

(** ** The invariant *)

Definition setting (p : pc) : Z := match p with SetEvent _ => 1 | _ => 0 end.

(** What holds of a thread while the owner is at [o]. *)
Definition thread_ok (o : opc) (t : thread) : Prop :=
  0 <= held t /\
  match place t with
  | FastAcquireCas v => Z.odd v = false
  | Acquire a | AcquireLoop a _ => 1 <= refs_of a
  | FastRelease => 1 <= held t
  | FastReleaseCas v => 1 <= held t /\ Z.odd v = false
  | Release a => 1 <= refs_of a <= held t
  | ReleaseLoop a v =>
      1 <= refs_of a <= held t /\ (if Z.odd v then o = Waiting /\ v = W + 1 else 2 * refs_of a <= v)
  | SetEvent p => o = Waiting /\ p = W
  | _ => True
  end.

(** What holds of the count and the block when [H] references are held and [S] threads are
    about to set the event. *)
Definition phase (c : Z) (b : option block) (o : opc) (H S : Z) : Prop :=
  match o with
  | Out => c = 2 * H /\ b = None /\ S = 0
  | FastWait | Wait => (c = 2 * H \/ c = EX_RUNDOWN_ACTIVE /\ H = 0) /\ b = None /\ S = 0
  | WaitLoop v Event =>
      c = 2 * H /\ S = 0 /\ exists n e, b = Some (Block n e) /\ (Event = true -> e = Some false)
  | Waiting =>
      c = W + 1 /\ exists e, b = Some (Block H (Some e)) /\ S + Z.b2z e = Z.b2z (H =? 0)
  | Returned => (c = W + 1 \/ c = EX_RUNDOWN_ACTIVE) /\ H = 0 /\ b = None /\ S = 0
  end.

Definition inv (s : system) : Prop :=
  phase (Count s) (wait_block s) (owner s) (total (threads s)) (sum_over (fun t => setting (place t)) (threads s)) /\
  claimed (threads s) < 2 ^ 31 /\
  (forall t, t ∈ threads s -> thread_ok (owner s) t).

(** The count while references are held. *)
Lemma phase_held c b o H S :
  phase c b o H S -> 1 <= H < 2 ^ 31 ->
  c = 2 * H /\ Z.odd c = false \/
  o = Waiting /\ c = W + 1 /\ Z.odd c = true /\ exists e, b = Some (Block H (Some e)).
Proof.
  intros Hp Hh. pose proof odd_pointer. destruct o; simpl in Hp.
  1-4: left; assert (c = 2 * H) as -> by lia; by rewrite odd_double.
  - right. destruct Hp as (-> & e & -> & _). eauto 10.
  - lia.
Qed.

Lemma phase_range c b o H S : phase c b o H S -> 0 <= H < 2 ^ 31 -> 0 <= c < 2 ^ 32.
Proof. intros Hp Hh. unfold phase, EX_RUNDOWN_ACTIVE in *. destruct o; lia. Qed.

(** The count with the active bit clear: it may change with the references. *)
Lemma phase_even c b o H S :
  phase c b o H S -> Z.odd c = false -> c = 2 * H /\ forall H', phase (2 * H') b o H' S.
Proof.
  intros Hp Hc. pose proof odd_pointer as Hodd. destruct o; simpl in Hp |- *; unfold EX_RUNDOWN_ACTIVE in *.
  - split; [lia|]. intros H'. tauto.
  - destruct Hp as ([-> | [-> _]] & Hb & HS); [tauto|done].
  - destruct Hp as ([-> | [-> _]] & Hb & HS); [tauto|done].
  - tauto.
  - destruct Hp as (-> & _). congruence.
  - destruct Hp as ([-> | ->] & _); [congruence|done].
Qed.

(** What a step of a thread keeps. *)
Definition keeps (o : opc) (H S : Z) (t : thread) (r : option (Z * option block * pc * Z)) : Prop :=
  exists c' b' p' d, r = Some (c', b', p', d) /\
    phase c' b' o (H + d) (S - setting (place t) + setting p') /\
    thread_ok o (Thread p' (held t + d)) /\ d + pending p' <= pending (place t).

Lemma keeps_same c b o H S t p' :
  phase c b o H S -> setting p' = setting (place t) -> thread_ok o (Thread p' (held t)) ->
  pending p' <= pending (place t) -> keeps o H S t (Some (c, b, p', 0)).
Proof.
  intros Hp Hs Ht Hd. eexists _, _, _, _. split; [reflexivity|].
  replace (H + 0) with H by lia. replace (held t + 0) with (held t) by lia.
  replace (S - setting (place t) + setting p') with S by lia. split_and!; done || lia.
Qed.

(** The exchange of a count without the active bit. *)
Lemma keeps_change b o H S t v d :
  phase v b o H S -> Z.odd v = false -> setting (place t) = 0 -> 0 <= held t + d -> d <= pending (place t) ->
  keeps o H S t (Some (2 * (H + d), b, Idle, d)).
Proof.
  intros Hp Hv Hs Ht Hd. destruct (phase_even _ _ _ _ _ Hp Hv) as [_ Hall].
  eexists _, _, _, _. split; [reflexivity|]. rewrite Hs, Z.sub_0_r, Z.add_0_r. simpl. split_and!; [apply Hall|done|lia..].
Qed.

Lemma acquire_ok c b o H S t a v :
  phase c b o H S -> place t = AcquireLoop a v -> thread_ok o t -> 0 <= H -> H + refs_of a < 2 ^ 31 ->
  keeps o H S t (thread_step W smp c b (place t)).
Proof.
  intros Hp Hpl Hok HH Hb. destruct Hok as [Hh Hpc]. rewrite Hpl in Hpc |- *. unfold thread_step, fast_acquire, acquire_loop, fast_release, release_loop.
  rewrite active_bit. destruct (Z.odd v) eqn:Ev.
  { apply keeps_same; rewrite ?Hpl; simpl; done || lia. }
  unfold ExpChangeRundown. destruct (Z.eqb_spec c v) as [->|Hne].
  - destruct (phase_even _ _ _ _ _ Hp Ev) as [Hc _].
    rewrite increment_small, u32_small by lia.
    replace (v + 2 * refs_of a) with (2 * (H + refs_of a)) by lia.
    eapply keeps_change; rewrite ?Hpl; simpl; try done; lia.
  - apply keeps_same; rewrite ?Hpl; simpl; done || lia.
Qed.

Lemma fast_acquire_ok c b o H S t v :
  phase c b o H S -> place t = FastAcquireCas v -> thread_ok o t -> 0 <= H -> H + 1 < 2 ^ 31 ->
  keeps o H S t (thread_step W smp c b (place t)).
Proof.
  intros Hp Hpl Hok HH Hb. destruct Hok as [Hh Hpc]. rewrite Hpl in Hpc |- *. unfold thread_step, fast_acquire, acquire_loop, fast_release, release_loop, ExpChangeRundown.
  destruct (Z.eqb_spec c v) as [->|Hne]; simpl.
  - destruct (phase_even _ _ _ _ _ Hp Hpc) as [Hc _].
    rewrite u32_small by (unfold EX_RUNDOWN_COUNT_INC; lia). unfold EX_RUNDOWN_COUNT_INC.
    replace (v + 2) with (2 * (H + 1)) by lia.
    eapply keeps_change; rewrite ?Hpl; simpl; try done; lia.
  - apply keeps_same; rewrite ?Hpl; simpl; done || lia.
Qed.

Lemma fast_release_ok c b o H S t v :
  phase c b o H S -> place t = FastReleaseCas v -> thread_ok o t -> held t <= H < 2 ^ 31 ->
  keeps o H S t (thread_step W smp c b (place t)).
Proof.
  intros Hp Hpl Hok HH. destruct Hok as [Hh Hpc]. rewrite Hpl in Hpc |- *. unfold thread_step, fast_acquire, acquire_loop, fast_release, release_loop, ExpChangeRundown.
  destruct Hpc as [H1 Hv]. destruct (Z.eqb_spec c v) as [->|Hne]; simpl.
  - destruct (phase_even _ _ _ _ _ Hp Hv) as [Hc _]. unfold EX_RUNDOWN_COUNT_INC.
    rewrite (proj2 (Z.leb_le 2 v)), u32_small by lia. simpl.
    replace (v - 2) with (2 * (H + -1)) by lia.
    eapply keeps_change; rewrite ?Hpl; simpl; try done; lia.
  - apply keeps_same; rewrite ?Hpl; simpl; done || lia.
Qed.

(** A release that finds the count, or the pointer to the wait block, at [c]. *)
Lemma release_reread c b o H S h a :
  phase c b o H S -> 1 <= refs_of a <= h -> h <= H < 2 ^ 31 -> thread_ok o (Thread (ReleaseLoop a c) h).
Proof.
  intros Hp Ha Hh. split; simpl; [lia|]. split; [done|].
  destruct (phase_held _ _ _ _ _ Hp ltac:(lia)) as [[Hc ->]|(Ho & Hc & -> & _)]; [lia|done].
Qed.

Lemma remove_count_spec a H :
  1 <= refs_of a <= H -> H < 2 ^ 31 -> remove_count a H = (H - refs_of a, H - refs_of a =? 0).
Proof.
  intros Ha Hh. destruct a as [|n]; simpl in *; [by rewrite u32_small by lia|].
  rewrite u32_small, !s32_small by lia. f_equal. case_cmp.
Qed.

Lemma release_ok c b o H S t a v :
  phase c b o H S -> place t = ReleaseLoop a v -> thread_ok o t -> held t <= H < 2 ^ 31 ->
  keeps o H S t (thread_step W smp c b (place t)).
Proof.
  intros Hp Hpl Hok HH. destruct Hok as [Hh Hpc]. rewrite Hpl in Hpc |- *. unfold thread_step, fast_acquire, acquire_loop, fast_release, release_loop.
  destruct Hpc as [Ha Hv]. rewrite active_bit. destruct (Z.odd v) eqn:Ev; cbn [negb].
  - destruct Hv as [-> ->]. rewrite mask_pointer. unfold block_at. rewrite Z.eqb_refl.
    destruct Hp as (-> & e & -> & HS). cbn [mbind option_bind bCount WakeEvent].
    rewrite (proj2 (Z.leb_le (refs_of a) H)), remove_count_spec by lia. cbn [assert orb mbind option_bind].
    eexists _, _, _, _. split; [reflexivity|]. rewrite Hpl. cbn [setting pending].
    rewrite (proj2 (Z.eqb_neq H 0)) in HS by lia.
    replace (H + - refs_of a) with (H - refs_of a) by lia.
    destruct (Z.eqb_spec (H - refs_of a) 0) as [Hz|Hz]; cbn [setting pending].
    + split_and!; [split; [done|]; exists e; split; [done|]|split; [simpl; lia|done]|lia].
      rewrite (proj2 (Z.eqb_eq _ _)) by lia. simpl in *. lia.
    + split_and!; [split; [done|]; exists e; split; [done|]|split; [simpl; lia|done]|lia].
      rewrite (proj2 (Z.eqb_neq _ _)) by lia. simpl in *. lia.
  - rewrite increment_small, (proj2 (Z.leb_le (2 * refs_of a) v)) by lia. cbn [assert orb mbind option_bind].
    unfold ExpChangeRundown. destruct (Z.eqb_spec c v) as [->|Hne].
    + destruct (phase_even _ _ _ _ _ Hp Ev) as [Hc _]. rewrite u32_small by lia.
      replace (v - 2 * refs_of a) with (2 * (H + - refs_of a)) by lia.
      eapply keeps_change; rewrite ?Hpl; simpl; try done; lia.
    + apply keeps_same; rewrite ?Hpl; simpl; try done. by eapply release_reread.
Qed.

Lemma set_event_ok c b o H S t p :
  phase c b o H S -> place t = SetEvent p -> thread_ok o t -> 1 <= S ->
  keeps o H S t (thread_step W smp c b (place t)).
Proof.
  intros Hp Hpl Hok HS. destruct Hok as [Hh Hpc]. rewrite Hpl in Hpc |- *. destruct Hpc as [-> ->].
  unfold thread_step, fast_acquire, acquire_loop, fast_release, release_loop, block_at. rewrite Z.eqb_refl. destruct Hp as (-> & e & -> & He).
  cbn [mbind option_bind bCount WakeEvent]. eexists _, _, _, _. split; [reflexivity|].
  rewrite Hpl. simpl. rewrite !Z.add_0_r. split_and!; [done| |by split|lia].
  exists true. split; [done|]. destruct e, (H =? 0); simpl in *; lia.
Qed.

Lemma thread_step_ok c b o H S t :
  phase c b o H S -> thread_ok o t -> 0 <= held t <= H -> H + pending (place t) < 2 ^ 31 -> setting (place t) <= S ->
  keeps o H S t (thread_step W smp c b (place t)).
Proof.
  intros Hp Hok Hh Hb HS. pose proof (phase_range _ _ _ _ _ Hp) as Hr.
  destruct (place t) eqn:Hpl; rewrite <- Hpl; cbn [pending setting] in Hb, HS.
  - rewrite Hpl. apply keeps_same; rewrite ?Hpl; try done. split; simpl; [lia|done].
  - rewrite Hpl. apply keeps_same; rewrite ?Hpl; try done. split; [simpl; lia|]. simpl.
    rewrite mask_active by lia. apply odd_double.
  - eapply fast_acquire_ok; done || lia.
  - pose proof Hok as [_ Ha]. rewrite Hpl in Ha |- *. apply keeps_same; rewrite ?Hpl; try done. split; simpl; [lia|done].
  - eapply acquire_ok; done || lia.
  - pose proof Hok as [_ Ha]. rewrite Hpl in Ha |- *. apply keeps_same; rewrite ?Hpl; try done. split; [simpl; lia|]. simpl.
    rewrite mask_active by lia. split; [done|apply odd_double].
  - eapply fast_release_ok; done || lia.
  - pose proof Hok as [_ Ha]. rewrite Hpl in Ha |- *. apply keeps_same; rewrite ?Hpl; try done.
    eapply release_reread; done || lia.
  - eapply release_ok; done || lia.
  - by eapply set_event_ok.
Qed.

(** ** Every step keeps the invariant *)

Lemma thread_ok_owner o o' t :
  thread_ok o t -> (o = Waiting -> o' = Waiting) -> thread_ok o' t.
Proof.
  intros [Hh Hp] Ho. split; [done|]. destruct (place t); try done.
  - destruct Hp as [Ha Hv]. split; [done|]. destruct (Z.odd Value); [|done]. destruct Hv. auto.
  - destruct Hp. auto.
Qed.

Lemma held_nonneg s : inv s -> forall t, t ∈ threads s -> 0 <= held t.
Proof. intros (_ & _ & Hok) t Ht. by apply Hok. Qed.

Lemma pending_nonneg o t : thread_ok o t -> 0 <= pending (place t).
Proof. intros [_ Hp]. destruct (place t); simpl in *; lia. Qed.

Lemma setting_nonneg p : 0 <= setting p.
Proof. destruct p; simpl; lia. Qed.

Lemma total_range s : inv s -> 0 <= total (threads s) < 2 ^ 31.
Proof.
  intros Hi. pose proof Hi as (_ & Hcl & Hok). split; [apply sum_over_nonneg; by apply held_nonneg|].
  unfold claimed in Hcl. rewrite sum_over_add in Hcl.
  pose proof (sum_over_nonneg (fun t => pending (place t)) (threads s)) as Hp.
  specialize (Hp ltac:(intros x Hx; eapply pending_nonneg; by apply Hok)). unfold total. lia.
Qed.

(** A thread's part of the sums. *)
Lemma thread_share s i t :
  inv s -> threads s !! i = Some t ->
  thread_ok (owner s) t /\ 0 <= held t <= total (threads s) /\
  total (threads s) + pending (place t) < 2 ^ 31 /\
  setting (place t) <= sum_over (fun t => setting (place t)) (threads s).
Proof.
  intros Hi Ht. pose proof Hi as (_ & Hcl & Hok).
  assert (t ∈ threads s) by (by eapply list_elem_of_lookup_2).
  split_and!; [by apply Hok|by apply Hok|apply (sum_over_lookup_le held _ i); [by apply held_nonneg|done]| |].
  - pose proof (sum_over_lookup_le (fun t => pending (place t)) (threads s) i t) as Hle. cbv beta in Hle.
    specialize (Hle ltac:(intros x Hx; eapply pending_nonneg; by apply Hok) Ht).
    unfold claimed in Hcl. rewrite sum_over_add in Hcl. unfold total. lia.
  - apply (sum_over_lookup_le (fun t => setting (place t)) _ i); [intros; apply setting_nonneg|done].
Qed.

Lemma inv_update s c b i t t' :
  inv s -> threads s !! i = Some t ->
  phase c b (owner s) (total (threads s) - held t + held t')
    (sum_over (fun t => setting (place t)) (threads s) - setting (place t) + setting (place t')) ->
  thread_ok (owner s) t' ->
  claimed (threads s) - (held t + pending (place t)) + (held t' + pending (place t')) < 2 ^ 31 ->
  inv (System c b (<[i := t']> (threads s)) (owner s)).
Proof.
  intros (_ & Hcl & Hok) Ht Hp Hok' Hb. unfold inv, total, claimed in *. simpl.
  rewrite !(sum_over_insert _ _ _ _ _ Ht). split_and!; [done|done|].
  intros x [->|Hx]%elem_of_insert_cases; [done|]. by apply Hok.
Qed.

Lemma run_ok s i t :
  inv s -> threads s !! i = Some t ->
  exists c b p d, thread_step W smp (Count s) (wait_block s) (place t) = Some (c, b, p, d) /\
    inv (System c b (<[i := Thread p (held t + d)]> (threads s)) (owner s)).
Proof.
  intros Hi Ht. destruct (thread_share s i t Hi Ht) as (Hok & Hh & Hb & HS). pose proof Hi as (Hp & Hcl & _).
  destruct (thread_step_ok _ _ _ _ _ _ Hp Hok Hh Hb HS) as (c & b & p & d & E & Hp' & Hok' & Hd).
  exists c, b, p, d. split; [done|]. apply (inv_update s c b i t); simpl; try done; [|lia].
  replace (_ - held t + (held t + d)) with (total (threads s) + d) by lia. done.
Qed.

Lemma call_ok s i h c :
  inv s -> threads s !! i = Some (Thread Idle h) -> allowed s (Thread Idle h) c = true ->
  inv (System (Count s) (wait_block s) (<[i := Thread (enter c) h]> (threads s)) (owner s)).
Proof.
  intros Hi Ht Ha. destruct (thread_share s i _ Hi Ht) as ([Hh _] & _). pose proof Hi as (Hp & Hcl & _).
  simpl in Hh. apply (inv_update s _ _ i (Thread Idle h)); simpl; try done.
  - replace (_ - h + h) with (total (threads s)) by lia.
    replace (_ - 0 + setting (enter c)) with (sum_over (fun t => setting (place t)) (threads s)); [done|].
    destruct c; simpl; lia.
  - destruct c; simpl in *; split; simpl; try done; lia.
  - destruct c; simpl in *; lia.
Qed.

(** No thread is in a release that saw the wait block, or about to set the event. *)
Lemma owner_leaves o o' ts :
  (forall t, t ∈ ts -> thread_ok o t) -> total ts = 0 -> sum_over (fun t => setting (place t)) ts = 0 ->
  forall t, t ∈ ts -> thread_ok o' t.
Proof.
  intros Hok HH HS t Ht. destruct (Hok t Ht) as [Hh Hp]. split; [done|].
  assert (held t = 0) by (eapply (sum_over_zero held); [|done|done]; intros x Hx; by apply Hok).
  assert (setting (place t) = 0)
    by (eapply (sum_over_zero (fun t => setting (place t))); [|done|done]; intros; apply setting_nonneg).
  destruct (place t); simpl in *; done || lia.
Qed.

(** What a step of the owner keeps. *)
Definition owner_keeps (o : opc) (H S : Z) (r : result (Z * option block * opc)) : Prop :=
  match r with
  | Next (c', b', o') => phase c' b' o' H S /\ (o = Waiting -> H = 0 /\ S = 0)
  | Blocked => o = Out \/ o = Returned \/ o = Waiting /\ (S = 1 \/ 1 <= H)
  | Fault => False
  end.

Lemma owner_step_ok c b o H S :
  phase c b o H S -> 0 <= H < 2 ^ 31 -> 0 <= S -> owner_keeps o H S (owner_step W c b o).
Proof.
  intros Hp HH HS. pose proof (phase_range _ _ _ _ _ Hp HH) as Hr. pose proof odd_pointer.
  unfold owner_keeps, owner_step, ExpChangeRundown, EX_RUNDOWN_ACTIVE in *.
  destruct o; simpl in Hp; unfold EX_RUNDOWN_ACTIVE in *.
  - by left.
  - destruct Hp as (Hc & -> & ->). destruct (Z.eqb_spec c 0); simpl; [split; [|done]; split_and!; try done; [by right|lia]|].
    destruct (Z.eqb_spec c 1); simpl; (split; [|done]); [split_and!; try done; [by right|lia]|done].
  - destruct Hp as (Hc & -> & ->). destruct (Z.eqb_spec c 0); simpl; [split; [|done]; split_and!; try done; [by right|lia]|].
    destruct (Z.eqb_spec c 1); simpl; (split; [|done]); [split_and!; try done; [by right|lia]|].
    split_and!; [lia|done|]. exists 0, None. done.
  - destruct Hp as (-> & -> & n & e & -> & He). rewrite Z.shiftr_div_pow2 by (unfold EX_RUNDOWN_COUNT_SHIFT; lia).
    change (2 ^ EX_RUNDOWN_COUNT_SHIFT) with 2. change (Z.lor W 1) with (Z.lor W EX_RUNDOWN_ACTIVE). rewrite pointer_W.
    destruct (negb (Value / 2 =? 0) && negb Event) eqn:Ee; destruct (Z.eqb_spec (2 * H) Value) as [<-|Hne].
    + replace (2 * H / 2) with H in * by (Z.div_mod_to_equations; lia).
      apply andb_true_iff in Ee as [Hn _]. apply negb_true_iff in Hn. rewrite Hn. simpl. split; [|done].
      split; [done|]. exists false. by rewrite Hn.
    + change 1 with EX_RUNDOWN_ACTIVE. rewrite active_bit, odd_double. simpl. split; [|done]. split_and!; [done..|]. by eexists _, _.
    + replace (2 * H / 2) with H in * by (Z.div_mod_to_equations; lia).
      destruct (Z.eqb_spec H 0) as [->|HH0]; simpl.
      * split; [|done]. split_and!; try done. by left.
      * simpl in Ee. apply negb_false_iff in Ee. subst Event. rewrite He by done. split; [|done].
        split; [done|]. exists false. rewrite (proj2 (Z.eqb_neq H 0)) by done. done.
    + change 1 with EX_RUNDOWN_ACTIVE. rewrite active_bit, odd_double. simpl. split; [|done]. split_and!; [done..|].
      eexists _, _. split; [done|]. simpl. intros ->. by apply He.
  - destruct Hp as (-> & e & -> & He). destruct e.
    + destruct (Z.eqb_spec H 0) as [->|]; simpl in He; [|lia].
      split; [split_and!; try done; [by left|lia]|]. intros _. split; [done|lia].
    + right. right. split; [done|]. destruct (Z.eqb_spec H 0); simpl in He; lia.
  - by right; left.
Qed.

Lemma owner_call_ok c b o H S cl :
  phase c b o H S -> 0 <= H < 2 ^ 31 ->
  match owner_enter c o cl with
  | Next (c', o') => phase c' b o' H S /\ o <> Waiting
  | Blocked => True
  | Fault => False
  end.
Proof.
  intros Hp HH. pose proof odd_pointer as Hodd.
  destruct cl, o; simpl; try done; simpl in Hp; unfold EX_RUNDOWN_ACTIVE in *.
  1,3: split; [|done]; split_and!; tauto || (left; tauto).
  1,2: destruct (Z.eqb_spec c 1); [|done]; split; [|done]; split_and!; try tauto; right; tauto.
  all: change 1 with EX_RUNDOWN_ACTIVE; rewrite active_bit;
    destruct Hp as ([-> | ->] & -> & -> & ->); rewrite ?Hodd; simpl; split; try done; split_and!; try done; by right.
Qed.

Lemma inv_exec s l : inv s -> exec W smp s l <> Fault /\ forall s', exec W smp s l = Next s' -> inv s'.
Proof.
  intros Hi. pose proof Hi as (Hp & Hcl & Hok). pose proof (total_range s Hi) as HH.
  assert (HS : 0 <= sum_over (fun t => setting (place t)) (threads s))
    by (apply sum_over_nonneg; intros; apply setting_nonneg).
  destruct l as [i c|i|c|]; simpl.
  - destruct (threads s !! i) as [[[] h]|] eqn:Ht; try done. destruct (allowed s _ c) eqn:Ha; [|done].
    split; [done|]. intros s' [= <-]. by apply call_ok.
  - destruct (threads s !! i) as [t|] eqn:Ht; [|done].
    destruct (run_ok s i t Hi Ht) as (c & b & p & d & E & Hi'). destruct t as [pl h]. simpl in E, Hi'.
    rewrite E. destruct pl; (split; [done|]); try done; intros s' [= <-]; done.
  - pose proof (owner_call_ok _ _ _ _ _ c Hp HH) as Ho. destruct (owner_enter _ _ c) as [[c' o']| |]; try done.
    split; [done|]. intros s' [= <-]. destruct Ho as [Hp' Ho]. split_and!; [done|done|]. simpl.
    intros t Ht. eapply thread_ok_owner; [by apply Hok|done].
  - pose proof (owner_step_ok _ _ _ _ _ Hp HH HS) as Ho. destruct (owner_step _ _ _ _) as [[[c' b'] o']| |]; try done.
    split; [done|]. intros s' [= <-]. destruct Ho as [Hp' Ho]. split_and!; [done|done|]. simpl.
    destruct (owner s) eqn:Eo; try (intros t Ht; eapply thread_ok_owner; [by apply Hok|done]).
    eapply owner_leaves; [exact Hok|tauto..].
Qed.

Lemma inv_initial n : inv (initial n).
Proof.
  assert (E : forall f : thread -> Z, f (Thread Idle 0) = 0 -> sum_over f (replicate n (Thread Idle 0)) = 0).
  { intros f Hf. induction n as [|n IH]; [done|]. unfold sum_over in *. simpl. lia. }
  unfold inv, total, claimed. simpl. rewrite !E by done. split_and!; [done..|].
  intros t (-> & _)%elem_of_replicate. by split.
Qed.

Lemma reachable_inv n s : reachable W smp n s -> inv s.
Proof.
  induction 1 as [|s l s' _ IH E]; [apply inv_initial|]. destruct (inv_exec s l IH) as [_ Hs]. by apply Hs.
Qed.

(** ** Termination

    A call that has begun ends after an exchange that succeeds; an exchange that fails has
    the current count for its next attempt, which only another's success makes stale. *)

Definition active (p : pc) : Z := match p with Idle => 0 | _ => 1 end.

Definition distance (c : Z) (p : pc) : Z :=
  match p with
  | Idle | SetEvent _ => 0
  | FastAcquire | FastRelease => 4
  | FastAcquireCas _ | FastReleaseCas _ => 3
  | Acquire _ | Release _ => 2
  | AcquireLoop _ v | ReleaseLoop _ v => if Z.odd v || (v =? c) then 1 else 2
  end.

Definition owner_active (o : opc) : Z := match o with Out | Returned => 0 | Waiting => 1 | _ => 2 end.

Definition owner_distance (c : Z) (o : opc) : Z :=
  match o with
  | Out | Returned | Waiting => 0
  | FastWait => 4
  | Wait => 3
  | WaitLoop v _ => if v =? c then 1 else 2
  end.

Definition measure (s : system) : Z :=
  (sum_over (fun t => active (place t)) (threads s) + owner_active (owner s)) * (4 * Z.of_nat (length (threads s)) + 5)
  + sum_over (fun t => distance (Count s) (place t)) (threads s) + owner_distance (Count s) (owner s).

Lemma distance_range c p : 0 <= distance c p <= 4.
Proof. destruct p; simpl; try lia; destruct (_ || _); lia. Qed.

Lemma distances_range c ts : 0 <= sum_over (fun t => distance c (place t)) ts <= 4 * Z.of_nat (length ts).
Proof.
  induction ts as [|t ts IH]; [done|]. unfold sum_over in *. cbn [foldr length].
  pose proof (distance_range c (place t)). lia.
Qed.

Lemma owner_distance_range c o : 0 <= owner_distance c o <= 4.
Proof. destruct o; simpl; try lia. destruct (_ =? _); lia. Qed.

Lemma measure_nonneg s : 0 <= measure s.
Proof.
  unfold measure. pose proof (distances_range (Count s) (threads s)). pose proof (owner_distance_range (Count s) (owner s)).
  assert (0 <= sum_over (fun t => active (place t)) (threads s))
    by (apply sum_over_nonneg; intros t _; destruct (place t); simpl; lia).
  assert (0 <= owner_active (owner s)) by (destruct (owner s); simpl; lia). nia.
Qed.

(** Progress: the call ends, or the count stays and the call is nearer its end. *)
Lemma thread_step_progress c b p c' b' p' d :
  p <> Idle -> thread_step W smp c b p = Some (c', b', p', d) ->
  active p' < active p \/ c' = c /\ active p' = active p /\ distance c p' < distance c p.
Proof.
  intros Hp E. destruct p; try done; cbn [thread_step] in E;
    unfold fast_acquire, acquire_loop, fast_release, release_loop, ExpChangeRundown in E.
  - injection E as <- <- <- <-. right. simpl. lia.
  - destruct (Z.eqb_spec c Value); simpl in E; injection E as <- <- <- <-; [left|right]; simpl; lia.
  - injection E as <- <- <- <-. right. simpl. rewrite Z.eqb_refl, orb_true_r. lia.
  - rewrite active_bit in E. destruct (Z.odd Value) eqn:Eo; [injection E as <- <- <- <-; left; simpl; lia|].
    destruct (Z.eqb_spec c Value); simpl in E; injection E as <- <- <- <-; [left; simpl; lia|right].
    cbn [distance active]. rewrite Eo, Z.eqb_refl, orb_true_r, (proj2 (Z.eqb_neq Value c)) by done. simpl. lia.
  - injection E as <- <- <- <-. right. simpl. lia.
  - destruct (Z.eqb_spec c Value); simpl in E; [|injection E as <- <- <- <-; right; simpl; lia].
    destruct (assert _); [|done]. injection E as <- <- <- <-. left. simpl. lia.
  - injection E as <- <- <- <-. right. simpl. rewrite Z.eqb_refl, orb_true_r. lia.
  - rewrite active_bit in E. destruct (Z.odd Value) eqn:Eo; simpl in E.
    + destruct (block_at _ b _) as [wb|]; [|done]. simpl in E. destruct (assert _); [|done]. simpl in E.
      destruct (remove_count a (bCount wb)) as [k z]. injection E as <- <- <- <-. simpl. rewrite Eo. destruct z; simpl; lia.
    + destruct (assert _); [|done]. simpl in E.
      destruct (Z.eqb_spec c Value); simpl in E; injection E as <- <- <- <-; [left; simpl; lia|right].
      cbn [distance active]. rewrite Eo, Z.eqb_refl, orb_true_r, (proj2 (Z.eqb_neq Value c)) by done. simpl. lia.
  - destruct (block_at _ b _) as [wb|]; [|done]. simpl in E. destruct (WakeEvent wb); [|done].
    injection E as <- <- <- <-. left. simpl. lia.
Qed.

Lemma owner_step_progress c b o c' b' o' :
  owner_step W c b o = Next (c', b', o') ->
  owner_active o' < owner_active o \/
  c' = c /\ owner_active o' = owner_active o /\ owner_distance c o' < owner_distance c o.
Proof.
  unfold owner_step, ExpChangeRundown. intros E. destruct o; try done.
  - destruct (Z.eqb_spec c 0); simpl in E; [injection E as <- <- <-; simpl; lia|].
    destruct (_ =? EX_RUNDOWN_ACTIVE); simpl in E; injection E as <- <- <-; simpl; lia.
  - destruct (Z.eqb_spec c 0); simpl in E; [injection E as <- <- <-; simpl; lia|].
    destruct (_ =? EX_RUNDOWN_ACTIVE); simpl in E; injection E as <- <- <-; simpl; rewrite ?Z.eqb_refl; lia.
  - destruct b as [wb|]; [|done]. destruct (if negb _ && _ then _ else _) as [wb' ev].
    destruct (Z.eqb_spec c Value); [destruct (_ =? 0); injection E as <- <- <-; simpl; lia|].
    destruct (has _ _); [done|]. injection E as <- <- <-. cbn [owner_active owner_distance].
    rewrite Z.eqb_refl, (proj2 (Z.eqb_neq Value c)) by done. lia.
  - destruct b as [[k [[]|]]|]; try done. destruct (k =? 0); [|done]. injection E as <- <- <-. simpl. lia.
Qed.

Lemma internal_measure s s' : internal W smp s s' -> measure s' < measure s.
Proof.
  intros [(i & E)|E]; simpl in E.
  - destruct (threads s !! i) as [[p h]|] eqn:Ht; [|done].
    assert (Hp : p <> Idle) by (by intros ->).
    assert (E' : match thread_step W smp (Count s) (wait_block s) p with
      | Some (c, b, p, d) => Next (System c b (<[i:=Thread p (h + d)]> (threads s)) (owner s)) | None => Fault end = Next s')
      by (by destruct p). clear E.
    destruct (thread_step _ _ _ _ p) as [[[[c b] p'] d]|] eqn:Es; [|done]. injection E' as <-.
    apply thread_step_progress in Es; [|done]. unfold measure. simpl. rewrite length_insert.
    pose proof (distances_range (Count s) (threads s)). pose proof (distances_range c (<[i:=Thread p' (h + d)]> (threads s))) as Hd'.
    rewrite length_insert in Hd'. pose proof (owner_distance_range (Count s) (owner s)). pose proof (owner_distance_range c (owner s)).
    rewrite (sum_over_insert (fun t => active (place t)) _ _ _ _ Ht). simpl.
    destruct Es as [Hlt|(-> & -> & Hlt)]; [nia|].
    rewrite (sum_over_insert (fun t => distance (Count s) (place t)) _ _ _ _ Ht). simpl. lia.
  - destruct (owner_step W _ _ _) as [[[c b] o]| |] eqn:Es; try done. injection E as <-.
    apply owner_step_progress in Es. unfold measure. simpl.
    pose proof (distances_range (Count s) (threads s)). pose proof (distances_range c (threads s)).
    pose proof (owner_distance_range (Count s) (owner s)). pose proof (owner_distance_range c o).
    destruct Es as [Hlt|(-> & -> & Hlt)]; [nia|lia].
Qed.

Lemma internal_wf s : Acc (fun s' s => internal W smp s s') s.
Proof.
  remember (Z.to_nat (measure s)) as n eqn:Hn. revert s Hn. induction n as [n IH] using lt_wf_ind. intros s ->.
  constructor. intros s' Hs. eapply IH; [|reflexivity].
  pose proof (internal_measure s s' Hs). pose proof (measure_nonneg s'). lia.
Qed.

(** A state where no call can go on. *)
Lemma quiescent_idle s :
  inv s -> (forall s', ~ internal W smp s s') ->
  (forall t, t ∈ threads s -> place t = Idle) /\
  (owner s = Out \/ owner s = Returned \/ owner s = Waiting /\ 1 <= total (threads s)).
Proof.
  intros Hi Hq. assert (Hidle : forall t, t ∈ threads s -> place t = Idle).
  { intros t (i & Ht)%list_elem_of_lookup. destruct (run_ok s i t Hi Ht) as (c & b & p & d & E & _).
    destruct (decide (place t = Idle)) as [|Hne]; [done|]. exfalso.
    apply (Hq (System c b (<[i := Thread p (held t + d)]> (threads s)) (owner s))). left. exists i. simpl.
    rewrite Ht. destruct t as [pl h]. simpl in *. rewrite E. destruct pl; congruence. }
  split; [done|]. pose proof Hi as (Hp & _).
  assert (HS : sum_over (fun t => setting (place t)) (threads s) = 0).
  { revert Hidle. clear. induction (threads s) as [|t l IH]; intros H; [done|]. unfold sum_over in *. simpl.
    rewrite (H t) by left. rewrite IH; [done|]. intros; apply H; by right. }
  pose proof (owner_step_ok _ _ _ _ _ Hp (total_range s Hi) ltac:(lia)) as Ho. rewrite HS in Ho.
  destruct (owner_step W (Count s) (wait_block s) (owner s)) as [[[c b] o]| |] eqn:E; [|simpl in Ho; intuition lia|done].
  exfalso. eapply Hq. right. simpl. by rewrite E.
Qed.
End Invariant.

Lemma run_reachable W smp n ls : forall s s', reachable W smp n s -> run W smp ls s = Next s' -> reachable W smp n s'.
Proof.
  induction ls as [|l ls IH]; intros s s' Hr E; simpl in E; [by injection E as <-|].
  destruct (exec W smp s l) as [s1| |] eqn:E1; try done. eapply IH; [|exact E]. by eapply reachable_step.
Qed.

(** A thread inside a release. *)
Definition releasing (p : pc) : bool :=
  match p with
  | FastRelease | FastReleaseCas _ | Release _ | ReleaseLoop _ _ | SetEvent _ => true
  | _ => false
  end.

Lemma owner_returned_threads W s t :
  inv W s -> owner s = Returned -> t ∈ threads s -> held t = 0 /\ releasing (place t) = false.
Proof.
  intros Hi Ho Ht. pose proof Hi as (Hp & _ & Hok). rewrite Ho in Hp. destruct Hp as (_ & HH & _ & _).
  assert (Hh : held t = 0) by (eapply (sum_over_zero held); [|exact HH|done]; by eapply held_nonneg).
  split; [done|]. destruct (Hok t Ht) as [_ Hpl]. rewrite Ho in Hpl.
  destruct (place t); simpl in *; try done; exfalso; intuition (lia || done).
Qed.

(** * Theorems *)

(** C2.  Rundown protection is safe: on any schedule of any number of threads acquiring and
    releasing references, one at a time or several, with one thread running the object down,
    no assertion of the code fails and no thread touches the wait block outside its life time;
    and from the moment the wait returns until the object is initialised again the active bit
    is set, no thread holds a reference and none is still inside a release. *)
Theorem rundown_safe W smp n s
  (HW : 0 < W < 2 ^ 32 - 1) (HWeven : Z.odd W = false) (Hr : reachable W smp n s) :
  (forall l, exec W smp s l <> Fault) /\
  (owner s = Returned ->
    has (Count s) EX_RUNDOWN_ACTIVE = true /\ wait_block s = None /\
    forall t, t ∈ threads s -> held t = 0 /\ releasing (place t) = false).
Proof.
  pose proof (reachable_inv W smp HW HWeven n s Hr) as Hi. split.
  - intros l. by destruct (inv_exec W smp HW HWeven s l Hi).
  - intros Ho. pose proof Hi as (Hp & _). rewrite Ho in Hp. destruct Hp as (Hc & _ & Hb & _).
    split_and!; [|done|intros t Ht; by eapply owner_returned_threads].
    rewrite active_bit. destruct Hc as [-> | ->]; [by apply odd_pointer|done].
Qed.

(** A reference taken, the wait blocking on it, the release that sets the event. *)
Definition schedule : list label :=
  [Call 0 CallFastAcquire; Run 0; Run 0; OwnerCall CallFastWait; OwnerRun; OwnerRun; OwnerRun;
   Call 0 CallFastRelease; Run 0; Run 0; Run 0; Run 0; Run 0; OwnerRun].

Lemma rundown_safe_witness :
  (forall l, exec 0x1000 false (System 0x1001 None [Thread Idle 0; Thread Idle 0] Returned) l <> Fault) /\
  has 0x1001 EX_RUNDOWN_ACTIVE = true.
Proof.
  assert (Hr : reachable 0x1000 false 2 (System 0x1001 None [Thread Idle 0; Thread Idle 0] Returned))
    by (eapply (run_reachable _ _ _ schedule); [constructor|vm_compute; reflexivity]).
  destruct (rundown_safe 0x1000 false 2 _ ltac:(lia) ltac:(done) Hr) as [H1 H2].
  split; [exact H1|]. by apply H2.
Defined.

(** The count is exact: while the object is in use the count word is twice the number of
    references held; while the owner waits the word is the tagged address of its wait block,
    the block counts the references still held, and the event is set only when that is zero. *)
Theorem rundown_count W smp n s
  (HW : 0 < W < 2 ^ 32 - 1) (HWeven : Z.odd W = false) (Hr : reachable W smp n s) :
  (owner s = Out -> Count s = EX_RUNDOWN_COUNT_INC * total (threads s)) /\
  (owner s = Waiting -> Count s = Z.lor W EX_RUNDOWN_ACTIVE /\
    exists e, wait_block s = Some (Block (total (threads s)) (Some e)) /\ (e = true -> total (threads s) = 0)).
Proof.
  pose proof (reachable_inv W smp HW HWeven n s Hr) as (Hp & _).
  split; intros Ho; rewrite Ho in Hp; simpl in Hp; [apply Hp|].
  rewrite pointer_W by done. destruct Hp as (-> & e & -> & He). split; [done|]. exists e. split; [done|].
  intros ->. destruct (Z.eqb_spec (total (threads s)) 0); [done|]. simpl in He.
  assert (0 <= sum_over (fun t => setting (place t)) (threads s)) by (apply sum_over_nonneg; intros; apply setting_nonneg).
  lia.
Qed.

Lemma rundown_count_witness :
  exists e, Some (Block 1 (Some false)) = Some (Block 1 (Some e)) /\ (e = true -> 1 = 0).
Proof.
  assert (Hr : reachable 0x1000 false 2
      (System 0x1001 (Some (Block 1 (Some false))) [Thread Idle 1; Thread Idle 0] Waiting))
    by (eapply (run_reachable _ _ _ (take 7 schedule)); [constructor|vm_compute; reflexivity]).
  destruct (rundown_count 0x1000 false 2 _ ltac:(lia) ltac:(done) Hr) as [_ H].
  exact (proj2 (H eq_refl)).
Defined.

(** C24.  The wait ends: from any reachable state every schedule of the calls that have begun
    is finite, so the exchange loops terminate, and where it ends every thread has left its
    call and the owner is not waiting unless a reference is still held. *)
Theorem rundown_wait_ends W smp n s
  (HW : 0 < W < 2 ^ 32 - 1) (HWeven : Z.odd W = false) (Hr : reachable W smp n s) :
  Acc (fun s' s => internal W smp s s') s /\
  ((forall s', ~ internal W smp s s') ->
    (forall t, t ∈ threads s -> place t = Idle) /\
    (owner s = Out \/ owner s = Returned \/ owner s = Waiting /\ 1 <= total (threads s))).
Proof.
  pose proof (reachable_inv W smp HW HWeven n s Hr) as Hi. split; [apply internal_wf|by apply quiescent_idle].
Qed.

(** The owner waits for the reference of the first thread. *)
Lemma rundown_wait_ends_witness :
  Acc (fun s' s => internal 0x1000 false s s')
    (System 0x1001 (Some (Block 1 (Some false))) [Thread Idle 1; Thread Idle 0] Waiting).
Proof.
  refine (proj1 (rundown_wait_ends 0x1000 false 2 _ _ _ _)); [lia|done|].
  eapply (run_reachable _ _ _ (take 7 schedule)); [constructor|vm_compute; reflexivity].
Defined.
