(* ===== verification/ExRundownCache.v ===== *)
(** Cache aware rundown protection: ntoskrnl/ex/rundown.c, the functions over
    [EX_RUNDOWN_REF_CACHE_AWARE].

    One rundown reference per processor, each on a cache line of its own; a thread uses the
    one of the processor it runs on at the time of the call, so that a single count may go
    below zero.  The transition system is the one of the plain reference, with a list of
    counts. *)

From S2P Require Import Prelude ExRundown.

(** ** The structure *)

Record cache_aware := CacheAware { RunRefs : Z; PoolToFree : Z; RunRefSize : Z; Number : Z }.

(** [sizeof(EX_RUNDOWN_REF_CACHE_AWARE)] and [sizeof(EX_RUNDOWN_REF)]. *)
Definition sizeof_cache_aware : Z := 16.
Definition sizeof_ref : Z := 4.

(** [ALIGN_UP_BY] is the macro [ROUND_UP]. *)
Definition ALIGN_UP_BY (size align : Z) : Z := ROUND_UP size align.

Definition ExGetRunRefForGivenProcessor (r : cache_aware) (ProcNumber : Z) : Z :=
  u32 (RunRefs r + u32 (RunRefSize r * (ProcNumber mod Number r))).

(** [procs] is [KeNumberProcessors], [align] what [KeGetRecommendedSharedDataAlignment]
    returns. *)
Definition ExSizeOfRundownProtectionCacheAware (procs align : Z) : Z :=
  let Size := if procs <=? 1 then sizeof_ref else u32 ((procs + 1) * align) in
  u32 (Size + sizeof_cache_aware).

(** The addresses of the run refs that are set to zero. *)
Definition initialized (r : cache_aware) : list Z :=
  (fun p => ExGetRunRefForGivenProcessor r (Z.of_nat p)) <$> seq 0 (Z.to_nat (Number r)).

Definition ExInitializeRundownProtectionCacheAware (RunRefCacheAware Size align : Z) : cache_aware * list Z :=
  let Pool := u32 (RunRefCacheAware + sizeof_cache_aware) in
  let '(RunRefSize, Count, Pool) :=
    if Size =? sizeof_cache_aware + sizeof_ref then (sizeof_ref, 1, Pool)
    else (align, u32 (u32 (Size - sizeof_cache_aware) / align - 1), ALIGN_UP_BY Pool align) in
  let r := CacheAware Pool 0xBADCA11 RunRefSize Count in
  (r, initialized r).

(** [r0], [r1] and [r2] are what the calls of [ExAllocatePoolWithTag] return, in order; with
    the structure and the addresses set to zero comes the list of the pool blocks that are
    allocated at the end, with their sizes. *)
Definition ExAllocateCacheAwareRundownProtection (procs align : Z) (r0 r1 r2 : option Z)
  : option (cache_aware * list Z) * list (Z * Z) :=
  match r0 with
  | None => (None, [])
  | Some RunRefCacheAware =>
      let live := [(RunRefCacheAware, sizeof_cache_aware)] in
      let Number := procs in
      let RunRefSize := if procs <=? 1 then sizeof_ref else align in
      match r1 with
      | None => (None, filter (fun x => fst x <> RunRefCacheAware) live)
      | Some PoolToFree =>
          let live := (PoolToFree, u32 (RunRefSize * Number)) :: live in
          if (1 <? Number) && has PoolToFree (align - 1) then
            let live := filter (fun x => fst x <> PoolToFree) live in
            match r2 with
            | None => (None, filter (fun x => fst x <> RunRefCacheAware) live)
            | Some PoolToFree =>
                let live := (PoolToFree, u32 (RunRefSize * (Number + 1))) :: live in
                let r := CacheAware (ALIGN_UP_BY PoolToFree align) PoolToFree RunRefSize Number in
                (Some (r, initialized r), live)
            end
          else
            let r := CacheAware PoolToFree PoolToFree RunRefSize Number in
            (Some (r, initialized r), live)
      end
  end.

(** [ExFreeCacheAwareRundownProtection] of the structure at [p]. *)
Definition ExFreeCacheAwareRundownProtection (p : Z) (r : cache_aware) (live : list (Z * Z)) : list (Z * Z) :=
  filter (fun x => fst x <> p) (filter (fun x => fst x <> PoolToFree r) live).

(** ** The transition system *)

Section Machine.
Context (W : Z).

(** A thread with the processor its call has chosen. *)
Record cthread := CThread { cplace : pc; cheld : Z; cpu : nat }.

(** [ExfWaitForRundownProtectionReleaseCacheAware]: before it, at the read of the count of
    processor [Current], at the exchange of the value read, at the addition to the block's
    count, in [KeWaitForSingleObject], and after it. *)
Inductive copc :=
| COut
| CRead (Current : nat) (TotalCount : Z)
| CChange (Current : nat) (TotalCount Value : Z)
| CAdd (TotalCount : Z)
| CWaiting
| CReturned.

Record csystem := CSystem { counts : list Z; cblock : option block; cthreads : list cthread; cowner : copc }.

(** The end of the loop over the processors. *)
Definition next_processor (procs Current : nat) (TotalCount : Z) : option copc :=
  if (Current <? procs)%nat then Some (CRead Current TotalCount) else
  assert (0 <=? s32 TotalCount);;
  if negb (TotalCount =? 0) then Some (CAdd TotalCount) else Some CReturned.

(** The wait block is gone when the function has returned. *)
Definition leave (o : copc) (b : option block) : option block :=
  match o with CReturned => None | _ => b end.

Definition cowner_step (s : csystem) : result csystem :=
  let procs := length (counts s) in
  match cowner s with
  | COut | CReturned => Blocked
  | CRead Current TotalCount =>
      match counts s !! Current with
      | None => Fault
      | Some Value =>
          if has Value EX_RUNDOWN_ACTIVE then Fault
          else Next (CSystem (counts s) (cblock s) (cthreads s) (CChange Current TotalCount Value))
      end
  | CChange Current TotalCount Value =>
      match counts s !! Current with
      | None => Fault
      | Some Count =>
          let '(OldValue, Count) := ExpChangeRundown Count (Z.lor W EX_RUNDOWN_ACTIVE) Value in
          let cs := <[Current := Count]> (counts s) in
          if OldValue =? Value then
            match next_processor procs (S Current) (u32 (TotalCount + Value)) with
            | None => Fault
            | Some o => Next (CSystem cs (leave o (cblock s)) (cthreads s) o)
            end
          else Next (CSystem cs (cblock s) (cthreads s) (CRead Current TotalCount))
      end
  | CAdd TotalCount =>
      match cblock s with
      | None => Fault
      | Some wb =>
          let n := Z.shiftr (s32 TotalCount) EX_RUNDOWN_COUNT_SHIFT in
          let wb' := Block (u32 (bCount wb + n)) (Some false) in
          let o := if s32 (bCount wb) =? - s32 (Z.shiftr TotalCount EX_RUNDOWN_COUNT_SHIFT)
                   then CWaiting else CReturned in
          Next (CSystem (counts s) (leave o (Some wb')) (cthreads s) o)
      end
  | CWaiting =>
      match cblock s with
      | Some (Block _ (Some true)) => Next (CSystem (counts s) None (cthreads s) CReturned)
      | Some (Block _ (Some false)) => Blocked
      | _ => Fault
      end
  end.

(** [ExfAcquireRundownProtectionCacheAware(Ex)] and [ExfReleaseRundownProtectionCacheAware(Ex)]
    on processor [p]: the plain functions on its reference, the single ones with the fast
    path. *)
Inductive clabel := CCall (i p : nat) (c : call) | CRun (i : nat) | COwnerCall | COwnerRun.

Definition callowed (t : cthread) (c : call) : bool :=
  match c with
  | CallFastAcquire => true
  | CallAcquire a => 1 <=? refs_of a
  | CallFastRelease => 1 <=? cheld t
  | CallRelease a => (1 <=? refs_of a) && (refs_of a <=? cheld t)
  end.

Definition cexec (s : csystem) (l : clabel) : result csystem :=
  match l with
  | CCall i p c =>
      match cthreads s !! i with
      | Some (CThread Idle h _ as t) =>
          if callowed t c && (p <? length (counts s))%nat
          then Next (CSystem (counts s) (cblock s) (<[i := CThread (enter c) h p]> (cthreads s)) (cowner s))
          else Blocked
      | _ => Blocked
      end
  | CRun i =>
      match cthreads s !! i with
      | None | Some (CThread Idle _ _) => Blocked
      | Some (CThread p h u) =>
          match counts s !! u with
          | None => Fault
          | Some Count =>
              match thread_step W true Count (cblock s) p with
              | None => Fault
              | Some (c, b, p, d) =>
                  Next (CSystem (<[u := c]> (counts s)) b (<[i := CThread p (h + d) u]> (cthreads s)) (cowner s))
              end
          end
      end
  | COwnerCall =>
      match cowner s with
      | COut =>
          if (length (counts s) =? 0)%nat then Next (CSystem (counts s) (cblock s) (cthreads s) CReturned)
          else Next (CSystem (counts s) (Some (Block 0 None)) (cthreads s) (CRead 0 0))
      | _ => Blocked
      end
  | COwnerRun => cowner_step s
  end.

Fixpoint crun (ls : list clabel) (s : csystem) : result csystem :=
  match ls with
  | [] => Next s
  | l :: ls' =>
      match cexec s l with
      | Next s' => crun ls' s'
      | r => r
      end
  end.

(** [ExfRundownCompletedCacheAware] and [ExfReInitializeRundownProtectionCacheAware]: every
    count is replaced, after the check that the active bit is set. *)
Fixpoint set_all (v : Z) (cs : list Z) : option (list Z) :=
  match cs with
  | [] => Some []
  | c :: cs' => assert (has c EX_RUNDOWN_ACTIVE);; rest ← set_all v cs'; Some (v :: rest)
  end.

Definition ExfRundownCompletedCacheAware (cs : list Z) : option (list Z) := set_all EX_RUNDOWN_ACTIVE cs.
Definition ExfReInitializeRundownProtectionCacheAware (cs : list Z) : option (list Z) := set_all 0 cs.

Definition cinitial (procs n : nat) : csystem :=
  CSystem (replicate procs 0) None (replicate n (CThread Idle 0 0)) COut.

End Machine.

(** * Laws *)

(** The references of a structure: inside [lo, hi), aligned, apart from each other. *)
Definition refs_in (r : cache_aware) (lo hi align : Z) : Prop :=
  forall p, 0 <= p < Number r ->
    lo <= ExGetRunRefForGivenProcessor r p /\ ExGetRunRefForGivenProcessor r p + sizeof_ref <= hi /\
    ExGetRunRefForGivenProcessor r p mod align = 0 /\
    forall q, 0 <= q < Number r -> p <> q ->
      ExGetRunRefForGivenProcessor r p + align <= ExGetRunRefForGivenProcessor r q \/
      ExGetRunRefForGivenProcessor r q + align <= ExGetRunRefForGivenProcessor r p.

Lemma run_ref_address r p :
  0 <= p < Number r -> 0 <= RunRefs r -> 0 <= RunRefSize r -> RunRefs r + RunRefSize r * Number r <= 2 ^ 32 ->
  0 < RunRefSize r -> ExGetRunRefForGivenProcessor r p = RunRefs r + RunRefSize r * p.
Proof.
  intros Hp H0 Hs Hb Hpos. unfold ExGetRunRefForGivenProcessor.
  rewrite (Z.mod_small p) by lia. rewrite !u32_small; [done|nia|rewrite u32_small; nia].
Qed.

Lemma refs_in_block r lo hi :
  0 <= lo <= RunRefs r -> sizeof_ref <= RunRefSize r -> RunRefs r mod RunRefSize r = 0 ->
  RunRefs r + RunRefSize r * Number r <= hi -> hi <= 2 ^ 32 -> refs_in r lo hi (RunRefSize r).
Proof.
  intros Hlo Hs Hal Hhi H32 p Hp. unfold sizeof_ref in *.
  rewrite (run_ref_address r p) by lia. split_and!; [nia|nia| |].
  - rewrite Z.mul_comm, Z.mod_add by lia. done.
  - intros q Hq Hne. rewrite (run_ref_address r q) by lia. nia.
Qed.

(** ** The wait *)

Section Wait.
Context (W : Z) (HW : 0 < W < 2 ^ 32 - 1) (HWeven : Z.odd W = false).

(** The references a thread is about to give back. *)
Definition owed (p : pc) : Z :=
  match p with
  | FastRelease | FastReleaseCas _ => 1
  | Release a | ReleaseLoop a _ => refs_of a
  | _ => 0
  end.

(** What holds of a thread in a call that began while the counts were in use ([act] false), or
    while each was the pointer to the wait block. *)
Definition place_ok (act : bool) (t : cthread) : Prop :=
  owed (cplace t) <= cheld t /\
  match cplace t with
  | FastAcquireCas v | FastReleaseCas v => Z.odd v = false
  | Acquire a | Release a => 1 <= refs_of a
  | AcquireLoop a v | ReleaseLoop a v => 1 <= refs_of a /\ (if act then v = W + 1 else Z.odd v = false)
  | SetEvent _ => False
  | _ => True
  end.

Definition all_idle (s : csystem) : Prop := Forall (fun t => cplace t = Idle) (cthreads s).

Definition references (s : csystem) : Z := sum_over cheld (cthreads s).

Definition count_ok (c : Z) : Prop := 0 <= c < 2 ^ 32 /\ Z.odd c = false.

Lemma u32_even x : Z.odd x = false -> count_ok (u32 x).
Proof.
  intros Hx. split; [apply u32_range|]. unfold u32. rewrite <- Hx, <- !Z.bit0_odd.
  by rewrite Z.mod_pow2_bits_low by lia.
Qed.

Lemma odd_shift c d : Z.odd c = false -> Z.odd (c + 2 * d) = false.
Proof. intros Hc. by rewrite Z.odd_add, Hc, odd_double. Qed.

Lemma increment_double a : exists k, increment a = 2 * refs_of a + k * 2 ^ 32.
Proof.
  destruct a as [|n]; simpl; [by exists 0|]. unfold u32, EX_RUNDOWN_COUNT_INC.
  exists (- (2 * n / 2 ^ 32)). pose proof (Z.div_mod (2 * n) (2 ^ 32)). lia.
Qed.

(** A count that changes by twice the references gained. *)
Definition counts_with (c c' d : Z) : Prop := exists k, c' = c + 2 * d + k * 2 ^ 32.

Lemma counts_with_u32 c d x : (exists k, x = c + 2 * d + k * 2 ^ 32) -> counts_with c (u32 x) d.
Proof.
  intros [k ->]. unfold u32. set (y := c + 2 * d + k * 2 ^ 32).
  exists (k - y / 2 ^ 32). pose proof (Z.div_mod y (2 ^ 32)). subst y. lia.
Qed.

Ltac use_done Hc :=
  split_and!; try done; split; simpl; try done; try lia; (split; [done|apply Hc]).

(** A step of a thread while the object is in use. *)
Lemma use_step c b t :
  count_ok c -> place_ok false t ->
  exists c' p' d, thread_step W true c b (cplace t) = Some (c', b, p', d) /\
    count_ok c' /\ place_ok false (CThread p' (cheld t + d) (cpu t)) /\ counts_with c c' d.
Proof.
  intros Hc [Ho Hp]. destruct t as [p h u]. cbn [cplace cheld cpu] in *.
  assert (Hsame : counts_with c c 0) by (exists 0; lia).
  assert (Hmask : Z.odd (Z.land c (not32 EX_RUNDOWN_ACTIVE)) = false)
    by (destruct Hc; rewrite mask_active by lia; apply odd_double).
  assert (Hnew : forall d x, (exists k, x = c + 2 * d + k * 2 ^ 32) ->
            count_ok (u32 x) /\ counts_with c (u32 x) d).
  { intros d x Hx. split; [|by apply counts_with_u32]. destruct Hx as [k ->]. apply u32_even.
    replace (c + 2 * d + k * 2 ^ 32) with (c + 2 * (d + k * 2 ^ 31)) by lia. apply odd_shift, Hc. }
  destruct p as [| |v|a|a v| |v|a|a v|q]; cbn [thread_step owed] in *;
    try (eexists _, _, 0; split; [reflexivity|]; rewrite Z.add_0_r; solve [use_done Hc]).
  - unfold fast_acquire, ExpChangeRundown. destruct (Z.eqb_spec c v) as [->|Hne]; cbn [negb].
    + destruct (Hnew 1 (v + EX_RUNDOWN_COUNT_INC)) as [H1 H2]; [by exists 0; unfold EX_RUNDOWN_COUNT_INC; lia|].
      eexists _, _, 1. split; [reflexivity|]. use_done Hc.
    + eexists _, _, 0. split; [reflexivity|]. rewrite Z.add_0_r. use_done Hc.
  - destruct Hp as [Ha Hv]. unfold acquire_loop, ExpChangeRundown. rewrite active_bit, Hv.
    destruct (Z.eqb_spec c v) as [->|Hne].
    + destruct (increment_double a) as [k Hk].
      destruct (Hnew (refs_of a) (v + increment a)) as [H1 H2]; [exists k; lia|].
      eexists _, _, (refs_of a). split; [reflexivity|]. use_done Hc.
    + eexists _, _, 0. split; [reflexivity|]. rewrite Z.add_0_r. use_done Hc.
  - unfold fast_release, ExpChangeRundown. destruct (Z.eqb_spec c v) as [->|Hne]; cbn [negb].
    + rewrite orb_true_r. cbn [assert mbind option_bind].
      destruct (Hnew (-1) (v - EX_RUNDOWN_COUNT_INC)) as [H1 H2]; [by exists 0; unfold EX_RUNDOWN_COUNT_INC; lia|].
      eexists _, _, (-1). split; [reflexivity|]. use_done Hc.
    + eexists _, _, 0. split; [reflexivity|]. rewrite Z.add_0_r. use_done Hc.
  - destruct Hp as [Ha Hv]. unfold release_loop, ExpChangeRundown. rewrite active_bit, Hv. cbn [negb].
    rewrite orb_true_r. cbn [assert mbind option_bind]. destruct (Z.eqb_spec c v) as [->|Hne].
    + destruct (increment_double a) as [k Hk].
      destruct (Hnew (- refs_of a) (v - increment a)) as [H1 H2]; [exists (- k); lia|].
      eexists _, _, (- refs_of a). split; [reflexivity|]. use_done Hc.
    + eexists _, _, 0. split; [reflexivity|]. rewrite Z.add_0_r. use_done Hc.
  - destruct Hp.
Qed.

Lemma owed_nonneg act t : place_ok act t -> 0 <= owed (cplace t) <= cheld t.
Proof. intros [Ho Hp]. split; [|done]. destruct (cplace t); simpl in *; lia. Qed.

Lemma place_entered act t c p :
  callowed t c = true -> 0 <= cheld t -> place_ok act (CThread (enter c) (cheld t) p).
Proof.
  intros Hc Hh. destruct c as [|a| |a]; unfold place_ok; simpl in *;
    rewrite ?andb_true_iff, ?Z.leb_le in Hc; lia.
Qed.

(** The steps of the threads, one by one: a thread that is idle enters a function, or one that
    is not makes a step on the count of its processor. *)
Definition thread_label (l : clabel) : Prop :=
  match l with CCall _ _ _ | CRun _ => True | _ => False end.

Lemma thread_exec s l s' :
  cexec W s l = Next s' -> thread_label l ->
  exists i t t', cthreads s !! i = Some t /\ cthreads s' = <[i := t']> (cthreads s) /\ cowner s' = cowner s /\
    (counts s' = counts s /\ cblock s' = cblock s /\ cplace t = Idle /\
       (exists c, callowed t c = true /\ t' = CThread (enter c) (cheld t) (cpu t')) \/
     exists c c' p' d, counts s !! cpu t = Some c /\ counts s' = <[cpu t := c']> (counts s) /\
       thread_step W true c (cblock s) (cplace t) = Some (c', cblock s', p', d) /\
       t' = CThread p' (cheld t + d) (cpu t)).
Proof.
  intros H Hl. destruct l as [i p c|i| |]; try done; simpl in H;
    destruct (cthreads s !! i) as [[q h u]|] eqn:Et; try done.
  - destruct q; try done. destruct (callowed _ c) eqn:Ec; [|done]. destruct (p <? _)%nat; [|done].
    injection H as <-. exists i, (CThread Idle h u), (CThread (enter c) h p). split_and!; [done..|].
    left. split_and!; [done..|]. by exists c.
  - destruct (counts s !! u) as [c|] eqn:Ec; [|by destruct q].
    exists i, (CThread q h u). destruct q; try done;
    (destruct (thread_step _ _ _ _ _) as [[[[c' b'] p'] d]|] eqn:Es; [|done]; injection H as <-;
     eexists; split_and!; [done..|]; right; eexists _, _, _, _; split_and!; done).
Qed.

(** The owner does not come back to a place before. *)
Definition owner_rank (o : copc) : nat :=
  match o with COut => 0 | CRead _ _ | CChange _ _ _ => 1 | CAdd _ => 2 | CWaiting => 3 | CReturned => 4 end.

Lemma owner_moves s s' : cowner_step W s = Next s' -> (1 <= owner_rank (cowner s) <= owner_rank (cowner s'))%nat /\
  (owner_rank (cowner s) = owner_rank (cowner s') -> owner_rank (cowner s) = 1%nat).
Proof.
  unfold cowner_step, next_processor, assert. intros H.
  repeat (case_match; simplify_eq/=; try lia).
Qed.

Lemma rank_exec s l s' :
  cexec W s l = Next s' ->
  (owner_rank (cowner s) <= owner_rank (cowner s'))%nat /\
  (owner_rank (cowner s) = owner_rank (cowner s') -> owner_rank (cowner s) <> 1%nat ->
   thread_label l /\ cowner s = cowner s').
Proof.
  intros H. destruct l as [i p c|i| |].
  1-2: destruct (thread_exec _ _ _ H I) as (_ & _ & _ & _ & _ & -> & _); by split.
  - simpl in H. revert H. repeat case_match; intros; simplify_eq/=; lia.
  - apply owner_moves in H as [H1 H2]. split; [lia|]. intros E Hn. by rewrite (H2 E) in Hn.
Qed.

Lemma rank_run ls s s' : crun W ls s = Next s' -> (owner_rank (cowner s) <= owner_rank (cowner s'))%nat.
Proof.
  revert s. induction ls as [|l ls IH]; intros s H; simpl in H; [by injection H as <-|].
  destruct (cexec W s l) as [s1| |] eqn:E; try done. apply rank_exec in E as [E _]. specialize (IH _ H). lia.
Qed.

(** A run that leaves the owner where it was has only steps of the threads. *)
Lemma run_keeps (P : csystem -> Prop) ls s s' :
  (forall s l s', cexec W s l = Next s' -> thread_label l -> P s -> P s') ->
  crun W ls s = Next s' -> owner_rank (cowner s) = owner_rank (cowner s') -> owner_rank (cowner s) <> 1%nat ->
  P s -> P s' /\ cowner s' = cowner s.
Proof.
  intros HP. revert s. induction ls as [|l ls IH]; intros s H Ho Hn Hs; simpl in H; [by injection H as <-|].
  destruct (cexec W s l) as [s1| |] eqn:E; try done.
  pose proof (rank_exec _ _ _ E) as [H1 H2]. pose proof (rank_run _ _ _ H) as H3.
  destruct (H2 ltac:(lia) Hn) as [Hl Heq]. destruct (IH s1 H) as [HP' Ho']; [lia|lia|by eapply HP|].
  split; [done|congruence].
Qed.

(** The counts while the object is in use add up to the references. *)
Definition in_use (s : csystem) : Prop :=
  Forall count_ok (counts s) /\ Forall (place_ok false) (cthreads s) /\
  counts_with 0 (sum_over id (counts s)) (references s).

Lemma in_use_step s l s' : cexec W s l = Next s' -> thread_label l -> in_use s -> in_use s'.
Proof.
  intros H Hl (Hc & Ht & k & Hsum). unfold in_use, references in *.
  destruct (thread_exec _ _ _ H Hl) as (i & t & t' & Hi & -> & _ & Hcase).
  pose proof (Forall_lookup_1 _ _ _ _ Ht Hi) as Hti. pose proof (owed_nonneg _ _ Hti).
  rewrite (sum_over_insert _ _ _ _ _ Hi).
  destruct Hcase as [(-> & _ & Hidle & c & Hcall & ->)|(c & c' & p' & d & Hcp & -> & Hst & ->)].
  - split_and!; [done|apply Forall_insert; [done|by apply place_entered; [|lia]]|].
    exists k. cbn [cheld]. lia.
  - destruct (use_step c (cblock s) t) as (c1 & p1 & d1 & Hst' & Hc1 & Hp1 & k1 & Hk1);
      [by eapply Forall_lookup_1|done|]. rewrite Hst in Hst'. injection Hst' as -> _ -> ->.
    split_and!; [by apply Forall_insert|by apply Forall_insert|].
    rewrite (sum_over_insert _ _ _ _ _ Hcp). exists (k + k1). unfold id in *. cbn [cheld]. lia.
Qed.

Lemma sum_over_replicate {A} (f : A -> Z) k x : f x = 0 -> sum_over f (replicate k x) = 0.
Proof. intros Hf. induction k as [|k IH]; [done|]. unfold sum_over in *. simpl. lia. Qed.

Lemma in_use_initial procs n : in_use (cinitial procs n).
Proof.
  split_and!; simpl.
  - apply Forall_replicate. split; [lia|done].
  - apply Forall_replicate. split; simpl; [lia|done].
  - exists 0. unfold references. simpl. by rewrite !sum_over_replicate.
Qed.

(** The loop over the processors, when nobody else moves. *)
Lemma loop_run cs k ts tot :
  cs <> [] -> Forall count_ok cs -> 0 < s32 (u32 (tot + sum_over id cs)) ->
  crun W (replicate (2 * length cs) COwnerRun)
    (CSystem (replicate k (W + 1) ++ cs) (Some (Block 0 None)) ts (CRead k tot)) =
  Next (CSystem (replicate (k + length cs) (W + 1)) (Some (Block 0 None)) ts (CAdd (u32 (tot + sum_over id cs)))).
Proof.
  revert k tot. induction cs as [|c cs IH]; [done|]. intros k tot _ Hall Hpos.
  apply Forall_cons_1 in Hall as [[Hc Hodd] Hcs].
  replace (2 * length (c :: cs))%nat with (S (S (2 * length cs))) by (simpl; lia).
  assert (Hk : (replicate k (W + 1) ++ c :: cs) !! k = Some c).
  { rewrite lookup_app_r by (rewrite length_replicate; lia). by rewrite length_replicate, Nat.sub_diag. }
  cbn [replicate crun cexec]. unfold cowner_step at 1. cbn [cowner counts]. rewrite Hk, active_bit, Hodd.
  unfold cowner_step at 1. cbn [cowner counts cblock cthreads]. rewrite Hk. unfold ExpChangeRundown.
  rewrite !Z.eqb_refl, (pointer_W W HW HWeven).
  rewrite insert_app_r_alt, length_replicate, Nat.sub_diag by (rewrite length_replicate; lia). cbn [insert list_insert].
  replace (replicate k (W + 1) ++ (W + 1) :: cs) with (replicate (S k) (W + 1) ++ cs)
    by (by rewrite replicate_S_end, <- app_assoc).
  assert (Hsum : u32 (u32 (tot + c) + sum_over id cs) = u32 (tot + sum_over id (c :: cs))).
  { unfold u32. rewrite Zplus_mod_idemp_l. f_equal. unfold sum_over, id. simpl. lia. }
  unfold next_processor. rewrite length_app. cbn [length].
  destruct cs as [|c2 cs].
  - rewrite (proj2 (Nat.ltb_ge _ _)) by (rewrite length_replicate; simpl; lia).
    assert (E : u32 (tot + c) = u32 (tot + sum_over id [c])) by (by unfold sum_over, id; simpl; rewrite Z.add_0_r).
    rewrite E. rewrite (proj2 (Z.leb_le _ _)) by lia. cbn [assert mbind option_bind].
    rewrite (proj2 (Z.eqb_neq _ 0)) by (intros E0; rewrite E0 in Hpos; done). cbn [negb leave]. 
    by rewrite app_nil_r, Nat.add_1_r.
  - rewrite (proj2 (Nat.ltb_lt _ _)) by (rewrite length_replicate; simpl; lia). cbn [leave].
    rewrite (IH (S k)) by (done || (rewrite Hsum; done)). rewrite Hsum.
    by replace (S k + length (c2 :: cs))%nat with (k + S (length (c2 :: cs)))%nat by lia.
Qed.

Lemma s32_neg r : 0 <= r < 2 ^ 31 -> s32 (u32 (- r)) = - r.
Proof.
  intros Hr. unfold s32, u32. rewrite Zplus_mod_idemp_l, Z.mod_small by lia. lia.
Qed.

Ltac exists_same :=
  eexists _, 0; rewrite Z.sub_0_r, Z.add_0_r; (split; [reflexivity|]); (split; [lia|]).

(** A step of a thread when each count is the pointer to the wait block, to which nothing was
    added yet and [r] references were released. *)
Lemma down_step r e t :
  place_ok true t -> 0 <= r -> r + cheld t < 2 ^ 30 ->
  exists p' d, thread_step W true (W + 1) (Some (Block (u32 (- r)) e)) (cplace t) =
      Some (W + 1, Some (Block (u32 (- (r - d))) e), p', d) /\
    d <= 0 /\ place_ok true (CThread p' (cheld t + d) (cpu t)).
Proof.
  intros [Ho Hp] Hr Hh. destruct t as [p h u]. cbn [cplace cheld cpu] in *.
  assert (Hv : forall v, Z.odd v = false -> (W + 1 =? v) = false).
  { intros v Hv. apply Z.eqb_neq. intros <-. by rewrite (odd_pointer W HWeven) in Hv. }
  assert (Hmask : Z.odd (Z.land (W + 1) (not32 EX_RUNDOWN_ACTIVE)) = false)
    by (by rewrite (mask_pointer W HW HWeven)).
  destruct p as [| |v|a|a v| |v|a|a v|q]; cbn [thread_step owed] in *;
    try (exists_same; solve [split; simpl; try done; lia]).
  - unfold fast_acquire, ExpChangeRundown. rewrite Hv by done. exists_same. split; simpl; [lia|done].
  - destruct Hp as [Ha ->]. unfold acquire_loop. rewrite active_bit, (odd_pointer W HWeven).
    exists_same. split; simpl; [lia|done].
  - unfold fast_release, ExpChangeRundown. rewrite Hv by done. exists_same. split; simpl; [lia|done].
  - destruct Hp as [Ha ->]. unfold release_loop, block_at.
    rewrite active_bit, (odd_pointer W HWeven), (mask_pointer W HW HWeven), Z.eqb_refl.
    cbn [negb mbind option_bind bCount WakeEvent]. rewrite orb_true_r. cbn [assert mbind option_bind].
    assert (remove_count a (u32 (- r)) = (u32 (- (r + refs_of a)), false)) as ->.
    { destruct a as [|n]; simpl in *; unfold u32; rewrite Zminus_mod_idemp_l.
      - replace (- r - 1) with (- (r + 1)) by lia. f_equal. apply Z.eqb_neq.
        rewrite <- (Z.mod_unique (- (r + 1)) (2 ^ 32) (-1) (2 ^ 32 - (r + 1))) by lia. lia.
      - replace (- r - n) with (- (r + n)) by lia. f_equal. apply Z.eqb_neq.
        change (- r mod 2 ^ 32) with (u32 (- r)). rewrite s32_neg, s32_small by lia. lia. }
    exists Idle, (- refs_of a). replace (r - - refs_of a) with (r + refs_of a) by lia.
    split; [done|]. split; [lia|]. split; simpl; [lia|done].
  - destruct Hp.
Qed.

(** The object is being run down: [H] references were found, those that are not held any more
    were taken off the block's count. *)
Definition going_down (H : Z) (e : option bool) (s : csystem) : Prop :=
  Forall (eq (W + 1)) (counts s) /\ Forall (place_ok true) (cthreads s) /\
  references s <= H < 2 ^ 30 /\ cblock s = Some (Block (u32 (- (H - references s))) e).

Lemma going_down_step H e s l s' :
  cexec W s l = Next s' -> thread_label l -> going_down H e s -> going_down H e s'.
Proof.
  intros E Hl (Hc & Ht & HH & Hb). unfold going_down, references in *.
  destruct (thread_exec _ _ _ E Hl) as (i & t & t' & Hi & -> & _ & Hcase).
  pose proof (Forall_lookup_1 _ _ _ _ Ht Hi) as Hti. pose proof (owed_nonneg _ _ Hti) as Hh.
  assert (cheld t <= sum_over cheld (cthreads s)) as Hle.
  { apply (sum_over_lookup_le cheld _ i); [|done]. intros x Hx%list_elem_of_In.
    rewrite Forall_forall in Ht. pose proof (owed_nonneg _ _ (Ht x Hx)). lia. }
  rewrite (sum_over_insert _ _ _ _ _ Hi).
  destruct Hcase as [(-> & -> & Hidle & c & Hcall & ->)|(c & c' & p' & d & Hcp & -> & Hst & ->)].
  - cbn [cheld]. split_and!; [done|apply Forall_insert; [done|by apply place_entered; [|lia]]|lia|lia|].
    rewrite Hb. do 4 f_equal. lia.
  - assert (c = W + 1) as -> by (symmetry; by apply (Forall_lookup_1 _ _ _ _ Hc Hcp)).
    destruct (down_step (H - sum_over cheld (cthreads s)) e t) as (p1 & d1 & Hst' & Hd & Hp1); [done|lia|lia|].
    rewrite Hb, Hst' in Hst. injection Hst as <- Hb' <- <-. cbn [cheld].
    split_and!; [by apply Forall_insert|by apply Forall_insert|lia|lia|].
    rewrite <- Hb'. do 4 f_equal. lia.
Qed.

(** A release when the wait block is gone. *)
Lemma late_release s i h u p :
  Forall (eq (W + 1)) (counts s) -> cblock s = None -> cthreads s !! i = Some (CThread Idle h u) ->
  1 <= h -> (p < length (counts s))%nat ->
  crun W (CCall i p CallFastRelease :: replicate 4 (CRun i)) s = Fault.
Proof.
  intros Hc Hb Hi Hh Hp. assert (counts s !! p = Some (W + 1)) as Hcp.
  { destruct (lookup_lt_is_Some_2 _ _ Hp) as [c Ec]. rewrite Ec. f_equal. symmetry.
    by apply (Forall_lookup_1 _ _ _ _ Hc Ec). }
  pose proof (lookup_lt_Some _ _ _ Hi) as Hlen.
  cbn [replicate crun cexec]. rewrite Hi. cbn [callowed cheld].
  rewrite (proj2 (Z.leb_le 1 h)), (proj2 (Nat.ltb_lt _ _)) by done. cbn [andb].
  do 4 (cbn [crun cexec cthreads counts cblock enter];
    rewrite list_lookup_insert_eq by (rewrite ?length_insert; done);
    rewrite ?list_insert_insert_eq, ?(list_insert_id _ _ _ Hcp), ?Hcp; cbn [thread_step];
    unfold fast_release, release_loop, ExpChangeRundown, block_at;
    rewrite ?(mask_pointer W HW HWeven), ?active_bit, ?(odd_pointer W HWeven), ?Hb,
      ?(proj2 (Z.eqb_neq (W + 1) W)), ?Z.eqb_refl by lia; cbn [negb]).
  done.
Qed.
Definition in_use_of (procs : nat) (s : csystem) : Prop := length (counts s) = procs /\ in_use s.

Lemma in_use_of_step procs s l s' :
  cexec W s l = Next s' -> thread_label l -> in_use_of procs s -> in_use_of procs s'.
Proof.
  intros E Hl [Hlen Hu]. split; [|by eapply in_use_step].
  destruct (thread_exec _ _ _ E Hl) as (? & ? & ? & _ & _ & _ & [(-> & _)|(? & ? & ? & ? & _ & -> & _)]);
    [done|by rewrite length_insert].
Qed.

(** The state behind the loop over the processors. *)
Definition loop_end (procs : nat) (s : csystem) : csystem :=
  CSystem (replicate procs (W + 1)) (Some (Block 0 None)) (cthreads s) (CAdd (2 * references s)).

Lemma wait_loop procs s :
  length (counts s) = procs -> (0 < procs)%nat -> in_use s -> cowner s = COut -> all_idle s ->
  0 < references s < 2 ^ 30 ->
  crun W (COwnerCall :: replicate (2 * procs) COwnerRun) s = Next (loop_end procs s).
Proof.
  intros Hlen Hp (Hc & _ & k & Hsum) Ho _ Hr. cbn [crun cexec]. rewrite Ho, Hlen.
  rewrite (proj2 (Nat.eqb_neq procs 0)) by lia.
  assert (Hu : u32 (0 + sum_over id (counts s)) = 2 * references s).
  { rewrite Hsum. unfold u32. rewrite !Z.add_0_l, Z.mod_add by lia. apply Z.mod_small. lia. }
  pose proof (loop_run (counts s) 0 (cthreads s) 0) as Hloop. rewrite Hu, Hlen in Hloop.
  apply Hloop; [by destruct (counts s); simpl in *; [lia|]|done|]. rewrite s32_small; lia.
Qed.

Lemma loop_going_down procs s :
  in_use s -> all_idle s -> references s < 2 ^ 30 -> going_down (references s) None (loop_end procs s).
Proof.
  intros (_ & Ht & _) Hidle Hr. unfold loop_end. split_and!; cbn [counts cthreads cblock].
  - by apply Forall_replicate.
  - unfold all_idle in Hidle. rewrite Forall_forall in Ht, Hidle |- *. intros t Hin.
    specialize (Ht t Hin). pose proof (owed_nonneg _ _ Ht). split; rewrite (Hidle t Hin); simpl; [lia|done].
  - unfold references. simpl. lia.
  - done.
  - unfold references. cbn [cthreads]. by rewrite Z.sub_diag.
Qed.

Lemma add_returns procs s :
  0 < references s < 2 ^ 30 ->
  cexec W (loop_end procs s) COwnerRun =
  Next (CSystem (replicate procs (W + 1)) None (cthreads s) CReturned).
Proof.
  intros Hr. unfold loop_end. cbn [cexec]. unfold cowner_step. cbn [cowner cblock counts cthreads bCount].
  unfold EX_RUNDOWN_COUNT_SHIFT. rewrite Z.shiftr_div_pow2 by lia. change (2 ^ 1) with 2.
  rewrite (Z.mul_comm 2), Z.div_mul by lia. rewrite (s32_small (references s)) by lia.
  change (s32 0) with 0. by rewrite (proj2 (Z.eqb_neq 0 (- references s))) by lia.
Qed.

Lemma add_waits H s :
  going_down H None s -> cowner s = CAdd (2 * H) -> references s = 0 -> 0 < H < 2 ^ 30 ->
  exists s', cexec W s COwnerRun = Next s' /\ cowner s' = CWaiting /\ going_down 0 (Some false) s'.
Proof.
  intros (Hc & Ht & _ & Hb) Ho Hr HH. cbn [cexec]. unfold cowner_step. rewrite Ho, Hb, Hr.
  cbn [bCount]. unfold EX_RUNDOWN_COUNT_SHIFT. rewrite !Z.shiftr_div_pow2 by lia. change (2 ^ 1) with 2.
  rewrite (s32_small (2 * H)) by lia. rewrite (Z.mul_comm 2), Z.div_mul by lia.
  rewrite Z.sub_0_r, s32_neg, s32_small, Z.eqb_refl by lia. eexists. split; [reflexivity|]. split; [done|].
  split_and!; cbn [counts cthreads cblock leave]; try done.
  - unfold references in *. simpl. lia.
  - unfold references in *. cbn [cthreads]. rewrite Hr. do 2 f_equal. unfold u32.
    rewrite Zplus_mod_idemp_l. by rewrite Z.add_opp_diag_l.
Qed.

Lemma waits_forever ls s s' :
  crun W ls s = Next s' -> going_down 0 (Some false) s -> cowner s = CWaiting -> cowner s' = CWaiting.
Proof.
  revert s. induction ls as [|l ls IH]; intros s H Hd Ho; simpl in H; [by injection H as <-|].
  destruct (cexec W s l) as [s1| |] eqn:E; try done.
  assert (thread_label l) as Hl.
  { destruct l; try done; simpl in E; [by rewrite Ho in E|].
    unfold cowner_step in E. destruct Hd as (_ & _ & _ & Hb). by rewrite Ho, Hb in E. }
  apply (IH s1 H); [by eapply going_down_step|].
  by destruct (thread_exec _ _ _ E Hl) as (_ & _ & _ & _ & _ & -> & _).
Qed.
End Wait.

(** * Theorems *)

(** The call of the owner and its loop over the processors. *)
Definition owner_loop (procs : nat) : list clabel := COwnerCall :: replicate (2 * procs) COwnerRun.

(** C35.  The cache aware wait tests the wrong way round.  Let any threads on any number of
    processors have taken and released references, so that some are held when the owner waits
    and finds them all.  The wait then returns at once, with the references held, and whichever
    thread releases one, on whichever processor, follows the pointer to a wait block that is
    gone.  But if all the references are released before the owner adds their number to the
    block's count, it waits, and no steps of the threads ever wake it. *)
Theorem cache_aware_wait_inverted W procs n ls s :
  0 < W < 2 ^ 32 - 1 -> Z.odd W = false -> (0 < procs)%nat ->
  crun W ls (cinitial procs n) = Next s -> cowner s = COut -> all_idle s -> 0 < references s < 2 ^ 30 ->
  exists s1, crun W (owner_loop procs) s = Next s1 /\ cthreads s1 = cthreads s /\
  (exists s2, cexec W s1 COwnerRun = Next s2 /\ cowner s2 = CReturned /\ cthreads s2 = cthreads s /\
     forall i h u p, cthreads s !! i = Some (CThread Idle h u) -> 1 <= h -> (p < procs)%nat ->
       crun W (CCall i p CallFastRelease :: replicate 4 (CRun i)) s2 = Fault) /\
  (forall ls' s2, crun W ls' s1 = Next s2 -> cowner s2 = cowner s1 -> all_idle s2 -> references s2 = 0 ->
     exists s3, cexec W s2 COwnerRun = Next s3 /\ cowner s3 = CWaiting /\
       forall ls'' s4, crun W ls'' s3 = Next s4 -> cowner s4 = CWaiting).
Proof.
  intros HW Heven Hprocs Hrun Hout Hidle HH.
  destruct (run_keeps W (in_use_of W procs) ls (cinitial procs n) s) as [[Hlen Hu] _];
    [by apply in_use_of_step|done|by rewrite Hout|done|split; [apply length_replicate|apply in_use_initial]|].
  pose proof (wait_loop W HW Heven procs s Hlen Hprocs Hu Hout Hidle HH) as Hloop.
  eexists. split; [exact Hloop|]. split; [done|]. split.
  - eexists. split; [by apply add_returns|]. split; [done|]. split; [done|]. intros i h u p Hi Hh Hp.
    by apply (late_release W HW Heven _ i h u p); cbn [counts]; [apply Forall_replicate| | | |rewrite length_replicate].
  - intros ls' s2 Hrun2 Ho2 Hidle2 Hr2.
    destruct (run_keeps W (going_down W (references s) None) ls' _ s2 (going_down_step W HW Heven _ _) Hrun2)
      as [Hd _]; [by rewrite Ho2|done|apply loop_going_down; [done..|lia]|].
    destruct (add_waits W (references s) s2 Hd Ho2 Hr2 HH) as (s3 & E3 & Ho3 & Hd3).
    exists s3. split; [done|]. split; [done|]. intros ls'' s4 Hrun4.
    exact (waits_forever W HW Heven ls'' s3 s4 Hrun4 Hd3 Ho3).
Qed.

(** One reference, taken on the first of two processors. *)
Lemma cache_aware_wait_inverted_witness :
  exists s1 s2, crun 0x1000 (owner_loop 2)
      (CSystem [2; 0] None [CThread Idle 1 0] COut) = Next s1 /\
    cexec 0x1000 s1 COwnerRun = Next s2 /\ cowner s2 = CReturned /\ cthreads s2 = [CThread Idle 1 0].
Proof.
  destruct (cache_aware_wait_inverted 0x1000 2 1 [CCall 0 0 CallFastAcquire; CRun 0; CRun 0]
    (CSystem [2; 0] None [CThread Idle 1 0] COut) ltac:(lia) ltac:(done) ltac:(lia) ltac:(reflexivity)
    ltac:(done) ltac:(by repeat constructor) ltac:(by vm_compute))
    as (s1 & H1 & _ & (s2 & H2 & H3 & H4 & _) & _).
  exists s1, s2. split; [exact H1|]. split; [exact H2|]. split; [exact H3|exact H4].
Defined.

(** The caller's block is large enough: a structure initialised in a block of the size
    [ExSizeOfRundownProtectionCacheAware] asks for has a reference for every processor, each
    inside the block behind the structure, aligned, and on a line of its own; on one processor
    the single reference follows the structure. *)
Theorem cache_aware_layout base procs k
  (Hbase : 0 <= base) (Hbal : base mod sizeof_ref = 0) (Hprocs : 1 <= procs) (Hk : 2 <= k < 32)
  (Hfit : base + sizeof_cache_aware + (procs + 1) * 2 ^ k < 2 ^ 32) :
  let align := 2 ^ k in
  let Size := ExSizeOfRundownProtectionCacheAware procs align in
  let r := fst (ExInitializeRundownProtectionCacheAware base Size align) in
  Number r = procs /\
  refs_in r (base + sizeof_cache_aware) (base + Size) (if procs <=? 1 then sizeof_ref else align).
Proof.
  intros align Size r. assert (H4 : 2 ^ 2 <= align) by (apply Z.pow_le_mono_r; lia). change (2 ^ 2) with 4 in H4.
  unfold r, Size, ExInitializeRundownProtectionCacheAware, ExSizeOfRundownProtectionCacheAware.
  fold align in Hfit. unfold sizeof_cache_aware, sizeof_ref in *.
  destruct (Z.leb_spec procs 1) as [H1|H1].
  - assert (procs = 1) as -> by lia. rewrite (u32_small (4 + 16)) by lia. simpl fst.
    rewrite (u32_small (base + 16)) by lia. split; [done|]. apply refs_in_block; simpl; unfold sizeof_ref; try lia.
    rewrite Zplus_mod, Hbal. done.
  - assert (Hsz : 12 <= (procs + 1) * align < 2 ^ 32) by nia.
    rewrite (u32_small ((procs + 1) * align)), (u32_small (_ + 16)) by lia.
    rewrite (proj2 (Z.eqb_neq _ (16 + 4))) by lia. simpl fst. rewrite (u32_small (base + 16)) by nia.
    replace ((procs + 1) * align + 16 - 16) with ((procs + 1) * align) by lia.
    rewrite (u32_small ((procs + 1) * align)), Z.div_mul by nia. replace (procs + 1 - 1) with procs by lia.
    rewrite u32_small by nia. split; [done|].
    destruct (round_up_pow2 (base + 16) k) as [Hm Hr]; [lia|lia|fold align; nia|]. fold align in Hm, Hr.
    apply refs_in_block; simpl; unfold sizeof_ref, ALIGN_UP_BY in *; try done; nia.
Qed.

Lemma cache_aware_layout_witness :
  Number (fst (ExInitializeRundownProtectionCacheAware 0x1008 (ExSizeOfRundownProtectionCacheAware 4 64) 64)) = 4.
Proof. exact (proj1 (cache_aware_layout 0x1008 4 6 ltac:(lia) ltac:(done) ltac:(lia) ltac:(lia) ltac:(vm_compute; done))). Defined.

(** C39.  Allocation: whichever of the pool requests fail, a failed allocation leaves no pool
    block behind; a successful one leaves the structure and the block of the references, which
    has one for every processor inside it, aligned and on lines of their own, after a second
    request where the first block was not aligned; and freeing the structure frees both. *)
Theorem cache_aware_allocate procs k r0 r1 r2
  (Hprocs : 1 <= procs) (Hk : 2 <= k < 32) (Hsz : (procs + 1) * 2 ^ k < 2 ^ 32)
  (Hpool : forall a, r1 = Some a \/ r2 = Some a -> 0 <= a /\ a mod sizeof_ref = 0)
  (Hend1 : forall a, r1 = Some a -> a + procs * 2 ^ k <= 2 ^ 32)
  (Hend2 : forall a, r2 = Some a -> a + (procs + 1) * 2 ^ k <= 2 ^ 32)
  (Hnew : forall a, r0 = Some a -> r1 <> Some a /\ r2 <> Some a) :
  let '(res, live) := ExAllocateCacheAwareRundownProtection procs (2 ^ k) r0 r1 r2 in
  match res with
  | None => live = []
  | Some (r, _) =>
      exists a0 size, r0 = Some a0 /\ Number r = procs /\
        live = [(PoolToFree r, size); (a0, sizeof_cache_aware)] /\
        refs_in r (PoolToFree r) (PoolToFree r + size) (RunRefSize r) /\
        ExFreeCacheAwareRundownProtection a0 r live = []
  end.
Proof.
  unfold ExAllocateCacheAwareRundownProtection. destruct r0 as [a0|]; [|done].
  destruct (Hnew a0 eq_refl) as [Hn1 Hn2].
  assert (Hfree : forall x n y m, filter (fun z : Z * Z => fst z <> y) (filter (fun z => fst z <> x) [(x, n); (y, m)]) = [] ).
  { intros x n y m. rewrite filter_cons_False by (simpl; tauto).
    destruct (decide (y = x)) as [->|Hne]; [by rewrite filter_cons_False by (simpl; tauto)|].
    rewrite filter_cons_True by done. by rewrite filter_cons_False by (simpl; tauto). }
  assert (H4 : 2 ^ 2 <= 2 ^ k) by (apply Z.pow_le_mono_r; lia). change (2 ^ 2) with 4 in H4.
  destruct r1 as [a1|]; [|by rewrite filter_cons_False by (simpl; tauto)].
  destruct (Hpool a1 ltac:(by left)) as [Ha1 Hm1]. specialize (Hend1 a1 eq_refl).
  destruct ((1 <? procs) && has a1 (2 ^ k - 1)) eqn:Eal.
  - apply andb_true_iff in Eal as [Hp%Z.ltb_lt _]. rewrite (proj2 (Z.leb_gt procs 1)) by lia.
    destruct r2 as [a2|]; [|apply Hfree]. destruct (Hpool a2 ltac:(by right)) as [Ha2 Hm2]. specialize (Hend2 a2 eq_refl).
    rewrite filter_cons_False by (simpl; tauto). rewrite filter_cons_True by (simpl; congruence). rewrite filter_nil.
    rewrite u32_small by nia. exists a0, (2 ^ k * (procs + 1)). simpl PoolToFree. split_and!; [done..| |apply Hfree].
    destruct (round_up_pow2 a2 k) as [Hm Hr]; [lia|lia|nia|].
    apply refs_in_block; simpl; unfold sizeof_ref, ALIGN_UP_BY; try done; nia.
  - exists a0, (u32 ((if procs <=? 1 then sizeof_ref else 2 ^ k) * procs)). simpl PoolToFree. simpl RunRefSize.
    split_and!; [done..| |apply Hfree]. unfold sizeof_ref in *. destruct (Z.leb_spec procs 1).
    + assert (procs = 1) as -> by lia. rewrite u32_small by lia. apply (refs_in_block (CacheAware a1 a1 4 1)); simpl; unfold sizeof_ref; lia.
    + rewrite (proj2 (Z.ltb_lt 1 procs)) in Eal by lia. simpl in Eal. unfold has in Eal.
      apply negb_false_iff, Z.eqb_eq in Eal.
      replace (2 ^ k - 1) with (Z.ones k) in Eal by (rewrite Z.ones_equiv; lia). rewrite Z.land_ones in Eal by lia.
      rewrite u32_small by nia.
      apply (refs_in_block (CacheAware a1 a1 (2 ^ k) procs)); simpl; unfold sizeof_ref; try done; nia.
Qed.

(** Two processors, the first block of references not aligned. *)
Lemma cache_aware_allocate_witness :
  exists a0 size, Some 0x2000 = Some a0 /\ 2 = 2 /\
    [(0x4008, 192); (0x2000, 16)] = [(0x4008, size); (a0, sizeof_cache_aware)].
Proof.
  assert (Hp : forall a, Some 0x3008 = Some a \/ Some 0x4008 = Some a -> 0 <= a /\ a mod sizeof_ref = 0)
    by (by intros a [[= <-]|[= <-]]).
  assert (H1 : forall a, Some 0x3008 = Some a -> a + 2 * 2 ^ 6 <= 2 ^ 32) by (by intros a [= <-]).
  assert (H2 : forall a, Some 0x4008 = Some a -> a + (2 + 1) * 2 ^ 6 <= 2 ^ 32) by (by intros a [= <-]).
  assert (H3 : forall a, Some 0x2000 = Some a -> Some 0x3008 <> Some a /\ Some 0x4008 <> Some a) by (by intros a [= <-]).
  destruct (cache_aware_allocate 2 6 (Some 0x2000) (Some 0x3008) (Some 0x4008) ltac:(lia) ltac:(lia)
    ltac:(vm_compute; done) Hp H1 H2 H3) as (a0 & size & E0 & En & El & _).
  exists a0, size. split; [exact E0|]. split; [done|]. exact El.
Defined.
