(* ===== verification/FsRtlName.v ===== *)
(** File names and expressions: ntoskrnl/fsrtl/name.c, with the character table of
    ntoskrnl/fsrtl/fsrtlpc.c.

    A [UNICODE_STRING] is the list of its characters; [Length], in bytes, is twice its
    length.  Positions in an expression are byte offsets, as in the code, and the two back
    tracking buffers are arrays with the size they have at the time. *)

From Stdlib Require Import Sorting.Sorted.
From S2P Require Import Prelude.

Definition STAR : Z := 0x2A.
Definition QM : Z := 0x3F.
Definition DOS_STAR : Z := 0x3C.
Definition DOS_QM : Z := 0x3E.
Definition DOS_DOT : Z := 0x22.
Definition DOT : Z := 0x2E.
Definition BACKSLASH : Z := 0x5C.

Definition FSRTL_WILD_CHARACTER : Z := 0x08.

(** Bits: 1 FAT, 2 HPFS, 4 NTFS, 8 wild, 0x10 OLE. *)
Definition LegalAnsiCharacterArray : list Z :=
  [0x00; 0x10; 0x10; 0x10; 0x10; 0x10; 0x10; 0x10; 0x10; 0x10; 0x10; 0x10; 0x10; 0x10; 0x10; 0x10;
   0x10; 0x10; 0x10; 0x10; 0x10; 0x10; 0x10; 0x10; 0x10; 0x10; 0x10; 0x10; 0x10; 0x10; 0x10; 0x10;
   0x17; 0x07; 0x18; 0x17; 0x17; 0x17; 0x17; 0x17; 0x17; 0x17; 0x18; 0x16; 0x16; 0x17; 0x07; 0x00;
   0x17; 0x17; 0x17; 0x17; 0x17; 0x17; 0x17; 0x17; 0x17; 0x17; 0x04; 0x16; 0x18; 0x16; 0x18; 0x18;
   0x17; 0x17; 0x17; 0x17; 0x17; 0x17; 0x17; 0x17; 0x17; 0x17; 0x17; 0x17; 0x17; 0x17; 0x17; 0x17;
   0x17; 0x17; 0x17; 0x17; 0x17; 0x17; 0x17; 0x17; 0x17; 0x17; 0x17; 0x16; 0x00; 0x16; 0x17; 0x17;
   0x17; 0x17; 0x17; 0x17; 0x17; 0x17; 0x17; 0x17; 0x17; 0x17; 0x17; 0x17; 0x17; 0x17; 0x17; 0x17;
   0x17; 0x17; 0x17; 0x17; 0x17; 0x17; 0x17; 0x17; 0x17; 0x17; 0x17; 0x17; 0x10; 0x17; 0x17; 0x17].

Definition FsRtlIsUnicodeCharacterWild (C : Z) : bool :=
  if 0x40 <=? C then false
  else match rd LegalAnsiCharacterArray C with Some f => has f FSRTL_WILD_CHARACTER | None => false end.

Definition Length (s : list Z) : Z := 2 * Z.of_nat (length s).

(** The scan goes backwards: [rev] of the name, up to a backslash. *)
Fixpoint wild_before_backslash (r : list Z) : bool :=
  match r with
  | [] => false
  | c :: r' =>
      if negb (c =? BACKSLASH) then
        if FsRtlIsUnicodeCharacterWild c then true else wild_before_backslash r'
      else false
  end.

Definition FsRtlDoesNameContainWildCards (Name : list Z) : bool := wild_before_backslash (rev Name).

(** [FirstPart] and [RemainingPart] as offset and length in characters of the name;
    [None] is the zeroed string. *)
Fixpoint first_backslash (s : list Z) (i : Z) (SkipFirstSlash : Z) : Z * Z :=
  match s with
  | [] => (i, SkipFirstSlash)
  | c :: s' =>
      if c =? BACKSLASH then
        if i =? 0 then first_backslash s' (i + 1) 1 else (i, SkipFirstSlash)
      else first_backslash s' (i + 1) SkipFirstSlash
  end.

Definition FsRtlDissectName (Name : list Z) : option (Z * Z) * option (Z * Z) :=
  if Length Name =? 0 then (None, None) else
  let '(FirstPosition, SkipFirstSlash) := first_backslash Name 0 0 in
  (Some (SkipFirstSlash, FirstPosition - SkipFirstSlash),
   if FirstPosition <? Length Name / 2
   then Some (FirstPosition + 1, Length Name / 2 - (FirstPosition + 1)) else None).

(** A case table is a function on characters. *)
Section Matching.
Context (UpcaseTable : Z -> Z).

Fixpoint equal_upcased (a b : list Z) : bool :=
  match a, b with
  | [], [] => true
  | x :: a', y :: b' => if negb (UpcaseTable x =? UpcaseTable y) then false else equal_upcased a' b'
  | _, _ => false
  end.

(** With a table, or without regard to it; the form without a table upcases both names with
    [RtlUpcaseUnicodeString], which is the same comparison. *)
Definition FsRtlAreNamesEqual (Name1 Name2 : list Z) (IgnoreCase : bool) : bool :=
  if negb (Length Name1 =? Length Name2) then false else
  if negb IgnoreCase then bool_decide (Name1 = Name2) else equal_upcased Name1 Name2.

(** ** The matching loop *)

Context (Expression Name : list Z) (IgnoreCase : bool).

(** The back tracking buffers, their size, and whether they have been allocated. *)
Record buffers := Buffers { BackTracking : list Z; OldBackTracking : list Z; BufferSize : Z; Allocated : bool }.

(** [BackTracking[BackTrackingPosition++] = v], [v] cut to a USHORT. *)
Definition push (b : buffers) (pos v : Z) : option (buffers * Z) :=
  bt ← wr (BackTracking b) pos (u16 v);
  Some (Buffers bt (OldBackTracking b) (BufferSize b) (Allocated b), pos + 1).

(** The move to allocated buffers.  What the allocation holds is [junk]; the copies of sixteen
    entries have to fit, and the code relies on it that this happens once. *)
Definition grow (junk : Z) (b : buffers) : option buffers :=
  let size := Length Expression / 2 * 2 + 1 in
  if Allocated b || (size <? 16) then None else
  let enlarge l := take 16 l ++ replicate (Z.to_nat size - 16) junk in
  Some (Buffers (enlarge (BackTracking b)) (enlarge (OldBackTracking b)) size true).

(** Is there a dot in the name from [Position] on? *)
Definition dot_from (Position : Z) : bool := existsb (Z.eqb DOT) (drop (Z.to_nat Position) Name).

(** How the body of the expression loop ends. *)
Inductive flow := Break | Continue.

(** The body for the character [c] of the expression at [ep], with the character [a] of
    the name, or none at its end. *)
Definition expression_char (b : buffers) (pos ep c NamePosition : Z) (a : option Z)
  : option (buffers * Z * flow) :=
  let EndOfName := match a with None => true | _ => false end in
  let raw := match a with Some a => a | None => 0 end in
  let CompareChar := match a with Some a => if IgnoreCase then UpcaseTable a else a | None => 0 end in
  if (c =? CompareChar) && negb EndOfName then
    '(b, pos) ← push b pos ((ep + 2) * 2); Some (b, pos, Break)
  else if (c =? QM) && negb EndOfName then
    '(b, pos) ← push b pos ((ep + 2) * 2); Some (b, pos, Break)
  else if c =? STAR then
    '(b, pos) ← push b pos (ep * 2);
    '(b, pos) ← push b pos (ep * 2 + 3); Some (b, pos, Continue)
  else if c =? DOS_STAR then
    let DontSkipDot := negb (negb EndOfName && (raw =? DOT) && dot_from (NamePosition + 1)) in
    '(b, pos) ← (if EndOfName || negb (raw =? DOT) || negb DontSkipDot then push b pos (ep * 2) else Some (b, pos));
    '(b, pos) ← push b pos (ep * 2 + 3); Some (b, pos, Continue)
  else if c =? DOS_DOT then
    if EndOfName then Some (b, pos, Continue)
    else if raw =? DOT then '(b, pos) ← push b pos ((ep + 2) * 2); Some (b, pos, Break)
    else Some (b, pos, Break)
  else if c =? DOS_QM then
    if EndOfName || (raw =? DOT) then Some (b, pos, Continue)
    else '(b, pos) ← push b pos ((ep + 2) * 2); Some (b, pos, Break)
  else Some (b, pos, Break).

(** The expression loop; the inner [None] is a failed allocation. *)
Fixpoint expression_loop (fuel : nat) (pool_ok : bool) (junk : Z) (b : buffers) (pos ep Offset NamePosition : Z)
    (a : option Z) : option (option (buffers * Z)) :=
  match fuel with
  | O => None
  | S fuel' =>
      if ep <? Length Expression then
        let ep := ep + Offset in
        if ep =? Length Expression then
          r ← push b pos (Length Expression * 2); Some (Some r)
        else
          grown ← (if BufferSize b - 3 <? pos
                   then if pool_ok then b ← grow junk b; Some (Some b) else Some None
                   else Some (Some b) : option (option buffers));
          match grown with
          | None => Some None
          | Some b =>
              c ← rd Expression (ep / 2);
              '(b, pos, f) ← expression_char b pos ep c NamePosition a;
              match f with
              | Break => Some (Some (b, pos))
              | Continue => expression_loop fuel' pool_ok junk b pos ep 2 NamePosition a
              end
          end
      else Some (Some (b, pos))
  end.

(** Old entries below a new one are passed over. *)
Fixpoint skip_below (fuel : nat) (Old : list Z) (MatchingChars OldPos v : Z) : option Z :=
  match fuel with
  | O => None
  | S fuel' =>
      if OldPos <? MatchingChars then
        o ← rd Old OldPos;
        if o <? v then skip_below fuel' Old MatchingChars (OldPos + 1) v else Some OldPos
      else Some OldPos
  end.

Fixpoint skip_loop (fuel : nat) (b : buffers) (MatchingChars OldPos Position pos : Z) : option Z :=
  match fuel with
  | O => None
  | S fuel' =>
      if (OldPos <? MatchingChars) && (Position <? pos) then
        v ← rd (BackTracking b) Position;
        OldPos ← skip_below (S (Z.to_nat MatchingChars)) (OldBackTracking b) MatchingChars OldPos v;
        skip_loop fuel' b MatchingChars OldPos (Position + 1) pos
      else Some OldPos
  end.

(** The loop over the old entries. *)
Fixpoint old_loop (fuel : nat) (pool_ok : bool) (junk : Z) (b : buffers) (MatchingChars OldPos pos NamePosition : Z)
    (a : option Z) : option (option (buffers * Z)) :=
  match fuel with
  | O => None
  | S fuel' =>
      if OldPos <? MatchingChars then
        o ← rd (OldBackTracking b) OldPos;
        let ep := (o + 1) / 2 in
        r ← expression_loop (S (length Expression)) pool_ok junk b pos ep 0 NamePosition a;
        match r with
        | None => Some None
        | Some (b, pos) =>
            OldPos ← skip_loop (S (Z.to_nat pos)) b MatchingChars (OldPos + 1) 0 pos;
            old_loop fuel' pool_ok junk b MatchingChars OldPos pos NamePosition a
        end
      else Some (Some (b, pos))
  end.

Definition swap (b : buffers) : buffers :=
  Buffers (OldBackTracking b) (BackTracking b) (BufferSize b) (Allocated b).

(** [Result] of the old entries. *)
Definition last_is_end (b : buffers) (MatchingChars : Z) : option bool :=
  if 0 <? MatchingChars
  then o ← rd (OldBackTracking b) (MatchingChars - 1); Some (o =? Length Expression * 2)
  else Some false.

(** The name loop. *)
Fixpoint name_loop (fuel : nat) (pool_ok : bool) (junk : Z) (b : buffers) (MatchingChars NamePosition : Z)
  : option bool :=
  match fuel with
  | O => None
  | S fuel' =>
      let a := Name !! Z.to_nat NamePosition in
      let EndOfName := Length Name / 2 <=? NamePosition in
      at_end ← (if EndOfName then last_is_end b MatchingChars else Some false);
      if (at_end : bool) then last_is_end b MatchingChars else
      r ← old_loop (S (Z.to_nat MatchingChars)) pool_ok junk b MatchingChars 0 0 NamePosition a;
      match r with
      | None => Some false
      | Some (b, pos) =>
          let b := swap b in
          if EndOfName then last_is_end b pos
          else name_loop fuel' pool_ok junk b pos (NamePosition + 1)
      end
  end.

(** The comparison of the name's end in the shortcut, with the assertion that the expression
    is upcased. *)
Fixpoint tail_equal (expr name : list Z) : option bool :=
  match expr with
  | [] => Some true
  | c :: expr' =>
      if negb (c =? UpcaseTable c) then None else
      match name with
      | [] => None
      | a :: name' => if negb (UpcaseTable a =? c) then Some false else tail_equal expr' name'
      end
  end.

(** The buffers start with sixteen entries each; the first one is uninitialised. *)
Definition FsRtlIsNameInExpressionPrivate (pool_ok : bool) (junk : Z) : option bool :=
  if (Length Name =? 0) || (Length Expression =? 0) then
    Some ((Length Name =? 0) && (Length Expression =? 0))
  else
  first ← rd Expression 0;
  if (Length Expression =? 2) && (first =? STAR) then Some true else
  let IntExpression := drop 1 Expression in
  if (first =? STAR) && negb (FsRtlDoesNameContainWildCards IntExpression) then
    if Length Name <? Length Expression - 2 then Some false else
    let NamePosition := (Length Name - Length IntExpression) / 2 in
    let rest := drop (Z.to_nat NamePosition) Name in
    if negb IgnoreCase then Some (bool_decide (IntExpression = rest))
    else tail_equal IntExpression rest
  else
  name_loop (S (S (length Name))) pool_ok junk
    (Buffers (replicate 16 junk) (replicate 16 0) 16 false) 1 0.

(** ** The reference matcher

    [*] stands for any characters; [<] for characters up to and including the last dot, or up
    to any place before it; [?] for a character; [>] for a character other than a dot, or
    for nothing in front of a dot or at the end of the name, and a run of them that ends the
    expression also takes a dot that ends the name; the double quote for a dot, or for
    nothing at the end. *)

Definition fold (a : Z) : Z := if IgnoreCase then UpcaseTable a else a.

Definition last_dot (a : Z) (x : list Z) : bool := (a =? DOT) && negb (existsb (Z.eqb DOT) x).

Fixpoint star_matches (rest : list Z -> bool) (x : list Z) : bool :=
  rest x || match x with [] => false | _ :: x' => star_matches rest x' end.

Fixpoint dos_star_matches (rest : list Z -> bool) (x : list Z) : bool :=
  rest x || match x with
            | [] => false
            | a :: x' => if last_dot a x' then rest x' else dos_star_matches rest x'
            end.

Definition empty (x : list Z) : bool := match x with [] => true | _ => false end.

Fixpoint matches (e x : list Z) : bool :=
  match e with
  | [] => empty x
  | c :: e' =>
      if c =? STAR then star_matches (matches e') x
      else if c =? DOS_STAR then dos_star_matches (matches e') x
      else
      match x with
      | [] => ((c =? DOS_DOT) || (c =? DOS_QM)) && matches e' []
      | a :: x' =>
          if c =? QM then matches e' x'
          else if c =? DOS_DOT then (a =? DOT) && matches e' x'
          else if c =? DOS_QM then
            if a =? DOT then matches e' x || forallb (Z.eqb DOS_QM) e' && empty x' else matches e' x'
          else (c =? fold a) && matches e' x'
      end
  end.

(** ** The entries a position gives rise to

    Entry [4 p] stands for position [p] of the expression, entry [4 p + 3] for the position
    after the star at [p]. *)

Definition char_entries (c p : Z) (x : list Z) : list Z * flow :=
  match x with
  | a :: x' =>
      if (c =? fold a) || (c =? QM) then ([4 * p + 4], Break)
      else if c =? STAR then ([4 * p; 4 * p + 3], Continue)
      else if c =? DOS_STAR then ((if last_dot a x' then [4 * p + 3] else [4 * p; 4 * p + 3]), Continue)
      else if c =? DOS_DOT then ((if a =? DOT then [4 * p + 4] else []), Break)
      else if c =? DOS_QM then if a =? DOT then ([], Continue) else ([4 * p + 4], Break)
      else ([], Break)
  | [] =>
      if (c =? STAR) || (c =? DOS_STAR) then ([4 * p; 4 * p + 3], Continue)
      else if (c =? DOS_DOT) || (c =? DOS_QM) then ([], Continue)
      else ([], Break)
  end.

Fixpoint entries (es : list Z) (p : Z) (x : list Z) : list Z :=
  match es with
  | [] => [4 * p]
  | c :: es' =>
      let '(l, f) := char_entries c p x in
      l ++ match f with Continue => entries es' (p + 1) x | Break => [] end
  end.

Definition position (v : Z) : Z := (v + 1) / 4.

(** The entries an old entry gives rise to. *)
Definition start (v : Z) (x : list Z) : list Z :=
  if position v <? Z.of_nat (length Expression)
  then entries (drop (Z.to_nat (position v)) Expression) (position v) x else [].

Definition highest (l : list Z) : Z := foldr Z.max (-1) l.

(** The new entries, old ones below the highest new one passed over. *)
Fixpoint process (os bs x : list Z) : list Z :=
  match os with
  | [] => bs
  | o :: os' => if o <? highest bs then process os' bs x else process os' (bs ++ start o x) x
  end.

(** * Laws *)

Lemma highest_app l1 l2 : highest (l1 ++ l2) = Z.max (highest l1) (highest l2).
Proof.
  induction l1 as [|v l1 IH]; unfold highest in *; simpl.
  - assert (-1 <= foldr Z.max (-1) l2); [|lia]. clear. induction l2; simpl; lia.
  - lia.
Qed.

Lemma highest_ge l v : v ∈ l -> v <= highest l.
Proof. induction 1; unfold highest in *; simpl; lia. Qed.

Lemma highest_le l m : -1 <= m -> (forall v, v ∈ l -> v <= m) -> highest l <= m.
Proof.
  intros Hm H. induction l as [|v l IH]; unfold highest in *; simpl; [lia|].
  pose proof (H v ltac:(left)). specialize (IH ltac:(intros; apply H; by right)). lia.
Qed.

Lemma highest_in l : l <> [] -> (forall v, v ∈ l -> 0 <= v) -> highest l ∈ l.
Proof.
  induction l as [|v l IH]; intros Hne Hp; [done|]. destruct l as [|w l].
  - unfold highest. simpl. pose proof (Hp v ltac:(left)). replace (Z.max v (-1)) with v by lia. left.
  - change (highest (v :: w :: l)) with (Z.max v (highest (w :: l))).
    specialize (IH ltac:(done) ltac:(intros; apply Hp; by right)).
    destruct (Z.max_spec v (highest (w :: l))) as [[_ ->]|[_ ->]]; [by right|left].
Qed.

(** The shapes of [char_entries]. *)
Lemma char_entries_cases c p x l f :
  char_entries c p x = (l, f) ->
  (f = Break /\ (l = [] \/ l = [4 * p + 4])) \/
  (f = Continue /\ (l = [] \/
    ((c = STAR \/ c = DOS_STAR) /\ (l = [4 * p + 3] \/ l = [4 * p; 4 * p + 3])))).
Proof.
  unfold char_entries. intros E.
  destruct x as [|a x'];
  repeat match type of E with
  | context [if ?b then _ else _] => destruct b eqn:?
  end; injection E as <- <-; try (left; split; [done|]; tauto); right; (split; [done|]); try tauto; right;
  (split; [|tauto]); repeat match goal with H : _ || _ = true |- _ => apply orb_true_iff in H as [?|?] end; rewrite ?Z.eqb_eq in *; tauto.
Qed.

(** The next character of the name is not a wild card. *)
Definition plain (x : list Z) : Prop :=
  match x with
  | [] => True
  | a :: _ => FsRtlIsUnicodeCharacterWild (fold a) = false
  end.

Lemma plain_fold a x c :
  plain (a :: x) -> FsRtlIsUnicodeCharacterWild c = true -> (c =? fold a) = false.
Proof. intros Hx Hc. apply Z.eqb_neq. intros ->. simpl in Hx. congruence. Qed.

(** A star goes on to the next position. *)
Lemma char_entries_star c p x : plain x -> c = STAR \/ c = DOS_STAR -> snd (char_entries c p x) = Continue.
Proof.
  intros Hx Hc. unfold char_entries. destruct x as [|a x]; [by destruct Hc as [-> | ->]|].
  rewrite (plain_fold a x c Hx) by (by destruct Hc as [-> | ->]).
  destruct Hc as [-> | ->]; simpl; [done|]. by destruct (last_dot a x).
Qed.

(** [es] is the expression from position [p] on. *)
Definition suffix_at (es : list Z) (p : Z) : Prop :=
  0 <= p /\ es = drop (Z.to_nat p) Expression /\ p + Z.of_nat (length es) = Z.of_nat (length Expression).

Lemma suffix_at_intro p :
  0 <= p <= Z.of_nat (length Expression) -> suffix_at (drop (Z.to_nat p) Expression) p.
Proof. intros Hp. split_and!; [lia|done|]. rewrite length_drop. lia. Qed.

Lemma suffix_at_cons c es p :
  suffix_at (c :: es) p -> Expression !! Z.to_nat p = Some c /\ suffix_at es (p + 1).
Proof.
  intros (Hp & He & Hl). split.
  - rewrite <- (Nat.add_0_r (Z.to_nat p)), <- lookup_drop, <- He. done.
  - split_and!; [lia| |simpl in Hl; lia].
    replace (Z.to_nat (p + 1)) with (Z.to_nat p + 1)%nat by lia. by rewrite <- drop_drop, <- He.
Qed.

(** The entries there are. *)
Definition valid (v : Z) : Prop :=
  (exists k, v = 4 * k /\ 0 <= k <= Z.of_nat (length Expression)) \/
  (exists k c, v = 4 * k + 3 /\ 0 <= k /\ Expression !! Z.to_nat k = Some c /\ (c = STAR \/ c = DOS_STAR)).

Lemma lookup_in_range (k : Z) c : 0 <= k -> Expression !! Z.to_nat k = Some c -> k < Z.of_nat (length Expression).
Proof. intros Hk H%lookup_lt_Some. lia. Qed.

Lemma valid_position v :
  valid v -> 0 <= v <= 4 * Z.of_nat (length Expression) /\ 0 <= position v <= Z.of_nat (length Expression) /\
    v <= 4 * position v <= v + 1.
Proof.
  unfold position. intros [(k & -> & Hk)|(k & c & -> & Hk & Hc & _)].
  - Z.div_mod_to_equations; lia.
  - apply lookup_in_range in Hc; [|done]. Z.div_mod_to_equations; lia.
Qed.

Lemma position_exact k : position (4 * k) = k /\ position (4 * k + 3) = k + 1.
Proof. unfold position. Z.div_mod_to_equations; lia. Qed.

Lemma entries_valid x es : forall p v, suffix_at es p -> v ∈ entries es p x -> valid v /\ 4 * p <= v.
Proof.
  induction es as [|c es IH]; intros p v Hs Hv; cbn [entries] in Hv.
  - apply list_elem_of_singleton in Hv as ->. destruct Hs as (Hp & _ & Hl). simpl in Hl.
    split; [|lia]. left. exists p. lia.
  - destruct (suffix_at_cons _ _ _ Hs) as [Hc Hs']. pose proof Hs as (Hp & _ & Hl). simpl in Hl.
    destruct (char_entries c p x) as [l f] eqn:E. apply char_entries_cases in E. apply elem_of_app in Hv.
    destruct E as [[-> Hl']|[-> Hl']].
    + destruct Hv as [Hv|Hv%elem_of_nil]; [|done].
      destruct Hl' as [-> | ->]; [by apply elem_of_nil in Hv|]. apply list_elem_of_singleton in Hv as ->.
      split; [|lia]. left. exists (p + 1). lia.
    + destruct Hv as [Hv|Hv]; [|destruct (IH _ _ Hs' Hv); split; [done|lia]].
      assert (Hstar : (c = STAR \/ c = DOS_STAR) -> valid (4 * p + 3)) by (intros; right; exists p, c; auto).
      assert (Hstay : valid (4 * p)) by (left; exists p; lia).
      destruct Hl' as [-> | [Hst [-> | ->]]]; [by apply elem_of_nil in Hv|apply list_elem_of_singleton in Hv as ->|].
      * split; [auto|lia].
      * rewrite !elem_of_cons in Hv. destruct Hv as [->|[->|Hv%elem_of_nil]]; [split; [done|lia]|split; [auto|lia]|done].
Qed.

Lemma start_valid o v x : valid o -> v ∈ start o x -> valid v /\ o <= v.
Proof.
  intros Ho. unfold start. destruct (valid_position o Ho) as (Hr & Hp & Hle).
  destruct (Z.ltb_spec (position o) (Z.of_nat (length Expression))); [|by intros ?%elem_of_nil].
  intros Hv. eapply entries_valid in Hv; [|apply suffix_at_intro; lia]. split; [apply Hv|lia].
Qed.

(** Entries come in order. *)
Lemma entries_sorted x es : forall p, suffix_at es p -> StronglySorted Z.le (entries es p x).
Proof.
  induction es as [|c es IH]; intros p Hs; cbn [entries]; [repeat constructor|].
  destruct (suffix_at_cons _ _ _ Hs) as [_ Hs']. specialize (IH (p + 1) Hs').
  assert (Hge : Forall (fun v => 4 * (p + 1) <= v) (entries es (p + 1) x))
    by (apply Forall_forall; intros v Hv%list_elem_of_In; apply entries_valid in Hv; [lia|done]).
  destruct (char_entries c p x) as [l f] eqn:E. apply char_entries_cases in E.
  destruct E as [[-> [-> | ->]]|[-> [-> | [_ [-> | ->]]]]]; cbn [app]; repeat constructor; try done; try lia;
    (revert Hge; apply Forall_impl; intros; lia).
Qed.

(** Passing over: an entry below the highest one of a chain that began before it gives rise
    to nothing new. *)
Lemma entries_cover x es :
  plain x -> forall p v, suffix_at es p -> valid v -> 4 * p <= v + 1 -> v < highest (entries es p x) ->
  forall w, w ∈ start v x -> w ∈ entries es p x.
Proof.
  intros Hx. induction es as [|c es IH]; intros p v Hs Hv Hge Hlt; pose proof Hs as (Hp & He & Hl);
    cbn [entries] in Hlt |- *; destruct (valid_position v Hv) as (Hr & Hpv & Hvp); intros w Hw; unfold start in Hw;
    (destruct (Z.ltb_spec (position v) (Z.of_nat (length Expression))) as [Hpn|]; [|by apply elem_of_nil in Hw]).
  - simpl in Hl. lia.
  - destruct (suffix_at_cons _ _ _ Hs) as [Hc Hs']. simpl in Hl.
    destruct (decide (position v = p)) as [Hpos|Hpos].
    { rewrite Hpos, <- He in Hw. exact Hw. }
    assert (Hnext : 4 * (p + 1) <= v + 1) by lia.
    pose proof (char_entries_star c p x Hx) as Hstar.
    destruct (char_entries c p x) as [l f] eqn:E. apply char_entries_cases in E. rewrite highest_app in Hlt.
    destruct E as [[-> Hl']|[-> Hl']].
    + (* the chain ends here, so [c] is not a star and nothing is at [4 p + 3] *)
      exfalso. assert (highest l <= 4 * p + 4) by (destruct Hl' as [-> | ->]; unfold highest; simpl; lia).
      change (highest []) with (-1) in Hlt.
      destruct Hv as [(k & -> & Hk)|(k & c' & -> & Hk & Hc' & Hst)]; [lia|].
      assert (k = p) as -> by lia. rewrite Hc in Hc'. injection Hc' as <-. by specialize (Hstar Hst).
    + assert (highest l <= 4 * p + 3) by (destruct Hl' as [-> | [_ [-> | ->]]]; unfold highest; simpl; lia).
      apply elem_of_app. right. apply (IH (p + 1) v); try done; [lia|].
      unfold start. by rewrite (proj2 (Z.ltb_lt _ _)) by lia.
Qed.

Lemma start_cover x o v :
  plain x -> valid o -> valid v -> o <= v -> v < highest (start o x) -> forall w, w ∈ start v x -> w ∈ start o x.
Proof.
  intros Hx Ho Hv Hle Hlt w Hw. unfold start in Hlt |- *. destruct (valid_position o Ho) as (_ & Hp & Hop).
  destruct (Z.ltb_spec (position o) (Z.of_nat (length Expression))).
  - eapply entries_cover; [done|apply suffix_at_intro; lia|exact Hv|lia|done|done].
  - change (highest []) with (-1) in Hlt. destruct (valid_position v Hv). lia.
Qed.

Lemma sorted_app (l1 l2 : list Z) :
  StronglySorted Z.le l1 -> StronglySorted Z.le l2 -> (forall a b, a ∈ l1 -> b ∈ l2 -> a <= b) ->
  StronglySorted Z.le (l1 ++ l2).
Proof.
  induction 1 as [|a l1 H1 IH Ha]; intros H2 H; [done|]. cbn [app]. constructor.
  - apply IH; [done|]. intros b c Hb. apply H. by right.
  - apply Forall_app. split; [done|]. apply Forall_forall. intros b Hb%list_elem_of_In. apply H; [left|done].
Qed.

Lemma start_sorted o x : valid o -> StronglySorted Z.le (start o x).
Proof.
  intros Ho. unfold start. destruct (valid_position o Ho) as (_ & Hp & _). destruct (_ <? _); [|constructor].
  apply entries_sorted, suffix_at_intro. lia.
Qed.

(** An ordered list of entries. *)
Definition entry_list (l : list Z) : Prop := StronglySorted Z.le l /\ forall v, v ∈ l -> valid v.

Lemma process_spec x os :
  plain x -> forall bs lo,
  entry_list os -> (forall o, o ∈ os -> lo <= o) -> entry_list bs ->
  (forall v, valid v -> lo <= v -> v < highest bs -> forall w, w ∈ start v x -> w ∈ bs) ->
  entry_list (process os bs x) /\
  forall w, w ∈ process os bs x <-> w ∈ bs \/ exists o, o ∈ os /\ w ∈ start o x.
Proof.
  intros Hx. induction os as [|o os IH]; intros bs lo [Hso Hvo] Hlo [Hsb Hvb] Hcov; cbn [process].
  - split; [done|]. intros w. split; [by left|]. intros [Hw|(o & Ho%elem_of_nil & _)]; done.
  - apply StronglySorted_inv in Hso as [Hso Hmin].
    assert (Hos : entry_list os) by (split; [done|intros v Hv; apply Hvo; by right]).
    assert (Hmin' : forall o', o' ∈ os -> o <= o')
      by (intros o' Ho'; rewrite Forall_forall in Hmin; apply Hmin; by apply list_elem_of_In).
    assert (Ho : valid o) by (apply Hvo; left). pose proof (Hlo o ltac:(left)) as Hlo'.
    destruct (Z.ltb_spec o (highest bs)) as [Hlt|Hge].
    + destruct (IH bs o Hos Hmin' (conj Hsb Hvb)) as [Hr Hin]; [intros v Hv Hov; apply Hcov; [done|lia]|].
      split; [done|]. intros w. rewrite Hin. split.
      * intros [Hw|(o' & Ho' & Hw)]; [by left|right; exists o'; split; [by right|done]].
      * intros [Hw|(o' & Ho' & Hw)]; [by left|]. apply elem_of_cons in Ho' as [->|Ho']; [|by right; exists o'].
        left. by eapply (Hcov o).
    + destruct (IH (bs ++ start o x) o Hos Hmin') as [Hr Hin].
      * split.
        -- apply sorted_app; [done|by apply start_sorted|]. intros a b Ha%highest_ge Hb%start_valid; [lia|done].
        -- intros v [Hv|Hv]%elem_of_app; [by apply Hvb|apply start_valid in Hv; [apply Hv|done]].
      * intros v Hv Hov Hlt w Hw. apply elem_of_app. right. rewrite highest_app in Hlt.
        eapply (start_cover x o v); done || lia.
      * split; [done|]. intros w. rewrite Hin, elem_of_app. split.
        -- intros [[Hw|Hw]|(o' & Ho' & Hw)]; [by left|right; exists o; split; [left|done]|
             right; exists o'; split; [by right|done]].
        -- intros [Hw|(o' & Ho' & Hw)]; [by left; left|]. apply elem_of_cons in Ho' as [->|Ho'];
             [by left; right|by right; exists o'].
Qed.

Lemma process_new x os :
  plain x -> entry_list os ->
  entry_list (process os [] x) /\ forall w, w ∈ process os [] x <-> exists o, o ∈ os /\ w ∈ start o x.
Proof.
  intros Hx Hos. destruct (process_spec x os Hx [] 0) as [Hr Hin].
  - done.
  - intros o Ho. apply Hos in Ho. apply valid_position in Ho. lia.
  - split; [constructor|]. by intros v ?%elem_of_nil.
  - intros v Hv _ Hlt. change (highest []) with (-1) in Hlt. apply valid_position in Hv. lia.
  - split; [done|]. intros w. rewrite Hin. split; [|auto]. by intros [?%elem_of_nil|?].
Qed.

(** ** What the entries accept *)

(** The rest of the expression from an entry on. *)
Definition accepts (v : Z) (x : list Z) : bool := matches (drop (Z.to_nat (position v)) Expression) x.

Lemma star_matches_nil rest : star_matches rest [] = rest [].
Proof. simpl. apply orb_false_r. Qed.

Lemma qm_matches_nil e : forallb (Z.eqb DOS_QM) e = true -> matches e [] = true.
Proof.
  induction e as [|c e IH]; [done|]. cbn [forallb]. intros [Hc%Z.eqb_eq He]%andb_true_iff. subst c.
  cbn [matches]. simpl. by apply IH.
Qed.

Lemma accepts_entry k e x : suffix_at e k -> accepts (4 * k) x = matches e x.
Proof. intros (_ & -> & _). unfold accepts. by rewrite (proj1 (position_exact k)). Qed.

Lemma accepts_after k c e x : suffix_at (c :: e) k -> accepts (4 * k + 3) x = matches e x.
Proof.
  intros Hs. apply suffix_at_cons in Hs as [_ (_ & -> & _)]. unfold accepts.
  by rewrite (proj2 (position_exact k)).
Qed.

Lemma accepts_next k c e x : suffix_at (c :: e) k -> accepts (4 * k + 4) x = matches e x.
Proof.
  intros Hs. apply suffix_at_cons in Hs as [_ Hs]. replace (4 * k + 4) with (4 * (k + 1)) by lia. by apply accepts_entry.
Qed.

Definition accepted (l x : list Z) : bool := existsb (fun v => accepts v x) l.

Lemma accepted_app l1 l2 x : accepted (l1 ++ l2) x = accepted l1 x || accepted l2 x.
Proof. apply existsb_app. Qed.

Lemma star_step rest x : rest x = true -> star_matches rest x = true.
Proof. intros H. destruct x; simpl; by rewrite H. Qed.

Lemma dos_star_step rest x : rest x = true -> dos_star_matches rest x = true.
Proof. intros H. destruct x; simpl; by rewrite H. Qed.

(** The positions a chain can leave by the end of the expression, with a character of the name
    not taken. *)
Definition skips_to_end (e : list Z) (a : Z) : bool :=
  empty e || forallb (Z.eqb DOS_QM) e && (a =? DOT).

Lemma skips_matches_nil e a : skips_to_end e a = true -> matches e [] = true.
Proof.
  unfold skips_to_end. intros [He|[He _]%andb_true_iff]%orb_true_iff; [by destruct e|by apply qm_matches_nil].
Qed.

(** [char_entries] and [matches] for each kind of character, when the name goes on. *)
Section Kinds.
Context (a : Z) (x' : list Z) (Hx : plain (a :: x')) (p : Z) (e : list Z).

Lemma kind_star :
  char_entries STAR p (a :: x') = ([4 * p; 4 * p + 3], Continue) /\
  matches (STAR :: e) (a :: x') = matches e (a :: x') || star_matches (matches e) x'.
Proof. split; [|done]. unfold char_entries. by rewrite (plain_fold a x' STAR Hx). Qed.

Lemma kind_dos_star :
  char_entries DOS_STAR p (a :: x') = ((if last_dot a x' then [4 * p + 3] else [4 * p; 4 * p + 3]), Continue) /\
  matches (DOS_STAR :: e) (a :: x')
  = matches e (a :: x') || (if last_dot a x' then matches e x' else dos_star_matches (matches e) x').
Proof. split; [|done]. unfold char_entries. by rewrite (plain_fold a x' DOS_STAR Hx). Qed.

Lemma kind_dos_dot :
  char_entries DOS_DOT p (a :: x') = ((if a =? DOT then [4 * p + 4] else []), Break) /\
  matches (DOS_DOT :: e) (a :: x') = (a =? DOT) && matches e x'.
Proof. split; [|done]. unfold char_entries. by rewrite (plain_fold a x' DOS_DOT Hx). Qed.

Lemma kind_dos_qm :
  char_entries DOS_QM p (a :: x') = (if a =? DOT then ([], Continue) else ([4 * p + 4], Break)) /\
  matches (DOS_QM :: e) (a :: x')
  = if a =? DOT then matches e (a :: x') || forallb (Z.eqb DOS_QM) e && empty x' else matches e x'.
Proof. split; [|done]. unfold char_entries. by rewrite (plain_fold a x' DOS_QM Hx). Qed.

Lemma kind_qm :
  char_entries QM p (a :: x') = ([4 * p + 4], Break) /\ matches (QM :: e) (a :: x') = matches e x'.
Proof. split; [|done]. unfold char_entries. by rewrite (plain_fold a x' QM Hx). Qed.

Lemma kind_other c :
  c <> STAR -> c <> DOS_STAR -> c <> QM -> c <> DOS_DOT -> c <> DOS_QM ->
  char_entries c p (a :: x') = ((if c =? fold a then [4 * p + 4] else []), Break) /\
  matches (c :: e) (a :: x') = (c =? fold a) && matches e x'.
Proof.
  intros H1 H2 H3 H4 H5. unfold char_entries. cbn [matches].
  rewrite (proj2 (Z.eqb_neq c STAR)), (proj2 (Z.eqb_neq c DOS_STAR)), (proj2 (Z.eqb_neq c QM)),
    (proj2 (Z.eqb_neq c DOS_DOT)), (proj2 (Z.eqb_neq c DOS_QM)) by done. split; [|done]. by destruct (c =? fold a).
Qed.
End Kinds.

Lemma entries_step a x' es :
  plain (a :: x') -> forall p, suffix_at es p ->
  accepted (entries es p (a :: x')) x' = matches es (a :: x') || skips_to_end es a && empty x'.
Proof.
  intros Hx. induction es as [|c es IH]; intros p Hs.
  - cbn [entries accepted existsb]. rewrite (accepts_entry _ _ _ Hs). simpl. by rewrite orb_false_r.
  - pose proof (accepts_next p c es x' Hs) as Hnext. pose proof (accepts_after p c es x' Hs) as Hafter.
    pose proof (accepts_entry p (c :: es) x' Hs) as Hstay.
    pose proof (suffix_at_cons _ _ _ Hs) as [_ Hs']. specialize (IH (p + 1) Hs').
    assert (Hend : skips_to_end es a && empty x' = true -> matches es x' = true).
    { intros [He Hn]%andb_true_iff. destruct x'; [|done]. by eapply skips_matches_nil. }
    cbn [entries].
    destruct (Z.eq_dec c STAR) as [->|N1]; [|destruct (Z.eq_dec c DOS_STAR) as [->|N2]];
      [..|destruct (Z.eq_dec c QM) as [->|N3]]; [..|destruct (Z.eq_dec c DOS_DOT) as [->|N4]];
      [..|destruct (Z.eq_dec c DOS_QM) as [->|N5]].
    + destruct (kind_star a x' Hx p es) as [-> ->]. rewrite accepted_app, IH. cbn [accepted existsb].
      rewrite Hstay, Hafter. change (matches (STAR :: es) x') with (star_matches (matches es) x').
      change (skips_to_end (STAR :: es) a) with false. cbn [andb]. pose proof (star_step (matches es) x') as Hst.
      destruct (matches es x'), (matches es (a :: x')), (star_matches (matches es) x'), (skips_to_end es a && empty x');
        simpl in *; intuition congruence.
    + destruct (kind_dos_star a x' Hx p es) as [-> ->]. rewrite accepted_app, IH.
      change (skips_to_end (DOS_STAR :: es) a) with false. cbn [andb]. pose proof (dos_star_step (matches es) x') as Hst.
      destruct (last_dot a x'); cbn [accepted existsb]; rewrite ?Hstay, Hafter;
        try change (matches (DOS_STAR :: es) x') with (dos_star_matches (matches es) x');
        destruct (matches es x'), (matches es (a :: x')), (dos_star_matches (matches es) x'), (skips_to_end es a && empty x');
        simpl in *; intuition congruence.
    + destruct (kind_qm a x' Hx p es) as [-> ->]. cbn [app accepted existsb]. rewrite Hnext.
      change (skips_to_end (QM :: es) a) with false. done.
    + destruct (kind_dos_dot a x' Hx p es) as [-> ->]. change (skips_to_end (DOS_DOT :: es) a) with false.
      destruct (a =? DOT); cbn [app accepted existsb]; rewrite ?Hnext; done.
    + destruct (kind_dos_qm a x' Hx p es) as [-> ->].
      change (skips_to_end (DOS_QM :: es) a) with (forallb (Z.eqb DOS_QM) es && (a =? DOT)).
      destruct (Z.eqb_spec a DOT) as [->|]; cbn [app].
      * rewrite IH. unfold skips_to_end. destruct es as [|c es]; [by destruct x'|]. cbn [empty orb].
        rewrite Z.eqb_refl, !andb_true_r. destruct (matches _ _), (forallb _ _ && _); done.
      * cbn [accepted existsb]. rewrite Hnext, andb_false_r. cbn [andb]. done.
    + destruct (kind_other a x' p es c) as [-> ->]; [done..|].
      replace (skips_to_end (c :: es) a) with false by (unfold skips_to_end; cbn [empty forallb orb];
        rewrite (proj2 (Z.eqb_neq DOS_QM c)) by congruence; done).
      destruct (c =? fold a); cbn [app accepted existsb]; rewrite ?Hnext; done.
Qed.

(** One character of the name. *)
Lemma start_step a x' o :
  plain (a :: x') -> valid o -> accepted (start o (a :: x')) x' = accepts o (a :: x').
Proof.
  intros Hx Ho. destruct (valid_position o Ho) as (_ & Hp & _). unfold start, accepts.
  pose proof (suffix_at_intro (position o) Hp) as Hs.
  destruct (Z.ltb_spec (position o) (Z.of_nat (length Expression))).
  - rewrite entries_step by done. destruct (drop _ _) as [|c es] eqn:E; [|].
    { destruct Hs as (_ & _ & Hl). simpl in Hl. lia. }
    destruct (skips_to_end (c :: es) a) eqn:Esk; [|by rewrite orb_false_r].
    unfold skips_to_end in Esk. cbn [empty orb forallb] in Esk.
    apply andb_true_iff in Esk as [[Hc%Z.eqb_eq Hq]%andb_true_iff Hd]. subst c.
    destruct (kind_dos_qm a x' Hx (position o) es) as [_ ->]. rewrite Hd, Hq. cbn [andb].
    destruct (matches _ _), (empty x'); done.
  - replace (position o) with (Z.of_nat (length Expression)) by lia. rewrite Nat2Z.id, drop_all. done.
Qed.

Lemma process_step a x' os :
  plain (a :: x') -> entry_list os -> accepted (process os [] (a :: x')) x' = accepted os (a :: x').
Proof.
  intros Hx Hos. destruct (process_new (a :: x') os Hx Hos) as [_ Hin].
  apply eq_true_iff_eq. unfold accepted. rewrite !existsb_exists. split.
  - intros (w & Hw & Ha). apply list_elem_of_In, Hin in Hw as (o & Ho & Hw). exists o. split; [by apply list_elem_of_In|].
    rewrite <- start_step by (done || by apply Hos). apply existsb_exists. exists w. split; [by apply list_elem_of_In|done].
  - intros (o & Ho & Ha). apply list_elem_of_In in Ho. rewrite <- start_step in Ha by (done || by apply Hos).
    apply existsb_exists in Ha as (w & Hw & Ha). exists w. split; [|done]. apply list_elem_of_In, Hin.
    exists o. split; [done|by apply list_elem_of_In].
Qed.

(** ** The end of the name *)

Lemma entries_end es :
  forall p, suffix_at es p -> (4 * Z.of_nat (length Expression) ∈ entries es p [] <-> matches es [] = true).
Proof.
  induction es as [|c es IH]; intros p Hs.
  - destruct Hs as (_ & _ & Hl). simpl in Hl. cbn [entries]. rewrite list_elem_of_singleton.
    split; [done|]. intros _. lia.
  - pose proof (suffix_at_cons _ _ _ Hs) as [_ Hs']. specialize (IH (p + 1) Hs'). pose proof Hs as (Hp & _ & Hl).
    simpl in Hl. cbn [entries char_entries matches].
    destruct (c =? STAR) eqn:E1; [|destruct (c =? DOS_STAR) eqn:E2]; cbn [orb].
    + rewrite star_matches_nil. cbn [app]. rewrite !elem_of_cons, IH. split; [intros [?|[?|?]]; [lia|lia|done]|auto].
    + replace (dos_star_matches (matches es) []) with (matches es []) by (simpl; by rewrite orb_false_r).
      cbn [app]. rewrite !elem_of_cons, IH. split; [intros [?|[?|?]]; [lia|lia|done]|auto].
    + destruct ((c =? DOS_DOT) || (c =? DOS_QM)); cbn [app andb]; [done|]. rewrite elem_of_nil. done.
Qed.

(** An entry after a star that ends the expression comes with the end itself. *)
Definition closed (l : list Z) : Prop :=
  4 * Z.of_nat (length Expression) - 1 ∈ l -> 4 * Z.of_nat (length Expression) ∈ l.

Lemma entries_closed x es : forall p, suffix_at es p -> closed (entries es p x).
Proof.
  unfold closed. induction es as [|c es IH]; intros p Hs.
  - destruct Hs as (_ & _ & Hl). simpl in Hl. cbn [entries]. rewrite !list_elem_of_singleton. lia.
  - pose proof (suffix_at_cons _ _ _ Hs) as [_ Hs']. specialize (IH (p + 1) Hs'). pose proof Hs as (Hp & _ & Hl).
    simpl in Hl. cbn [entries]. destruct (char_entries c p x) as [l f] eqn:E. apply char_entries_cases in E.
    rewrite !elem_of_app. destruct E as [[-> [-> | ->]]|[-> [-> | [_ Hl']]]].
    + rewrite !elem_of_nil. tauto.
    + rewrite !list_elem_of_singleton, !elem_of_nil. lia.
    + rewrite elem_of_nil. intros [[]|Hin]; auto.
    + intros [Hin|Hin]; [|auto]. right. assert (Hp1 : p + 1 = Z.of_nat (length Expression)).
      { destruct Hl' as [-> | ->]; rewrite ?elem_of_cons, ?elem_of_nil in Hin; lia. }
      assert (es = []) as -> by (destruct es; [done|simpl in Hl; lia]). cbn [entries]. rewrite Hp1. left.
Qed.

Lemma process_closed x os : plain x -> entry_list os -> closed (process os [] x).
Proof.
  intros Hx Hos. destruct (process_new x os Hx Hos) as [_ Hin]. unfold closed. rewrite !Hin. intros (o & Ho & Hw).
  exists o. split; [done|]. unfold start in *. destruct (Z.ltb_spec (position o) (Z.of_nat (length Expression))); [|by apply elem_of_nil in Hw].
  revert Hw. apply entries_closed, suffix_at_intro. apply Hos in Ho. apply valid_position in Ho. lia.
Qed.

(** The entries accept the empty rest when the end is among them, or is reached from them. *)
Lemma accepted_end os :
  entry_list os -> closed os ->
  accepted os [] = true <->
  4 * Z.of_nat (length Expression) ∈ os \/ 4 * Z.of_nat (length Expression) ∈ process os [] [].
Proof.
  intros Hos Hcl. destruct (process_new [] os I Hos) as [_ Hin]. rewrite Hin. unfold accepted. rewrite existsb_exists. split.
  - intros (o & Ho%list_elem_of_In & Ha). pose proof (proj2 Hos o Ho) as Hv. destruct (valid_position o Hv) as (Hr & Hp & Hop).
    destruct (Z.lt_ge_cases (position o) (Z.of_nat (length Expression))) as [Hlt|Hge].
    + right. exists o. split; [done|]. unfold start. rewrite (proj2 (Z.ltb_lt _ _)) by done.
      apply entries_end; [by apply suffix_at_intro|exact Ha].
    + left. assert (o = 4 * Z.of_nat (length Expression) \/ o = 4 * Z.of_nat (length Expression) - 1) as [<-| ->] by lia; auto.
  - intros [He|(o & Ho & Hw)].
    + eexists. split; [apply list_elem_of_In; exact He|]. unfold accepts. rewrite (proj1 (position_exact _)), Nat2Z.id, drop_all. done.
    + exists o. split; [by apply list_elem_of_In|]. unfold start in Hw. pose proof (proj2 Hos o Ho) as Hv.
      destruct (valid_position o Hv) as (_ & Hp & _). destruct (_ <? _); [|by apply elem_of_nil in Hw].
      apply entries_end in Hw; [done|by apply suffix_at_intro].
Qed.

(** ** How many entries there are

    A position gives rise to two entries at most, so that there are no more than [2 q] when
    position [q] is reached. *)

Definition bounded (bs : list Z) : Prop :=
  (forall q, 0 <= q < Z.of_nat (length Expression) -> highest bs <= 4 * q -> Z.of_nat (length bs) <= 2 * q) /\
  Z.of_nat (length bs) <= 2 * Z.of_nat (length Expression) + 1.

Lemma bounded_nil : bounded [].
Proof. split; [intros q Hq _|]; simpl; lia. Qed.

Lemma char_entries_length c p x l f :
  char_entries c p x = (l, f) -> (length l <= 2)%nat /\ (l <> [] -> 4 * p + 3 <= highest l).
Proof.
  intros [[_ [-> | ->]]|[_ [-> | [_ [-> | ->]]]]]%char_entries_cases; unfold highest; simpl; (split; [lia|]); try done; lia.
Qed.

Lemma entries_bounded x es :
  forall p bs, suffix_at es p -> bounded bs -> Z.of_nat (length bs) <= 2 * p ->
  bounded (bs ++ entries es p x).
Proof.
  induction es as [|c es IH]; intros p bs Hs Hb Hl; pose proof Hs as (Hp & _ & Hn); cbn [entries].
  - simpl in Hn. split; [|rewrite length_app; simpl; lia]. intros q Hq. rewrite highest_app. unfold highest at 2. simpl. lia.
  - simpl in Hn. destruct (suffix_at_cons _ _ _ Hs) as [_ Hs'].
    destruct (char_entries c p x) as [l f] eqn:E. apply char_entries_length in E as [Hl2 Hhi].
    assert (Hb' : bounded (bs ++ l)).
    { destruct l as [|v l]; [by rewrite app_nil_r|]. specialize (Hhi ltac:(done)). split; [|rewrite length_app; lia].
      intros q Hq. rewrite highest_app, length_app. lia. }
    rewrite app_assoc. destruct f; [by rewrite app_nil_r|]. apply IH; [done|done|]. rewrite length_app. lia.
Qed.

Lemma start_bounded o x bs :
  valid o -> bounded bs -> highest bs <= o -> bounded (bs ++ start o x).
Proof.
  intros Ho Hb Hle. destruct (valid_position o Ho) as (_ & Hp & Hop). unfold start.
  destruct (Z.ltb_spec (position o) (Z.of_nat (length Expression))); [|by rewrite app_nil_r].
  apply entries_bounded; [apply suffix_at_intro; lia|done|]. apply Hb; lia.
Qed.

(** ** The buffers *)

(** The buffers hold the new entries [bs] and the old ones [os]. *)
Definition holds (b : buffers) (bs os : list Z) : Prop :=
  (exists r1 r2, BackTracking b = bs ++ r1 /\ OldBackTracking b = os ++ r2) /\
  Z.of_nat (length (BackTracking b)) = BufferSize b /\ Z.of_nat (length (OldBackTracking b)) = BufferSize b /\
  (Allocated b = false /\ BufferSize b = 16 \/
   Allocated b = true /\ BufferSize b = 2 * Z.of_nat (length Expression) + 1).

Lemma rd_app (l1 l2 : list Z) i v : l1 !! Z.to_nat i = Some v -> 0 <= i -> rd (l1 ++ l2) i = Some v.
Proof.
  intros Hv Hi. unfold rd. rewrite (proj2 (Z.ltb_ge i 0)) by lia.
  rewrite lookup_app_l; [done|]. by eapply lookup_lt_Some.
Qed.

Lemma push_holds b bs os v pos :
  holds b bs os -> pos = Z.of_nat (length bs) -> Z.of_nat (length bs) < BufferSize b -> 0 <= v < 65536 ->
  exists b', push b pos v = Some (b', Z.of_nat (length (bs ++ [v]))) /\ holds b' (bs ++ [v]) os /\ BufferSize b' = BufferSize b.
Proof.
  intros ((r1 & r2 & E1 & E2) & L1 & L2 & Hal) -> Hlt Hv. unfold push, wr.
  rewrite (proj2 (Z.leb_le 0 _)), (proj2 (Z.ltb_lt _ _)) by lia. cbn [andb mbind option_bind].
  eexists. split; [rewrite length_app; simpl; do 2 f_equal; lia|]. split; [|done].
  unfold holds. simpl. rewrite length_insert. split_and!; [|done|done|done].
  destruct r1 as [|r r1]; [rewrite E1, app_nil_r in L1; lia|].
  exists r1, r2. split; [|done]. rewrite E1, Nat2Z.id, insert_app_r_alt by lia. rewrite Nat.sub_diag.
  unfold u16. rewrite Z.mod_small by lia. simpl. by rewrite <- app_assoc.
Qed.

Definition stored (b : buffers) (bs os l : list Z) (f : flow) (r : option (buffers * Z * flow)) : Prop :=
  exists b', r = Some (b', Z.of_nat (length (bs ++ l)), f) /\ holds b' (bs ++ l) os /\ BufferSize b' = BufferSize b.

Lemma push_none b bs os : holds b bs os -> forall f, stored b bs os [] f (Some (b, Z.of_nat (length bs), f)).
Proof. intros Hb f. exists b. by rewrite app_nil_r. Qed.

Lemma push_one b bs os :
  holds b bs os -> Z.of_nat (length bs) + 2 <= BufferSize b -> forall v f, 0 <= v < 65536 ->
  stored b bs os [v] f ('(b, pos) ← push b (Z.of_nat (length bs)) v; Some (b, pos, f)).
Proof.
  intros Hb Hroom v f Hv. destruct (push_holds b bs os v _ Hb eq_refl ltac:(lia) Hv) as (b' & -> & Hb' & HS).
  by exists b'.
Qed.

Lemma push_two b bs os :
  holds b bs os -> Z.of_nat (length bs) + 2 <= BufferSize b -> forall v w f, 0 <= v < 65536 -> 0 <= w < 65536 ->
  stored b bs os [v; w] f
    ('(b, pos) ← push b (Z.of_nat (length bs)) v; '(b, pos) ← push b pos w; Some (b, pos, f)).
Proof.
  intros Hb Hroom v w f Hv Hw. destruct (push_holds b bs os v _ Hb eq_refl ltac:(lia) Hv) as (b1 & -> & Hb1 & HS1).
  cbn [mbind option_bind].
  destruct (push_holds b1 _ os w _ Hb1 eq_refl) as (b2 & -> & Hb2 & HS2); [rewrite length_app; simpl; lia|done|].
  rewrite <- app_assoc in Hb2 |- *. exists b2. split_and!; [done..|lia].
Qed.

Context (Hshort : 4 * Z.of_nat (length Expression) < 65536).

(** The body of the expression loop stores [char_entries]. *)
Lemma expression_char_holds b bs os c p NamePosition x l f :
  holds b bs os -> Z.of_nat (length bs) + 2 <= BufferSize b ->
  0 <= p < Z.of_nat (length Expression) -> 0 <= NamePosition -> x = drop (Z.to_nat NamePosition) Name ->
  char_entries c p x = (l, f) ->
  stored b bs os l f (expression_char b (Z.of_nat (length bs)) (2 * p) c NamePosition (head x)).
Proof.
  intros Hb Hroom Hp HN Hx E. unfold expression_char.
  pose proof (push_none b bs os) as Hnone. pose proof (push_one b bs os) as Hone. pose proof (push_two b bs os) as Htwo.
  specialize (Hnone Hb). specialize (Hone Hb Hroom). specialize (Htwo Hb Hroom).
  replace ((2 * p + 2) * 2) with (4 * p + 4) by lia. replace (2 * p * 2) with (4 * p) by lia.
  destruct x as [|a x']; cbn [head] in *; unfold char_entries in E.
  - rewrite !andb_false_r. cbn [negb andb orb].
    destruct (c =? STAR); cbn [orb] in E; [injection E as <- <-; apply Htwo; lia|].
    destruct (c =? DOS_STAR); [injection E as <- <-; apply Htwo; lia|].
    destruct (c =? DOS_DOT); cbn [orb] in E; [injection E as <- <-; apply Hnone|].
    destruct (c =? DOS_QM); injection E as <- <-; apply Hnone.
  - replace (dot_from (NamePosition + 1)) with (existsb (Z.eqb DOT) x').
    2:{ unfold dot_from. replace (Z.to_nat (NamePosition + 1)) with (Z.to_nat NamePosition + 1)%nat by lia.
        by rewrite <- drop_drop, <- Hx. }
    unfold fold in E. cbn [negb andb orb]. rewrite !andb_true_r.
    destruct (c =? (if IgnoreCase then UpcaseTable a else a)); cbn [orb] in E; [injection E as <- <-; apply Hone; lia|].
    destruct (c =? QM); [injection E as <- <-; apply Hone; lia|].
    destruct (c =? STAR); [injection E as <- <-; apply Htwo; lia|].
    destruct (c =? DOS_STAR).
    { rewrite negb_involutive. unfold last_dot in E. destruct (a =? DOT), (existsb _ x'); cbn [negb andb orb] in *;
        injection E as <- <-; first [apply Htwo; lia|apply Hone; lia]. }
    destruct (c =? DOS_DOT); [destruct (a =? DOT); injection E as <- <-; [apply Hone; lia|apply Hnone]|].
    destruct (c =? DOS_QM); [|injection E as <- <-; apply Hnone].
    destruct (a =? DOT); injection E as <- <-; [apply Hnone|apply Hone; lia].
Qed.

Lemma length_chars : Length Expression = 2 * Z.of_nat (length Expression).
Proof. done. Qed.

(** The buffers grow once, when they may be too small. *)
Lemma grow_holds junk b bs os p :
  holds b bs os -> Z.of_nat (length bs) <= 2 * p -> p < Z.of_nat (length Expression) ->
  BufferSize b - 3 < Z.of_nat (length bs) ->
  exists b', grow junk b = Some b' /\ holds b' bs os /\ Z.of_nat (length bs) + 3 <= BufferSize b'.
Proof.
  intros ((r1 & r2 & E1 & E2) & L1 & L2 & Hal) Hl Hp Hfull. destruct Hal as [[Ha HS]|[Ha HS]]; [|lia].
  unfold grow. rewrite length_chars, Ha.
  replace (2 * Z.of_nat (length Expression) / 2 * 2 + 1) with (2 * Z.of_nat (length Expression) + 1)
    by (rewrite Z.mul_comm, Z.div_mul by lia; lia).
  rewrite (proj2 (Z.ltb_ge _ 16)) by lia. cbn [orb]. eexists. split; [done|].
  rewrite !take_ge by lia. split; [|simpl; lia]. unfold holds. simpl.
  rewrite !length_app, !length_replicate. split_and!; [|lia|lia|by right].
  rewrite E1, E2, <- !app_assoc. eauto.
Qed.

Section Loops.
Context (junk NamePosition : Z) (x os : list Z).
Context (HN : 0 <= NamePosition) (Hx : x = drop (Z.to_nat NamePosition) Name).

Lemma expression_loop_holds es :
  forall fuel p b bs ep Offset,
  suffix_at es p -> holds b bs os -> Z.of_nat (length bs) <= 2 * p -> (es = [] -> Z.of_nat (length bs) < BufferSize b) ->
  ep + Offset = 2 * p -> 0 <= ep < Length Expression -> (length es < fuel)%nat ->
  exists b', expression_loop fuel true junk b (Z.of_nat (length bs)) ep Offset NamePosition (head x)
    = Some (Some (b', Z.of_nat (length (bs ++ entries es p x)))) /\ holds b' (bs ++ entries es p x) os.
Proof.
  induction es as [|c es IH]; intros fuel p b bs ep Offset Hs Hb Hl Hend Hep Hlt Hf;
    (destruct fuel as [|fuel]; [lia|]); pose proof Hs as (Hp & He & Hn); simpl in Hn; cbn [expression_loop];
    rewrite (proj2 (Z.ltb_lt ep _)), Hep by lia; rewrite length_chars.
  - rewrite (proj2 (Z.eqb_eq _ _)) by lia.
    destruct (push_holds b bs os (4 * p) _ Hb eq_refl (Hend eq_refl) ltac:(lia)) as (b' & E & Hb' & _).
    replace (2 * Z.of_nat (length Expression) * 2) with (4 * p) by lia. rewrite E. cbn [mbind option_bind].
    by exists b'.
  - rewrite (proj2 (Z.eqb_neq _ _)) by lia. destruct (suffix_at_cons _ _ _ Hs) as [Hc Hs'].
    assert (Hgrow : exists b1,
      (if BufferSize b - 3 <? Z.of_nat (length bs) then b ← grow junk b; Some (Some b) else Some (Some b)) = Some (Some b1) /\
      holds b1 bs os /\ Z.of_nat (length bs) + 3 <= BufferSize b1).
    { destruct (Z.ltb_spec (BufferSize b - 3) (Z.of_nat (length bs))).
      - destruct (grow_holds junk b bs os p) as (b1 & -> & Hb1 & HS); [done|lia|lia|lia|]. by exists b1.
      - exists b. split_and!; [done..|lia]. }
    destruct Hgrow as (b1 & -> & Hb1 & HS). cbn [mbind option_bind].
    replace (2 * p / 2) with p by (rewrite Z.mul_comm, Z.div_mul by lia; done).
    unfold rd at 1. rewrite (proj2 (Z.ltb_ge p 0)), Hc by lia. cbn [mbind option_bind entries].
    destruct (char_entries c p x) as [l f] eqn:E. pose proof (char_entries_length _ _ _ _ _ E) as [Hl2 _].
    destruct (expression_char_holds b1 bs os c p NamePosition x l f) as (b2 & -> & Hb2 & HS2); [done|lia|lia|done..|].
    cbn [mbind option_bind]. rewrite app_assoc. destruct f; [rewrite app_nil_r; by exists b2|].
    apply IH; [done|done|rewrite length_app; lia|rewrite length_app; lia|lia|rewrite length_chars; lia|simpl in Hf; lia].
Qed.

(** The expression loop from an old entry. *)
Lemma expression_loop_start b bs o :
  valid o -> holds b bs os -> bounded bs -> highest bs <= o ->
  exists b', expression_loop (S (length Expression)) true junk b (Z.of_nat (length bs)) ((o + 1) / 2) 0 NamePosition (head x)
    = Some (Some (b', Z.of_nat (length (bs ++ start o x)))) /\ holds b' (bs ++ start o x) os.
Proof.
  intros Ho Hb Hbd Hle. destruct (valid_position o Ho) as (Hr & Hp & Hop). unfold start.
  assert (E : (o + 1) / 2 = 2 * position o).
  { destruct Ho as [(k & -> & Hk)|(k & c & -> & Hk & _)]; unfold position; Z.div_mod_to_equations; lia. }
  rewrite E. destruct (Z.ltb_spec (position o) (Z.of_nat (length Expression))) as [Hlt|Hge].
  - apply expression_loop_holds; [by apply suffix_at_intro|done|apply Hbd; lia| |lia|rewrite length_chars; lia|].
    + intros Hnil. apply (f_equal length) in Hnil. rewrite length_drop in Hnil. simpl in Hnil. lia.
    + rewrite length_drop. lia.
  - exists b. cbn [expression_loop]. rewrite (proj2 (Z.ltb_ge _ _)) by (rewrite length_chars; lia).
    by rewrite app_nil_r.
Qed.

(** Old entries below [v] at the front. *)
Fixpoint drop_below (v : Z) (l : list Z) : list Z :=
  match l with
  | [] => []
  | o :: l' => if o <? v then drop_below v l' else l
  end.

Definition head_ge (l : list Z) (v : Z) : Prop := match l with [] => True | o :: _ => v <= o end.

Lemma skip_below_holds old v r2 fuel :
  old = os ++ r2 ->
  forall i, (i <= length os)%nat -> (length os - i < fuel)%nat ->
  exists j, skip_below fuel old (Z.of_nat (length os)) (Z.of_nat i) v = Some (Z.of_nat j) /\
    (i <= j <= length os)%nat /\ drop j os = drop_below v (drop i os).
Proof.
  intros ->. induction fuel as [|fuel IH]; intros i Hi Hf; [lia|]. cbn [skip_below].
  destruct (Z.ltb_spec (Z.of_nat i) (Z.of_nat (length os))) as [Hlt|].
  - destruct (lookup_lt_is_Some_2 os i) as [o Ho]; [lia|].
    rewrite (rd_app os r2 (Z.of_nat i) o) by (rewrite ?Nat2Z.id; done || lia). cbn [mbind option_bind].
    rewrite (drop_S os o i Ho). cbn [drop_below]. destruct (o <? v).
    + replace (Z.of_nat i + 1) with (Z.of_nat (S i)) by lia.
      destruct (IH (S i)) as (j & -> & Hj & E); [lia..|]. exists j. split_and!; [done|lia|lia|done].
    + exists i. split_and!; [done|lia|lia|by rewrite (drop_S os o i Ho)].
  - exists i. split_and!; [done|lia|lia|]. rewrite drop_ge by lia. done.
Qed.

Lemma process_drop_below v bs l : v <= highest bs -> process (drop_below v l) bs x = process l bs x.
Proof.
  intros Hv. induction l as [|o l IH]; [done|]. cbn [drop_below].
  destruct (Z.ltb_spec o v); [|done]. cbn [process]. rewrite (proj2 (Z.ltb_lt _ _)) by lia. done.
Qed.

Lemma drop_below_head v l : head_ge (drop_below v l) v.
Proof. induction l as [|o l IH]; [done|]. cbn [drop_below]. by destruct (Z.ltb_spec o v). Qed.

Lemma head_ge_drop_below v w l : StronglySorted Z.le l -> head_ge l w -> head_ge (drop_below v l) w.
Proof.
  intros Hs. revert w. induction Hs as [|o l Hs IH Hall]; intros w Hw; [done|]. cbn [drop_below].
  destruct (Z.ltb_spec o v); [|done]. apply IH. simpl in Hw. destruct l as [|o' l]; [done|].
  apply Forall_inv in Hall. simpl. lia.
Qed.

Lemma skip_loop_holds b bs todo :
  StronglySorted Z.le os -> holds b bs os ->
  forall fuel before i, bs = before ++ todo -> (i <= length os)%nat -> (length todo < fuel)%nat ->
  (forall v, v ∈ before -> head_ge (drop i os) v) ->
  exists j, skip_loop fuel b (Z.of_nat (length os)) (Z.of_nat i) (Z.of_nat (length before)) (Z.of_nat (length bs)) = Some (Z.of_nat j) /\
    (i <= j <= length os)%nat /\ (forall v, v ∈ bs -> head_ge (drop j os) v) /\
    process (drop j os) bs x = process (drop i os) bs x.
Proof.
  intros Hso Hb. pose proof Hb as ((r1 & r2 & E1 & E2) & _).
  induction todo as [|v todo IH]; intros fuel before i Hbs Hi Hf Hge; (destruct fuel as [|fuel]; [lia|]); cbn [skip_loop].
  - rewrite app_nil_r in Hbs. subst before. rewrite (proj2 (Z.ltb_ge (Z.of_nat (length bs)) _)), andb_false_r by lia.
    exists i. done.
  - destruct (Z.ltb_spec (Z.of_nat i) (Z.of_nat (length os))) as [Hlt|Hnone]; cbn [andb].
    2:{ exists i. split_and!; [done|lia|lia|intros w _; rewrite drop_ge by lia; done|done]. }
    rewrite (proj2 (Z.ltb_lt _ _)) by (rewrite Hbs, length_app; simpl; lia).
    rewrite E1, (rd_app bs r1 _ v); [|rewrite Nat2Z.id, Hbs; by apply list_lookup_middle|lia]. cbn [mbind option_bind].
    destruct (skip_below_holds (OldBackTracking b) v r2 (S (Z.to_nat (Z.of_nat (length os)))) E2 i) as (j & -> & Hj & Ej); [lia..|].
    cbn [mbind option_bind]. replace (Z.of_nat (length before) + 1) with (Z.of_nat (length (before ++ [v])))
      by (rewrite length_app; simpl; lia).
    assert (Hs : StronglySorted Z.le (drop i os)).
    { clear -Hso. revert i. induction Hso; intros [|i]; simpl; try constructor; auto. }
    destruct (IH fuel (before ++ [v]) j) as (k & -> & Hk & Hall & Eq); [by rewrite <- app_assoc|lia|simpl in Hf; lia| |].
    + intros w [Hw|Hw%list_elem_of_singleton]%elem_of_app; rewrite Ej; [|subst w; apply drop_below_head].
      apply head_ge_drop_below; [done|by apply Hge].
    + exists k. split_and!; [done|lia|lia|done|]. rewrite Eq, Ej. apply process_drop_below.
      rewrite Hbs. apply highest_ge, elem_of_app. right. left.
Qed.

(** The loop over the old entries computes [process]. *)
Lemma old_loop_holds fuel :
  entry_list os -> plain x ->
  forall i b bs, holds b bs os -> bounded bs -> (i <= length os)%nat -> (length os - i < fuel)%nat ->
  (forall v, v ∈ bs -> head_ge (drop i os) v) ->
  exists b', let r := process (drop i os) bs x in
    old_loop fuel true junk b (Z.of_nat (length os)) (Z.of_nat i) (Z.of_nat (length bs)) NamePosition (head x)
    = Some (Some (b', Z.of_nat (length r))) /\ holds b' r os /\ bounded r.
Proof.
  intros [Hso Hvo] Hpl. induction fuel as [|fuel IH]; intros i b bs Hb Hbd Hi Hf Hge; [lia|]. cbn [old_loop].
  destruct (Z.ltb_spec (Z.of_nat i) (Z.of_nat (length os))) as [Hlt|Hnone].
  2:{ exists b. rewrite drop_ge by lia. done. }
  destruct (lookup_lt_is_Some_2 os i) as [o Ho]; [lia|]. pose proof Hb as ((r1 & r2 & E1 & E2) & _).
  rewrite E2, (rd_app os r2 _ o) by (rewrite ?Nat2Z.id; done || lia). cbn [mbind option_bind].
  rewrite (drop_S os o i Ho) in Hge |- *.
  assert (Hv : valid o) by (apply Hvo; by eapply list_elem_of_lookup_2).
  assert (Hle : highest bs <= o).
  { apply highest_le; [apply valid_position in Hv; lia|]. intros v Hin. exact (Hge v Hin). }
  destruct (expression_loop_start b bs o Hv Hb Hbd Hle) as (b1 & -> & Hb1). cbn [mbind option_bind].
  set (bs' := bs ++ start o x) in *. rewrite Nat2Z.id.
  assert (Hbd' : bounded bs') by (by apply start_bounded).
  destruct (skip_loop_holds b1 bs' bs' Hso Hb1 (S (length bs')) [] (S i)) as (j & E & Hj & Hall & Eq);
    [done|lia|lia|by intros v ?%elem_of_nil|].
  change (Z.of_nat (length [])) with 0 in E. replace (Z.of_nat i + 1) with (Z.of_nat (S i)) by lia. rewrite E.
  cbn [mbind option_bind process]. rewrite (proj2 (Z.ltb_ge _ _)) by lia. fold bs'. rewrite <- Eq.
  apply IH; [done|done|lia|lia|done].
Qed.
End Loops.

(** ** The name loop *)

Lemma last_is_end_spec b bs os :
  holds b bs os -> entry_list os ->
  last_is_end b (Z.of_nat (length os)) = Some (bool_decide (4 * Z.of_nat (length Expression) ∈ os)).
Proof.
  intros ((r1 & r2 & _ & E2) & _) [Hs Hv]. unfold last_is_end.
  destruct (Z.ltb_spec 0 (Z.of_nat (length os))) as [Hpos|Hnil].
  - destruct (lookup_lt_is_Some_2 os (length os - 1)) as [o Ho]; [lia|].
    rewrite E2, (rd_app os r2 _ o); [|replace (Z.to_nat _) with (length os - 1)%nat by lia; done|lia].
    cbn [mbind option_bind]. f_equal. rewrite length_chars.
    assert (Hmax : forall v, v ∈ os -> v <= o).
    { intros v (i & Hi)%list_elem_of_lookup. clear -Hs Ho Hi. revert i Hi. induction Hs as [|w l Hs IH Hall]; intros i Hi; [done|].
      destruct l as [|w' l]; [destruct i; simpl in *; [injection Hi as <-; injection Ho as <-; lia|done]|].
      simpl in Ho. replace (length l - 0)%nat with (length l) in Ho by lia.
      destruct i as [|i]; simpl in Hi.
      - injection Hi as <-. rewrite Forall_forall in Hall. apply Hall, list_elem_of_In. by eapply (list_elem_of_lookup_2 _ (length l)).
      - eapply IH; [|exact Hi]. simpl. by replace (length l - 0)%nat with (length l) by lia. }
    apply eq_true_iff_eq. rewrite Z.eqb_eq, bool_decide_eq_true. split.
    + intros E. replace (4 * Z.of_nat (length Expression)) with o by lia. by eapply list_elem_of_lookup_2.
    + intros Hin. apply Hmax in Hin. apply list_elem_of_lookup_2, Hv, valid_position in Ho. lia.
  - destruct os; [|simpl in Hnil; lia]. by rewrite bool_decide_eq_false_2 by (by intros ?%elem_of_nil).
Qed.

Lemma holds_swap b bs os : holds b bs os -> holds (swap b) [] bs.
Proof.
  intros ((r1 & r2 & E1 & E2) & L1 & L2 & Ha). unfold holds, swap. simpl. split_and!; [|done..].
  exists (os ++ r2), r1. done.
Qed.

Lemma name_loop_holds junk x :
  Forall (fun a => FsRtlIsUnicodeCharacterWild (fold a) = false) x ->
  forall fuel b os k, x = drop k Name -> (k <= length Name)%nat -> holds b [] os -> entry_list os -> closed os ->
  (length x < fuel)%nat ->
  name_loop fuel true junk b (Z.of_nat (length os)) (Z.of_nat k) = Some (accepted os x).
Proof.
  intros Hpl. induction Hpl as [|a x Ha Hpl IH]; intros fuel b os k Hx Hk Hb Hos Hcl Hf; (destruct fuel as [|fuel]; [lia|]);
    cbn [name_loop]; rewrite !Nat2Z.id;
    (replace (Length Name / 2) with (Z.of_nat (length Name)) by (unfold Length; rewrite Z.mul_comm, Z.div_mul by lia; done));
    pose proof (f_equal length Hx) as Hlen; rewrite length_drop in Hlen; simpl in Hlen.
  - rewrite (proj2 (Z.leb_le _ _)) by lia. rewrite (last_is_end_spec b [] os Hb Hos). cbn [mbind option_bind].
    replace (Name !! k) with (@head Z []) by (simpl; symmetry; apply lookup_ge_None; lia).
    pose proof (accepted_end os Hos Hcl) as Hacc. destruct (bool_decide_reflect (4 * Z.of_nat (length Expression) ∈ os)) as [Hin|Hout].
    { f_equal. symmetry. apply Hacc. by left. }
    destruct (old_loop_holds junk (Z.of_nat k) [] os ltac:(lia) ltac:(by rewrite Nat2Z.id) (S (length os)) Hos I 0 b []) as (b' & E & Hb' & _);
      [done|apply bounded_nil|lia|lia|by intros v ?%elem_of_nil|].
    change (Z.of_nat 0) with 0 in E. change (Z.of_nat (length [])) with 0 in E. rewrite E.
    cbn [mbind option_bind]. rewrite drop_0 in *.
    rewrite (last_is_end_spec (swap b') [] (process os [] [])); [|by eapply holds_swap|by apply process_new].
    f_equal. apply eq_true_iff_eq. rewrite bool_decide_eq_true, Hacc. tauto.
  - rewrite (proj2 (Z.leb_gt _ _)) by lia. cbn [mbind option_bind].
    replace (Name !! k) with (head (a :: x)) by (simpl; rewrite <- (Nat.add_0_r k), <- lookup_drop, <- Hx; done).
    destruct (old_loop_holds junk (Z.of_nat k) (a :: x) os ltac:(lia) ltac:(by rewrite Nat2Z.id) (S (length os)) Hos Ha 0 b []) as (b' & E & Hb' & _);
      [done|apply bounded_nil|lia|lia|by intros v ?%elem_of_nil|].
    change (Z.of_nat 0) with 0 in E. change (Z.of_nat (length [])) with 0 in E. rewrite E.
    cbn [mbind option_bind]. rewrite drop_0 in *. replace (Z.of_nat k + 1) with (Z.of_nat (S k)) by lia.
    rewrite (IH fuel (swap b') (process os [] (a :: x)) (S k)).
    + f_equal. by apply process_step.
    + rewrite <- Nat.add_1_r, <- drop_drop, <- Hx. done.
    + lia.
    + by eapply holds_swap.
    + by apply process_new.
    + by apply process_closed.
    + simpl in Hf. lia.
Qed.

(** ** The shortcuts *)

Lemma wild_scan l : BACKSLASH ∉ l -> wild_before_backslash l = existsb FsRtlIsUnicodeCharacterWild l.
Proof.
  induction l as [|c l IH]; intros Hb; [done|]. rewrite not_elem_of_cons in Hb. destruct Hb as [Hc Hl].
  cbn [wild_before_backslash existsb]. rewrite (proj2 (Z.eqb_neq c BACKSLASH)) by congruence. cbn [negb].
  rewrite IH by done. by destruct (FsRtlIsUnicodeCharacterWild c).
Qed.

Lemma not_wild c :
  FsRtlIsUnicodeCharacterWild c = false -> c <> STAR /\ c <> DOS_STAR /\ c <> QM /\ c <> DOS_DOT /\ c <> DOS_QM.
Proof. intros Hc. split_and!; intros ->; done. Qed.

Lemma matches_literal lits :
  Forall (fun c => FsRtlIsUnicodeCharacterWild c = false) lits ->
  forall x, matches lits x = bool_decide (lits = map fold x).
Proof.
  induction 1 as [|c lits Hc _ IH]; intros x.
  - by destruct x.
  - destruct (not_wild c Hc) as (N1 & N2 & N3 & N4 & N5). cbn [matches].
    rewrite (proj2 (Z.eqb_neq c STAR)), (proj2 (Z.eqb_neq c DOS_STAR)), (proj2 (Z.eqb_neq c QM)),
      (proj2 (Z.eqb_neq c DOS_DOT)), (proj2 (Z.eqb_neq c DOS_QM)) by done.
    destruct x as [|a x]; [done|]. rewrite IH. simpl map.
    destruct (Z.eqb_spec c (fold a)) as [->|Hne]; cbn [andb].
    + apply bool_decide_ext. split; [congruence|]. by intros [= ->].
    + symmetry. apply bool_decide_eq_false. congruence.
Qed.

Lemma star_tail (f : list Z -> bool) L x :
  (forall y, f y = true -> length y = L) ->
  star_matches f x = if (length x <? L)%nat then false else f (drop (length x - L) x).
Proof.
  intros Hf. induction x as [|a x IH]; cbn [star_matches].
  - rewrite orb_false_r. destruct (Nat.ltb_spec (length (@nil Z)) L) as [Hlt|Hge].
    + destruct (f []) eqn:E; [|done]. apply Hf in E. simpl in *. lia.
    + by rewrite drop_nil.
  - rewrite IH. cbn [length]. destruct (Nat.ltb_spec (length x) L) as [Hlt|Hge].
    + rewrite orb_false_r. destruct (Nat.ltb_spec (S (length x)) L) as [Hlt'|Hge'].
      * destruct (f (a :: x)) eqn:E; [|done]. apply Hf in E. simpl in E. lia.
      * by replace (S (length x) - L)%nat with 0%nat by lia.
    + rewrite (proj2 (Nat.ltb_ge _ _)) by lia. replace (S (length x) - L)%nat with (S (length x - L)) by lia.
      cbn [drop]. destruct (f (a :: x)) eqn:E; [|done]. apply Hf in E. simpl in E. lia.
Qed.

Lemma tail_equal_spec lits :
  Forall (fun c => UpcaseTable c = c) lits ->
  forall x, length x = length lits -> tail_equal lits x = Some (bool_decide (lits = map UpcaseTable x)).
Proof.
  induction 1 as [|c lits Hc _ IH]; intros [|a x] Hl; try done. cbn [tail_equal]. rewrite Hc, Z.eqb_refl. cbn [negb].
  simpl in Hl. rewrite IH by lia. simpl map. destruct (Z.eqb_spec (UpcaseTable a) c) as [<-|Hne]; cbn [negb]; f_equal.
  - apply bool_decide_ext. split; [congruence|]. by intros [= ->].
  - symmetry. apply bool_decide_eq_false. congruence.
Qed.

(** [*] in front of characters without wild cards. *)
Lemma shortcut_spec lits :
  Forall (fun c => FsRtlIsUnicodeCharacterWild c = false) lits ->
  (IgnoreCase = true -> Forall (fun c => UpcaseTable c = c) lits) ->
  (if Length Name <? Length lits then Some false else
   let rest := drop (Z.to_nat ((Length Name - Length lits) / 2)) Name in
   if negb IgnoreCase then Some (bool_decide (lits = rest)) else tail_equal lits rest)
  = Some (matches (STAR :: lits) Name).
Proof.
  intros Hw Hup. change (matches (STAR :: lits) Name) with (star_matches (matches lits) Name).
  assert (Hlen : forall y, matches lits y = true -> length y = length lits).
  { intros y. rewrite matches_literal by done. rewrite bool_decide_eq_true. intros ->. by rewrite length_map. }
  rewrite (star_tail _ _ _ Hlen). unfold Length.
  destruct (Nat.ltb_spec (length Name) (length lits)) as [Hlt|Hge].
  { by rewrite (proj2 (Z.ltb_lt _ _)) by lia. }
  rewrite (proj2 (Z.ltb_ge _ _)) by lia.
  replace (Z.to_nat ((2 * Z.of_nat (length Name) - 2 * Z.of_nat (length lits)) / 2)) with (length Name - length lits)%nat
    by (rewrite <- Z.mul_sub_distr_l, Z.mul_comm, Z.div_mul by lia; lia).
  rewrite matches_literal by done. set (rest := drop _ Name). unfold fold. destruct IgnoreCase; cbn [negb].
  - apply tail_equal_spec; [by apply Hup|]. unfold rest. rewrite length_drop. lia.
  - by rewrite map_id.
Qed.

(** ** The function *)
Lemma private_spec junk :
  Expression <> [] -> Name <> [] -> BACKSLASH ∉ Expression ->
  Forall (fun a => FsRtlIsUnicodeCharacterWild (fold a) = false) Name ->
  (IgnoreCase = true -> Forall (fun c => UpcaseTable c = c) Expression) ->
  FsRtlIsNameInExpressionPrivate true junk = Some (matches Expression Name).
Proof.
  intros He Hn Hslash Hname Hup. unfold FsRtlIsNameInExpressionPrivate.
  assert (Hl1 : 1 <= Z.of_nat (length Expression)) by (destruct Expression; [done|simpl; lia]).
  assert (Hl2 : 1 <= Z.of_nat (length Name)) by (destruct Name; [done|simpl; lia]).
  rewrite (proj2 (Z.eqb_neq (Length Name) 0)), (proj2 (Z.eqb_neq (Length Expression) 0)) by (unfold Length; lia). cbn [orb].
  destruct (lookup_lt_is_Some_2 Expression 0) as [c Hc]; [lia|].
  unfold rd at 1. rewrite (proj2 (Z.ltb_ge 0 0)) by lia. change (Z.to_nat 0) with 0%nat. rewrite Hc. cbn [mbind option_bind].
  assert (HE : Expression = c :: drop 1 Expression) by (by destruct Expression; simpl in Hc; [done|injection Hc as ->]).
  set (lits := drop 1 Expression) in *.
  assert (Hloop : name_loop (S (S (length Name))) true junk (Buffers (replicate 16 junk) (replicate 16 0) 16 false) 1 0
    = Some (matches Expression Name)).
  { rewrite (name_loop_holds junk Name Hname _ _ [0] 0%nat).
    - unfold accepted, accepts, position. cbn [existsb]. change (Z.to_nat ((0 + 1) / 4)) with 0%nat. rewrite drop_0, orb_false_r. done.
    - by rewrite drop_0.
    - lia.
    - split_and!; [exists (replicate 16 junk), (replicate 15 0); done|done|done|by left].
    - split; [repeat constructor|]. intros v ->%list_elem_of_singleton. left. exists 0. lia.
    - unfold closed. rewrite !list_elem_of_singleton. lia.
    - lia. }
  destruct (Z.eqb_spec c STAR) as [Ec|Hc']; [|rewrite andb_false_r; exact Hloop].
  subst c. rewrite andb_true_r. cbn [andb]. destruct (Z.eqb_spec (Length Expression) 2) as [H2|H2].
  { assert (lits = []) as Hnil by (apply length_zero_iff_nil; unfold lits; rewrite length_drop; unfold Length in H2; lia).
    rewrite HE, Hnil. f_equal. symmetry. change (matches [STAR] Name) with (star_matches empty Name).
    clear. induction Name as [|a x IH]; [done|]. cbn [star_matches]. by rewrite IH, orb_true_r. }
  unfold FsRtlDoesNameContainWildCards. rewrite wild_scan.
  2:{ intros Hin%list_elem_of_In%in_rev%list_elem_of_In. apply Hslash. rewrite HE. by right. }
  destruct (existsb FsRtlIsUnicodeCharacterWild (rev lits)) eqn:Ew; cbn [negb]; [exact Hloop|].
  replace (Length Expression - 2) with (Length lits) by (unfold Length, lits; rewrite length_drop; lia).
  rewrite HE at 1. apply shortcut_spec.
  - apply Forall_forall. intros d Hd. destruct (FsRtlIsUnicodeCharacterWild d) eqn:Ed; [|done].
    rewrite <- Ew. symmetry. apply existsb_exists. exists d. split; [|done]. by apply in_rev in Hd.
  - intros Hi. specialize (Hup Hi). rewrite HE in Hup. by apply Forall_inv_tail in Hup.
Qed.
End Matching.

(** [FsRtlIsNameInExpression]; without a table the name is upcased with
    [RtlUpcaseUnicodeString], the character function [upcase] here, and compared as it is. *)
Definition FsRtlIsNameInExpression (upcase : Z -> Z) (Expression Name : list Z) (IgnoreCase : bool)
    (UpcaseTable : option (Z -> Z)) (pool_ok : bool) (junk : Z) : option bool :=
  match IgnoreCase, UpcaseTable with
  | true, None => FsRtlIsNameInExpressionPrivate (fun c => c) Expression (map upcase Name) false pool_ok junk
  | _, Some table => FsRtlIsNameInExpressionPrivate table Expression Name IgnoreCase pool_ok junk
  | false, None => FsRtlIsNameInExpressionPrivate (fun c => c) Expression Name false pool_ok junk
  end.

(** ** Dissecting a name *)

Lemma first_backslash_spec s : forall i skip,
  0 < i -> exists k, first_backslash s i skip = (i + Z.of_nat k, skip) /\ (k <= length s)%nat /\
    (BACKSLASH ∉ take k s) /\ (k < length s -> s !! k = Some BACKSLASH)%nat.
Proof.
  induction s as [|c s IH]; intros i skip Hi; cbn [first_backslash].
  - exists 0%nat. split_and!; [f_equal; lia|done|by intros ?%elem_of_nil|simpl; lia].
  - destruct (Z.eqb_spec c BACKSLASH) as [->|Hc].
    + rewrite (proj2 (Z.eqb_neq i 0)) by lia. exists 0%nat.
      split_and!; [f_equal; lia|simpl; lia|by intros ?%elem_of_nil|done].
    + destruct (IH (i + 1) skip ltac:(lia)) as (k & -> & Hk & Hno & Hat). exists (S k).
      split_and!; [f_equal; lia|simpl; lia| |simpl; intros; apply Hat; lia].
      cbn [take]. rewrite not_elem_of_cons. split; [congruence|done].
Qed.

Lemma equal_upcased_spec table a : forall b,
  length a = length b -> equal_upcased table a b = bool_decide (map table a = map table b).
Proof.
  induction a as [|x a IH]; intros [|y b] Hl; try done. cbn [equal_upcased map]. simpl in Hl. rewrite IH by lia.
  destruct (Z.eqb_spec (table x) (table y)) as [E|E]; cbn [negb].
  - apply bool_decide_ext. rewrite E. split; [congruence|]. by intros [= ->].
  - symmetry. apply bool_decide_eq_false. congruence.
Qed.

(** * Theorems *)

(** Two names are equal when their characters are, upcased when the case is ignored. *)
Theorem names_equal_iff table Name1 Name2 IgnoreCase :
  FsRtlAreNamesEqual table Name1 Name2 IgnoreCase
  = bool_decide (map (fold table IgnoreCase) Name1 = map (fold table IgnoreCase) Name2).
Proof.
  unfold FsRtlAreNamesEqual, fold. destruct (Z.eqb_spec (Length Name1) (Length Name2)) as [E|E]; cbn [negb].
  - destruct IgnoreCase; cbn [negb].
    + apply equal_upcased_spec. unfold Length in E. lia.
    + by rewrite !map_id.
  - symmetry. apply bool_decide_eq_false. intros H%(f_equal length). rewrite !length_map in H. unfold Length in E. lia.
Qed.

(** [FsRtlDissectName] takes a name apart at its first backslash but a leading one: the
    name is the leading backslash, if any, the first part, which has no backslash, and, if
    there is a remaining part, a backslash and that part. *)
Theorem dissect_name_parts Name (Hne : Name <> []) :
  exists lead first, (lead = [] \/ lead = [BACKSLASH]) /\ (BACKSLASH ∉ first) /\
    fst (FsRtlDissectName Name) = Some (Z.of_nat (length lead), Z.of_nat (length first)) /\
    match snd (FsRtlDissectName Name) with
    | None => Name = lead ++ first
    | Some (Start, Len) => exists rest, Name = lead ++ first ++ BACKSLASH :: rest /\
        Start = Z.of_nat (length (lead ++ first) + 1) /\ Len = Z.of_nat (length rest)
    end.
Proof.
  destruct Name as [|c s]; [done|]. unfold FsRtlDissectName.
  rewrite (proj2 (Z.eqb_neq _ 0)) by (unfold Length; simpl; lia). cbn [first_backslash].
  replace (Length (c :: s) / 2) with (Z.of_nat (length (c :: s))) by (unfold Length; rewrite Z.mul_comm, Z.div_mul by lia; done).
  change (0 =? 0) with true. cbv iota.
  destruct (Z.eqb_spec c BACKSLASH) as [->|Hc].
  - destruct (first_backslash_spec s (0 + 1) 1 ltac:(lia)) as (k & -> & Hk & Hno & Hat).
    exists [BACKSLASH], (take k s). split_and!; [by right|done|simpl; rewrite length_take; do 2 f_equal; lia|].
    cbn [snd length]. destruct (Z.ltb_spec (0 + 1 + Z.of_nat k) (Z.of_nat (S (length s)))) as [Hlt|Hge].
    + exists (drop (S k) s). rewrite <- (drop_S s BACKSLASH k) by (apply Hat; lia).
      split_and!; [simpl; by rewrite take_drop|simpl; rewrite length_take; lia|rewrite length_drop; lia].
    + rewrite take_ge by lia. done.
  - destruct (first_backslash_spec s (0 + 1) 0 ltac:(lia)) as (k & -> & Hk & Hno & Hat).
    exists [], (c :: take k s). split_and!; [by left|rewrite not_elem_of_cons; split; [congruence|done]|
      simpl; rewrite length_take; do 2 f_equal; lia|].
    cbn [snd length]. destruct (Z.ltb_spec (0 + 1 + Z.of_nat k) (Z.of_nat (S (length s)))) as [Hlt|Hge].
    + exists (drop (S k) s). simpl. rewrite <- (drop_S s BACKSLASH k) by (apply Hat; lia).
      split_and!; [by rewrite take_drop|rewrite length_take; lia|rewrite length_drop; lia].
    + rewrite take_ge by lia. done.
Qed.

Lemma dissect_name_parts_witness :
  FsRtlDissectName [BACKSLASH; 97; BACKSLASH; 98] = (Some (1, 1), Some (3, 1)) /\
  exists lead first, (lead = [] \/ lead = [BACKSLASH]) /\ (BACKSLASH ∉ first) /\
    Some (1, 1) = Some (Z.of_nat (length lead), Z.of_nat (length first)).
Proof.
  split; [vm_compute; reflexivity|].
  destruct (dissect_name_parts [BACKSLASH; 97; BACKSLASH; 98] ltac:(done)) as (lead & first & H1 & H2 & H3 & _).
  exists lead, first. split; [exact H1|]. split; [exact H2|]. exact H3.
Defined.

(** C3.  The matching loop with its back tracking buffers computes the reference matcher: for
    an expression of less than 16384 characters without a backslash, upcased when the case is
    ignored, and a name without wild cards, [FsRtlIsNameInExpressionPrivate] returns, stays
    inside its buffers, enlarges them at most once, and answers whether the name matches; of
    two strings one of which is empty it accepts only both empty. *)
Theorem name_in_expression_iff UpcaseTable Expression Name IgnoreCase junk
  (Hshort : 4 * Z.of_nat (length Expression) < 65536) (Hslash : BACKSLASH ∉ Expression)
  (Hname : Forall (fun a => FsRtlIsUnicodeCharacterWild (fold UpcaseTable IgnoreCase a) = false) Name)
  (Hup : IgnoreCase = true -> Forall (fun c => UpcaseTable c = c) Expression) :
  FsRtlIsNameInExpressionPrivate UpcaseTable Expression Name IgnoreCase true junk
  = Some (if bool_decide (Name = []) || bool_decide (Expression = [])
          then bool_decide (Name = []) && bool_decide (Expression = [])
          else matches UpcaseTable IgnoreCase Expression Name).
Proof.
  destruct (bool_decide_reflect (Name = [])) as [Hn|Hn]; [|destruct (bool_decide_reflect (Expression = [])) as [He|He]].
  - unfold FsRtlIsNameInExpressionPrivate. rewrite Hn. simpl. f_equal.
    destruct Expression; [done|]. apply Z.eqb_neq. unfold Length. simpl. lia.
  - unfold FsRtlIsNameInExpressionPrivate. rewrite He. rewrite orb_true_r, andb_true_r. f_equal.
    apply Z.eqb_neq. unfold Length. destruct Name; [done|]. simpl. lia.
  - cbn [orb]. by apply private_spec.
Qed.

(** Upper case for Latin letters. *)
Definition latin_upcase (c : Z) : Z := if (97 <=? c) && (c <=? 122) then c - 32 else c.

(** The expression [*.C] and the name "a.c". *)
Lemma name_in_expression_iff_witness :
  FsRtlIsNameInExpressionPrivate latin_upcase [STAR; DOT; 67] [97; DOT; 99] true true 0 = Some true.
Proof.
  rewrite (name_in_expression_iff latin_upcase [STAR; DOT; 67] [97; DOT; 99] true 0).
  - vm_compute. reflexivity.
  - vm_compute. reflexivity.
  - rewrite !not_elem_of_cons. split_and!; [done..|]. by intros ?%elem_of_nil.
  - repeat constructor.
  - intros _. repeat constructor.
Defined.
