(* ===== verification/HeapLogic.v ===== *)
(** * A memory of linked nodes and a separation logic for it

    The trees and tables of the run-time library are nodes that point to each other.
    Here memory maps the address of each scalar object (a pointer, a counter, a byte of
    a caller's data) to its value.  Code is a function of the type [M], which passes the
    memory on and fails on an access to an address that is not allocated.

    The assertions [hprop] on memories form a separation logic in which resources may be
    dropped; it is an instance of Iris's [bi], so that proofs use its proof mode.  The
    weakest precondition [wp m Phi] says that [m], run on the owned memory beside any
    other memory, returns without a failure, leaves the other memory alone, and makes
    [Phi] true of its result.  The tactics [wp_load], [wp_store], [wp_test],
    [wp_run] and [wp_call] execute a program symbolically. *)

From Stdlib Require Import ZArith Lia.
From stdpp Require Import gmap.
From iris.proofmode Require Import environments coq_tactics reduction proofmode.

#[local] Open Scope Z_scope.

(** ** Memory and programs *)

(** The allocated scalar objects, by address. *)
Abbreviation heap := (gmap Z Z).

(** A program: [None] is an access outside the allocated memory, or a loop that does
    not end. *)
Definition M (A : Type) : Type := heap -> option (A * heap).

Definition ret {A} (a : A) : M A := fun h => Some (a, h).

Definition bind {A B} (m : M A) (k : A -> M B) : M B := fun h =>
  match m h with
  | Some (a, h') => k a h'
  | None => None
  end.

Declare Scope heap_scope.
Delimit Scope heap_scope with heap.
Open Scope heap_scope.
Notation "x ← y ; z" := (bind y (fun x => z)) : heap_scope.
Notation "y ;; z" := (bind y (fun _ => z)) : heap_scope.

Definition load (l : Z) : M Z := fun h =>
  match h !! l with
  | Some v => Some (v, h)
  | None => None
  end.

Definition store (l v : Z) : M unit := fun h =>
  match h !! l with
  | Some _ => Some (tt, <[l := v]> h)
  | None => None
  end.

Definition fail {A} : M A := fun _ => None.

(** [iter fuel body a] repeats [body] while it returns [inl]. *)
Fixpoint iter {A B} (fuel : nat) (body : A -> M (A + B)) (a : A) : M B :=
  match fuel with
  | O => fail
  | S fuel' =>
      r ← body a;
      match r with
      | inl a' => iter fuel' body a'
      | inr b => ret b
      end
  end.

(** A loop that visits nodes: it may run once more than there are objects in memory. *)
Definition while {A B} (body : A -> M (A + B)) (a : A) : M B :=
  fun h => iter (S (size h)) body a h.

(** ** Assertions *)

(** A predicate on memories that holds of every larger memory. *)
Record hprop := HProp {
  hprop_holds :> heap -> Prop;
  hprop_closed h h' : hprop_holds h -> h ⊆ h' -> hprop_holds h';
}.

Inductive hprop_equiv' (P Q : hprop) : Prop :=
  { hprop_in_equiv : forall h, P h <-> Q h }.

#[local] Instance hprop_equiv : Equiv hprop := hprop_equiv'.

#[local] Instance hprop_equivalence : Equivalence (≡@{hprop}).
Proof. split; repeat destruct 1; constructor; naive_solver. Qed.

Canonical Structure hpropO := discreteO hprop.

Inductive hprop_entails (P Q : hprop) : Prop :=
  { hprop_in_entails : forall h, P h -> Q h }.

Program Definition hprop_pure (φ : Prop) : hprop := HProp (fun _ => φ) _.
Next Obligation. done. Qed.

Definition hprop_emp : hprop := hprop_pure True.

Program Definition hprop_and (P Q : hprop) : hprop := HProp (fun h => P h /\ Q h) _.
Next Obligation. naive_solver eauto using hprop_closed. Qed.

Program Definition hprop_or (P Q : hprop) : hprop := HProp (fun h => P h \/ Q h) _.
Next Obligation. naive_solver eauto using hprop_closed. Qed.

Program Definition hprop_impl (P Q : hprop) : hprop :=
  HProp (fun h => forall h', h ⊆ h' -> P h' -> Q h') _.
Next Obligation. intros P Q h h' HPQ ? h'' ?. apply HPQ. by etrans. Qed.

Program Definition hprop_forall {A} (Ψ : A -> hprop) : hprop :=
  HProp (fun h => forall x, Ψ x h) _.
Next Obligation. naive_solver eauto using hprop_closed. Qed.

Program Definition hprop_exist {A} (Ψ : A -> hprop) : hprop :=
  HProp (fun h => exists x, Ψ x h) _.
Next Obligation. naive_solver eauto using hprop_closed. Qed.

Program Definition hprop_sep (P Q : hprop) : hprop :=
  HProp (fun h => exists h1 h2, h = h1 ∪ h2 /\ h1 ##ₘ h2 /\ P h1 /\ Q h2) _.
Next Obligation.
  intros P Q h h' (h1 & h2 & -> & Hd & HP & HQ) Hs. exists h1, (h' ∖ h1).
  pose proof (map_union_subseteq_l h1 h2). assert (h1 ⊆ h') by (by etrans).
  split; [by rw map_difference_union|]. split; [by apply map_disjoint_difference_r1|].
  split; [done|]. apply (hprop_closed _ h2); [done|].
  apply map_subseteq_spec. intros i x Hi. apply lookup_difference_Some. split.
  - apply (lookup_weaken (h1 ∪ h2)); [|done].
    by apply lookup_union_Some_raw; right; split; [eapply map_disjoint_Some_r|].
  - by eapply map_disjoint_Some_r.
Qed.

Program Definition hprop_wand (P Q : hprop) : hprop :=
  HProp (fun h => forall h', h ##ₘ h' -> P h' -> Q (h ∪ h')) _.
Next Obligation.
  intros P Q h h2 HPQ Hs h' Hd HP. apply (hprop_closed _ (h ∪ h')).
  - apply HPQ; [|done]. by eapply map_disjoint_weaken_l.
  - by apply map_union_mono_r.
Qed.

Definition hprop_persistently (P : hprop) : hprop := hprop_pure (hprop_entails hprop_emp P).

Definition hprop_later (P : hprop) : hprop := P.

Lemma hprop_bi_mixin :
  BiMixin hprop_entails hprop_emp hprop_pure hprop_and hprop_or hprop_impl
    (@hprop_forall) (@hprop_exist) hprop_sep hprop_wand.
Proof.
  split.
  - split; [by constructor|]. intros P Q R [HPQ] [HQR]. constructor. auto.
  - intros P Q. split; [|intros [[?] [?]]; constructor; naive_solver].
    intros [HPQ]. split; constructor; naive_solver.
  - intros n φ1 φ2 Hφ. constructor. naive_solver.
  - intros n P P' [HP] Q Q' [HQ]. constructor. naive_solver.
  - intros n P P' [HP] Q Q' [HQ]. constructor. naive_solver.
  - intros n P P' [HP] Q Q' [HQ]. constructor. naive_solver.
  - intros A n Φ Φ' HΦ. constructor. intros h. split; intros H x; by apply HΦ.
  - intros A n Φ Φ' HΦ. constructor. intros h. split; intros [x H]; exists x; by apply HΦ.
  - intros n P P' [HP] Q Q' [HQ]. constructor. naive_solver.
  - intros n P P' [HP] Q Q' [HQ]. constructor. naive_solver.
  - by constructor.
  - intros φ P HP. constructor. intros h Hφ. by apply HP.
  - constructor. by intros h [??].
  - constructor. by intros h [??].
  - intros P Q R [HQ] [HR]. constructor. split; auto.
  - constructor. by left.
  - constructor. by right.
  - intros P Q R [HPR] [HQR]. constructor. intros h [?|?]; auto.
  - intros P Q R [HR]. constructor. intros h HP h' ? HQ. apply HR.
    split; [by eapply hprop_closed|done].
  - intros P Q R [HR]. constructor. intros h [HP HQ]. by apply (HR h HP h).
  - intros A P Ψ HΨ. constructor. intros h HP x. by apply HΨ.
  - intros A Ψ x. constructor. intros h H. apply H.
  - intros A Ψ x. constructor. intros h H. by exists x.
  - intros A Φ Q HΦ. constructor. intros h [x Hx]. by apply (HΦ x).
  - intros P P' Q Q' [HPQ] [HPQ']. constructor.
    intros h (h1 & h2 & -> & ? & ? & ?). exists h1, h2. auto.
  - intros P. constructor. intros h HP. exists ∅, h. rw left_id_L.
    split; [done|]. split; [apply map_disjoint_empty_l|]. by split.
  - intros P. constructor. intros h (h1 & h2 & -> & ? & _ & HP).
    eapply hprop_closed; [done|]. by apply map_union_subseteq_r.
  - intros P Q. constructor. intros h (h1 & h2 & -> & ? & ? & ?). exists h2, h1.
    split_and!; auto. by apply map_union_comm.
  - intros P Q R. constructor. intros h (h' & h3 & -> & Hd & (h1 & h2 & -> & ? & ? & ?) & ?).
    apply map_disjoint_union_l in Hd as [??]. exists h1, (h2 ∪ h3).
    split_and!; auto; [by rw assoc_L|by apply map_disjoint_union_r|]. by exists h2, h3.
  - intros P Q R [HR]. constructor. intros h HP h' ? HQ. apply HR. by exists h, h'.
  - intros P Q R [HR]. constructor. intros h (h1 & h2 & -> & ? & HP & HQ).
    by apply (HR h1 HP h2).
Qed.

Lemma hprop_persistently_mixin :
  BiPersistentlyMixin hprop_entails hprop_emp hprop_and (@hprop_exist) hprop_sep
    hprop_persistently.
Proof.
  eapply bi_persistently_mixin_discrete, hprop_bi_mixin; [done| |done].
  intros A Φ [H]. destruct (H ∅) as [x Hx]; [done|]. exists x. constructor.
  intros h _. apply (hprop_closed _ ∅); [done|apply map_empty_subseteq].
Qed.

Lemma hprop_later_mixin :
  BiLaterMixin hprop_entails hprop_pure hprop_or hprop_impl (@hprop_forall) (@hprop_exist)
    hprop_sep hprop_persistently hprop_later.
Proof. eapply bi_later_mixin_id, hprop_bi_mixin; done. Qed.

Canonical Structure hpropI : bi :=
  {| bi_ofe_mixin := ofe_mixin_of hprop;
     bi_bi_mixin := hprop_bi_mixin;
     bi_bi_persistently_mixin := hprop_persistently_mixin;
     bi_bi_later_mixin := hprop_later_mixin |}.

#[export] Instance hprop_affine : BiAffine hpropI | 0.
Proof. intros P. by constructor. Qed.

#[export] Instance hprop_pure_forall : BiPureForall hpropI.
Proof. intros A φ. constructor. intros h H a. apply (H a). Qed.

(** ** Ownership of memory *)

(** The object at [l] is owned and has the value [v]. *)
Program Definition points_to (l v : Z) : hprop := HProp (fun h => h !! l = Some v) _.
Next Obligation. intros l v h h' Hl Hs. exact (lookup_weaken _ _ _ _ Hl Hs). Qed.

Notation "l ↦ v" := (points_to l v) (at level 20, format "l  ↦  v") : heap_scope.

(** At least [n] objects are owned. *)
Program Definition cells (n : nat) : hprop := HProp (fun h => (n <= size h)%nat) _.
Next Obligation. intros n h h' Hn Hs. cbv beta in *. apply map_subseteq_size in Hs. lia. Qed.

Lemma points_to_excl l v w : l ↦ v -∗ l ↦ w -∗ False.
Proof.
  apply bi.entails_wand, bi.wand_intro_r. constructor. intros h (h1 & h2 & _ & Hd & H1 & H2).
  by apply (map_disjoint_spec h1 h2) with l v w in Hd.
Qed.

Lemma points_to_ne l k v w : l ↦ v -∗ k ↦ w -∗ ⌜l <> k⌝.
Proof. iIntros "Hl Hk" (->). iApply (points_to_excl with "Hl Hk"). Qed.

Lemma cells_0 : ⊢ cells 0.
Proof. constructor. intros h _. simpl. lia. Qed.

Lemma points_to_cells l v : l ↦ v ⊢ cells 1.
Proof.
  constructor. intros h Hl. simpl. assert (size h <> 0%nat); [|lia].
  apply map_size_non_empty_iff. intros ->. by apply lookup_empty_Some in Hl.
Qed.

Lemma cells_add n m : cells n -∗ cells m -∗ cells (n + m).
Proof.
  apply bi.entails_wand, bi.wand_intro_r. constructor.
  intros h (h1 & h2 & -> & Hd & H1 & H2). simpl in *. rw map_size_disj_union //. lia.
Qed.

Lemma cells_le n m : (m <= n)%nat -> cells n ⊢ cells m.
Proof. intros ?. constructor. simpl. lia. Qed.

(** ** Weakest preconditions *)

Program Definition wp {A} (m : M A) (Φ : A -> hprop) : hprop :=
  HProp (fun h => forall hf, h ##ₘ hf ->
           exists a h', m (h ∪ hf) = Some (a, h' ∪ hf) /\ h' ##ₘ hf /\ Φ a h') _.
Next Obligation.
  intros A m Φ h h2 Hwp Hs hf Hd. destruct (Hwp (h2 ∖ h ∪ hf)) as (a & h' & Hm & Hd' & HΦ).
  { apply map_disjoint_union_r. split; [by apply map_disjoint_difference_r1|].
    by eapply map_disjoint_weaken_l. }
  apply map_disjoint_union_r in Hd' as [Hd1 Hd2].
  exists a, (h' ∪ h2 ∖ h). rw -!assoc_L. rw assoc_L map_difference_union // in Hm.
  split; [done|]. split.
  - apply map_disjoint_union_l. split; [done|]. by apply map_disjoint_difference_l2.
  - eapply hprop_closed; [done|]. by apply map_union_subseteq_l.
Qed.

Section wp_rules.
Context {A B : Type}.
Implicit Types (m : M A) (Φ Ψ : A -> hprop).

Lemma wp_ret (a : A) Φ : Φ a ⊢ wp (ret a) Φ.
Proof. constructor. intros h HΦ hf Hd. by exists a, h. Qed.

Lemma wp_bind m (k : A -> M B) (Φ : B -> hprop) :
  wp m (fun a => wp (k a) Φ) ⊢ wp (bind m k) Φ.
Proof.
  constructor. intros h Hwp hf Hd. destruct (Hwp hf Hd) as (a & h' & Hm & Hd' & Hk).
  destruct (Hk hf Hd') as (b & h'' & Hk' & Hd'' & HΦ). exists b, h''.
  by rw /bind Hm.
Qed.

Lemma wp_wand m Φ Ψ : wp m Φ -∗ (∀ a, Φ a -∗ Ψ a) -∗ wp m Ψ.
Proof.
  apply bi.entails_wand, bi.wand_intro_r. constructor.
  intros h (h1 & h2 & -> & Hd & Hwp & HΦΨ) hf Hdf.
  apply map_disjoint_union_l in Hdf as [Hd1 Hd2].
  destruct (Hwp (h2 ∪ hf)) as (a & h' & Hm & Hd' & HΦ); [by apply map_disjoint_union_r|].
  apply map_disjoint_union_r in Hd' as [Hd3 Hd4].
  exists a, (h2 ∪ h'). rw -assoc_L Hm.
  split; [by rw assoc_L (map_union_comm h2 h')|].
  split; [by apply map_disjoint_union_l|]. by apply (HΦΨ a h').
Qed.

Lemma wp_mono m Φ Ψ : (forall a, Φ a ⊢ Ψ a) -> wp m Φ ⊢ wp m Ψ.
Proof.
  iIntros (H) "Hwp". iApply (wp_wand with "Hwp"). iIntros (a) "HΦ". by iApply H.
Qed.
End wp_rules.

Lemma wp_load l v (Φ : Z -> hprop) : l ↦ v -∗ (l ↦ v -∗ Φ v) -∗ wp (load l) Φ.
Proof.
  iIntros "Hl HΦ". iApply (wp_wand (load l) (fun w => ⌜w = v⌝ ∧ l ↦ v)%I with "[Hl]");
    last (iIntros (a) "[-> Hl]"; by iApply "HΦ").
  iStopProof. constructor. intros h Hl hf Hd. exists v, h.
  by rw /load (lookup_union_Some_l _ _ _ _ Hl).
Qed.

Lemma wp_store l v w (Φ : unit -> hprop) : l ↦ v -∗ (l ↦ w -∗ Φ tt) -∗ wp (store l w) Φ.
Proof.
  iIntros "Hl HΦ". iApply (wp_wand (store l w) (fun _ => l ↦ w)%I with "[Hl]");
    last (iIntros ([]) "Hl"; by iApply "HΦ").
  iStopProof. constructor. intros h Hl hf Hd. exists tt, (<[l := w]> h).
  rw /store (lookup_union_Some_l _ _ _ _ Hl) insert_union_l. split; [done|]. split.
  - apply map_disjoint_insert_l. split; [|done]. exact (map_disjoint_Some_l _ _ _ _ Hd Hl).
  - apply lookup_insert_eq.
Qed.

(** A program proved with its assertions does run: from a memory that satisfies the
    precondition it returns, in a memory that satisfies the postcondition. *)
Lemma wp_adequacy {A} (P : hprop) (m : M A) Φ h :
  (P ⊢ wp m Φ) -> P h -> exists a h', m h = Some (a, h') /\ Φ a h'.
Proof.
  intros [Hwp] HP. destruct (Hwp h HP ∅) as (a & h' & Hm & _ & HΦ).
  - apply map_disjoint_empty_r.
  - exists a, h'. by rw !right_id_L in Hm.
Qed.

(** Memory with the given objects. *)
Definition memory (cs : list (Z * Z)) : heap := list_to_map cs.

Lemma memory_holds cs (P : hprop) :
  NoDup cs.*1 -> (([∗ list] c ∈ cs, c.1 ↦ c.2) ⊢ P) -> P (memory cs).
Proof.
  intros Hnd [HP]. apply HP. clear P HP.
  induction cs as [|[l v] cs IH]; simpl; [done|]. apply NoDup_cons in Hnd as [Hl Hnd].
  assert (memory cs !! l = None) by by apply not_elem_of_list_to_map.
  exists {[l := v]}, (memory cs). rw /memory /= insert_union_singleton_l.
  split; [done|]. split; [by apply map_disjoint_singleton_l_2|].
  split; [apply lookup_singleton_eq|]. by apply IH.
Qed.

Section loops.
Context {A B : Type} (body : A -> M (A + B)) (I : nat -> A -> hprop) (Φ : B -> hprop).

(** What one round must do: end, or keep the invariant at a smaller measure. *)
Definition round_ok : Prop :=
  forall n a, I n a ⊢ wp (body a) (fun r =>
    match r with
    | inl a' => ∃ n', ⌜(n' < n)%nat⌝ ∗ I n' a'
    | inr b => Φ b
    end).

Lemma wp_iter fuel n a : round_ok -> (n < fuel)%nat -> I n a ⊢ wp (iter fuel body a) Φ.
Proof.
  intros Hround. revert n a. induction fuel as [|fuel IH]; intros n a Hn; [lia|].
  iIntros "HI". simpl. iApply wp_bind. iApply (wp_wand with "[HI]"); [by iApply Hround|].
  iIntros ([a'|b]) "HI"; last by iApply wp_ret.
  iDestruct "HI" as (n' Hn') "HI". iApply (IH with "HI"). lia.
Qed.

(** The loop ends when the measure is at most the number of objects owned. *)
Lemma wp_while n a : round_ok -> (I n a ⊢ cells n) -> I n a ⊢ wp (while body a) Φ.
Proof.
  intros Hround [Hcells]. constructor. intros h HI hf Hd.
  assert (n < S (size (h ∪ hf)))%nat as Hn.
  { specialize (Hcells h HI). simpl in Hcells. rw map_size_disj_union //. lia. }
  destruct (wp_iter _ n a Hround Hn) as [Hwp]. exact (Hwp h HI hf Hd).
Qed.
End loops.

(** ** Tactics *)

Lemma wp_ret_bind {A B} (a : A) (k : A -> M B) Φ : wp (k a) Φ ⊢ wp (bind (ret a) k) Φ.
Proof. etrans; [|apply wp_bind]. apply (wp_ret a (fun a => wp (k a) Φ)). Qed.

Lemma wp_bind_assoc {A B C} (m : M A) (k : A -> M B) (k' : B -> M C) Φ :
  wp (bind m (fun a => bind (k a) k')) Φ ⊢ wp (bind (bind m k) k') Φ.
Proof.
  constructor. intros h Hwp hf Hd. destruct (Hwp hf Hd) as (a & h' & Hm & Hd' & HΦ).
  exists a, h'. split; [|done]. rw -Hm /bind. by destruct (m _) as [[]|].
Qed.

Lemma wp_bind_split {A B C} (m : M A) (k : A -> M B) (k' : B -> M C) Φ :
  wp (bind (bind m k) k') Φ ⊢ wp (bind m (fun a => bind (k a) k')) Φ.
Proof.
  constructor. intros h Hwp hf Hd. destruct (Hwp hf Hd) as (a & h' & Hm & Hd' & HΦ).
  exists a, h'. split; [|done]. rw -Hm /bind. by destruct (m _) as [[]|].
Qed.

Lemma tac_wp_load {B} Δ i l v (k : Z -> M B) Φ :
  envs_lookup i Δ = Some (false, l ↦ v)%I ->
  envs_entails Δ (wp (k v) Φ) ->
  envs_entails Δ (wp (bind (load l) k) Φ).
Proof.
  rw envs_entails_unseal => Hi Hk. rw envs_lookup_split //. simpl.
  etrans; [|apply wp_bind]. iIntros "[Hl Henv]". iApply (wp_load with "Hl").
  iIntros "Hl". iApply Hk. by iApply "Henv".
Qed.

Lemma tac_wp_load_ret Δ i l v Φ :
  envs_lookup i Δ = Some (false, l ↦ v)%I ->
  envs_entails Δ (Φ v) ->
  envs_entails Δ (wp (load l) Φ).
Proof.
  rw envs_entails_unseal => Hi Hk. rw envs_lookup_split //. simpl.
  iIntros "[Hl Henv]". iApply (wp_load with "Hl").
  iIntros "Hl". iApply Hk. by iApply "Henv".
Qed.

Lemma tac_wp_store {B} Δ Δ' i l v w (k : unit -> M B) Φ :
  envs_lookup i Δ = Some (false, l ↦ v)%I ->
  envs_simple_replace i false (Esnoc Enil i (l ↦ w)) Δ = Some Δ' ->
  envs_entails Δ' (wp (k tt) Φ) ->
  envs_entails Δ (wp (bind (store l w) k) Φ).
Proof.
  rw envs_entails_unseal => Hi Hr Hk. rw envs_simple_replace_sound //. simpl.
  etrans; [|apply wp_bind]. iIntros "[Hl Henv]". iApply (wp_store with "Hl").
  iIntros "Hl". iApply Hk. iApply "Henv". by iSplitL.
Qed.

Lemma tac_wp_store_ret Δ Δ' i l v w Φ :
  envs_lookup i Δ = Some (false, l ↦ v)%I ->
  envs_simple_replace i false (Esnoc Enil i (l ↦ w)) Δ = Some Δ' ->
  envs_entails Δ' (Φ tt) ->
  envs_entails Δ (wp (store l w) Φ).
Proof.
  rw envs_entails_unseal => Hi Hr Hk. rw envs_simple_replace_sound //. simpl.
  iIntros "[Hl Henv]". iApply (wp_store with "Hl").
  iIntros "Hl". iApply Hk. iApply "Henv". by iSplitL.
Qed.

(** Brings the next command of a program to the front. *)
Ltac wp_head :=
  repeat lazymatch goal with
  | |- envs_entails _ (wp (bind (bind _ _) _) _) => iApply wp_bind_assoc; lazy beta
  | |- envs_entails _ (wp (bind (ret _) _) _) => iApply wp_ret_bind; lazy beta
  end.

Ltac wp_load :=
  wp_head;
  lazymatch goal with
  | |- envs_entails _ (wp (bind (load _) _) _) =>
      eapply tac_wp_load; [iAssumptionCore|lazy beta]
  | |- envs_entails _ (wp (load _) _) =>
      eapply tac_wp_load_ret; [iAssumptionCore|lazy beta]
  end; wp_head.

Ltac wp_store :=
  wp_head;
  lazymatch goal with
  | |- envs_entails _ (wp (bind (store _ _) _) _) =>
      eapply tac_wp_store; [iAssumptionCore|pm_reflexivity|lazy beta]
  | |- envs_entails _ (wp (store _ _) _) =>
      eapply tac_wp_store_ret; [iAssumptionCore|pm_reflexivity|lazy beta]
  end; wp_head.

Ltac wp_ret := wp_head; iApply wp_ret; lazy beta.

(** Decides a comparison that the hypotheses settle. *)
Ltac wp_test :=
  wp_head;
  lazymatch goal with
  | |- envs_entails _ (wp ?m _) =>
      match m with
      | context [?a =? ?b] =>
          first
            [ replace (a =? b) with true by (symmetry; apply Z.eqb_eq; congruence)
            | replace (a =? b) with false by (symmetry; apply Z.eqb_neq; congruence)
            | change (a =? b) with true
            | change (a =? b) with false ]
      end
  end; cbn [Datatypes.negb]; wp_head.

(** Runs a program up to the next call, or the next test that is open. *)
Ltac wp_run := repeat first [wp_load | wp_store | wp_test].

(** Goes on with the specification of a called function. *)
Ltac wp_call :=
  wp_head;
  lazymatch goal with
  | |- envs_entails _ (wp (bind _ _) _) => iApply wp_bind
  | _ => idtac
  end.

(** A decidable fact about closed terms. *)
Ltac decided := apply (bool_decide_unpack _); vm_compute; exact I.
