(* ===== verification/LinkTree.v ===== *)
(** * Binary trees of linked nodes

    The links that splay trees and balanced trees have in common ([RTL_SPLAY_LINKS] and
    the first fields of [RTL_BALANCED_LINKS] in sdk/include/ndk/rtltypes.h), the macros of
    sdk/include/ndk/rtlfuncs.h on them, and what it means that memory holds a tree.  The
    parent of the root is the root itself.

    [tree_at par t] owns the nodes of [t], whose root has the parent [par].  A position
    in a tree is a subtree and its context, a list of frames from the position to the
    root; [focus t c] owns a tree seen from a position.  [own p x] is what a client keeps
    beside the links of the node at [p]. *)

From Stdlib Require Import ZArith Lia.
From stdpp Require Import gmap.
From iris.proofmode Require Import proofmode.
From S2P Require Import HeapLogic.

#[local] Open Scope Z_scope.

(** ** The fields and macros *)

Definition NULL : Z := 0.

Definition Parent (Links : Z) : Z := Links.
Definition LeftChild (Links : Z) : Z := Links + 4.
Definition RightChild (Links : Z) : Z := Links + 8.

Definition RtlIsLeftChild (Links : Z) : M bool :=
  p ← load (Parent Links);
  l ← load (LeftChild p);
  ret (l =? Links).

Definition RtlIsRightChild (Links : Z) : M bool :=
  p ← load (Parent Links);
  r ← load (RightChild p);
  ret (r =? Links).

Definition RtlIsRoot (Links : Z) : M bool :=
  p ← load (Parent Links);
  ret (p =? Links).

Definition RtlInitializeSplayLinks (Links : Z) : M unit :=
  store (Parent Links) Links;;
  store (LeftChild Links) NULL;;
  store (RightChild Links) NULL.

Definition RtlInsertAsLeftChild (ParentLinks ChildLinks : Z) : M unit :=
  store (LeftChild ParentLinks) ChildLinks;;
  store (Parent ChildLinks) ParentLinks.

Definition RtlInsertAsRightChild (ParentLinks ChildLinks : Z) : M unit :=
  store (RightChild ParentLinks) ChildLinks;;
  store (Parent ChildLinks) ParentLinks.

(** ** Trees and positions *)

(** A tree of nodes, each with its address. *)
Inductive tree (A : Type) : Type :=
  | Leaf
  | Node (p : Z) (x : A) (l r : tree A).

Arguments Leaf {A}.
Arguments Node {A} p x l r.

(** The position is the left ([InL]) or the right ([InR]) child of the node at [q], whose
    other child is the tree given. *)
Inductive frame (A : Type) : Type :=
  | InL (q : Z) (x : A) (r : tree A)
  | InR (q : Z) (x : A) (l : tree A).

Arguments InL {A} q x r.
Arguments InR {A} q x l.

(** Concatenations of in-order lists, associated to the right. *)
Ltac norm_app := repeat progress (rw /= -?app_assoc).

Section trees.
Context {A : Type}.
Implicit Types (t l r : tree A) (f : frame A) (c : list (frame A)).

Definition addr t : Z :=
  match t with
  | Leaf => NULL
  | Node p _ _ _ => p
  end.

Definition is_node t : bool :=
  match t with
  | Leaf => false
  | Node _ _ _ _ => true
  end.

Fixpoint inorder t : list (Z * A) :=
  match t with
  | Leaf => []
  | Node p x l r => inorder l ++ (p, x) :: inorder r
  end.

Definition faddr f : Z :=
  match f with
  | InL q _ _ | InR q _ _ => q
  end.

Definition plug1 f t : tree A :=
  match f with
  | InL q x r => Node q x t r
  | InR q x l => Node q x l t
  end.

Definition plug t c : tree A := fold_left (fun t f => plug1 f t) c t.

(** The parent of the node at [p] in the context [c]. *)
Definition parent_of (p : Z) c : Z :=
  match c with
  | [] => p
  | f :: _ => faddr f
  end.

(** The elements of the context before and after the position. *)
Fixpoint before c : list (Z * A) :=
  match c with
  | [] => []
  | InL _ _ _ :: c' => before c'
  | InR q x l :: c' => before c' ++ inorder l ++ [(q, x)]
  end.

Fixpoint after c : list (Z * A) :=
  match c with
  | [] => []
  | InL q x r :: c' => (q, x) :: inorder r ++ after c'
  | InR _ _ _ :: c' => after c'
  end.

Definition is_left c : bool :=
  match c with
  | InL _ _ _ :: _ => true
  | _ => false
  end.

Definition is_right c : bool :=
  match c with
  | InR _ _ _ :: _ => true
  | _ => false
  end.

Lemma inorder_plug t c : inorder (plug t c) = before c ++ inorder t ++ after c.
Proof.
  revert t. induction c as [|[q x r|q x l] c IH]; intros t; simpl.
  - by rw app_nil_r.
  - rw IH. by norm_app.
  - rw IH. by norm_app.
Qed.

Lemma elem_of_plug n x l r c : (n, x) ∈ inorder (plug (Node n x l r) c).
Proof.
  rw inorder_plug. apply elem_of_app. right. apply elem_of_app. left. simpl.
  apply elem_of_app. right. apply list_elem_of_here.
Qed.

Lemma plug_app t c1 c2 : plug t (c1 ++ c2) = plug (plug t c1) c2.
Proof. apply fold_left_app. Qed.

Lemma addr_plug_node n x y l r c : addr (plug (Node n x l r) c) = addr (plug (Node n y l r) c).
Proof.
  destruct c as [|f c _] using rev_ind; [done|]. rw !plug_app. by destruct f.
Qed.

Lemma before_app c1 c2 : before (c1 ++ c2) = before c2 ++ before c1.
Proof.
  induction c1 as [|[] c1 IH]; simpl; [by rw app_nil_r|done|]. by rw IH -!app_assoc.
Qed.

Lemma after_app c1 c2 : after (c1 ++ c2) = after c1 ++ after c2.
Proof. induction c1 as [|[] c1 IH]; [done| |done]. by rw /= IH app_assoc. Qed.

(** Every element of a tree has a position. *)
Lemma position t xs n x ys :
  inorder t = xs ++ (n, x) :: ys ->
  exists l r c, t = plug (Node n x l r) c /\
    xs = before c ++ inorder l /\ ys = inorder r ++ after c.
Proof.
  revert xs ys. induction t as [|p y tl IHl tr IHr]; intros xs ys H; [by destruct xs|].
  simpl in H. apply app_eq_inv in H as [(k & Hl & Hk)|(k & -> & Hk)].
  - destruct k as [|e k]; simplify_eq/=.
    + exists tl, tr, []. rw app_nil_r in Hl. by rw Hl /= app_nil_r.
    + destruct (IHl _ _ Hl) as (l & r & c & -> & -> & ->).
      exists l, r, (c ++ [InL p y tr]). rw plug_app before_app after_app /= app_nil_r.
      by rw app_assoc.
  - destruct k as [|e k]; simpl in Hk; injection Hk as He Hk; simplify_eq.
    + exists tl, tr, []. by rw /= !app_nil_r.
    + destruct (IHr _ _ Hk) as (l & r & c & -> & -> & ->).
      exists l, r, (c ++ [InR p y tl]). rw plug_app before_app after_app /= app_nil_r.
      by rw -!app_assoc.
Qed.

(** The address of a neighbour, if there is one. *)
Definition naddr (o : option (Z * A)) : Z :=
  match o with
  | Some (p, _) => p
  | None => NULL
  end.

Lemma last_app_cons (xs ys : list (Z * A)) y : last (xs ++ y :: ys) = last (y :: ys).
Proof. rw last_app. by destruct (last (y :: ys)) eqn:E; [|apply last_None in E]. Qed.

Lemma inorder_node_nonempty p x l r : inorder (Node p x l r) <> [].
Proof. simpl. by destruct (inorder l). Qed.

Lemma last_inorder_right p x l r : r <> Leaf -> last (inorder (Node p x l r)) = last (inorder r).
Proof.
  intros Hr. simpl. rw last_app_cons. destruct r as [|q y a b]; [done|].
  pose proof (inorder_node_nonempty q y a b). by destruct (inorder (Node q y a b)).
Qed.

Lemma head_inorder_left p x l r : l <> Leaf -> head (inorder (Node p x l r)) = head (inorder l).
Proof.
  intros Hl. destruct l as [|q y a b]; [done|].
  pose proof (inorder_node_nonempty q y a b). cbn [inorder] in *.
  by destruct (inorder a ++ (q, y) :: inorder b).
Qed.

(** The first and the last node of a tree. *)
Lemma last_position p x l r :
  exists q y a c, Node p x l r = plug (Node q y a Leaf) c /\ after c = [].
Proof.
  revert p x l. induction r as [|p' x' l' _ r' IH]; intros p x l.
  - by exists p, x, l, [].
  - destruct (IH p' x' l') as (q & y & a & c & -> & Hc). exists q, y, a, (c ++ [InR p x l]).
    by rw plug_app after_app Hc.
Qed.

Lemma first_position p x l r :
  exists q y b c, Node p x l r = plug (Node q y Leaf b) c /\ before c = [].
Proof.
  revert p x r. induction l as [|p' x' l' IH r' _]; intros p x r.
  - by exists p, x, r, [].
  - destruct (IH p' x' r') as (q & y & b & c & -> & Hc). exists q, y, b, (c ++ [InL p x r]).
    by rw plug_app before_app Hc.
Qed.
End trees.

(** ** Ownership of a tree *)

Section tree_at.
Context {A : Type} (own : Z -> A -> hprop).
Implicit Types (t l r : tree A) (f : frame A) (c : list (frame A)).

(** The links of one node. *)
Definition links (p par l r : Z) : hprop :=
  (Parent p ↦ par ∗ LeftChild p ↦ l ∗ RightChild p ↦ r)%I.

Fixpoint tree_at (par : Z) t : hprop :=
  match t with
  | Leaf => emp%I
  | Node p x l r =>
      (⌜p <> NULL⌝ ∗ links p par (addr l) (addr r) ∗ own p x ∗ tree_at p l ∗ tree_at p r)%I
  end.

(** The context of a position whose subtree has the root [p]. *)
Fixpoint ctx_at (p : Z) c : hprop :=
  match c with
  | [] => emp%I
  | InL q x r :: c' =>
      (⌜q <> NULL⌝ ∗ links q (parent_of q c') p (addr r) ∗ own q x ∗ tree_at q r ∗ ctx_at q c')%I
  | InR q x l :: c' =>
      (⌜q <> NULL⌝ ∗ links q (parent_of q c') (addr l) p ∗ own q x ∗ tree_at q l ∗ ctx_at q c')%I
  end.

Definition focus t c : hprop := (ctx_at (addr t) c ∗ tree_at (parent_of (addr t) c) t)%I.

(** A whole tree: its root is its own parent. *)
Definition rooted t : hprop := tree_at (addr t) t.

Lemma focus_up t f c : focus t (f :: c) ⊣⊢ focus (plug1 f t) c.
Proof.
  unfold focus. destruct f as [q x r|q x l]; simpl; iSplit.
  - iIntros "[($ & $ & $ & $ & $) $]".
  - iIntros "($ & $ & $ & $ & $ & $)".
  - iIntros "[($ & $ & $ & $ & $) $]".
  - iIntros "($ & $ & $ & $ & $ & $)".
Qed.

Lemma focus_root t : focus t [] ⊣⊢ rooted t.
Proof. unfold focus. simpl. by rw left_id. Qed.

Lemma focus_plug t c : focus t c ⊣⊢ rooted (plug t c).
Proof.
  revert t. induction c as [|f c IH]; intros t; [apply focus_root|].
  rw focus_up IH //.
Qed.

(** A node that is owned beside a tree is not its root. *)
Lemma addr_ne par t p v : p <> NULL -> tree_at par t -∗ Parent p ↦ v -∗ ⌜addr t <> p⌝.
Proof.
  iIntros (Hp) "Ht Hp". destruct t as [|q x l r]; simpl; [by iPureIntro; intros <-|].
  iDestruct "Ht" as "(_ & (Hq & _) & _)". iApply (points_to_ne with "Hq Hp").
Qed.

Lemma tree_node_nonnull par p x l r : tree_at par (Node p x l r) ⊢ ⌜p <> NULL⌝.
Proof. iIntros "($ & _)". Qed.

Lemma parent_ne p v f c : Parent p ↦ v -∗ ctx_at p (f :: c) -∗ ⌜faddr f <> p⌝.
Proof.
  iIntros "Hp Hc". destruct f as [q x r|q x l]; simpl.
  - iDestruct "Hc" as "(_ & (Hq & _) & _)". iApply (points_to_ne with "Hq Hp").
  - iDestruct "Hc" as "(_ & (Hq & _) & _)". iApply (points_to_ne with "Hq Hp").
Qed.

Lemma ctx_cells p c : ctx_at p c ⊢ cells (length c).
Proof.
  revert p. induction c as [|[q x r|q x l] c IH]; intros p; simpl; [apply cells_0| |];
    iIntros "(_ & (Hq & _) & _ & _ & Hc)"; iApply (cells_add 1 with "[Hq] [Hc]");
    solve [by iApply points_to_cells | by iApply IH].
Qed.

(** The depth of a tree along its left and right spines. *)
Fixpoint spine (left : bool) t : nat :=
  match t with
  | Leaf => 0
  | Node _ _ l r => S (spine left (if left then l else r))
  end.

Lemma spine_cells left par t : tree_at par t ⊢ cells (spine left t).
Proof.
  revert par. induction t as [|p x l IHl r IHr]; intros par; simpl; [apply cells_0|].
  iIntros "(_ & (Hp & _) & _ & Hl & Hr)". iApply (cells_add 1 with "[Hp]").
  - by iApply points_to_cells.
  - destruct left; [by iApply IHl|by iApply IHr].
Qed.

(** The number of nodes. *)
Fixpoint tree_size t : nat :=
  match t with
  | Leaf => 0
  | Node _ _ l r => S (tree_size l + tree_size r)
  end.

Lemma tree_cells par t : tree_at par t ⊢ cells (tree_size t).
Proof.
  revert par. induction t as [|p x l IHl r IHr]; intros par; simpl; [apply cells_0|].
  iIntros "(_ & (Hp & _) & _ & Hl & Hr)". iApply (cells_add 1 with "[Hp]").
  - by iApply points_to_cells.
  - iApply (cells_add with "[Hl]"); [by iApply IHl|by iApply IHr].
Qed.

Lemma tree_cells_twice par t : tree_at par t ⊢ cells (2 * tree_size t).
Proof.
  revert par. induction t as [|p x l IHl r IHr]; intros par; simpl; [apply cells_0|].
  iIntros "(_ & (HP & HL & _) & _ & Hl & Hr)".
  iDestruct (points_to_cells with "HP") as "HP". iDestruct (points_to_cells with "HL") as "HL".
  iDestruct (IHl with "Hl") as "Hl". iDestruct (IHr with "Hr") as "Hr".
  iDestruct (cells_add with "HP HL") as "H". iDestruct (cells_add with "Hl Hr") as "H'".
  iDestruct (cells_add with "H H'") as "H". iApply (cells_le with "H"). lia.
Qed.

Lemma tree_size_inorder t : tree_size t = length (inorder t).
Proof. induction t as [|p x l IHl r IHr]; [done|]. rw /= length_app /= IHl IHr. lia. Qed.

(** The nodes of a tree are distinct. *)
Lemma parents_nodup (ps : list Z) : ([∗ list] p ∈ ps, ∃ v, Parent p ↦ v) ⊢ ⌜NoDup ps⌝.
Proof.
  induction ps as [|p ps IH]; simpl; iIntros "H"; [iPureIntro; constructor|].
  iDestruct "H" as "[[%v Hp] H]". iAssert ⌜p ∉ ps⌝%I as %Hp.
  - iIntros (Hin). apply list_elem_of_lookup in Hin as [i Hi].
    iDestruct (big_sepL_lookup with "H") as "[%w Hw]"; [exact Hi|].
    by iDestruct (points_to_ne with "Hp Hw") as %?.
  - iDestruct (IH with "H") as %Hps. iPureIntro. by constructor.
Qed.

Lemma tree_parents par t : tree_at par t ⊢ [∗ list] p ∈ (inorder t).*1, ∃ v, Parent p ↦ v.
Proof.
  revert par. induction t as [|p x l IHl r IHr]; intros par; simpl; [done|].
  iIntros "(_ & (Hp & _) & _ & Hl & Hr)". rw fmap_app big_sepL_app /=.
  iDestruct (IHl with "Hl") as "$". iDestruct (IHr with "Hr") as "$". by iExists _.
Qed.

Lemma tree_nodup par t : tree_at par t ⊢ ⌜NoDup (inorder t).*1⌝.
Proof. rw tree_parents. apply parents_nodup. Qed.

(** The data of a node can be changed in place. *)
Lemma focus_data n x l r c :
  focus (Node n x l r) c ⊢ own n x ∗ ∀ y, own n y -∗ focus (Node n y l r) c.
Proof. unfold focus. iIntros "($ & $ & $ & $ & $ & $)". by iIntros (y) "$". Qed.

(** ** The tests on a position *)

Section tests.
Context (p : Z) (x : A) (l r : tree A) (c : list (frame A)).

Lemma is_root_spec Φ :
  focus (Node p x l r) c -∗ (focus (Node p x l r) c -∗ Φ (bool_decide (c = []))) -∗
  wp (RtlIsRoot p) Φ.
Proof.
  unfold focus. simpl. iIntros "(Hc & %Hp & (HP & HL & HR) & Ht) HΦ".
  unfold RtlIsRoot. wp_load. wp_ret.
  iAssert ⌜(parent_of p c =? p) = bool_decide (c = [])⌝%I as %->.
  - destruct c as [|f c']; [by rw /= Z.eqb_refl|].
    iDestruct (parent_ne with "HP Hc") as %Hne. simpl. rw (proj2 (Z.eqb_neq _ _) Hne) //.
  - iApply "HΦ". by iFrame.
Qed.

Lemma is_left_spec Φ :
  focus (Node p x l r) c -∗ (focus (Node p x l r) c -∗ Φ (is_left c)) -∗
  wp (RtlIsLeftChild p) Φ.
Proof.
  unfold focus. simpl. iIntros "(Hc & %Hp & (HP & HL & HR) & Hx & Ht) HΦ".
  unfold RtlIsLeftChild. wp_load. destruct c as [|[q y r'|q y l'] c']; simpl.
  - wp_load. wp_ret. iDestruct "Ht" as "[Hl Hr]".
    iDestruct (addr_ne with "Hl HP") as %Hne; [done|].
    rw (proj2 (Z.eqb_neq _ _) Hne). iApply "HΦ". by iFrame.
  - iDestruct "Hc" as "(%Hq & (HPq & HLq & HRq) & Hc)". wp_load. wp_ret.
    rw Z.eqb_refl. iApply "HΦ". by iFrame.
  - iDestruct "Hc" as "(%Hq & (HPq & HLq & HRq) & Hy & Hl' & Hc)". wp_load. wp_ret.
    iDestruct (addr_ne with "Hl' HP") as %Hne; [done|].
    rw (proj2 (Z.eqb_neq _ _) Hne). iApply "HΦ". by iFrame.
Qed.

Lemma is_right_spec Φ :
  focus (Node p x l r) c -∗ (focus (Node p x l r) c -∗ Φ (is_right c)) -∗
  wp (RtlIsRightChild p) Φ.
Proof.
  unfold focus. simpl. iIntros "(Hc & %Hp & (HP & HL & HR) & Hx & Ht) HΦ".
  unfold RtlIsRightChild. wp_load. destruct c as [|[q y r'|q y l'] c']; simpl.
  - wp_load. wp_ret. iDestruct "Ht" as "[Hl Hr]".
    iDestruct (addr_ne with "Hr HP") as %Hne; [done|].
    rw (proj2 (Z.eqb_neq _ _) Hne). iApply "HΦ". by iFrame.
  - iDestruct "Hc" as "(%Hq & (HPq & HLq & HRq) & Hy & Hl' & Hc)". wp_load. wp_ret.
    iDestruct (addr_ne with "Hl' HP") as %Hne; [done|].
    rw (proj2 (Z.eqb_neq _ _) Hne). iApply "HΦ". by iFrame.
  - iDestruct "Hc" as "(%Hq & (HPq & HLq & HRq) & Hc)". wp_load. wp_ret.
    rw Z.eqb_refl. iApply "HΦ". by iFrame.
Qed.
End tests.
End tree_at.

(** ** Data and links apart *)

Lemma tree_at_data {A} (own : Z -> A -> hprop) par t :
  tree_at own par t ⊣⊢
  tree_at (fun _ _ => emp%I) par t ∗ [∗ list] y ∈ inorder t, own y.1 y.2.
Proof.
  revert par. induction t as [|p x l IHl r IHr]; intros par; simpl; [by rw left_id|].
  rw IHl IHr big_sepL_app /=. iSplit.
  - iIntros "($ & $ & $ & [$ $] & $ & $)".
  - iIntros "(($ & $ & _ & $ & $) & $ & $ & $)".
Qed.

(** What the nodes own while the data [x] of the node at [n] is in use elsewhere. *)
Definition lent {A} (own : Z -> A -> hprop) (n : Z) (x : A) (p : Z) (y : A) : hprop :=
  if decide (p = n) then ⌜y = x⌝%I else own p y.

Lemma lent_others {A} (own : Z -> A -> hprop) n x (xs : list (Z * A)) :
  n ∉ xs.*1 -> ([∗ list] y ∈ xs, lent own n x y.1 y.2) ⊣⊢ [∗ list] y ∈ xs, own y.1 y.2.
Proof.
  intros Hn. apply big_sepL_proper. intros i [p y] Hi. rw /lent /= decide_False //.
  intros ->. apply Hn. apply list_elem_of_fmap. exists (n, y).
  split; [done|]. by apply list_elem_of_lookup_2 in Hi.
Qed.

Lemma tree_at_lent {A} (own : Z -> A -> hprop) par t n x :
  NoDup (inorder t).*1 -> (n, x) ∈ inorder t ->
  tree_at own par t ⊣⊢ own n x ∗ tree_at (lent own n x) par t.
Proof.
  intros Hnd (xs1 & xs2 & Ht)%list_elem_of_split.
  rw (tree_at_data own) (tree_at_data (lent own n x)) Ht !big_sepL_app /=.
  rw Ht fmap_app fmap_cons in Hnd. apply NoDup_app in Hnd as (_ & H1 & [H2 _]%NoDup_cons).
  rw !lent_others //; [|by intros Hn; apply (H1 n Hn), list_elem_of_here].
  rw /lent /= decide_True //. iSplit.
  - iIntros "($ & $ & $ & $)". done.
  - iIntros "($ & $ & $ & _ & $)".
Qed.
