(* ===== verification/SplayTree.v ===== *)
(** * Splay trees: sdk/lib/rtl/splaytree.c

    The code of the whole file: [RtlSplay], [RtlDelete], [RtlDeleteNoSplay] with
    [SwapSplayLinks] and [FixupChildLinks], and the searches for neighbours in a tree and
    in a subtree.  This file proves the rotations and the neighbours; deletion is proved in
    SplayDelete.v.  The assertions on trees are those of LinkTree.v. *)

From Stdlib Require Import ZArith Lia.
From stdpp Require Import gmap.
From iris.proofmode Require Import proofmode.
From S2P Require Import HeapLogic LinkTree.

#[local] Open Scope Z_scope.

(** ** The code *)

(** [if (m) RtlParent(m) = Links], for a child link of [Links]. *)
Definition adopt (slot Links : Z) : M unit :=
  c ← load slot;
  if c =? NULL then ret tt else store (Parent c) Links.

Definition FixupChildLinks (Links : Z) (Root Left : bool) : M unit :=
  l ← load (LeftChild Links);
  (if l =? NULL then ret tt
   else l' ← load (LeftChild Links); RtlInsertAsLeftChild Links l');;
  r ← load (RightChild Links);
  (if r =? NULL then ret tt
   else r' ← load (RightChild Links); RtlInsertAsRightChild Links r');;
  if Root then ret tt
  else
    p ← load (Parent Links);
    if Left then RtlInsertAsLeftChild p Links else RtlInsertAsRightChild p Links.

(** [*Links] and [*Links = T], for a whole structure. *)
Definition load_links (Links : Z) : M (Z * Z * Z) :=
  p ← load (Parent Links);
  l ← load (LeftChild Links);
  r ← load (RightChild Links);
  ret (p, l, r).

Definition store_links (Links : Z) (T : Z * Z * Z) : M unit :=
  store (Parent Links) T.1.1;;
  store (LeftChild Links) T.1.2;;
  store (RightChild Links) T.2.

(** The inner block of [SwapSplayLinks]: [LinkB] is neither the root nor the parent of
    [LinkA]. *)
Definition swap_links (LinkA LinkB : Z) : M unit :=
  Ta ← load_links LinkA;
  Tb ← load_links LinkB;
  RootA ← RtlIsRoot LinkA;
  LeftA ← RtlIsLeftChild LinkA;
  LeftB ← RtlIsLeftChild LinkB;
  store_links LinkB Ta;;
  store_links LinkA Tb;;
  (if Tb.1.1 =? LinkA then
     (if RootA then ret tt
      else if LeftA then RtlInsertAsLeftChild Ta.1.1 LinkB
      else RtlInsertAsRightChild Ta.1.1 LinkB);;
     (if LeftB then RtlInsertAsLeftChild LinkB LinkA
      else RtlInsertAsRightChild LinkB LinkA)
   else ret tt);;
  FixupChildLinks LinkA false LeftB;;
  FixupChildLinks LinkB RootA LeftA;;
  if RootA then store (Parent LinkB) LinkB else ret tt.

Definition SwapSplayLinks (LinkA LinkB : Z) : M unit :=
  p ← load (Parent LinkA);
  exchange ← (if p =? LinkB then ret true else RtlIsRoot LinkB);
  if exchange then swap_links LinkB LinkA else swap_links LinkA LinkB.

(** [while (RtlRightChild(Child)) Child = RtlRightChild(Child);] and its mirror image. *)
Definition right_round (Child : Z) : M (Z + Z) :=
  r ← load (RightChild Child);
  ret (if r =? NULL then inr Child else inl r).

Definition rightmost (Child : Z) : M Z := while right_round Child.

Definition left_round (Child : Z) : M (Z + Z) :=
  l ← load (LeftChild Child);
  ret (if l =? NULL then inr Child else inl l).

Definition leftmost (Child : Z) : M Z := while left_round Child.

Definition RtlSubtreePredecessor (Links : Z) : M Z :=
  Child ← load (LeftChild Links);
  if Child =? NULL then ret NULL else rightmost Child.

Definition RtlSubtreeSuccessor (Links : Z) : M Z :=
  Child ← load (RightChild Links);
  if Child =? NULL then ret NULL else leftmost Child.

(** [while (RtlIsLeftChild(Child)) Child = RtlParent(Child);] and its mirror image. *)
Definition up_left_round (Child : Z) : M (Z + Z) :=
  left ← RtlIsLeftChild Child;
  if left then p ← load (Parent Child); ret (inl p) else ret (inr Child).

Definition up_right_round (Child : Z) : M (Z + Z) :=
  right ← RtlIsRightChild Child;
  if right then p ← load (Parent Child); ret (inl p) else ret (inr Child).

Definition RtlRealPredecessor (Links : Z) : M Z :=
  Child ← load (LeftChild Links);
  if Child =? NULL then
    Child ← while up_left_round Links;
    right ← RtlIsRightChild Child;
    if right then load (Parent Child) else ret NULL
  else rightmost Child.

Definition RtlRealSuccessor (Links : Z) : M Z :=
  Child ← load (RightChild Links);
  if Child =? NULL then
    Child ← while up_right_round Links;
    left ← RtlIsLeftChild Child;
    if left then load (Parent Child) else ret NULL
  else leftmost Child.

(** [N] takes the place of [G] below the parent of [G], or as the root. *)
Definition take_place (N G : Z) : M unit :=
  root ← RtlIsRoot G;
  if root then store (Parent N) N
  else
    p ← load (Parent G);
    store (Parent N) p;;
    left ← RtlIsLeftChild G;
    q ← load (Parent G);
    if left then store (LeftChild q) N else store (RightChild q) N.

(** [N] is the left child of [P]: cases 1 and 3 of the source, or [P] is the root. *)
Definition splay_left (N P G : Z) : M (Z + Z) :=
  pleft ← RtlIsLeftChild P;
  if pleft then
    (* Case 1 *)
    v ← load (RightChild N); store (LeftChild P) v;;
    w ← load (RightChild P); store (LeftChild G) w;;
    adopt (LeftChild P) P;;
    adopt (LeftChild G) G;;
    take_place N G;;
    store (RightChild N) P;; store (Parent P) N;;
    store (RightChild P) G;; store (Parent G) P;;
    ret (inl N)
  else
  pright ← RtlIsRightChild P;
  if pright then
    (* Case 3 *)
    v ← load (LeftChild N); store (RightChild G) v;;
    w ← load (RightChild N); store (LeftChild P) w;;
    adopt (RightChild G) G;;
    adopt (LeftChild P) P;;
    take_place N G;;
    store (LeftChild N) G;; store (Parent G) N;;
    store (RightChild N) P;; store (Parent P) N;;
    ret (inl N)
  else
    v ← load (RightChild N); store (LeftChild P) v;;
    adopt (LeftChild P) P;;
    store (Parent N) N;;
    store (RightChild N) P;; store (Parent P) N;;
    ret (inl N).

(** [N] is the right child of [P]: cases 2 and 4 of the source, or [P] is the root. *)
Definition splay_right (N P G : Z) : M (Z + Z) :=
  pright ← RtlIsRightChild P;
  if pright then
    (* Case 2 *)
    v ← load (LeftChild P); store (RightChild G) v;;
    w ← load (LeftChild N); store (RightChild P) w;;
    adopt (RightChild G) G;;
    adopt (RightChild P) P;;
    take_place N G;;
    store (LeftChild N) P;; store (Parent P) N;;
    store (LeftChild P) G;; store (Parent G) P;;
    ret (inl N)
  else
  pleft ← RtlIsLeftChild P;
  if pleft then
    (* Case 4 *)
    v ← load (LeftChild N); store (RightChild P) v;;
    w ← load (RightChild N); store (LeftChild G) w;;
    adopt (RightChild P) P;;
    adopt (LeftChild G) G;;
    take_place N G;;
    store (LeftChild N) P;; store (Parent G) N;;
    store (RightChild N) G;; store (Parent P) N;;
    ret (inl N)
  else
    v ← load (LeftChild N); store (RightChild P) v;;
    adopt (RightChild P) P;;
    store (Parent N) N;;
    store (LeftChild N) P;; store (Parent P) N;;
    ret (inl N).

(** One round of the loop of [RtlSplay]. *)
Definition splay_round (N : Z) : M (Z + Z) :=
  root ← RtlIsRoot N;
  if root then ret (inr N)
  else
    P ← load (Parent N);
    G ← load (Parent P);
    left ← RtlIsLeftChild N;
    if left then splay_left N P G else splay_right N P G.

Definition RtlSplay (Links : Z) : M Z := while splay_round Links.

(** Both child links are set: [RtlLeftChild(N) && RtlRightChild(N)]. *)
Definition has_two_children (N : Z) : M bool :=
  l ← load (LeftChild N);
  if l =? NULL then ret false else r ← load (RightChild N); ret (negb (r =? NULL)).

(** [!RtlLeftChild(N) && !RtlRightChild(N)]. *)
Definition has_no_child (N : Z) : M bool :=
  l ← load (LeftChild N);
  if l =? NULL then r ← load (RightChild N); ret (r =? NULL) else ret false.

(** The link of the parent [P] of [N] to [N] becomes [C]. *)
Definition replace_child (N P C : Z) : M unit :=
  left ← RtlIsLeftChild N;
  if left then store (LeftChild P) C else store (RightChild P) C.

(** The only child of [N]. *)
Definition only_child (N : Z) : M Z :=
  l ← load (LeftChild N);
  if l =? NULL then load (RightChild N) else load (LeftChild N).

(** [RtlDelete] once the node has at most one child. *)
Definition delete_single (N : Z) : M Z :=
  none ← has_no_child N;
  if none then
    root ← RtlIsRoot N;
    if root then ret NULL
    else
      P ← load (Parent N);
      replace_child N P NULL;;
      RtlSplay P
  else
    C ← only_child N;
    root ← RtlIsRoot N;
    if root then
      store (Parent C) C;;
      ret C
    else
      P ← load (Parent N);
      replace_child N P C;;
      store (Parent C) P;;
      RtlSplay P.

Definition RtlDelete (Links : Z) : M Z :=
  two ← has_two_children Links;
  (if two then
     SP ← RtlSubtreePredecessor Links;
     SwapSplayLinks SP Links
   else ret tt);;
  delete_single Links.

(** [Root] is the address of the caller's pointer to the root. *)
Definition delete_single_no_splay (N Root : Z) : M unit :=
  none ← has_no_child N;
  if none then
    root ← RtlIsRoot N;
    if root then store Root NULL
    else
      P ← load (Parent N);
      replace_child N P NULL
  else
    C ← only_child N;
    root ← RtlIsRoot N;
    if root then
      store (Parent C) C;;
      store Root C
    else
      P ← load (Parent N);
      replace_child N P C;;
      store (Parent C) P.

Definition RtlDeleteNoSplay (Links Root : Z) : M unit :=
  two ← has_two_children Links;
  (if two then
     SP ← RtlSubtreePredecessor Links;
     root ← RtlIsRoot Links;
     (if root then store Root SP else ret tt);;
     SwapSplayLinks SP Links
   else ret tt);;
  delete_single_no_splay Links Root.

(** ** What the operations do to a tree *)

(** Induction that takes two elements at a time, as splaying does. *)
Lemma list_pairs_ind {B} (Q : list B -> Prop) :
  Q [] -> (forall x, Q [x]) -> (forall x y l, Q l -> Q (x :: y :: l)) -> forall l, Q l.
Proof. intros H0 H1 H2. fix IH 1. intros [|x [|y l]]; [exact H0|apply H1|apply H2, IH]. Qed.

Section spec.
Context {A : Type}.
Implicit Types (t l r a b : tree A) (c : list (frame A)).

(** The tree after [RtlSplay] at the position of [t] in the context [c]. *)
Fixpoint splay t c : tree A :=
  match t with
  | Leaf => plug t c
  | Node n x a b =>
      match c with
      | [] => t
      | [InL p y r] => Node n x a (Node p y b r)
      | [InR p y l] => Node n x (Node p y l a) b
      | InL p y r :: InL g z r' :: c' => splay (Node n x a (Node p y b (Node g z r r'))) c'
      | InR p y l :: InR g z l' :: c' => splay (Node n x (Node p y (Node g z l' l) a) b) c'
      | InL p y r :: InR g z l' :: c' => splay (Node n x (Node g z l' a) (Node p y b r)) c'
      | InR p y l :: InL g z r' :: c' => splay (Node n x (Node p y l a) (Node g z b r')) c'
      end
  end.

Lemma splay_inorder c t : inorder (splay t c) = inorder (plug t c).
Proof.
  revert t. induction c as [|f|f g c IH] using list_pairs_ind; intros [|n x a b]; try done.
  - destruct f; norm_app; done.
  - destruct f as [p y r|p y l], g as [g z r'|g z l']; cbn [splay];
      rw IH !inorder_plug; norm_app; done.
Qed.

(** The node ends at the root, with the elements before and after it below. *)
Lemma splay_root c n x a b :
  exists a' b', splay (Node n x a b) c = Node n x a' b' /\
    inorder a' = before c ++ inorder a /\ inorder b' = inorder b ++ after c.
Proof.
  revert x a b. induction c as [|f|f g c IH] using list_pairs_ind; intros x a b.
  - exists a, b. by rw /= app_nil_r.
  - destruct f; simpl; eexists _, _; split; try done; by norm_app; rw ?app_nil_r.
  - destruct f as [p y r|p y l], g as [g z r'|g z l']; cbn [splay];
      match goal with |- context [splay (Node n x ?a ?b) c] =>
        destruct (IH x a b) as (a' & b' & -> & Ha & Hb) end;
      exists a', b'; rw Ha Hb; norm_app; done.
Qed.

Lemma splay_addr c n x a b : addr (splay (Node n x a b) c) = n.
Proof.
  revert x a b. induction c as [|f|f g c IH] using list_pairs_ind; intros x a b;
    [done|by destruct f|].
  destruct f as [p y r|p y l], g as [g z r'|g z l']; apply IH.
Qed.
End spec.

Section proofs.
Context {A : Type} (own : Z -> A -> hprop).
Implicit Types (t l r a b : tree A) (c : list (frame A)).

Abbreviation tree_at := (tree_at own).
Abbreviation ctx_at := (ctx_at own).
Abbreviation focus := (focus own).
Abbreviation rooted := (rooted own).

Lemma adopt_spec slot par Links t Φ :
  slot ↦ addr t -∗ tree_at par t -∗
  (slot ↦ addr t -∗ tree_at Links t -∗ Φ tt) -∗ wp (adopt slot Links) Φ.
Proof.
  iIntros "Hs Ht HΦ". unfold adopt. wp_load. destruct t as [|p x l r]; simpl.
  - wp_ret. by iApply ("HΦ" with "Hs").
  - iDestruct "Ht" as "(%Hp & (HP & HL & HR) & Ht)". wp_test. wp_store.
    iApply ("HΦ" with "Hs"). by iFrame.
Qed.

Lemma take_place_spec c n g v Φ :
  g <> NULL ->
  ctx_at g c -∗ Parent g ↦ parent_of g c -∗ Parent n ↦ v -∗
  (ctx_at n c -∗ Parent g ↦ parent_of g c -∗ Parent n ↦ parent_of n c -∗ Φ tt) -∗
  wp (take_place n g) Φ.
Proof.
  iIntros (Hg) "Hc Hg Hn HΦ". unfold take_place, RtlIsRoot. wp_load.
  destruct c as [|f c].
  - simpl. rw Z.eqb_refl. wp_store. iApply ("HΦ" with "Hc Hg Hn").
  - iDestruct (parent_ne with "Hg Hc") as %Hne. simpl. wp_test. wp_load. wp_store.
    unfold RtlIsLeftChild. wp_load. destruct f as [q y r|q y l]; simpl.
    + iDestruct "Hc" as "(%Hq & (HP & HL & HR) & Hc)". wp_load. wp_load. rw Z.eqb_refl.
      wp_store. iApply ("HΦ" with "[Hc HP HL HR] Hg Hn"). by iFrame.
    + iDestruct "Hc" as "(%Hq & (HP & HL & HR) & Hy & Hl & Hc)".
      iDestruct (addr_ne with "Hl Hg") as %Hne'; [done|]. wp_load. wp_load. wp_test.
      wp_store. iApply ("HΦ" with "[Hc HP HL HR Hl Hy] Hg Hn"). by iFrame.
Qed.

Lemma splay_round_root n x a b Φ :
  focus (Node n x a b) [] -∗ (focus (Node n x a b) [] -∗ Φ (inr n)) -∗ wp (splay_round n) Φ.
Proof.
  iIntros "Hf HΦ". unfold splay_round. iApply wp_bind. iApply (is_root_spec with "Hf").
  iIntros "Hf". simpl. wp_ret. by iApply "HΦ".
Qed.

(** A round at a position whose parent is the root. *)
Lemma splay_zig_left n x a b p y r Φ :
  focus (Node n x a b) [InL p y r] -∗
  (rooted (Node n x a (Node p y b r)) -∗ Φ (inl n)) -∗ wp (splay_round n) Φ.
Proof.
  iIntros "Hf HΦ". unfold focus, rooted. simpl.
  iDestruct "Hf" as "((%Hp & (HPp & HLp & HRp) & Hy & Hr & _) &
    %Hn & (HPn & HLn & HRn) & Hx & Ha & Hb)".
  iDestruct (points_to_ne with "HPn HPp") as %Hnp.
  iDestruct (addr_ne with "Hr HPp") as %Hrp; [done|].
  unfold splay_round, splay_left, splay_right, RtlIsRoot, RtlIsLeftChild, RtlIsRightChild. wp_run.
  wp_call. iApply (adopt_spec with "HLp Hb"). iIntros "HLp Hb".
  wp_run. wp_ret. iApply "HΦ". by iFrame.
Qed.

Lemma splay_zig_right n x a b p y l Φ :
  focus (Node n x a b) [InR p y l] -∗
  (rooted (Node n x (Node p y l a) b) -∗ Φ (inl n)) -∗ wp (splay_round n) Φ.
Proof.
  iIntros "Hf HΦ". unfold focus, rooted. simpl.
  iDestruct "Hf" as "((%Hp & (HPp & HLp & HRp) & Hy & Hl & _) &
    %Hn & (HPn & HLn & HRn) & Hx & Ha & Hb)".
  iDestruct (points_to_ne with "HPn HPp") as %Hnp.
  iDestruct (addr_ne with "Hl HPp") as %Hlp; [done|].
  iDestruct (addr_ne with "Hl HPn") as %Hln; [done|].
  unfold splay_round, splay_left, splay_right, RtlIsRoot, RtlIsLeftChild, RtlIsRightChild. wp_run.
  wp_call. iApply (adopt_spec with "HRp Ha"). iIntros "HRp Ha".
  wp_run. wp_ret. iApply "HΦ". by iFrame.
Qed.

(** Rounds at a position that has a grandparent: cases 1 to 4 of the source. *)
Lemma splay_case_1 n x a b p y r g z r' c Φ :
  focus (Node n x a b) (InL p y r :: InL g z r' :: c) -∗
  (focus (Node n x a (Node p y b (Node g z r r'))) c -∗ Φ (inl n)) -∗
  wp (splay_round n) Φ.
Proof.
  iIntros "Hf HΦ". unfold focus. simpl.
  iDestruct "Hf" as "((%Hp & (HPp & HLp & HRp) & Hy & Hr &
    %Hg & (HPg & HLg & HRg) & Hz & Hr' & Hc) &
    %Hn & (HPn & HLn & HRn) & Hx & Ha & Hb)".
  iDestruct (points_to_ne with "HPn HPp") as %Hnp.
  iDestruct (points_to_ne with "HPp HPg") as %Hpg.
  unfold splay_round, splay_left, splay_right, RtlIsRoot, RtlIsLeftChild, RtlIsRightChild. wp_run.
  wp_call. iApply (adopt_spec with "HLp Hb"). iIntros "HLp Hb".
  wp_call. iApply (adopt_spec with "HLg Hr"). iIntros "HLg Hr".
  wp_call. iApply (take_place_spec with "Hc HPg HPn"); [done|]. iIntros "Hc HPg HPn".
  wp_run. wp_ret. iApply "HΦ". by iFrame.
Qed.

Lemma splay_case_2 n x a b p y l g z l' c Φ :
  focus (Node n x a b) (InR p y l :: InR g z l' :: c) -∗
  (focus (Node n x (Node p y (Node g z l' l) a) b) c -∗ Φ (inl n)) -∗
  wp (splay_round n) Φ.
Proof.
  iIntros "Hf HΦ". unfold focus. simpl.
  iDestruct "Hf" as "((%Hp & (HPp & HLp & HRp) & Hy & Hl &
    %Hg & (HPg & HLg & HRg) & Hz & Hl' & Hc) &
    %Hn & (HPn & HLn & HRn) & Hx & Ha & Hb)".
  iDestruct (points_to_ne with "HPn HPp") as %Hnp.
  iDestruct (addr_ne with "Hl HPn") as %Hln; [done|].
  unfold splay_round, splay_left, splay_right, RtlIsRoot, RtlIsLeftChild, RtlIsRightChild. wp_run.
  wp_call. iApply (adopt_spec with "HRg Hl"). iIntros "HRg Hl".
  wp_call. iApply (adopt_spec with "HRp Ha"). iIntros "HRp Ha".
  wp_call. iApply (take_place_spec with "Hc HPg HPn"); [done|]. iIntros "Hc HPg HPn".
  wp_run. wp_ret. iApply "HΦ". by iFrame.
Qed.

Lemma splay_case_3 n x a b p y r g z l' c Φ :
  focus (Node n x a b) (InL p y r :: InR g z l' :: c) -∗
  (focus (Node n x (Node g z l' a) (Node p y b r)) c -∗ Φ (inl n)) -∗
  wp (splay_round n) Φ.
Proof.
  iIntros "Hf HΦ". unfold focus. simpl.
  iDestruct "Hf" as "((%Hp & (HPp & HLp & HRp) & Hy & Hr &
    %Hg & (HPg & HLg & HRg) & Hz & Hl' & Hc) &
    %Hn & (HPn & HLn & HRn) & Hx & Ha & Hb)".
  iDestruct (points_to_ne with "HPn HPp") as %Hnp.
  iDestruct (addr_ne with "Hl' HPp") as %Hlp; [done|].
  unfold splay_round, splay_left, splay_right, RtlIsRoot, RtlIsLeftChild, RtlIsRightChild. wp_run.
  wp_call. iApply (adopt_spec with "HRg Ha"). iIntros "HRg Ha".
  wp_call. iApply (adopt_spec with "HLp Hb"). iIntros "HLp Hb".
  wp_call. iApply (take_place_spec with "Hc HPg HPn"); [done|]. iIntros "Hc HPg HPn".
  wp_run. wp_ret. iApply "HΦ". by iFrame.
Qed.

Lemma splay_case_4 n x a b p y l g z r' c Φ :
  focus (Node n x a b) (InR p y l :: InL g z r' :: c) -∗
  (focus (Node n x (Node p y l a) (Node g z b r')) c -∗ Φ (inl n)) -∗
  wp (splay_round n) Φ.
Proof.
  iIntros "Hf HΦ". unfold focus. simpl.
  iDestruct "Hf" as "((%Hp & (HPp & HLp & HRp) & Hy & Hl &
    %Hg & (HPg & HLg & HRg) & Hz & Hr' & Hc) &
    %Hn & (HPn & HLn & HRn) & Hx & Ha & Hb)".
  iDestruct (points_to_ne with "HPn HPp") as %Hnp.
  iDestruct (addr_ne with "Hl HPn") as %Hln; [done|].
  iDestruct (addr_ne with "Hr' HPp") as %Hrp; [done|].
  unfold splay_round, splay_left, splay_right, RtlIsRoot, RtlIsLeftChild, RtlIsRightChild. wp_run.
  wp_call. iApply (adopt_spec with "HRp Ha"). iIntros "HRp Ha".
  wp_call. iApply (adopt_spec with "HLg Hb"). iIntros "HLg Hb".
  wp_call. iApply (take_place_spec with "Hc HPg HPn"); [done|]. iIntros "Hc HPg HPn".
  wp_run. wp_ret. iApply "HΦ". by iFrame.
Qed.

(** The loop invariant: a position of [n] from which splaying gives [T]. *)
Definition splay_inv (n : Z) (T : tree A) (Φ : Z -> hprop) (k : nat) (m : Z) : hprop :=
  (∃ x a b c, ⌜m = n /\ k = length c /\ splay (Node n x a b) c = T⌝ ∗
     focus (Node n x a b) c ∗ (rooted T -∗ Φ n))%I.

Lemma splay_round_inv n T Φ : round_ok splay_round (splay_inv n T Φ) Φ.
Proof.
  intros k m. iIntros "(%x & %a & %b & %c & (-> & -> & %HT) & Hf & HΦ)".
  destruct c as [|f [|g c]]; simpl in HT.
  - subst T. iApply (splay_round_root with "Hf"). iIntros "Hf". iApply "HΦ".
    by iApply focus_root.
  - destruct f as [p y r|p y l]; subst T;
      [iApply (splay_zig_left with "Hf") | iApply (splay_zig_right with "Hf")];
      (iIntros "Hf"; iExists 0%nat; iSplit; [iPureIntro; simpl; lia|]);
      iExists _, _, _, []; rw focus_root; by iFrame.
  - destruct f as [p y r|p y l], g as [g z r'|g z l'];
      [ iApply (splay_case_1 with "Hf") | iApply (splay_case_3 with "Hf")
      | iApply (splay_case_4 with "Hf") | iApply (splay_case_2 with "Hf") ];
      (iIntros "Hf"; iExists (length c); iSplit; [iPureIntro; simpl; lia|]);
      iExists _, _, _, c; by iFrame.
Qed.

(** [RtlSplay] moves the node to the root by the rotations of [splay]. *)
Lemma RtlSplay_spec n x a b c Φ :
  focus (Node n x a b) c -∗ (rooted (splay (Node n x a b) c) -∗ Φ n) -∗ wp (RtlSplay n) Φ.
Proof.
  iIntros "Hf HΦ".
  iApply (wp_while _ (splay_inv n (splay (Node n x a b) c) Φ) Φ (length c)).
  - apply splay_round_inv.
  - iIntros "(%x' & %a' & %b' & %c' & (_ & -> & _) & (Hc & _) & _)". by iApply ctx_cells.
  - iExists x, a, b, c. by iFrame.
Qed.

(** ** Neighbours *)

(** The loops of [rightmost] and [leftmost]: at a node of the tree [W] below which the
    last (first) element is at [q]. *)
Definition down_inv (left : bool) (q : Z) (W : tree A) (Φ : Z -> hprop)
    (k : nat) (m : Z) : hprop :=
  (∃ p x l r c, ⌜m = p /\ k = spine left (Node p x l r) /\
       naddr ((if left then head else last) (inorder (Node p x l r))) = q /\
       plug (Node p x l r) c = W⌝ ∗
     focus (Node p x l r) c ∗ (rooted W -∗ Φ q))%I.

Lemma down_inv_cells left q W Φ k m : down_inv left q W Φ k m ⊢ cells k.
Proof.
  iIntros "(%p & %x & %l & %r & %c & (_ & -> & _) & [_ Ht] & _)". by iApply spine_cells.
Qed.

Lemma right_round_inv q W Φ : round_ok right_round (down_inv false q W Φ) Φ.
Proof.
  intros k m. iIntros "(%p & %x & %l & %r & %c & (-> & -> & <- & <-) & Hf & HΦ)".
  iDestruct "Hf" as "(Hc & %Hp & (HP & HL & HR) & Hx & Hl & Hr)". unfold right_round. wp_load.
  destruct r as [|q y a b].
  - wp_ret. rw -focus_plug /= last_snoc. iApply "HΦ". by iFrame.
  - iDestruct (tree_node_nonnull with "Hr") as %Hq. simpl. wp_test. wp_ret.
    iExists (spine false (Node q y a b)). iSplit; [iPureIntro; simpl; lia|].
    iExists q, y, a, b, (InR p x l :: c). iFrame. iSplit; [|done].
    iPureIntro. split_and!; try done. by rw -(last_inorder_right p x l).
Qed.

Lemma left_round_inv q W Φ : round_ok left_round (down_inv true q W Φ) Φ.
Proof.
  intros k m. iIntros "(%p & %x & %l & %r & %c & (-> & -> & <- & <-) & Hf & HΦ)".
  iDestruct "Hf" as "(Hc & %Hp & (HP & HL & HR) & Hx & Hl & Hr)". unfold left_round. wp_load.
  destruct l as [|q y a b].
  - wp_ret. rw -focus_plug. iApply "HΦ". by iFrame.
  - iDestruct (tree_node_nonnull with "Hl") as %Hq. simpl. wp_test. wp_ret.
    iExists (spine true (Node q y a b)). iSplit; [iPureIntro; simpl; lia|].
    iExists q, y, a, b, (InL p x r :: c). iFrame. iSplit; [|done].
    iPureIntro. split_and!; try done. by rw -(head_inorder_left p x _ r).
Qed.

Lemma rightmost_spec p x l r c Φ :
  focus (Node p x l r) c -∗
  (focus (Node p x l r) c -∗ Φ (naddr (last (inorder (Node p x l r))))) -∗
  wp (rightmost p) Φ.
Proof.
  rw focus_plug. iIntros "Hf HΦ".
  iApply (wp_while _ (down_inv false _ (plug (Node p x l r) c) Φ) Φ).
  - apply right_round_inv.
  - apply down_inv_cells.
  - iExists p, x, l, r, c. rw focus_plug. by iFrame.
Qed.

Lemma leftmost_spec p x l r c Φ :
  focus (Node p x l r) c -∗
  (focus (Node p x l r) c -∗ Φ (naddr (head (inorder (Node p x l r))))) -∗
  wp (leftmost p) Φ.
Proof.
  rw focus_plug. iIntros "Hf HΦ".
  iApply (wp_while _ (down_inv true _ (plug (Node p x l r) c) Φ) Φ).
  - apply left_round_inv.
  - apply down_inv_cells.
  - iExists p, x, l, r, c. rw focus_plug. by iFrame.
Qed.

Lemma subtree_predecessor_spec p x l r c Φ :
  focus (Node p x l r) c -∗ (focus (Node p x l r) c -∗ Φ (naddr (last (inorder l)))) -∗
  wp (RtlSubtreePredecessor p) Φ.
Proof.
  iIntros "(Hc & %Hp & (HP & HL & HR) & Hx & Hl & Hr) HΦ".
  unfold RtlSubtreePredecessor. wp_load. destruct l as [|q y a b].
  - simpl. wp_ret. iApply "HΦ". by iFrame.
  - iDestruct (tree_node_nonnull with "Hl") as %Hq. cbn [addr]. wp_test.
    iApply (rightmost_spec q y a b (InL p x r :: c) with "[-HΦ]"); [by iFrame|].
    rw focus_up. iIntros "Hf". by iApply "HΦ".
Qed.

Lemma subtree_successor_spec p x l r c Φ :
  focus (Node p x l r) c -∗ (focus (Node p x l r) c -∗ Φ (naddr (head (inorder r)))) -∗
  wp (RtlSubtreeSuccessor p) Φ.
Proof.
  iIntros "(Hc & %Hp & (HP & HL & HR) & Hx & Hl & Hr) HΦ".
  unfold RtlSubtreeSuccessor. wp_load. destruct r as [|q y a b].
  - simpl. wp_ret. iApply "HΦ". by iFrame.
  - iDestruct (tree_node_nonnull with "Hr") as %Hq. cbn [addr]. wp_test.
    iApply (leftmost_spec q y a b (InR p x l :: c) with "[-HΦ]"); [by iFrame|].
    rw focus_up. iIntros "Hf". by iApply "HΦ".
Qed.

(** The climb from a left child: the elements before the position stay the same. *)
Definition up_inv (left : bool) (bs : list (Z * A)) (W : tree A) (Φ : Z -> hprop)
    (k : nat) (m : Z) : hprop :=
  (∃ p x l r c, ⌜m = p /\ k = length c /\ (if left then before c else after c) = bs /\
       plug (Node p x l r) c = W⌝ ∗
     focus (Node p x l r) c ∗
     (∀ p x l r c, ⌜(if left then before c else after c) = bs /\
         (if left then is_left c else is_right c) = false /\ plug (Node p x l r) c = W⌝ -∗
        focus (Node p x l r) c -∗ Φ p))%I.

Lemma up_inv_cells left bs W Φ k m : up_inv left bs W Φ k m ⊢ cells k.
Proof.
  iIntros "(%p & %x & %l & %r & %c & (_ & -> & _) & [Hc _] & _)". by iApply ctx_cells.
Qed.

Lemma up_left_round_inv bs W Φ : round_ok up_left_round (up_inv true bs W Φ) Φ.
Proof.
  intros k m. iIntros "(%p & %x & %l & %r & %c & (-> & -> & %Hb & %HW) & Hf & HΦ)".
  unfold up_left_round. wp_call. iApply (is_left_spec with "Hf"). iIntros "Hf".
  destruct (is_left c) eqn:Hc.
  - destruct c as [|[q y r'|q y l'] c]; try done.
    iDestruct "Hf" as "(Hc & %Hp & (HP & HL & HR) & Hx & Hl & Hr)". simpl. wp_load. wp_ret.
    iExists (length c). iSplit; [iPureIntro; simpl; lia|].
    iExists q, y, (Node p x l r), r', c. rw -(focus_up _ _ (InL q y r')). iFrame. done.
  - wp_ret. iApply ("HΦ" with "[] Hf"). done.
Qed.

Lemma up_right_round_inv bs W Φ : round_ok up_right_round (up_inv false bs W Φ) Φ.
Proof.
  intros k m. iIntros "(%p & %x & %l & %r & %c & (-> & -> & %Hb & %HW) & Hf & HΦ)".
  unfold up_right_round. wp_call. iApply (is_right_spec with "Hf"). iIntros "Hf".
  destruct (is_right c) eqn:Hc.
  - destruct c as [|[q y r'|q y l'] c]; try done.
    iDestruct "Hf" as "(Hc & %Hp & (HP & HL & HR) & Hx & Hl & Hr)". simpl. wp_load. wp_ret.
    iExists (length c). iSplit; [iPureIntro; simpl; lia|].
    iExists q, y, l', (Node p x l r), c. rw -(focus_up _ _ (InR q y l')). iFrame. done.
  - wp_ret. iApply ("HΦ" with "[] Hf"). done.
Qed.

Lemma real_predecessor_spec n x l r c Φ :
  focus (Node n x l r) c -∗
  (focus (Node n x l r) c -∗ Φ (naddr (last (before c ++ inorder l)))) -∗
  wp (RtlRealPredecessor n) Φ.
Proof.
  iIntros "(Hc & %Hp & (HP & HL & HR) & Hx & Hl & Hr) HΦ".
  unfold RtlRealPredecessor. wp_load. destruct l as [|q y a b]; cbn [addr].
  - wp_test. wp_call. iAssert (focus (Node n x Leaf r) c) with "[-HΦ]" as "Hf"; [by iFrame|].
    iApply (wp_while _ (up_inv true (before c) (plug (Node n x Leaf r) c) _) _ (length c)).
    + apply up_left_round_inv.
    + apply up_inv_cells.
    + iExists n, x, Leaf, r, c. iSplit; [done|]. iFrame "Hf".
      iIntros (p' x' l' r' c') "(%Hb & %Hl & %HW) Hf".
      wp_call. iApply (is_right_spec with "Hf"). iIntros "Hf".
      rw focus_plug -HW -focus_plug. rw app_nil_r -Hb.
      destruct c' as [|[q y r''|q y l''] c']; [|done|].
      * wp_ret. by iApply "HΦ".
      * iDestruct "Hf" as "(Hc & %Hp' & (HP & HL & HR) & Hr)". simpl. wp_load.
        rw app_assoc last_snoc. iApply "HΦ". by iFrame.
  - iDestruct (tree_node_nonnull with "Hl") as %Hq. wp_test.
    iApply (rightmost_spec q y a b (InL n x r :: c) with "[-HΦ]"); [by iFrame|].
    rw focus_up. iIntros "Hf". simpl. rw app_assoc !last_app_cons. by iApply "HΦ".
Qed.

Lemma real_successor_spec n x l r c Φ :
  focus (Node n x l r) c -∗
  (focus (Node n x l r) c -∗ Φ (naddr (head (inorder r ++ after c)))) -∗
  wp (RtlRealSuccessor n) Φ.
Proof.
  iIntros "(Hc & %Hp & (HP & HL & HR) & Hx & Hl & Hr) HΦ".
  unfold RtlRealSuccessor. wp_load. destruct r as [|q y a b]; cbn [addr].
  - wp_test. wp_call. iAssert (focus (Node n x l Leaf) c) with "[-HΦ]" as "Hf"; [by iFrame|].
    iApply (wp_while _ (up_inv false (after c) (plug (Node n x l Leaf) c) _) _ (length c)).
    + apply up_right_round_inv.
    + apply up_inv_cells.
    + iExists n, x, l, Leaf, c. iSplit; [done|]. iFrame "Hf".
      iIntros (p' x' l' r' c') "(%Hb & %Hl & %HW) Hf".
      wp_call. iApply (is_left_spec with "Hf"). iIntros "Hf".
      rw focus_plug -HW -focus_plug /= -Hb.
      destruct c' as [|[q y r''|q y l''] c']; [| |done].
      * wp_ret. by iApply "HΦ".
      * iDestruct "Hf" as "(Hc & %Hp' & (HP & HL & HR) & Hr)". simpl. wp_load.
        iApply "HΦ". by iFrame.
  - iDestruct (tree_node_nonnull with "Hr") as %Hq. wp_test.
    iApply (leftmost_spec q y a b (InR n x l :: c) with "[-HΦ]"); [by iFrame|].
    rw focus_up. iIntros "Hf".
    pose proof (inorder_node_nonempty q y a b) as Hne.
    destruct (inorder (Node q y a b)) as [|e es]; [done|]. by iApply "HΦ".
Qed.
End proofs.
