(* ===== verification/SplayDelete.v ===== *)
(** * Splay trees: deletion

    [SwapSplayLinks] puts a node in the place of its predecessor and the predecessor in
    the place of the node, whether they are neighbours, whether the node is the root.
    Then [RtlDelete] and [RtlDeleteNoSplay] take a node out of its tree. *)

From Stdlib Require Import ZArith Lia.
From stdpp Require Import gmap.
From iris.proofmode Require Import proofmode.
From S2P Require Import HeapLogic LinkTree SplayTree.

#[local] Open Scope Z_scope.

Section deletion.
Context {A : Type} (own : Z -> A -> hprop).
Implicit Types (t l r a b : tree A) (c : list (frame A)).

Abbreviation tree_at := (tree_at own).
Abbreviation ctx_at := (ctx_at own).
Abbreviation focus := (focus own).
Abbreviation rooted := (rooted own).

(** ** Exchanging a node with its predecessor *)

(** The parent link of the child at [k], if there is one. *)
Definition kid (k par : Z) : hprop := (⌜k = NULL⌝ ∨ ⌜k <> NULL⌝ ∗ Parent k ↦ par)%I.

Definition slot (left : bool) (q p : Z) : hprop :=
  (if left then LeftChild q ↦ p else RightChild q ↦ p)%I.

(** The link to [p] in the parent of a position. *)
Definition parent_slot (c : list (frame A)) (p : Z) : hprop :=
  match c with
  | [] => emp%I
  | f :: _ => slot (is_left c) (faddr f) p
  end.

(** Part of a tree: the frames [c] from the position of [p] up to a node with the
    parent [par]. *)
Fixpoint seg_at (par p : Z) c : hprop :=
  match c with
  | [] => emp%I
  | InL q x r :: c' =>
      (⌜q <> NULL⌝ ∗ links q (parent_of par c') p (addr r) ∗ own q x ∗ tree_at q r ∗
       seg_at par q c')%I
  | InR q x l :: c' =>
      (⌜q <> NULL⌝ ∗ links q (parent_of par c') (addr l) p ∗ own q x ∗ tree_at q l ∗
       seg_at par q c')%I
  end.

Lemma tree_at_plug par t c :
  tree_at par (plug t c) ⊣⊢ seg_at par (addr t) c ∗ tree_at (parent_of par c) t.
Proof.
  revert t. induction c as [|[q x r|q x l] c IH]; intros t; simpl; [by rw left_id|..].
  - rw IH. simpl. iSplit; [iIntros "($ & $ & $ & $ & $ & $)"|iIntros "[($ & $ & $ & $ & $) $]"].
  - rw IH. simpl. iSplit; [iIntros "($ & $ & $ & $ & $ & $)"|iIntros "[($ & $ & $ & $ & $) $]"].
Qed.

Lemma tree_kid par t :
  tree_at par t ⊢ kid (addr t) par ∗ (∀ par', kid (addr t) par' -∗ tree_at par' t).
Proof.
  destruct t as [|p x l r]; simpl.
  - iIntros "_". iSplitL; [by iLeft|]. by iIntros (?) "_".
  - iIntros "(%Hp & (HP & HL & HR) & Ht)". iSplitL "HP"; [iRight; by iFrame|].
    iIntros (par') "[%|[_ HP]]"; [done|]. by iFrame.
Qed.

Lemma ctx_slot p c :
  ctx_at p c ⊢ parent_slot c p ∗ (∀ p', parent_slot c p' -∗ ctx_at p' c).
Proof.
  destruct c as [|[q x r|q x l] c]; simpl.
  - iIntros "_". iSplit; [done|]. by iIntros (?) "_".
  - iIntros "($ & ($ & $ & $) & $)". by iIntros (?) "$".
  - iIntros "($ & ($ & $ & $) & $)". by iIntros (?) "$".
Qed.

Lemma seg_slot par p c :
  seg_at par p c ⊢ parent_slot c p ∗ (∀ p', parent_slot c p' -∗ seg_at par p' c).
Proof.
  destruct c as [|[q x r|q x l] c]; simpl.
  - iIntros "_". iSplit; [done|]. by iIntros (?) "_".
  - iIntros "($ & ($ & $ & $) & $)". by iIntros (?) "$".
  - iIntros "($ & ($ & $ & $) & $)". by iIntros (?) "$".
Qed.

Lemma seg_kid par t c : c <> [] ->
  seg_at par (addr t) c ⊢
  kid (addr (plug t c)) par ∗ (∀ par', kid (addr (plug t c)) par' -∗ seg_at par' (addr t) c).
Proof.
  revert t. induction c as [|f c IH]; intros t Hc; [done|]. destruct c as [|g c].
  - destruct f as [q x r|q x l]; simpl;
      (iIntros "(%Hq & (HP & HL & HR) & Ht)"; iSplitL "HP"; [iRight; by iFrame|]);
      (iIntros (par') "[%|[_ HP]]"; [done|by iFrame]).
  - destruct f as [q x r|q x l]; iIntros "(%Hq & Hq & Hx & Ht & Hs)".
    + iDestruct (IH (plug1 (InL q x r) t) with "Hs") as "[$ Hs]"; [done|].
      iIntros (par') "Hk". iFrame. iSplit; [done|]. by iApply "Hs".
    + iDestruct (IH (plug1 (InR q x l) t) with "Hs") as "[$ Hs]"; [done|].
      iIntros (par') "Hk". iFrame. iSplit; [done|]. by iApply "Hs".
Qed.

Lemma fixup_child_links_spec p par (kl kr : Z) v w c u Left Root Φ :
  Root = bool_decide (c = []) -> (c <> [] -> Left = is_left c /\ par = parent_of p c) ->
  links p par kl kr -∗ kid kl v -∗ kid kr w -∗ parent_slot c u -∗
  (links p par kl kr -∗ kid kl p -∗ kid kr p -∗ parent_slot c p -∗ Φ tt) -∗
  wp (FixupChildLinks p Root Left) Φ.
Proof.
  iIntros (-> Hc) "(HP & HL & HR) Hl Hr Hs HΦ". unfold FixupChildLinks. wp_load.
  iApply wp_bind. iApply (wp_wand _ (fun _ => LeftChild p ↦ kl ∗ kid kl p)%I with "[HL Hl]").
  { iDestruct "Hl" as "[->|[%Hl Hl]]".
    - wp_run. wp_ret. iFrame. by iLeft.
    - unfold RtlInsertAsLeftChild. wp_run. iFrame. iRight. by iFrame. }
  iIntros (_) "[HL Hl]". wp_load.
  iApply wp_bind. iApply (wp_wand _ (fun _ => RightChild p ↦ kr ∗ kid kr p)%I with "[HR Hr]").
  { iDestruct "Hr" as "[->|[%Hr Hr]]".
    - wp_run. wp_ret. iFrame. by iLeft.
    - unfold RtlInsertAsRightChild. wp_run. iFrame. iRight. by iFrame. }
  iIntros (_) "[HR Hr]". destruct c as [|f c].
  - simpl. wp_ret. iApply ("HΦ" with "[HP HL HR] Hl Hr Hs"). by iFrame.
  - destruct Hc as [-> ->]; [done|]. rw bool_decide_false //. wp_load.
    destruct f as [q x r'|q x l']; simpl; unfold RtlInsertAsLeftChild, RtlInsertAsRightChild;
      wp_run; iApply ("HΦ" with "[HP HL HR] Hl Hr Hs"); by iFrame.
Qed.

(** The values that [swap_links] reads before it changes anything. *)
Lemma load_links_spec p x l r c Φ :
  focus (Node p x l r) c -∗
  (focus (Node p x l r) c -∗ Φ (parent_of p c, addr l, addr r)) -∗ wp (load_links p) Φ.
Proof.
  iIntros "(Hc & %Hp & (HP & HL & HR) & Ht) HΦ". unfold load_links. wp_run. wp_ret.
  iApply "HΦ". by iFrame.
Qed.

Lemma relink_spec n p c u Φ :
  parent_slot c u -∗ Parent p ↦ parent_of n c -∗
  (parent_slot c p -∗ Parent p ↦ parent_of n c -∗ Φ tt) -∗
  wp (if bool_decide (c = []) then ret tt
      else if is_left c then RtlInsertAsLeftChild (parent_of n c) p
      else RtlInsertAsRightChild (parent_of n c) p) Φ.
Proof.
  iIntros "Hs HP HΦ". destruct c as [|f c]; [simpl; wp_ret; by iApply ("HΦ" with "Hs")|].
  rw bool_decide_false //. unfold RtlInsertAsLeftChild, RtlInsertAsRightChild.
  destruct f; simpl; wp_run; by iApply ("HΦ" with "Hs").
Qed.

(** The last line of [swap_links]: a new root is its own parent. *)
Lemma new_root_spec n p c Φ :
  Parent p ↦ parent_of n c -∗ (Parent p ↦ parent_of p c -∗ Φ tt) -∗
  wp (if bool_decide (c = []) then store (Parent p) p else ret tt) Φ.
Proof.
  iIntros "HP HΦ". destruct c as [|f c]; simpl.
  - wp_store. by iApply "HΦ".
  - wp_ret. by iApply "HΦ".
Qed.

(** The predecessor is the left child. *)
Lemma swap_adjacent n x s y a r c Φ :
  focus (Node n x (Node s y a Leaf) r) c -∗
  (focus (Node s y (Node n x a Leaf) r) c -∗ Φ tt) -∗ wp (swap_links n s) Φ.
Proof.
  iIntros "Hf HΦ". unfold swap_links.
  wp_call. iApply (load_links_spec with "Hf"). iIntros "Hf".
  wp_call. rw -(focus_up _ _ (InL n x r)). iApply (load_links_spec with "Hf"). iIntros "Hf".
  rw (focus_up _ _ (InL n x r)).
  wp_call. iApply (is_root_spec with "Hf"). iIntros "Hf".
  wp_call. iApply (is_left_spec with "Hf"). iIntros "Hf".
  wp_call. rw -(focus_up _ _ (InL n x r)). iApply (is_left_spec with "Hf"). iIntros "Hf".
  simpl.
  iDestruct "Hf" as "((%Hn & (HPn & HLn & HRn) & Hx & Hr & Hc) & %Hs & (HPs & HLs & HRs) & Hy & Ha & _)".
  unfold store_links. cbn [fst snd]. wp_run.
  iDestruct (ctx_slot with "Hc") as "[Hslot Hc]".
  iDestruct (tree_kid with "Ha") as "[Hka Ha]". iDestruct (tree_kid with "Hr") as "[Hkr Hr]".
  wp_call. iApply (relink_spec with "Hslot HPs"). iIntros "Hslot HPs".
  unfold RtlInsertAsLeftChild. wp_run.
  wp_call. iApply (fixup_child_links_spec n s _ _ _ NULL [InL s y r] with
    "[$HPn $HLn $HRn] Hka [] HLs"); [done|done|by iLeft|].
  iIntros "(HPn & HLn & HRn) Hka _ HLs".
  wp_call. iApply (fixup_child_links_spec s _ n _ _ _ c with
    "[$HPs $HLs $HRs] [HPn] Hkr Hslot"); [done|by destruct c|iRight; by iFrame|].
  iIntros "(HPs & HLs & HRs) [%|[_ HPn]] Hkr Hslot"; [done|].
  iApply (new_root_spec with "HPs"). iIntros "HPs". iApply "HΦ".
  iDestruct ("Hc" with "Hslot") as "Hc". iDestruct ("Ha" with "Hka") as "Ha".
  iDestruct ("Hr" with "Hkr") as "Hr". by iFrame.
Qed.

Lemma focus_left n x t cl r c :
  focus (Node n x (plug t cl) r) c ⊣⊢ focus t (cl ++ InL n x r :: c).
Proof. by rw !focus_plug plug_app. Qed.

Lemma plug_addr c t t' : c <> [] -> addr (plug t c) = addr (plug t' c).
Proof.
  destruct c as [|f c] using rev_ind; [done|]. intros _. rw !plug_app. by destruct f.
Qed.

Lemma seg_parent_ne par p c n v m : c <> [] ->
  seg_at par p c -∗ Parent n ↦ v -∗ ⌜parent_of m c <> n⌝.
Proof.
  iIntros (Hc) "Hs Hn". destruct c as [|[q x r|q x l] c]; [done|..];
    iDestruct "Hs" as "(_ & (Hq & _) & _)"; iApply (points_to_ne with "Hq Hn").
Qed.

(** The predecessor is further down, and the node is the root. *)
Lemma swap_root n x s y a cl r Φ :
  cl <> [] -> is_left cl = false ->
  focus (Node n x (plug (Node s y a Leaf) cl) r) [] -∗
  (focus (Node s y (plug (Node n x a Leaf) cl) r) [] -∗ Φ tt) -∗ wp (swap_links n s) Φ.
Proof.
  iIntros (Hne Hcl) "Hf HΦ". unfold swap_links.
  wp_call. iApply (load_links_spec with "Hf"). iIntros "Hf".
  wp_call. rw (focus_left n x). iApply (load_links_spec with "Hf"). iIntros "Hf". rw -(focus_left n x).
  wp_call. iApply (is_root_spec with "Hf"). iIntros "Hf".
  wp_call. iApply (is_left_spec with "Hf"). iIntros "Hf".
  wp_call. rw (focus_left n x). iApply (is_left_spec with "Hf"). iIntros "Hf". rw -(focus_left n x).
  iDestruct "Hf" as "(_ & %Hn & (HPn & HLn & HRn) & Hx & Hl & Hr)".
  iDestruct (tree_at_plug with "Hl") as "(Hseg & %Hs & (HPs & HLs & HRs) & Hy & Ha & _)".
  assert (is_left (cl ++ [InL n x r]) = false) as -> by (by destruct cl).
  assert (parent_of s (cl ++ [InL n x r]) = parent_of n cl) as -> by (by destruct cl).
  iDestruct (seg_parent_ne _ _ _ _ _ n with "Hseg HPn") as %Hpn; [done|].
  unfold store_links. cbn [fst snd]. wp_run.
  iDestruct (tree_kid with "Ha") as "[Hka Ha]". iDestruct (tree_kid with "Hr") as "[Hkr Hr]".
  iDestruct (seg_slot with "Hseg") as "[Hslot Hseg]".
  wp_call. iApply (fixup_child_links_spec n _ _ _ _ NULL cl with
    "[$HPn $HLn $HRn] Hka [] Hslot"); [by rw bool_decide_false|by destruct cl|by iLeft|].
  iIntros "(HPn & HLn & HRn) Hka _ Hslot". iDestruct ("Hseg" with "Hslot") as "Hseg".
  iDestruct (seg_kid _ (Node n x a Leaf) with "Hseg") as "[Hkl Hseg]"; [done|].
  wp_call. rw (plug_addr cl (Node s y a Leaf) (Node n x a Leaf)) //.
  iApply (fixup_child_links_spec s n _ _ _ _ [] NULL with "[$HPs $HLs $HRs] Hkl Hkr"); [done..|].
  iIntros "(HPs & HLs & HRs) Hkl Hkr _". simpl. wp_run. iApply "HΦ".
  iDestruct ("Hseg" with "Hkl") as "Hseg". iDestruct ("Ha" with "Hka") as "Ha".
  iDestruct ("Hr" with "Hkr") as "Hr". rw /LinkTree.focus /= tree_at_plug. iFrame.
  destruct cl; [done|]. by iFrame.
Qed.

(** The predecessor is further down, and the node is not the root: the roles of the two
    nodes in [swap_links] are exchanged. *)
Lemma swap_apart n x s y a cl r c Φ :
  cl <> [] -> is_left cl = false -> c <> [] ->
  focus (Node n x (plug (Node s y a Leaf) cl) r) c -∗
  (focus (Node s y (plug (Node n x a Leaf) cl) r) c -∗ Φ tt) -∗ wp (swap_links s n) Φ.
Proof.
  iIntros (Hne Hcl Hc) "Hf HΦ". unfold swap_links.
  wp_call. rw (focus_left n x). iApply (load_links_spec with "Hf"). iIntros "Hf".
  wp_call. rw -(focus_left n x). iApply (load_links_spec with "Hf"). iIntros "Hf".
  wp_call. rw (focus_left n x). iApply (is_root_spec with "Hf"). iIntros "Hf".
  wp_call. iApply (is_left_spec with "Hf"). iIntros "Hf". rw -(focus_left n x).
  wp_call. iApply (is_left_spec with "Hf"). iIntros "Hf".
  iDestruct "Hf" as "(Hc & %Hn & (HPn & HLn & HRn) & Hx & Hl & Hr)".
  iDestruct (tree_at_plug with "Hl") as "(Hseg & %Hs & (HPs & HLs & HRs) & Hy & Ha & _)".
  assert (is_left (cl ++ InL n x r :: c) = false) as -> by (by destruct cl).
  assert (parent_of s (cl ++ InL n x r :: c) = parent_of n cl) as -> by (by destruct cl).
  rw (bool_decide_false (cl ++ _ = [])); [|by destruct cl].
  iAssert ⌜parent_of n c <> s⌝%I as %Hps.
  { destruct c as [|[]]; [done|..]; iDestruct "Hc" as "(_ & (Hq & _) & _)";
      iApply (points_to_ne with "Hq HPs"). }
  unfold store_links. cbn [fst snd]. wp_run.
  iDestruct (ctx_slot with "Hc") as "[Hcs Hc]".
  iDestruct (tree_kid with "Ha") as "[Hka Ha]". iDestruct (tree_kid with "Hr") as "[Hkr Hr]".
  iDestruct (seg_kid _ (Node s y a Leaf) with "Hseg") as "[Hkl Hseg]"; [done|].
  wp_call. iApply (fixup_child_links_spec s _ _ _ _ _ c with
    "[$HPs $HLs $HRs] Hkl Hkr Hcs"); [by rw bool_decide_false|by destruct c|].
  iIntros "(HPs & HLs & HRs) Hkl Hkr Hcs". iDestruct ("Hseg" with "Hkl") as "Hseg".
  iDestruct (seg_slot with "Hseg") as "[Hslot Hseg]".
  wp_call. iApply (fixup_child_links_spec n _ _ _ _ NULL cl with
    "[$HPn $HLn $HRn] Hka [] Hslot"); [by rw bool_decide_false|by destruct cl|by iLeft|].
  iIntros "(HPn & HLn & HRn) Hka _ Hslot". iDestruct ("Hseg" with "Hslot") as "Hseg".
  wp_ret. iApply "HΦ".
  iDestruct ("Ha" with "Hka") as "Ha". iDestruct ("Hr" with "Hkr") as "Hr".
  iDestruct ("Hc" with "Hcs") as "Hc". rw (plug_addr cl (Node s y a Leaf) (Node n x a Leaf)) //.
  rw /LinkTree.focus /= tree_at_plug. iFrame.
  destruct c, cl; try done. by iFrame.
Qed.

(** [SwapSplayLinks] puts a node and its predecessor in each other's place. *)
Lemma swap_splay_links_spec n x s y a cl r c Φ :
  after cl = [] ->
  focus (Node n x (plug (Node s y a Leaf) cl) r) c -∗
  (focus (Node s y (plug (Node n x a Leaf) cl) r) c -∗ Φ tt) -∗ wp (SwapSplayLinks s n) Φ.
Proof.
  iIntros (Hcl) "Hf HΦ". unfold SwapSplayLinks. destruct cl as [|f cl].
  - rw (focus_left n x). iDestruct "Hf" as "(Hc & %Hs & (HP & HL & HR) & Ht)". simpl. wp_run.
    iApply (swap_adjacent with "[-HΦ] HΦ"). rw -(focus_up _ _ (InL n x r)). by iFrame.
  - destruct f as [q z r'|q z l']; [done|].
    iAssert ⌜q <> n⌝%I as %Hqn.
    { iDestruct "Hf" as "(_ & _ & (HP & _) & _ & Hl & _)".
      iDestruct (tree_at_plug with "Hl") as "[Hseg _]".
      by iApply (seg_parent_ne _ _ (InR q z l' :: cl) n _ n with "Hseg HP"). }
    rw (focus_left n x). iDestruct "Hf" as "(Hc & %Hs & (HP & HL & HR) & Ht)".
    wp_load. simpl. wp_test.
    iAssert (focus (Node s y a Leaf) ((InR q z l' :: cl) ++ InL n x r :: c))
      with "[-HΦ]" as "Hf"; [by iFrame|].
    rw -(focus_left n x). wp_call. iApply (is_root_spec with "Hf"). iIntros "Hf".
    case_bool_decide as Hc; [subst c; by iApply (swap_root with "Hf HΦ")|].
    by iApply (swap_apart with "Hf HΦ").
Qed.

(** ** Deletion *)

(** The memory of a node that is no longer in a tree. *)
Definition detached (n : Z) (x : A) : hprop :=
  (⌜n <> NULL⌝ ∗ ∃ u v w, links n u v w ∗ own n x)%I.

Lemma has_two_children_spec n x l r c Φ :
  focus (Node n x l r) c -∗
  (focus (Node n x l r) c -∗ Φ (is_node l && is_node r)) -∗
  wp (has_two_children n) Φ.
Proof.
  iIntros "(Hc & %Hn & (HP & HL & HR) & Hx & Hl & Hr) HΦ". unfold has_two_children. wp_load.
  destruct l as [|p y a b]; [|iDestruct (tree_node_nonnull with "Hl") as %Hp].
  - simpl. wp_ret. iApply "HΦ". by iFrame.
  - cbn [addr]. wp_test. wp_load.
    destruct r as [|q z d e]; [|iDestruct (tree_node_nonnull with "Hr") as %Hq];
      cbn [addr]; wp_test; wp_ret; iApply "HΦ"; by iFrame.
Qed.

Lemma has_no_child_spec n x l r c Φ :
  focus (Node n x l r) c -∗
  (focus (Node n x l r) c -∗ Φ (negb (is_node l || is_node r))) -∗
  wp (has_no_child n) Φ.
Proof.
  iIntros "(Hc & %Hn & (HP & HL & HR) & Hx & Hl & Hr) HΦ". unfold has_no_child. wp_load.
  destruct l as [|p y a b]; [|iDestruct (tree_node_nonnull with "Hl") as %Hp].
  - cbn [addr]. wp_test. wp_load.
    destruct r as [|q z d e]; [|iDestruct (tree_node_nonnull with "Hr") as %Hq];
      cbn [addr]; wp_test; wp_ret; iApply "HΦ"; by iFrame.
  - cbn [addr]. wp_test. wp_ret. iApply "HΦ". by iFrame.
Qed.

(** The child of a node with one child. *)
Definition single l r : tree A :=
  match l with
  | Leaf => r
  | Node _ _ _ _ => l
  end.

Lemma only_child_spec n x l r c Φ :
  focus (Node n x l r) c -∗
  (focus (Node n x l r) c -∗ Φ (addr (single l r))) -∗ wp (only_child n) Φ.
Proof.
  iIntros "(Hc & %Hn & (HP & HL & HR) & Hx & Hl & Hr) HΦ". unfold only_child. wp_load.
  destruct l as [|p y a b]; [|iDestruct (tree_node_nonnull with "Hl") as %Hp]; cbn [addr];
    wp_test; wp_load; iApply "HΦ"; by iFrame.
Qed.

Lemma replace_child_spec n x l r f c k Φ :
  focus (Node n x l r) (f :: c) -∗
  (ctx_at k (f :: c) -∗ tree_at (faddr f) (Node n x l r) -∗ Φ tt) -∗
  wp (replace_child n (faddr f) k) Φ.
Proof.
  iIntros "Hf HΦ". unfold replace_child. wp_call. iApply (is_left_spec with "Hf").
  iIntros "[Hc Ht]". destruct f as [q y r'|q y l']; simpl;
    iDestruct "Hc" as "(%Hq & (HPq & HLq & HRq) & Hc)"; wp_store;
    iApply ("HΦ" with "[-Ht] Ht"); by iFrame.
Qed.

(** The tree when the subtree of the position has been replaced, and then the parent
    splayed. *)
Definition splay_parent t c : tree A :=
  match c with
  | [] => t
  | f :: c' => splay (plug1 f t) c'
  end.

Lemma splay_parent_inorder t c : inorder (splay_parent t c) = before c ++ inorder t ++ after c.
Proof.
  destruct c as [|f c]; [by rw /= app_nil_r|]. by rw splay_inorder -inorder_plug.
Qed.

Lemma splay_parent_spec t f c Φ :
  focus t (f :: c) -∗
  (rooted (splay_parent t (f :: c)) -∗ Φ (addr (splay_parent t (f :: c)))) -∗
  wp (RtlSplay (faddr f)) Φ.
Proof.
  iIntros "Hf HΦ". rw focus_up. destruct f as [q y r|q y l]; simpl;
    rw splay_addr; by iApply (RtlSplay_spec with "Hf").
Qed.

Lemma single_tree p l r : tree_at p l -∗ tree_at p r -∗ tree_at p (single l r).
Proof. iIntros "Hl Hr". by destruct l. Qed.

Lemma single_node l r :
  is_node l || is_node r = true ->
  exists k y a b, single l r = Node k y a b.
Proof. destruct l; [destruct r|]; intros; simplify_eq/=; eauto. Qed.

Lemma single_inorder l r :
  is_node l && is_node r = false -> inorder (single l r) = inorder l ++ inorder r.
Proof. destruct l, r; intros; simplify_eq/=; by rw ?app_nil_r. Qed.

Lemma predecessor_position l :
  is_node l = true ->
  exists s y a c, l = plug (Node s y a Leaf) c /\ after c = [] /\
    naddr (last (inorder (plug (Node s y a Leaf) c))) = s.
Proof.
  destruct l as [|p x a b]; [done|]. intros _.
  destruct (last_position p x a b) as (s & y & a' & c & -> & Hc). exists s, y, a', c.
  split; [done|]. split; [done|]. by rw inorder_plug Hc app_nil_r /= app_assoc last_snoc.
Qed.

(** The node leaves its place to its child, if it has one. *)
Lemma unlink_spec n x l r f c Φ :
  is_node l || is_node r = true ->
  focus (Node n x l r) (f :: c) -∗
  (focus (single l r) (f :: c) -∗ detached n x -∗ Φ tt) -∗
  wp (replace_child n (faddr f) (addr (single l r));;
      store (Parent (addr (single l r))) (faddr f)) Φ.
Proof.
  iIntros (Hlr) "Hf HΦ". destruct (single_node l r Hlr) as (k & y & a & b & Hk). wp_call. iApply (replace_child_spec with "Hf").
  iIntros "Hc (%Hn & Hlinks & Hx & Hl & Hr)". iDestruct (single_tree with "Hl Hr") as "Ht".
  rw Hk. iDestruct "Ht" as "(%Hkn & (HP & HL & HR) & Ht)". wp_store.
  iApply ("HΦ" with "[-Hlinks Hx]"); [by iFrame|]. iSplit; [done|]. iExists _, _, _. by iFrame.
Qed.

Lemma delete_single_spec n x l r c Φ :
  focus (Node n x l r) c -∗
  (rooted (splay_parent (single l r) c) -∗ detached n x -∗
     Φ (addr (splay_parent (single l r) c))) -∗
  wp (delete_single n) Φ.
Proof.
  iIntros "Hf HΦ". unfold delete_single.
  wp_call. iApply (has_no_child_spec with "Hf"). iIntros "Hf".
  destruct (is_node l || is_node r) eqn:E; simpl; last first.
  - destruct l, r; try done. wp_call. iApply (is_root_spec with "Hf"). iIntros "Hf".
    destruct c as [|f c].
    + simpl. wp_ret. iDestruct "Hf" as "(_ & %Hn & Hlinks & Hx & _)".
      iApply ("HΦ" with "[//]"). iSplit; [done|]. iExists _, _, _. by iFrame.
    + iDestruct "Hf" as "(Hc & %Hn & (HP & HL & HR) & Hx & _)". rw bool_decide_false //. wp_load.
      wp_call. iApply (replace_child_spec n x Leaf Leaf f c NULL with "[-HΦ]"); [by iFrame|].
      iIntros "Hc (_ & Hlinks & Hx & _)".
      iApply (splay_parent_spec Leaf with "[$Hc //]"). iIntros "Ht".
      iApply ("HΦ" with "Ht"). iSplit; [done|]. iExists _, _, _. by iFrame.
  - destruct (single_node l r E) as (k & y & a & b & Hk).
    wp_call. iApply (only_child_spec with "Hf"). iIntros "Hf".
    wp_call. iApply (is_root_spec with "Hf"). iIntros "Hf". destruct c as [|f c].
    + iDestruct "Hf" as "(_ & %Hn & Hlinks & Hx & Hl & Hr)".
      iDestruct (single_tree with "Hl Hr") as "Ht". rw Hk.
      iDestruct "Ht" as "(%Hkn & (HP & HL & HR) & Ht)". simpl. wp_store. wp_ret.
      iApply ("HΦ" with "[-Hlinks Hx]"); [by iFrame|]. iSplit; [done|]. iExists _, _, _. by iFrame.
    + iDestruct "Hf" as "(Hc & %Hn & (HP & HL & HR) & Ht)". rw bool_decide_false //. wp_load.
      iAssert (focus (Node n x l r) (f :: c)) with "[-HΦ]" as "Hf"; [by iFrame|].
      iApply wp_bind_split. iApply wp_bind. iApply (unlink_spec with "Hf"); [done|].
      iIntros "Hf Hn". iApply (splay_parent_spec with "Hf"). iIntros "Ht".
      iApply ("HΦ" with "Ht Hn").
Qed.

(** [RtlDelete] takes the node out of the tree. *)
Lemma RtlDelete_spec n x l r c Φ :
  focus (Node n x l r) c -∗
  (∀ t', ⌜inorder t' = before c ++ inorder l ++ inorder r ++ after c⌝ -∗
     rooted t' -∗ detached n x -∗ Φ (addr t')) -∗
  wp (RtlDelete n) Φ.
Proof.
  iIntros "Hf HΦ". unfold RtlDelete.
  wp_call. iApply (has_two_children_spec with "Hf"). iIntros "Hf".
  destruct (is_node l && is_node r) eqn:E.
  - destruct (predecessor_position l) as (s & y & a & cl & -> & Hcl & Hs); [by destruct l|].
    wp_call. iApply (subtree_predecessor_spec with "Hf"). iIntros "Hf". rw Hs.
    wp_call. iApply (swap_splay_links_spec with "Hf"); [done|]. iIntros "Hf".
    rw (focus_left s y). iApply (delete_single_spec with "Hf"). iIntros "Ht Hn".
    iApply ("HΦ" with "[] Ht Hn"). iPureIntro.
    rw splay_parent_inorder single_inorder; [|by rw andb_false_r].
    rw before_app after_app inorder_plug Hcl. by norm_app.
  - wp_head. iApply (delete_single_spec with "Hf"). iIntros "Ht Hn".
    iApply ("HΦ" with "[] Ht Hn"). iPureIntro. by rw splay_parent_inorder single_inorder // -app_assoc.
Qed.

Lemma delete_single_no_splay_spec n x l r c Root Φ :
  focus (Node n x l r) c -∗ Root ↦ addr (plug (Node n x l r) c) -∗
  (rooted (plug (single l r) c) -∗ Root ↦ addr (plug (single l r) c) -∗ detached n x -∗ Φ tt) -∗
  wp (delete_single_no_splay n Root) Φ.
Proof.
  iIntros "Hf HRt HΦ". unfold delete_single_no_splay.
  wp_call. iApply (has_no_child_spec with "Hf"). iIntros "Hf".
  destruct (is_node l || is_node r) eqn:E; simpl; last first.
  - destruct l, r; try done. wp_call. iApply (is_root_spec with "Hf"). iIntros "Hf".
    destruct c as [|f c].
    + simpl. wp_store. iDestruct "Hf" as "(_ & %Hn & Hlinks & Hx & _)".
      iApply ("HΦ" with "[//] HRt"). iSplit; [done|]. iExists _, _, _. by iFrame.
    + iDestruct "Hf" as "(Hc & %Hn & (HP & HL & HR) & Hx & _)". rw bool_decide_false //. wp_load.
      iApply (replace_child_spec n x Leaf Leaf f c NULL with "[-HΦ HRt]"); [by iFrame|].
      iIntros "Hc (_ & Hlinks & Hx & _)". rw (plug_addr (f :: c) (Node n x Leaf Leaf) Leaf) // -focus_plug.
      iApply ("HΦ" with "[$Hc //] HRt"). iSplit; [done|]. iExists _, _, _. by iFrame.
  - destruct (single_node l r E) as (k & y & a & b & Hk).
    wp_call. iApply (only_child_spec with "Hf"). iIntros "Hf".
    wp_call. iApply (is_root_spec with "Hf"). iIntros "Hf". destruct c as [|f c].
    + iDestruct "Hf" as "(_ & %Hn & Hlinks & Hx & Hl & Hr)".
      iDestruct (single_tree with "Hl Hr") as "Ht". rw Hk.
      iDestruct "Ht" as "(%Hkn & (HP & HL & HR) & Ht)". simpl. wp_store. wp_store.
      iApply ("HΦ" with "[-Hlinks Hx HRt] HRt"); [by iFrame|]. iSplit; [done|]. iExists _, _, _. by iFrame.
    + iDestruct "Hf" as "(Hc & %Hn & (HP & HL & HR) & Ht)". rw bool_decide_false //. wp_load.
      iAssert (focus (Node n x l r) (f :: c)) with "[-HΦ HRt]" as "Hf"; [by iFrame|].
      iApply (unlink_spec with "Hf"); [done|]. iIntros "Hf Hn".
      rw (plug_addr (f :: c) (Node n x l r) (single l r)) // focus_plug. iApply ("HΦ" with "Hf HRt Hn").
Qed.

(** [RtlDeleteNoSplay] takes the node out of the tree and keeps the caller's pointer to
    the root. *)
Lemma RtlDeleteNoSplay_spec n x l r c Root Φ :
  focus (Node n x l r) c -∗ Root ↦ addr (plug (Node n x l r) c) -∗
  (∀ t', ⌜inorder t' = before c ++ inorder l ++ inorder r ++ after c⌝ -∗
     rooted t' -∗ Root ↦ addr t' -∗ detached n x -∗ Φ tt) -∗
  wp (RtlDeleteNoSplay n Root) Φ.
Proof.
  iIntros "Hf HRt HΦ". unfold RtlDeleteNoSplay.
  wp_call. iApply (has_two_children_spec with "Hf"). iIntros "Hf".
  destruct (is_node l && is_node r) eqn:E.
  - destruct (predecessor_position l) as (s & y & a & cl & -> & Hcl & Hs); [by destruct l|].
    wp_call. iApply (subtree_predecessor_spec with "Hf"). iIntros "Hf". rw Hs.
    wp_call. iApply (is_root_spec with "Hf"). iIntros "Hf".
    wp_call. iApply (wp_wand _ (fun _ => Root ↦ addr (plug (Node n x a Leaf) (cl ++ InL s y r :: c)))%I
      with "[HRt]").
    { rw plug_app. destruct c as [|f c]; simpl; [by wp_store|]. wp_ret.
      by rw (plug_addr (f :: c) _ (Node s y (plug (Node n x a Leaf) cl) r)). }
    iIntros (_) "HRt".
    wp_call. iApply (swap_splay_links_spec with "Hf"); [done|]. iIntros "Hf".
    rw (focus_left s y). iApply (delete_single_no_splay_spec with "Hf HRt"). iIntros "Ht HRt Hn".
    iApply ("HΦ" with "[] Ht HRt Hn"). iPureIntro.
    rw inorder_plug single_inorder; [|by rw andb_false_r].
    rw before_app after_app inorder_plug Hcl. by norm_app.
  - wp_head. iApply (delete_single_no_splay_spec with "Hf HRt"). iIntros "Ht HRt Hn".
    iApply ("HΦ" with "[] Ht HRt Hn"). iPureIntro. by rw inorder_plug single_inorder // -app_assoc.
Qed.
End deletion.
