(* ===== verification/ListEntry.v ===== *)
(** * Linked lists: the list functions of sdk/include/ndk/rtlfuncs.h

    Doubly linked circular lists ([LIST_ENTRY]) and singly linked ones
    ([SINGLE_LIST_ENTRY]).  [dlist head xs] owns a list with the head [head] and the
    entries [xs], in order. *)

From Stdlib Require Import ZArith Lia.
From stdpp Require Import gmap.
From iris.proofmode Require Import proofmode.
From S2P Require Import HeapLogic LinkTree.

#[local] Open Scope Z_scope.

(** ** The code *)

Definition Flink (Entry : Z) : Z := Entry.
Definition Blink (Entry : Z) : Z := Entry + 4.

Definition InitializeListHead (ListHead : Z) : M unit :=
  store (Blink ListHead) ListHead;;
  store (Flink ListHead) ListHead.

Definition InsertHeadList (ListHead Entry : Z) : M unit :=
  OldFlink ← load (Flink ListHead);
  store (Flink Entry) OldFlink;;
  store (Blink Entry) ListHead;;
  store (Blink OldFlink) Entry;;
  store (Flink ListHead) Entry.

Definition InsertTailList (ListHead Entry : Z) : M unit :=
  OldBlink ← load (Blink ListHead);
  store (Flink Entry) ListHead;;
  store (Blink Entry) OldBlink;;
  store (Flink OldBlink) Entry;;
  store (Blink ListHead) Entry.

Definition IsListEmpty (ListHead : Z) : M bool :=
  f ← load (Flink ListHead);
  ret (f =? ListHead).

Definition RemoveEntryList (Entry : Z) : M bool :=
  OldFlink ← load (Flink Entry);
  OldBlink ← load (Blink Entry);
  store (Blink OldFlink) OldBlink;;
  store (Flink OldBlink) OldFlink;;
  ret (OldFlink =? OldBlink).

Definition RemoveHeadList (ListHead : Z) : M Z :=
  Entry ← load (Flink ListHead);
  F ← load (Flink Entry);
  store (Flink ListHead) F;;
  store (Blink F) ListHead;;
  ret Entry.

Definition RemoveTailList (ListHead : Z) : M Z :=
  Entry ← load (Blink ListHead);
  B ← load (Blink Entry);
  store (Blink ListHead) B;;
  store (Flink B) ListHead;;
  ret Entry.

(** A singly linked list; [Next] is the only field of an entry and of the head. *)
Definition Next (Entry : Z) : Z := Entry.

Definition PopEntryList (ListHead : Z) : M Z :=
  FirstEntry ← load (Next ListHead);
  (if FirstEntry =? NULL then ret tt
   else n ← load (Next FirstEntry); store (Next ListHead) n);;
  ret FirstEntry.

Definition PushEntryList (ListHead Entry : Z) : M unit :=
  n ← load (Next ListHead);
  store (Next Entry) n;;
  store (Next ListHead) Entry.

(** ** Doubly linked lists *)

(** The links of a path from [a] through [xs], in both directions. *)
Fixpoint chain (a : Z) (xs : list Z) : hprop :=
  match xs with
  | [] => emp%I
  | x :: xs' => (Flink a ↦ x ∗ Blink x ↦ a ∗ chain x xs')%I
  end.

(** A circular list is a path from the head back to it. *)
Definition dlist (head : Z) (xs : list Z) : hprop := chain head (xs ++ [head]).

(** The memory of an entry that is in no list. *)
Definition free_entry (e : Z) : hprop := (∃ f b, Flink e ↦ f ∗ Blink e ↦ b)%I.

(** The entry before the end of a path from [a]. *)
Definition prev (a : Z) (xs : list Z) : Z := default a (last xs).

Lemma chain_app a xs y ys : chain a (xs ++ y :: ys) ⊣⊢ chain a (xs ++ [y]) ∗ chain y ys.
Proof.
  revert a. induction xs as [|x xs IH]; intros a; simpl.
  - rw right_id. by rw assoc.
  - rw IH. by rw !assoc.
Qed.

Lemma prev_cons a x xs : prev a (x :: xs) = prev x xs.
Proof. unfold prev. rw last_cons. by destruct (last xs). Qed.

Lemma prev_snoc a xs x : prev a (xs ++ [x]) = x.
Proof. by rw /prev last_snoc. Qed.

Lemma chain_snoc a xs b :
  chain a (xs ++ [b]) ⊣⊢ chain a xs ∗ Flink (prev a xs) ↦ b ∗ Blink b ↦ prev a xs.
Proof.
  revert a. induction xs as [|x xs IH]; intros a.
  - simpl. by rw right_id left_id.
  - rw prev_cons. simpl. rw IH. by rw !assoc.
Qed.

Lemma dlist_open head e xs ys :
  dlist head (xs ++ e :: ys) ⊣⊢ chain head (xs ++ [e]) ∗ chain e (ys ++ [head]).
Proof. unfold dlist. rw -app_assoc. apply chain_app. Qed.

Lemma initialize_list_head_spec head Φ :
  free_entry head -∗ (dlist head [] -∗ Φ tt) -∗ wp (InitializeListHead head) Φ.
Proof.
  iIntros "(%f & %b & HF & HB) HΦ". unfold InitializeListHead. wp_run. iApply "HΦ".
  rw /dlist /=. by iFrame.
Qed.

Lemma insert_head_spec head xs e Φ :
  dlist head xs -∗ free_entry e -∗ (dlist head (e :: xs) -∗ Φ tt) -∗
  wp (InsertHeadList head e) Φ.
Proof.
  iIntros "Hl (%f & %b & HF & HB) HΦ". unfold InsertHeadList, dlist.
  destruct xs as [|x xs]; simpl; iDestruct "Hl" as "(HFh & HBh & Hl)"; wp_run;
    iApply "HΦ"; by iFrame.
Qed.

Lemma insert_tail_spec head xs e Φ :
  dlist head xs -∗ free_entry e -∗ (dlist head (xs ++ [e]) -∗ Φ tt) -∗
  wp (InsertTailList head e) Φ.
Proof.
  iIntros "Hl (%f & %b & HF & HB) HΦ". unfold InsertTailList, dlist. rw !chain_snoc.
  iDestruct "Hl" as "(Hl & HFh & HBh)". wp_run. iApply "HΦ".
  rw prev_snoc. iFrame.
Qed.

(** A path owns the back link of each of its entries. *)
Lemma chain_blink a xs x v : x ∈ xs -> chain a xs -∗ Blink x ↦ v -∗ False.
Proof.
  revert a. induction xs as [|y xs IH]; intros a Hx; [by apply elem_of_nil in Hx|].
  iIntros "(_ & HB & Hc) Hx". apply elem_of_cons in Hx as [->|Hx].
  - iApply (points_to_excl with "HB Hx").
  - by iApply (IH with "Hc Hx").
Qed.

Lemma prev_cases a xs : xs = [] /\ prev a xs = a \/ xs <> [] /\ prev a xs ∈ xs.
Proof.
  destruct xs as [|x xs] using rev_ind; [by left|right]. rw prev_snoc.
  split; [by destruct xs|]. apply elem_of_app. right. apply list_elem_of_here.
Qed.

(** The result tells whether the list has become empty. *)
Lemma remove_entry_spec head xs e ys Φ :
  dlist head (xs ++ e :: ys) -∗
  (dlist head (xs ++ ys) -∗ free_entry e -∗ Φ (bool_decide (xs ++ ys = []))) -∗
  wp (RemoveEntryList e) Φ.
Proof.
  iIntros "Hl HΦ". unfold RemoveEntryList. rw dlist_open chain_snoc.
  iDestruct "Hl" as "[(Hl & HF & HB) Hr]". destruct ys as [|y ys]; simpl.
  - iDestruct "Hr" as "(HFe & HBh & _)". wp_run. wp_ret. rw app_nil_r.
    iAssert ⌜(head =? prev head xs) = bool_decide (xs = [])⌝%I as %->.
    { destruct (prev_cases head xs) as [[-> ->]|[Hne Hin]]; [by rw Z.eqb_refl|].
      rw bool_decide_false //. destruct (Z.eqb_spec head (prev head xs)) as [E|]; [|done].
      rw -E in Hin. by iDestruct (chain_blink with "Hl HBh") as %[]. }
    iApply ("HΦ" with "[Hl HF HBh]"); [rw /dlist chain_snoc; iFrame|]. iExists _, _. iFrame.
  - iDestruct "Hr" as "(HFe & HBy & Hr)". wp_run. wp_ret.
    iAssert ⌜(y =? prev head xs) = bool_decide (xs ++ y :: ys = [])⌝%I as %->.
    { rw (bool_decide_false (xs ++ _ = [])); [|by destruct xs].
      destruct (Z.eqb_spec y (prev head xs)) as [E|]; [|done].
      destruct (prev_cases head xs) as [[_ E']|[_ Hin]].
      - iDestruct (chain_blink _ _ y with "Hr HBy") as %[]. apply elem_of_app. right.
        rw E E'. apply list_elem_of_here.
      - rw -E in Hin. by iDestruct (chain_blink with "Hl HBy") as %[]. }
    iApply ("HΦ" with "[Hl HF HBy Hr]"); [|iExists _, _; iFrame].
    rw /dlist -app_assoc. iApply chain_app. iFrame. iApply chain_snoc. iFrame.
Qed.

Lemma remove_head_spec head e xs Φ :
  dlist head (e :: xs) -∗ (dlist head xs -∗ free_entry e -∗ Φ e) -∗ wp (RemoveHeadList head) Φ.
Proof.
  iIntros "Hl HΦ". unfold RemoveHeadList, dlist. destruct xs as [|x xs]; simpl;
    iDestruct "Hl" as "(HF & HB & HFe & HBh & Hl)"; wp_run; wp_ret;
    (iApply ("HΦ" with "[HF HBh Hl]"); [iFrame|iExists _, _; iFrame]).
Qed.

Lemma remove_tail_spec head xs e Φ :
  dlist head (xs ++ [e]) -∗ (dlist head xs -∗ free_entry e -∗ Φ e) -∗
  wp (RemoveTailList head) Φ.
Proof.
  iIntros "Hl HΦ". unfold RemoveTailList, dlist. rw !chain_snoc prev_snoc.
  iDestruct "Hl" as "((Hl & HF & HB) & HFe & HBh)". wp_run. wp_ret.
  iApply ("HΦ" with "[HF HBh Hl]"); [iFrame|iExists _, _; iFrame].
Qed.

(** A list without entries is told from one with entries. *)
Lemma is_list_empty_spec head xs Φ :
  dlist head xs -∗ (dlist head xs -∗ Φ (bool_decide (xs = []))) -∗ wp (IsListEmpty head) Φ.
Proof.
  iIntros "Hl HΦ". unfold IsListEmpty, dlist. destruct xs as [|x xs]; simpl;
    iDestruct "Hl" as "(HF & HB & Hl)"; wp_load; wp_ret.
  - rw Z.eqb_refl. iApply "HΦ". iFrame.
  - destruct (Z.eqb_spec x head) as [->|Hne]; [|iApply "HΦ"; iFrame].
    iDestruct (chain_blink _ _ head with "Hl HB") as %[].
    apply elem_of_app. right. apply list_elem_of_here.
Qed.

(** ** Singly linked lists *)

Fixpoint slist (head : Z) (xs : list Z) : hprop :=
  match xs with
  | [] => (Next head ↦ NULL)%I
  | x :: xs' => (⌜x <> NULL⌝ ∗ Next head ↦ x ∗ slist x xs')%I
  end.

Lemma push_entry_spec head xs e v Φ :
  e <> NULL -> slist head xs -∗ Next e ↦ v -∗ (slist head (e :: xs) -∗ Φ tt) -∗
  wp (PushEntryList head e) Φ.
Proof.
  iIntros (He) "Hl Hn HΦ". unfold PushEntryList. destruct xs as [|x xs]; simpl.
  - wp_run. iApply "HΦ". by iFrame.
  - iDestruct "Hl" as "(%Hx & Hh & Hl)". wp_run. iApply "HΦ". by iFrame.
Qed.

Lemma pop_entry_spec h xs Φ :
  slist h xs -∗
  (slist h (tail xs) -∗ (if xs is x :: _ then ∃ v, Next x ↦ v else emp) -∗
   Φ (default NULL (head xs))) -∗
  wp (PopEntryList h) Φ.
Proof.
  iIntros "Hl HΦ". unfold PopEntryList. destruct xs as [|x [|y xs]]; simpl.
  - wp_run. wp_ret. by iApply ("HΦ" with "Hl").
  - iDestruct "Hl" as "(%Hx & Hh & Hl)". wp_run. wp_ret.
    iApply ("HΦ" with "Hh"). by iExists _.
  - iDestruct "Hl" as "(%Hx & Hh & %Hy & Hn & Hl)". wp_run. wp_ret.
    iApply ("HΦ" with "[Hh Hl]"); [by iFrame|by iExists _].
Qed.
