(* ===== verification/TableCommon.v ===== *)
(** * What generic tables and AVL tables have in common

    sdk/lib/rtl/generictable.c and sdk/lib/rtl/avlsupp.c search their trees with the same
    loop and keep the bytes of an element behind a header.  Both call routines of the table's
    owner, to compare elements and to allocate and free entries.  The routines are parameters
    of the model; [TableRoutines] states what the tables rely on. *)

From Stdlib Require Import ZArith Lia.
From stdpp Require Import gmap.
From iris.proofmode Require Import proofmode.
From S2P Require Import HeapLogic LinkTree.

#[local] Open Scope Z_scope.

(** ** The code *)

(** [TABLE_SEARCH_RESULT]. *)
Definition TableEmptyTree : Z := 0.
Definition TableFoundNode : Z := 1.
Definition TableInsertAsLeft : Z := 2.
Definition TableInsertAsRight : Z := 3.

(** [RTL_GENERIC_COMPARE_RESULTS]. *)
Definition GenericLessThan : Z := 0.
Definition GenericGreaterThan : Z := 1.
Definition GenericEqual : Z := 2.

(** [RtlCopyMemory], byte by byte. *)
Fixpoint copy_bytes (n : nat) (Destination Source : Z) : M unit :=
  match n with
  | O => ret tt
  | S n' =>
      b ← load Source;
      store Destination b;;
      copy_bytes n' (Destination + 1) (Source + 1)
  end.

Definition RtlCopyMemory (Destination Source Length : Z) : M unit :=
  copy_bytes (Z.to_nat Length) Destination Source.

(** [if (p) *p = v], for an optional result. *)
Definition store_opt (p v : Z) : M unit := if p =? NULL then ret tt else store p v.

(** One round of the search loop: [Compare] compares the key with the element of a node.
    The loop ends with the search result and the node, or the parent to be. *)
Definition search_round (Compare : Z -> M Z) (CurrentNode : Z) : M (Z + Z * Z) :=
  Result ← Compare CurrentNode;
  if Result =? GenericLessThan then
    ChildNode ← load (LeftChild CurrentNode);
    ret (if ChildNode =? NULL then inr (TableInsertAsLeft, CurrentNode) else inl ChildNode)
  else if Result =? GenericGreaterThan then
    ChildNode ← load (RightChild CurrentNode);
    ret (if ChildNode =? NULL then inr (TableInsertAsRight, CurrentNode) else inl ChildNode)
  else ret (inr (TableFoundNode, CurrentNode)).

(** Calls through pointers to the owner's routines: the pointer, then the arguments. *)
Record callbacks := {
  CallCompare : Z -> Z -> Z -> Z -> M Z;
  CallAllocate : Z -> Z -> Z -> M Z;
  CallFree : Z -> Z -> Z -> M unit;
}.

(** ** Memory and routines *)

(** The bytes [bs] from the address [p] on. *)
Fixpoint bytes_at (p : Z) (bs : list Z) : hprop :=
  match bs with
  | [] => emp%I
  | b :: bs' => (p ↦ b ∗ bytes_at (p + 1) bs')%I
  end.

(** An optional result of the caller. *)
Definition opt_cell (p v : Z) : hprop := (⌜p = NULL⌝ ∨ ⌜p <> NULL⌝ ∗ p ↦ v)%I.

(** The numbers that compare routines return. *)
Definition compare_code (c : comparison) : Z :=
  match c with
  | Lt => GenericLessThan
  | Gt => GenericGreaterThan
  | Eq => GenericEqual
  end.

(** The routines of a table, by their pointers, and what they mean to the table: the
    elements that the compare routine accepts, their order, and the memory that the
    allocation routine reaches through the table. *)
Record contract := {
  fcompare : Z;
  fallocate : Z;
  ffree : Z;
  accepted : list Z -> Prop;
  cmp : list Z -> list Z -> comparison;
  context : Z -> hprop;
}.

(** The memory manager behind the routines, as its clients see it: [supply k n] is its state
    after [k] requests, with [n] blocks in use, and [grants k] tells whether it grants the next
    request. *)
Record manager := {
  grants : nat -> bool;
  supply : nat -> Z -> hprop;
}.

(** The blocks in use are those of the elements [xs] and [l] others. *)
Definition stocked {A} (mm : manager) (j : nat) (l : Z) (xs : list A) : hprop :=
  supply mm j (l + Z.of_nat (length xs)).

(** What a table relies on: a compare routine that reads two accepted elements, which may be
    the same object, and returns their order, an allocation routine that returns memory of
    its own, or NULL exactly if the request is not granted, a free routine that takes the
    memory of an entry back.  [block p n] is the memory of an entry whose header has the size
    [header] and which has [n] bytes of data. *)
Class TableRoutines (block : Z -> nat -> hprop) (header : Z) (cb : callbacks) (ct : contract)
    (mm : manager) : Prop := {
  compare_spec Table a b k x Φ :
    accepted ct k -> accepted ct x -> bytes_at a k -∗ bytes_at b x -∗
    (bytes_at a k -∗ bytes_at b x -∗ Φ (compare_code (cmp ct k x))) -∗
    wp (CallCompare cb (fcompare ct) Table a b) Φ;
  compare_same_spec Table a k Φ :
    accepted ct k -> bytes_at a k -∗
    (bytes_at a k -∗ Φ (compare_code (cmp ct k k))) -∗
    wp (CallCompare cb (fcompare ct) Table a a) Φ;
  allocate_spec Table n j m Φ :
    context ct Table -∗ supply mm j m -∗
    (∀ p, context ct Table -∗
       (if grants mm j then block p n ∗ supply mm (S j) (m + 1)
        else ⌜p = NULL⌝ ∗ supply mm (S j) m) -∗ Φ p) -∗
    wp (CallAllocate cb (fallocate ct) Table (Z.of_nat n + header)) Φ;
  free_spec Table p n j m Φ :
    block p n -∗ supply mm j m -∗ (supply mm j (m - 1) -∗ Φ tt) -∗
    wp (CallFree cb (ffree ct) Table p) Φ;
}.

(** The stock depends on the number of elements. *)
Lemma stocked_length {A B} mm j l (xs : list A) (ys : list B) :
  length xs = length ys -> stocked mm j l xs ⊣⊢ stocked mm j l ys.
Proof. unfold stocked. by intros ->. Qed.

Lemma stocked_none {A} mm j l : supply mm j l ⊣⊢ stocked mm j l (@nil A).
Proof. unfold stocked. by rw Z.add_0_r. Qed.

Lemma stocked_more {A} mm j l (xs1 : list A) x xs2 :
  supply mm j (l + Z.of_nat (length (xs1 ++ xs2)) + 1) ⊣⊢ stocked mm j l (xs1 ++ x :: xs2).
Proof.
  unfold stocked. rw !length_app /=.
  by replace (l + Z.of_nat (length xs1 + length xs2) + 1) with
    (l + Z.of_nat (length xs1 + S (length xs2))) by lia.
Qed.

Lemma stocked_less {A} mm j l (xs1 : list A) x xs2 :
  supply mm j (l + Z.of_nat (length (xs1 ++ x :: xs2)) - 1) ⊣⊢ stocked mm j l (xs1 ++ xs2).
Proof.
  unfold stocked. rw !length_app /=.
  by replace (l + Z.of_nat (length xs1 + S (length xs2)) - 1) with
    (l + Z.of_nat (length xs1 + length xs2)) by lia.
Qed.

Lemma bytes_at_app p xs ys :
  bytes_at p (xs ++ ys) ⊣⊢ bytes_at p xs ∗ bytes_at (p + Z.of_nat (length xs)) ys.
Proof.
  revert p. induction xs as [|x xs IH]; intros p; simpl.
  - by rw left_id Z.add_0_r.
  - rw IH assoc. replace (p + 1 + Z.of_nat (length xs)) with (p + Z.of_nat (S (length xs))) by lia.
    done.
Qed.

Lemma copy_bytes_spec dst src old bs Φ :
  length old = length bs ->
  bytes_at dst old -∗ bytes_at src bs -∗
  (bytes_at dst bs -∗ bytes_at src bs -∗ Φ tt) -∗ wp (copy_bytes (length bs) dst src) Φ.
Proof.
  revert dst src old Φ. induction bs as [|b bs IH]; intros dst src [|o old] Φ Hlen;
    simplify_eq/=.
  - iIntros "_ _ HΦ". wp_ret. by iApply "HΦ".
  - iIntros "[Hd Hds] [Hs Hss] HΦ". wp_run. iApply (IH with "Hds Hss"); [done|].
    iIntros "Hds Hss". iApply ("HΦ" with "[Hd Hds] [Hs Hss]"); iFrame.
Qed.

Lemma store_opt_spec p v w Φ : opt_cell p v -∗ (opt_cell p w -∗ Φ tt) -∗ wp (store_opt p w) Φ.
Proof.
  iIntros "[->|[%Hp Hp]] HΦ"; unfold store_opt.
  - wp_run. wp_ret. iApply "HΦ". by iLeft.
  - wp_run. iApply "HΦ". iRight. by iFrame.
Qed.

(** ** The search *)

Section search.
(** [ord x] is how the key compares with the element [x], [ok x] that the compare routine
    accepts it, and [R] what the comparison uses beside the element. *)
Context {A : Type} (own : Z -> A -> hprop) (ord : A -> comparison) (ok : A -> Prop)
        (R : hprop) (Compare : Z -> M Z).
Implicit Types (t l r : tree A) (c : list (frame A)).

Definition all_greater (xs : list (Z * A)) : Prop := Forall (fun y => ord y.2 = Gt) xs.
Definition all_less (xs : list (Z * A)) : Prop := Forall (fun y => ord y.2 = Lt) xs.
Definition none_equal (xs : list (Z * A)) : Prop := Forall (fun y => ord y.2 <> Eq) xs.

(** The key sees the elements in order: those it is greater than come before those it is
    less than. *)
Definition ordered (xs : list (Z * A)) : Prop :=
  forall xs1 p x xs2, xs = xs1 ++ (p, x) :: xs2 ->
    (ord x = Lt -> all_less xs2) /\ (ord x = Gt -> all_greater xs1).

(** What a search in [t] finds: a position of [t]. *)
Definition found t (res : Z * Z) : Prop :=
  exists x l r c, t = plug (Node res.2 x l r) c /\
    (res.1 = TableFoundNode /\ ord x = Eq \/
     res.1 = TableInsertAsLeft /\ l = Leaf /\
       all_greater (before c) /\ all_less ((res.2, x) :: inorder r ++ after c) \/
     res.1 = TableInsertAsRight /\ r = Leaf /\
       all_greater (before c ++ inorder l ++ [(res.2, x)]) /\ all_less (after c)).

Lemma none_equal_app o xs :
  o <> Eq -> Forall (fun y => ord y.2 = o) xs -> none_equal xs.
Proof. rw /none_equal !Forall_forall. intros Ho H y Hy. by rw (H y Hy). Qed.

(** When the search does not find the key, there is no element equal to it. *)
Lemma found_cases t res :
  found t res ->
  (exists x l r c, res.1 = TableFoundNode /\ t = plug (Node res.2 x l r) c /\ ord x = Eq) \/
  res.1 <> TableFoundNode /\ none_equal (inorder t).
Proof.
  intros (x & l & r & c & -> & [[H1 H2]|[H|H]]).
  - left. by exists x, l, r, c.
  - destruct H as (H1 & -> & HGt & HLt). right. split; [by rw H1|].
    rw inorder_plug. apply Forall_app. split; [by apply (none_equal_app Gt)|].
    by apply (none_equal_app Lt).
  - destruct H as (H1 & -> & HGt & HLt). right. split; [by rw H1|].
    rw inorder_plug app_assoc. apply Forall_app. split; [by apply (none_equal_app Gt)|].
    by apply (none_equal_app Lt).
Qed.

Context (compare_ok : forall p x Φ, ok x ->
  own p x -∗ R -∗ (own p x -∗ R -∗ Φ (compare_code (ord x))) -∗ wp (Compare p) Φ).

(** A measure of trees that is smaller for the subtrees bounds the rounds of the search. *)
Context (measure : tree A -> nat).
Context (measure_left : forall p x l r, is_node l -> (measure l < measure (Node p x l r))%nat).
Context (measure_right : forall p x l r, is_node r -> (measure r < measure (Node p x l r))%nat).

Definition search_inv t c0 (Φ : Z * Z -> hprop) (d : nat) (m : Z) : hprop :=
  (∃ n x l r c, ⌜m = n /\ d = measure (Node n x l r) /\ plug (Node n x l r) c = t /\
       all_greater (before c) /\ all_less (after c)⌝ ∗
     focus own (Node n x l r) (c ++ c0) ∗ R ∗
     (∀ res, ⌜found t res⌝ -∗ focus own t c0 -∗ R -∗ Φ res))%I.

Lemma search_round_inv t c0 Φ :
  ordered (inorder t) -> Forall (fun y => ok y.2) (inorder t) ->
  round_ok (search_round Compare) (search_inv t c0 Φ) Φ.
Proof.
  intros Hord Hok d m.
  iIntros "(%n & %x & %l & %r & %c & (-> & -> & %Ht & %Hb & %Ha) & Hf & HR & HΦ)".
  destruct (Hord (before c ++ inorder l) n x (inorder r ++ after c)) as [HLt HGt].
  { rw -Ht inorder_plug. by norm_app. }
  assert (ok x) as Hx.
  { rw Forall_forall in Hok. apply (Hok (n, x)). rw -Ht. apply elem_of_plug. }
  assert (focus own (Node n x l r) (c ++ c0) ⊣⊢ focus own t c0) as Hfocus.
  { by rw !focus_plug plug_app Ht. }
  iDestruct "Hf" as "(Hc & %Hn & (HP & HL & HR') & Hx & Hl & Hr)".
  unfold search_round. wp_call. iApply (compare_ok with "Hx HR"); [done|]. iIntros "Hx HR".
  destruct (ord x) eqn:E; simpl.
  - wp_run. wp_ret. iApply ("HΦ" with "[] [-HR] HR"); [|iApply Hfocus; by iFrame].
    iPureIntro. exists x, l, r, c. auto.
  - wp_run. destruct l as [|q y a b].
    + wp_run. wp_ret. iApply ("HΦ" with "[] [-HR] HR"); [|iApply Hfocus; by iFrame].
      iPureIntro. exists x, Leaf, r, c. split; [done|]. right. left. split_and!; try done.
      constructor; [done|]. by apply HLt.
    + iDestruct (tree_node_nonnull with "Hl") as %Hq. simpl. wp_run. wp_ret.
      iExists (measure (Node q y a b)). iSplit; [iPureIntro; by apply measure_left|].
      iExists q, y, a, b, (InL n x r :: c). iFrame. iSplit; [|done]. iPureIntro.
      split_and!; try done. simpl. constructor; [done|]. by apply HLt.
  - wp_run. destruct r as [|q y a b].
    + wp_run. wp_ret. iApply ("HΦ" with "[] [-HR] HR"); [|iApply Hfocus; by iFrame].
      iPureIntro. exists x, l, Leaf, c. split; [done|]. right. right. split_and!; try done.
      rw app_assoc. apply Forall_app. split; [by apply HGt|]. by constructor.
    + iDestruct (tree_node_nonnull with "Hr") as %Hq. simpl. wp_run. wp_ret.
      iExists (measure (Node q y a b)). iSplit; [iPureIntro; by apply measure_right|].
      iExists q, y, a, b, (InR n x l :: c). iFrame. iSplit; [|done]. iPureIntro.
      split_and!; try done. simpl. rw app_assoc. apply Forall_app. split; [by apply HGt|].
      by constructor.
Qed.

Lemma search_inv_start n x l r c0 Φ :
  let t := Node n x l r in
  focus own t c0 -∗ R -∗ (∀ res, ⌜found t res⌝ -∗ focus own t c0 -∗ R -∗ Φ res) -∗
  search_inv t c0 Φ (measure t) n.
Proof.
  iIntros (t) "Hf HR HΦ". iExists n, x, l, r, []. iFrame. iPureIntro.
  split_and!; try done; constructor.
Qed.

(** It ends within the measure of the tree. *)
Lemma search_bounded_spec n x l r c0 Φ :
  let t := Node n x l r in
  ordered (inorder t) -> Forall (fun y => ok y.2) (inorder t) ->
  focus own t c0 -∗ R -∗
  (∀ res, ⌜found t res⌝ -∗ focus own t c0 -∗ R -∗ Φ res) -∗
  wp (iter (S (measure t)) (search_round Compare) n) Φ.
Proof.
  iIntros (t Hord Hok) "Hf HR HΦ".
  iApply (wp_iter _ (search_inv t c0 Φ) Φ (S (measure t)) (measure t)); [|lia|].
  - by apply search_round_inv.
  - iApply (search_inv_start with "Hf HR HΦ").
Qed.
End search.

(** The search ends at a position that the order determines. *)
Lemma search_spec {A} (own : Z -> A -> hprop) (ord : A -> comparison) (ok : A -> Prop)
    (R : hprop) (Compare : Z -> M Z)
    (compare_ok : forall p x Φ, ok x ->
      own p x -∗ R -∗ (own p x -∗ R -∗ Φ (compare_code (ord x))) -∗ wp (Compare p) Φ)
    n x l r c0 Φ :
  let t := Node n x l r in
  ordered ord (inorder t) -> Forall (fun y => ok y.2) (inorder t) ->
  focus own t c0 -∗ R -∗
  (∀ res, ⌜found ord t res⌝ -∗ focus own t c0 -∗ R -∗ Φ res) -∗
  wp (while (search_round Compare) n) Φ.
Proof.
  iIntros (t Hord Hok) "Hf HR HΦ".
  iApply (wp_while _ (search_inv own ord R tree_size t c0 Φ) Φ (tree_size t)).
  - apply (search_round_inv own ord ok R Compare compare_ok); [..|done|done]; simpl; lia.
  - iIntros "(% & % & % & % & % & (_ & -> & _) & [_ Ht] & _)". by iApply tree_cells.
  - iApply (search_inv_start with "Hf HR HΦ").
Qed.
