(* ===== verification/GenericTable.v ===== *)
(** * Generic tables: sdk/lib/rtl/generictable.c

    A generic table keeps elements of the caller in a splay tree, ordered by the caller's
    compare routine, and in a list in the order of insertion.  An entry is a header
    ([TABLE_ENTRY_HEADER]: splay links, list links) followed by the bytes of the element.
    The caller's routines are called through the pointers in the table; they are
    parameters of the model, and what they do is stated as hypotheses. *)

From Stdlib Require Import ZArith Lia.
From S2P Require Import Prelude.
From stdpp Require Import gmap.
From iris.proofmode Require Import proofmode.
From S2P Require Import HeapLogic LinkTree SplayTree SplayDelete ListEntry TableCommon.

#[local] Open Scope Z_scope.

(** ** The structures *)

(** [RTL_GENERIC_TABLE]. *)
Definition TableRoot (Table : Z) : Z := Table.
Definition InsertOrderList (Table : Z) : Z := Table + 4.
Definition OrderedPointer (Table : Z) : Z := Table + 12.
Definition WhichOrderedElement (Table : Z) : Z := Table + 16.
Definition NumberGenericTableElements (Table : Z) : Z := Table + 20.
Definition CompareRoutine (Table : Z) : Z := Table + 24.
Definition AllocateRoutine (Table : Z) : Z := Table + 28.
Definition FreeRoutine (Table : Z) : Z := Table + 32.
Definition TableContext (Table : Z) : Z := Table + 36.

(** [TABLE_ENTRY_HEADER]: the splay links are at offset 0. *)
Definition ListEntry (Header : Z) : Z := Header + 12.
Definition UserData (Header : Z) : Z := Header + 24.

(** [FIELD_OFFSET(TABLE_ENTRY_HEADER, UserData)]. *)
Definition HeaderSize : Z := 24.

Definition MAXULONG : Z := 0xFFFFFFFF.

(** ** The code *)

(** [while (n) { Node = Node->link; n--; }]. *)
Fixpoint follow (link : Z -> Z) (n : nat) (Node : Z) : M Z :=
  match n with
  | O => ret Node
  | S n' => next ← load (link Node); follow link n' next
  end.

Section code.
Context (cb : callbacks).

Definition RtlIsGenericTableEmpty (Table : Z) : M bool :=
  root ← load (TableRoot Table);
  ret (root =? NULL).

(** The comparison of the key with the element of a node. *)
Definition compare_with (Table Buffer CurrentNode : Z) : M Z :=
  f ← load (CompareRoutine Table);
  CallCompare cb f Table Buffer (UserData CurrentNode).

(** The search result and the new value of the variable [NodeOrParent], whose old value
    is kept when the table is empty. *)
Definition RtlpFindGenericTableNodeOrParent (Table Buffer NodeOrParent : Z) : M (Z * Z) :=
  empty ← RtlIsGenericTableEmpty Table;
  if empty then ret (TableEmptyTree, NodeOrParent)
  else
    root ← load (TableRoot Table);
    while (search_round (compare_with Table Buffer)) root.

Definition RtlInitializeGenericTable (Table Compare Allocate Free Context_ : Z) : M unit :=
  InitializeListHead (InsertOrderList Table);;
  store (TableRoot Table) NULL;;
  store (NumberGenericTableElements Table) 0;;
  store (WhichOrderedElement Table) 0;;
  store (OrderedPointer Table) (InsertOrderList Table);;
  store (CompareRoutine Table) Compare;;
  store (AllocateRoutine Table) Allocate;;
  store (FreeRoutine Table) Free;;
  store (TableContext Table) Context_.

(** The end of [RtlInsertElementGenericTableFull], with a node of the tree. *)
Definition insert_finish (Table NewElement SearchResult NewNode : Z) : M Z :=
  root ← RtlSplay NewNode;
  store (TableRoot Table) root;;
  store_opt NewElement (if SearchResult =? TableFoundNode then 0 else 1);;
  ret (UserData NewNode).

Definition RtlInsertElementGenericTableFull
    (Table Buffer BufferSize NewElement NodeOrParent SearchResult : Z) : M Z :=
  if SearchResult =? TableFoundNode then
    insert_finish Table NewElement SearchResult NodeOrParent
  else
    f ← load (AllocateRoutine Table);
    NewNode ← CallAllocate cb f Table (u32 (BufferSize + HeaderSize));
    if NewNode =? NULL then
      store_opt NewElement 0;;
      ret NULL
    else
      RtlInitializeSplayLinks NewNode;;
      InsertTailList (InsertOrderList Table) (ListEntry NewNode);;
      n ← load (NumberGenericTableElements Table);
      store (NumberGenericTableElements Table) (u32 (n + 1));;
      (if SearchResult =? TableEmptyTree then store (TableRoot Table) NewNode
       else if SearchResult =? TableInsertAsLeft then
         RtlInsertAsLeftChild NodeOrParent NewNode
       else RtlInsertAsRightChild NodeOrParent NewNode);;
      RtlCopyMemory (UserData NewNode) Buffer BufferSize;;
      insert_finish Table NewElement SearchResult NewNode.

(** [uninit] is the value of the variable [NodeOrParent], which the function does not
    initialize. *)
Definition RtlInsertElementGenericTable
    (uninit Table Buffer BufferSize NewElement : Z) : M Z :=
  r ← RtlpFindGenericTableNodeOrParent Table Buffer uninit;
  RtlInsertElementGenericTableFull Table Buffer BufferSize NewElement r.2 r.1.

Definition RtlNumberGenericTableElements (Table : Z) : M Z :=
  load (NumberGenericTableElements Table).

(** The out parameters are results: the element, the node or parent (whose old value is
    given), and the search result. *)
Definition RtlLookupElementGenericTableFull (Table Buffer NodeOrParent : Z) : M (Z * Z * Z) :=
  r ← RtlpFindGenericTableNodeOrParent Table Buffer NodeOrParent;
  if r.1 =? TableFoundNode then
    root ← RtlSplay r.2;
    store (TableRoot Table) root;;
    ret (UserData r.2, r.2, r.1)
  else ret (NULL, r.2, r.1).

Definition RtlLookupElementGenericTable (uninit Table Buffer : Z) : M Z :=
  r ← RtlLookupElementGenericTableFull Table Buffer uninit;
  ret r.1.1.

(** The end of [RtlDeleteElementGenericTable], for the node that was found. *)
Definition delete_found (Table NodeOrParent : Z) : M bool :=
  root ← RtlDelete NodeOrParent;
  store (TableRoot Table) root;;
  _ ← RemoveEntryList (ListEntry NodeOrParent);
  n ← load (NumberGenericTableElements Table);
  store (NumberGenericTableElements Table) (u32 (n - 1));;
  store (WhichOrderedElement Table) 0;;
  store (OrderedPointer Table) (InsertOrderList Table);;
  f ← load (FreeRoutine Table);
  CallFree cb f Table NodeOrParent;;
  ret true.

Definition RtlDeleteElementGenericTable (uninit Table Buffer : Z) : M bool :=
  r ← RtlpFindGenericTableNodeOrParent Table Buffer uninit;
  if r.1 =? TableFoundNode then delete_found Table r.2 else ret false.
End code.

Definition RtlEnumerateGenericTable (Table : Z) (Restart : bool) : M Z :=
  empty ← RtlIsGenericTableEmpty Table;
  if empty then ret NULL
  else if Restart then
    root ← load (TableRoot Table);
    FoundNode ← leftmost root;
    root' ← RtlSplay FoundNode;
    store (TableRoot Table) root';;
    ret (if FoundNode =? NULL then NULL else UserData FoundNode)
  else
    root ← load (TableRoot Table);
    FoundNode ← RtlRealSuccessor root;
    (if FoundNode =? NULL then ret tt
     else root' ← RtlSplay FoundNode; store (TableRoot Table) root');;
    ret (if FoundNode =? NULL then NULL else UserData FoundNode).

(** [RestartKey] is the address of the caller's key. *)
Definition RtlEnumerateGenericTableWithoutSplaying (Table RestartKey : Z) : M Z :=
  empty ← RtlIsGenericTableEmpty Table;
  if empty then ret NULL
  else
    key ← load RestartKey;
    if key =? NULL then
      root ← load (TableRoot Table);
      FoundNode ← leftmost root;
      store RestartKey FoundNode;;
      ret (if FoundNode =? NULL then NULL else UserData FoundNode)
    else
      FoundNode ← RtlRealSuccessor key;
      (if FoundNode =? NULL then ret tt else store RestartKey FoundNode);;
      ret (if FoundNode =? NULL then NULL else UserData FoundNode).

(** [&CONTAINING_RECORD(OrderedNode, TABLE_ENTRY_HEADER, ListEntry)->UserData]. *)
Definition data_of_entry (OrderedNode : Z) : Z := UserData (OrderedNode - 12).

(** The walk of [RtlGetElementGenericTable] along the list, from the remembered entry or
    from the list head: the entry, and the value of [NextI] then. *)
Definition get_walk (Table NextI OrderedNode OrderedElement ElementCount : Z) : M (Z * Z) :=
  if NextI <? OrderedElement then
    if OrderedElement / 2 <? NextI then
      Node ← follow Blink (Z.to_nat (u32 (OrderedElement - NextI))) OrderedNode;
      ret (Node, NextI)
    else
      Node ← follow Flink (Z.to_nat NextI) (InsertOrderList Table);
      ret (Node, 0)
  else
    let DeltaUp := u32 (NextI - OrderedElement) in
    let DeltaDown := u32 (u32 (ElementCount - NextI) + 1) in
    if DeltaUp <=? DeltaDown then
      Node ← follow Blink (Z.to_nat DeltaUp) OrderedNode;
      ret (Node, NextI)
    else
      Node ← follow Blink (Z.to_nat DeltaDown) (InsertOrderList Table);
      ret (Node, NextI).

Definition RtlGetElementGenericTable (Table I : Z) : M Z :=
  let NextI := u32 (I + 1) in
  OrderedNode ← load (OrderedPointer Table);
  OrderedElement ← load (WhichOrderedElement Table);
  ElementCount ← load (NumberGenericTableElements Table);
  if (I =? MAXULONG) || (ElementCount <? NextI) then ret NULL
  else if NextI =? OrderedElement then ret (data_of_entry OrderedNode)
  else
    r ← get_walk Table NextI OrderedNode OrderedElement ElementCount;
    store (OrderedPointer Table) r.1;;
    store (WhichOrderedElement Table) r.2;;
    ret (data_of_entry r.1).

(** ** What a table owns *)

(** An element is the bytes behind the header of its entry. *)
Definition element (p : Z) (bs : list Z) : hprop := (⌜0 < p⌝ ∗ bytes_at (UserData p) bs)%I.

(** The memory of an entry for [n] bytes of data. *)
Definition entry_block (p : Z) (n : nat) : hprop :=
  (⌜0 < p⌝ ∗ (∃ u v w, links p u v w) ∗ free_entry (ListEntry p) ∗
   ∃ bs, ⌜length bs = n⌝ ∗ bytes_at (UserData p) bs)%I.

Section proofs.
Context (cb : callbacks) (ct : contract) (mm : manager).
Context `{!TableRoutines entry_block HeaderSize cb ct mm}.
Implicit Types (t l r : tree (list Z)) (c : list (frame (list Z))).

Abbreviation tree_at := (tree_at element).
Abbreviation focus := (focus element).
Abbreviation rooted := (rooted element).

(** The fields of the table that do not depend on its contents. *)
Definition routines (Table : Z) : hprop :=
  (CompareRoutine Table ↦ (fcompare ct) ∗ AllocateRoutine Table ↦ (fallocate ct) ∗
   FreeRoutine Table ↦ (ffree ct) ∗ context ct Table)%I.

(** The position in the list that [RtlGetElementGenericTable] remembers; in a table that is
    [reset] there is none. *)
Definition remembered (Table : Z) (ins : list Z) (reset : bool) : hprop :=
  (∃ op w, OrderedPointer Table ↦ op ∗ WhichOrderedElement Table ↦ w ∗
     ⌜op ∈ InsertOrderList Table :: (ListEntry <$> ins) /\
       (reset -> op = InsertOrderList Table /\ w = 0)⌝)%I.

(** A table with the elements [xs] in the order of the compare routine, each with the
    address of its entry, which were inserted in the order [ins]. *)
Definition table_with (Table : Z) t (ins : list Z) (reset : bool) : hprop :=
  (TableRoot Table ↦ addr t ∗ rooted t ∗
   dlist (InsertOrderList Table) (ListEntry <$> ins) ∗
   NumberGenericTableElements Table ↦ u32 (Z.of_nat (length ins)) ∗
   remembered Table ins reset ∗ routines Table ∗
   ⌜(inorder t).*1 ≡ₚ ins /\ Forall (fun y => accepted ct y.2) (inorder t)⌝)%I.

Definition generic_table (Table : Z) (xs : list (Z * list Z)) (ins : list Z) (reset : bool)
    : hprop :=
  (∃ t, ⌜inorder t = xs⌝ ∗ table_with Table t ins reset)%I.

(** The key [k] sees the elements in order. *)
Abbreviation ordered_for k := (ordered (cmp ct k)).

(** ** The search *)

(** What the search uses beside the tree. *)
Definition search_frame (Table Buffer : Z) (k : list Z) : hprop :=
  (bytes_at Buffer k ∗ CompareRoutine Table ↦ fcompare ct)%I.

Lemma compare_with_spec Table Buffer k p x Φ :
  accepted ct k -> accepted ct x -> element p x -∗ search_frame Table Buffer k -∗
  (element p x -∗ search_frame Table Buffer k -∗ Φ (compare_code (cmp ct k x))) -∗
  wp (compare_with cb Table Buffer p) Φ.
Proof.
  iIntros (Hk Hx) "[%Hp Hx] [HB HC] HΦ". unfold compare_with. wp_load.
  iApply (compare_spec with "HB Hx"); [done|done|]. iIntros "HB Hx".
  iApply ("HΦ" with "[$Hx //]"). iFrame.
Qed.

(** An empty table, or a position in the tree. *)
Definition search_result (k : list Z) t (uninit : Z) (res : Z * Z) : Prop :=
  t = Leaf /\ res = (TableEmptyTree, uninit) \/ found (cmp ct k) t res.

Lemma find_spec Table Buffer k t uninit Φ :
  ordered_for k (inorder t) -> accepted ct k -> Forall (fun y => accepted ct y.2) (inorder t) ->
  TableRoot Table ↦ addr t -∗ rooted t -∗ bytes_at Buffer k -∗ CompareRoutine Table ↦ fcompare ct -∗
  (∀ res, ⌜search_result k t uninit res⌝ -∗
     TableRoot Table ↦ addr t -∗ rooted t -∗ bytes_at Buffer k -∗
     CompareRoutine Table ↦ fcompare ct -∗ Φ res) -∗
  wp (RtlpFindGenericTableNodeOrParent cb Table Buffer uninit) Φ.
Proof.
  iIntros (Hord Hk Hvalid) "HT Ht HB HC HΦ".
  unfold RtlpFindGenericTableNodeOrParent, RtlIsGenericTableEmpty. wp_load.
  destruct t as [|n x l r].
  - simpl. wp_ret. iApply ("HΦ" with "[] HT Ht HB HC"). by iLeft.
  - iDestruct (tree_node_nonnull with "Ht") as %Hn. cbn [addr]. wp_run.
    iDestruct (focus_root with "Ht") as "Ht".
    iApply (search_spec element (cmp ct k) (accepted ct) (search_frame Table Buffer k)
      with "Ht [$HB $HC]"); [by intros; apply compare_with_spec|done|done|].
    iIntros (res Hres) "Ht [HB HC]". iDestruct (focus_root with "Ht") as "Ht".
    iApply ("HΦ" with "[] HT Ht HB HC"). by iRight.
Qed.

(** ** Insertion *)

Lemma remembered_snoc Table ins s p :
  remembered Table ins s ⊢ remembered Table (ins ++ [p]) s.
Proof. clear TableRoutines0 cb mm.
  iIntros "(%op & %w & Hop & Hw & %Hin & %Hs)". iExists op, w. iFrame. iPureIntro.
  split; [|done]. rw fmap_app. set_solver.
Qed.

(** The end of an insertion, at a node of the tree. *)
Lemma insert_finish_spec Table New v SearchResult n x l r c ins s root Φ :
  TableRoot Table ↦ root -∗ focus (Node n x l r) c -∗
  dlist (InsertOrderList Table) (ListEntry <$> ins) -∗
  NumberGenericTableElements Table ↦ u32 (Z.of_nat (length ins)) -∗
  remembered Table ins s -∗ routines Table -∗ opt_cell New v -∗
  ⌜(inorder (plug (Node n x l r) c)).*1 ≡ₚ ins /\
    Forall (fun y => accepted ct y.2) (inorder (plug (Node n x l r) c))⌝ -∗
  (generic_table Table (inorder (plug (Node n x l r) c)) ins s -∗
   opt_cell New (if SearchResult =? TableFoundNode then 0 else 1) -∗ Φ (UserData n)) -∗
  wp (insert_finish Table New SearchResult n) Φ.
Proof.
  iIntros "HT Hf Hl Hn Hr Hrt Hnew %Hperm HΦ". unfold insert_finish.
  wp_call. iApply (RtlSplay_spec with "Hf"). iIntros "Ht". wp_store.
  wp_call. iApply (store_opt_spec with "Hnew"). iIntros "Hnew". wp_ret.
  iApply ("HΦ" with "[-Hnew] Hnew"). iExists (splay (Node n x l r) c).
  rw splay_inorder. iSplit; [done|]. rw /table_with splay_addr splay_inorder. by iFrame.
Qed.

(** The result of an insertion: the element was there, the request for memory is not granted,
    or the new element stands between the smaller and the larger ones. *)
Definition insert_result (Table New : Z) (k : list Z) xs ins s (j : nat) (m r : Z) : hprop :=
  ((∃ xs1 p x xs2, ⌜xs = xs1 ++ (p, x) :: xs2 /\ cmp ct k x = Eq /\ r = UserData p⌝ ∗
      generic_table Table xs ins s ∗ opt_cell New 0 ∗ stocked mm j m xs) ∨
   (⌜r = NULL /\ none_equal (cmp ct k) xs /\ grants mm j = false⌝ ∗
      generic_table Table xs ins s ∗ opt_cell New 0 ∗ stocked mm (S j) m xs) ∨
   (∃ xs1 p xs2, ⌜xs = xs1 ++ xs2 /\ r = UserData p /\ grants mm j = true /\
        all_greater (cmp ct k) xs1 /\ all_less (cmp ct k) xs2⌝ ∗
      generic_table Table (xs1 ++ (p, k) :: xs2) (ins ++ [p]) s ∗ opt_cell New 1 ∗
      stocked mm (S j) m (xs1 ++ (p, k) :: xs2)))%I.

(** Where the new node goes: a tree in which it has a position. *)
Definition insert_place (k : list Z) (p : Z) t (res : Z * Z) xs1 xs2 c' : Prop :=
  res.1 <> TableFoundNode /\ inorder t = xs1 ++ xs2 /\
  inorder (plug (Node p k Leaf Leaf) c') = xs1 ++ (p, k) :: xs2 /\
  all_greater (cmp ct k) xs1 /\ all_less (cmp ct k) xs2.

Lemma insert_link_spec Table k p t res uninit Φ :
  search_result k t uninit res ->
  res.1 <> TableFoundNode -> p <> NULL ->
  TableRoot Table ↦ addr t -∗ rooted t -∗ links p p NULL NULL -∗
  (∀ xs1 xs2 c' root, ⌜insert_place k p t res xs1 xs2 c'⌝ -∗
     TableRoot Table ↦ root -∗ links p (parent_of p c') NULL NULL -∗
     ctx_at element p c' -∗ Φ tt) -∗
  wp (if res.1 =? TableEmptyTree then store (TableRoot Table) p
      else if res.1 =? TableInsertAsLeft then RtlInsertAsLeftChild res.2 p
      else RtlInsertAsRightChild res.2 p) Φ.
Proof.
  iIntros (Hfound Hnf Hp) "HT Ht (HP & HL & HR) HΦ".
  destruct Hfound as [[-> ->]|(x & l & r & c & -> & [[H _]|[H|H]])]; [|done|..].
  - simpl. wp_store. iApply ("HΦ" $! [] [] [] p with "[] HT [HP HL HR]"); [|by iFrame|done].
    iPureIntro. repeat split; try done; by constructor.
  - destruct H as (H1 & -> & HGt & HLt). rw -focus_plug H1.
    iDestruct "Ht" as "(Hc & %Hn & (HPn & HLn & HRn) & Hx & _ & Hr)".
    unfold RtlInsertAsLeftChild. simpl. wp_run.
    iApply ("HΦ" $! (before c) ((res.2, x) :: inorder r ++ after c) (InL res.2 x r :: c)
      with "[] HT [HP HL HR]"); [|by iFrame|by iFrame].
    iPureIntro. split; [by rw H1|]. rw !inorder_plug. norm_app. by auto.
  - destruct H as (H1 & -> & HGt & HLt). rw -focus_plug H1.
    iDestruct "Ht" as "(Hc & %Hn & (HPn & HLn & HRn) & Hx & Hl & _)".
    unfold RtlInsertAsRightChild. simpl. wp_run.
    iApply ("HΦ" $! (before c ++ inorder l ++ [(res.2, x)]) (after c) (InR res.2 x l :: c)
      with "[] HT [HP HL HR]"); [|by iFrame|by iFrame].
    iPureIntro. split; [by rw H1|]. rw !inorder_plug. norm_app. by auto.
Qed.

Lemma u32_succ n : u32 (Z.of_nat (n + 1)) = u32 (u32 (Z.of_nat n) + 1).
Proof. rw /u32 Z.add_mod_idemp_l; [|lia]. f_equal. lia. Qed.

Lemma search_cases k t uninit res :
  search_result k t uninit res ->
  (exists x l r c, res.1 = TableFoundNode /\ t = plug (Node res.2 x l r) c /\ cmp ct k x = Eq) \/
  res.1 <> TableFoundNode /\ none_equal (cmp ct k) (inorder t).
Proof.
  intros [[-> ->]|Hres]; [right; split; [done|by constructor]|]. by apply found_cases.
Qed.

Lemma insert_new_spec Table Buffer New v k t ins s res uninit j m Φ :
  search_result k t uninit res ->
  res.1 <> TableFoundNode -> accepted ct k -> Z.of_nat (length k) + HeaderSize < 2 ^ 32 ->
  table_with Table t ins s -∗ bytes_at Buffer k -∗ opt_cell New v -∗ stocked mm j m (inorder t) -∗
  (∀ q, bytes_at Buffer k -∗ insert_result Table New k (inorder t) ins s j m q -∗ Φ q) -∗
  wp (RtlInsertElementGenericTableFull cb Table Buffer (Z.of_nat (length k)) New
        res.2 res.1) Φ.
Proof.
  iIntros (Hfound Hnf Hk Hlen) "(HT & Ht & Hl & Hn & Hr & (HC & HA & HF & HX) & %Hperm & %Hvalid) HB Hnew Hs HΦ".
  unfold RtlInsertElementGenericTableFull. wp_run. rw (u32_small (Z.of_nat (length k) + _)); [|unfold HeaderSize in *; lia].
  wp_call. iApply (allocate_spec with "HX Hs"). iIntros (p) "HX Hp".
  destruct (grants mm j) eqn:Eg; last first.
  - iDestruct "Hp" as "[-> Hs]". wp_run. wp_call. iApply (store_opt_spec with "Hnew"). iIntros "Hnew". wp_ret.
    iApply ("HΦ" with "HB"). iRight. iLeft. iFrame "Hnew Hs". iSplit; [|iExists t; by iFrame].
    iPureIntro. split_and!; [done| |done]. by destruct (search_cases _ _ _ _ Hfound) as [(? & ? & ? & ? & ? & _)|[_ ?]].
  - iDestruct "Hp" as "[(%Hp & (%u & %v1 & %w & HP & HL & HR) & He & %old & %Hold & Hd) Hs]".
    assert (p <> NULL) as Hnn by (unfold NULL; lia). unfold RtlInitializeSplayLinks. wp_run.
    wp_call. iApply (insert_tail_spec with "Hl He"). iIntros "Hl". wp_run.
    wp_call. iApply (insert_link_spec _ k p _ _ uninit with "HT Ht [HP HL HR]"); [done..|by iFrame|].
    iIntros (xs1 xs2 c' root (_ & Hin & Hin' & HGt & HLt)) "HT Hlinks Hc".
    wp_call. unfold RtlCopyMemory. rw Nat2Z.id.
    iApply (copy_bytes_spec with "Hd HB"); [done|]. iIntros "Hd HB".
    rw -(fmap_app ListEntry ins [p]).
    iApply (insert_finish_spec _ _ _ _ p k Leaf Leaf c' (ins ++ [p]) with
      "HT [Hc Hlinks Hd] Hl [Hn] [Hr] [$HC $HA $HF $HX] Hnew").
    + by iFrame.
    + by rw length_app /= u32_succ.
    + by iApply remembered_snoc.
    + iPureIntro. rw Hin'. rw -Hperm Hin !fmap_app /=. rw Hin Forall_app in Hvalid. split.
      * by rw -Permutation_middle -Permutation_cons_append.
      * apply Forall_app. split; [apply Hvalid|]. constructor; [done|apply Hvalid].
    + iIntros "Ht Hnew". iApply ("HΦ" with "HB"). iRight. iRight. iExists xs1, p, xs2.
      rw Hin' (proj2 (Z.eqb_neq _ _) Hnf) Hin stocked_more. by iFrame.
Qed.

(** [RtlInsertElementGenericTable] on every path. *)
Lemma insert_element_spec Table Buffer New v k xs ins s uninit j m Φ :
  ordered_for k xs -> accepted ct k -> Z.of_nat (length k) + HeaderSize < 2 ^ 32 ->
  generic_table Table xs ins s -∗ bytes_at Buffer k -∗ opt_cell New v -∗ stocked mm j m xs -∗
  (∀ q, bytes_at Buffer k -∗ insert_result Table New k xs ins s j m q -∗ Φ q) -∗
  wp (RtlInsertElementGenericTable cb uninit Table Buffer
        (Z.of_nat (length k)) New) Φ.
Proof.
  iIntros (Hord Hk Hlen) "(%t & <- & HT & Ht & Hl & Hn & Hr & (HC & HA & HF & HX) & %Hperm & %Hvalid) HB Hnew Hs HΦ".
  unfold RtlInsertElementGenericTable.
  wp_call. iApply (find_spec with "HT Ht HB HC"); [done..|].
  iIntros (res Hres) "HT Ht HB HC". destruct (decide (res.1 = TableFoundNode)) as [E|E].
  - destruct Hres as [[_ ->]|Hres]; [done|].
    destruct (found_cases _ _ _ Hres) as [(x & l & r & c & _ & -> & Hx)|[Hnf _]]; [|done].
    unfold RtlInsertElementGenericTableFull. rw E. simpl. rw -focus_plug.
    iApply (insert_finish_spec with "HT Ht Hl Hn Hr [$HC $HA $HF $HX] Hnew"); [done|].
    iIntros "Ht Hnew". iApply ("HΦ" with "HB"). iLeft.
    iExists (before c ++ inorder l), res.2, x, (inorder r ++ after c). iFrame.
    iPureIntro. rw inorder_plug. norm_app. done.
  - iApply (insert_new_spec _ _ _ _ k t ins s res uninit with "[$HT $Ht $Hl $Hn $Hr $HC $HA $HF $HX //] HB Hnew Hs HΦ");
      done.
Qed.

(** The element equal to the key, or NULL when there is none. *)
Definition lookup_result (k : list Z) (xs : list (Z * list Z)) (q : Z) : Prop :=
  (exists xs1 p x xs2, xs = xs1 ++ (p, x) :: xs2 /\ cmp ct k x = Eq /\ q = UserData p) \/
  q = NULL /\ none_equal (cmp ct k) xs.

Lemma lookup_element_spec Table Buffer k xs ins s uninit Φ :
  ordered_for k xs -> accepted ct k ->
  generic_table Table xs ins s -∗ bytes_at Buffer k -∗
  (∀ q, ⌜lookup_result k xs q⌝ -∗ generic_table Table xs ins s -∗ bytes_at Buffer k -∗ Φ q) -∗
  wp (RtlLookupElementGenericTable cb uninit Table Buffer) Φ.
Proof.
  iIntros (Hord Hk) "(%t & <- & HT & Ht & Hl & Hn & Hr & (HC & HA & HF & HX) & %Hperm & %Hvalid) HB HΦ".
  unfold RtlLookupElementGenericTable, RtlLookupElementGenericTableFull.
  wp_call. iApply (find_spec with "HT Ht HB HC"); [done..|].
  iIntros (res Hres) "HT Ht HB HC".
  destruct (search_cases _ _ _ _ Hres) as [(x & l & r & c & E & -> & Hx)|[E Hne]].
  - rw E. wp_run. rw -focus_plug. wp_call. iApply (RtlSplay_spec with "Ht"). iIntros "Ht".
    wp_run. wp_ret. iApply ("HΦ" with "[] [-HB] HB").
    + iPureIntro. left. exists (before c ++ inorder l), res.2, x, (inorder r ++ after c).
      rw inorder_plug. by norm_app.
    + iExists (splay (Node res.2 x l r) c).
      rw /table_with splay_addr splay_inorder. by iFrame.
  - wp_run. wp_ret. iApply ("HΦ" with "[] [-HB] HB"); [by iPureIntro; right|].
    iExists t. by iFrame.
Qed.

Lemma u32_pred n : u32 (u32 (Z.of_nat (S n)) - 1) = u32 (Z.of_nat n).
Proof. rw /u32 Zminus_mod_idemp_l. f_equal. lia. Qed.

Lemma delete_found_spec Table n x l r c ins s j m Φ :
  table_with Table (plug (Node n x l r) c) ins s -∗ stocked mm j m (inorder (plug (Node n x l r) c)) -∗
  (∀ ins1 ins2, ⌜ins = ins1 ++ n :: ins2⌝ -∗
     generic_table Table ((before c ++ inorder l) ++ inorder r ++ after c) (ins1 ++ ins2) true -∗
     stocked mm j m ((before c ++ inorder l) ++ inorder r ++ after c) -∗ Φ true) -∗
  wp (delete_found cb Table n) Φ.
Proof.
  iIntros "(HT & Ht & Hl & Hn & Hr & (HC & HA & HF & HX) & %Hperm & %Hvalid) Hs HΦ".
  unfold delete_found. rw -focus_plug.
  wp_call. iApply (RtlDelete_spec with "Ht"). iIntros (t' Ht') "Ht Hd". wp_run.
  assert (n ∈ ins) as Hin.
  { rw -Hperm inorder_plug !fmap_app /=. set_solver. }
  apply list_elem_of_split in Hin as (ins1 & ins2 & ->). rw fmap_app fmap_cons.
  wp_call. iApply (remove_entry_spec with "Hl"). iIntros "Hl He".
  iDestruct "Hr" as "(%op & %w & Hop & Hw & _)". wp_run.
  wp_call. iApply (free_spec _ _ (length x) with "[Hd He] Hs").
  { iDestruct "Hd" as "(%Hn & %u & %v & %w' & Hlinks & %Hpos & Hd)". iSplit; [done|].
    iSplitL "Hlinks"; [iExists _, _, _; iFrame|]. iFrame "He". iExists x. by iFrame. }
  iIntros "Hs". wp_ret. iApply ("HΦ" with "[//] [-Hs] [Hs]"); last first.
  { rw inorder_plug /= -app_assoc app_assoc stocked_less. by norm_app. }
  iExists t'. rw -fmap_app. rw inorder_plug !fmap_app /= in Hperm.
  rw /table_with Ht'. iFrame "HT Ht Hl HC HA HF HX". iSplit; [iPureIntro; by norm_app|].
  iSplitL "Hn"; [|iSplitL "Hop Hw"].
  - rw length_app /= Nat.add_succ_r u32_pred -length_app. iFrame.
  - iExists _, _. iFrame. iPureIntro. split; [apply list_elem_of_here|done].
  - iPureIntro. split; [|by rw inorder_plug /= !Forall_app Forall_cons in Hvalid; rw !Forall_app; naive_solver].
    apply (Permutation_cons_inv (a := n)).
    rw -(Permutation_middle ins1 ins2) in Hperm. rw -Hperm !fmap_app.
    rw -!app_assoc /= -Permutation_middle. by rw app_assoc -Permutation_middle -app_assoc.
Qed.

Lemma delete_element_spec Table Buffer k xs ins s uninit j m Φ :
  ordered_for k xs -> accepted ct k ->
  generic_table Table xs ins s -∗ bytes_at Buffer k -∗ stocked mm j m xs -∗
  (∀ b, ((∃ xs1 p x xs2 ins1 ins2, ⌜b = true /\ xs = xs1 ++ (p, x) :: xs2 /\ cmp ct k x = Eq /\
              ins = ins1 ++ p :: ins2⌝ ∗
            generic_table Table (xs1 ++ xs2) (ins1 ++ ins2) true ∗ stocked mm j m (xs1 ++ xs2)) ∨
         (⌜b = false /\ none_equal (cmp ct k) xs⌝ ∗ generic_table Table xs ins s ∗ stocked mm j m xs)) -∗
     bytes_at Buffer k -∗ Φ b) -∗
  wp (RtlDeleteElementGenericTable cb uninit Table Buffer) Φ.
Proof.
  iIntros (Hord Hk) "(%t & <- & HT & Ht & Hl & Hn & Hr & (HC & HA & HF & HX) & %Hperm & %Hvalid)".
  iIntros "HB Hs HΦ". unfold RtlDeleteElementGenericTable.
  wp_call. iApply (find_spec with "HT Ht HB HC"); [done..|].
  iIntros (res Hres) "HT Ht HB HC".
  destruct (search_cases _ _ _ _ Hres) as [(x & l & r & c & E & -> & Hx)|[E Hne]].
  - rw E. wp_test.
    iApply (delete_found_spec with "[$HT $Ht $Hl $Hn $Hr $HC $HA $HF $HX //] Hs").
    iIntros (ins1 ins2 ->) "Ht Hs". iApply ("HΦ" with "[Ht Hs] HB"). iLeft.
    iExists (before c ++ inorder l), res.2, x, (inorder r ++ after c), ins1, ins2.
    iFrame "Ht Hs". iPureIntro. rw inorder_plug. by norm_app.
  - wp_run. wp_ret. iApply ("HΦ" with "[-HB] HB"). iRight. iSplit; [done|]. iFrame "Hs".
    iExists t. by iFrame.
Qed.
End proofs.
