(* ===== verification/GenericTableWalk.v ===== *)
(** * Generic tables: enumeration and access by index

    [RtlEnumerateGenericTable] and [RtlEnumerateGenericTableWithoutSplaying] visit the
    elements in order.  [RtlGetElementGenericTable] follows the list of insertion: it finds
    the element when it walks back from the remembered entry or from the list head, but its
    walk forward follows the back links as well. *)

From Stdlib Require Import ZArith Lia.
From S2P Require Import Prelude.
From stdpp Require Import gmap.
From iris.proofmode Require Import proofmode.
From S2P Require Import HeapLogic LinkTree SplayTree SplayDelete ListEntry TableCommon GenericTable.

#[local] Open Scope Z_scope.

Section walks.
Context (cb : callbacks) (ct : contract) (mm : manager).
Context `{!TableRoutines entry_block HeaderSize cb ct mm}.
Implicit Types (t l r : tree (list Z)) (c : list (frame (list Z))).

Abbreviation tree_at := (tree_at element).
Abbreviation focus := (focus element).
Abbreviation rooted := (rooted element).
Abbreviation routines := (routines ct).
Abbreviation table_with := (table_with ct).
Abbreviation generic_table := (generic_table ct).

(** ** A new table *)

(** The memory of an [RTL_GENERIC_TABLE]. *)
Definition table_memory (Table : Z) : hprop :=
  ((∃ v, TableRoot Table ↦ v) ∗ free_entry (InsertOrderList Table) ∗
   (∃ v, OrderedPointer Table ↦ v) ∗ (∃ v, WhichOrderedElement Table ↦ v) ∗
   (∃ v, NumberGenericTableElements Table ↦ v) ∗ (∃ v, CompareRoutine Table ↦ v) ∗
   (∃ v, AllocateRoutine Table ↦ v) ∗ (∃ v, FreeRoutine Table ↦ v) ∗
   (∃ v, TableContext Table ↦ v))%I.

Lemma initialize_spec Table ctx Φ :
  table_memory Table -∗ (TableContext Table ↦ ctx -∗ context ct Table) -∗
  (generic_table Table [] [] true -∗ Φ tt) -∗
  wp (RtlInitializeGenericTable Table (fcompare ct) (fallocate ct) (ffree ct) ctx) Φ.
Proof.
  iIntros "([% HT] & He & [% Ho] & [% Hw] & [% Hn] & [% HC] & [% HA] & [% HF] & [% Hx]) Hctx HΦ".
  unfold RtlInitializeGenericTable.
  wp_call. iApply (initialize_list_head_spec with "He"). iIntros "Hl". wp_run.
  iDestruct ("Hctx" with "Hx") as "Hx". iApply "HΦ". iExists Leaf. iSplit; [done|]. iFrame.
  iSplit; [iPureIntro; split; [apply list_elem_of_here|done]|].
  iPureIntro. split; constructor.
Qed.

(** ** Enumeration *)

(** A table that has the element at index [i] of the order at the root of its tree. *)
Definition table_at_index (Table : Z) (xs : list (Z * list Z)) (ins : list Z) (s : bool)
    (i : nat) : hprop :=
  (∃ p x l r, ⌜inorder (Node p x l r) = xs /\ length (inorder l) = i⌝ ∗
     table_with Table (Node p x l r) ins s)%I.

Lemma table_at_index_forget Table xs ins s i :
  table_at_index Table xs ins s i ⊢ generic_table Table xs ins s.
Proof. iIntros "(%p & %x & %l & %r & (%H & _) & Ht)". iExists _. by iFrame. Qed.

(** Entries are not at NULL. *)
Lemma enumerated_positive Table xs1 p x xs2 ins s :
  table_at_index Table (xs1 ++ (p, x) :: xs2) ins s (length xs1) ⊢ ⌜0 < p⌝.
Proof.
  iIntros "(%q & %y & %l & %r & (%Ht & %Hl) & _ & (_ & _ & [%Hp _] & _) & _)". simpl in Ht.
  apply app_inj_1 in Ht as [_ Ht]; [|done]. by injection Ht as <- _ _.
Qed.

Lemma table_positive Table xs ins s : generic_table Table xs ins s ⊢ ⌜Forall (fun y => 0 < y.1) xs⌝.
Proof.
  iIntros "(%t & <- & HT & Ht & _)". rw /rooted tree_at_data. iDestruct "Ht" as "[_ Ht]".
  rw Forall_forall. iIntros (y Hy). apply list_elem_of_lookup in Hy as [i Hi].
  by iDestruct (big_sepL_lookup with "Ht") as "[%H _]".
Qed.

Lemma generic_table_cells_twice Table xs ins s :
  generic_table Table xs ins s ⊢ cells (2 * length xs).
Proof.
  iIntros "(%t & <- & HT & Ht & _)". rw -tree_size_inorder. by iApply tree_cells_twice.
Qed.

Lemma generic_table_cells Table xs ins s : generic_table Table xs ins s ⊢ cells (length xs).
Proof.
  iIntros "(%t & <- & HT & Ht & _)". rw -tree_size_inorder. by iApply tree_cells.
Qed.

Lemma app_cons_assoc {B} (xs : list B) x ys : xs ++ x :: ys = (xs ++ [x]) ++ ys.
Proof. by rw -app_assoc. Qed.

Lemma focus_nonnull n x l r c : focus (Node n x l r) c ⊢ ⌜n <> NULL⌝.
Proof. iIntros "[_ Ht]". by iApply tree_node_nonnull. Qed.

(** Splaying brings the element at index [i] to the root. *)
Lemma splay_index Table n x l r c xs ins s i root Φ :
  inorder (plug (Node n x l r) c) = xs -> length (before c ++ inorder l) = i ->
  xs.*1 ≡ₚ ins -> Forall (fun y => accepted ct y.2) xs ->
  TableRoot Table ↦ root -∗ focus (Node n x l r) c -∗
  dlist (InsertOrderList Table) (ListEntry <$> ins) -∗
  NumberGenericTableElements Table ↦ u32 (Z.of_nat (length ins)) -∗
  remembered Table ins s -∗ routines Table -∗
  (table_at_index Table xs ins s i -∗ Φ tt) -∗
  wp (root' ← RtlSplay n; store (TableRoot Table) root') Φ.
Proof.
  iIntros (Hxs Hi Hperm Hacc) "HT Hf Hl Hn Hr Hrt HΦ".
  wp_call. iApply (RtlSplay_spec with "Hf"). iIntros "Ht". wp_store. iApply "HΦ".
  destruct (splay_root c n x l r) as (a & b & Hsp & Ha & Hb).
  iExists n, x, a, b. rw -Hsp splay_inorder Hxs Ha. iSplit; [done|].
  rw /table_with splay_addr splay_inorder Hxs. by iFrame.
Qed.

Lemma enumerate_restart_spec Table p x xs ins s Φ :
  generic_table Table ((p, x) :: xs) ins s -∗
  (table_at_index Table ((p, x) :: xs) ins s 0 -∗ Φ (UserData p)) -∗
  wp (RtlEnumerateGenericTable Table true) Φ.
Proof.
  iIntros "(%t & %Ht & HT & Ht & Hl & Hn & Hr & Hrt & %Hperm & %Hacc) HΦ".
  unfold RtlEnumerateGenericTable, RtlIsGenericTableEmpty. wp_load.
  destruct t as [|n y l r]; [done|].
  iDestruct (tree_node_nonnull with "Ht") as %Hnn. cbn [addr]. wp_run.
  wp_call. rw -focus_root. iApply (leftmost_spec with "Ht"). iIntros "Ht".
  destruct (position _ [] p x xs Ht) as (l' & r' & c & E & Hb & Ha).
  rw Ht focus_plug /= E -focus_plug. iDestruct (focus_nonnull with "Ht") as %Hp.
  iApply wp_bind_split. iApply wp_bind. rw Ht in Hperm Hacc. rw E in Ht.
  iApply (splay_index _ _ _ _ _ _ _ _ _ 0 with "HT Ht Hl Hn Hr Hrt"); [done|by rw -Hb|done|done|].
  iIntros "Ht". wp_test. wp_ret. by iApply "HΦ".
Qed.

Lemma enumerate_empty_spec Table ins s b Φ :
  generic_table Table [] ins s -∗ (generic_table Table [] ins s -∗ Φ NULL) -∗
  wp (RtlEnumerateGenericTable Table b) Φ.
Proof.
  iIntros "(%t & %Ht & HT & Ht & Hrest) HΦ".
  unfold RtlEnumerateGenericTable, RtlIsGenericTableEmpty. wp_load.
  destruct t as [|n y l r]; [|by destruct (inorder_node_nonempty n y l r)]. wp_run. wp_ret.
  iApply "HΦ". iExists Leaf. iSplit; [done|]. iFrame.
Qed.

Lemma enumerate_next_spec Table xs ins s i Φ :
  table_at_index Table xs ins s i -∗
  (match xs !! S i with
   | Some (q, _) => table_at_index Table xs ins s (S i) -∗ Φ (UserData q)
   | None => table_at_index Table xs ins s i -∗ Φ NULL
   end) -∗
  wp (RtlEnumerateGenericTable Table false) Φ.
Proof.
  iIntros "(%p & %x & %l & %r & (%Ht & %Hi) & HT & Ht & Hl & Hn & Hr & Hrt & %Hperm & %Hacc) HΦ".
  iDestruct (tree_node_nonnull with "Ht") as %Hp.
  unfold RtlEnumerateGenericTable, RtlIsGenericTableEmpty. cbn [addr]. wp_run.
  wp_call. rw -focus_root. iApply (real_successor_spec with "Ht"). iIntros "Ht". rw app_nil_r.
  assert (xs !! S i = head (inorder r)) as ->.
  { rw -Ht /= lookup_app_r; [|lia]. rw Hi Nat.sub_succ_l // Nat.sub_diag /=.
    by destruct (inorder r). }
  destruct (inorder r) as [|[q y] ys] eqn:Er; simpl.
  - wp_run. wp_ret. iApply "HΦ". iExists p, x, l, r. rw focus_root. iFrame. done.
  - assert (inorder (Node p x l r) = (inorder l ++ [(p, x)]) ++ (q, y) :: ys) as Hq.
    { by rw /= Er -app_assoc. }
    destruct (position _ _ _ _ _ Hq) as (l' & r' & c & E & Hb & Ha).
    rw focus_plug /= E -focus_plug. iDestruct (focus_nonnull with "Ht") as %Hqn. wp_test.
    iApply wp_bind_split. iApply wp_bind. rw Ht in Hperm Hacc. rw E in Ht.
    iApply (splay_index _ _ _ _ _ _ _ _ _ (S i) with "HT Ht Hl Hn Hr Hrt"); [done| |done|done|].
    { rw -Hb length_app /=. lia. }
    iIntros "Ht". wp_ret. by iApply "HΦ".
Qed.

(** The enumeration that does not splay keeps its position in the caller's key. *)
Lemma enumerate_without_splaying_first Table key p x xs ins s Φ :
  generic_table Table ((p, x) :: xs) ins s -∗ key ↦ NULL -∗
  (generic_table Table ((p, x) :: xs) ins s -∗ key ↦ p -∗ Φ (UserData p)) -∗
  wp (RtlEnumerateGenericTableWithoutSplaying Table key) Φ.
Proof.
  iIntros "(%t & %Ht & HT & Ht & Hl & Hn & Hr & Hrt & %Hperm & %Hacc) Hk HΦ".
  unfold RtlEnumerateGenericTableWithoutSplaying, RtlIsGenericTableEmpty.
  destruct t as [|n y l r]; [done|].
  iDestruct (tree_node_nonnull with "Ht") as %Hnn. cbn [addr]. wp_run. rw -focus_root.
  wp_call. iApply (leftmost_spec with "Ht"). iIntros "Ht". rw Ht /=.
  iAssert ⌜p <> NULL⌝%I as %Hp.
  { destruct (position _ [] p x xs Ht) as (l' & r' & c & E & _).
    rw focus_plug /= E -focus_plug. by iApply focus_nonnull. }
  wp_run. wp_ret. iApply ("HΦ" with "[-Hk] Hk"). iExists (Node n y l r). rw focus_root.
  by iFrame.
Qed.

Lemma enumerate_without_splaying_next Table key xs1 p x xs2 ins s Φ :
  generic_table Table (xs1 ++ (p, x) :: xs2) ins s -∗ key ↦ p -∗
  (generic_table Table (xs1 ++ (p, x) :: xs2) ins s -∗
   match xs2 with
   | (q, _) :: _ => key ↦ q -∗ Φ (UserData q)
   | [] => key ↦ p -∗ Φ NULL
   end) -∗
  wp (RtlEnumerateGenericTableWithoutSplaying Table key) Φ.
Proof.
  iIntros "(%t & %Ht & HT & Ht & Hl & Hn & Hr & Hrt & %Hperm & %Hacc) Hk HΦ".
  unfold RtlEnumerateGenericTableWithoutSplaying, RtlIsGenericTableEmpty.
  destruct t as [|n y l r]; [by destruct xs1|].
  iDestruct (tree_node_nonnull with "Ht") as %Hnn.
  destruct (position _ _ _ _ _ Ht) as (l' & r' & c & E & Hb & Ha).
  rw -focus_root focus_plug /= E -focus_plug. iDestruct (focus_nonnull with "Ht") as %Hp.
  cbn [addr]. wp_run.
  wp_call. iApply (real_successor_spec with "Ht"). iIntros "Ht". rw -Ha.
  iAssert (rooted (Node n y l r)) with "[Ht]" as "Ht".
  { by rw focus_plug -E. }
  iAssert ⌜xs2 <> [] -> naddr (head xs2) <> NULL⌝%I as %Hq.
  { destruct xs2 as [|[q z] xs3]; [done|].
    rw app_cons_assoc in Ht. destruct (position _ _ _ _ _ Ht) as (? & ? & c' & E' & _).
    rw E' -focus_plug. iIntros "_". by iApply focus_nonnull. }
  destruct xs2 as [|[q z] xs3]; simpl in *.
  - wp_run. wp_ret. iApply ("HΦ" with "[-Hk] Hk"). iExists (Node n y l r). by iFrame.
  - specialize (Hq ltac:(done)). wp_run. wp_ret. iApply ("HΦ" with "[-Hk] Hk").
    iExists (Node n y l r). by iFrame.
Qed.

(** ** Elements by index *)

Lemma chain_back a xs y ws :
  chain a (xs ++ y :: ws) ⊢
  Blink y ↦ prev a xs ∗ (Blink y ↦ prev a xs -∗ chain a (xs ++ y :: ws)).
Proof.
  rw chain_app chain_snoc. iIntros "((Hc & HF & $) & Hw) HB". iFrame.
Qed.

Lemma chain_forth a xs y ws :
  chain a (xs ++ y :: ws) ⊢
  Flink (prev a xs) ↦ y ∗ (Flink (prev a xs) ↦ y -∗ chain a (xs ++ y :: ws)).
Proof.
  rw chain_app chain_snoc. iIntros "((Hc & $ & HB) & Hw) HF". iFrame.
Qed.

(** A walk back from [y] over the entries [zs]. *)
Lemma follow_blink_spec a xs zs y ws Φ :
  chain a (xs ++ zs ++ y :: ws) -∗ (chain a (xs ++ zs ++ y :: ws) -∗ Φ (prev a xs)) -∗
  wp (follow Blink (S (length zs)) y) Φ.
Proof.
  revert y ws. induction zs as [|z zs IH] using rev_ind; intros y ws; iIntros "Hc HΦ".
  - iDestruct (chain_back with "Hc") as "[HB Hc]". simpl. wp_load. wp_ret.
    iApply "HΦ". by iApply "Hc".
  - rw length_app Nat.add_1_r. cbn [follow].
    assert (xs ++ (zs ++ [z]) ++ y :: ws = (xs ++ zs ++ [z]) ++ y :: ws) as E1 by by norm_app.
    rw E1. iDestruct (chain_back with "Hc") as "[HB Hc]". wp_load.
    iDestruct ("Hc" with "HB") as "Hc". rw app_assoc prev_snoc.
    assert ((((xs ++ zs) ++ [z]) ++ y :: ws) = xs ++ zs ++ z :: y :: ws) as -> by by norm_app.
    by iApply (IH with "Hc").
Qed.

(** A walk from [a] over the entries [zs]. *)
Lemma follow_flink_spec a zs y ws Φ :
  chain a (zs ++ y :: ws) -∗ (chain a (zs ++ y :: ws) -∗ Φ y) -∗
  wp (follow Flink (S (length zs)) a) Φ.
Proof.
  revert a Φ. induction zs as [|z zs IH]; intros a Φ.
  - iIntros "(HF & HB & Hw) HΦ". simpl. wp_load. wp_ret. iApply "HΦ". iFrame.
  - iIntros "(HF & HB & Hw) HΦ". cbn [length]. remember (S (length zs)) as n. simpl. wp_load.
    subst n. iApply (IH with "Hw"). iIntros "Hw". iApply "HΦ". iFrame.
Qed.

(** A table whose remembered position is entry [w] of the list, counted from one; the
    list head is entry 0. *)
Definition table_position (Table : Z) xs ins (w : nat) : hprop :=
  (∃ t op, ⌜inorder t = xs /\ (InsertOrderList Table :: (ListEntry <$> ins)) !! w = Some op⌝ ∗
     TableRoot Table ↦ addr t ∗ rooted t ∗
     dlist (InsertOrderList Table) (ListEntry <$> ins) ∗
     NumberGenericTableElements Table ↦ u32 (Z.of_nat (length ins)) ∗
     OrderedPointer Table ↦ op ∗ WhichOrderedElement Table ↦ Z.of_nat w ∗ routines Table ∗
     ⌜xs.*1 ≡ₚ ins /\ Forall (fun y => accepted ct y.2) xs⌝)%I.

Lemma get_element_out_of_range Table xs ins w I Φ :
  Z.of_nat (length ins) < MAXULONG -> Z.of_nat (length ins) <= I <= MAXULONG ->
  table_position Table xs ins w -∗ (table_position Table xs ins w -∗ Φ NULL) -∗
  wp (RtlGetElementGenericTable Table I) Φ.
Proof.
  unfold MAXULONG. iIntros (Hmax HI) "(%t & %op & Hpure & HT & Ht & Hl & Hn & Ho & Hw & Hr) HΦ".
  unfold RtlGetElementGenericTable. wp_run. 
  assert ((I =? MAXULONG) || (u32 (Z.of_nat (length ins)) <? u32 (I + 1)) = true) as ->.
  { unfold MAXULONG. destruct (Z.eqb_spec I 0xFFFFFFFF); [done|]. apply orb_true_iff. right.
    rw !u32_small; lia. }
  wp_ret. iApply "HΦ". iExists t, op. iFrame.
Qed.

Lemma forget_position Table t xs ins op (w : Z) :
  inorder t = xs -> op ∈ InsertOrderList Table :: (ListEntry <$> ins) ->
  xs.*1 ≡ₚ ins /\ Forall (fun y => accepted ct y.2) xs ->
  TableRoot Table ↦ addr t -∗ rooted t -∗
  dlist (InsertOrderList Table) (ListEntry <$> ins) -∗
  NumberGenericTableElements Table ↦ u32 (Z.of_nat (length ins)) -∗
  OrderedPointer Table ↦ op -∗ WhichOrderedElement Table ↦ w -∗ routines Table -∗
  generic_table Table xs ins false.
Proof.
  iIntros (<- Hop Hpure) "HT Ht Hl Hn Ho Hw Hr". iExists t. iSplit; [done|]. by iFrame.
Qed.

(** The tail of [RtlGetElementGenericTable] for the entry that a walk has found. *)
Lemma data_of_list_entry p : data_of_entry (ListEntry p) = UserData p.
Proof. unfold data_of_entry, ListEntry, UserData. lia. Qed.

Lemma walk_back_spec Table es1 e zs op ws Φ :
  dlist (InsertOrderList Table) (es1 ++ e :: zs ++ op :: ws) -∗
  (dlist (InsertOrderList Table) (es1 ++ e :: zs ++ op :: ws) -∗ Φ e) -∗
  wp (follow Blink (S (length zs)) op) Φ.
Proof.
  iIntros "Hl HΦ". unfold dlist.
  assert ((es1 ++ e :: zs ++ op :: ws) ++ [InsertOrderList Table] =
          (es1 ++ [e]) ++ zs ++ op :: ws ++ [InsertOrderList Table]) as -> by by norm_app.
  iApply (follow_blink_spec with "Hl"). rw prev_snoc. done.
Qed.

Lemma walk_back_from_head_spec Table es1 e es2 Φ :
  dlist (InsertOrderList Table) (es1 ++ e :: es2) -∗
  (dlist (InsertOrderList Table) (es1 ++ e :: es2) -∗ Φ e) -∗
  wp (follow Blink (S (length es2)) (InsertOrderList Table)) Φ.
Proof.
  iIntros "Hl HΦ". unfold dlist.
  assert ((es1 ++ e :: es2) ++ [InsertOrderList Table] =
          (es1 ++ [e]) ++ es2 ++ [InsertOrderList Table]) as -> by by norm_app.
  iApply (follow_blink_spec with "Hl"). rw prev_snoc. done.
Qed.

Lemma walk_forth_spec Table es1 e es2 Φ :
  dlist (InsertOrderList Table) (es1 ++ e :: es2) -∗
  (dlist (InsertOrderList Table) (es1 ++ e :: es2) -∗ Φ e) -∗
  wp (follow Flink (S (length es1)) (InsertOrderList Table)) Φ.
Proof.
  iIntros "Hl HΦ". unfold dlist. rw -app_assoc. iApply (follow_flink_spec with "Hl"). done.
Qed.

(** The entry [w], when it stands behind the entry of [p]. *)
Lemma position_behind Table ins1 p ins2 w op :
  (InsertOrderList Table :: (ListEntry <$> ins1 ++ p :: ins2)) !! w = Some op ->
  (S (length ins1) < w)%nat ->
  exists zs q ws, ins2 = zs ++ q :: ws /\ op = ListEntry q /\
    length zs = (w - S (S (length ins1)))%nat.
Proof.
  intros Hop Hw. destruct w as [|w]; [lia|]. simpl in Hop. rw list_lookup_fmap in Hop.
  apply fmap_Some in Hop as (q & Hq & ->). rw lookup_app_r in Hq; [|lia].
  destruct (w - length ins1)%nat as [|k] eqn:E; [lia|]. simpl in Hq.
  exists (take k ins2), q, (drop (S k) ins2). rw take_drop_middle //.
  apply lookup_lt_Some in Hq. rw length_take. split_and!; try done. lia.
Qed.

Lemma position_here Table ins1 p ins2 op :
  (InsertOrderList Table :: (ListEntry <$> ins1 ++ p :: ins2)) !! S (length ins1) = Some op ->
  op = ListEntry p.
Proof.
  simpl. rw list_lookup_fmap lookup_app_r // Nat.sub_diag /=. by intros [= <-].
Qed.

Lemma get_in_range (I N : Z) :
  I + 1 <= N -> N < 0xFFFFFFFF -> (I =? MAXULONG) || (N <? I + 1) = false.
Proof.
  intros ? ?. unfold MAXULONG. apply orb_false_iff.
  split; [apply Z.eqb_neq|apply Z.ltb_ge]; lia.
Qed.

(** The walk to entry [S (length ins1)]: unless it is a walk forward from the remembered
    entry, it finds the entry. *)
Lemma get_walk_spec Table ins1 p ins2 w op Φ :
  let ins := ins1 ++ p :: ins2 in
  Z.of_nat (length ins) < MAXULONG ->
  (InsertOrderList Table :: (ListEntry <$> ins)) !! w = Some op ->
  (S (length ins1) < w \/ S (length ins2) < S (length ins1) - w)%nat ->
  dlist (InsertOrderList Table) (ListEntry <$> ins) -∗
  (∀ w', dlist (InsertOrderList Table) (ListEntry <$> ins) -∗ Φ (ListEntry p, w')) -∗
  wp (get_walk Table (Z.of_nat (length ins1) + 1) op (Z.of_nat w) (Z.of_nat (length ins))) Φ.
Proof.
  intros ins. unfold MAXULONG. iIntros (Hmax Hop Hw) "Hl HΦ".
  assert (length ins = length ins1 + S (length ins2))%nat as Hlen by by rw length_app.
  assert (w <= length ins)%nat as Hwlen.
  { apply lookup_lt_Some in Hop. rw /= length_fmap in Hop. lia. }
  unfold get_walk. subst ins. destruct (Z.ltb_spec (Z.of_nat (length ins1) + 1) (Z.of_nat w)).
  - destruct (position_behind _ _ _ _ _ _ Hop) as (zs & q & ws & -> & -> & Hzs); [lia|].
    rw fmap_app fmap_cons fmap_app fmap_cons. case_match.
    + wp_call. rw u32_small; [|lia].
      replace (Z.to_nat _) with (S (length (ListEntry <$> zs))); [|rw length_fmap; lia].
      iApply (walk_back_spec with "Hl"). iIntros "Hl". wp_ret. by iApply "HΦ".
    + wp_call. replace (Z.to_nat _) with (S (length (ListEntry <$> ins1))); [|rw length_fmap; lia].
      iApply (walk_forth_spec with "Hl"). iIntros "Hl". wp_ret. by iApply "HΦ".
  - rw (u32_small (_ - Z.of_nat w)); [|lia]. rw (u32_small (_ - (_ + 1))); [|lia].
    rw (u32_small (_ + 1)); [|lia].
    rw (proj2 (Z.leb_gt _ _)); [|lia]. rw fmap_app fmap_cons.
    wp_call. replace (Z.to_nat _) with (S (length (ListEntry <$> ins2))); [|rw length_fmap; lia].
    iApply (walk_back_from_head_spec with "Hl"). iIntros "Hl". wp_ret. by iApply "HΦ".
Qed.

Lemma get_element_spec Table xs ins1 p ins2 w Φ :
  let ins := ins1 ++ p :: ins2 in
  Z.of_nat (length ins) < MAXULONG ->
  (S (length ins1) <= w \/ S (length ins2) < S (length ins1) - w)%nat ->
  table_position Table xs ins w -∗
  (generic_table Table xs ins false -∗ Φ (UserData p)) -∗
  wp (RtlGetElementGenericTable Table (Z.of_nat (length ins1))) Φ.
Proof.
  intros ins. iIntros (Hmax Hw).
  iIntros "(%t & %op & (%Ht & %Hop) & HT & Ht & Hl & Hn & Ho & Hw & Hr & %Hpure) HΦ".
  assert (length ins = length ins1 + S (length ins2))%nat as Hlen by by rw length_app.
  assert (ListEntry p ∈ InsertOrderList Table :: (ListEntry <$> ins)) as Hin.
  { apply list_elem_of_further, list_elem_of_fmap_2. apply elem_of_app. right.
    apply list_elem_of_here. }
  pose proof Hmax as Hmax'. unfold MAXULONG in Hmax'.
  unfold RtlGetElementGenericTable. rw !(u32_small (Z.of_nat (length ins1) + 1)); [|lia].
  assert (u32 (Z.of_nat (length ins)) = Z.of_nat (length ins)) as Hu by (apply u32_small; lia).
  wp_run. rw Hu. iEval (rw -Hu) in "Hn". rw get_in_range; [|lia|lia].
  destruct (Z.eqb_spec (Z.of_nat (length ins1) + 1) (Z.of_nat w)) as [E|E].
  - wp_ret. assert (w = S (length ins1)) as -> by lia.
    pose proof (position_here _ _ _ _ _ Hop) as ->. rw data_of_list_entry. iApply "HΦ".
    iApply (forget_position with "HT Ht Hl Hn Ho Hw Hr"); done.
  - wp_call. iApply (get_walk_spec with "Hl"); [done|done|lia|].
    iIntros (w') "Hl". wp_run. wp_ret. rw data_of_list_entry. iApply "HΦ".
    iApply (forget_position with "HT Ht Hl Hn Ho Hw Hr"); done.
Qed.

(** From the list head, the walk "forward" goes backward: the element returned is the
    one that has as many elements behind it as the index says. *)
Lemma get_element_mirrored Table xs insA q insB Φ :
  let ins := insA ++ q :: insB in
  Z.of_nat (length ins) < MAXULONG -> (length insB <= length insA)%nat ->
  table_position Table xs ins 0 -∗
  (generic_table Table xs ins false -∗ Φ (UserData q)) -∗
  wp (RtlGetElementGenericTable Table (Z.of_nat (length insB))) Φ.
Proof.
  intros ins. iIntros (Hmax Hle).
  iIntros "(%t & %op & (%Ht & %Hop) & HT & Ht & Hl & Hn & Ho & Hw & Hr & %Hpure) HΦ".
  injection Hop as <-.
  assert (length ins = length insA + S (length insB))%nat as Hlen by by rw length_app.
  assert (ListEntry q ∈ InsertOrderList Table :: (ListEntry <$> ins)) as Hin.
  { apply list_elem_of_further, list_elem_of_fmap_2. apply elem_of_app. right.
    apply list_elem_of_here. }
  pose proof Hmax as Hmax'. unfold MAXULONG in Hmax'.
  unfold RtlGetElementGenericTable. rw !(u32_small (Z.of_nat (length insB) + 1)); [|lia].
  assert (u32 (Z.of_nat (length ins)) = Z.of_nat (length ins)) as Hu by (apply u32_small; lia).
  wp_run. rw Hu. iEval (rw -Hu) in "Hn". rw get_in_range; [|lia|lia].
  rw (proj2 (Z.eqb_neq _ _)); [|lia]. unfold get_walk. rw (proj2 (Z.ltb_ge _ _)); [|lia].
  rw (u32_small (_ - Z.of_nat 0)); [|lia]. rw (u32_small (_ - (_ + 1))); [|lia].
  rw (u32_small (_ - _ + 1)); [|lia]. rw (proj2 (Z.leb_le _ _)); [|lia].
  subst ins. rw {1}fmap_app {1}fmap_cons.
  wp_call. replace (Z.to_nat _) with (S (length (ListEntry <$> insB))); [|rw length_fmap; lia].
  iApply (walk_back_from_head_spec with "Hl"). iIntros "Hl". wp_run. wp_ret.
  rw data_of_list_entry -(fmap_cons ListEntry q insB) -(fmap_app ListEntry insA). iApply "HΦ".
  iApply (forget_position with "HT Ht Hl Hn Ho Hw Hr"); done.
Qed.
End walks.
