(* ===== verification/GenericTableShare.v ===== *)
(** * Generic tables whose owner works on the elements in place

    The owner of a table has pointers to the elements.  It may pass such a pointer as the key
    of a deletion, so that the key is an object of the table itself; it may change an element
    where it is, as long as the order stays; and it may exchange the compare routine of the
    table. *)

From Stdlib Require Import ZArith Lia.
From S2P Require Import Prelude.
From stdpp Require Import gmap.
From iris.proofmode Require Import proofmode.
From S2P Require Import HeapLogic LinkTree SplayTree SplayDelete ListEntry TableCommon.
From S2P Require Import GenericTable GenericTableWalk.

#[local] Open Scope Z_scope.

Section share.
Context (cb : callbacks) (ct : contract) (mm : manager).
Context `{!TableRoutines entry_block HeaderSize cb ct mm}.
Implicit Types (t l r : tree (list Z)) (c : list (frame (list Z))).

Abbreviation rooted := (rooted element).
Abbreviation generic_table := (generic_table ct).
Abbreviation table_at_index := (table_at_index ct).
Abbreviation ordered_for k := (ordered (cmp ct k)).

(** ** A key that is an element of the table *)

(** What the search uses beside the tree: the element at [n], which is the key. *)
Definition self_frame (Table n : Z) (k : list Z) : hprop :=
  (element n k ∗ CompareRoutine Table ↦ fcompare ct)%I.

Lemma compare_with_self Table n k p x Φ :
  accepted ct k -> accepted ct x -> lent element n k p x -∗ self_frame Table n k -∗
  (lent element n k p x -∗ self_frame Table n k -∗ Φ (compare_code (cmp ct k x))) -∗
  wp (compare_with cb Table (UserData n) p) Φ.
Proof.
  iIntros (Hk Hx) "Hx [[%Hn Hn] HC] HΦ". unfold compare_with. wp_load. unfold lent.
  destruct (decide (p = n)) as [->|Hne].
  - iDestruct "Hx" as %->. iApply (compare_same_spec with "Hn"); [done|]. iIntros "Hn".
    iApply ("HΦ" with "[//]"). by iFrame.
  - iDestruct "Hx" as "[%Hp Hx]". iApply (compare_spec with "Hn Hx"); [done|done|]. iIntros "Hn Hx".
    iApply ("HΦ" with "[$Hx //]"). by iFrame.
Qed.

Lemma find_self_spec Table n k t uninit Φ :
  (n, k) ∈ inorder t -> ordered_for k (inorder t) ->
  Forall (fun y => accepted ct y.2) (inorder t) ->
  TableRoot Table ↦ addr t -∗ rooted t -∗ CompareRoutine Table ↦ fcompare ct -∗
  (∀ res, ⌜search_result ct k t uninit res⌝ -∗
     TableRoot Table ↦ addr t -∗ rooted t -∗ CompareRoutine Table ↦ fcompare ct -∗ Φ res) -∗
  wp (RtlpFindGenericTableNodeOrParent cb Table (UserData n) uninit) Φ.
Proof.
  iIntros (Hin Hord Hvalid) "HT Ht HC HΦ".
  assert (accepted ct k) as Hk by by rewrite -> Forall_forall in Hvalid; apply (Hvalid (n, k)).
  unfold RtlpFindGenericTableNodeOrParent, RtlIsGenericTableEmpty. wp_load.
  destruct t as [|m x l r]; [by apply not_elem_of_nil in Hin|].
  iDestruct (tree_node_nonnull with "Ht") as %Hm. iDestruct (tree_nodup with "Ht") as %Hnd.
  cbn [addr]. wp_run.
  iDestruct (tree_at_lent _ _ _ n k with "Ht") as "[Hn Ht]"; [done|done|].
  iDestruct (focus_root with "Ht") as "Ht".
  iApply (search_spec (lent element n k) (cmp ct k) (accepted ct) (self_frame Table n k)
    with "Ht [$Hn $HC]"); [by intros; apply compare_with_self|done|done|].
  iIntros (res Hres) "Ht [Hn HC]". iDestruct (focus_root with "Ht") as "Ht".
  iApply ("HΦ" with "[] HT [Hn Ht] HC"); [by iRight|].
  iApply (tree_at_lent _ _ _ n k); [done|done|]. iFrame.
Qed.

(** A list splits in one way at an element that no other one is like. *)
Lemma split_unique {A} (P : A -> Prop) xs1 a xs2 ys1 b ys2 :
  xs1 ++ a :: xs2 = ys1 ++ b :: ys2 -> P b -> Forall (fun y => ~ P y) (xs1 ++ xs2) ->
  xs1 = ys1 /\ a = b /\ xs2 = ys2.
Proof.
  intros E Hb [H1 H2]%Forall_app.
  apply app_eq_inv in E as [(k & -> & E)|(k & -> & E)].
  - destruct k as [|y k]; simplify_eq/=; [by rw app_nil_r|].
    apply Forall_app in H1 as [_ [H1 _]%Forall_cons]. done.
  - destruct k as [|y k]; simplify_eq/=; [by rw app_nil_r|].
    apply Forall_app in H2 as [_ [H2 _]%Forall_cons]. done.
Qed.

(** The element goes when no other element is equal to it. *)
Lemma delete_self_spec Table xs1 n k xs2 ins s uninit j m Φ :
  let xs := xs1 ++ (n, k) :: xs2 in
  ordered_for k xs -> none_equal (cmp ct k) (xs1 ++ xs2) -> cmp ct k k = Eq ->
  generic_table Table xs ins s -∗ stocked mm j m xs -∗
  (∀ ins', generic_table Table (xs1 ++ xs2) ins' true -∗ stocked mm j m (xs1 ++ xs2) -∗ Φ true) -∗
  wp (RtlDeleteElementGenericTable cb uninit Table (UserData n)) Φ.
Proof.
  intros xs. iIntros (Hord Hne Heq) "(%t & %Ht & HT & Ht & Hl & Hn & Hr & (HC & HX) & %Hp & %Hv) Hs HΦ".
  iDestruct (tree_nodup with "Ht") as %Hnd. unfold RtlDeleteElementGenericTable.
  assert ((n, k) ∈ inorder t) as Hin by by rw Ht; apply elem_of_app; right; left.
  wp_call. iApply (find_self_spec with "HT Ht HC"); [done|by rw Ht|done|].
  iIntros (res Hres) "HT Ht HC".
  destruct (search_cases _ _ _ _ _ Hres) as [(x & l & r & c & E & -> & Hx)|[_ Hno]]; last first.
  { exfalso. rw /none_equal Forall_forall in Hno. by apply (Hno (n, k)). }
  rw E. wp_test.
  iApply (delete_found_spec with "[$HT $Ht $Hl $Hn $Hr $HC $HX //] [Hs]"); [by rw Ht|].
  iIntros (ins1 ins2 ->) "Ht Hs". rw inorder_plug /= in Ht.
  destruct (split_unique (fun y => cmp ct k y.2 = Eq) xs1 (n, k) xs2 (before c ++ inorder l)
    (res.2, x) (inorder r ++ after c)) as (<- & _ & <-); [|done|done|by iApply ("HΦ" with "Ht Hs")].
  subst xs. rw -Ht. by norm_app.
Qed.

(** ** Elements that change in place *)

Lemma change_data Table n x l r c ins s :
  table_with ct Table (plug (Node n x l r) c) ins s ⊢
  element n x ∗ ∀ y, ⌜accepted ct y⌝ -∗ element n y -∗
    table_with ct Table (plug (Node n y l r) c) ins s.
Proof.
  iIntros "(HT & Ht & Hl & Hn & Hr & Hrt & %Hp & %Hv)". rw -focus_plug.
  iDestruct (focus_data with "Ht") as "[$ Ht]". iIntros (y Hy) "Hy".
  iDestruct ("Ht" with "Hy") as "Ht". rw /table_with -focus_plug.
  assert (addr (plug (Node n x l r) c) = addr (plug (Node n y l r) c)) as <- by apply addr_plug_node.
  iFrame. iPureIntro. rw inorder_plug in Hp Hv. rw inorder_plug.
  rw !fmap_app /= in Hp *. split; [done|]. rw !Forall_app Forall_cons in Hv *. naive_solver.
Qed.

Lemma change_element Table xs1 p x xs2 ins s :
  generic_table Table (xs1 ++ (p, x) :: xs2) ins s ⊢
  element p x ∗ ∀ y, ⌜accepted ct y⌝ -∗ element p y -∗
    generic_table Table (xs1 ++ (p, y) :: xs2) ins s.
Proof.
  iIntros "(%t & %Ht & H)". destruct (position _ _ _ _ _ Ht) as (l & r & c & -> & -> & ->).
  iDestruct (change_data with "H") as "[$ H]". iIntros (y Hy) "Hy".
  iDestruct ("H" with "[//] Hy") as "H". iExists _. iFrame. iPureIntro.
  rw inorder_plug. by norm_app.
Qed.

(** The element that an enumeration has reached. *)
Lemma change_enumerated Table xs1 p x xs2 ins s :
  table_at_index Table (xs1 ++ (p, x) :: xs2) ins s (length xs1) ⊢
  element p x ∗ ∀ y, ⌜accepted ct y⌝ -∗ element p y -∗
    table_at_index Table (xs1 ++ (p, y) :: xs2) ins s (length xs1).
Proof.
  iIntros "(%q & %z & %l & %r & (%Ht & %Hl) & H)". simpl in Ht.
  apply app_inj_1 in Ht as [<- Hr]; [|done]. injection Hr as -> -> <-.
  iDestruct (change_data _ _ _ _ _ [] with "H") as "[$ H]". iIntros (y Hy) "Hy".
  iDestruct ("H" with "[//] Hy") as "H". iExists p, y, l, r. by iFrame.
Qed.

(** ** The first element of the list *)

(** [RtlGetElementGenericTable] with index 0 returns some element of a table that is
    reset. *)
Lemma get_first_spec Table xs ins Φ :
  xs <> [] -> Z.of_nat (length xs) < MAXULONG ->
  generic_table Table xs ins true -∗
  (∀ xs1 p x xs2, ⌜xs = xs1 ++ (p, x) :: xs2⌝ -∗ generic_table Table xs ins false -∗
     Φ (UserData p)) -∗
  wp (RtlGetElementGenericTable Table 0) Φ.
Proof.
  iIntros (Hne Hmax) "(%t & <- & HT & Ht & Hl & Hn & (%op & %w & Ho & Hw & %Hin & %Hop) & Hrt & %Hp & %Hv) HΦ".
  destruct Hop as [-> ->]; [done|].
  assert (length (inorder t) = length ins) as Hlen by by rw -Hp length_fmap.
  destruct ins as [|q insA _] using rev_ind; [by destruct (inorder t)|].
  assert (q ∈ (inorder t).*1) as Hq by by rw Hp; apply elem_of_app; right; left.
  apply list_elem_of_fmap in Hq as ([p x] & -> & Hq). apply list_elem_of_split in Hq as (xs1 & xs2 & Hq).
  rw Hlen in Hmax.
  iApply (get_element_mirrored ct Table (inorder t) insA p [] with "[-HΦ]"); [done|simpl; lia| |].
  - iExists t, (InsertOrderList Table). iFrame. done.
  - iIntros "Ht". by iApply "HΦ".
Qed.
End share.

(** ** The exchange of the compare routine *)

(** Contracts that differ only in the order. *)
Definition same_but_order (ct ct' : contract) : Prop :=
  fallocate ct = fallocate ct' /\ ffree ct = ffree ct' /\
  (forall k, accepted ct k <-> accepted ct' k) /\ (forall T, context ct T = context ct' T).

Lemma exchange_compare ct ct' Table xs ins s :
  same_but_order ct ct' ->
  generic_table ct Table xs ins s ⊢
  CompareRoutine Table ↦ fcompare ct ∗
    (CompareRoutine Table ↦ fcompare ct' -∗ generic_table ct' Table xs ins s).
Proof.
  intros (HA & HF & Hacc & Hctx).
  iIntros "(%t & %Ht & HT & Ht & Hl & Hn & Hr & ($ & Ha & Hf & Hx) & %Hp & %Hv)".
  iIntros "HC". iExists t. iSplit; [done|]. rw HA HF Hctx. iFrame. iPureIntro.
  split; [done|]. eapply Forall_impl; [done|]. intros y. by apply Hacc.
Qed.
