(* ===== verification/McbRuns.v ===== *)
(** * Runs of a mapping control block

    ntoskrnl/fsrtl/largemcb.c keeps the mapping from virtual to logical block numbers of a
    file as runs ([LARGE_MCB_MAPPING_ENTRY]) in a generic table.  Here are the run as a value
    and as bytes, the two orders of the compare routines, and the mapping that a list of runs
    means; the theory has no memory in it. *)

From S2P Require Import Prelude.
From stdpp Require Import list sorting.
From S2P Require Import Bytes.

#[local] Open Scope Z_scope.

(** ** Runs *)

(** [LARGE_MCB_MAPPING_ENTRY]. *)
Record run := MkRun { RunStartVbn : Z; RunEndVbn : Z; StartingLbn : Z }.

Definition run_bytes (r : run) : list Z :=
  le 8 (RunStartVbn r) ++ le 8 (RunEndVbn r) ++ le 8 (StartingLbn r).

Definition run_of (bs : list Z) : run :=
  MkRun (s64 (le_val (take 8 bs))) (s64 (le_val (take 8 (drop 8 bs))))
    (s64 (le_val (drop 16 bs))).

Definition fields64 (r : run) : Prop :=
  in64 (RunStartVbn r) /\ in64 (RunEndVbn r) /\ in64 (StartingLbn r).

(** The order of [McbMappingCompare]: equal runs, or runs one behind the other. *)
Definition mapping_order (A B : run) : comparison :=
  if (RunStartVbn A =? RunStartVbn B) && (RunEndVbn A =? RunEndVbn B) then Eq
  else if RunEndVbn A <=? RunStartVbn B then Lt
  else Gt.

(** The order of [McbMappingIntersectCompare]: runs that intersect are equal. *)
Definition intersect_order (A B : run) : comparison :=
  if (RunStartVbn A <=? RunStartVbn B) && (RunStartVbn B <? RunEndVbn A) then Eq
  else if (RunStartVbn B <=? RunStartVbn A) && (RunStartVbn A <? RunEndVbn B) then Eq
  else if RunStartVbn A <? RunStartVbn B then Lt
  else if RunStartVbn B <? RunStartVbn A then Gt
  else Eq.

(** ** The mapping *)

(** The block [v] is in the run. *)
Definition inside (r : run) (v : Z) : bool := (RunStartVbn r <=? v) && (v <? RunEndVbn r).

(** The logical block of [v] in the run, computed in 64 bits. *)
Definition lbn_of (r : run) (v : Z) : Z := s64 (StartingLbn r + (v - RunStartVbn r)).

Fixpoint mapped (rs : list run) (v : Z) : option Z :=
  match rs with
  | [] => None
  | r :: rs' => if inside r v then Some (lbn_of r v) else mapped rs' v
  end.

(** A run of blocks that the table may hold. *)
Definition run_ok (r : run) : Prop :=
  0 <= RunStartVbn r < RunEndVbn r /\ RunEndVbn r < 2 ^ 63 /\ in64 (StartingLbn r).

Definition behind (a b : run) : Prop := RunEndVbn a <= RunStartVbn b.

(** The runs are in order and do not intersect. *)
Definition runs_ok (rs : list run) : Prop := Forall run_ok rs /\ StronglySorted behind rs.

(** The runs and the holes between them, each with its first block, its first logical block
    (-1 for a hole) and its length; [last] is where the entries so far end. *)
Fixpoint entries (last : Z) (rs : list run) : list (Z * Z * Z) :=
  match rs with
  | [] => []
  | r :: rs' =>
      let real := (RunStartVbn r, StartingLbn r, RunEndVbn r - RunStartVbn r) in
      if last <? RunStartVbn r
      then (last, -1, RunStartVbn r - last) :: real :: entries (RunEndVbn r) rs'
      else real :: entries (RunEndVbn r) rs'
  end.

(** ** Laws *)

Lemma length_run_bytes r : length (run_bytes r) = 24%nat.
Proof. unfold run_bytes. by rewrite !length_app, !length_le. Qed.

Lemma run_of_bytes r : fields64 r -> run_of (run_bytes r) = r.
Proof.
  intros (H1 & H2 & H3). unfold run_of, run_bytes.
  rewrite take_app_length', drop_app_length' by by rewrite length_le.
  rewrite take_app_length' by by rewrite length_le.
  rewrite app_assoc, drop_app_length' by by rewrite length_app, !length_le.
  rewrite !le_val_mod. change (256 ^ Z.of_nat 8) with (2 ^ 64).
  rewrite !s64_u64 by done. by destruct r.
Qed.

Lemma run_bytes_inj r1 r2 : fields64 r1 -> fields64 r2 -> run_bytes r1 = run_bytes r2 -> r1 = r2.
Proof. intros H1 H2 E. by rewrite <- (run_of_bytes r1), E, run_of_bytes. Qed.

Lemma run_ok_fields r : run_ok r -> fields64 r.
Proof. unfold run_ok, fields64, in64. lia. Qed.

(** Splits comparisons of block numbers and decides them. *)
Ltac blocks :=
  unfold run_ok, behind, inside, mapping_order, intersect_order in *; simpl in *; case_cmp.

Lemma mapping_order_self r : mapping_order r r = Eq.
Proof. unfold mapping_order. by rewrite !Z.eqb_refl. Qed.

(** The two orders, for runs that are not empty. *)
Lemma intersect_order_spec a b :
  RunStartVbn a < RunEndVbn a -> RunStartVbn b < RunEndVbn b ->
  match intersect_order a b with
  | Lt => behind a b
  | Gt => behind b a
  | Eq => RunStartVbn a < RunEndVbn b /\ RunStartVbn b < RunEndVbn a
  end.
Proof. intros. blocks. Qed.

Lemma mapping_order_spec a b :
  match mapping_order a b with
  | Lt => behind a b
  | Gt => RunStartVbn b < RunEndVbn a
  | Eq => RunStartVbn a = RunStartVbn b /\ RunEndVbn a = RunEndVbn b
  end.
Proof. blocks. Qed.

(** ** Sorted lists of runs *)

Definition apart (a b : run) : Prop := behind a b \/ behind b a.

(** One run of a list, with the others before and behind it. *)
Lemma runs_ok_middle rs1 r rs2 :
  runs_ok (rs1 ++ r :: rs2) <->
  runs_ok (rs1 ++ rs2) /\ run_ok r /\ Forall (fun a => behind a r) rs1 /\ Forall (behind r) rs2.
Proof.
  unfold runs_ok. rewrite !Forall_app, Forall_cons, !StronglySorted_app, StronglySorted_cons.
  rewrite !Forall_forall. split.
  - intros ((H1 & H2 & H3) & H4 & H5 & H6 & H7). split_and!; try done.
    + intros a b Ha Hb. apply H4; [done|]. by right.
    + intros a Ha. apply H4; [done|]. by left.
  - intros (((H1 & H3) & H4 & H5 & H6) & H2 & H7 & H8). split_and!; try done.
    intros a b Ha [->|Hb]%elem_of_cons; [by apply H7|by apply H4].
Qed.

Lemma runs_ok_apart rs1 r rs2 :
  runs_ok (rs1 ++ r :: rs2) -> runs_ok (rs1 ++ rs2) /\ run_ok r /\ Forall (apart r) (rs1 ++ rs2).
Proof.
  intros (Hok & Hr & Hb & Ha)%runs_ok_middle. split_and!; [done|done|]. rewrite Forall_app.
  split; (eapply Forall_impl; [eassumption|]); intros a Hx; [by right|by left].
Qed.

Lemma runs_ok_app rs1 rs2 :
  runs_ok (rs1 ++ rs2) <->
  runs_ok rs1 /\ runs_ok rs2 /\ (forall a b, a ∈ rs1 -> b ∈ rs2 -> behind a b).
Proof. unfold runs_ok. rewrite Forall_app, StronglySorted_app. naive_solver. Qed.

Lemma runs_ok_in rs r : runs_ok rs -> r ∈ rs -> run_ok r.
Proof. intros [H _]. rewrite Forall_forall in H. apply H. Qed.

Lemma mapped_app rs1 rs2 v :
  mapped (rs1 ++ rs2) v = match mapped rs1 v with Some l => Some l | None => mapped rs2 v end.
Proof. induction rs1 as [|r rs1 IH]; simpl; [done|]. by destruct (inside r v). Qed.

Lemma mapped_none rs v : Forall (fun r => inside r v = false) rs -> mapped rs v = None.
Proof. induction 1 as [|r rs Hr _ IH]; simpl; [done|]. by rewrite Hr. Qed.

Lemma mapped_middle rs1 r rs2 v :
  runs_ok (rs1 ++ r :: rs2) ->
  mapped (rs1 ++ r :: rs2) v = if inside r v then Some (lbn_of r v) else mapped (rs1 ++ rs2) v.
Proof.
  intros (_ & Hr & H1 & _)%runs_ok_middle. rewrite !mapped_app. simpl.
  destruct (inside r v) eqn:E; [|done]. rewrite mapped_none; [done|].
  eapply Forall_impl; [exact H1|]. intros a. blocks.
Qed.

Lemma mapped_others rs1 r rs2 v :
  runs_ok (rs1 ++ r :: rs2) -> inside r v = true -> mapped (rs1 ++ rs2) v = None.
Proof.
  intros (Hok & Hr & H1 & H2)%runs_ok_middle Hv. apply mapped_none.
  rewrite Forall_app. split; (eapply Forall_impl; [eassumption|]); intros a; clear - Hv Hr; blocks.
Qed.

(** A run that is apart from the others has one place among them. *)
Lemma runs_ok_insert k rs1 rs2 :
  runs_ok (rs1 ++ rs2) -> run_ok k -> Forall (apart k) (rs1 ++ rs2) ->
  Forall (fun r => mapping_order k r = Gt) rs1 ->
  Forall (fun r => mapping_order k r = Lt) rs2 ->
  runs_ok (rs1 ++ k :: rs2).
Proof.
  intros Hrs Hk [Ha1 Ha2]%Forall_app H1 H2. apply runs_ok_middle. split_and!; [done|done|..].
  - rewrite Forall_forall in *. intros a Ha. destruct (Ha1 a Ha) as [Hb|]; [|done].
    specialize (H1 a Ha). pose proof (mapping_order_spec k a) as Ho. rewrite H1 in Ho.
    unfold behind in *. lia.
  - eapply Forall_impl; [exact H2|]. intros a Ha. pose proof (mapping_order_spec k a) as Ho.
    by rewrite Ha in Ho.
Qed.

(** ** Runs cut by a range *)

Definition intersects (n r : run) : bool :=
  match intersect_order n r with Eq => true | _ => false end.

(** What is left of the run [h] without the blocks of [n], which it intersects. *)
Definition pieces (n h : run) : list run :=
  let tail := MkRun (RunEndVbn n) (RunEndVbn h)
                (s64 (StartingLbn h + (RunEndVbn n - RunStartVbn h))) in
  if RunStartVbn h <? RunStartVbn n then
    MkRun (RunStartVbn h) (RunStartVbn n) (StartingLbn h) ::
      (if RunEndVbn n <? RunEndVbn h then [tail] else [])
  else if RunEndVbn n <? RunEndVbn h then [tail]
  else [].

Definition cut (n : run) (rs : list run) : list run :=
  rs ≫= (fun r => if intersects n r then pieces n r else [r]).

Lemma intersects_spec n r :
  RunStartVbn n < RunEndVbn n -> RunStartVbn r < RunEndVbn r ->
  intersects n r = false <-> apart n r.
Proof.
  intros Hn Hr. unfold intersects, apart. pose proof (intersect_order_spec n r Hn Hr) as H.
  destruct (intersect_order n r); split; try done; unfold behind in *; try lia; auto.
Qed.

Lemma intersects_overlap n r :
  RunStartVbn n < RunEndVbn n -> RunStartVbn r < RunEndVbn r -> intersects n r = true ->
  RunStartVbn n < RunEndVbn r /\ RunStartVbn r < RunEndVbn n.
Proof.
  intros Hn Hr. unfold intersects. pose proof (intersect_order_spec n r Hn Hr) as H.
  by destruct (intersect_order n r).
Qed.

Lemma cut_app n rs1 rs2 : cut n (rs1 ++ rs2) = cut n rs1 ++ cut n rs2.
Proof. apply bind_app. Qed.

Lemma cut_apart n rs : Forall (fun r => intersects n r = false) rs -> cut n rs = rs.
Proof. induction 1 as [|r rs Hr _ IH]; simpl; [done|]. unfold cut in *. simpl. by rewrite Hr, IH. Qed.

Section cut.
Context (n : run) (Hn : 0 <= RunStartVbn n < RunEndVbn n).

Lemma pieces_ok h :
  run_ok h -> intersects n h = true -> runs_ok (pieces n h).
Proof.
  intros Hh Hi. unfold pieces. unfold run_ok in Hh.
  assert (in64 (s64 (StartingLbn h + (RunEndVbn n - RunStartVbn h)))) by apply s64_range.
  unfold intersects in Hi. pose proof (intersect_order_spec n h) as Ho.
  destruct (intersect_order n h); try done. destruct Ho as [Ho1 Ho2]; [lia|lia|].
  unfold runs_ok, in64 in *.
  case_cmp; rewrite ?Forall_cons, ?StronglySorted_cons, ?Forall_cons, ?Forall_nil;
    unfold run_ok, behind, in64; simpl; split_and?; try done; try lia; constructor.
Qed.

Lemma pieces_within h r :
  run_ok h -> intersects n h = true -> r ∈ pieces n h ->
  RunStartVbn h <= RunStartVbn r /\ RunEndVbn r <= RunEndVbn h /\ apart n r.
Proof.
  intros Hh Hi. unfold run_ok in Hh. unfold intersects in Hi. pose proof (intersect_order_spec n h) as Ho.
  destruct (intersect_order n h); try done. destruct Ho as [Ho1 Ho2]; [lia|lia|].
  unfold pieces, apart, behind. case_cmp; rewrite ?elem_of_cons, ?elem_of_nil; intros Hr;
    destruct_or?; simplify_eq/=; lia.
Qed.

Lemma pieces_mapped h v :
  run_ok h -> intersects n h = true ->
  mapped (pieces n h) v =
    if inside h v then if inside n v then None else Some (lbn_of h v) else None.
Proof.
  intros Hh Hi. unfold run_ok in Hh. unfold intersects in Hi. pose proof (intersect_order_spec n h) as Ho.
  destruct (intersect_order n h); try done. destruct Ho as [Ho1 Ho2]; [lia|lia|].
  unfold pieces. case_cmp; unfold inside, lbn_of; simpl; case_cmp; rewrite ?s64_add_l;
    do 2 f_equal; lia.
Qed.
Lemma cut_within rs r :
  runs_ok rs -> r ∈ cut n rs ->
  apart n r /\ exists h, h ∈ rs /\ RunStartVbn h <= RunStartVbn r /\ RunEndVbn r <= RunEndVbn h.
Proof.
  intros Hrs (h & Hr & Hh)%list_elem_of_bind. pose proof (runs_ok_in _ _ Hrs Hh) as Hok.
  destruct (intersects n h) eqn:E.
  - destruct (pieces_within h r Hok E Hr) as (H1 & H2 & H3). by eauto.
  - apply list_elem_of_singleton in Hr as ->. split; [|exists h; split_and!; (done || lia)].
    apply intersects_spec; [lia|apply Hok|done].
Qed.

(** The runs without a range are in order, and map the blocks outside the range as before. *)
Lemma cut_ok rs : runs_ok rs -> runs_ok (cut n rs).
Proof.
  induction rs as [|h rs IH]; [done|]. intros Hrs. change (h :: rs) with ([h] ++ rs) in *.
  rewrite cut_app. apply runs_ok_app in Hrs as (Hh & Hrs & Hb). apply runs_ok_app.
  pose proof (runs_ok_in _ h Hh ltac:(by left)) as Hok. split_and!; [|by apply IH|].
  - unfold cut. simpl. rewrite app_nil_r. destruct (intersects n h) eqn:E; [|done].
    by apply pieces_ok.
  - intros a b (_ & h' & ->%list_elem_of_singleton & _ & H1)%cut_within; [|done].
    intros (_ & h'' & Hin & H2 & _)%cut_within; [|done].
    specialize (Hb h h'' ltac:(by left) Hin). unfold behind in *. lia.
Qed.

Lemma cut_mapped rs v :
  runs_ok rs -> mapped (cut n rs) v = if inside n v then None else mapped rs v.
Proof.
  induction rs as [|h rs IH]; [by destruct (inside n v)|]. intros Hrs.
  change (h :: rs) with ([h] ++ rs) in *. rewrite cut_app, !mapped_app.
  apply runs_ok_app in Hrs as (Hh & Hrs & _). rewrite IH by done.
  pose proof (runs_ok_in _ h Hh ltac:(by left)) as Hok. unfold cut. simpl. rewrite app_nil_r.
  destruct (intersects n h) eqn:E.
  - rewrite pieces_mapped by done. by destruct (inside h v), (inside n v).
  - apply intersects_spec in E; [|lia|apply Hok]. simpl. unfold apart in E.
    destruct (inside n v) eqn:En, (inside h v) eqn:Eh; try done. exfalso.
    unfold inside in *. rewrite andb_true_iff, Z.leb_le, Z.ltb_lt in *. unfold behind in E. lia.
Qed.

(** One step of the cut. *)
Lemma cut_step rs1 h rs2 :
  runs_ok (rs1 ++ h :: rs2) -> intersects n h = true ->
  runs_ok (rs1 ++ pieces n h ++ rs2) /\
  cut n (rs1 ++ pieces n h ++ rs2) = cut n (rs1 ++ h :: rs2).
Proof.
  intros Hrs E. apply runs_ok_middle in Hrs as (Hrs & Hok & H1 & H2). split.
  - apply runs_ok_app in Hrs as (Hr1 & Hr2 & Hb). rewrite Forall_forall in H1, H2.
    apply runs_ok_app. split_and!; [done| |].
    + apply runs_ok_app. split_and!; [by apply pieces_ok|done|].
      intros a b (_ & Ha & _)%pieces_within Hb2; [|done|done]. specialize (H2 b Hb2).
      unfold behind in *. lia.
    + intros a b Ha [(Hb' & _)%pieces_within|Hb']%elem_of_app; [|done|done|by apply Hb].
      specialize (H1 a Ha). unfold behind in *. lia.
  - change (h :: rs2) with ([h] ++ rs2). rewrite !cut_app. do 2 f_equal.
    rewrite cut_apart.
    + unfold cut. simpl. by rewrite E, app_nil_r.
    + apply Forall_forall. intros r Hr. destruct (pieces_within h r Hok E Hr) as (H3 & H4 & H5).
      pose proof (runs_ok_in _ _ (pieces_ok h Hok E) Hr) as Hr'.
      apply intersects_spec; [lia|apply Hr'|done].
Qed.
End cut.

(** The number of runs that a range intersects. *)
Definition hits (n : run) (rs : list run) : nat := length (List.filter (intersects n) rs).

Lemma hits_app n rs1 rs2 : hits n (rs1 ++ rs2) = (hits n rs1 + hits n rs2)%nat.
Proof. unfold hits. by rewrite List.filter_app, length_app. Qed.

Lemma hits_le n rs : (hits n rs <= length rs)%nat.
Proof. apply List.filter_length_le. Qed.

Lemma hits_apart n rs : Forall (fun r => intersects n r = false) rs -> hits n rs = 0%nat.
Proof. induction 1 as [|r rs Hr _ IH]; [done|]. unfold hits in *. simpl. by rewrite Hr. Qed.

Lemma hits_step n rs1 h rs2 :
  0 <= RunStartVbn n < RunEndVbn n -> run_ok h -> intersects n h = true ->
  (hits n (rs1 ++ pieces n h ++ rs2) < hits n (rs1 ++ h :: rs2))%nat.
Proof.
  intros Hn Hok E. change (h :: rs2) with ([h] ++ rs2). rewrite !hits_app.
  assert (hits n [h] = 1%nat) as -> by by unfold hits; simpl; rewrite E.
  rewrite (hits_apart n (pieces n h)); [lia|]. apply Forall_forall. intros r Hr.
  destruct (pieces_within n Hn h r Hok E Hr) as (_ & _ & H).
  pose proof (runs_ok_in _ _ (pieces_ok n Hn h Hok E) Hr) as Hr'.
  apply intersects_spec; [lia|apply Hr'|done].
Qed.

Lemma hits_found n rs1 h rs2 : intersects n h = true -> (0 < hits n (rs1 ++ h :: rs2))%nat.
Proof.
  intros E. rewrite hits_app. unfold hits at 2. simpl. rewrite E. simpl. lia.
Qed.

(** ** Runs that are joined *)

(** The mapping of the runs [rs] with the run [k] before all of them. *)
Definition with_run (k : run) (rs : list run) (v : Z) : option Z :=
  if inside k v then Some (lbn_of k v) else mapped rs v.

Definition joins (a b : run) : Prop := RunEndVbn a = RunStartVbn b.

(** [b] follows [a] in virtual and in logical blocks. *)
Definition continues (a b : run) : Prop :=
  joins a b /\ s64 (StartingLbn a + (RunEndVbn a - RunStartVbn a)) = StartingLbn b.

Definition join (a b : run) : run := MkRun (RunStartVbn a) (RunEndVbn b) (StartingLbn a).

Lemma continues_lbn a b v : continues a b -> lbn_of b v = lbn_of a v.
Proof.
  intros [Hj Hl]. unfold lbn_of. rewrite <- Hl, s64_add_l. unfold joins in Hj. f_equal. lia.
Qed.

Lemma join_ok a b : run_ok a -> run_ok b -> joins a b -> run_ok (join a b).
Proof. unfold run_ok, joins. simpl. intros. split_and!; (lia || tauto). Qed.

Lemma join_inside a b v :
  run_ok a -> run_ok b -> joins a b -> inside (join a b) v = inside a v || inside b v.
Proof. unfold run_ok, joins, inside, join. intros. simpl. case_cmp. Qed.

Section join.
Context (rs1 : list run) (r : run) (rs2 : list run) (k : run).
Context (Hrs : runs_ok (rs1 ++ r :: rs2)) (Hk : run_ok k) (Ha : Forall (apart k) (rs1 ++ r :: rs2)).

(** The others are apart from the joined run. *)
Lemma join_apart a b : (a = r /\ b = k \/ a = k /\ b = r) -> joins a b ->
  Forall (apart (join a b)) (rs1 ++ rs2).
Proof.
  intros Hab Hj. apply runs_ok_middle in Hrs as (Hrs' & Hr & H1 & H2).
  rewrite Forall_app, Forall_cons in Ha. destruct Ha as (Ha1 & _ & Ha2).
  assert (forall x, run_ok x -> apart k x -> apart r x -> apart (join a b) x) as Hx.
  { unfold run_ok, apart, behind, joins in *. intros x. destruct Hab as [[-> ->]|[-> ->]]; simpl; lia. }
  destruct Hrs' as [Hok _]. rewrite Forall_app in Hok. destruct Hok as [Hok1 Hok2].
  rewrite Forall_app. rewrite !Forall_forall in *. split; intros x Hin; apply Hx; auto.
  - by right; apply H1.
  - by left; apply H2.
Qed.

Lemma join_lower v :
  continues r k -> with_run (join r k) (rs1 ++ rs2) v = with_run k (rs1 ++ r :: rs2) v.
Proof.
  intros Hc. pose proof Hc as [Hj _]. unfold with_run. rewrite mapped_middle by done.
  assert (run_ok r) as Hr by by apply runs_ok_middle in Hrs as (_ & ? & _).
  rewrite join_inside by done. change (lbn_of (join r k) v) with (lbn_of r v).
  rewrite (continues_lbn r k) by done. by destruct (inside r v), (inside k v).
Qed.

(** The run behind [k] takes the mapping of [k] over. *)
Lemma join_higher v :
  joins k r -> with_run (join k r) (rs1 ++ rs2) v =
    if inside r v then Some (lbn_of k v) else with_run k (rs1 ++ r :: rs2) v.
Proof.
  intros Hj. unfold with_run. rewrite mapped_middle by done.
  assert (run_ok r) as Hr by by apply runs_ok_middle in Hrs as (_ & ? & _).
  rewrite join_inside by done. change (lbn_of (join k r) v) with (lbn_of k v).
  by destruct (inside k v), (inside r v).
Qed.
End join.

(** ** Lists of the same runs *)

Lemma runs_perm rs1 rs2 : runs_ok rs1 -> runs_ok rs2 -> rs1 ≡ₚ rs2 -> rs1 = rs2.
Proof.
  intros [H1 S1] [H2 S2] Hp. apply (StronglySorted_unique_strong behind); [|done..].
  intros a b Ha Hb Hab Hba. rewrite Forall_forall in H1, H2.
  specialize (H1 a Ha). specialize (H2 b Hb). unfold run_ok, behind in *. lia.
Qed.

(** A run that was inserted is in its place. *)
Lemma inserted_place rs1 k rs2 rs :
  runs_ok (rs1 ++ k :: rs2) -> runs_ok rs -> rs ≡ₚ k :: rs1 ++ rs2 -> rs1 ++ k :: rs2 = rs.
Proof.
  intros H1 H2 Hp. apply runs_perm; [done|done|]. rewrite Hp. by rewrite Permutation_middle.
Qed.

(** ** What a removal leaves *)

(** The memory for the tail of a run that the range was inside of could not be had: the tail
    is missing. *)
Definition tail_lost (n : run) (rs rs' : list run) : Prop :=
  exists h c1 t c2, h ∈ rs /\ RunStartVbn h < RunStartVbn n /\ RunEndVbn n < RunEndVbn h /\
    cut n rs = c1 ++ t :: c2 /\ RunStartVbn t = RunEndVbn n /\ RunEndVbn t = RunEndVbn h /\
    rs' = c1 ++ c2.

(** The run [h] goes beyond the range on both sides. *)
Definition around (n h : run) : bool :=
  (RunStartVbn h <? RunStartVbn n) && (RunEndVbn n <? RunEndVbn h).

Definition surrounded (n : run) (rs : list run) : bool := existsb (around n) rs.

(** What is left when a run around the range needed memory for its tail, which was granted or
    not. *)
Definition tail_result (grant : bool) (n : run) (rs rs' : list run) (lost : Z) : Prop :=
  if grant then rs' = cut n rs /\ lost = 0 else tail_lost n rs rs' /\ lost = 1.

(** The removal has come to the runs [rs'], with [lost] insertions that failed: there was no
    request for memory so far and the runs that still intersect the range are old ones, or
    there was one and it is done. *)
Definition removing (grant : bool) (n : run) (rs rs' : list run) (lost : Z) (asked : bool) : Prop :=
  runs_ok rs' /\
  if asked then
    surrounded n rs = true /\ tail_result grant n rs rs' lost /\
    Forall (fun r => intersects n r = false) rs'
  else
    lost = 0 /\ cut n rs' = cut n rs /\ (forall h, h ∈ rs' -> intersects n h = true -> h ∈ rs) /\
    (forall h, h ∈ rs -> around n h = true -> h ∈ rs').

Section removing.
Context (grant : bool).
Context (n : run) (Hn : 0 <= RunStartVbn n < RunEndVbn n) (rs : list run) (Hrs : runs_ok rs).

Lemma surrounded_spec : surrounded n rs = true <-> exists h, h ∈ rs /\ around n h = true.
Proof.
  unfold surrounded. rewrite existsb_exists. by setoid_rewrite list_elem_of_In.
Qed.

Lemma around_intersects h : run_ok h -> around n h = true -> intersects n h = true.
Proof.
  unfold around, run_ok. rewrite andb_true_iff, !Z.ltb_lt. intros Hh [H1 H2].
  destruct (intersects n h) eqn:E; [done|]. apply intersects_spec in E; [|lia..].
  unfold apart, behind in E. lia.
Qed.

Lemma removing_start : removing grant n rs rs 0 false.
Proof. split; [done|]. by split_and!. Qed.

(** Only the first case has runs left to cut. *)
Lemma removing_found rs1 h rs2 lost asked :
  removing grant n rs (rs1 ++ h :: rs2) lost asked -> intersects n h = true -> lost = 0 /\ asked = false.
Proof.
  intros [_ Hr] Hi. destruct asked; [|by destruct Hr as [-> _]].
  destruct Hr as (_ & _ & H). rewrite Forall_app, Forall_cons in H.
  destruct H as (_ & H & _). congruence.
Qed.

Lemma removing_step rs1 h rs2 :
  removing grant n rs (rs1 ++ h :: rs2) 0 false -> intersects n h = true -> around n h = false ->
  removing grant n rs (rs1 ++ pieces n h ++ rs2) 0 false.
Proof.
  intros (Hok & _ & Hc & Hold & Hnew) Hi Ha.
  destruct (cut_step n Hn rs1 h rs2 Hok Hi) as [Hok' Hc']. split; [done|].
  split_and!; [done|by rewrite Hc'| |].
  - intros r Hr Hir. apply Hold; [|done]. apply runs_ok_middle in Hok as (_ & Hh & _).
    rewrite !elem_of_app in Hr. rewrite elem_of_app, elem_of_cons. destruct Hr as [|[Hr|]]; auto.
    exfalso. pose proof (runs_ok_in _ _ (pieces_ok n Hn h Hh Hi) Hr) as Hr'.
    apply pieces_within in Hr as (_ & _ & Hap); [|done|done|done].
    apply intersects_spec in Hap; [|lia|apply Hr']. congruence.
  - intros r Hr Hra. specialize (Hnew r Hr Hra). rewrite !elem_of_app.
    apply elem_of_app in Hnew as [?|[->|?]%elem_of_cons]; auto. congruence.
Qed.

(** A range inside of one run intersects no other. *)
Lemma around_apart rs1 h rs2 :
  runs_ok (rs1 ++ h :: rs2) -> intersects n h = true ->
  RunStartVbn h < RunStartVbn n -> RunEndVbn n < RunEndVbn h ->
  Forall (fun r => intersects n r = false) (rs1 ++ pieces n h ++ rs2).
Proof.
  intros Hok Hi H1 H2. pose proof (fun r => runs_ok_in _ r (proj1 (cut_step n Hn rs1 h rs2 Hok Hi))) as Hin.
  apply runs_ok_middle in Hok as (Hok & Hh & Hb & Ha). rewrite Forall_forall in Hb, Ha |- *.
  intros r Hr. apply intersects_spec; [lia|by apply Hin|].
  apply elem_of_app in Hr as [Hr|[Hr|Hr]%elem_of_app].
  - right. specialize (Hb r Hr). unfold behind in *. lia.
  - by apply pieces_within in Hr as (_ & _ & ?).
  - left. specialize (Ha r Hr). unfold behind in *. lia.
Qed.

Lemma around_surrounded rs1 h rs2 :
  removing grant n rs (rs1 ++ h :: rs2) 0 false -> intersects n h = true -> around n h = true ->
  surrounded n rs = true.
Proof.
  intros (_ & _ & _ & Hold & _) Hi Ha. apply surrounded_spec. exists h. split; [|done].
  apply Hold; [apply elem_of_app; right; left|done].
Qed.

(** The tail of a run around the range is inserted. *)
Lemma removing_kept rs1 h rs2 :
  removing grant n rs (rs1 ++ h :: rs2) 0 false -> intersects n h = true -> around n h = true ->
  grant = true -> removing grant n rs (rs1 ++ pieces n h ++ rs2) 0 true.
Proof.
  intros Hr Hi Ha Hg. pose proof (around_surrounded _ _ _ Hr Hi Ha) as Hs.
  destruct Hr as (Hok & _ & Hc & _). apply andb_true_iff in Ha as [H1%Z.ltb_lt H2%Z.ltb_lt].
  pose proof (around_apart _ _ _ Hok Hi H1 H2) as Hno.
  destruct (cut_step n Hn rs1 h rs2 Hok Hi) as [Hok' Hc']. rewrite cut_apart in Hc' by done.
  split; [done|]. split_and!; [done| |done]. unfold tail_result. rewrite Hg. split; congruence.
Qed.

(** The tail of a run around the range is not inserted. *)
Lemma removing_lost rs1 h rs2 :
  removing grant n rs (rs1 ++ h :: rs2) 0 false -> intersects n h = true -> around n h = true ->
  grant = false ->
  removing grant n rs (rs1 ++ MkRun (RunStartVbn h) (RunStartVbn n) (StartingLbn h) :: rs2) 1 true.
Proof.
  intros Hr Hi Ha Hg. pose proof (around_surrounded _ _ _ Hr Hi Ha) as Hs.
  destruct Hr as (Hok & _ & Hc & Hold & _). apply andb_true_iff in Ha as [H1%Z.ltb_lt H2%Z.ltb_lt].
  pose proof (around_apart _ _ _ Hok Hi H1 H2) as Hno.
  destruct (cut_step n Hn rs1 h rs2 Hok Hi) as [Hok' Hc']. rewrite cut_apart in Hc' by done.
  assert (h ∈ rs) as Hh by (apply Hold; [apply elem_of_app; right; left|done]).
  unfold pieces in *. rewrite (proj2 (Z.ltb_lt _ _) H1), (proj2 (Z.ltb_lt _ _) H2) in *.
  simpl in *. set (head := MkRun _ _ _) in *. set (tail := MkRun (RunEndVbn n) _ _) in *.
  assert (rs1 ++ head :: tail :: rs2 = (rs1 ++ [head]) ++ tail :: rs2) as E by by rewrite <- app_assoc.
  assert (rs1 ++ head :: rs2 = (rs1 ++ [head]) ++ rs2) as E' by by rewrite <- app_assoc.
  rewrite E in Hok', Hno, Hc'. rewrite E'. split; [by apply runs_ok_middle in Hok' as (? & _)|].
  split_and!; [done|unfold tail_result; rewrite Hg; split; [|done]|].
  - exists h, (rs1 ++ [head]), tail, rs2. split_and!; try done. congruence.
  - rewrite Forall_app, Forall_cons in Hno. rewrite Forall_app. tauto.
Qed.

(** The end of a removal: the range is cut out, and perhaps a tail is lost. *)
Lemma removing_done rs' lost asked :
  removing grant n rs rs' lost asked -> Forall (fun r => intersects n r = false) rs' ->
  asked = surrounded n rs /\ tail_result (negb asked || grant) n rs rs' lost.
Proof.
  intros [Hok Hr] Hno. destruct asked; [destruct Hr as (-> & Ht & _); by split|].
  destruct Hr as (-> & Hc & _ & Hnew). rewrite cut_apart in Hc by done. split; [|by split].
  destruct (surrounded n rs) eqn:E; [|done]. apply surrounded_spec in E as (h & Hh & Ha).
  rewrite Forall_forall in Hno. specialize (Hno h (Hnew h Hh Ha)).
  rewrite around_intersects in Hno; [done|exact (runs_ok_in _ _ Hrs Hh)|done].
Qed.

(** Without the tail, the blocks of the run around the range are mapped only before it. *)
Lemma tail_lost_mapped rs' :
  tail_lost n rs rs' -> runs_ok rs' /\
  exists h, h ∈ rs /\ RunStartVbn h < RunStartVbn n /\ RunEndVbn n < RunEndVbn h /\
    forall v, mapped rs' v =
      if (RunStartVbn n <=? v) && (v <? RunEndVbn h) then None else mapped rs v.
Proof.
  intros (h & c1 & t & c2 & Hh & H1 & H2 & Hc & Ht & Ht' & ->).
  pose proof (cut_ok n Hn rs Hrs) as Hok. rewrite Hc in Hok.
  split; [by apply runs_ok_middle in Hok as (? & _)|]. exists h. split_and!; [done..|].
  intros v. pose proof (mapped_middle c1 t c2 v Hok) as Hm.
  pose proof (mapped_others c1 t c2 v Hok) as Hothers.
  rewrite <- Hc, cut_mapped in Hm by done. unfold inside in Hm, Hothers. rewrite Ht, Ht' in Hm, Hothers.
  destruct (Z.leb_spec (RunStartVbn n) v), (Z.ltb_spec v (RunEndVbn n)),
    (Z.leb_spec (RunEndVbn n) v), (Z.ltb_spec v (RunEndVbn h)); simpl in Hm, Hothers |- *; try lia; auto; congruence.
Qed.
End removing.

(** ** Entries *)

Fixpoint end_from (last : Z) (rs : list run) : Z :=
  match rs with
  | [] => last
  | r :: rs' => end_from (RunEndVbn r) rs'
  end.

Lemma entries_app last rs1 rs2 :
  entries last (rs1 ++ rs2) = entries last rs1 ++ entries (end_from last rs1) rs2.
Proof.
  revert last. induction rs1 as [|r rs1 IH]; intros last; simpl; [done|]. rewrite IH. by case_match.
Qed.

Lemma end_from_snoc last rs r : end_from last (rs ++ [r]) = RunEndVbn r.
Proof. revert last. induction rs as [|r' rs IH]; intros last; simpl; [done|]. by rewrite IH. Qed.

Lemma entries_length last rs :
  (length rs <= length (entries last rs) <= 2 * length rs)%nat.
Proof.
  revert last. induction rs as [|r rs IH]; intros last; simpl; [lia|].
  specialize (IH (RunEndVbn r)). case_match; simpl; lia.
Qed.

(** The entries up to a run: the hole before it, and the run. *)
Definition hole_before (last : Z) (r : run) : list (Z * Z * Z) :=
  if last <? RunStartVbn r then [(last, -1, RunStartVbn r - last)] else [].

Definition entry_of (r : run) : Z * Z * Z :=
  (RunStartVbn r, StartingLbn r, RunEndVbn r - RunStartVbn r).

Lemma entries_middle last rs1 r rs2 :
  entries last (rs1 ++ r :: rs2) =
  (entries last rs1 ++ hole_before (end_from last rs1) r) ++ entry_of r :: entries (RunEndVbn r) rs2.
Proof.
  rewrite entries_app. simpl. unfold hole_before. rewrite <- app_assoc. by case_match.
Qed.

(** The runs end before the next ones start. *)
Lemma end_from_bounds rs1 r rs2 :
  runs_ok (rs1 ++ r :: rs2) -> 0 <= end_from 0 rs1 <= RunStartVbn r.
Proof.
  intros (Hok & Hr & H1 & _)%runs_ok_middle. destruct rs1 as [|a rs1 _] using rev_ind.
  - simpl. unfold run_ok in Hr. lia.
  - rewrite end_from_snoc. rewrite Forall_app, Forall_singleton in H1. destruct H1 as [_ Ha].
    assert (run_ok a) as Hoka. { apply (runs_ok_in _ _ Hok). rewrite !elem_of_app. left. right. by left. }
    unfold behind, run_ok in *. lia.
Qed.

(** ** What an addition does *)

(** The run [k] is to be inserted among the runs [rs]. *)
Definition pending (k : run) (rs : list run) : Prop :=
  run_ok k /\ runs_ok rs /\ Forall (apart k) rs.

(** It is joined to the run that it continues. *)
Definition lower_step (k : run) (rs : list run) (k' : run) (rs' : list run) : Prop :=
  (exists rs1 a rs2, rs = rs1 ++ a :: rs2 /\ continues a k /\ k' = join a k /\ rs' = rs1 ++ rs2) \/
  (forall a, a ∈ rs -> ~ continues a k) /\ k' = k /\ rs' = rs.

(** It is joined to the run behind it when the logical blocks of that do not start below. *)
Definition higher_step (k : run) (rs : list run) (k' : run) (rs' : list run) : Prop :=
  (exists rs1 b rs2, rs = rs1 ++ b :: rs2 /\ joins k b /\ StartingLbn k <= StartingLbn b /\
     k' = join k b /\ rs' = rs1 ++ rs2) \/
  (forall b, b ∈ rs -> joins k b -> StartingLbn b < StartingLbn k) /\ k' = k /\ rs' = rs.

(** The new run is in its place, or there was no memory for it. *)
Definition add_result (k : run) (rs rs' : list run) (stored : bool) : Prop :=
  exists k1 rs1 k2 rs2, lower_step k rs k1 rs1 /\ higher_step k1 rs1 k2 rs2 /\ runs_ok rs' /\
    if stored then rs' ≡ₚ k2 :: rs2 else rs' = rs2.

Lemma pending_cut n rs :
  run_ok n -> runs_ok rs -> pending n (cut n rs).
Proof.
  intros Hn Hrs. assert (0 <= RunStartVbn n < RunEndVbn n) as Hn' by (unfold run_ok in Hn; lia).
  split_and!; [done|by apply cut_ok|]. apply Forall_forall. intros r Hr.
  by apply (cut_within n Hn' rs r Hrs) in Hr as [? _].
Qed.

Lemma pending_join rs1 r rs2 k a b :
  pending k (rs1 ++ r :: rs2) -> (a = r /\ b = k \/ a = k /\ b = r) -> joins a b ->
  pending (join a b) (rs1 ++ rs2).
Proof.
  intros (Hk & Hrs & Ha) Hab Hj. pose proof Hrs as (Hrs' & Hr & _)%runs_ok_middle.
  split_and!; [|done|by eapply join_apart].
  destruct Hab as [[-> ->]|[-> ->]]; by apply join_ok.
Qed.

Lemma pending_lower k rs k' rs' : pending k rs -> lower_step k rs k' rs' -> pending k' rs'.
Proof.
  intros Hp [(rs1 & a & rs2 & -> & [Hj _] & -> & ->)|(_ & -> & ->)]; [|done].
  eapply pending_join; [done| |done]. by left.
Qed.

Lemma pending_higher k rs k' rs' : pending k rs -> higher_step k rs k' rs' -> pending k' rs'.
Proof.
  intros Hp [(rs1 & a & rs2 & -> & Hj & _ & -> & ->)|(_ & -> & ->)]; [|done].
  eapply pending_join; [done| |done]. by right.
Qed.

Lemma lower_mapped k rs k' rs' v :
  pending k rs -> lower_step k rs k' rs' -> with_run k' rs' v = with_run k rs v.
Proof.
  intros (Hk & Hrs & _) [(rs1 & a & rs2 & -> & Hc & -> & ->)|(_ & -> & ->)]; [|done].
  by apply join_lower.
Qed.

(** The block behind a run is the first of the run that is joined to it. *)
Lemma higher_first k b v : run_ok b -> joins k b -> v = RunEndVbn k -> inside b v = true.
Proof. unfold run_ok, joins, inside. intros. case_cmp. Qed.

Lemma mapped_joined rs1 b rs2 k :
  runs_ok (rs1 ++ b :: rs2) -> joins k b -> mapped (rs1 ++ b :: rs2) (RunEndVbn k) = Some (StartingLbn b).
Proof.
  intros Hrs Hj. rewrite mapped_middle by done. apply runs_ok_middle in Hrs as (_ & Hb & _).
  rewrite (higher_first k b) by done. unfold lbn_of. unfold joins in Hj. unfold run_ok, in64 in Hb.
  rewrite Hj, Z.sub_diag, Z.add_0_r, s64_small by lia. done.
Qed.

(** The insertion maps what the pending run maps. *)
Lemma stored_mapped k rs rs' v :
  pending k rs -> runs_ok rs' -> rs' ≡ₚ k :: rs -> mapped rs' v = with_run k rs v.
Proof.
  intros (Hk & Hrs & Ha) Hrs' Hp. assert (k ∈ rs') as Hin by (rewrite Hp; by left).
  apply list_elem_of_split in Hin as (rs1 & rs2 & ->). rewrite <- Permutation_middle in Hp.
  apply Permutation_cons_inv in Hp. rewrite mapped_middle by done.
  apply runs_ok_middle in Hrs' as (Hrs' & _). by rewrite (runs_perm _ _ Hrs' Hrs Hp).
Qed.

Lemma mapped_in rs v l : mapped rs v = Some l -> exists r, r ∈ rs /\ inside r v = true /\ l = lbn_of r v.
Proof.
  induction rs as [|r rs IH]; simpl; [done|]. destruct (inside r v) eqn:E.
  - intros [= <-]. exists r. split_and!; [by left|done..].
  - intros (r' & H & ?)%IH. exists r'. split; [by right|done].
Qed.

(** The run at the block behind a pending run starts there. *)
Lemma pending_behind k rs l :
  pending k rs -> mapped rs (RunEndVbn k) = Some l ->
  exists b, b ∈ rs /\ joins k b /\ l = StartingLbn b.
Proof.
  intros (Hk & Hrs & Ha) (b & Hb & Hi & ->)%mapped_in. exists b. rewrite Forall_forall in Ha.
  specialize (Ha b Hb). pose proof (runs_ok_in _ _ Hrs Hb) as Hok.
  assert (joins k b) as Hj.
  { unfold joins, apart, behind, inside, run_ok in *. rewrite andb_true_iff, Z.leb_le, Z.ltb_lt in Hi. lia. }
  split_and!; [done|done|]. unfold lbn_of. unfold joins in Hj. unfold run_ok, in64 in Hok.
  rewrite Hj, Z.sub_diag, Z.add_0_r, s64_small by lia. done.
Qed.

Lemma not_inside_end k : inside k (RunEndVbn k) = false.
Proof. unfold inside. case_cmp. Qed.

Lemma lower_end k rs k' rs' :
  lower_step k rs k' rs' -> RunEndVbn k' = RunEndVbn k /\ forall v, lbn_of k' v = lbn_of k v.
Proof.
  intros [(rs1 & a & rs2 & -> & Hc & -> & ->)|(_ & -> & ->)]; [|done].
  split; [done|]. intros v. by rewrite (continues_lbn a k v Hc).
Qed.

Lemma lower_behind k rs k' rs' :
  pending k rs -> lower_step k rs k' rs' -> mapped rs' (RunEndVbn k) = mapped rs (RunEndVbn k).
Proof.
  intros Hp Hl. pose proof (lower_mapped k rs k' rs' (RunEndVbn k) Hp Hl) as H.
  destruct (lower_end _ _ _ _ Hl) as [He _]. unfold with_run in H.
  rewrite not_inside_end, <- He, not_inside_end, He in H. done.
Qed.

Lemma end_continues k b :
  joins k b -> StartingLbn b = lbn_of k (RunEndVbn k) -> continues k b.
Proof. intros Hj Hl. split; [done|]. by rewrite Hl. Qed.

(** When the block behind the new run is not mapped, or goes on from it, the new run is mapped
    and nothing else changes. *)
Lemma add_mapped k rs rs' v :
  pending k rs -> add_result k rs rs' true ->
  mapped rs (RunEndVbn k) = None \/ mapped rs (RunEndVbn k) = Some (lbn_of k (RunEndVbn k)) ->
  mapped rs' v = with_run k rs v.
Proof.
  intros Hp (k1 & rs1 & k2 & rs2 & Hl & Hh & Hrs' & Hperm) Hbehind.
  pose proof (pending_lower _ _ _ _ Hp Hl) as Hp1. pose proof (pending_higher _ _ _ _ Hp1 Hh) as Hp2.
  rewrite (stored_mapped k2 rs2 rs' v Hp2 Hrs' Hperm), <- (lower_mapped k rs k1 rs1 v Hp Hl).
  destruct Hh as [(c1 & b & c2 & -> & Hj & Hle & -> & ->)|(_ & -> & ->)]; [|done].
  destruct Hp1 as (Hk1 & Hrs1 & Ha1). rewrite join_higher by done.
  destruct (inside b v) eqn:Eb; [|done]. destruct (lower_end _ _ _ _ Hl) as [He Hlbn].
  pose proof (mapped_joined c1 b c2 k1 Hrs1 Hj) as Hm.
  rewrite He, (lower_behind k rs k1 _ Hp Hl) in Hm. rewrite Hm in Hbehind.
  destruct Hbehind as [|[= Hb]]; [done|].
  assert (continues k1 b) as Hc by (apply end_continues; [done|by rewrite He, Hlbn]).
  unfold with_run. rewrite mapped_middle, Eb, (continues_lbn k1 b v Hc) by done. by case_match.
Qed.

(** When the block behind the new run is mapped to some logical block that is not below those
    of the run, its mapping becomes a continuation of the new run. *)
Lemma add_takes_over k rs rs' l :
  pending k rs -> add_result k rs rs' true ->
  (forall a, a ∈ rs -> ~ continues a k) -> mapped rs (RunEndVbn k) = Some l -> StartingLbn k <= l ->
  mapped rs' (RunEndVbn k) = Some (lbn_of k (RunEndVbn k)).
Proof.
  intros Hp (k1 & rs1 & k2 & rs2 & Hl & Hh & Hrs' & Hperm) Hno Hm Hle.
  destruct Hl as [(c1 & a & c2 & -> & Hc & _)|(_ & -> & ->)].
  { exfalso. apply (Hno a); [apply elem_of_app; right; by left|done]. }
  destruct (pending_behind _ _ _ Hp Hm) as (b' & Hb' & Hj' & ->).
  pose proof (pending_higher _ _ _ _ Hp Hh) as Hp2.
  rewrite (stored_mapped k2 rs2 rs' _ Hp2 Hrs' Hperm).
  destruct Hh as [(c1 & b & c2 & -> & Hj & _ & -> & ->)|(Hlow & _)].
  - destruct Hp as (Hk & Hrs & Ha). rewrite join_higher by done.
    apply runs_ok_middle in Hrs as (_ & Hb & _). by rewrite (higher_first k b).
  - specialize (Hlow b' Hb' Hj'). lia.
Qed.

(** ** An addition after the removal *)

(** The range as a run, whatever its logical blocks. *)
Lemma cut_range s e l l' rs : cut (MkRun s e l) rs = cut (MkRun s e l') rs.
Proof. done. Qed.

Lemma pending_drop k rs1 r rs2 : pending k (rs1 ++ r :: rs2) -> pending k (rs1 ++ rs2).
Proof.
  intros (Hk & Hrs & Ha). rewrite Forall_app, Forall_cons in Ha. split_and!; [done| |].
  - by apply runs_ok_middle in Hrs as (? & _).
  - rewrite Forall_app. tauto.
Qed.

Lemma pending_tail_lost s e l rs rs' :
  run_ok (MkRun s e l) -> runs_ok rs -> tail_lost (MkRun s e (-1)) rs rs' ->
  pending (MkRun s e l) rs'.
Proof.
  intros Hk Hrs (h & c1 & t & c2 & _ & _ & _ & Hc & _ & _ & ->). apply (pending_drop _ _ t).
  rewrite <- Hc, (cut_range s e (-1) l). by apply pending_cut.
Qed.

(** The blocks of the new run are mapped as it says, whatever is behind it. *)
Lemma add_inside k rs rs' v :
  pending k rs -> add_result k rs rs' true -> inside k v = true -> mapped rs' v = Some (lbn_of k v).
Proof.
  intros Hp (k1 & rs1 & k2 & rs2 & Hl & Hh & Hrs' & Hperm) Hv.
  pose proof (pending_lower _ _ _ _ Hp Hl) as Hp1. pose proof (pending_higher _ _ _ _ Hp1 Hh) as Hp2.
  pose proof (lower_mapped k rs k1 rs1 v Hp Hl) as Hm. destruct (lower_end _ _ _ _ Hl) as [He Hlbn].
  rewrite (stored_mapped k2 rs2 rs' v Hp2 Hrs' Hperm).
  destruct Hh as [(c1 & b & c2 & -> & Hj & Hle & -> & ->)|(_ & -> & ->)].
  - destruct Hp1 as (Hk1 & Hrs1 & Ha1). rewrite join_higher, Hm by done. rewrite Hlbn.
    unfold with_run. rewrite Hv. by case_match.
  - rewrite Hm. unfold with_run. by rewrite Hv.
Qed.

(** ** How many runs there are *)

Lemma pieces_length n h :
  RunStartVbn n < RunEndVbn n -> run_ok h -> intersects n h = true ->
  (length (pieces n h) <= 1)%nat \/
  (length (pieces n h) = 2%nat /\ RunEndVbn n < RunEndVbn h).
Proof. intros. unfold pieces. case_match; case_match; simpl; rewrite ?Z.ltb_lt in *; lia. Qed.

Lemma cut_length n rs :
  0 <= RunStartVbn n < RunEndVbn n -> runs_ok rs -> (length (cut n rs) <= length rs + 1)%nat.
Proof.
  intros Hn. induction rs as [|h rs IH]; [simpl; lia|]. intros Hok.
  pose proof Hok as (Hok' & Hh & _ & Hb)%(runs_ok_middle [] h rs). specialize (IH Hok').
  change (cut n (h :: rs)) with ((if intersects n h then pieces n h else [h]) ++ cut n rs).
  rewrite length_app. destruct (intersects n h) eqn:E; [|simpl in *; lia].
  destruct (pieces_length n h) as [Hl|[Hl He]]; [lia|done|done|simpl in *; lia|].
  rewrite cut_apart; [simpl; lia|]. destruct Hok' as [Hok' _].
  eapply Forall_impl; [apply Forall_and; split; [exact Hok'|exact Hb]|].
  intros a [Ha1 Ha2]. apply intersects_spec; [lia|unfold run_ok in Ha1; lia|]. left.
  unfold behind in *. lia.
Qed.

Lemma lower_length k rs k' rs' : lower_step k rs k' rs' -> (length rs' <= length rs)%nat.
Proof.
  intros [(rs1 & a & rs2 & -> & _ & _ & ->)|(_ & _ & ->)]; [|done]. rewrite !length_app. simpl. lia.
Qed.

Lemma higher_length k rs k' rs' : higher_step k rs k' rs' -> (length rs' <= length rs)%nat.
Proof.
  intros [(rs1 & a & rs2 & -> & _ & _ & _ & ->)|(_ & _ & ->)]; [|done]. rewrite !length_app. simpl. lia.
Qed.

Lemma add_length k rs rs' b : add_result k rs rs' b -> (length rs' <= length rs + 1)%nat.
Proof.
  intros (k1 & rs1 & k2 & rs2 & Hl%lower_length & Hh%higher_length & _ & Hr).
  destruct b; [|subst; lia]. apply Permutation_length in Hr. simpl in Hr. lia.
Qed.

(** ** Logical blocks that are not negative *)

Definition lbns_ok (r : run) : Prop :=
  0 <= StartingLbn r /\ StartingLbn r + (RunEndVbn r - RunStartVbn r) < 2 ^ 63.

Definition lbn_positive (r : run) : Prop := 0 <= StartingLbn r.

Lemma cut_lbns n rs :
  RunStartVbn n < RunEndVbn n -> runs_ok rs -> Forall lbns_ok rs -> Forall lbn_positive (cut n rs).
Proof.
  intros Hn Hok Hl. rewrite Forall_forall in Hl |- *. intros r (h & Hr & Hh)%list_elem_of_bind.
  specialize (Hl h Hh). pose proof (runs_ok_in _ _ Hok Hh) as Hrun. unfold lbns_ok, lbn_positive, run_ok in *.
  destruct (intersects n h) eqn:E; [|apply list_elem_of_singleton in Hr as ->; lia].
  assert (RunStartVbn h < RunEndVbn n) as Hi.
  { unfold intersects in E. pose proof (intersect_order_spec n h) as Ho.
    destruct (intersect_order n h); try done. lia. }
  assert (RunEndVbn n < RunEndVbn h -> 0 <= s64 (StartingLbn h + (RunEndVbn n - RunStartVbn h))) as Ht
    by (intros; rewrite s64_small; lia).
  unfold pieces in Hr. revert Hr. case_match; case_match; rewrite ?Z.ltb_lt in *;
    rewrite ?elem_of_cons, ?elem_of_nil; intros Hr; destruct_or?; subst; simpl; tauto || lia.
Qed.

Lemma add_lbns k rs rs' b :
  add_result k rs rs' b -> lbn_positive k -> Forall lbn_positive rs -> Forall lbn_positive rs'.
Proof.
  intros (k1 & rs1 & k2 & rs2 & Hl & Hh & _ & Hr) Hk Hrs.
  assert (lbn_positive k1 /\ Forall lbn_positive rs1) as [Hk1 Hrs1].
  { destruct Hl as [(c1 & a & c2 & -> & _ & -> & ->)|(_ & -> & ->)]; [|done].
    rewrite Forall_app, Forall_cons in Hrs. rewrite Forall_app. unfold lbn_positive in *. simpl. tauto. }
  assert (lbn_positive k2 /\ Forall lbn_positive rs2) as [Hk2 Hrs2].
  { destruct Hh as [(c1 & a & c2 & -> & _ & _ & -> & ->)|(_ & -> & ->)]; [|done].
    rewrite Forall_app, Forall_cons in Hrs1. rewrite Forall_app. unfold lbn_positive in *. simpl. tauto. }
  destruct b; [|by subst]. rewrite Hr. by constructor.
Qed.
