(* ===== verification/Heap64.v ===== *)
(** * 64-bit objects in memory

    A [LONGLONG] or [ULONGLONG] of a caller's structure is eight bytes of memory, least
    significant byte first.  Here are the accesses to such objects, what it means to own one,
    and tactics that execute the accesses. *)

From Stdlib Require Import ZArith Lia.
From S2P Require Import Prelude.
From stdpp Require Import gmap.
From iris.proofmode Require Import environments coq_tactics reduction proofmode.
From S2P Require Import Bytes HeapLogic TableCommon.

#[local] Open Scope Z_scope.

(** ** The accesses *)

Fixpoint load_bytes (n : nat) (p : Z) : M (list Z) :=
  match n with
  | O => ret []
  | S n' => b ← load p; bs ← load_bytes n' (p + 1); ret (b :: bs)
  end.

Fixpoint store_bytes (p : Z) (bs : list Z) : M unit :=
  match bs with
  | [] => ret tt
  | b :: bs' => store p b;; store_bytes (p + 1) bs'
  end.

(** A [LONGLONG]. *)
Definition load64 (p : Z) : M Z := bs ← load_bytes 8 p; ret (s64 (le_val bs)).
Definition store64 (p v : Z) : M unit := store_bytes p (le 8 v).

(** ** 64-bit objects *)

Definition i64_at (p v : Z) : hprop := (⌜in64 v⌝ ∗ bytes_at p (le 8 v))%I.

(** Memory for a 64-bit object. *)
Definition free64 (p : Z) : hprop := (∃ bs, ⌜length bs = 8%nat⌝ ∗ bytes_at p bs)%I.

Lemma i64_at_bytes p v : i64_at p v ⊣⊢ ⌜in64 v⌝ ∗ bytes_at p (le 8 v).
Proof. done. Qed.

Lemma load_bytes_spec p bs Φ :
  bytes_at p bs -∗ (bytes_at p bs -∗ Φ bs) -∗ wp (load_bytes (length bs) p) Φ.
Proof.
  revert p Φ. induction bs as [|b bs IH]; intros p Φ; simpl; iIntros "H HΦ".
  - wp_ret. by iApply "HΦ".
  - iDestruct "H" as "[Hb H]". wp_load. wp_call. iApply (IH with "H"). iIntros "H". wp_ret.
    iApply "HΦ". iFrame.
Qed.

Lemma store_bytes_spec p old bs Φ :
  length old = length bs -> bytes_at p old -∗ (bytes_at p bs -∗ Φ tt) -∗ wp (store_bytes p bs) Φ.
Proof.
  revert p old Φ. induction bs as [|b bs IH]; intros p [|o old] Φ Hlen; simplify_eq/=; iIntros "H HΦ".
  - wp_ret. by iApply "HΦ".
  - iDestruct "H" as "[Hb H]". wp_store. iApply (IH with "H"); [done|]. iIntros "H".
    iApply "HΦ". iFrame.
Qed.

Lemma load64_spec p v Φ : i64_at p v -∗ (i64_at p v -∗ Φ v) -∗ wp (load64 p) Φ.
Proof.
  iIntros "[%Hv H] HΦ". unfold load64. wp_call.
  iApply (load_bytes_spec p (le 8 v) with "H"). iIntros "H". wp_ret.
  rw le_val_mod. change (256 ^ Z.of_nat 8) with (2 ^ 64). rw s64_u64 //.
  iApply "HΦ". by iFrame.
Qed.

Lemma free64_store p v Φ : in64 v -> free64 p -∗ (i64_at p v -∗ Φ tt) -∗ wp (store64 p v) Φ.
Proof.
  iIntros (Hv) "(%bs & %Hbs & H) HΦ". iApply (store_bytes_spec with "H"); [by rw Hbs length_le|].
  iIntros "H". iApply "HΦ". by iFrame.
Qed.

Lemma i64_free p v : i64_at p v ⊢ free64 p.
Proof. iIntros "[_ H]". iExists _. iFrame. by rw length_le. Qed.

Lemma bytes_free64 p bs : length bs = 8%nat -> bytes_at p bs ⊢ free64 p.
Proof. iIntros (Hbs) "H". iExists bs. by iFrame. Qed.

Lemma store64_spec p v w Φ :
  in64 w -> i64_at p v -∗ (i64_at p w -∗ Φ tt) -∗ wp (store64 p w) Φ.
Proof. iIntros (Hw) "H". iApply free64_store; [done|]. by iApply i64_free. Qed.

(** Proofs do not look into the bytes from here on. *)
#[global] Opaque le i64_at free64.

Lemma tac_wp_load64 {B} Δ i p v (k : Z -> M B) Φ :
  envs_lookup i Δ = Some (false, i64_at p v) ->
  envs_entails Δ (wp (k v) Φ) ->
  envs_entails Δ (wp (bind (load64 p) k) Φ).
Proof.
  rw envs_entails_unseal => Hi Hk. rw envs_lookup_split //. simpl.
  etrans; [|apply wp_bind]. iIntros "[Hl Henv]". iApply (load64_spec with "Hl").
  iIntros "Hl". iApply Hk. by iApply "Henv".
Qed.

Lemma tac_wp_store64 {B} Δ Δ' i p v w (k : unit -> M B) Φ :
  envs_lookup i Δ = Some (false, i64_at p v) -> in64 w ->
  envs_simple_replace i false (Esnoc Enil i (i64_at p w)) Δ = Some Δ' ->
  envs_entails Δ' (wp (k tt) Φ) ->
  envs_entails Δ (wp (bind (store64 p w) k) Φ).
Proof.
  rw envs_entails_unseal => Hi Hw Hr Hk. rw envs_simple_replace_sound //. simpl.
  etrans; [|apply wp_bind]. iIntros "[Hl Henv]". iApply (store64_spec with "Hl"); [done|].
  iIntros "Hl". iApply Hk. iApply "Henv". by iSplitL.
Qed.

(** A 64-bit value is in range: a wrapped one, or one that the hypotheses bound. *)
Ltac in64 := solve [apply s64_range | assumption | unfold in64 in *; lia].

Ltac wp_load64 :=
  wp_head;
  lazymatch goal with
  | |- envs_entails _ (wp (bind (load64 _) _) _) => eapply tac_wp_load64; [iAssumptionCore|lazy beta]
  end; wp_head.

Ltac wp_store64 :=
  wp_head;
  lazymatch goal with
  | |- envs_entails _ (wp (bind (store64 _ _) _) _) =>
      eapply tac_wp_store64; [iAssumptionCore|in64|pm_reflexivity|lazy beta]
  end; wp_head.

(** Runs a program with 64-bit objects. *)
Ltac wp_run64 := repeat first [wp_load64 | wp_store64 | wp_load | wp_store | wp_test].

