(* ===== verification/FsRtlMcb.v ===== *)
(** * Mapping control blocks: the code of ntoskrnl/fsrtl/largemcb.c

    A mapping control block keeps its runs in a generic table, whose compare routine it
    exchanges between two orders, and it changes and deletes runs through the pointers that
    the table returns.  The functions here are those of the base control block; they call the
    code of the table.

    A local variable whose address is passed on is an object at an offset of the parameter
    [sp], the address of the function's frame.  Out parameters that are only written are
    results; [None] is the return value FALSE.

    [dbg] tells whether the code is built with assertions: then a condition that does not hold
    ends the execution. *)

From Stdlib Require Import ZArith Lia.
From S2P Require Import Prelude.
From stdpp Require Import gmap.
From iris.proofmode Require Import proofmode.
From S2P Require Import Bytes HeapLogic LinkTree ListEntry TableCommon GenericTable McbRuns Heap64.

#[local] Open Scope Z_scope.

(** ** The structures *)

(** [BASE_MCB_INTERNAL]; the table is the only field of [LARGE_MCB_MAPPING]. *)
Definition MaximumPairCount (Mcb : Z) : Z := Mcb.
Definition PairCount (Mcb : Z) : Z := Mcb + 4.
Definition PoolType (Mcb : Z) : Z := Mcb + 8.
Definition Mapping (Mcb : Z) : Z := Mcb + 12.

(** The fields of a [LARGE_MCB_MAPPING_ENTRY] at an address. *)
Definition pRunStartVbn (Run : Z) : Z := Run.
Definition pRunEndVbn (Run : Z) : Z := Run + 8.
Definition pStartingLbn (Run : Z) : Z := Run + 16.

Definition MAXIMUM_PAIR_COUNT : Z := 15.
Definition MAXLONG : Z := 0x7FFFFFFF.
Definition PagedPool : Z := 1.

(** [sizeof(LARGE_MCB_MAPPING_ENTRY)] and [sizeof(LARGE_MCB_MAPPING)]. *)
Definition run_size : Z := 24.
Definition mapping_size : Z := 40.

(** The tags ['BCML'] and ['CBSF']. *)
Definition TAG_BCML : Z := 0x42434D4C.
Definition TAG_CBSF : Z := 0x43425346.

(** ** The routines of the table *)

Definition McbMappingCompare (Table PtrA PtrB : Z) : M Z :=
  AStart ← load64 (pRunStartVbn PtrA);
  BStart ← load64 (pRunStartVbn PtrB);
  AEnd ← load64 (pRunEndVbn PtrA);
  BEnd ← load64 (pRunEndVbn PtrB);
  ret (if (AStart =? BStart) && (AEnd =? BEnd) then GenericEqual
       else if AEnd <=? BStart then GenericLessThan
       else if BStart <=? AEnd then GenericGreaterThan
       else GenericEqual).

Definition McbMappingIntersectCompare (Table PtrA PtrB : Z) : M Z :=
  AStart ← load64 (pRunStartVbn PtrA);
  BStart ← load64 (pRunStartVbn PtrB);
  AEnd ← load64 (pRunEndVbn PtrA);
  BEnd ← load64 (pRunEndVbn PtrB);
  ret (if (AStart <=? BStart) && (BStart <? AEnd) then GenericEqual
       else if (BStart <=? AStart) && (AStart <? BEnd) then GenericEqual
       else if AStart <? BStart then GenericLessThan
       else if BStart <? AStart then GenericGreaterThan
       else GenericEqual).

(** The addresses of the routines. *)
Definition pMcbMappingCompare : Z := 1.
Definition pMcbMappingIntersectCompare : Z := 2.
Definition pMcbMappingAllocate : Z := 3.
Definition pMcbMappingFree : Z := 4.

(** The pool and the look-aside lists, which other parts of the kernel implement: entries
    come from the pool, by pool type, size and tag; a mapping comes from the pool or from a
    look-aside list, and its allocation raises an exception ([None]) when there is no
    memory. *)
Record pool := {
  ExAllocatePoolWithTag : Z -> Z -> Z -> M Z;
  ExFreePoolWithTag : Z -> Z -> M unit;
  ExAllocateFromPagedLookasideList : M (option Z);
  ExFreeToPagedLookasideList : Z -> M unit;
  AllocatePoolOrRaise : Z -> Z -> Z -> M (option Z);
}.

Section code.
Context (ex : pool).

Definition McbMappingAllocate (Table Bytes : Z) : M Z :=
  Mcb ← load (TableContext Table);
  Type_ ← load (PoolType Mcb);
  ExAllocatePoolWithTag ex Type_ Bytes TAG_BCML.

Definition McbMappingFree (Table Buffer : Z) : M unit :=
  ExFreePoolWithTag ex Buffer TAG_BCML.

(** The calls that the table makes through its pointers. *)
Definition mcb_callbacks : callbacks := {|
  CallCompare f Table a b :=
    if f =? pMcbMappingCompare then McbMappingCompare Table a b
    else if f =? pMcbMappingIntersectCompare then McbMappingIntersectCompare Table a b
    else fail;
  CallAllocate f Table n := if f =? pMcbMappingAllocate then McbMappingAllocate Table n else fail;
  CallFree f Table p := if f =? pMcbMappingFree then McbMappingFree Table p else fail;
|}.

(** Assertions are part of the code in some builds. *)
Context (dbg : bool).

Definition ASSERT (cond : M bool) : M unit :=
  if dbg then b ← cond; if b : bool then ret tt else fail else ret tt.

(** The variables [NodeOrParent] of the table's functions are not initialized. *)
Context (uninit : Z).

Abbreviation Lookup := (RtlLookupElementGenericTable mcb_callbacks uninit).
Abbreviation Insert := (RtlInsertElementGenericTable mcb_callbacks uninit).
Abbreviation Delete := (RtlDeleteElementGenericTable mcb_callbacks uninit).

(** ** Initialization *)

(** FALSE stands for the exception that the allocation raises; the field [PoolType] has 16
    bits. *)
Definition FsRtlInitializeBaseMcb (Mcb Type_ : Z) : M bool :=
  r ← (if Type_ =? PagedPool then ExAllocateFromPagedLookasideList ex
       else AllocatePoolOrRaise ex Type_ mapping_size TAG_CBSF);
  match r with
  | None => ret false
  | Some p =>
      store (Mapping Mcb) p;;
      store (PoolType Mcb) (u16 Type_);;
      store (PairCount Mcb) 0;;
      store (MaximumPairCount Mcb) MAXIMUM_PAIR_COUNT;;
      Map ← load (Mapping Mcb);
      RtlInitializeGenericTable Map pMcbMappingCompare pMcbMappingAllocate pMcbMappingFree Mcb;;
      ret true
  end.

(** ** The runs in order *)

(** The loop of [FsRtlGetNextBaseMcbEntry] at the run [Run]: it stands at [CurrentIndex], and
    the run before ends at [LastVbn + LastSectorCount].  It results in the first block, the
    first logical block and the length of the entry. *)
Definition next_round (Table RunIndex : Z) (s : Z * Z * Z * Z)
    : M (Z * Z * Z * Z + option (Z * Z * Z)) :=
  let '(Run, CurrentIndex, LastVbn, LastSectorCount) := s in
  if Run =? NULL then ret (inr None)
  else
    Start ← load64 (pRunStartVbn Run);
    let Last := u64 (LastVbn + LastSectorCount) in
    let hole := Last <? u64 Start in
    if hole && (RunIndex =? CurrentIndex) then
      ret (inr (Some (s64 Last, -1, s64 (Start - s64 Last))))
    else
      let CurrentIndex := if hole then u32 (CurrentIndex + 1) else CurrentIndex in
      End_ ← load64 (pRunEndVbn Run);
      if RunIndex =? CurrentIndex then
        Lbn ← load64 (pStartingLbn Run);
        ret (inr (Some (Start, Lbn, s64 (End_ - Start))))
      else
        Next ← RtlEnumerateGenericTable Table false;
        ret (inl (Next, u32 (CurrentIndex + 1), u64 Start, u64 (s64 (End_ - Start)))).

Definition FsRtlGetNextBaseMcbEntry (Mcb RunIndex : Z) : M (option (Z * Z * Z)) :=
  Map ← load (Mapping Mcb);
  Run ← RtlEnumerateGenericTable Map true;
  while (next_round Map RunIndex) (Run, 0, 0, 0).

(** The results of [FsRtlLookupBaseMcbEntry]. *)
Record lookup_result64 := {
  Lbn : Z;
  SectorCountFromLbn : Z;
  StartingLbnOfEntry : Z;
  SectorCountFromStartingLbn : Z;
  Index : Z;
}.

Definition lookup_round (Mcb Vbn i : Z) : M (Z + option lookup_result64) :=
  r ← FsRtlGetNextBaseMcbEntry Mcb i;
  match r with
  | None => ret (inr None)
  | Some (LastVbn, LastLbn, Count) =>
      if Vbn <? s64 (LastVbn + Count) then
        ret (inr (Some {|
          Lbn := if LastLbn =? -1 then -1 else s64 (LastLbn + s64 (Vbn - LastVbn));
          SectorCountFromLbn := s64 (s64 (LastVbn + Count) - Vbn);
          StartingLbnOfEntry := LastLbn;
          SectorCountFromStartingLbn := s64 (s64 (LastVbn + Count) - LastVbn);
          Index := i |}))
      else ret (inl (u32 (i + 1)))
  end.

Definition FsRtlLookupBaseMcbEntry (Mcb Vbn : Z) : M (option lookup_result64) :=
  while (lookup_round Mcb Vbn) 0.

Definition last_round (Table : Z) (s : Z * Z * Z * Z) : M (Z * Z * Z * Z + Z * Z) :=
  let '(Run, RunFound, RunIndex, LastVbn) := s in
  if Run =? NULL then ret (inr (RunFound, RunIndex))
  else
    Start ← load64 (pRunStartVbn Run);
    let RunIndex := if LastVbn <? Start then u32 (RunIndex + 1) else RunIndex in
    End_ ← load64 (pRunEndVbn Run);
    Next ← RtlEnumerateGenericTable Table false;
    ret (inl (Next, Run, u32 (RunIndex + 1), End_)).

(** The last block, its logical block and the index of the last entry. *)
Definition FsRtlLookupLastLargeMcbEntryAndIndex_internal (Mcb : Z) : M (option (Z * Z * Z)) :=
  Map ← load (Mapping Mcb);
  Run ← RtlEnumerateGenericTable Map true;
  r ← while (last_round Map) (Run, NULL, 0, 0);
  if r.1 =? NULL then ret None
  else
    Start ← load64 (pRunStartVbn r.1);
    End_ ← load64 (pRunEndVbn r.1);
    First ← load64 (pStartingLbn r.1);
    ret (Some (s64 (End_ - 1), s64 (s64 (First + s64 (End_ - Start)) - 1), u32 (r.2 - 1))).

Definition FsRtlLookupLastBaseMcbEntryAndIndex (Mcb : Z) : M (option (Z * Z * Z)) :=
  FsRtlLookupLastLargeMcbEntryAndIndex_internal Mcb.

Definition FsRtlLookupLastBaseMcbEntry (Mcb : Z) : M (option (Z * Z)) :=
  r ← FsRtlLookupLastLargeMcbEntryAndIndex_internal Mcb;
  ret (match r with Some (Vbn, Lbn, _) => Some (Vbn, Lbn) | None => None end).

Definition count_round (Mcb : Z) (s : Z * Z) : M (Z * Z + Z) :=
  r ← FsRtlGetNextBaseMcbEntry Mcb (u32 s.1);
  match r with
  | None => ret (inr s.2)
  | Some _ => ret (inl (s32 (s.1 + 1), u32 (s.2 + 1)))
  end.

Definition FsRtlNumberOfRunsInBaseMcb (Mcb : Z) : M Z := while (count_round Mcb) (0, 0).

(** ** Removal *)

(** The frame of [FsRtlRemoveBaseMcbEntry]: the runs [NeedleRun], [TailRun] and [HeadRun],
    and the variable [NewElement]. *)
Definition pNeedleRun (sp : Z) : Z := sp.
Definition pTailRun (sp : Z) : Z := sp + 24.
Definition pHeadRun (sp : Z) : Z := sp + 48.
Definition pNewElement (sp : Z) : Z := sp + 72.

Definition store_run (p Start End_ First : Z) : M unit :=
  store64 (pRunStartVbn p) Start;;
  store64 (pRunEndVbn p) End_;;
  store64 (pStartingLbn p) First.

Definition add_pairs (Mcb d : Z) : M unit :=
  n ← load (PairCount Mcb);
  store (PairCount Mcb) (u32 (n + d)).

(** The insertion of the run at [p] by the order of the runs, with the order of
    intersections before and after. *)
Definition insert_piece (Mcb Map p sp : Z) : M unit :=
  store (CompareRoutine Map) pMcbMappingCompare;;
  Insert Map p run_size (pNewElement sp);;
  add_pairs Mcb 1;;
  ASSERT (NewElement ← load (pNewElement sp); ret (negb (NewElement =? 0)));;
  store (CompareRoutine Map) pMcbMappingIntersectCompare.

(** The run begins before the needle: its end goes, and its tail is inserted again if the
    needle was inside. *)
Definition truncate_run (Mcb Map HaystackRun sp NeedleStart NeedleEnd : Z) : M unit :=
  HaystackRunEnd ← load64 (pRunEndVbn HaystackRun);
  ASSERT (End_ ← load64 (pRunEndVbn HaystackRun); ret (NeedleStart <? End_));;
  store64 (pRunEndVbn HaystackRun) NeedleStart;;
  if NeedleEnd <? HaystackRunEnd then
    First ← load64 (pStartingLbn HaystackRun);
    Start ← load64 (pRunStartVbn HaystackRun);
    store_run (pTailRun sp) NeedleEnd HaystackRunEnd (s64 (First + s64 (NeedleEnd - Start)));;
    insert_piece Mcb Map (pTailRun sp) sp
  else ret tt.

(** The run begins in the needle and ends behind it: its head goes. *)
Definition behead_run (Mcb Map HaystackRun sp NeedleStart NeedleEnd : Z) : M unit :=
  HaystackRunStart ← load64 (pRunStartVbn HaystackRun);
  HaystackStartingLbn ← load64 (pStartingLbn HaystackRun);
  ASSERT (Start ← load64 (pRunStartVbn HaystackRun); ret (Start <? NeedleEnd));;
  store64 (pRunStartVbn HaystackRun) NeedleEnd;;
  store64 (pStartingLbn HaystackRun)
    (s64 (HaystackStartingLbn + s64 (NeedleEnd - HaystackRunStart)));;
  if HaystackRunStart <? NeedleStart then
    store_run (pHeadRun sp) HaystackRunStart NeedleStart HaystackStartingLbn;;
    insert_piece Mcb Map (pHeadRun sp) sp
  else ret tt.

Definition delete_run (Mcb Map HaystackRun : Z) : M unit :=
  store (CompareRoutine Map) pMcbMappingCompare;;
  Delete Map HaystackRun;;
  add_pairs Mcb (-1);;
  store (CompareRoutine Map) pMcbMappingIntersectCompare.

Definition remove_round (Mcb Map sp NeedleStart NeedleEnd : Z) (_ : unit) : M (unit + unit) :=
  HaystackRun ← Lookup Map (pNeedleRun sp);
  if HaystackRun =? NULL then ret (inr tt)
  else
    Start ← load64 (pRunStartVbn HaystackRun);
    End_ ← load64 (pRunEndVbn HaystackRun);
    (if Start <? NeedleStart then truncate_run Mcb Map HaystackRun sp NeedleStart NeedleEnd
     else if NeedleEnd <? End_ then behead_run Mcb Map HaystackRun sp NeedleStart NeedleEnd
     else delete_run Mcb Map HaystackRun);;
    ret (inl tt).

Definition FsRtlRemoveBaseMcbEntry (sp Mcb Vbn SectorCount : Z) : M bool :=
  if (Vbn <? 0) || (SectorCount <=? 0) then ret false
  else if s64 (Vbn + SectorCount) <=? Vbn then ret false
  else
    store_run (pNeedleRun sp) Vbn (s64 (Vbn + SectorCount)) (-1);;
    Map ← load (Mapping Mcb);
    store (CompareRoutine Map) pMcbMappingIntersectCompare;;
    while (remove_round Mcb Map sp Vbn (s64 (Vbn + SectorCount))) tt;;
    store (CompareRoutine Map) pMcbMappingCompare;;
    ret true.

Definition FsRtlTruncateBaseMcb (sp Mcb Vbn : Z) : M unit :=
  FsRtlRemoveBaseMcbEntry sp Mcb Vbn (s64 (s64 (MAXLONG - Vbn) + 1));;
  ret tt.

(** ** Addition *)

(** The frame of [FsRtlAddBaseMcbEntry]: the runs [Node] and [NeedleRun], the variable
    [NewElement], and the frame of the functions it calls. *)
Definition pNode (sp : Z) : Z := sp.
Definition pAddNeedleRun (sp : Z) : Z := sp + 24.
Definition pAddNewElement (sp : Z) : Z := sp + 48.
Definition callee_frame (sp : Z) : Z := sp + 56.

(** The run below is joined to [Node] when its logical blocks end where those of [Node]
    start. *)
Definition merge_lower (Mcb Map sp : Z) : M unit :=
  NodeStart ← load64 (pRunStartVbn (pNode sp));
  store_run (pAddNeedleRun sp) (s64 (NodeStart - 1)) (s64 (s64 (NodeStart - 1) + 1)) (-1);;
  store (CompareRoutine Map) pMcbMappingIntersectCompare;;
  LowerRun ← Lookup Map (pAddNeedleRun sp);
  if LowerRun =? NULL then ret tt
  else
    First ← load64 (pStartingLbn LowerRun);
    End_ ← load64 (pRunEndVbn LowerRun);
    Start ← load64 (pRunStartVbn LowerRun);
    NodeFirst ← load64 (pStartingLbn (pNode sp));
    if s64 (First + s64 (End_ - Start)) =? NodeFirst then
      ASSERT (LowerEnd ← load64 (pRunEndVbn LowerRun);
              NodeStart ← load64 (pRunStartVbn (pNode sp));
              ret (LowerEnd =? NodeStart));;
      store64 (pRunStartVbn (pNode sp)) Start;;
      store64 (pStartingLbn (pNode sp)) First;;
      store (CompareRoutine Map) pMcbMappingCompare;;
      Delete Map LowerRun;;
      add_pairs Mcb (-1)
    else ret tt.

(** The run above is joined to [Node] when its first logical block is not below that of
    [Node]. *)
Definition merge_higher (Mcb Map sp : Z) : M unit :=
  NodeEnd ← load64 (pRunEndVbn (pNode sp));
  store64 (pRunStartVbn (pAddNeedleRun sp)) NodeEnd;;
  store64 (pRunEndVbn (pAddNeedleRun sp)) (s64 (NodeEnd + 1));;
  store (CompareRoutine Map) pMcbMappingIntersectCompare;;
  HigherRun ← Lookup Map (pAddNeedleRun sp);
  if HigherRun =? NULL then ret tt
  else
    NodeFirst ← load64 (pStartingLbn (pNode sp));
    First ← load64 (pStartingLbn HigherRun);
    if NodeFirst <=? First then
      ASSERT (HigherStart ← load64 (pRunStartVbn HigherRun);
              NodeEnd ← load64 (pRunEndVbn (pNode sp));
              ret (HigherStart =? NodeEnd));;
      End_ ← load64 (pRunEndVbn HigherRun);
      store64 (pRunEndVbn (pNode sp)) End_;;
      store (CompareRoutine Map) pMcbMappingCompare;;
      Delete Map HigherRun;;
      add_pairs Mcb (-1)
    else ret tt.

(** The addition after the tests: the range is emptied, and the new run is joined to its
    neighbours and inserted. *)
Definition add_node (sp Mcb Vbn Lbn SectorCount : Z) : M bool :=
  FsRtlRemoveBaseMcbEntry (callee_frame sp) Mcb Vbn SectorCount;;
  store_run (pNode sp) Vbn (s64 (Vbn + SectorCount)) Lbn;;
  Map ← load (Mapping Mcb);
  merge_lower Mcb Map sp;;
  merge_higher Mcb Map sp;;
  store (CompareRoutine Map) pMcbMappingCompare;;
  Insert Map (pNode sp) run_size (pAddNewElement sp);;
  add_pairs Mcb 1;;
  ASSERT (NewElement ← load (pAddNewElement sp); ret (negb (NewElement =? 0)));;
  ret true.

Definition FsRtlAddBaseMcbEntry (sp Mcb Vbn NewLbn SectorCount : Z) : M bool :=
  if Vbn <? 0 then ret false
  else if SectorCount <=? 0 then ret false
  else
    r ← FsRtlLookupBaseMcbEntry Mcb Vbn;
    match r with
    | Some o =>
        if negb (Lbn o =? -1) && negb (Lbn o =? NewLbn) then ret false
        else if negb (Lbn o =? -1) && (SectorCount <=? SectorCountFromLbn o) then ret true
        else add_node sp Mcb Vbn NewLbn SectorCount
    | None => add_node sp Mcb Vbn NewLbn SectorCount
    end.

(** ** Reset and split *)

Definition reset_round (Map : Z) (_ : unit) : M (unit + unit) :=
  n ← RtlNumberGenericTableElements Map;
  if n =? 0 then ret (inr tt)
  else
    Element ← RtlGetElementGenericTable Map 0;
    if Element =? NULL then ret (inr tt)
    else Delete Map Element;; ret (inl tt).

Definition FsRtlResetBaseMcb (Mcb : Z) : M unit :=
  Map ← load (Mapping Mcb);
  while (reset_round Map) tt;;
  store (PairCount Mcb) 0;;
  store (MaximumPairCount Mcb) 0.

(** [InsertLowerRun] stays NULL, so that the insertion behind the loop is not reached, and
    [ExistingRun] stays NULL as well. *)
Definition split_round (Table Vbn Amount : Z) (Run : Z) : M (Z + unit) :=
  if Run =? NULL then ret (inr tt)
  else
    End_ ← load64 (pRunEndVbn Run);
    (if End_ <=? Vbn then ret tt
     else
       store64 (pRunStartVbn Run) Vbn;;
       Start ← load64 (pRunStartVbn Run);
       store64 (pRunStartVbn Run) (s64 (Start + Amount));;
       ASSERT (End_ ← load64 (pRunEndVbn Run); ret (End_ <? s64 (End_ + Amount)));;
       store64 (pRunEndVbn Run) (s64 (End_ + Amount)));;
    Next ← RtlEnumerateGenericTable Table false;
    ret (inl Next).

Definition FsRtlSplitBaseMcb (Mcb Vbn Amount : Z) : M bool :=
  Map ← load (Mapping Mcb);
  Run ← RtlEnumerateGenericTable Map true;
  while (split_round Map Vbn Amount) Run;;
  ASSERT (ret (NULL =? NULL));;
  ret true.

Definition FsRtlUninitializeBaseMcb (Mcb : Z) : M unit :=
  FsRtlResetBaseMcb Mcb;;
  Type_ ← load (PoolType Mcb);
  Map ← load (Mapping Mcb);
  if Type_ =? PagedPool then ExFreeToPagedLookasideList ex Map
  else ExFreePoolWithTag ex Map TAG_CBSF.
End code.
