(* ===== verification/McbTable.v ===== *)
(** * The table of a mapping control block

    What the routines of largemcb.c do for the table, and the operations of the generic table
    on runs: both compare routines satisfy the contract of the tables, the lookup by
    intersection finds a run that intersects the needle, and a run can be changed, inserted
    and deleted through its pointer. *)

From Stdlib Require Import ZArith Lia.
From S2P Require Import Prelude.
From stdpp Require Import gmap.
From iris.proofmode Require Import proofmode.
From S2P Require Import Bytes HeapLogic LinkTree ListEntry TableCommon.
From S2P Require Import GenericTable GenericTableWalk GenericTableShare McbRuns Heap64 FsRtlMcb.

#[local] Open Scope Z_scope.

(** ** Runs in memory *)

Definition run_at (p : Z) (r : run) : hprop := (⌜fields64 r⌝ ∗ bytes_at p (run_bytes r))%I.

Lemma run_at_fields p r :
  run_at p r ⊣⊢ i64_at (pRunStartVbn p) (RunStartVbn r) ∗ i64_at (pRunEndVbn p) (RunEndVbn r) ∗
    i64_at (pStartingLbn p) (StartingLbn r).
Proof.
  rw /run_at /run_bytes !bytes_at_app !length_le !i64_at_bytes /pRunStartVbn /pRunEndVbn /pStartingLbn.
  rw -Z.add_assoc. iSplit.
  - iIntros "[(%H1 & %H2 & %H3) ($ & $ & $)]". done.
  - iIntros "([%H1 $] & [%H2 $] & %H3 & $)". done.
Qed.

Lemma run_at_open p r : run_at p r ⊢ ⌜fields64 r⌝ ∗ bytes_at p (run_bytes r).
Proof. iIntros "[$ $]". Qed.

Lemma run_at_close p r :
  i64_at (pRunStartVbn p) (RunStartVbn r) -∗ i64_at (pRunEndVbn p) (RunEndVbn r) -∗
  i64_at (pStartingLbn p) (StartingLbn r) -∗ run_at p r.
Proof. rw run_at_fields. iIntros "H1 H2 H3". iSplitL "H1"; [done|]. iSplitL "H2"; done. Qed.

Lemma run_at_bytes p r : fields64 r -> bytes_at p (run_bytes r) ⊣⊢ run_at p r.
Proof. intros Hr. rw /run_at (bi.pure_True (fields64 r) Hr) left_id. reflexivity. Qed.

(** Memory for a run. *)
Definition free_run (p : Z) : hprop :=
  (free64 (pRunStartVbn p) ∗ free64 (pRunEndVbn p) ∗ free64 (pStartingLbn p))%I.

Lemma free_run_bytes p : bytes_at p (replicate 24 0) ⊢ free_run p.
Proof.
  change (replicate 24 0) with (replicate 8 0 ++ replicate 8 0 ++ replicate 8 0).
  rw !bytes_at_app !(bytes_free64 _ (replicate 8 0)) // -Z.add_assoc. done.
Qed.

(** Proofs do not look into the bytes from here on. *)
#[global] Opaque run_bytes run_at pRunStartVbn pRunEndVbn pStartingLbn.

Lemma run_at_free p r : run_at p r ⊢ free_run p.
Proof. rw run_at_fields !i64_free. done. Qed.

Lemma store_run_spec p s e l Φ :
  fields64 (MkRun s e l) -> free_run p -∗ (run_at p (MkRun s e l) -∗ Φ tt) -∗
  wp (store_run p s e l) Φ.
Proof.
  iIntros ((Hs & He & Hl)) "(H1 & H2 & H3) HΦ". unfold store_run.
  wp_call. iApply (free64_store with "H1"); [done|]. iIntros "H1".
  wp_call. iApply (free64_store with "H2"); [done|]. iIntros "H2".
  iApply (free64_store with "H3"); [done|]. iIntros "H3".
  iApply "HΦ". iApply (run_at_close p (MkRun s e l) with "H1 H2 H3").
Qed.

(** ** Assertions *)

Section assertions.
Context (dbg : bool).

Lemma assert_spec (P : hprop) c Φ :
  (dbg = true -> P ⊢ wp c (fun b => ⌜b = true⌝ ∗ P)) ->
  P -∗ (P -∗ Φ tt) -∗ wp (ASSERT dbg c) Φ.
Proof.
  iIntros (Hc) "HP HΦ". unfold ASSERT. destruct dbg; [|wp_ret; by iApply "HΦ"].
  wp_call. iApply (wp_wand with "[HP]"); [by iApply Hc|]. iIntros (b) "[-> HP]". wp_ret. by iApply "HΦ".
Qed.

Lemma assert_load p v (f : Z -> bool) Φ :
  (dbg = true -> f v = true) ->
  p ↦ v -∗ (p ↦ v -∗ Φ tt) -∗ wp (ASSERT dbg (x ← load p; ret (f x))) Φ.
Proof. iIntros (Hf). iApply assert_spec. iIntros (?) "H". wp_load. wp_ret. iFrame. by rw Hf. Qed.

Lemma assert_load64 p v (f : Z -> bool) Φ :
  (dbg = true -> f v = true) ->
  i64_at p v -∗ (i64_at p v -∗ Φ tt) -∗ wp (ASSERT dbg (x ← load64 p; ret (f x))) Φ.
Proof. iIntros (Hf). iApply assert_spec. iIntros (?) "H". wp_load64. wp_ret. iFrame. by rw Hf. Qed.

Lemma assert_loads64 p q v w (f : Z -> Z -> bool) Φ :
  (dbg = true -> f v w = true) ->
  i64_at p v -∗ i64_at q w -∗ (i64_at p v -∗ i64_at q w -∗ Φ tt) -∗
  wp (ASSERT dbg (x ← load64 p; y ← load64 q; ret (f x y))) Φ.
Proof.
  iIntros (Hf) "Hp Hq HΦ". iApply (assert_spec (i64_at p v ∗ i64_at q w)%I with "[$Hp $Hq]").
  - iIntros (?) "[Hp Hq]". wp_load64. wp_load64. wp_ret. iFrame. by rw Hf.
  - iIntros "[Hp Hq]". iApply ("HΦ" with "Hp Hq").
Qed.
End assertions.

(** ** The routines *)

Definition is_run (bs : list Z) : Prop := exists r, fields64 r /\ bs = run_bytes r.

(** The contract of the table of the control block [Mcb], for one of the two orders. *)
Definition mcb_contract (f : Z) (order : run -> run -> comparison) (Mcb pt : Z) : contract := {|
  fcompare := f;
  fallocate := pMcbMappingAllocate;
  ffree := pMcbMappingFree;
  accepted := is_run;
  cmp a b := order (run_of a) (run_of b);
  context Table := (TableContext Table ↦ Mcb ∗ PoolType Mcb ↦ pt)%I;
|}.

Definition map_contract : Z -> Z -> contract := mcb_contract pMcbMappingCompare mapping_order.
Definition intersect_contract : Z -> Z -> contract :=
  mcb_contract pMcbMappingIntersectCompare intersect_order.

(** The reply to the request [j] with [m] blocks in use: memory that [own] describes if it is
    granted, else [none]. *)
Definition reply {A} (mm : manager) (j : nat) (m : Z) (own : A -> hprop) (none r : A) : hprop :=
  (if grants mm j then own r ∗ supply mm (S j) (m + 1) else ⌜r = none⌝ ∗ supply mm (S j) m)%I.

(** The memory behind the result of an allocation that may raise. *)
Definition some_memory (own : Z -> hprop) (r : option Z) : hprop := (∃ p, ⌜r = Some p⌝ ∗ own p)%I.

(** What the control block relies on of the pool and its manager: the allocation of an entry
    returns NULL or memory for it, a mapping has the memory of a table, and all memory can be
    freed. *)
Class PoolRoutines (ex : pool) (mm : manager) : Prop := {
  pool_allocate_spec pt n tag j m Φ :
    supply mm j m -∗ (∀ p, reply mm j m (fun p => entry_block p n) NULL p -∗ Φ p) -∗
    wp (ExAllocatePoolWithTag ex pt (Z.of_nat n + HeaderSize) tag) Φ;
  pool_free_spec p n tag j m Φ :
    entry_block p n -∗ supply mm j m -∗ (supply mm j (m - 1) -∗ Φ tt) -∗
    wp (ExFreePoolWithTag ex p tag) Φ;
  mapping_paged_spec j m Φ :
    supply mm j m -∗ (∀ r, reply mm j m (some_memory table_memory) None r -∗ Φ r) -∗
    wp (ExAllocateFromPagedLookasideList ex) Φ;
  mapping_pool_spec pt tag j m Φ :
    supply mm j m -∗ (∀ r, reply mm j m (some_memory table_memory) None r -∗ Φ r) -∗
    wp (AllocatePoolOrRaise ex pt mapping_size tag) Φ;
  mapping_paged_free_spec p j m Φ :
    table_memory p -∗ supply mm j m -∗ (supply mm j (m - 1) -∗ Φ tt) -∗
    wp (ExFreeToPagedLookasideList ex p) Φ;
  mapping_pool_free_spec p tag j m Φ :
    table_memory p -∗ supply mm j m -∗ (supply mm j (m - 1) -∗ Φ tt) -∗
    wp (ExFreePoolWithTag ex p tag) Φ;
}.

(** The comparisons of the code return the codes of the orders. *)
Lemma mapping_code a b :
  (if (RunStartVbn a =? RunStartVbn b) && (RunEndVbn a =? RunEndVbn b) then GenericEqual
   else if RunEndVbn a <=? RunStartVbn b then GenericLessThan
   else if RunStartVbn b <=? RunEndVbn a then GenericGreaterThan
   else GenericEqual) = compare_code (mapping_order a b).
Proof. unfold mapping_order. case_cmp. Qed.

Lemma intersect_code a b :
  (if (RunStartVbn a <=? RunStartVbn b) && (RunStartVbn b <? RunEndVbn a) then GenericEqual
   else if (RunStartVbn b <=? RunStartVbn a) && (RunStartVbn a <? RunEndVbn b) then GenericEqual
   else if RunStartVbn a <? RunStartVbn b then GenericLessThan
   else if RunStartVbn b <? RunStartVbn a then GenericGreaterThan
   else GenericEqual) = compare_code (intersect_order a b).
Proof. unfold intersect_order. case_cmp. Qed.

Section routines.
Context (ex : pool) (mm : manager) `{!PoolRoutines ex mm} (Mcb pt : Z).

Lemma map_compare_spec Table a b k x Φ :
  run_at a k -∗ run_at b x -∗
  (run_at a k -∗ run_at b x -∗ Φ (compare_code (mapping_order k x))) -∗
  wp (McbMappingCompare Table a b) Φ.
Proof.
  iIntros "Ha Hb HΦ". iDestruct (run_at_fields with "Ha") as "(A1 & A2 & A3)". iDestruct (run_at_fields with "Hb") as "(B1 & B2 & B3)". unfold McbMappingCompare.
  do 4 wp_load64. rw mapping_code. wp_ret.
  iApply ("HΦ" with "[A1 A2 A3] [B1 B2 B3]").
  - iApply (run_at_close with "A1 A2 A3").
  - iApply (run_at_close with "B1 B2 B3").
Qed.

Lemma map_compare_same_spec Table a k Φ :
  run_at a k -∗ (run_at a k -∗ Φ (compare_code (mapping_order k k))) -∗
  wp (McbMappingCompare Table a a) Φ.
Proof.
  iIntros "Ha HΦ". iDestruct (run_at_fields with "Ha") as "(A1 & A2 & A3)". unfold McbMappingCompare.
  do 4 wp_load64. rw mapping_code. wp_ret.
  iApply "HΦ". iApply (run_at_close with "A1 A2 A3").
Qed.

Lemma intersect_compare_spec Table a b k x Φ :
  run_at a k -∗ run_at b x -∗
  (run_at a k -∗ run_at b x -∗ Φ (compare_code (intersect_order k x))) -∗
  wp (McbMappingIntersectCompare Table a b) Φ.
Proof.
  iIntros "Ha Hb HΦ". iDestruct (run_at_fields with "Ha") as "(A1 & A2 & A3)". iDestruct (run_at_fields with "Hb") as "(B1 & B2 & B3)". unfold McbMappingIntersectCompare.
  do 4 wp_load64. rw intersect_code. wp_ret.
  iApply ("HΦ" with "[A1 A2 A3] [B1 B2 B3]").
  - iApply (run_at_close with "A1 A2 A3").
  - iApply (run_at_close with "B1 B2 B3").
Qed.

Lemma intersect_compare_same_spec Table a k Φ :
  run_at a k -∗ (run_at a k -∗ Φ (compare_code (intersect_order k k))) -∗
  wp (McbMappingIntersectCompare Table a a) Φ.
Proof.
  iIntros "Ha HΦ". iDestruct (run_at_fields with "Ha") as "(A1 & A2 & A3)". unfold McbMappingIntersectCompare.
  do 4 wp_load64. rw intersect_code. wp_ret.
  iApply "HΦ". iApply (run_at_close with "A1 A2 A3").
Qed.

Lemma mcb_allocate_spec Table n j m Φ :
  TableContext Table ↦ Mcb ∗ PoolType Mcb ↦ pt -∗ supply mm j m -∗
  (∀ p, TableContext Table ↦ Mcb ∗ PoolType Mcb ↦ pt -∗
     reply mm j m (fun p => entry_block p n) NULL p -∗ Φ p) -∗
  wp (McbMappingAllocate ex Table (Z.of_nat n + HeaderSize)) Φ.
Proof.
  iIntros "[HT HP] Hs HΦ". unfold McbMappingAllocate. wp_run. iApply (pool_allocate_spec with "Hs").
  iIntros (p) "Hp". iApply ("HΦ" with "[$HT $HP] Hp").
Qed.

#[export] Instance map_routines :
  TableRoutines entry_block HeaderSize (mcb_callbacks ex) (map_contract Mcb pt) mm.
Proof.
  split; simpl.
  - iIntros (T a b k x Φ (r1 & Hr1 & ->) (r2 & Hr2 & ->)). rw !run_of_bytes // !run_at_bytes //.
    apply map_compare_spec.
  - iIntros (T a k Φ (r1 & Hr1 & ->)). rw !run_of_bytes // !run_at_bytes //.
    apply map_compare_same_spec.
  - intros. apply mcb_allocate_spec.
  - iIntros (T p n Φ). apply pool_free_spec.
Qed.

#[export] Instance intersect_routines :
  TableRoutines entry_block HeaderSize (mcb_callbacks ex) (intersect_contract Mcb pt) mm.
Proof.
  split; simpl.
  - iIntros (T a b k x Φ (r1 & Hr1 & ->) (r2 & Hr2 & ->)). rw !run_of_bytes // !run_at_bytes //.
    apply intersect_compare_spec.
  - iIntros (T a k Φ (r1 & Hr1 & ->)). rw !run_of_bytes // !run_at_bytes //.
    apply intersect_compare_same_spec.
  - intros. apply mcb_allocate_spec.
  - iIntros (T p n Φ). apply pool_free_spec.
Qed.
End routines.

(** ** Operations on runs *)

Definition encode (y : Z * run) : Z * list Z := (y.1, run_bytes y.2).

(** A table of runs, each with the address of its entry, for one of the two orders. *)
Definition runs_at (ct : contract) (Map : Z) (xs : list (Z * run)) : hprop :=
  (∃ ins, generic_table ct Map (encode <$> xs) ins true)%I.

Lemma encode_split xs ys1 p b ys2 :
  encode <$> xs = ys1 ++ (p, b) :: ys2 ->
  exists xs1 r xs2, xs = xs1 ++ (p, r) :: xs2 /\ b = run_bytes r /\
    ys1 = encode <$> xs1 /\ ys2 = encode <$> xs2.
Proof.
  intros (xs1 & xs' & -> & H & ->)%fmap_app_inv. destruct xs' as [|[q r] xs2]; [done|].
  injection H as -> -> ->. by exists xs1, r, xs2.
Qed.

Lemma encode_app xs1 xs2 : encode <$> xs1 ++ xs2 = (encode <$> xs1) ++ (encode <$> xs2).
Proof. apply fmap_app. Qed.

(** The runs of a table, one of them apart. *)
Lemma table_runs_middle (xs1 : list (Z * run)) p r xs2 :
  (xs1 ++ (p, r) :: xs2).*2 = xs1.*2 ++ r :: xs2.*2.
Proof. by rw fmap_app fmap_cons. Qed.

Lemma stocked_encode mm j l xs : stocked mm j l (encode <$> xs) ⊣⊢ stocked mm j l xs.
Proof. apply stocked_length, length_fmap. Qed.

Section operations.
Context (ex : pool) (mm : manager) `{!PoolRoutines ex mm} (Mcb pt uninit : Z).
Implicit Types (xs : list (Z * run)).

Abbreviation MC := (map_contract Mcb pt).
Abbreviation IC := (intersect_contract Mcb pt).

Lemma runs_fields rs : runs_ok rs -> Forall fields64 rs.
Proof. intros [H _]. eapply Forall_impl; [done|]. apply run_ok_fields. Qed.

Lemma encode_order (P : run -> Prop) xs :
  Forall fields64 xs.*2 -> Forall P xs.*2 <-> Forall (fun y => P (run_of y.2)) (encode <$> xs).
Proof.
  rw !Forall_fmap. induction 1 as [|[p r] xs Hr _ IH]; [by rw !Forall_nil|].
  rw !Forall_cons IH /= run_of_bytes //.
Qed.

(** In either order, the runs are in the order that a search needs. *)
Lemma intersect_ordered n xs :
  fields64 n -> RunStartVbn n < RunEndVbn n -> runs_ok xs.*2 ->
  ordered (cmp IC (run_bytes n)) (encode <$> xs).
Proof.
  intros Hn Hlt Hok ys1 p b ys2 (xs1 & r & xs2 & -> & -> & -> & ->)%encode_split.
  rw table_runs_middle in Hok. pose proof (runs_fields _ Hok) as [H1 [H2 H3]%Forall_cons]%Forall_app.
  apply runs_ok_middle in Hok as ([Hok _] & Hr & Hb & Ha). apply Forall_app in Hok as [Hok1 Hok2].
  pose proof (intersect_order_spec n r Hlt ltac:(apply Hr)) as Ho.
  rw /all_less /all_greater /= !run_of_bytes //. split; intros E; rw E in Ho.
  - apply (encode_order (fun r => intersect_order n r = Lt)); [done|].
    eapply Forall_impl; [apply Forall_and; split; [exact Hok2|exact Ha]|].
    intros a [Ha1 Ha2].
    clear - Ho Ha1 Ha2 Hr Hlt. blocks.
  - apply (encode_order (fun r => intersect_order n r = Gt)); [done|].
    eapply Forall_impl; [apply Forall_and; split; [exact Hok1|exact Hb]|].
    intros a [Ha1 Ha2].
    clear - Ho Ha1 Ha2 Hr Hlt. blocks.
Qed.

Lemma map_ordered n xs :
  fields64 n -> runs_ok xs.*2 -> ordered (cmp MC (run_bytes n)) (encode <$> xs).
Proof.
  intros Hn Hok ys1 p b ys2 (xs1 & r & xs2 & -> & -> & -> & ->)%encode_split.
  rw table_runs_middle in Hok. pose proof (runs_fields _ Hok) as [H1 [H2 H3]%Forall_cons]%Forall_app.
  apply runs_ok_middle in Hok as ([Hok _] & Hr & Hb & Ha). apply Forall_app in Hok as [Hok1 Hok2].
  pose proof (mapping_order_spec n r) as Ho.
  rw /all_less /all_greater /= !run_of_bytes //. split; intros E; rw E in Ho.
  - apply (encode_order (fun r => mapping_order n r = Lt)); [done|].
    eapply Forall_impl; [apply Forall_and; split; [exact Hok2|exact Ha]|].
    intros a [Ha1 Ha2]. clear - Ho Ha1 Ha2 Hr. blocks.
  - apply (encode_order (fun r => mapping_order n r = Gt)); [done|].
    eapply Forall_impl; [apply Forall_and; split; [exact Hok1|exact Hb]|].
    intros a [Ha1 Ha2]. clear - Ho Ha1 Ha2 Hr. blocks.
Qed.

(** What the lookup by intersection returns: the data of a run that intersects the needle,
    or NULL when there is none. *)
Definition lookup_outcome (n : run) xs (q : Z) : Prop :=
  q = NULL /\ Forall (fun r => intersects n r = false) xs.*2 \/
  exists xs1 p h xs2, xs = xs1 ++ (p, h) :: xs2 /\ intersects n h = true /\ 0 < p /\ q = UserData p.

Lemma lookup_run_spec Map b n xs Φ :
  runs_ok xs.*2 -> RunStartVbn n < RunEndVbn n ->
  runs_at IC Map xs -∗ run_at b n -∗
  (∀ q, ⌜lookup_outcome n xs q⌝ -∗ runs_at IC Map xs -∗ run_at b n -∗ Φ q) -∗
  wp (RtlLookupElementGenericTable (mcb_callbacks ex) uninit Map b) Φ.
Proof.
  iIntros (Hok Hlt) "[%ins Ht] Hb HΦ". iDestruct (run_at_open with "Hb") as "[%Hn Hb]".
  iDestruct (table_positive with "Ht") as %Hpos.
  iApply (lookup_element_spec (mcb_callbacks ex) IC mm with "Ht Hb");
    [by apply intersect_ordered|by exists n|].
  iIntros (q Hq) "Ht Hb". 
  iDestruct (run_at_bytes with "Hb") as "Hb"; [done|].
  iApply ("HΦ" with "[%] [Ht] Hb"); [|by iExists ins].
  destruct Hq as [(ys1 & p & bs & ys2 & E & Hc & ->)|[-> Hne]].
  - right. apply encode_split in E as (xs1 & h & xs2 & -> & -> & _ & _).
    rw table_runs_middle in Hok. apply runs_ok_middle in Hok as (_ & Hh & _).
    rw /= !run_of_bytes // in Hc; [|by apply run_ok_fields].
    exists xs1, p, h, xs2. split_and!; try done; [by rw /intersects Hc|].
    rw encode_app Forall_app fmap_cons Forall_cons in Hpos. apply Hpos.
  - left. split; [done|]. apply (encode_order (fun r => intersects n r = false)); [by apply runs_fields|].
    eapply Forall_impl; [exact Hne|]. intros y Hy. simpl in Hy. rw run_of_bytes // in Hy.
    rw /intersects. by destruct (intersect_order n (run_of y.2)).
Qed.

(** The deletion of a run through its pointer. *)
Lemma delete_element_at_spec Map xs1 p h xs2 ins s j l Φ :
  runs_ok (xs1 ++ (p, h) :: xs2).*2 ->
  generic_table MC Map (encode <$> xs1 ++ (p, h) :: xs2) ins s -∗
  stocked mm j l (xs1 ++ (p, h) :: xs2) -∗
  (runs_at MC Map (xs1 ++ xs2) -∗ stocked mm j l (xs1 ++ xs2) -∗ Φ true) -∗
  wp (RtlDeleteElementGenericTable (mcb_callbacks ex) uninit Map (UserData p)) Φ.
Proof.
  iIntros (Hok) "Ht Hst HΦ". iDestruct (stocked_encode with "Hst") as "Hst". pose proof (runs_fields _ Hok) as H64.
  rw table_runs_middle in H64. apply Forall_app in H64 as [H1 [Hh H2]%Forall_cons].
  pose proof Hok as Hok'. rw table_runs_middle in Hok'.
  apply runs_ok_middle in Hok' as ([Hok' _] & Hr & Hb & Ha). apply Forall_app in Hok' as [Hok1 Hok2].
  rw encode_app fmap_cons.
  iApply (delete_self_spec (mcb_callbacks ex) MC mm Map (encode <$> xs1) p (run_bytes h) (encode <$> xs2)
    with "Ht Hst").
  - rw -(encode_app xs1 ((p, h) :: xs2)). by apply map_ordered.
  - rw /none_equal -encode_app /= run_of_bytes //.
    apply (encode_order (fun r => mapping_order h r <> Eq)); [by rw fmap_app Forall_app|].
    rw fmap_app Forall_app. split.
    + eapply Forall_impl; [apply Forall_and; split; [exact Hok1|exact Hb]|].
      intros a [Ha1 Ha2]. clear - Ha1 Ha2 Hr. blocks.
    + eapply Forall_impl; [apply Forall_and; split; [exact Hok2|exact Ha]|].
      intros a [Ha1 Ha2]. clear - Ha1 Ha2 Hr. blocks.
  - apply mapping_order_self.
  - iIntros (ins') "Ht Hst". rw -encode_app stocked_encode.
    iApply ("HΦ" with "[Ht] Hst"). by iExists ins'.
Qed.

Lemma delete_run_at_spec Map xs1 p h xs2 j l Φ :
  runs_ok (xs1 ++ (p, h) :: xs2).*2 ->
  runs_at MC Map (xs1 ++ (p, h) :: xs2) -∗ stocked mm j l (xs1 ++ (p, h) :: xs2) -∗
  (runs_at MC Map (xs1 ++ xs2) -∗ stocked mm j l (xs1 ++ xs2) -∗ Φ true) -∗
  wp (RtlDeleteElementGenericTable (mcb_callbacks ex) uninit Map (UserData p)) Φ.
Proof. iIntros (Hok) "[%ins Ht]". by iApply delete_element_at_spec. Qed.

(** A run that is changed in place. *)
Lemma change_run ct Map xs1 p h xs2 :
  (forall r, fields64 r -> accepted ct (run_bytes r)) -> fields64 h ->
  runs_at ct Map (xs1 ++ (p, h) :: xs2) ⊢
  run_at (UserData p) h ∗
    ∀ r, run_at (UserData p) r -∗ runs_at ct Map (xs1 ++ (p, r) :: xs2).
Proof.
  iIntros (Hacc Hh) "[%ins Ht]". rw encode_app fmap_cons.
  iDestruct (change_element with "Ht") as "[[%Hp Hx] Ht]".
  iDestruct (run_at_bytes with "Hx") as "$"; [done|].
  iIntros (r) "Hr". iDestruct (run_at_open with "Hr") as "[%H64 Hr]".
  iDestruct ("Ht" $! (run_bytes r) with "[%] [Hr]") as "Ht";
    [exact (Hacc r H64)|iSplit; [iPureIntro; exact Hp|iExact "Hr"]|].
  iExists ins. by rw encode_app fmap_cons.
Qed.

(** The runs [xs'] are those of [xs], with [k] in its place if there was memory for it. *)
Definition inserted (grant : bool) (k : run) xs xs' : Prop :=
  if grant then exists xs1 p xs2, xs = xs1 ++ xs2 /\ xs' = xs1 ++ (p, k) :: xs2 /\ runs_ok xs'.*2
  else xs' = xs.

Lemma inserted_length grant k xs xs' :
  inserted grant k xs xs' -> length xs' = (length xs + if grant then 1 else 0)%nat.
Proof.
  destruct grant; [intros (xs1 & p & xs2 & -> & -> & _); rw !length_app /=; lia|].
  intros ->. by rw Nat.add_0_r.
Qed.

Lemma apart_not_equal k r : run_ok k -> run_ok r -> apart k r -> mapping_order k r <> Eq.
Proof. intros Hk Hr [Ha|Ha]; clear - Hk Hr Ha; blocks. Qed.

Lemma inserted_ok grant k xs xs' : runs_ok xs.*2 -> inserted grant k xs xs' -> runs_ok xs'.*2.
Proof. intros Hok. destruct grant; [by intros (? & ? & ? & _ & _ & ?)|by intros ->]. Qed.

Lemma inserted_runs grant k xs xs' :
  inserted grant k xs xs' -> if grant then xs'.*2 ≡ₚ k :: xs.*2 else xs'.*2 = xs.*2.
Proof.
  destruct grant; [|by intros ->]. intros (xs1 & p & xs2 & -> & -> & _).
  by rw table_runs_middle fmap_app -Permutation_middle.
Qed.

(** The insertion of a run that is apart from the others makes one request. *)
Lemma insert_run_at_spec Map b New v k xs j l Φ :
  runs_ok xs.*2 -> run_ok k -> Forall (apart k) xs.*2 ->
  runs_at MC Map xs -∗ run_at b k -∗ opt_cell New v -∗ stocked mm j l xs -∗
  (∀ q xs', ⌜inserted (grants mm j) k xs xs'⌝ -∗ run_at b k -∗
     opt_cell New (if grants mm j then 1 else 0) -∗ runs_at MC Map xs' -∗ stocked mm (S j) l xs' -∗ Φ q) -∗
  wp (RtlInsertElementGenericTable (mcb_callbacks ex) uninit Map b run_size New) Φ.
Proof.
  iIntros (Hok Hk Ha) "[%ins Ht] Hb Hnew Hst HΦ". iDestruct (run_at_open with "Hb") as "[%H64 Hb]".
  iDestruct (stocked_encode with "Hst") as "Hst".
  replace run_size with (Z.of_nat (length (run_bytes k))) by by rw length_run_bytes.
  iApply (insert_element_spec (mcb_callbacks ex) MC mm with "Ht Hb Hnew Hst");
    [by apply map_ordered|by exists k|by rw length_run_bytes|].
  iIntros (q) "Hb Hres". iDestruct (run_at_bytes with "Hb") as "Hb"; [done|].
  iDestruct "Hres" as "[(%ys1 & %p & %x & %ys2 & (%E & %Hc & _) & _)|[((_ & _ & %Hg) & Ht & Hnew & Hst)|
    (%ys1 & %p & %ys2 & (%E & _ & %Hg & %HGt & %HLt) & Ht & Hnew & Hst)]]".
  - exfalso. apply encode_split in E as (xs1 & r & xs2 & -> & -> & _).
    rw table_runs_middle in Hok. rw table_runs_middle Forall_app Forall_cons in Ha.
    destruct Ha as (_ & Ha & _). apply runs_ok_middle in Hok as (_ & Hr & _).
    rw /= !run_of_bytes // in Hc; [|by apply run_ok_fields]. by apply (apart_not_equal k r).
  - rw Hg stocked_encode. iApply ("HΦ" with "[//] Hb Hnew [Ht] Hst"). by iExists ins.
  - rw Hg. apply fmap_app_inv in E as (xs1 & xs2 & -> & -> & ->).
    rw -(fmap_cons encode (p, k) xs2) -encode_app stocked_encode.
    iApply ("HΦ" with "[%] Hb Hnew [Ht] Hst"); [|by iExists _].
    exists xs1, p, xs2. split_and!; [done..|].
    + rw table_runs_middle. rw fmap_app in Hok. rw fmap_app in Ha.
      pose proof (runs_fields _ Hok) as [H1 H2]%Forall_app.
      apply runs_ok_insert; [done|done|done|..].
      * apply (encode_order (fun r => mapping_order k r = Gt)); [done|].
        eapply Forall_impl; [exact HGt|]. intros y Hy. by rw /= run_of_bytes // in Hy.
      * apply (encode_order (fun r => mapping_order k r = Lt)); [done|].
        eapply Forall_impl; [exact HLt|]. intros y Hy. by rw /= run_of_bytes // in Hy.
Qed.

(** The exchange of the compare routine. *)
Lemma set_compare_spec f o f' o' Map xs Φ :
  runs_at (mcb_contract f o Mcb pt) Map xs -∗
  (runs_at (mcb_contract f' o' Mcb pt) Map xs -∗ Φ tt) -∗
  wp (store (CompareRoutine Map) f') Φ.
Proof.
  iIntros "[%ins Ht] HΦ".
  iDestruct (exchange_compare _ (mcb_contract f' o' Mcb pt) with "Ht") as "[HC Ht]"; [done|].
  iApply (wp_store with "HC"). iIntros "HC". iApply "HΦ". iExists ins. by iApply "Ht".
Qed.
End operations.
