(* ===== verification/McbRemove.v ===== *)
(** * Mapping control blocks: removal

    [FsRtlRemoveBaseMcbEntry] looks up runs that intersect the range until there is none, and
    shortens or deletes each; it ends, and what it leaves are the runs without the range. *)

From Stdlib Require Import ZArith Lia.
From S2P Require Import Prelude.
From stdpp Require Import gmap.
From iris.proofmode Require Import proofmode.
From S2P Require Import HeapLogic LinkTree TableCommon GenericTable GenericTableWalk.
From S2P Require Import McbRuns Heap64 FsRtlMcb McbTable.

#[local] Open Scope Z_scope.

(** ** The control block *)

(** A control block whose table has the runs [rs]; [lost] insertions of runs failed. *)
Definition mcb_store (Mcb : Z) (rs : list run) (lost : Z) : hprop :=
  (∃ Map pt mx xs, ⌜xs.*2 = rs⌝ ∗
     Mapping Mcb ↦ Map ∗ MaximumPairCount Mcb ↦ mx ∗
     PairCount Mcb ↦ u32 (Z.of_nat (length rs) + lost) ∗
     runs_at (map_contract Mcb pt) Map xs)%I.

(** The runs are in order and apart. *)
Definition mcb (Mcb : Z) (rs : list run) (lost : Z) : hprop :=
  (⌜runs_ok rs⌝ ∗ mcb_store Mcb rs lost)%I.

(** A variable whose address is passed. *)
Definition variable (p : Z) : hprop := (⌜p <> NULL⌝ ∗ ∃ v, p ↦ v)%I.

Lemma variable_opt p : variable p ⊢ ∃ v, ⌜p <> NULL⌝ ∗ opt_cell p v.
Proof. iIntros "[%Hp [%v H]]". iExists v. iSplit; [done|]. iRight. by iFrame. Qed.

Lemma opt_variable p v : p <> NULL -> opt_cell p v ⊢ p ↦ v.
Proof. iIntros (Hp) "[%H|[_ $]]". done. Qed.

(** The frame of the removal, beside the needle. *)
Definition piece_frame (sp : Z) : hprop :=
  (free_run (pTailRun sp) ∗ free_run (pHeadRun sp) ∗ variable (pNewElement sp))%I.

Definition remove_frame (sp : Z) : hprop := (free_run (pNeedleRun sp) ∗ piece_frame sp)%I.

Lemma u32_add_l a b : u32 (u32 a + b) = u32 (a + b).
Proof. rw /u32 Zplus_mod_idemp_l //. Qed.

Lemma add_pairs_spec Mcb a d Φ :
  PairCount Mcb ↦ u32 a -∗ (PairCount Mcb ↦ u32 (a + d) -∗ Φ tt) -∗ wp (add_pairs Mcb d) Φ.
Proof.
  iIntros "HP HΦ". unfold add_pairs. wp_load. rw u32_add_l. wp_store. by iApply "HΦ".
Qed.

(** In a build with assertions, all requests are granted. *)
Definition reliable (dbg : bool) (mm : manager) : Prop := dbg = true -> forall j, grants mm j = true.

Section remove.
Context (ex : pool) (mm : manager) `{!PoolRoutines ex mm} (dbg : bool) (Hdbg : reliable dbg mm).
Context (Mcb pt uninit : Z).
Implicit Types (xs : list (Z * run)).

Abbreviation MC := (map_contract Mcb pt).
Abbreviation IC := (intersect_contract Mcb pt).

(** The assertion that an element is new. *)
Lemma assert_new p j Φ :
  p ↦ (if grants mm j then 1 else 0) -∗ (p ↦ (if grants mm j then 1 else 0) -∗ Φ tt) -∗
  wp (ASSERT dbg (x ← load p; ret (negb (x =? 0)))) Φ.
Proof. iApply (assert_load dbg p _ (fun x => negb (x =? 0))). intros E. by rw (Hdbg E j). Qed.

(** The insertion of a piece: the runs in order with it, or without it. *)
Lemma insert_piece_spec Map p sp k xs a j l Φ :
  runs_ok xs.*2 -> run_ok k -> Forall (apart k) xs.*2 ->
  runs_at IC Map xs -∗ run_at p k -∗ variable (pNewElement sp) -∗ PairCount Mcb ↦ u32 a -∗
  stocked mm j l xs -∗
  (∀ xs', ⌜inserted (grants mm j) k xs xs'⌝ -∗ run_at p k -∗ variable (pNewElement sp) -∗
     PairCount Mcb ↦ u32 (a + 1) -∗ runs_at IC Map xs' -∗ stocked mm (S j) l xs' -∗ Φ tt) -∗
  wp (insert_piece ex dbg uninit Mcb Map p sp) Φ.
Proof.
  iIntros (Hok Hk Ha) "Ht Hp Hnew HP Hst HΦ". unfold insert_piece.
  iDestruct (variable_opt with "Hnew") as "(%v & %Hnn & Hnew)".
  wp_call. iApply (set_compare_spec with "Ht"). iIntros "Ht".
  wp_call. iApply (insert_run_at_spec with "Ht Hp Hnew Hst"); [done..|].
  iIntros (q xs' Hins) "Hp Hnew Ht Hst". wp_call. iApply (add_pairs_spec with "HP"). iIntros "HP".
  iDestruct (opt_variable with "Hnew") as "Hnew"; [done|].
  wp_call. iApply (assert_new with "Hnew"). iIntros "Hnew".
  iApply (set_compare_spec with "Ht"). iIntros "Ht".
  iApply ("HΦ" with "[//] Hp [Hnew] HP Ht Hst"). iSplit; [done|]. by iExists _.
Qed.

(** ** The rounds of the loop *)

Context (n : run) (Hn : 0 <= RunStartVbn n < RunEndVbn n) (Hn64 : fields64 n) (rs : list run) (Hrs : runs_ok rs).
Context (Map sp lost0 : Z) (j0 : nat) (l0 : Z).

(** The requests so far. *)
Definition requests (asked : bool) : nat := if asked then S j0 else j0.

Definition remove_state (k : nat) : hprop :=
  (∃ xs lost asked, ⌜removing (grants mm j0) n rs xs.*2 lost asked /\ k = hits n xs.*2⌝ ∗
     runs_at IC Map xs ∗ PairCount Mcb ↦ u32 (Z.of_nat (length xs) + (lost0 + lost)) ∗ piece_frame sp ∗
     stocked mm (requests asked) l0 xs)%I.

(** A round at the run [h] in the entry at [p], and what it leads to. *)
Section round.
Context (xs1 : list (Z * run)) (p : Z) (h : run) (xs2 : list (Z * run)).
Abbreviation xs := (xs1 ++ (p, h) :: xs2).
Context (Hrm : removing (grants mm j0) n rs xs.*2 0 false) (Hi : intersects n h = true).

Definition round_start : hprop :=
  (runs_at IC Map xs ∗ PairCount Mcb ↦ u32 (Z.of_nat (length xs) + lost0) ∗ piece_frame sp ∗
   stocked mm j0 l0 xs)%I.

Definition round_end (Φ : unit -> hprop) : hprop :=
  (∀ k, ⌜(k < hits n xs.*2)%nat⌝ -∗ remove_state k -∗ Φ tt)%I.

Lemma round_runs : runs_ok (xs1.*2 ++ h :: xs2.*2) /\ run_ok h /\ fields64 h.
Proof.
  destruct Hrm as [Hok _]. rw table_runs_middle in Hok. split; [done|].
  apply runs_ok_middle in Hok as (_ & Hh & _). split; [done|]. by apply run_ok_fields.
Qed.

Lemma round_overlap : RunStartVbn n < RunEndVbn h /\ RunStartVbn h < RunEndVbn n.
Proof.
  destruct round_runs as (_ & Hh & _). unfold run_ok in Hh. apply intersects_overlap; [lia|lia|done].
Qed.

(** The new runs are those of the step. *)
Lemma round_step ys Φ :
  ys.*2 = xs1.*2 ++ pieces n h ++ xs2.*2 -> (around n h = true -> grants mm j0 = true) ->
  runs_at IC Map ys -∗ PairCount Mcb ↦ u32 (Z.of_nat (length ys) + lost0) -∗ piece_frame sp -∗
  stocked mm (requests (around n h)) l0 ys -∗ round_end Φ -∗ Φ tt.
Proof.
  iIntros (Hys Hg) "Ht HP Hf Hst HΦ". destruct round_runs as (Hok & Hh & _).
  pose proof Hrm as Hrm'. rw table_runs_middle in Hrm'.
  iApply ("HΦ" $! (hits n ys.*2)).
  - iPureIntro. rw Hys table_runs_middle. by apply hits_step.
  - iExists ys, 0, (around n h). rw Z.add_0_r. iFrame. iPureIntro. split; [|done]. rw Hys.
    destruct (around n h) eqn:E; [by apply removing_kept; auto|by apply removing_step].
Qed.

(** No memory is needed. *)
Lemma round_step_quiet ys Φ :
  ys.*2 = xs1.*2 ++ pieces n h ++ xs2.*2 -> around n h = false ->
  runs_at IC Map ys -∗ PairCount Mcb ↦ u32 (Z.of_nat (length ys) + lost0) -∗ piece_frame sp -∗
  stocked mm j0 l0 ys -∗ round_end Φ -∗ Φ tt.
Proof.
  iIntros (Hys E) "Ht HP Hf Hst HΦ". iApply (round_step with "Ht HP Hf [Hst] HΦ"); [done|by rw E|].
  by rw E.
Qed.

Lemma delete_run_spec Φ :
  pieces n h = [] -> around n h = false -> round_start -∗ round_end Φ -∗
  wp (delete_run ex uninit Mcb Map (UserData p)) Φ.
Proof.
  iIntros (Hp E) "(Ht & HP & Hf & Hst) HΦ". unfold delete_run. destruct round_runs as (Hok & Hh & _).
  wp_call. iApply (set_compare_spec with "Ht"). iIntros "Ht".
  wp_call. iApply (delete_run_at_spec with "Ht Hst"); [by rw table_runs_middle|]. iIntros "Ht Hst".
  wp_call. iApply (add_pairs_spec with "HP"). iIntros "HP".
  iApply (set_compare_spec with "Ht"). iIntros "Ht".
  iApply (round_step_quiet (xs1 ++ xs2) with "Ht [HP] Hf Hst HΦ"); [by rw Hp fmap_app|done|].
  rw !length_app /=. replace (Z.of_nat (_ + S _) + lost0 + -1)
    with (Z.of_nat (length xs1 + length xs2) + lost0) by lia. done.
Qed.

Lemma round_diff x : 0 <= x < 2 ^ 63 -> s64 (x - RunStartVbn h) = x - RunStartVbn h.
Proof.
  intros Hx. destruct round_runs as (_ & Hh & _). apply s64_small.
  unfold run_ok in Hh. lia.
Qed.

Lemma needle_range : 0 <= RunStartVbn n < 2 ^ 63 /\ 0 <= RunEndVbn n < 2 ^ 63.
Proof. destruct Hn64 as ([? ?] & [? ?] & _). lia. Qed.

(** The tail of a run around the range is inserted behind its head. *)
Lemma insert_tail_run_spec Φ :
  let head := MkRun (RunStartVbn h) (RunStartVbn n) (StartingLbn h) in
  let tail := MkRun (RunEndVbn n) (RunEndVbn h)
                (s64 (StartingLbn h + (RunEndVbn n - RunStartVbn h))) in
  RunStartVbn h < RunStartVbn n -> RunEndVbn n < RunEndVbn h ->
  runs_at IC Map (xs1 ++ (p, head) :: xs2) -∗ run_at (pTailRun sp) tail -∗
  free_run (pHeadRun sp) -∗ variable (pNewElement sp) -∗
  PairCount Mcb ↦ u32 (Z.of_nat (length xs) + lost0) -∗
  stocked mm j0 l0 (xs1 ++ (p, head) :: xs2) -∗ round_end Φ -∗
  wp (insert_piece ex dbg uninit Mcb Map (pTailRun sp) sp) Φ.
Proof.
  intros head tail. iIntros (H1 H2) "Ht Htail Hhead Hnew HP Hst HΦ".
  assert (around n h = true) as Har by by rw /around !(proj2 (Z.ltb_lt _ _)).
  destruct round_runs as (Hok & Hh & Hh64). destruct (cut_step n Hn _ _ _ Hok Hi) as [Hok' _].
  assert (pieces n h = [head; tail]) as Hp.
  { by rw /pieces (proj2 (Z.ltb_lt _ _) H1) (proj2 (Z.ltb_lt _ _) H2). }
  assert (xs1.*2 ++ pieces n h ++ xs2.*2 = (xs1.*2 ++ [head]) ++ tail :: xs2.*2) as E.
  { by rw Hp -app_assoc. }
  pose proof Hok' as Hok2. rw E in Hok2. apply runs_ok_apart in Hok2 as (Hok2 & Htl & Hap).
  rw -app_assoc -(table_runs_middle _ p) in Hok2. rw -app_assoc -(table_runs_middle _ p) in Hap.
  iApply (insert_piece_spec with "Ht Htail Hnew HP Hst"); [done..|].
  iIntros (ys Hins) "Htail Hnew HP Ht Hst". iDestruct (run_at_free with "Htail") as "Htail".
  pose proof (inserted_length _ _ _ _ Hins) as Hlen. destruct (grants mm j0) eqn:Hg in Hins, Hlen |-.
  - destruct Hins as (zs1 & q & zs2 & Hz & -> & Hok3).
    iApply (round_step with "Ht [HP] [$Htail $Hhead $Hnew] [Hst] HΦ"); [|done| |by rw Har].
    + rw table_runs_middle. apply inserted_place; [by rw -(table_runs_middle _ q)|done|].
      rw E -fmap_app -Hz table_runs_middle -Permutation_middle. by rw -app_assoc.
    + rw Hlen !length_app /=. replace (Z.of_nat (_ + _) + lost0 + 1)
        with (Z.of_nat (length xs1 + S (length xs2) + 1) + lost0) by lia. done.
  - simpl in Hins. subst ys. iApply ("HΦ" $! 0%nat).
    + iPureIntro. rw table_runs_middle. by apply hits_found.
    + assert (removing (grants mm j0) n rs (xs1 ++ (p, head) :: xs2).*2 1 true) as Hlost.
      { rw table_runs_middle. apply removing_lost; [done|by rw -(table_runs_middle _ p)|done..]. }
      iExists _, 1, true. iFrame "Ht Htail Hhead Hnew Hst". iSplit.
      * iPureIntro. split; [done|]. destruct Hlost as (_ & _ & _ & Hno). by rw hits_apart.
      * rw !length_app /= -Z.add_assoc. done.
Qed.

Lemma truncate_run_spec Φ :
  RunStartVbn h < RunStartVbn n -> round_start -∗ round_end Φ -∗
  wp (truncate_run ex dbg uninit Mcb Map (UserData p) sp (RunStartVbn n) (RunEndVbn n)) Φ.
Proof.
  iIntros (Hlt) "(Ht & HP & Hf & Hst) HΦ". unfold truncate_run. destruct round_runs as (Hok & Hh & Hh64).
  destruct needle_range as [Hns Hne]. destruct Hn64 as (Hns64 & Hne64 & _).
  iDestruct (change_run with "Ht") as "[Hr Ht]"; [by intros r Hr; exists r|done|].
  iDestruct (run_at_fields with "Hr") as "(HS & HE & HL)". wp_load64.
  wp_call. iApply (assert_load64 dbg _ _ (fun e => RunStartVbn n <? e) with "HE").
  { intros _. apply Z.ltb_lt, round_overlap. }
  iIntros "HE". wp_store64.
  set (head := MkRun (RunStartVbn h) (RunStartVbn n) (StartingLbn h)).
  destruct (cut_step n Hn _ _ _ Hok Hi) as [Hok' _].
  assert (pieces n h = head :: if RunEndVbn n <? RunEndVbn h then
    [MkRun (RunEndVbn n) (RunEndVbn h) (s64 (StartingLbn h + (RunEndVbn n - RunStartVbn h)))] else []) as Hp.
  { by rw /pieces (proj2 (Z.ltb_lt _ _) Hlt). }
  destruct (Z.ltb_spec (RunEndVbn n) (RunEndVbn h)) as [Hin|Hout]; last first.
  - wp_ret. iDestruct ("Ht" $! head with "[HS HE HL]") as "Ht".
    { iApply (run_at_close _ head with "HS HE HL"). }
    iApply (round_step_quiet (xs1 ++ (p, head) :: xs2) with "Ht [HP] Hf [Hst] HΦ");
      [by rw table_runs_middle Hp| |by rw !length_app|by rw /stocked !length_app].
    by rw /around (proj2 (Z.ltb_ge _ _) Hout) andb_false_r.
  - wp_load64. wp_load64. rw (round_diff (RunEndVbn n)) //. iDestruct ("Ht" $! head with "[HS HE HL]") as "Ht".
    { iApply (run_at_close _ head with "HS HE HL"). }
    iDestruct "Hf" as "(Htail & Hhead & Hnew)".
    wp_call. iApply (store_run_spec with "Htail").
    { split_and!; [done|by apply Hh64|apply s64_range]. }
    iIntros "Htail". iApply (insert_tail_run_spec with "Ht Htail Hhead Hnew HP [Hst] HΦ"); [done..|].
    by rw /stocked !length_app.
Qed.

Lemma behead_run_spec Φ :
  RunStartVbn n <= RunStartVbn h -> RunEndVbn n < RunEndVbn h -> round_start -∗ round_end Φ -∗
  wp (behead_run ex dbg uninit Mcb Map (UserData p) sp (RunStartVbn n) (RunEndVbn n)) Φ.
Proof.
  iIntros (Hle Hlt) "(Ht & HP & Hf & Hst) HΦ". unfold behead_run. destruct round_runs as (Hok & Hh & Hh64).
  destruct needle_range as [Hns Hne]. destruct Hn64 as (Hns64 & Hne64 & _).
  iDestruct (change_run with "Ht") as "[Hr Ht]"; [by intros r Hr; exists r|done|].
  iDestruct (run_at_fields with "Hr") as "(HS & HE & HL)". wp_load64. wp_load64.
  wp_call. iApply (assert_load64 dbg _ _ (fun s => s <? RunEndVbn n) with "HS").
  { intros _. apply Z.ltb_lt, round_overlap. }
  iIntros "HS". wp_run64.
  rw (round_diff (RunEndVbn n)) // (proj2 (Z.ltb_ge _ _)) //. wp_ret.
  set (tail := MkRun (RunEndVbn n) (RunEndVbn h)
                 (s64 (StartingLbn h + (RunEndVbn n - RunStartVbn h)))).
  iDestruct ("Ht" $! tail with "[HS HE HL]") as "Ht".
  { iApply (run_at_close _ tail with "HS HE HL"). }
  iApply (round_step_quiet (xs1 ++ (p, tail) :: xs2) with "Ht [HP] Hf [Hst] HΦ");
    [| |by rw !length_app|by rw /stocked !length_app].
  - by rw table_runs_middle /pieces (proj2 (Z.ltb_ge _ _)) // (proj2 (Z.ltb_lt _ _)).
  - by rw /around (proj2 (Z.ltb_ge _ _) Hle).
Qed.
End round.

(** No run intersects the range any more. *)
Definition removed_state : hprop :=
  (∃ xs lost asked, ⌜removing (grants mm j0) n rs xs.*2 lost asked /\
       Forall (fun r => intersects n r = false) xs.*2⌝ ∗
     runs_at IC Map xs ∗ PairCount Mcb ↦ u32 (Z.of_nat (length xs) + (lost0 + lost)) ∗
     piece_frame sp ∗ stocked mm (requests asked) l0 xs)%I.

Definition round_post (k : nat) (r : unit + unit) : hprop :=
  match r with
  | inl _ => ∃ k', ⌜(k' < k)%nat⌝ ∗ run_at (pNeedleRun sp) n ∗ remove_state k'
  | inr _ => run_at (pNeedleRun sp) n ∗ removed_state
  end%I.

(** One round: no run intersects the needle, or there are fewer of them then. *)
Lemma remove_round_spec k :
  run_at (pNeedleRun sp) n ∗ remove_state k ⊢
  wp (remove_round ex dbg uninit Mcb Map sp (RunStartVbn n) (RunEndVbn n) tt) (round_post k).
Proof.
  iIntros "(Hn & %xs & %lost & %asked & [%Hrm ->] & Ht & HP & Hf & Hst)". unfold remove_round.
  pose proof Hrm as [Hok _].
  wp_call. iApply (lookup_run_spec with "Ht Hn"); [done|lia|].
  iIntros (q [[-> Hno]|(xs1 & p & h & xs2 & -> & Hi & Hp & ->)]) "Ht Hn".
  - wp_test. wp_ret. iFrame "Hn". iExists xs, lost, asked. by iFrame.
  - assert (lost = 0 /\ asked = false) as [-> ->].
    { rw table_runs_middle in Hrm. by apply (removing_found _ n rs _ h _ lost asked Hrm). }
    rw Z.add_0_r (proj2 (Z.eqb_neq _ NULL)); [|unfold UserData, NULL; lia].
    rw table_runs_middle in Hok. apply runs_ok_middle in Hok as (_ & Hh & _).
    pose proof (run_ok_fields h Hh) as Hh64.
    iDestruct (change_run with "Ht") as "[Hr Ht]"; [by intros r Hr; exists r|done|].
    iDestruct (run_at_fields with "Hr") as "(HS & HE & HL)". wp_load64. wp_load64.
    iDestruct ("Ht" $! h with "[HS HE HL]") as "Ht"; [iApply (run_at_close with "HS HE HL")|].
    iAssert (round_start xs1 p h xs2) with "[$Ht $HP $Hf $Hst]" as "Hs".
    iAssert (round_end xs1 p h xs2 (fun _ => wp (ret (inl tt)) (round_post _)))%I with "[Hn]" as "He".
    { iIntros (k' Hk') "Hk". wp_ret. iExists k'. by iFrame. }
    wp_call. destruct (Z.ltb_spec (RunStartVbn h) (RunStartVbn n)).
    { by iApply (truncate_run_spec with "Hs He"). }
    destruct (Z.ltb_spec (RunEndVbn n) (RunEndVbn h)).
    { by iApply (behead_run_spec with "Hs He"). }
    iApply (delete_run_spec with "Hs He"); [done..| |].
    + by rw /pieces !(proj2 (Z.ltb_ge _ _)).
    + by rw /around (proj2 (Z.ltb_ge _ _)).
Qed.

Lemma remove_loop_spec k Φ :
  run_at (pNeedleRun sp) n -∗ remove_state k -∗
  (run_at (pNeedleRun sp) n -∗ removed_state -∗ Φ tt) -∗
  wp (while (remove_round ex dbg uninit Mcb Map sp (RunStartVbn n) (RunEndVbn n)) tt) Φ.
Proof.
  iIntros "Hn Hk HΦ". iApply (wp_wand _ (fun _ => run_at (pNeedleRun sp) n ∗ removed_state)%I with "[-HΦ]").
  - iApply (wp_while _ (fun k _ => run_at (pNeedleRun sp) n ∗ remove_state k)%I _ k with "[$Hn $Hk]").
    + intros j []. etrans; [apply remove_round_spec|]. apply wp_mono. intros [[]|[]]; done.
    + iIntros "(_ & %xs & %lost & %asked & [_ ->] & [%ins Ht] & _)".
      iApply (cells_le (length (encode <$> xs))); [|by iApply generic_table_cells].
      rw length_fmap. etrans; [apply hits_le|]. by rw length_fmap.
  - iIntros ([]) "[Hn Hk]". iApply ("HΦ" with "Hn Hk").
Qed.
End remove.

(** ** The function *)

(** What a removal does to the runs and to the number of failed insertions after [j] requests:
    there is a request only for the tail of a run around the range. *)
Definition remove_result (gr : nat -> bool) (n : run) (rs : list run) (lost : Z) (j : nat)
    (rs' : list run) (lost' : Z) (j' : nat) : Prop :=
  if surrounded n rs then
    j' = S j /\ if gr j then rs' = cut n rs /\ lost' = lost else tail_lost n rs rs' /\ lost' = lost + 1
  else rs' = cut n rs /\ lost' = lost /\ j' = j.

Lemma remove_result_cases gr n rs lost j rs' lost' j' :
  remove_result gr n rs lost j rs' lost' j' -> rs' = cut n rs \/ tail_lost n rs rs'.
Proof.
  unfold remove_result. destruct (surrounded n rs); [|intros (-> & _); by left].
  intros [_ H]. destruct (gr j), H as [H _]; auto.
Qed.

Section removal.
Context (ex : pool) (mm : manager) `{!PoolRoutines ex mm} (dbg : bool) (Hdbg : reliable dbg mm).
Context (uninit : Z).

Lemma remove_mcb_spec sp Mcb rs lost j l Vbn N Φ :
  0 <= Vbn -> 0 < N -> Vbn + N < 2 ^ 63 ->
  mcb Mcb rs lost -∗ remove_frame sp -∗ stocked mm j l rs -∗
  (∀ rs' lost' j', ⌜remove_result (grants mm) (MkRun Vbn (Vbn + N) (-1)) rs lost j rs' lost' j'⌝ -∗
     mcb Mcb rs' lost' -∗ remove_frame sp -∗ stocked mm j' l rs' -∗ Φ true) -∗
  wp (FsRtlRemoveBaseMcbEntry ex dbg uninit sp Mcb Vbn N) Φ.
Proof.
  iIntros (HV HN Hend) "(%Hok & %Map & %pt & %mx & %xs & %Hxs & HM & Hmx & HP & Ht) [Hneedle Hf] Hst HΦ".
  set (n := MkRun Vbn (Vbn + N) (-1)).
  assert (0 <= RunStartVbn n < RunEndVbn n) as Hn by (simpl; lia).
  assert (fields64 n) as Hn64 by (unfold fields64, in64; simpl; lia).
  unfold FsRtlRemoveBaseMcbEntry. rw s64_small; [|lia].
  rw (proj2 (Z.ltb_ge Vbn 0)); [|lia]. rw (proj2 (Z.leb_gt N 0)); [|lia].
  rw (proj2 (Z.leb_gt (Vbn + N) Vbn)); [|lia]. simpl.
  wp_call. iApply (store_run_spec with "Hneedle"); [done|]. iIntros "Hneedle". wp_load.
  wp_call. iApply (set_compare_spec with "Ht"). iIntros "Ht".
  wp_call. iApply (remove_loop_spec ex mm dbg Hdbg Mcb pt uninit n Hn Hn64 rs Map sp lost j l
    (hits n xs.*2) with "Hneedle [Ht HP Hf Hst]").
  { iExists xs, 0, false. rw Z.add_0_r -Hxs (stocked_length _ _ _ _ xs) ?length_fmap //. iFrame. iPureIntro.
    split; [|done]. rw -Hxs in Hok. by apply removing_start. }
  iIntros "Hneedle (%ys & %l1 & %asked & [%Hrm %Hno] & Ht & HP & Hf & Hst)".
  wp_call. iApply (set_compare_spec with "Ht"). iIntros "Ht". wp_ret.
  iApply ("HΦ" $! ys.*2 (lost + l1) (requests j asked) with "[%] [-Hneedle Hf Hst] [Hneedle Hf] [Hst]").
  - destruct (removing_done _ n Hn rs Hok _ _ _ Hrm Hno) as [-> Hl]. unfold remove_result, tail_result in *.
    destruct (surrounded n rs); [|destruct Hl as [-> ->]; by rw Z.add_0_r].
    split; [done|]. simpl in Hl. destruct (grants mm j), Hl as [Hl ->]; by rw ?Z.add_0_r.
  - iSplit; [iPureIntro; apply Hrm|]. iExists Map, pt, mx, ys. rw length_fmap. by iFrame.
  - iFrame "Hf". by iApply run_at_free.
  - iApply (stocked_length with "Hst"). by rw length_fmap.
Qed.

(** The refused ranges: a negative start, an empty range, a range that wraps around. *)
Lemma remove_refused_spec sp Mcb Vbn N Φ :
  Vbn < 0 \/ N <= 0 \/ s64 (Vbn + N) <= Vbn -> Φ false ⊢
  wp (FsRtlRemoveBaseMcbEntry ex dbg uninit sp Mcb Vbn N) Φ.
Proof.
  iIntros (H) "HΦ". unfold FsRtlRemoveBaseMcbEntry.
  destruct (Z.ltb_spec Vbn 0), (Z.leb_spec N 0), (Z.leb_spec (s64 (Vbn + N)) Vbn); simpl;
    first [wp_ret; done | lia].
Qed.
End removal.
