(* ===== verification/McbWalk.v ===== *)
(** * Mapping control blocks: the functions that walk over the runs

    [FsRtlGetNextBaseMcbEntry] counts the runs and the holes between them; lookups and the
    number of runs are loops around it. *)

From Stdlib Require Import ZArith Lia.
From S2P Require Import Prelude.
From stdpp Require Import gmap.
From iris.proofmode Require Import proofmode.
From S2P Require Import HeapLogic LinkTree TableCommon GenericTable GenericTableWalk.
From S2P Require Import GenericTableShare McbRuns Heap64 FsRtlMcb McbTable McbRemove.

#[local] Open Scope Z_scope.

(** ** Enumeration of runs *)

Section cursor.
Context (ct : contract) (Map : Z) (Hct : forall r, fields64 r -> accepted ct (run_bytes r)).
Implicit Types (xs : list (Z * run)).

(** An enumeration that has passed [xs1] and returned the pointer [q]. *)
Definition cursor xs1 xs2 (q : Z) : hprop :=
  match xs2 with
  | [] => ⌜q = NULL⌝ ∗ runs_at ct Map xs1
  | (p, r) :: _ => ⌜q = UserData p /\ 0 < p⌝ ∗
      ∃ ins, table_at_index ct Map (encode <$> xs1 ++ xs2) ins true (length xs1)
  end%I.

Lemma cursor_start xs Φ :
  runs_at ct Map xs -∗ (∀ q, cursor [] xs q -∗ Φ q) -∗ wp (RtlEnumerateGenericTable Map true) Φ.
Proof.
  iIntros "[%ins Ht] HΦ". destruct xs as [|[p r] xs].
  - iApply (enumerate_empty_spec with "Ht"). iIntros "Ht". iApply "HΦ". iSplit; [done|]. by iExists ins.
  - rw fmap_cons. iDestruct (table_positive with "Ht") as %[Hp _]%Forall_cons.
    iApply (enumerate_restart_spec with "Ht"). iIntros "Ht". iApply "HΦ".
    iSplit; [done|]. iExists ins. by rw fmap_cons.
Qed.

Lemma cursor_next xs1 p r xs2 q Φ :
  cursor xs1 ((p, r) :: xs2) q -∗ (∀ q', cursor (xs1 ++ [(p, r)]) xs2 q' -∗ Φ q') -∗
  wp (RtlEnumerateGenericTable Map false) Φ.
Proof.
  iIntros "(_ & %ins & Ht) HΦ".
  iAssert ⌜Forall (fun y => 0 < y.1) (encode <$> xs1 ++ (p, r) :: xs2)⌝%I as %Hpos.
  { iDestruct (table_at_index_forget with "Ht") as "Ht". by iApply table_positive. }
  iApply (enumerate_next_spec with "Ht").
  rw list_lookup_fmap lookup_app_r; [|lia]. replace (S (length xs1) - length xs1)%nat with 1%nat by lia.
  destruct xs2 as [|[p' r'] xs2]; simpl; iIntros "Ht"; iApply "HΦ".
  - iSplit; [done|]. iExists ins. by iApply table_at_index_forget.
  - rw encode_app !fmap_cons Forall_app !Forall_cons in Hpos.
    iSplit; [iPureIntro; split; [done|apply Hpos]|]. iExists ins.
    by rw -app_assoc length_app Nat.add_1_r.
Qed.

(** The run that the enumeration has reached can be read and changed. *)
Lemma cursor_run xs1 p r xs2 q :
  fields64 r -> cursor xs1 ((p, r) :: xs2) q ⊢
  ⌜q <> NULL⌝ ∗ run_at q r ∗ ∀ r', run_at q r' -∗ cursor xs1 ((p, r') :: xs2) q.
Proof.
  iIntros (Hr) "((-> & %Hp) & %ins & Ht)". iSplit; [iPureIntro; unfold UserData, NULL; lia|].
  rw encode_app fmap_cons. replace (length xs1) with (length (encode <$> xs1)) by by rw length_fmap.
  iDestruct (change_enumerated with "Ht") as "[[_ Hx] Ht]".
  iDestruct (run_at_bytes with "Hx") as "$"; [done|]. iIntros (r') "Hr".
  iDestruct (run_at_open with "Hr") as "[%H64 Hr]".
  iDestruct ("Ht" $! (run_bytes r') with "[%] [Hr]") as "Ht";
    [exact (Hct r' H64)|iSplit; [iPureIntro; exact Hp|iExact "Hr"]|].
  iSplit; [done|]. iExists ins. rw encode_app fmap_cons length_fmap. iExact "Ht".
Qed.

Lemma cursor_runs xs1 xs2 q : cursor xs1 xs2 q ⊢ runs_at ct Map (xs1 ++ xs2).
Proof.
  destruct xs2 as [|[p r] xs2]; simpl.
  - rw app_nil_r. by iIntros "[_ $]".
  - iIntros "(_ & %ins & Ht)". iExists ins. by iApply table_at_index_forget.
Qed.

Lemma cursor_pointer xs1 p r xs2 q : cursor xs1 ((p, r) :: xs2) q ⊢ ⌜q = UserData p⌝.
Proof. by iIntros "([-> _] & _)". Qed.

Lemma cursor_null xs1 q : cursor xs1 [] q ⊢ ⌜q = NULL⌝.
Proof. iIntros "[$ _]". Qed.

Lemma runs_at_positive xs1 p r xs2 : runs_at ct Map (xs1 ++ (p, r) :: xs2) ⊢ ⌜0 < p⌝.
Proof.
  iIntros "[%ins Ht]". iDestruct (table_positive with "Ht") as %Hpos. iPureIntro.
  rw encode_app fmap_cons Forall_app Forall_cons in Hpos. apply Hpos.
Qed.

Lemma runs_at_cells xs : runs_at ct Map xs ⊢ cells (2 * length xs).
Proof.
  iIntros "[%ins Ht]". rw -(length_fmap encode xs). by iApply generic_table_cells_twice.
Qed.
End cursor.

#[global] Opaque cursor.

(** ** The entry with an index *)

Section next.
Context (Mcb pt Map : Z) (xs : list (Z * run)) (Hok : runs_ok xs.*2).
Context (Hfit : 2 * Z.of_nat (length xs) < 2 ^ 32).

Abbreviation MC := (map_contract Mcb pt).

Lemma map_accepts r : fields64 r -> accepted MC (run_bytes r).
Proof. intros Hr. by exists r. Qed.

(** The loop has passed the runs [xs1] without finding the index. *)
Definition passed (RunIndex : Z) (xs1 : list (Z * run)) (s : Z * Z * Z * Z) : Prop :=
  let '(_, CurrentIndex, LastVbn, LastSectorCount) := s in
  CurrentIndex = Z.of_nat (length (entries 0 xs1.*2)) /\ CurrentIndex <= RunIndex /\
  0 <= LastVbn /\ 0 <= LastSectorCount /\ LastVbn + LastSectorCount = end_from 0 xs1.*2.

Definition next_inv (RunIndex : Z) (k : nat) (s : Z * Z * Z * Z) : hprop :=
  (∃ xs1 xs2, ⌜xs = xs1 ++ xs2 /\ k = length xs2 /\ passed RunIndex xs1 s⌝ ∗
     cursor MC Map xs1 xs2 s.1.1.1)%I.

Definition next_post (RunIndex : Z) (r : option (Z * Z * Z)) : hprop :=
  (⌜r = entries 0 xs.*2 !! Z.to_nat RunIndex⌝ ∗ runs_at MC Map xs)%I.

(** The index at the run [r] behind the runs [xs1]. *)
Lemma index_bound xs1 p r xs2 :
  xs = xs1 ++ (p, r) :: xs2 ->
  Z.of_nat (length (entries 0 xs1.*2 ++ hole_before (end_from 0 xs1.*2) r)) + 1 < 2 ^ 32.
Proof.
  intros Hxs. pose proof (entries_length 0 xs.*2) as Hl. rw length_fmap in Hl.
  pose proof (f_equal length (entries_middle 0 xs1.*2 r xs2.*2)) as Hm.
  rw -(table_runs_middle _ p) -Hxs length_app /= in Hm. lia.
Qed.

(** What a round does to the run when the hole before it is not the entry. *)
Definition next_tail (RunIndex q Start CurrentIndex : Z)
    : M (Z * Z * Z * Z + option (Z * Z * Z)) :=
  End_ ← load64 (pRunEndVbn q);
  if RunIndex =? CurrentIndex then
    Lbn ← load64 (pStartingLbn q);
    ret (inr (Some (Start, Lbn, s64 (End_ - Start))))
  else
    Next ← RtlEnumerateGenericTable Map false;
    ret (inl (Next, u32 (CurrentIndex + 1), u64 Start, u64 (s64 (End_ - Start)))).

Definition next_round_post (RunIndex : Z) (k : nat) (s : Z * Z * Z * Z + option (Z * Z * Z)) : hprop :=
  match s with
  | inl s' => ∃ k', ⌜(k' < k)%nat⌝ ∗ next_inv RunIndex k' s'
  | inr b => next_post RunIndex b
  end%I.

Lemma next_tail_spec RunIndex xs1 p r xs2 q i :
  xs = xs1 ++ (p, r) :: xs2 -> run_ok r ->
  i = Z.of_nat (length (entries 0 xs1.*2 ++ hole_before (end_from 0 xs1.*2) r)) -> i <= RunIndex ->
  cursor MC Map xs1 ((p, r) :: xs2) q ⊢
  wp (next_tail RunIndex q (RunStartVbn r) i) (next_round_post RunIndex (S (length xs2))).
Proof.
  iIntros (Hxs Hr Hi Hle) "Hc". pose proof (run_ok_fields r Hr) as Hr64. unfold run_ok in Hr.
  pose proof (index_bound _ _ _ _ Hxs) as Hbound. unfold next_tail.
  assert (entries 0 xs.*2 = (entries 0 xs1.*2 ++ hole_before (end_from 0 xs1.*2) r) ++
    entry_of r :: entries (RunEndVbn r) xs2.*2) as He.
  { by rw Hxs table_runs_middle entries_middle. }
  iDestruct (cursor_run _ _ map_accepts with "Hc") as "(_ & Hr & Hc)"; [done|].
  iDestruct (run_at_fields with "Hr") as "(HS & HE & HL)". wp_load64.
  rw (s64_small (RunEndVbn r - _)); [|lia]. destruct (Z.eqb_spec RunIndex i) as [->|Hne].
  - wp_load64. wp_ret.
    iDestruct ("Hc" $! r with "[HS HE HL]") as "Hc"; [iApply (run_at_close with "HS HE HL")|].
    rw cursor_runs -Hxs. iFrame. iPureIntro. rw He Hi Nat2Z.id. by rw list_lookup_middle.
  - iDestruct ("Hc" $! r with "[HS HE HL]") as "Hc"; [iApply (run_at_close with "HS HE HL")|].
    wp_call. iApply (cursor_next with "Hc"). iIntros (q') "Hc". wp_ret.
    iExists (length xs2). iSplit; [iPureIntro; lia|]. iExists (xs1 ++ [(p, r)]), xs2. iFrame "Hc".
    iPureIntro. split; [by rw -app_assoc|]. split; [done|]. unfold passed.
    change ((xs1 ++ [(p, r)]).*2) with ((xs1 ++ (p, r) :: []).*2).
    rw table_runs_middle end_from_snoc u32_small; [|lia]. rw !u64_small; [|lia|lia].
    split_and!; try lia. rw entries_middle length_app /=. lia.
Qed.

Lemma next_round_ok RunIndex :
  round_ok (next_round Map RunIndex) (next_inv RunIndex) (next_post RunIndex).
Proof.
  intros k [[[q i] lv] lc].
  iIntros "(%xs1 & %xs2 & (%Hxs & -> & %Hi & %Hle & %Hlv & %Hlc & %Hlast) & Hc)".
  simpl in *. unfold next_round. destruct xs2 as [|[p r] xs2].
  - iDestruct (cursor_null with "Hc") as %->. wp_test. wp_ret. rw cursor_runs app_nil_r.
    rw app_nil_r in Hxs. subst xs1. iFrame. iPureIntro. symmetry. apply lookup_ge_None. lia.
  - pose proof Hok as Hok'. rw Hxs table_runs_middle in Hok'.
    pose proof (end_from_bounds _ _ _ Hok') as Hb. apply runs_ok_middle in Hok' as (_ & Hr & _).
    pose proof (run_ok_fields r Hr) as Hr64. pose proof (index_bound _ _ _ _ Hxs) as Hbound.
    iDestruct (cursor_run _ _ map_accepts with "Hc") as "(%Hq & Hr & Hc)"; [done|].
    iDestruct (run_at_fields with "Hr") as "(HS & HE & HL)".
    rw (proj2 (Z.eqb_neq q NULL) Hq). wp_load64.
    iDestruct ("Hc" $! r with "[HS HE HL]") as "Hc"; [iApply (run_at_close with "HS HE HL")|].
    assert (0 <= RunStartVbn r < 2 ^ 63) as Hstart by (unfold run_ok in Hr; lia).
    assert (u64 (RunStartVbn r) = RunStartVbn r) as Hu by (apply u64_small; lia).
    rw Hlast (u64_small (end_from _ _)); [|lia]. rw {1 2 3}Hu (s64_small (end_from _ _)); [|lia].
    rw (s64_small (RunStartVbn r - _)); [|lia].
    fold (next_tail RunIndex q (RunStartVbn r)
      (if end_from 0 xs1.*2 <? RunStartVbn r then u32 (i + 1) else i)).
    destruct (Z.ltb_spec (end_from 0 xs1.*2) (RunStartVbn r)) as [Hlt|Hge].
    + unfold hole_before in Hbound. rw (proj2 (Z.ltb_lt _ _) Hlt) length_app /= in Hbound.
      destruct (Z.eqb_spec RunIndex i) as [->|Hne]; simpl.
      * wp_ret. rw cursor_runs -Hxs. iFrame. iPureIntro.
        rw Hxs table_runs_middle entries_middle /hole_before (proj2 (Z.ltb_lt _ _) Hlt).
        rw -!app_assoc Hi Nat2Z.id. by rw list_lookup_middle.
      * rw u32_small; [|lia]. iApply (next_tail_spec with "Hc"); [done|done| |lia].
        rw /hole_before (proj2 (Z.ltb_lt _ _) Hlt) length_app /=. lia.
    + simpl. iApply (next_tail_spec with "Hc"); [done|done| |lia].
      by rw /hole_before (proj2 (Z.ltb_ge _ _) Hge) app_nil_r.
Qed.

Lemma next_loop_spec RunIndex Φ :
  0 <= RunIndex ->
  runs_at MC Map xs -∗ (runs_at MC Map xs -∗ Φ (entries 0 xs.*2 !! Z.to_nat RunIndex)) -∗
  wp (Run ← RtlEnumerateGenericTable Map true; while (next_round Map RunIndex) (Run, 0, 0, 0)) Φ.
Proof.
  iIntros (HR) "Ht HΦ". wp_call. iApply (cursor_start with "Ht"). iIntros (q) "Hc".
  iApply (wp_wand _ (next_post RunIndex) with "[-HΦ]").
  - iApply (wp_while _ (next_inv RunIndex) _ (length xs)); [apply next_round_ok|..].
    + iIntros "(%xs1 & %xs2 & (%Hxs & -> & _) & Hc)". rw cursor_runs runs_at_cells.
      iApply (cells_le with "Hc"). rw length_app. lia.
    + iExists [], xs. by iFrame.
  - iIntros (r) "[-> Ht]". by iApply "HΦ".
Qed.
End next.

(** ** Lookup *)

(** What [FsRtlLookupBaseMcbEntry] returns for the entries [es], the first of which has the
    index [i]. *)
Fixpoint lookup_from (Vbn i : Z) (es : list (Z * Z * Z)) : option lookup_result64 :=
  match es with
  | [] => None
  | (v, l, c) :: es' =>
      if Vbn <? v + c then Some {|
        Lbn := if l =? -1 then -1 else s64 (l + (Vbn - v));
        SectorCountFromLbn := s64 (v + c - Vbn);
        StartingLbnOfEntry := l;
        SectorCountFromStartingLbn := c;
        Index := i |}
      else lookup_from Vbn (i + 1) es'
  end.

(** The numbers of an entry are in range. *)
Definition entry_ok (e : Z * Z * Z) : Prop :=
  0 <= e.1.1 /\ 0 < e.2 /\ e.1.1 + e.2 < 2 ^ 63 /\ in64 e.1.2.

Lemma entries_ok last rs :
  0 <= last -> runs_ok rs -> Forall entry_ok (entries last rs).
Proof.
  revert last. induction rs as [|r rs IH]; intros last Hlast Hok; simpl; [constructor|].
  change (r :: rs) with ([r] ++ rs) in Hok. apply runs_ok_app in Hok as (Hr & Hok & _).
  assert (run_ok r) as Hr' by (apply (runs_ok_in _ _ Hr); by left). clear Hr.
  assert (entry_ok (RunStartVbn r, StartingLbn r, RunEndVbn r - RunStartVbn r)) as He.
  { unfold entry_ok, run_ok in *. simpl. split_and!; (lia || tauto). }
  assert (Forall entry_ok (entries (RunEndVbn r) rs)) as Hes.
  { apply IH; [unfold run_ok in Hr'; lia|done]. }
  destruct (Z.ltb_spec last (RunStartVbn r)); repeat (constructor; [|done]); try done.
  constructor; [|by constructor]. unfold entry_ok, run_ok, in64 in *. simpl. lia.
Qed.

(** The entries fit into the indices of the code. *)
Definition fits (rs : list run) : Prop := 2 * Z.of_nat (length rs) < 2 ^ 31.

Lemma get_next_spec Mcb rs lost i Φ :
  fits rs -> 0 <= i ->
  mcb Mcb rs lost -∗ (mcb Mcb rs lost -∗ Φ (entries 0 rs !! Z.to_nat i)) -∗
  wp (FsRtlGetNextBaseMcbEntry Mcb i) Φ.
Proof.
  iIntros (Hfit Hi) "(%Hok & %Map & %pt & %mx & %xs & <- & HM & Hmx & HP & Ht) HΦ".
  unfold FsRtlGetNextBaseMcbEntry. wp_load. rw /fits length_fmap in Hfit.
  iApply (next_loop_spec with "Ht"); [done|lia|done|]. iIntros "Ht". iApply "HΦ".
  iSplit; [done|]. iExists Map, pt, mx, xs. by iFrame.
Qed.

Lemma mcb_cells Mcb rs lost : mcb Mcb rs lost ⊢ cells (length (entries 0 rs)).
Proof.
  iIntros "(%Hok & %Map & %pt & %mx & %xs & <- & HM & Hmx & HP & Ht)".
  rw runs_at_cells. iApply (cells_le with "Ht"). pose proof (entries_length 0 xs.*2).
  rw length_fmap in H. lia.
Qed.

Lemma fits_index rs i : fits rs -> (i < length (entries 0 rs))%nat -> u32 (Z.of_nat i + 1) = Z.of_nat (S i).
Proof.
  intros Hf Hi. pose proof (entries_length 0 rs). unfold fits in Hf. rw u32_small; lia.
Qed.

Section walks.
Context (Mcb : Z) (rs : list run) (lost : Z) (Hfit : fits rs).

Abbreviation es := (entries 0 rs).

(** A loop over the entries by index. *)
Definition index_inv (k : nat) (i : nat) : hprop :=
  (⌜k = (length es - i)%nat /\ (i <= length es)%nat⌝ ∗ mcb Mcb rs lost)%I.

Lemma drop_entry i v l c : es !! i = Some (v, l, c) -> drop i es = (v, l, c) :: drop (S i) es.
Proof. apply drop_S. Qed.

Lemma lookup_round_ok Vbn :
  runs_ok rs -> in64 Vbn ->
  round_ok (lookup_round Mcb Vbn)
    (fun k i => ∃ j, ⌜i = Z.of_nat j /\ lookup_from Vbn 0 es = lookup_from Vbn i (drop j es)⌝ ∗
       index_inv k j)%I
    (fun r => ⌜r = lookup_from Vbn 0 es⌝ ∗ mcb Mcb rs lost)%I.
Proof.
  intros Hok HV k i. iIntros "(%j & (-> & %Hf) & (-> & %Hj) & Hm)". unfold lookup_round.
  wp_call. iApply (get_next_spec with "Hm"); [done|lia|]. iIntros "Hm". rw Nat2Z.id.
  destruct (es !! j) as [[[v l] c]|] eqn:E.
  - pose proof (entries_ok 0 rs ltac:(done) Hok) as Hes. rewrite -> Forall_forall in Hes.
    destruct (Hes _ (list_elem_of_lookup_2 _ _ _ E)) as (Hv & Hc & Hvc & Hl). simpl in *.
    pose proof (lookup_lt_Some _ _ _ E) as Hlt.
    rw (s64_small (v + c)); [|lia]. rw (drop_entry _ _ _ _ E) /= in Hf.
    destruct (Z.ltb_spec Vbn (v + c)).
    + wp_ret. iFrame "Hm". iPureIntro. rw Hf. do 2 f_equal.
      * case_match; [done|]. by rw Z.add_comm s64_add_l Z.add_comm.
      * rw s64_small; lia.
    + wp_ret. iExists (length es - S j)%nat. iSplit; [iPureIntro; lia|]. iExists (S j).
      rw (fits_index rs j Hfit Hlt). iFrame "Hm". iPureIntro.
      split_and!; try done; try lia. rw Hf. f_equal. lia.
  - wp_ret. iFrame "Hm". iPureIntro. apply lookup_ge_None in E. rw Hf drop_ge //.
Qed.

Lemma lookup_spec Vbn Φ :
  runs_ok rs -> in64 Vbn ->
  mcb Mcb rs lost -∗ (mcb Mcb rs lost -∗ Φ (lookup_from Vbn 0 es)) -∗
  wp (FsRtlLookupBaseMcbEntry Mcb Vbn) Φ.
Proof.
  iIntros (Hok HV) "Hm HΦ". unfold FsRtlLookupBaseMcbEntry.
  iApply (wp_wand with "[Hm]").
  - iApply (wp_while _ _ _ (length es)); [by apply lookup_round_ok|..].
    + iIntros "(%j & _ & _ & Hm)". by iApply mcb_cells.
    + iExists 0%nat. iSplit; [done|]. iFrame "Hm". iPureIntro. lia.
  - iIntros (r) "[-> Hm]". by iApply "HΦ".
Qed.

Lemma count_round_ok :
  round_ok (count_round Mcb)
    (fun k s => ∃ j, ⌜s = (Z.of_nat j, Z.of_nat j)⌝ ∗ index_inv k j)%I
    (fun r => ⌜r = Z.of_nat (length es)⌝ ∗ mcb Mcb rs lost)%I.
Proof.
  intros k i. iIntros "(%j & -> & (-> & %Hj) & Hm)". unfold count_round. simpl.
  pose proof (entries_length 0 rs). unfold fits in Hfit.
  wp_call. rw (u32_small (Z.of_nat j)); [|lia]. iApply (get_next_spec with "Hm"); [done|lia|].
  iIntros "Hm". rw Nat2Z.id. destruct (es !! j) as [[[v l] c]|] eqn:E.
  - pose proof (lookup_lt_Some _ _ _ E) as Hlt. wp_ret.
    iExists (length es - S j)%nat. iSplit; [iPureIntro; lia|]. iExists (S j).
    rw (fits_index rs j Hfit Hlt) s32_small; [|lia]. iFrame "Hm". iPureIntro.
    split_and!; try done; try lia. f_equal. lia.
  - wp_ret. iFrame "Hm". iPureIntro. apply lookup_ge_None in E. lia.
Qed.

Lemma number_of_runs_spec Φ :
  mcb Mcb rs lost -∗ (mcb Mcb rs lost -∗ Φ (Z.of_nat (length es))) -∗
  wp (FsRtlNumberOfRunsInBaseMcb Mcb) Φ.
Proof.
  iIntros "Hm HΦ". unfold FsRtlNumberOfRunsInBaseMcb. iApply (wp_wand with "[Hm]").
  - iApply (wp_while _ _ _ (length es)); [by apply count_round_ok|..].
    + iIntros "(%j & _ & _ & Hm)". by iApply mcb_cells.
    + iExists 0%nat. iSplit; [done|]. iFrame "Hm". iPureIntro. lia.
  - iIntros (r) "[-> Hm]". by iApply "HΦ".
Qed.
End walks.

(** ** The last entry *)

Section last.
Context (Mcb pt Map : Z) (xs : list (Z * run)) (Hok : runs_ok xs.*2) (Hfit : fits xs.*2).

Abbreviation MC := (map_contract Mcb pt).

Definition found_run (xs1 : list (Z * run)) : Z :=
  match last xs1 with
  | Some (p, _) => UserData p
  | None => NULL
  end.

Definition last_inv (k : nat) (s : Z * Z * Z * Z) : hprop :=
  (∃ xs1 xs2 q, ⌜xs = xs1 ++ xs2 /\ k = length xs2 /\
       s = (q, found_run xs1, Z.of_nat (length (entries 0 xs1.*2)), end_from 0 xs1.*2)⌝ ∗
     cursor MC Map xs1 xs2 q)%I.

Lemma last_round_ok :
  round_ok (last_round Map) last_inv
    (fun r => ⌜r = (found_run xs, Z.of_nat (length (entries 0 xs.*2)))⌝ ∗ runs_at MC Map xs)%I.
Proof.
  intros k s. iIntros "(%xs1 & %xs2 & %q & (%Hxs & -> & ->) & Hc)". unfold last_round.
  destruct xs2 as [|[p r] xs2].
  - iDestruct (cursor_null with "Hc") as %->. wp_test. wp_ret. rw cursor_runs app_nil_r.
    rw app_nil_r in Hxs. subst xs1. by iFrame.
  - pose proof Hok as Hok'. rw Hxs table_runs_middle in Hok'.
    pose proof (end_from_bounds _ _ _ Hok') as Hb. apply runs_ok_middle in Hok' as (_ & Hr & _).
    pose proof (run_ok_fields r Hr) as Hr64.
    pose proof Hfit as Hf. rw /fits length_fmap in Hf.
    assert (2 * Z.of_nat (length xs) < 2 ^ 32) as Hfit' by lia.
    pose proof (index_bound xs Hfit' _ _ _ _ Hxs) as Hbound.
    iDestruct (cursor_run _ _ (map_accepts Mcb pt) with "Hc") as "(%Hq & Hr & Hc)"; [done|].
    iDestruct (run_at_fields with "Hr") as "(HS & HE & HL)".
    rw (proj2 (Z.eqb_neq q NULL) Hq). wp_load64. wp_load64.
    iDestruct ("Hc" $! r with "[HS HE HL]") as "Hc"; [iApply (run_at_close with "HS HE HL")|].
    iAssert ⌜q = UserData p⌝%I as %->; [by iApply cursor_pointer|].
    wp_call. iApply (cursor_next with "Hc"). iIntros (q') "Hc". wp_ret.
    iExists (length xs2). iSplit; [iPureIntro; simpl; lia|].
    iExists (xs1 ++ [(p, r)]), xs2, q'. iFrame "Hc". iPureIntro.
    split; [by rw -app_assoc|]. split; [done|].
    rw /found_run last_snoc. change ((xs1 ++ [(p, r)]).*2) with ((xs1 ++ (p, r) :: []).*2).
    rw table_runs_middle end_from_snoc entries_middle length_app /=.
    unfold hole_before in *. destruct (Z.ltb_spec (end_from 0 xs1.*2) (RunStartVbn r));
      rw length_app /= in Hbound *; rw !u32_small; try lia; repeat f_equal; lia.
Qed.
End last.

(** The last block, its logical block, and the index of the last entry. *)
Definition last_entry (rs : list run) : option (Z * Z * Z) :=
  match last rs with
  | Some r => Some (RunEndVbn r - 1, lbn_of r (RunEndVbn r - 1), Z.of_nat (length (entries 0 rs)) - 1)
  | None => None
  end.

Lemma lookup_last_spec Mcb rs lost Φ :
  fits rs -> mcb Mcb rs lost -∗ (mcb Mcb rs lost -∗ Φ (last_entry rs)) -∗
  wp (FsRtlLookupLastLargeMcbEntryAndIndex_internal Mcb) Φ.
Proof.
  iIntros (Hfit) "(%Hok & %Map & %pt & %mx & %xs & <- & HM & Hmx & HP & Ht) HΦ".
  unfold FsRtlLookupLastLargeMcbEntryAndIndex_internal. wp_load.
  wp_call. iApply (cursor_start with "Ht"). iIntros (q) "Hc". wp_call.
  iApply (wp_wand with "[Hc]").
  { iApply (wp_while _ _ _ (length xs)); [by apply last_round_ok|..].
    - iIntros "(%xs1 & %xs2 & %q' & (_ & -> & _) & Hc)". rw cursor_runs runs_at_cells.
      iApply (cells_le with "Hc"). rw length_app. lia.
    - iExists [], xs, q. by iFrame. }
  iIntros (r) "[-> Ht]". simpl. unfold last_entry, found_run.
  assert (xs = [] \/ exists xs' p r, xs = xs' ++ [(p, r)]) as [->|(xs' & p & r & ->)].
  { destruct xs as [|[p r] xs' _] using rev_ind; [by left|right]. by exists xs', p, r. }
  - wp_test. wp_ret. iApply "HΦ". iSplit; [done|]. iExists Map, pt, mx, []. by iFrame.
  - rw last_snoc. iDestruct (runs_at_positive with "Ht") as %Hp.
    change ((xs' ++ [(p, r)]).*2) with ((xs' ++ (p, r) :: []).*2) in *.
    rw (proj2 (Z.eqb_neq (UserData p) NULL)); [|unfold UserData, NULL; lia].
    pose proof Hok as Hok'. rw table_runs_middle in Hok'. apply runs_ok_middle in Hok' as (_ & Hr & _).
    pose proof (run_ok_fields r Hr) as Hr64.
    iDestruct (change_run with "Ht") as "[Hr Ht]"; [by intros r' Hr'; exists r'|done|].
    iDestruct (run_at_fields with "Hr") as "(HS & HE & HL)". wp_run64. wp_ret.
    iDestruct ("Ht" $! r with "[HS HE HL]") as "Ht"; [iApply (run_at_close with "HS HE HL")|].
    pose proof (entries_length 0 (xs' ++ (p, r) :: []).*2) as Hl. rw /fits in Hfit.
    assert (last (xs' ++ (p, r) :: []).*2 = Some r) as -> by by rw table_runs_middle last_snoc.
    unfold run_ok in Hr. rw (s64_small (RunEndVbn r - RunStartVbn r)); [|lia].
    rw (s64_small (RunEndVbn r - 1)); [|lia]. rw -(Z.add_opp_r (s64 _) 1) s64_add_l (u32_small (_ - 1)); last first.
    { rw !length_fmap length_app /= in Hl Hfit. lia. }
    replace (StartingLbn r + (RunEndVbn r - RunStartVbn r) + - (1))
      with (StartingLbn r + (RunEndVbn r - 1 - RunStartVbn r)) by lia.
    iApply "HΦ". iSplit; [done|]. iExists Map, pt, mx, _. by iFrame.
Qed.

(** ** What a lookup means *)

(** The lookup of [Vbn] returned [r]: behind the last run it fails, and else it returns the
    logical block, -1 in a hole, and how many blocks from there on are mapped alike. *)
Definition lookup_means (rs : list run) (Vbn : Z) (r : option lookup_result64) : Prop :=
  match r with
  | None => forall v, Vbn <= v -> mapped rs v = None
  | Some o =>
      Lbn o = default (-1) (mapped rs Vbn) /\ 0 < SectorCountFromLbn o /\
      (forall j, 0 <= j < SectorCountFromLbn o ->
         mapped rs (Vbn + j) = (fun l => s64 (l + j)) <$> mapped rs Vbn) /\
      (mapped rs Vbn = None -> mapped rs (Vbn + SectorCountFromLbn o) <> None)
  end.

Lemma mapped_before rs v : Forall (fun r => v < RunStartVbn r) rs -> mapped rs v = None.
Proof. intros H. apply mapped_none. eapply Forall_impl; [exact H|]. intros r. simpl. blocks. Qed.

Lemma lookup_hole r rs Vbn last i :
  runs_ok (r :: rs) -> 0 <= last -> last <= Vbn < RunStartVbn r ->
  lookup_means (r :: rs) Vbn (lookup_from Vbn i [(last, -1, RunStartVbn r - last)]).
Proof.
  intros Hok Hl HV. apply (runs_ok_middle [] r rs) in Hok as ([Hok _] & Hr & _ & Hb). simpl in Hok.
  replace (last + (RunStartVbn r - last)) with (RunStartVbn r) by lia.
  assert (forall v, v < RunStartVbn r -> mapped (r :: rs) v = None) as Hn.
  { intros v Hv. apply mapped_before. constructor; [done|]. eapply Forall_impl; [exact Hb|].
    unfold run_ok, behind in *. intros a Ha. simpl in *. lia. }
  simpl lookup_from. replace (last + (RunStartVbn r - last)) with (RunStartVbn r) by lia.
  rw (proj2 (Z.ltb_lt Vbn (RunStartVbn r))); [|lia].
  unfold run_ok in Hr. cbn [lookup_means Lbn SectorCountFromLbn].
  rw s64_small; [|lia]. rw (Hn Vbn); [|lia]. split_and!; [done|lia|..].
  - intros j Hj. rw Hn; [done|lia].
  - intros _. replace (Vbn + (RunStartVbn r - Vbn)) with (RunStartVbn r) by lia. simpl.
    assert (inside r (RunStartVbn r) = true) as -> by blocks. done.
Qed.

Lemma lookup_in_run r rs Vbn i es :
  run_ok r -> StartingLbn r <> -1 -> inside r Vbn = true ->
  lookup_means (r :: rs) Vbn (lookup_from Vbn i (entry_of r :: es)).
Proof.
  intros Hr Hl Hv. assert (RunStartVbn r <= Vbn < RunEndVbn r) as HV by (clear - Hv; blocks).
  unfold entry_of. simpl lookup_from.
  replace (RunStartVbn r + (RunEndVbn r - RunStartVbn r)) with (RunEndVbn r) by lia.
  rw (proj2 (Z.ltb_lt Vbn (RunEndVbn r))); [|lia]. rw (proj2 (Z.eqb_neq _ _) Hl).
  unfold run_ok in Hr. cbn [lookup_means Lbn SectorCountFromLbn mapped]. rw Hv.
  rw (s64_small (RunEndVbn r - Vbn)); [|lia]. split_and!; [done|lia| |done].
  intros j Hj. assert (inside r (Vbn + j) = true) as -> by (clear - HV Hj; blocks).
  simpl. unfold lbn_of. rw s64_add_l. do 2 f_equal. lia.
Qed.

(** A run before the block does not matter. *)
Lemma lookup_means_cons r rs Vbn res :
  RunEndVbn r <= Vbn -> lookup_means rs Vbn res -> lookup_means (r :: rs) Vbn res.
Proof.
  intros Hr. assert (forall v, Vbn <= v -> mapped (r :: rs) v = mapped rs v) as Hm.
  { intros v Hv. simpl. assert (inside r v = false) as -> by blocks. done. }
  destruct res as [o|]; cbn [lookup_means]; [|intros H v Hv; rw Hm; auto].
  intros (H1 & H2 & H3 & H4). rw (Hm Vbn); [|lia]. split_and!; [done|done|..].
  - intros j Hj. rw Hm; [auto|lia].
  - intros H. rw Hm; [auto|lia].
Qed.

Lemma lookup_entries rs Vbn last i :
  runs_ok rs -> Forall (fun r => StartingLbn r <> -1) rs -> 0 <= last <= Vbn ->
  Forall (fun r => last <= RunStartVbn r) rs ->
  lookup_means rs Vbn (lookup_from Vbn i (entries last rs)).
Proof.
  revert last i. induction rs as [|r rs IH]; intros last i Hok Hl HV Hb; [done|].
  pose proof Hok as (Hok' & Hr & _ & Hb')%(runs_ok_middle [] r rs).
  apply Forall_cons in Hl as [Hl Hls]. apply Forall_cons in Hb as [Hb _].
  change (entries last (r :: rs)) with (entries last ([r] ++ rs)). rw entries_app. simpl end_from.
  assert (forall i, RunStartVbn r <= Vbn ->
    lookup_means (r :: rs) Vbn (lookup_from Vbn i (entry_of r :: entries (RunEndVbn r) rs))) as Hrun.
  { intros i' Hs. destruct (inside r Vbn) eqn:E; [by apply lookup_in_run|].
    assert (RunEndVbn r <= Vbn) as He by (clear - E Hs; blocks).
    unfold entry_of. simpl lookup_from.
    replace (RunStartVbn r + (RunEndVbn r - RunStartVbn r)) with (RunEndVbn r) by lia.
    rw (proj2 (Z.ltb_ge Vbn (RunEndVbn r))); [|lia]. apply lookup_means_cons; [done|].
    apply IH; [done|done|unfold run_ok in Hr; lia|done]. }
  simpl entries. destruct (Z.ltb_spec last (RunStartVbn r)); [|apply Hrun; lia].
  destruct (Z.lt_ge_cases Vbn (RunStartVbn r)) as [HVr|HVr].
  - pose proof (lookup_hole r rs Vbn last i Hok) as Hh. simpl lookup_from in Hh |- *.
    replace (last + (RunStartVbn r - last)) with (RunStartVbn r) in Hh |- * by lia.
    rw (proj2 (Z.ltb_lt Vbn (RunStartVbn r))) in Hh |- *; [|lia]. apply Hh; lia.
  - simpl app. simpl lookup_from. replace (last + (RunStartVbn r - last)) with (RunStartVbn r) by lia.
    rw (proj2 (Z.ltb_ge Vbn (RunStartVbn r))); [|lia]. by apply Hrun.
Qed.

(** The entries of the runs, from block zero on. *)
Lemma lookup_from_means rs Vbn :
  runs_ok rs -> Forall (fun r => StartingLbn r <> -1) rs -> 0 <= Vbn ->
  lookup_means rs Vbn (lookup_from Vbn 0 (entries 0 rs)).
Proof.
  intros Hok Hl HV. apply lookup_entries; [done|done|lia|]. destruct Hok as [Hok _].
  eapply Forall_impl; [exact Hok|]. unfold run_ok. simpl. lia.
Qed.
