(* ===== verification/McbAdd.v ===== *)
(** * Mapping control blocks: addition

    [FsRtlAddBaseMcbEntry] empties the range, joins the new run to its neighbours and inserts
    it. *)

From Stdlib Require Import ZArith Lia.
From S2P Require Import Prelude.
From stdpp Require Import gmap.
From iris.proofmode Require Import proofmode.
From S2P Require Import HeapLogic LinkTree TableCommon GenericTable GenericTableWalk.
From S2P Require Import McbRuns Heap64 FsRtlMcb McbTable McbRemove McbWalk.

#[local] Open Scope Z_scope.

Section add.
Context (ex : pool) (mm : manager) `{!PoolRoutines ex mm} (dbg : bool) (Mcb pt uninit Map sp lost : Z).
Context (j : nat) (l : Z).
Implicit Types (xs : list (Z * run)).

Abbreviation MC := (map_contract Mcb pt).
Abbreviation IC := (intersect_contract Mcb pt).

(** The table under one of the two orders, the count of the runs, and the blocks in use. *)
Definition runs_any xs : hprop :=
  ((∃ f o, runs_at (mcb_contract f o Mcb pt) Map xs) ∗
   PairCount Mcb ↦ u32 (Z.of_nat (length xs) + lost) ∗ stocked mm j l xs)%I.

(** A run that meets another at its end ends there with it. *)
Lemma joins_unique rs a b k : runs_ok rs -> a ∈ rs -> b ∈ rs -> joins a k -> joins b k -> a = b.
Proof.
  intros Hok Ha (rs1 & rs2 & ->)%list_elem_of_split Hja Hjb.
  apply runs_ok_middle in Hok as (Hok & Hb & H1 & H2).
  rewrite -> Forall_forall in H1, H2. unfold joins, behind, run_ok in *.
  apply elem_of_app in Ha as [Ha|[->|Ha]%elem_of_cons]; [|done|].
  - specialize (H1 a Ha). lia.
  - specialize (H2 a Ha). destruct Hok as [Hok _]. rewrite -> Forall_app, !Forall_forall in Hok.
    destruct Hok as [_ Hok]. specialize (Hok a Ha). unfold run_ok in Hok. lia.
Qed.

Lemma joined_unique rs k a b : runs_ok rs -> a ∈ rs -> b ∈ rs -> joins k a -> joins k b -> a = b.
Proof.
  intros Hok Ha (rs1 & rs2 & ->)%list_elem_of_split Hja Hjb.
  apply runs_ok_middle in Hok as (Hok & Hb & H1 & H2).
  rewrite -> Forall_forall in H1, H2. unfold joins, behind, run_ok in *.
  apply elem_of_app in Ha as [Ha|[->|Ha]%elem_of_cons]; [|done|].
  - specialize (H1 a Ha). destruct Hok as [Hok _]. rewrite -> Forall_app, !Forall_forall in Hok.
    destruct Hok as [Hok _]. specialize (Hok a Ha). unfold run_ok in Hok. lia.
  - specialize (H2 a Ha). lia.
Qed.

(** A run apart from [k] that has the block before [k] meets it. *)
Lemma before_joins k a :
  run_ok k -> run_ok a -> apart k a ->
  intersects (MkRun (RunStartVbn k - 1) (RunStartVbn k) (-1)) a = true <-> joins a k.
Proof.
  intros Hk Ha Hap. unfold intersects, joins, apart, behind in *.
  pose proof (intersect_order_spec (MkRun (RunStartVbn k - 1) (RunStartVbn k) (-1)) a) as H.
  unfold run_ok in *. simpl in H. specialize (H ltac:(lia) ltac:(lia)). unfold behind in H. simpl in H.
  destruct (intersect_order _ a); split; intros; try done; lia.
Qed.

Lemma behind_joins k b x :
  run_ok k -> run_ok b -> apart k b ->
  intersects (MkRun (RunEndVbn k) (RunEndVbn k + 1) x) b = true <-> joins k b.
Proof.
  intros Hk Ha Hap. unfold intersects, joins, apart, behind in *.
  pose proof (intersect_order_spec (MkRun (RunEndVbn k) (RunEndVbn k + 1) x) b) as H.
  unfold run_ok in *. simpl in H. specialize (H ltac:(lia) ltac:(lia)). unfold behind in H. simpl in H.
  destruct (intersect_order _ b); split; intros; try done; lia.
Qed.

Lemma pending_member k xs xs1 p a xs2 :
  pending k xs.*2 -> xs = xs1 ++ (p, a) :: xs2 -> run_ok a /\ apart k a /\ fields64 a.
Proof.
  intros (Hk & Hok & Hap) ->. rw table_runs_middle in Hok Hap.
  apply runs_ok_middle in Hok as (_ & Ha & _). rw Forall_app Forall_cons in Hap.
  split; [done|]. split; [apply Hap|]. by apply run_ok_fields.
Qed.

(** No run meets [k] when none has the block before it. *)
Lemma no_lower k xs :
  pending k xs.*2 ->
  Forall (fun r => intersects (MkRun (RunStartVbn k - 1) (RunStartVbn k) (-1)) r = false) xs.*2 ->
  forall a, a ∈ xs.*2 -> ~ joins a k.
Proof.
  intros (Hk & Hok & Hap) Hno a Ha Hj. rewrite -> Forall_forall in Hno, Hap.
  specialize (Hno a Ha). apply before_joins in Hj; [congruence|done|by eapply runs_ok_in|by apply Hap].
Qed.

Lemma no_higher k x xs :
  pending k xs.*2 ->
  Forall (fun r => intersects (MkRun (RunEndVbn k) (RunEndVbn k + 1) x) r = false) xs.*2 ->
  forall b, b ∈ xs.*2 -> ~ joins k b.
Proof.
  intros (Hk & Hok & Hap) Hno b Hb Hj. rewrite -> Forall_forall in Hno, Hap.
  specialize (Hno b Hb).
  apply (behind_joins k b x) in Hj; [congruence|done|by eapply runs_ok_in|by apply Hap].
Qed.

Lemma merge_lower_spec k xs Φ :
  pending k xs.*2 ->
  runs_any xs -∗ run_at (pNode sp) k -∗ free_run (pAddNeedleRun sp) -∗
  (∀ k' xs', ⌜lower_step k xs.*2 k' xs'.*2⌝ -∗ runs_any xs' -∗ run_at (pNode sp) k' -∗
     (∃ n, run_at (pAddNeedleRun sp) n) -∗ Φ tt) -∗
  wp (merge_lower ex dbg uninit Mcb Map sp) Φ.
Proof.
  iIntros (Hp) "((%f & %o & Ht) & HP & Hst) Hk Hneedle HΦ". unfold merge_lower.
  pose proof Hp as (Hk & Hok & Hap). pose proof (run_ok_fields k Hk) as Hk64. pose proof Hk as Hk'.
  unfold run_ok in Hk'.
  iDestruct (run_at_fields with "Hk") as "(KS & KE & KL)". wp_load64.
  rw (s64_small (RunStartVbn k - 1)); [|lia]. rw s64_small; [|lia].
  replace (RunStartVbn k - 1 + 1) with (RunStartVbn k) by lia.
  wp_call. iApply (store_run_spec with "Hneedle"); [unfold fields64, in64; simpl; lia|].
  iIntros "Hneedle". wp_call. iApply (set_compare_spec with "Ht"). iIntros "Ht".
  wp_call. iApply (lookup_run_spec with "Ht Hneedle"); [done|simpl; lia|].
  iIntros (q [[-> Hno]|(xs1 & p & a & xs2 & Hxs & Hi & Hpos & ->)]) "Ht Hneedle".
  - wp_test. wp_ret. iApply ("HΦ" $! k xs with "[%] [Ht HP Hst] [KS KE KL] [Hneedle]").
    + right. split; [|done]. intros a Ha [Hj _]. by apply (no_lower k xs Hp Hno a).
    + iFrame "HP Hst". by iExists _, _.
    + iApply (run_at_close with "KS KE KL").
    + by iExists _.
  - destruct (pending_member _ _ _ _ _ _ Hp Hxs) as (Ha & Hapa & Ha64).
    apply before_joins in Hi; [|done..]. unfold run_ok in Ha.
    rw (proj2 (Z.eqb_neq (UserData p) NULL)); [|unfold UserData, NULL; lia].
    iEval (rw Hxs) in "Ht". iDestruct (change_run with "Ht") as "[Ha Ht]"; [by intros r Hr; exists r|done|].
    iDestruct (run_at_fields with "Ha") as "(AS & AE & AL)".
    wp_load64. wp_load64. wp_load64. wp_load64.
    rw (s64_small (RunEndVbn a - RunStartVbn a)); [|lia].
    destruct (Z.eqb_spec (s64 (StartingLbn a + (RunEndVbn a - RunStartVbn a))) (StartingLbn k))
      as [Hc|Hc].
    + wp_call. iApply (assert_loads64 dbg _ _ _ _ Z.eqb with "AE KS").
      { intros _. by apply Z.eqb_eq. }
      iIntros "AE KS".
      iDestruct ("Ht" $! a with "[AS AE AL]") as "Ht"; [iApply (run_at_close with "AS AE AL")|].
      destruct Ha64 as (HaS & HaE & HaL). wp_store64. wp_store64.
      wp_call. iApply (set_compare_spec with "Ht"). iIntros "Ht".
      wp_call. iApply (delete_run_at_spec with "Ht [Hst]"); [by rw -Hxs|by rw -Hxs|]. iIntros "Ht Hst".
      iApply (add_pairs_spec with "HP"). iIntros "HP".
      iApply ("HΦ" $! (join a k) (xs1 ++ xs2) with "[%] [Ht HP Hst] [KS KE KL] [Hneedle]").
      * left. exists xs1.*2, a, xs2.*2. by rw Hxs table_runs_middle fmap_app.
      * iSplitL "Ht"; [by iExists _, _|]. iFrame "Hst". rw Hxs !length_app /=.
        replace (Z.of_nat (_ + S _) + lost + -1) with (Z.of_nat (length xs1 + length xs2) + lost) by lia.
        done.
      * iApply (run_at_close _ (join a k) with "KS KE KL").
      * by iExists _.
    + iDestruct ("Ht" $! a with "[AS AE AL]") as "Ht"; [iApply (run_at_close with "AS AE AL")|].
      wp_ret. iApply ("HΦ" $! k xs with "[%] [Ht HP Hst] [KS KE KL] [Hneedle]").
      * right. split; [|done]. intros b Hb [Hjb Hcb]. apply Hc.
        assert (a ∈ xs.*2) as Hin by (rw Hxs table_runs_middle; apply elem_of_app; right; left).
        by rw (joins_unique _ a b k Hok Hin Hb Hi Hjb).
      * rw -Hxs. iFrame "HP Hst". by iExists _, _.
      * iApply (run_at_close with "KS KE KL").
      * by iExists _.
Qed.

Lemma merge_higher_spec k xs Φ :
  pending k xs.*2 -> RunEndVbn k + 1 < 2 ^ 63 ->
  runs_any xs -∗ run_at (pNode sp) k -∗ (∃ n, run_at (pAddNeedleRun sp) n) -∗
  (∀ k' xs', ⌜higher_step k xs.*2 k' xs'.*2⌝ -∗ runs_any xs' -∗ run_at (pNode sp) k' -∗
     free_run (pAddNeedleRun sp) -∗ Φ tt) -∗
  wp (merge_higher ex dbg uninit Mcb Map sp) Φ.
Proof.
  iIntros (Hp Hend) "((%f & %o & Ht) & HP & Hst) Hk [%n Hneedle] HΦ". unfold merge_higher.
  pose proof Hp as (Hk & Hok & Hap). pose proof (run_ok_fields k Hk) as Hk64. pose proof Hk as Hk'.
  unfold run_ok in Hk'. iDestruct (run_at_open with "Hneedle") as "[%Hn Hneedle]".
  iDestruct (run_at_bytes with "Hneedle") as "Hneedle"; [done|].
  iDestruct (run_at_fields with "Hneedle") as "(NS & NE & NL)".
  iDestruct (run_at_fields with "Hk") as "(KS & KE & KL)".
  wp_load64. rw s64_small; [|lia]. destruct Hk64 as (HkS & HkE & HkL).
  assert (in64 (RunEndVbn k + 1)) as Hk1 by (unfold in64; lia). wp_store64. wp_store64.
  iDestruct (run_at_close _ (MkRun (RunEndVbn k) (RunEndVbn k + 1) (StartingLbn n))
    with "NS NE NL") as "Hneedle".
  wp_call. iApply (set_compare_spec with "Ht"). iIntros "Ht".
  wp_call. iApply (lookup_run_spec with "Ht Hneedle"); [done|simpl; lia|].
  iIntros (q [[-> Hno]|(xs1 & p & b & xs2 & Hxs & Hi & Hpos & ->)]) "Ht Hneedle";
    iDestruct (run_at_free with "Hneedle") as "Hneedle".
  - wp_test. wp_ret. iApply ("HΦ" $! k xs with "[%] [Ht HP Hst] [KS KE KL] Hneedle").
    + right. split; [|done]. intros b Hb Hj. exfalso. by apply (no_higher k _ xs Hp Hno b).
    + iFrame "HP Hst". by iExists _, _.
    + iApply (run_at_close with "KS KE KL").
  - destruct (pending_member _ _ _ _ _ _ Hp Hxs) as (Hb & Hapb & Hb64).
    apply behind_joins in Hi; [|done..]. unfold run_ok in Hb.
    rw (proj2 (Z.eqb_neq (UserData p) NULL)); [|unfold UserData, NULL; lia].
    iEval (rw Hxs) in "Ht". iDestruct (change_run with "Ht") as "[Hb Ht]"; [by intros r Hr; exists r|done|].
    iDestruct (run_at_fields with "Hb") as "(BS & BE & BL)". wp_load64. wp_load64.
    destruct (Z.leb_spec (StartingLbn k) (StartingLbn b)) as [Hle|Hgt].
    + wp_call. iApply (assert_loads64 dbg _ _ _ _ Z.eqb with "BS KE").
      { intros _. by apply Z.eqb_eq. }
      iIntros "BS KE".
      wp_load64. iDestruct ("Ht" $! b with "[BS BE BL]") as "Ht"; [iApply (run_at_close with "BS BE BL")|].
      destruct Hb64 as (HbS & HbE & HbL). wp_store64.
      wp_call. iApply (set_compare_spec with "Ht"). iIntros "Ht".
      wp_call. iApply (delete_run_at_spec with "Ht [Hst]"); [by rw -Hxs|by rw -Hxs|]. iIntros "Ht Hst".
      iApply (add_pairs_spec with "HP"). iIntros "HP".
      iApply ("HΦ" $! (join k b) (xs1 ++ xs2) with "[%] [Ht HP Hst] [KS KE KL] Hneedle").
      * left. exists xs1.*2, b, xs2.*2. by rw Hxs table_runs_middle fmap_app.
      * iSplitL "Ht"; [by iExists _, _|]. iFrame "Hst". rw Hxs !length_app /=.
        replace (Z.of_nat (_ + S _) + lost + -1) with (Z.of_nat (length xs1 + length xs2) + lost) by lia.
        done.
      * iApply (run_at_close _ (join k b) with "KS KE KL").
    + wp_ret. iDestruct ("Ht" $! b with "[BS BE BL]") as "Ht"; [iApply (run_at_close with "BS BE BL")|].
      iApply ("HΦ" $! k xs with "[%] [Ht HP Hst] [KS KE KL] Hneedle").
      * right. split; [|done]. intros b' Hb' Hj'.
        assert (b ∈ xs.*2) as Hin by (rw Hxs table_runs_middle; apply elem_of_app; right; left).
        by rw (joined_unique _ k b' b Hok Hb' Hin Hj' Hi).
      * rw -Hxs. iFrame "HP Hst". by iExists _, _.
      * iApply (run_at_close with "KS KE KL").
Qed.
End add.

(** ** The function *)

(** The memory of the function's frame. *)
Definition add_frame (sp : Z) : hprop :=
  (free_run (pNode sp) ∗ free_run (pAddNeedleRun sp) ∗ variable (pAddNewElement sp) ∗
   remove_frame (callee_frame sp))%I.

(** What an addition that is not refused does: the range is emptied, then there is a request
    for the run, and it is added if the request is granted. *)
Definition add_outcome (gr : nat -> bool) (n : run) (rs : list run) (lost : Z) (j : nat)
    (rs' : list run) (lost' : Z) (j' : nat) : Prop :=
  exists base lost1 j1,
    remove_result gr (MkRun (RunStartVbn n) (RunEndVbn n) (-1)) rs lost j base lost1 j1 /\
    add_result n base rs' (gr j1) /\ lost' = lost1 + (if gr j1 then 0 else 1) /\ j' = S j1.

Section addition.
Context (ex : pool) (mm : manager) `{!PoolRoutines ex mm} (dbg : bool) (Hdbg : reliable dbg mm).
Context (uninit : Z).

Lemma removed_pending gr n rs base lost lost1 j j1 :
  run_ok n -> runs_ok rs ->
  remove_result gr (MkRun (RunStartVbn n) (RunEndVbn n) (-1)) rs lost j base lost1 j1 -> pending n base.
Proof.
  intros Hn Hrs. destruct n as [s e l]. intros [->|Ht]%remove_result_cases.
  - rw (cut_range s e (-1) l). by apply pending_cut.
  - by eapply pending_tail_lost.
Qed.

Lemma add_node_spec sp Mcb rs lost j l Vbn L N Φ :
  0 <= Vbn -> 0 < N -> Vbn + N + 1 < 2 ^ 63 -> in64 L ->
  mcb Mcb rs lost -∗ add_frame sp -∗ stocked mm j l rs -∗
  (∀ rs' lost' j', ⌜add_outcome (grants mm) (MkRun Vbn (Vbn + N) L) rs lost j rs' lost' j'⌝ -∗
     mcb Mcb rs' lost' -∗ add_frame sp -∗ stocked mm j' l rs' -∗ Φ true) -∗
  wp (add_node ex dbg uninit sp Mcb Vbn L N) Φ.
Proof.
  iIntros (HV HN Hend HL) "Hm (Hnode & Hneedle & Hnew & Hf) Hst HΦ". unfold add_node.
  iAssert ⌜runs_ok rs⌝%I as %Hrs. { by iDestruct "Hm" as "[$ _]". }
  iDestruct (variable_opt with "Hnew") as "(%v & %Hnn & Hnew)".
  wp_call. iApply (remove_mcb_spec with "Hm Hf Hst"); [done|done|done|lia|].
  iIntros (base lost1 j1 Hrm) "(%Hok & %Map & %pt & %mx & %xs & <- & HM & Hmx & HP & Ht) Hf Hst".
  set (n := MkRun Vbn (Vbn + N) L). assert (run_ok n) as Hn.
  { unfold run_ok. simpl. split_and!; [lia|lia|lia|exact HL]. }
  pose proof (removed_pending _ n rs _ _ _ _ _ Hn Hrs Hrm) as Hp.
  rw s64_small; [|lia]. wp_call. iApply (store_run_spec with "Hnode"); [by apply run_ok_fields|].
  iIntros "Hnode". wp_load. wp_call.
  iApply (merge_lower_spec ex mm dbg Mcb pt uninit Map sp lost1 j1 l with "[Ht HP Hst] Hnode Hneedle"); [done|..].
  { rw length_fmap (stocked_length _ _ _ _ xs) ?length_fmap //. iFrame "HP Hst". by iExists _, _. }
  iIntros (k1 xs1 Hl) "Ht Hnode Hneedle". pose proof (pending_lower _ _ _ _ Hp Hl) as Hp1.
  destruct (lower_end _ _ _ _ Hl) as [He _]. wp_call.
  iApply (merge_higher_spec with "Ht Hnode Hneedle"); [done|by rw He|].
  iIntros (k2 xs2 Hh) "((%f & %o & Ht) & HP & Hst) Hnode Hneedle".
  pose proof (pending_higher _ _ _ _ Hp1 Hh) as (Hk2 & Hok2 & Hap2).
  wp_call. iApply (set_compare_spec with "Ht"). iIntros "Ht".
  wp_call. iApply (insert_run_at_spec with "Ht Hnode Hnew Hst"); [done..|].
  iIntros (q ys Hins) "Hnode Hnew Ht Hst". wp_call. iApply (add_pairs_spec with "HP"). iIntros "HP".
  iDestruct (opt_variable with "Hnew") as "Hnew"; [done|].
  wp_call. iApply (assert_new with "Hnew"); [done|]. iIntros "Hnew". wp_ret.
  iDestruct (run_at_free with "Hnode") as "Hnode".
  iAssert (add_frame sp) with "[$Hnode $Hneedle $Hf Hnew]" as "Hf"; [iSplit; [done|by iExists _]|].
  iApply ("HΦ" $! ys.*2 _ (S j1) with "[%] [HM Hmx HP Ht] Hf [Hst]").
  - exists xs.*2, lost1, j1. split_and!; [done| |done|done]. exists k1, xs1.*2, k2, xs2.*2.
    split_and!; [done|done|by eapply inserted_ok|]. by apply inserted_runs.
  - iSplit; [iPureIntro; by eapply inserted_ok|]. iExists Map, pt, mx, ys. iFrame "HM Hmx Ht". iSplit; [done|].
    rw length_fmap (inserted_length _ _ _ _ Hins).
    replace (Z.of_nat (_ + _) + (lost1 + _)) with (Z.of_nat (length xs2) + lost1 + 1)
      by (destruct (grants mm j1); lia). done.
  - iApply (stocked_length with "Hst"). by rw length_fmap.
Qed.

(** The tests before an addition, by what the lookup of the first block returns. *)
Definition add_refused (rs : list run) (Vbn L : Z) : bool :=
  match lookup_from Vbn 0 (entries 0 rs) with
  | Some o => negb (Lbn o =? -1) && negb (Lbn o =? L)
  | None => false
  end.

Definition add_known (rs : list run) (Vbn N : Z) : bool :=
  match lookup_from Vbn 0 (entries 0 rs) with
  | Some o => negb (Lbn o =? -1) && (N <=? SectorCountFromLbn o)
  | None => false
  end.

Lemma add_spec sp Mcb rs lost j l Vbn L N Φ :
  fits rs -> 0 <= Vbn -> 0 < N -> Vbn + N + 1 < 2 ^ 63 -> in64 L ->
  mcb Mcb rs lost -∗ add_frame sp -∗ stocked mm j l rs -∗
  (∀ b rs' lost' j', ⌜if add_refused rs Vbn L then b = false /\ rs' = rs /\ lost' = lost /\ j' = j
        else b = true /\ if add_known rs Vbn N then rs' = rs /\ lost' = lost /\ j' = j
        else add_outcome (grants mm) (MkRun Vbn (Vbn + N) L) rs lost j rs' lost' j'⌝ -∗
     mcb Mcb rs' lost' -∗ add_frame sp -∗ stocked mm j' l rs' -∗ Φ b) -∗
  wp (FsRtlAddBaseMcbEntry ex dbg uninit sp Mcb Vbn L N) Φ.
Proof.
  iIntros (Hfit HV HN Hend HL) "Hm Hf Hst HΦ". unfold FsRtlAddBaseMcbEntry.
  iAssert ⌜runs_ok rs⌝%I as %Hrs. { by iDestruct "Hm" as "[$ _]". }
  rw (proj2 (Z.ltb_ge Vbn 0)); [|lia]. rw (proj2 (Z.leb_gt N 0)); [|lia].
  wp_call. iApply (lookup_spec with "Hm"); [done|done|unfold in64; lia|]. iIntros "Hm".
  unfold add_refused, add_known. destruct (lookup_from Vbn 0 (entries 0 rs)) as [o|].
  - destruct (negb (Lbn o =? -1) && negb (Lbn o =? L)).
    { wp_ret. by iApply ("HΦ" $! false rs lost j with "[//] Hm Hf Hst"). }
    destruct (negb (Lbn o =? -1) && (N <=? SectorCountFromLbn o)).
    { wp_ret. by iApply ("HΦ" $! true rs lost j with "[//] Hm Hf Hst"). }
    iApply (add_node_spec with "Hm Hf Hst"); [done..|]. iIntros (rs' lost' j' Ho) "Hm Hf Hst".
    by iApply ("HΦ" $! true rs' lost' j' with "[//] Hm Hf Hst").
  - iApply (add_node_spec with "Hm Hf Hst"); [done..|]. iIntros (rs' lost' j' Ho) "Hm Hf Hst".
    by iApply ("HΦ" $! true rs' lost' j' with "[//] Hm Hf Hst").
Qed.

Lemma add_invalid_spec sp Mcb Vbn L N Φ :
  Vbn < 0 \/ N <= 0 -> Φ false ⊢ wp (FsRtlAddBaseMcbEntry ex dbg uninit sp Mcb Vbn L N) Φ.
Proof.
  iIntros (H) "HΦ". unfold FsRtlAddBaseMcbEntry.
  destruct (Z.ltb_spec Vbn 0), (Z.leb_spec N 0); simpl; first [wp_ret; done | lia].
Qed.
End addition.
