(* ===== verification/McbState.v ===== *)
(** * Mapping control blocks: initialization, reset, split and truncation *)

From Stdlib Require Import ZArith Lia.
From S2P Require Import Prelude.
From stdpp Require Import gmap.
From iris.proofmode Require Import proofmode.
From S2P Require Import HeapLogic LinkTree ListEntry TableCommon GenericTable GenericTableWalk.
From S2P Require Import GenericTableShare McbRuns Heap64 FsRtlMcb McbTable McbRemove McbWalk.

#[local] Open Scope Z_scope.

(** ** Initialization *)

(** The memory of a [BASE_MCB]; the field [Flags] is not used. *)
Definition mcb_memory (Mcb : Z) : hprop :=
  ((∃ v, MaximumPairCount Mcb ↦ v) ∗ (∃ v, PairCount Mcb ↦ v) ∗ (∃ v, PoolType Mcb ↦ v) ∗
   (∃ v, Mapping Mcb ↦ v))%I.

Section state.
Context (ex : pool) (mm : manager) `{!PoolRoutines ex mm} (dbg : bool) (Hdbg : reliable dbg mm).
Context (uninit : Z).

Lemma initialize_mcb_spec Mcb pt j m Φ :
  mcb_memory Mcb -∗ supply mm j m -∗
  ((if grants mm j then mcb Mcb [] 0 ∗ supply mm (S j) (m + 1)
    else mcb_memory Mcb ∗ supply mm (S j) m) -∗ Φ (grants mm j)) -∗
  wp (FsRtlInitializeBaseMcb ex Mcb pt) Φ.
Proof.
  iIntros "Hm Hs HΦ". unfold FsRtlInitializeBaseMcb.
  iAssert (wp (if pt =? PagedPool then ExAllocateFromPagedLookasideList ex
               else AllocatePoolOrRaise ex pt mapping_size TAG_CBSF)
             (reply mm j m (some_memory table_memory) None)) with "[Hs]" as "Ha".
  { case_match; [iApply (mapping_paged_spec with "Hs")|iApply (mapping_pool_spec with "Hs")];
      by iIntros (r) "Hr". }
  wp_call. iApply (wp_wand with "Ha"). iIntros (r) "Hr". unfold reply.
  destruct (grants mm j); [iDestruct "Hr" as "[(%p & -> & Hp) Hs]"|iDestruct "Hr" as "[-> Hs]"].
  - iDestruct "Hm" as "([% H1] & [% H2] & [% H3] & [% H4])". wp_run.
    wp_call. iApply (initialize_spec (map_contract Mcb (u16 pt)) with "Hp [H3]").
    { iIntros "Hc". iFrame. }
    iIntros "Ht". wp_ret. iApply "HΦ". iFrame "Hs". iSplit; [iPureIntro; split; constructor|].
    iExists p, (u16 pt), MAXIMUM_PAIR_COUNT, []. iFrame "H1 H4 H2". iSplit; [done|]. by iExists [].
  - wp_ret. iApply "HΦ". iFrame.
Qed.

(** ** Reset *)

Lemma reset_round_ok Mcb pt Map j l :
  round_ok (reset_round ex uninit Map)
    (fun k _ => ∃ xs, ⌜runs_ok xs.*2 /\ fits xs.*2 /\ k = length xs⌝ ∗
       runs_at (map_contract Mcb pt) Map xs ∗ stocked mm j l xs)%I
    (fun _ => runs_at (map_contract Mcb pt) Map [] ∗ supply mm j l)%I.
Proof.
  intros k []. iIntros "(%xs & (%Hok & %Hfit & ->) & [%ins Ht] & Hst)".
  unfold reset_round, RtlNumberGenericTableElements. rw /fits length_fmap in Hfit.
  iAssert ⌜length ins = length xs⌝%I as %Hlen.
  { iDestruct "Ht" as "(%t & %Ht & _ & _ & _ & _ & _ & _ & %Hp & _)". iPureIntro.
    by rw -Hp Ht !length_fmap. }
  iAssert (NumberGenericTableElements Map ↦ u32 (Z.of_nat (length xs)) ∗
    (NumberGenericTableElements Map ↦ u32 (Z.of_nat (length xs)) -∗
     generic_table (map_contract Mcb pt) Map (encode <$> xs) ins true))%I with "[Ht]" as "[Hn Ht]".
  { iDestruct "Ht" as "(%t & %Ht & HT & Ht & Hl & Hn & Hr)". rw Hlen. iFrame "Hn". iIntros "Hn".
    iExists t. iSplit; [done|]. iFrame. by rw Hlen. }
  wp_load. iDestruct ("Ht" with "Hn") as "Ht". rw u32_small; [|lia].
  destruct xs as [|y xs].
  - simpl. wp_ret. rw -stocked_none. iFrame "Hst". by iExists ins.
  - rw (proj2 (Z.eqb_neq _ 0)); [|simpl; lia].
    wp_call. iApply (get_first_spec with "Ht"); [done|rw length_fmap; unfold MAXULONG; lia|].
    iIntros (ys1 p b ys2 E) "Ht". apply encode_split in E as (xs1 & r & xs2 & E & -> & _).
    iDestruct (table_positive with "Ht") as %Hpos. rw E in Hok Hpos *.
    rw encode_app fmap_cons Forall_app Forall_cons in Hpos. destruct Hpos as (_ & Hp & _). simpl in Hp.
    rw (proj2 (Z.eqb_neq (UserData p) NULL)); [|unfold UserData, NULL; lia].
    wp_call. iApply (delete_element_at_spec with "Ht Hst"); [done|]. iIntros "Ht Hst". wp_ret.
    assert (length (y :: xs) = S (length (xs1 ++ xs2))) as Hl by (rw E !length_app /=; lia).
    iExists (length (xs1 ++ xs2)). iSplit; [iPureIntro; rw -E; lia|]. iExists (xs1 ++ xs2). iFrame.
    iPureIntro. split_and!; [|rw /fits length_fmap; lia|done].
    rw table_runs_middle in Hok. rw fmap_app. by apply runs_ok_middle in Hok as (? & _).
Qed.

Lemma reset_spec Mcb rs lost j l Φ :
  fits rs -> mcb Mcb rs lost -∗ stocked mm j l rs -∗ (mcb Mcb [] 0 -∗ supply mm j l -∗ Φ tt) -∗
  wp (FsRtlResetBaseMcb ex uninit Mcb) Φ.
Proof.
  iIntros (Hfit) "(%Hok & %Map & %pt & %mx & %xs & <- & HM & Hmx & HP & Ht) Hst HΦ".
  unfold FsRtlResetBaseMcb. wp_load. wp_call. iApply (wp_wand with "[Ht Hst]").
  - iApply (wp_while _ _ _ (length xs)); [by apply (reset_round_ok Mcb pt Map j l)|..].
    + iIntros "(%ys & (_ & _ & ->) & Ht & _)". rw runs_at_cells. iApply (cells_le with "Ht"). lia.
    + iExists xs. rw (stocked_length _ _ _ _ xs) ?length_fmap //. by iFrame.
  - iIntros ([]) "[Ht Hst]". wp_run. iApply ("HΦ" with "[-Hst] Hst"). iSplit; [iPureIntro; split; constructor|].
    iExists Map, pt, 0, []. by iFrame.
Qed.

(** An empty table is the memory that it was made of. *)
Lemma empty_table_memory Mcb pt Map :
  runs_at (map_contract Mcb pt) Map [] ⊢ table_memory Map ∗ PoolType Mcb ↦ pt.
Proof.
  iIntros "(%ins & %t & %Ht & HT & Ht & Hl & Hn & (%op & %w & Ho & Hw & _) & (HC & HA & HF & HX & $) & %Hp & _)".
  simpl in Ht. rw Ht /= in Hp. apply Permutation_nil in Hp as ->.
  iDestruct "Hl" as "(Hf & Hb & _)". iFrame.
Qed.

Lemma uninitialize_mcb_spec Mcb rs lost j l Φ :
  fits rs -> mcb Mcb rs lost -∗ stocked mm j l rs -∗ (mcb_memory Mcb -∗ supply mm j (l - 1) -∗ Φ tt) -∗
  wp (FsRtlUninitializeBaseMcb ex uninit Mcb) Φ.
Proof.
  iIntros (Hfit) "Hm Hst HΦ". unfold FsRtlUninitializeBaseMcb.
  wp_call. iApply (reset_spec with "Hm Hst"); [done|].
  iIntros "(%Hok & %Map & %pt & %mx & %xs & %Hxs & HM & Hmx & HP & Ht) Hst".
  destruct xs; [|done]. iDestruct (empty_table_memory with "Ht") as "[Ht Hpt]". wp_load. wp_load.
  iAssert (supply mm j (l - 1) -∗ Φ tt)%I with "[HΦ HM Hmx HP Hpt]" as "HΦ"; [iApply "HΦ"; iFrame|].
  case_match.
  - iApply (mapping_paged_free_spec with "Ht Hst HΦ").
  - iApply (mapping_pool_free_spec with "Ht Hst HΦ").
Qed.

(** ** Split *)

(** What [FsRtlSplitBaseMcb] makes of a run. *)
Definition split_run (Vbn Amount : Z) (r : run) : run :=
  if RunEndVbn r <=? Vbn then r
  else MkRun (s64 (Vbn + Amount)) (s64 (RunEndVbn r + Amount)) (StartingLbn r).

Definition split_entry (Vbn Amount : Z) (y : Z * run) : Z * run := (y.1, split_run Vbn Amount y.2).

(** In a build with assertions, the runs are moved up and their ends do not wrap around. *)
Definition split_asserted (Amount : Z) (rs : list run) : Prop :=
  dbg = true -> 0 < Amount /\ Forall (fun r => RunEndVbn r + Amount < 2 ^ 63) rs.

Lemma split_round_ok Mcb pt Map Vbn Amount xs :
  runs_ok xs.*2 -> in64 Vbn -> split_asserted Amount xs.*2 ->
  round_ok (split_round dbg Map Vbn Amount)
    (fun k q => ∃ xs1 xs2, ⌜xs = xs1 ++ xs2 /\ k = length xs2⌝ ∗
       cursor (map_contract Mcb pt) Map (split_entry Vbn Amount <$> xs1) xs2 q)%I
    (fun _ => runs_at (map_contract Mcb pt) Map (split_entry Vbn Amount <$> xs)).
Proof.
  intros Hok HV Has k q. iIntros "(%xs1 & %xs2 & [%Hxs ->] & Hc)". unfold split_round.
  destruct xs2 as [|[p r] xs2].
  - iDestruct (cursor_null with "Hc") as %->. wp_test. wp_ret. rw cursor_runs app_nil_r.
    by rw Hxs app_nil_r.
  - pose proof Hok as Hok'. rw Hxs table_runs_middle in Hok'.
    apply runs_ok_middle in Hok' as (_ & Hr & _). pose proof (run_ok_fields r Hr) as Hr64.
    iDestruct (cursor_run _ _ (map_accepts Mcb pt) with "Hc") as "(%Hq & Hr & Hc)"; [done|].
    iDestruct (run_at_fields with "Hr") as "(HS & HE & HL)".
    rw (proj2 (Z.eqb_neq q NULL) Hq). wp_load64.
    iAssert (wp (if RunEndVbn r <=? Vbn then ret tt
                 else store64 (pRunStartVbn q) Vbn;;
                      Start ← load64 (pRunStartVbn q);
                      store64 (pRunStartVbn q) (s64 (Start + Amount));;
                      ASSERT dbg (End_ ← load64 (pRunEndVbn q); ret (End_ <? s64 (End_ + Amount)));;
                      store64 (pRunEndVbn q) (s64 (RunEndVbn r + Amount)))
      (fun _ => run_at q (split_run Vbn Amount r))) with "[HS HE HL]" as "Hs".
    { unfold split_run. destruct (Z.leb_spec (RunEndVbn r) Vbn).
      - wp_ret. iApply (run_at_close with "HS HE HL").
      - wp_store64. wp_load64. wp_store64.
        wp_call. iApply (assert_load64 dbg _ _ (fun e => e <? s64 (e + Amount)) with "HE").
        { intros E. destruct (Has E) as [HA Hends]. rw Hxs table_runs_middle Forall_app Forall_cons in Hends.
          destruct Hends as (_ & He & _). unfold run_ok in Hr. apply Z.ltb_lt. rw s64_small; lia. }
        iIntros "HE". iApply (store64_spec with "HE"); [apply s64_range|].
        iIntros "HE". iApply (run_at_close _ (MkRun _ _ _) with "HS HE HL"). }
    wp_call. iApply (wp_wand with "Hs"). iIntros ([]) "Hr". iDestruct ("Hc" with "Hr") as "Hc".
    wp_call. iApply (cursor_next with "Hc"). iIntros (q') "Hc". wp_ret.
    iExists (length xs2). iSplit; [iPureIntro; simpl; lia|]. iExists (xs1 ++ [(p, r)]), xs2.
    rw fmap_app. iFrame "Hc". iPureIntro. by rw -app_assoc.
Qed.

Lemma split_spec Mcb rs lost Vbn Amount Φ :
  in64 Vbn -> split_asserted Amount rs -> mcb Mcb rs lost -∗
  (mcb_store Mcb (split_run Vbn Amount <$> rs) lost -∗ Φ true) -∗
  wp (FsRtlSplitBaseMcb dbg Mcb Vbn Amount) Φ.
Proof.
  iIntros (HV Has) "(%Hok & %Map & %pt & %mx & %xs & <- & HM & Hmx & HP & Ht) HΦ".
  unfold FsRtlSplitBaseMcb. wp_load. wp_call. iApply (cursor_start with "Ht"). iIntros (q) "Hc".
  wp_call. iApply (wp_wand with "[Hc]").
  - iApply (wp_while _ _ _ (length xs)); [by apply split_round_ok|..].
    + iIntros "(%xs1 & %xs2 & [_ ->] & Hc)". rw cursor_runs runs_at_cells.
      iApply (cells_le with "Hc"). rw length_app. lia.
    + iExists [], xs. by iFrame.
  - iIntros ([]) "Ht". wp_call. iApply (assert_spec dbg emp%I); [iIntros (_) "_"; by wp_ret|done|]. iIntros "_".
    wp_ret. iApply "HΦ". iExists Map, pt, mx, _.
    rw (length_fmap (split_run Vbn Amount)). iFrame. iPureIntro. by rw -!list_fmap_compose.
Qed.

(** Two runs that end behind [Vbn] both start at the same block afterwards: the runs are not
    apart any more, and the order that the table relies on is lost. *)
Lemma split_breaks_order rs1 a b rs2 Vbn Amount :
  runs_ok (rs1 ++ a :: b :: rs2) -> 0 <= Vbn < RunEndVbn a -> 0 <= Amount ->
  RunEndVbn b + Amount < 2 ^ 63 -> ~ runs_ok (split_run Vbn Amount <$> rs1 ++ a :: b :: rs2).
Proof.
  intros (Hok & Ha & _ & [Hab _]%Forall_cons)%runs_ok_middle HV HA Hend Hs.
  apply runs_ok_middle in Hok as (_ & Hb & _). unfold run_ok, behind in *.
  rw fmap_app !fmap_cons in Hs. apply runs_ok_middle in Hs as (_ & _ & _ & [Hs _]%Forall_cons).
  unfold behind, split_run in Hs.
  rw (proj2 (Z.leb_gt (RunEndVbn a) Vbn)) in Hs; [|lia].
  rw (proj2 (Z.leb_gt (RunEndVbn b) Vbn)) in Hs; [|lia]. simpl in Hs.
  rw !s64_small in Hs; lia.
Qed.

(** ** Truncation *)

(** The range that [FsRtlTruncateBaseMcb] removes ends at block [2^31]. *)
Lemma truncate_spec sp Mcb rs lost j l Vbn Φ :
  0 <= Vbn <= MAXLONG ->
  mcb Mcb rs lost -∗ remove_frame sp -∗ stocked mm j l rs -∗
  (∀ rs' lost' j', ⌜remove_result (grants mm) (MkRun Vbn (2 ^ 31) (-1)) rs lost j rs' lost' j'⌝ -∗
     mcb Mcb rs' lost' -∗ remove_frame sp -∗ stocked mm j' l rs' -∗ Φ tt) -∗
  wp (FsRtlTruncateBaseMcb ex dbg uninit sp Mcb Vbn) Φ.
Proof.
  iIntros (HV) "Hm Hf Hst HΦ". unfold FsRtlTruncateBaseMcb, MAXLONG in *.
  rw (s64_small (0x7FFFFFFF - Vbn)); [|lia]. rw s64_small; [|lia].
  wp_call. iApply (remove_mcb_spec with "Hm Hf Hst"); [done|lia|lia|lia|].
  iIntros (rs' lost' j' Hrm) "Hm Hf Hst". wp_ret.
  replace (Vbn + (0x7FFFFFFF - Vbn + 1)) with (2 ^ 31) in Hrm by lia. by iApply ("HΦ" with "[//] Hm Hf Hst").
Qed.

(** Behind that block it removes nothing. *)
Lemma truncate_refused_spec sp Mcb Vbn Φ :
  MAXLONG < Vbn < 2 ^ 63 -> Φ tt ⊢ wp (FsRtlTruncateBaseMcb ex dbg uninit sp Mcb Vbn) Φ.
Proof.
  iIntros (HV) "HΦ". unfold FsRtlTruncateBaseMcb, MAXLONG in *.
  rw (s64_small (0x7FFFFFFF - Vbn)); [|lia]. rw s64_small; [|lia].
  wp_call. iApply remove_refused_spec; [lia|]. wp_ret. done.
Qed.
End state.
