(* ===== verification/McbLarge.v ===== *)
(** * Mapping control blocks with a mutex, and those of 32 bits

    The functions of ntoskrnl/fsrtl/largemcb.c on a [LARGE_MCB], which call those of the base
    control block with the mutex held, and the functions of ntoskrnl/fsrtl/mcb.c on an [MCB],
    which call them and return the lower 32 bits of what they return. *)

From Stdlib Require Import ZArith Lia.
From S2P Require Import Prelude.
From stdpp Require Import gmap.
From iris.proofmode Require Import proofmode.
From S2P Require Import HeapLogic LinkTree ListEntry TableCommon GenericTable GenericTableWalk.
From S2P Require Import McbRuns Heap64 FsRtlMcb McbTable McbRemove McbWalk McbAdd McbState.

#[local] Open Scope Z_scope.

(** ** The code *)

(** The fields of a [LARGE_MCB]. *)
Definition GuardedMutex (Mcb : Z) : Z := Mcb.
Definition BaseMcb (Mcb : Z) : Z := Mcb + 4.

(** Guarded mutexes, and the look-aside list that their memory comes from; its allocation
    raises an exception ([None]) when there is no memory. *)
Record mutexes := {
  ExAllocateFromNPagedLookasideList : M (option Z);
  ExFreeToNPagedLookasideList : Z -> M unit;
  KeInitializeGuardedMutex : Z -> M unit;
  KeAcquireGuardedMutex : Z -> M unit;
  KeReleaseGuardedMutex : Z -> M unit;
}.

Section code.
Context (ex : pool) (ke : mutexes) (dbg : bool) (uninit : Z).

(** A function of the base control block, called with the mutex held. *)
Definition locked {A} (Mcb : Z) (f : M A) : M A :=
  m ← load (GuardedMutex Mcb);
  KeAcquireGuardedMutex ke m;;
  r ← f;
  m' ← load (GuardedMutex Mcb);
  KeReleaseGuardedMutex ke m';;
  ret r.

Definition FsRtlAddLargeMcbEntry (sp Mcb Vbn Lbn SectorCount : Z) : M bool :=
  locked Mcb (FsRtlAddBaseMcbEntry ex dbg uninit sp (BaseMcb Mcb) Vbn Lbn SectorCount).

Definition FsRtlGetNextLargeMcbEntry (Mcb RunIndex : Z) : M (option (Z * Z * Z)) :=
  locked Mcb (FsRtlGetNextBaseMcbEntry (BaseMcb Mcb) RunIndex).

(** [None] when the allocation of the mutex raises; an exception of the base control block
    is handled. *)
Definition FsRtlInitializeLargeMcb (Mcb Type_ : Z) : M (option unit) :=
  r ← ExAllocateFromNPagedLookasideList ke;
  match r with
  | None => ret None
  | Some p =>
      store (GuardedMutex Mcb) p;;
      m ← load (GuardedMutex Mcb);
      KeInitializeGuardedMutex ke m;;
      done ← FsRtlInitializeBaseMcb ex (BaseMcb Mcb) Type_;
      (if done : bool then ret tt
       else
         m' ← load (GuardedMutex Mcb);
         ExFreeToNPagedLookasideList ke m';;
         store (GuardedMutex Mcb) NULL);;
      ret (Some tt)
  end.

Definition FsRtlLookupLargeMcbEntry (Mcb Vbn : Z) : M (option lookup_result64) :=
  locked Mcb (FsRtlLookupBaseMcbEntry (BaseMcb Mcb) Vbn).

Definition FsRtlLookupLastLargeMcbEntryAndIndex (Mcb : Z) : M (option (Z * Z * Z)) :=
  locked Mcb (FsRtlLookupLastBaseMcbEntryAndIndex (BaseMcb Mcb)).

Definition FsRtlLookupLastLargeMcbEntry (Mcb : Z) : M (option (Z * Z)) :=
  locked Mcb (FsRtlLookupLastBaseMcbEntry (BaseMcb Mcb)).

Definition FsRtlNumberOfRunsInLargeMcb (Mcb : Z) : M Z :=
  locked Mcb (FsRtlNumberOfRunsInBaseMcb (BaseMcb Mcb)).

Definition FsRtlRemoveLargeMcbEntry (sp Mcb Vbn SectorCount : Z) : M unit :=
  locked Mcb (FsRtlRemoveBaseMcbEntry ex dbg uninit sp (BaseMcb Mcb) Vbn SectorCount;; ret tt).

Definition FsRtlResetLargeMcb (Mcb : Z) (SelfSynchronized : bool) : M unit :=
  if SelfSynchronized then FsRtlResetBaseMcb ex uninit (BaseMcb Mcb)
  else locked Mcb (FsRtlResetBaseMcb ex uninit (BaseMcb Mcb)).

Definition FsRtlSplitLargeMcb (Mcb Vbn Amount : Z) : M bool :=
  locked Mcb (FsRtlSplitBaseMcb dbg (BaseMcb Mcb) Vbn Amount).

Definition FsRtlTruncateLargeMcb (sp Mcb Vbn : Z) : M unit :=
  locked Mcb (FsRtlTruncateBaseMcb ex dbg uninit sp (BaseMcb Mcb) Vbn).

Definition FsRtlUninitializeLargeMcb (Mcb : Z) : M unit :=
  m ← load (GuardedMutex Mcb);
  if m =? NULL then ret tt
  else
    m' ← load (GuardedMutex Mcb);
    ExFreeToNPagedLookasideList ke m';;
    FsRtlUninitializeBaseMcb ex uninit (BaseMcb Mcb).

(** *** Control blocks of 32 bits *)

Definition FsRtlAddMcbEntry (sp Mcb Vbn Lbn SectorCount : Z) : M bool :=
  FsRtlAddLargeMcbEntry sp Mcb Vbn Lbn SectorCount.

(** The variables that take the results are not initialized: [junk] is what they hold. *)
Definition FsRtlGetNextMcbEntry (junk : Z * Z * Z) (Mcb RunIndex : Z) : M (bool * (Z * Z * Z)) :=
  r ← FsRtlGetNextLargeMcbEntry Mcb RunIndex;
  let '(llVbn, llLbn, llSectorCount) := default junk r in
  ret (bool_decide (is_Some r), (u32 llVbn, u32 llLbn, u32 llSectorCount)).

Definition FsRtlInitializeMcb (Mcb Type_ : Z) : M (option unit) := FsRtlInitializeLargeMcb Mcb Type_.

Definition FsRtlLookupLastMcbEntry (Mcb : Z) : M (bool * (Z * Z)) :=
  r ← FsRtlLookupLastLargeMcbEntry Mcb;
  let '(llVbn, llLbn) := default (0, 0) r in
  ret (bool_decide (is_Some r), (u32 llVbn, u32 llLbn)).

(** The index is written only when the block is found. *)
Definition FsRtlLookupMcbEntry (junk : Z * Z) (Mcb Vbn : Z) : M (bool * (Z * Z) * option Z) :=
  r ← FsRtlLookupLargeMcbEntry Mcb Vbn;
  let '(llLbn, llSectorCount) := match r with Some o => (Lbn o, SectorCountFromLbn o) | None => junk end in
  ret (bool_decide (is_Some r), (u32 llLbn, u32 llSectorCount), Index <$> r).

Definition FsRtlNumberOfRunsInMcb (Mcb : Z) : M Z := FsRtlNumberOfRunsInLargeMcb Mcb.

Definition FsRtlRemoveMcbEntry (sp Mcb Vbn SectorCount : Z) : M unit :=
  FsRtlRemoveLargeMcbEntry sp Mcb Vbn SectorCount.

Definition FsRtlTruncateMcb (sp Mcb Vbn : Z) : M unit := FsRtlTruncateLargeMcb sp Mcb Vbn.

Definition FsRtlUninitializeMcb (Mcb : Z) : M unit := FsRtlUninitializeLargeMcb Mcb.
End code.

(** ** What the functions rely on and keep *)

(** A mutex is initialized in the memory of the list, it can be acquired when it is free, and
    its memory can be returned when it is free. *)
Class MutexRoutines (ke : mutexes) (mm : manager) := {
  mutex_memory : Z -> hprop;
  mutex_at : Z -> bool -> hprop;
  mutex_allocate_spec j m Φ :
    supply mm j m -∗
    (∀ r, reply mm j m (some_memory (fun p => ⌜p <> NULL⌝ ∗ mutex_memory p)%I) None r -∗ Φ r) -∗
    wp (ExAllocateFromNPagedLookasideList ke) Φ;
  mutex_free_spec p j m Φ :
    mutex_at p false -∗ supply mm j m -∗ (supply mm j (m - 1) -∗ Φ tt) -∗
    wp (ExFreeToNPagedLookasideList ke p) Φ;
  mutex_initialize_spec p Φ :
    mutex_memory p -∗ (mutex_at p false -∗ Φ tt) -∗ wp (KeInitializeGuardedMutex ke p) Φ;
  mutex_acquire_spec p Φ :
    mutex_at p false -∗ (mutex_at p true -∗ Φ tt) -∗ wp (KeAcquireGuardedMutex ke p) Φ;
  mutex_release_spec p Φ :
    mutex_at p true -∗ (mutex_at p false -∗ Φ tt) -∗ wp (KeReleaseGuardedMutex ke p) Φ;
}.

Section large.
Context (ex : pool) (ke : mutexes) (mm : manager) `{!PoolRoutines ex mm, !MutexRoutines ke mm}.
Context (uninit : Z).

(** The control block has the mutex [m], which is free. *)
Definition unlocked (Mcb m : Z) : hprop :=
  (⌜m <> NULL⌝ ∗ GuardedMutex Mcb ↦ m ∗ mutex_at m false)%I.

Definition large_mcb (Mcb : Z) (rs : list run) (lost : Z) : hprop :=
  (∃ m, unlocked Mcb m ∗ mcb (BaseMcb Mcb) rs lost)%I.

Definition large_memory (Mcb : Z) : hprop :=
  ((∃ v, GuardedMutex Mcb ↦ v) ∗ mcb_memory (BaseMcb Mcb))%I.

(** The mutex is held during the call, and is free again behind it. *)
Lemma locked_spec {A} (f : M A) Mcb m Ψ Φ :
  unlocked Mcb m -∗ wp f Ψ -∗ (∀ r, unlocked Mcb m -∗ Ψ r -∗ Φ r) -∗ wp (locked ke Mcb f) Φ.
Proof.
  iIntros "(%Hm & HM & Hm) Hf HΦ". unfold locked. wp_load.
  wp_call. iApply (mutex_acquire_spec with "Hm"). iIntros "Hm".
  wp_call. iApply (wp_wand with "Hf"). iIntros (r) "Hr". wp_load.
  wp_call. iApply (mutex_release_spec with "Hm"). iIntros "Hm". wp_ret.
  iApply ("HΦ" with "[HM Hm] Hr"). by iFrame.
Qed.

(** The requests for the mutex and the mapping: the exception that the first may raise reaches
    the caller; after the second, the mutex is freed and its pointer is NULL. *)
Definition initialize_result (Mcb : Z) (j : nat) (m : Z) (r : option unit) : hprop :=
  (if grants mm j then
     ⌜r = Some tt⌝ ∗
     if grants mm (S j) then large_mcb Mcb [] 0 ∗ supply mm (S (S j)) (m + 2)
     else GuardedMutex Mcb ↦ NULL ∗ mcb_memory (BaseMcb Mcb) ∗ supply mm (S (S j)) m
   else ⌜r = None⌝ ∗ large_memory Mcb ∗ supply mm (S j) m)%I.

Lemma initialize_large_spec Mcb pt j m Φ :
  large_memory Mcb -∗ supply mm j m -∗ (∀ r, initialize_result Mcb j m r -∗ Φ r) -∗
  wp (FsRtlInitializeLargeMcb ex ke Mcb pt) Φ.
Proof.
  iIntros "([%v HM] & Hb) Hs HΦ". unfold FsRtlInitializeLargeMcb.
  wp_call. iApply (mutex_allocate_spec with "Hs"). iIntros (r) "Hr". unfold reply, initialize_result.
  destruct (grants mm j); [iDestruct "Hr" as "[(%p & -> & %Hp & Hm) Hs]"|iDestruct "Hr" as "[-> Hs]"]; last first.
  { wp_ret. iApply "HΦ". by iFrame. }
  wp_store. wp_load. wp_call. iApply (mutex_initialize_spec with "Hm"). iIntros "Hm".
  wp_call. iApply (initialize_mcb_spec with "Hb Hs"). destruct (grants mm (S j)); iIntros "[Hb Hs]".
  - wp_ret. iApply ("HΦ" $! (Some tt)). replace (m + 1 + 1) with (m + 2) by lia. iFrame "Hs".
    iSplit; [done|]. iExists p. by iFrame.
  - wp_load. wp_call. iApply (mutex_free_spec with "Hm Hs"). iIntros "Hs". wp_store. wp_ret.
    replace (m + 1 - 1) with m by lia. iApply ("HΦ" $! (Some tt)). by iFrame.
Qed.

(** The runs, the mapping and the mutex are freed. *)
Lemma uninitialize_large_spec Mcb rs lost j l Φ :
  fits rs -> large_mcb Mcb rs lost -∗ stocked mm j (l + 2) rs -∗
  (large_memory Mcb -∗ supply mm j l -∗ Φ tt) -∗
  wp (FsRtlUninitializeLargeMcb ex ke uninit Mcb) Φ.
Proof.
  iIntros (Hfit) "(%m & (%Hm & HM & Hm) & Hb) Hst HΦ". unfold FsRtlUninitializeLargeMcb.
  wp_load. rw (proj2 (Z.eqb_neq m NULL) Hm). wp_load.
  wp_call. iApply (mutex_free_spec with "Hm Hst"). iIntros "Hst".
  iApply (uninitialize_mcb_spec _ _ _ _ _ _ j (l + 1) with "Hb [Hst]"); [done|..].
  - unfold stocked. by replace (l + 2 + Z.of_nat (length rs) - 1) with (l + 1 + Z.of_nat (length rs)) by lia.
  - iIntros "Hb Hst". replace (l + 1 - 1) with l by lia. iApply ("HΦ" with "[-Hst] Hst"). by iFrame.
Qed.
End large.
