(* ===== verification/McbSpec.v ===== *)
(** * The specification of a mapping control block

    What a sequence of calls does with a control block, as steps on the list of its runs, and
    that the functions on a [LARGE_MCB] refine it. *)

From Stdlib Require Import ZArith Lia.
From S2P Require Import Prelude.
From stdpp Require Import gmap.
From iris.proofmode Require Import proofmode.
From S2P Require Import HeapLogic LinkTree TableCommon McbRuns Heap64 FsRtlMcb McbTable McbRemove McbWalk.
From S2P Require Import McbAdd McbState McbLarge.

#[local] Open Scope Z_scope.

(** ** The specification *)

Inductive mcb_op :=
  | AddEntry (Vbn Lbn SectorCount : Z)
  | RemoveEntry (Vbn SectorCount : Z)
  | TruncateAt (Vbn : Z)
  | LookupEntry (Vbn : Z)
  | GetNextEntry (RunIndex : Z)
  | NumberOfRuns
  | LookupLast
  | Reset.

Inductive mcb_result :=
  | Done
  | Answer (b : bool)
  | Block (r : option lookup_result64)
  | Entry (e : option (Z * Z * Z))
  | Count (n : Z).

(** The arguments have 64 bits, and an added range ends before the last block number. *)
Definition op_ok (o : mcb_op) : Prop :=
  match o with
  | AddEntry Vbn Lbn SectorCount => in64 Lbn /\ Vbn + SectorCount + 1 < 2 ^ 63
  | RemoveEntry Vbn SectorCount => in64 Vbn /\ in64 SectorCount
  | TruncateAt Vbn => in64 Vbn
  | LookupEntry Vbn => in64 Vbn
  | GetNextEntry RunIndex => 0 <= RunIndex < 2 ^ 32
  | _ => True
  end.

(** A step leads from the runs [rs], with [lost] failed insertions and [j] requests for memory so
    far, to [rs'], [lost'] and [j']; [gr] tells which requests are granted. *)
Definition mcb_step (gr : nat -> bool) (o : mcb_op) (rs : list run) (lost : Z) (j : nat)
    (r : mcb_result) (rs' : list run) (lost' : Z) (j' : nat) : Prop :=
  let same := rs' = rs /\ lost' = lost /\ j' = j in
  match o with
  | AddEntry v l n =>
      if (v <? 0) || (n <=? 0) || add_refused rs v l then r = Answer false /\ same
      else r = Answer true /\
        if add_known rs v n then same
        else add_outcome gr (MkRun v (v + n) l) rs lost j rs' lost' j'
  | RemoveEntry v n =>
      r = Done /\
      if (v <? 0) || (n <=? 0) || (2 ^ 63 <=? v + n) then same
      else remove_result gr (MkRun v (v + n) (-1)) rs lost j rs' lost' j'
  | TruncateAt v =>
      r = Done /\
      if (v <? 0) || (MAXLONG <? v) then same
      else remove_result gr (MkRun v (2 ^ 31) (-1)) rs lost j rs' lost' j'
  | LookupEntry v => r = Block (lookup_from v 0 (entries 0 rs)) /\ same
  | GetNextEntry i => r = Entry (entries 0 rs !! Z.to_nat i) /\ same
  | NumberOfRuns => r = Count (Z.of_nat (length (entries 0 rs))) /\ same
  | LookupLast => r = Entry (last_entry rs) /\ same
  | Reset => r = Done /\ rs' = [] /\ lost' = 0 /\ j' = j
  end.

Inductive mcb_steps (gr : nat -> bool) :
    list mcb_op -> list run -> Z -> nat -> list mcb_result -> list run -> Z -> nat -> Prop :=
  | steps_nil rs lost j : mcb_steps gr [] rs lost j [] rs lost j
  | steps_cons o os rs lost j r rs1 lost1 j1 res rs2 lost2 j2 :
      mcb_step gr o rs lost j r rs1 lost1 j1 -> runs_ok rs1 ->
      mcb_steps gr os rs1 lost1 j1 res rs2 lost2 j2 ->
      mcb_steps gr (o :: os) rs lost j (r :: res) rs2 lost2 j2.

(** ** A client *)

Section client.
Context (ex : pool) (ke : mutexes) (dbg : bool) (uninit sp Mcb : Z).

Definition call (o : mcb_op) : M mcb_result :=
  match o with
  | AddEntry v l n => b ← FsRtlAddLargeMcbEntry ex ke dbg uninit sp Mcb v l n; ret (Answer b)
  | RemoveEntry v n => FsRtlRemoveLargeMcbEntry ex ke dbg uninit (callee_frame sp) Mcb v n;; ret Done
  | TruncateAt v => FsRtlTruncateLargeMcb ex ke dbg uninit (callee_frame sp) Mcb v;; ret Done
  | LookupEntry v => r ← FsRtlLookupLargeMcbEntry ke Mcb v; ret (Block r)
  | GetNextEntry i => r ← FsRtlGetNextLargeMcbEntry ke Mcb i; ret (Entry r)
  | NumberOfRuns => n ← FsRtlNumberOfRunsInLargeMcb ke Mcb; ret (Count n)
  | LookupLast => r ← FsRtlLookupLastLargeMcbEntryAndIndex ke Mcb; ret (Entry r)
  | Reset => FsRtlResetLargeMcb ex ke uninit Mcb false;; ret Done
  end.

Fixpoint calls (os : list mcb_op) : M (list mcb_result) :=
  match os with
  | [] => ret []
  | o :: os' => r ← call o; res ← calls os'; ret (r :: res)
  end.

(** The life of a control block: [None] when it could not be initialized. *)
Definition mcb_client (Type_ : Z) (os : list mcb_op) : M (option (list mcb_result)) :=
  r ← FsRtlInitializeLargeMcb ex ke Mcb Type_;
  match r with
  | None => ret None
  | Some tt =>
      m ← load (GuardedMutex Mcb);
      if m =? NULL then
        FsRtlUninitializeLargeMcb ex ke uninit Mcb;; ret None
      else
        res ← calls os;
        FsRtlUninitializeLargeMcb ex ke uninit Mcb;;
        ret (Some res)
  end.
End client.

(** ** Lengths *)

Lemma remove_length gr n rs lost j rs' lost' j' :
  0 <= RunStartVbn n < RunEndVbn n -> runs_ok rs -> remove_result gr n rs lost j rs' lost' j' ->
  (length rs' <= length rs + 1)%nat.
Proof.
  intros Hn Hok H. pose proof (cut_length n rs Hn Hok) as Hc.
  apply remove_result_cases in H as [->|(h & c1 & t & c2 & _ & _ & _ & E & _ & _ & ->)]; [done|].
  rw E !length_app /= in Hc. rw length_app. lia.
Qed.

Lemma mcb_step_length gr o rs lost j r rs' lost' j' :
  runs_ok rs -> mcb_step gr o rs lost j r rs' lost' j' -> (length rs' <= length rs + 2)%nat.
Proof.
  intros Hok. destruct o as [v l n|v n|v| | | | |]; simpl; try (intros (_ & -> & _); simpl; lia).
  - destruct (Z.ltb_spec v 0), (Z.leb_spec n 0); simpl; try (intros (_ & -> & _); lia).
    destruct (add_refused rs v l), (add_known rs v n); try (intros (_ & -> & _); lia).
    intros (_ & base & lost1 & j1 & Hr & Ha & _). apply add_length in Ha.
    apply remove_length in Hr; [lia|simpl; lia|done].
  - intros [_ H]. destruct (Z.ltb_spec v 0), (Z.leb_spec n 0); simpl in H; try (destruct H as [-> _]; lia).
    destruct (2 ^ 63 <=? v + n); [destruct H as [-> _]; lia|].
    apply remove_length in H; [lia|simpl; lia|done].
  - intros [_ H]. unfold MAXLONG in H.
    destruct (Z.ltb_spec v 0), (Z.ltb_spec 0x7FFFFFFF v); simpl in H; try (destruct H as [-> _]; lia).
    apply remove_length in H; [lia|simpl; lia|done].
Qed.

(** ** The refinement *)

Section refinement.
Context (ex : pool) (ke : mutexes) (mm : manager) `{!PoolRoutines ex mm, !MutexRoutines ke mm}.
Context (dbg : bool) (Hdbg : reliable dbg mm) (uninit sp Mcb l : Z).

(** A call of the base control block's function, with the frame and the memory in use: [l]
    blocks besides those of the runs. *)
Definition base_state (rs : list run) (lost : Z) (j : nat) : hprop :=
  (mcb (BaseMcb Mcb) rs lost ∗ add_frame sp ∗ stocked mm j l rs)%I.

Definition large_state (rs : list run) (lost : Z) (j : nat) : hprop :=
  (large_mcb ke mm Mcb rs lost ∗ add_frame sp ∗ stocked mm j l rs)%I.

Abbreviation step := (mcb_step (grants mm)).

Lemma large_state_runs rs lost j : large_state rs lost j ⊢ ⌜runs_ok rs⌝.
Proof. by iIntros "((%m & _ & $ & _) & _)". Qed.

Lemma locked_call {A} (f : M A) rs lost j (Ψ : A -> list run -> Z -> nat -> Prop) Φ :
  (base_state rs lost j ⊢
   wp f (fun r => ∃ rs' lost' j', ⌜Ψ r rs' lost' j'⌝ ∗ base_state rs' lost' j')) ->
  large_state rs lost j -∗
  (∀ r rs' lost' j', ⌜Ψ r rs' lost' j'⌝ -∗ large_state rs' lost' j' -∗ Φ r) -∗
  wp (locked ke Mcb f) Φ.
Proof.
  iIntros (Hf) "((%m & Hm & Hb) & Hsp & Hst) HΦ".
  iApply (locked_spec with "Hm [Hb Hsp Hst]"); [iApply Hf; iFrame|].
  iIntros (r) "Hm (%rs' & %lost' & %j' & %H & Hb & Hsp & Hst)". iApply ("HΦ" with "[//]"). iFrame.
Qed.

Lemma remove_call v n rs lost j :
  in64 v -> in64 n ->
  base_state rs lost j ⊢
  wp (FsRtlRemoveBaseMcbEntry ex dbg uninit (callee_frame sp) (BaseMcb Mcb) v n;; ret tt)
    (fun _ => ∃ rs' lost' j', ⌜step (RemoveEntry v n) rs lost j Done rs' lost' j'⌝ ∗
       base_state rs' lost' j').
Proof.
  iIntros (Hv Hn) "(Hb & (H1 & H2 & H3 & Hf) & Hst)". unfold in64 in *. cbn [mcb_step].
  destruct ((v <? 0) || (n <=? 0) || (2 ^ 63 <=? v + n)) eqn:E.
  - wp_call. iApply remove_refused_spec.
    { rw !orb_true_iff Z.ltb_lt !Z.leb_le in E. destruct E as [[E|E]|E]; [auto..|].
      right; right. unfold s64. rewrite <- (Z.mod_unique _ (2 ^ 64) 1 (v + n - 2 ^ 63)); lia. }
    wp_ret. iExists rs, lost, j. by iFrame.
  - rw !orb_false_iff Z.ltb_ge !Z.leb_gt in E.
    wp_call. iApply (remove_mcb_spec with "Hb Hf Hst"); [done|lia..|].
    iIntros (rs' lost' j' H) "Hb Hf Hst". wp_ret. iExists rs', lost', j'. by iFrame.
Qed.

Lemma truncate_call v rs lost j :
  in64 v ->
  base_state rs lost j ⊢
  wp (FsRtlTruncateBaseMcb ex dbg uninit (callee_frame sp) (BaseMcb Mcb) v)
    (fun _ => ∃ rs' lost' j', ⌜step (TruncateAt v) rs lost j Done rs' lost' j'⌝ ∗
       base_state rs' lost' j').
Proof.
  iIntros (Hv) "(Hb & (H1 & H2 & H3 & Hf) & Hst)". unfold in64 in *. cbn [mcb_step].
  destruct (Z.ltb_spec v 0); [|destruct (Z.ltb_spec MAXLONG v)]; simpl.
  - unfold FsRtlTruncateBaseMcb. wp_call. iApply remove_refused_spec; [by left|]. wp_ret.
    iExists rs, lost, j. by iFrame.
  - iApply truncate_refused_spec; [lia|]. iExists rs, lost, j. by iFrame.
  - iApply (truncate_spec with "Hb Hf Hst"); [done|lia|]. iIntros (rs' lost' j' H') "Hb Hf Hst".
    iExists rs', lost', j'. by iFrame.
Qed.

Lemma add_call v L n rs lost j :
  fits rs -> in64 L -> v + n + 1 < 2 ^ 63 ->
  base_state rs lost j ⊢
  wp (FsRtlAddBaseMcbEntry ex dbg uninit sp (BaseMcb Mcb) v L n)
    (fun b => ∃ rs' lost' j', ⌜step (AddEntry v L n) rs lost j (Answer b) rs' lost' j'⌝ ∗
       base_state rs' lost' j').
Proof.
  iIntros (Hfit Hl Hend) "(Hb & Hf & Hst)". cbn [mcb_step].
  destruct (Z.ltb_spec v 0); [|destruct (Z.leb_spec n 0)]; simpl.
  - iApply add_invalid_spec; [by left|]. iExists rs, lost, j. by iFrame.
  - iApply add_invalid_spec; [by right|]. iExists rs, lost, j. by iFrame.
  - iApply (add_spec with "Hb Hf Hst"); [done..|]. iIntros (b rs' lost' j' H') "Hb Hf Hst".
    iExists rs', lost', j'. iFrame. iPureIntro.
    destruct (add_refused rs v L); [by destruct H' as (-> & -> & -> & ->)|]. by destruct H' as [-> H'].
Qed.

(** A call that only reads. *)
Lemma read_call {A} (f : M A) rs lost j a (r : A -> mcb_result) o :
  (forall r' rs' lost' j', step o rs lost j r' rs' lost' j' <->
     r' = r a /\ rs' = rs /\ lost' = lost /\ j' = j) ->
  (forall Φ, mcb (BaseMcb Mcb) rs lost -∗ (mcb (BaseMcb Mcb) rs lost -∗ Φ a) -∗ wp f Φ) ->
  base_state rs lost j ⊢
  wp f (fun a => ∃ rs' lost' j', ⌜step o rs lost j (r a) rs' lost' j'⌝ ∗ base_state rs' lost' j').
Proof.
  iIntros (Ho Hf) "(Hb & Hf)". iApply (Hf with "Hb"). iIntros "Hb". iExists rs, lost, j. iFrame.
  iPureIntro. by apply Ho.
Qed.

Lemma call_spec o rs lost j Φ :
  fits rs -> op_ok o -> large_state rs lost j -∗
  (∀ r rs' lost' j', ⌜step o rs lost j r rs' lost' j'⌝ -∗ large_state rs' lost' j' -∗ Φ r) -∗
  wp (call ex ke dbg uninit sp Mcb o) Φ.
Proof.
  iIntros (Hfit Ho) "Hs HΦ". iDestruct (large_state_runs with "Hs") as %Hok.
  destruct o as [v L n|v n|v|v|i| | |]; unfold call; wp_call.
  - iApply (locked_call with "Hs"); [by apply add_call; [|apply Ho..]|].
    iIntros (b rs' lost' j' H) "Hs". wp_ret. by iApply "HΦ".
  - iApply (locked_call with "Hs"); [by apply remove_call; apply Ho|].
    iIntros (b rs' lost' j' H) "Hs". wp_ret. by iApply "HΦ".
  - iApply (locked_call with "Hs"); [by apply truncate_call|].
    iIntros (b rs' lost' j' H) "Hs". wp_ret. by iApply "HΦ".
  - iApply (locked_call with "Hs").
    { apply (read_call _ _ _ _ (lookup_from v 0 (entries 0 rs)) Block (LookupEntry v)); [done|]. intros Φ'. by apply lookup_spec. }
    iIntros (b rs' lost' j' H) "Hs". wp_ret. by iApply "HΦ".
  - iApply (locked_call with "Hs").
    { apply (read_call _ _ _ _ (entries 0 rs !! Z.to_nat i) Entry (GetNextEntry i)); [done|].
      intros Φ'. by apply get_next_spec; [|apply Ho]. }
    iIntros (b rs' lost' j' H) "Hs". wp_ret. by iApply "HΦ".
  - iApply (locked_call with "Hs").
    { apply (read_call _ _ _ _ (Z.of_nat (length (entries 0 rs))) Count NumberOfRuns); [done|].
      intros Φ'. by apply number_of_runs_spec. }
    iIntros (b rs' lost' j' H) "Hs". wp_ret. by iApply "HΦ".
  - iApply (locked_call with "Hs").
    { apply (read_call _ _ _ _ (last_entry rs) Entry LookupLast); [done|]. intros Φ'. by apply lookup_last_spec. }
    iIntros (b rs' lost' j' H) "Hs". wp_ret. by iApply "HΦ".
  - iApply (locked_call _ _ _ _ (fun _ => step Reset rs lost j Done) with "Hs").
    { iIntros "(Hb & Hf & Hst)". iApply (reset_spec with "Hb Hst"); [done|]. iIntros "Hb Hst".
      iExists [], 0, j. rw (stocked_none (A:=run)). by iFrame. }
    iIntros (b rs' lost' j' H) "Hs". wp_ret. by iApply "HΦ".
Qed.

(** There are few enough runs for [k] more calls. *)
Definition room (rs : list run) (k : nat) : Prop := 2 * (Z.of_nat (length rs) + 2 * Z.of_nat k) < 2 ^ 31.

Lemma calls_spec os rs lost j Φ :
  room rs (length os) -> Forall op_ok os -> large_state rs lost j -∗
  (∀ res rs' lost' j', ⌜mcb_steps (grants mm) os rs lost j res rs' lost' j' /\ fits rs'⌝ -∗
     large_state rs' lost' j' -∗ Φ res) -∗
  wp (calls ex ke dbg uninit sp Mcb os) Φ.
Proof.
  iIntros (Hroom Ho). iInduction os as [|o os] "IH" forall (rs lost j Φ Hroom Ho); iIntros "Hs HΦ"; simpl.
  - wp_ret. iApply ("HΦ" with "[%] Hs"). split; [constructor|]. unfold room in Hroom. unfold fits. simpl in *. lia.
  - apply Forall_cons in Ho as [Ho Hos]. unfold room in Hroom. simpl in Hroom.
    iDestruct (large_state_runs with "Hs") as %Hok.
    wp_call. iApply (call_spec with "Hs"); [unfold fits; lia|done|].
    iIntros (r rs1 lost1 j1 Hstep) "Hs".
    iDestruct (large_state_runs with "Hs") as %Hok1.
    pose proof (mcb_step_length _ _ _ _ _ _ _ _ _ Hok Hstep) as Hlen.
    wp_call. iApply ("IH" with "[%] [//] Hs"); [unfold room; lia|].
    iIntros (res rs2 lost2 j2 [Hsteps Hfit]) "Hs". wp_ret. iApply ("HΦ" with "[%] Hs").
    split; [by econstructor|done].
Qed.
End refinement.

(** ** The client *)

Section client_refinement.
Context (ex : pool) (ke : mutexes) (mm : manager) `{!PoolRoutines ex mm, !MutexRoutines ke mm}.
Context (dbg : bool) (Hdbg : reliable dbg mm) (uninit sp Mcb l : Z).

(** What a client returns that starts after [j] requests: the results of its calls, unless the
    request for the mutex or the one for the mapping is refused. *)
Definition client_result (os : list mcb_op) (j : nat) (r : option (list mcb_result)) (j' : nat) : Prop :=
  if grants mm j then
    if grants mm (S j) then
      exists res rs lost, r = Some res /\ mcb_steps (grants mm) os [] 0 (S (S j)) res rs lost j'
    else r = None /\ j' = S (S j)
  else r = None /\ j' = S j.

(** A client's memory is its own again when it is done, and no memory is in use that was not
    before. *)
Lemma client_spec Type_ os j Φ :
  4 * Z.of_nat (length os) < 2 ^ 31 -> Forall op_ok os ->
  large_memory Mcb -∗ add_frame sp -∗ supply mm j l -∗
  (∀ r j', ⌜client_result os j r j'⌝ -∗
     large_memory Mcb -∗ add_frame sp -∗ supply mm j' l -∗ Φ r) -∗
  wp (mcb_client ex ke dbg uninit sp Mcb Type_ os) Φ.
Proof.
  iIntros (Hlen Ho) "Hm Hf Hst HΦ". unfold mcb_client, client_result.
  wp_call. iApply (initialize_large_spec with "Hm Hst"). iIntros (r) "Hm". unfold initialize_result.
  destruct (grants mm j); last first.
  { iDestruct "Hm" as "(-> & Hm & Hst)". wp_ret. by iApply ("HΦ" $! None with "[//] Hm Hf Hst"). }
  destruct (grants mm (S j)).
  - iDestruct "Hm" as "(-> & (%m & (%Hm & HM & Hmx) & Hb) & Hst)".
    wp_load. rw (proj2 (Z.eqb_neq m NULL) Hm) (stocked_none (A:=run)).
    wp_call. iApply (calls_spec _ _ _ _ Hdbg _ _ _ (l + 2) os [] 0 with "[HM Hmx Hb Hf Hst]");
      [unfold room; simpl; lia|done|..].
    { iFrame "Hf Hst". iExists m. by iFrame. }
    iIntros (res rs lost j' [Hsteps Hfit]) "(Hb & Hf & Hst)".
    wp_call. iApply (uninitialize_large_spec with "Hb Hst"); [done|]. iIntros "Hm Hst". wp_ret.
    iApply ("HΦ" with "[%] Hm Hf Hst"). by exists res, rs, lost.
  - iDestruct "Hm" as "(-> & HM & Hb & Hst)".
    wp_load. wp_test. unfold FsRtlUninitializeLargeMcb. wp_load. wp_test. wp_ret.
    iApply ("HΦ" $! None with "[//] [HM Hb] Hf Hst"). iFrame.
Qed.
End client_refinement.
