(* ===== verification/AvlTree.v ===== *)
(** * AVL trees: sdk/lib/rtl/avlsupp.c with the glue of sdk/lib/rtl/rtlavl.h

    Insertion into and deletion from balanced trees.  The tree of a table hangs, as the
    right child, below a header node ([BalancedRoot]) that is its own parent, so that every
    node of the tree has a parent.  Each node keeps the difference of the heights of its
    subtrees.  This file has the code and the rotations; AvlInsert.v and AvlDelete.v prove
    that insertion and deletion keep the tree balanced. *)

From Stdlib Require Import ZArith Lia.
From S2P Require Import Prelude.
From stdpp Require Import gmap.
From iris.proofmode Require Import proofmode.
From S2P Require Import HeapLogic LinkTree SplayTree TableCommon.

#[local] Open Scope Z_scope.

(** ** The structures *)

(** The fields of [RTL_BALANCED_LINKS] behind the links. *)
Definition Balance (Node : Z) : Z := Node + 12.
Definition Reserved (Node : Z) : Z := Node + 13.

(** [RTL_AVL_TABLE]. *)
Definition BalancedRoot (Table : Z) : Z := Table.
Definition AvlOrderedPointer (Table : Z) : Z := Table + 16.
Definition AvlWhichOrderedElement (Table : Z) : Z := Table + 20.
Definition AvlNumberGenericTableElements (Table : Z) : Z := Table + 24.
Definition DepthOfTree (Table : Z) : Z := Table + 28.
Definition RestartKey (Table : Z) : Z := Table + 32.
Definition DeleteCount (Table : Z) : Z := Table + 36.
Definition AvlCompareRoutine (Table : Z) : Z := Table + 40.
Definition AvlAllocateRoutine (Table : Z) : Z := Table + 44.
Definition AvlFreeRoutine (Table : Z) : Z := Table + 48.
Definition AvlTableContext (Table : Z) : Z := Table + 52.

(** [TABLE_ENTRY_HEADER]: the balanced links are at offset 0. *)
Definition AvlUserData (Header : Z) : Z := Header + 16.
Definition AvlHeaderSize : Z := 16.

(** [RTL_AVL_BALANCE_FACTOR]. *)
Definition RtlLeftHeavyAvlTree : Z := -1.
Definition RtlBalancedAvlTree : Z := 0.
Definition RtlRightHeavyAvlTree : Z := 1.

(** A value stored in a [CHAR]. *)
Definition s8 (x : Z) : Z := (x + 2 ^ 7) mod 2 ^ 8 - 2 ^ 7.

(** ** The code *)

Definition RtlSetBalance (Node Value : Z) : M unit := store (Balance Node) (s8 Value).
Definition RtlBalance (Node : Z) : M Z := load (Balance Node).
Definition RtlSetParent (Node Value : Z) : M unit := store (Parent Node) Value.

Definition RtlpCopyAvlNodeData (Node1 Node2 : Z) : M unit :=
  T ← load_links Node2;
  store_links Node1 T;;
  b ← load (Balance Node2);
  store (Balance Node1) b;;
  copy_bytes 3 (Reserved Node1) (Reserved Node2).

Definition RtlpPromoteAvlTreeNode (Node : Z) : M unit :=
  ParentNode ← load (Parent Node);
  SuperParentNode ← load (Parent ParentNode);
  left ← RtlIsLeftChild Node;
  left' ← RtlIsLeftChild Node;
  let SwapNode1 := if left then LeftChild ParentNode else RightChild ParentNode in
  let SwapNode2 := if left' then RightChild Node else LeftChild Node in
  v ← load SwapNode2;
  store SwapNode1 v;;
  adopt SwapNode1 ParentNode;;
  store SwapNode2 ParentNode;;
  RtlSetParent ParentNode Node;;
  l ← load (LeftChild SuperParentNode);
  store (if l =? ParentNode then LeftChild SuperParentNode else RightChild SuperParentNode) Node;;
  RtlSetParent Node SuperParentNode.

Definition RtlpRebalanceAvlTreeNode (Node : Z) : M bool :=
  Bal ← RtlBalance Node;
  ChildNode ← (if Bal =? RtlRightHeavyAvlTree then load (RightChild Node)
               else load (LeftChild Node));
  cb ← RtlBalance ChildNode;
  if cb =? Bal then
    RtlpPromoteAvlTreeNode ChildNode;;
    RtlSetBalance ChildNode RtlBalancedAvlTree;;
    RtlSetBalance Node RtlBalancedAvlTree;;
    ret false
  else
  cb' ← RtlBalance ChildNode;
  if cb' =? - Bal then
    SubChildNode ← (if Bal =? RtlRightHeavyAvlTree then load (LeftChild ChildNode)
                    else load (RightChild ChildNode));
    RtlpPromoteAvlTreeNode SubChildNode;;
    RtlpPromoteAvlTreeNode SubChildNode;;
    sb ← RtlBalance SubChildNode;
    (if sb =? Bal then
       RtlSetBalance ChildNode RtlBalancedAvlTree;;
       RtlSetBalance Node (- Bal)
     else
       sb' ← RtlBalance SubChildNode;
       if sb' =? - Bal then
         RtlSetBalance ChildNode Bal;;
         RtlSetBalance Node RtlBalancedAvlTree
       else
         RtlSetBalance ChildNode RtlBalancedAvlTree;;
         RtlSetBalance Node RtlBalancedAvlTree);;
    RtlSetBalance SubChildNode RtlBalancedAvlTree;;
    ret false
  else
    RtlpPromoteAvlTreeNode ChildNode;;
    RtlSetBalance ChildNode (- Bal);;
    ret true.

(** One round of the loop of [RtlpInsertAvlTreeNode]; the state is [NewNode] and
    [NodeOrParent]. *)
Definition insert_round (Table : Z) (s : Z * Z) : M (Z * Z + unit) :=
  left ← RtlIsLeftChild s.1;
  let Bal := if left then RtlLeftHeavyAvlTree else RtlRightHeavyAvlTree in
  b ← RtlBalance s.2;
  if b =? RtlBalancedAvlTree then
    RtlSetBalance s.2 Bal;;
    p ← load (Parent s.2);
    ret (inl (s.2, p))
  else
  b' ← RtlBalance s.2;
  if negb (b' =? Bal) then
    RtlSetBalance s.2 RtlBalancedAvlTree;;
    rb ← RtlBalance (BalancedRoot Table);
    (if rb =? RtlBalancedAvlTree then
       d ← load (DepthOfTree Table);
       store (DepthOfTree Table) (u32 (d + 1))
     else ret tt);;
    ret (inr tt)
  else
    _ ← RtlpRebalanceAvlTreeNode s.2;
    ret (inr tt).

Definition RtlpInsertAvlTreeNode (Table NewNode NodeOrParent SearchResult : Z) : M unit :=
  store (RightChild NewNode) NULL;;
  store (LeftChild NewNode) NULL;;
  RtlSetBalance NewNode RtlBalancedAvlTree;;
  n ← load (AvlNumberGenericTableElements Table);
  store (AvlNumberGenericTableElements Table) (u32 (n + 1));;
  if SearchResult =? TableEmptyTree then
    RtlInsertAsRightChild (BalancedRoot Table) NewNode;;
    store (DepthOfTree Table) 1
  else
    (if SearchResult =? TableInsertAsLeft then RtlInsertAsLeftChild NodeOrParent NewNode
     else RtlInsertAsRightChild NodeOrParent NewNode);;
    RtlSetBalance (BalancedRoot Table) RtlLeftHeavyAvlTree;;
    while (insert_round Table) (NewNode, NodeOrParent).

(** The node that [RtlpDeleteAvlTreeNode] takes out of the tree in the place of [Node]. *)
Definition delete_candidate (Node : Z) : M Z :=
  l ← load (LeftChild Node);
  one ← (if l =? NULL then ret true else r ← load (RightChild Node); ret (r =? NULL));
  if one then ret Node
  else
    b ← RtlBalance Node;
    if RtlBalancedAvlTree <=? b then
      r ← load (RightChild Node);
      leftmost r
    else
      l' ← load (LeftChild Node);
      rightmost l'.

(** One round of the loop of [RtlpDeleteAvlTreeNode]; the state is [ParentNode] and
    [Balance]. *)
Definition delete_round (Table : Z) (s : Z * Z) : M (Z * Z + unit) :=
  let next (ParentNode : Z) : M (Z * Z + unit) :=
    right ← RtlIsRightChild ParentNode;
    p ← load (Parent ParentNode);
    ret (inl (p, if right then RtlRightHeavyAvlTree else RtlLeftHeavyAvlTree)) in
  b ← RtlBalance s.1;
  if b =? s.2 then
    RtlSetBalance s.1 RtlBalancedAvlTree;;
    next s.1
  else
  b' ← RtlBalance s.1;
  if b' =? RtlBalancedAvlTree then
    RtlSetBalance s.1 (- s.2);;
    rb ← RtlBalance (BalancedRoot Table);
    (if rb =? RtlBalancedAvlTree then ret tt
     else d ← load (DepthOfTree Table); store (DepthOfTree Table) (u32 (d - 1)));;
    ret (inr tt)
  else
    stop ← RtlpRebalanceAvlTreeNode s.1;
    if stop then ret (inr tt)
    else
      p ← load (Parent s.1);
      next p.

(** The end of the deletion: [DeleteNode] takes the place of [Node]. *)
Definition delete_replace (Node DeleteNode : Z) : M unit :=
  RtlpCopyAvlNodeData DeleteNode Node;;
  left ← RtlIsLeftChild Node;
  p ← load (Parent DeleteNode);
  store (if left then LeftChild p else RightChild p) DeleteNode;;
  adopt (LeftChild DeleteNode) DeleteNode;;
  adopt (RightChild DeleteNode) DeleteNode.

(** [DeleteNode] leaves the tree: its only child, if any, takes its place.  The result is
    the parent, and the balance of the side that has become lower. *)
Definition delete_unlink (DeleteNode : Z) : M (Z * Z) :=
  ParentNode ← load (Parent DeleteNode);
  l ← load (LeftChild DeleteNode);
  let Node1 := if l =? NULL then RightChild DeleteNode else LeftChild DeleteNode in
  left ← RtlIsLeftChild DeleteNode;
  let Node2 := if left then LeftChild ParentNode else RightChild ParentNode in
  left' ← RtlIsLeftChild DeleteNode;
  let Bal := if left' then RtlLeftHeavyAvlTree else RtlRightHeavyAvlTree in
  v ← load Node1;
  store Node2 v;;
  adopt Node1 ParentNode;;
  ret (ParentNode, Bal).

Definition RtlpDeleteAvlTreeNode (Table Node : Z) : M unit :=
  DeleteNode ← delete_candidate Node;
  s ← delete_unlink DeleteNode;
  RtlSetBalance (BalancedRoot Table) RtlBalancedAvlTree;;
  while (delete_round Table) s;;
  if Node =? DeleteNode then ret tt else delete_replace Node DeleteNode.

(** ** Rotations *)

(** A node whose child on the side [d] ([true] is left) is [u], and the frame of a position
    on the side [d]. *)
Definition bnode {A} (d : bool) (p : Z) (x : A) (u v : tree A) : tree A :=
  if d then Node p x u v else Node p x v u.

Definition bframe {A} (d : bool) (q : Z) (x : A) (s : tree A) : frame A :=
  if d then InL q x s else InR q x s.

Section promote.
Context {A : Type} (own : Z -> A -> hprop).

(** [RtlpPromoteAvlTreeNode] rotates a node above its parent. *)
Lemma promote_spec d n x a b p y r g c Φ :
  focus own (bnode d n x a b) (bframe d p y r :: g :: c) -∗
  (focus own (bnode d n x a (bnode d p y b r)) (g :: c) -∗ Φ tt) -∗
  wp (RtlpPromoteAvlTreeNode n) Φ.
Proof.
  iIntros "Hf HΦ". destruct d; unfold bnode, bframe, focus; simpl.
  - iDestruct "Hf" as "((%Hp & (HPp & HLp & HRp) & Hy & Hr & Hc) &
      %Hn & (HPn & HLn & HRn) & Hx & Ha & Hb)".
    unfold RtlpPromoteAvlTreeNode, RtlSetParent, RtlIsLeftChild. wp_run.
    wp_call. iApply (adopt_spec with "HLp Hb"). iIntros "HLp Hb".
    destruct g as [g z s|g z s]; simpl.
    + iDestruct "Hc" as "(%Hg & (HPg & HLg & HRg) & Hz & Hs & Hc)". wp_run.
      iApply "HΦ". by iFrame.
    + iDestruct "Hc" as "(%Hg & (HPg & HLg & HRg) & Hz & Hs & Hc)".
      iDestruct (addr_ne with "Hs HPp") as %Hsp; [done|]. wp_run.
      iApply "HΦ". by iFrame.
  - iDestruct "Hf" as "((%Hp & (HPp & HLp & HRp) & Hy & Hr & Hc) &
      %Hn & (HPn & HLn & HRn) & Hx & Hb & Ha)".
    iDestruct (addr_ne with "Hr HPn") as %Hrn; [done|].
    unfold RtlpPromoteAvlTreeNode, RtlSetParent, RtlIsLeftChild. wp_run.
    wp_call. iApply (adopt_spec with "HRp Hb"). iIntros "HRp Hb".
    destruct g as [g z s|g z s]; simpl.
    + iDestruct "Hc" as "(%Hg & (HPg & HLg & HRg) & Hz & Hs & Hc)". wp_run.
      iApply "HΦ". by iFrame.
    + iDestruct "Hc" as "(%Hg & (HPg & HLg & HRg) & Hz & Hs & Hc)".
      iDestruct (addr_ne with "Hs HPp") as %Hsp; [done|]. wp_run.
      iApply "HΦ". by iFrame.
Qed.
End promote.


(** ** Balanced trees *)

(** What a node keeps beside its links: its balance and the bytes of its element. *)
Definition avl_node (p : Z) (x : Z * list Z) : hprop :=
  (Balance p ↦ x.1 ∗ (∃ rs, ⌜length rs = 3%nat⌝ ∗ bytes_at (Reserved p) rs) ∗
   bytes_at (AvlUserData p) x.2)%I.

(** The balance of a node that is heavier on the side [d]. *)
Definition heavy (d : bool) : Z := if d then RtlLeftHeavyAvlTree else RtlRightHeavyAvlTree.

(** The tree after a rotation that lowers the heavy side [d] of [n]; [k] is its child there. *)
Definition rebalance_single (d : bool) (n : Z) (nb : Z) (xn : list Z) (k kb : Z) (xk : list Z)
    (o i L : tree (Z * list Z)) : tree (Z * list Z) :=
  bnode d k (kb, xk) o (bnode d n (nb, xn) i L).

Definition rebalance_double (d : bool) (n : Z) (xn : list Z) (k : Z) (xk : list Z) (m mb : Z)
    (xm : list Z) (o v w L : tree (Z * list Z)) : tree (Z * list Z) :=
  bnode d m (0, xm)
    (bnode d k (if mb =? - heavy d then heavy d else 0, xk) o v)
    (bnode d n (if mb =? heavy d then - heavy d else 0, xn) w L).

Lemma s8_small x : -1 <= x <= 1 -> s8 x = x.
Proof. unfold s8. intros. rw Z.mod_small; lia. Qed.

Lemma heavy_small d : -1 <= heavy d <= 1.
Proof. by destruct d. Qed.

Section rebalance.
Abbreviation focus := (focus avl_node).

Lemma bnode_negb {A} d p (x : A) u v : bnode (negb d) p x u v = bnode d p x v u.
Proof. by destruct d. Qed.

Lemma bnode_addr {A} d p (x : A) u v : addr (bnode d p x u v) = p.
Proof. by destruct d. Qed.

Lemma focus_bframe {A} (own : Z -> A -> hprop) d p x u v c :
  LinkTree.focus own (bnode d p x u v) c ⊣⊢ LinkTree.focus own u (bframe d p x v :: c).
Proof. destruct d; by rw focus_up. Qed.

(** Access to the balance of a node at a position. *)
Lemma focus_balance d p b x u v c :
  focus (bnode d p (b, x) u v) c ⊢
  Balance p ↦ b ∗ (∀ b', Balance p ↦ b' -∗ focus (bnode d p (b', x) u v) c).
Proof.
  destruct d; iIntros "(Hc & %Hp & Hl & ($ & Hr & Hd) & Ht)"; iIntros (b') "Hb"; by iFrame.
Qed.

Lemma set_balance_spec d p b x u v c w Φ :
  -1 <= w <= 1 ->
  focus (bnode d p (b, x) u v) c -∗ (focus (bnode d p (w, x) u v) c -∗ Φ tt) -∗
  wp (RtlSetBalance p w) Φ.
Proof.
  iIntros (Hw) "Hf HΦ". iDestruct (focus_balance with "Hf") as "[Hb Hf]".
  unfold RtlSetBalance. wp_store. rw s8_small //. iApply "HΦ". by iApply "Hf".
Qed.

Lemma balance_spec d p b x u v c Φ :
  focus (bnode d p (b, x) u v) c -∗ (focus (bnode d p (b, x) u v) c -∗ Φ b) -∗
  wp (RtlBalance p) Φ.
Proof.
  iIntros "Hf HΦ". iDestruct (focus_balance with "Hf") as "[Hb Hf]".
  unfold RtlBalance. wp_load. iApply "HΦ". by iApply "Hf".
Qed.

(** The child of a node on the side [d]. *)
Lemma child_spec {A} (own : Z -> A -> hprop) d p x u v c Φ :
  LinkTree.focus own (bnode d p x u v) c -∗
  (LinkTree.focus own (bnode d p x u v) c -∗ Φ (addr u)) -∗
  wp (load (if d then LeftChild p else RightChild p)) Φ.
Proof.
  destruct d; iIntros "(Hc & %Hp & (HP & HL & HR) & Ht) HΦ"; wp_load; iApply "HΦ"; by iFrame.
Qed.

Lemma focus_other {A} (own : Z -> A -> hprop) d p x u v c :
  LinkTree.focus own (bnode d p x u v) c ⊣⊢ LinkTree.focus own v (bframe (negb d) p x u :: c).
Proof. by rw -bnode_negb focus_bframe. Qed.

Lemma set_near_spec d p x e q b y u v t c w Φ :
  -1 <= w <= 1 ->
  focus (bnode d p x (bnode e q (b, y) u v) t) c -∗
  (focus (bnode d p x (bnode e q (w, y) u v) t) c -∗ Φ tt) -∗ wp (RtlSetBalance q w) Φ.
Proof. rw !(focus_bframe _ d p). apply set_balance_spec. Qed.

Lemma set_far_spec d p x e q b y u v t c w Φ :
  -1 <= w <= 1 ->
  focus (bnode d p x t (bnode e q (b, y) u v)) c -∗
  (focus (bnode d p x t (bnode e q (w, y) u v)) c -∗ Φ tt) -∗ wp (RtlSetBalance q w) Φ.
Proof. rw !(focus_other _ d p). apply set_balance_spec. Qed.

(** The heavier child, as [RtlpRebalanceAvlTreeNode] picks it. *)
Lemma heavy_child_spec {A} (own : Z -> A -> hprop) d n x u v c Φ :
  LinkTree.focus own (bnode d n x u v) c -∗
  (LinkTree.focus own (bnode d n x u v) c -∗ Φ (addr u)) -∗
  wp (if heavy d =? RtlRightHeavyAvlTree then load (RightChild n) else load (LeftChild n)) Φ.
Proof.
  iIntros "Hf HΦ".
  destruct d; [iApply (child_spec _ true with "Hf HΦ")|iApply (child_spec _ false with "Hf HΦ")].
Qed.

Lemma light_child_spec {A} (own : Z -> A -> hprop) d n x u v c Φ :
  LinkTree.focus own (bnode d n x u v) c -∗
  (LinkTree.focus own (bnode d n x u v) c -∗ Φ (addr v)) -∗
  wp (if heavy d =? RtlRightHeavyAvlTree then load (LeftChild n) else load (RightChild n)) Φ.
Proof.
  rw -bnode_negb. iIntros "Hf HΦ".
  destruct d; [iApply (child_spec _ false with "Hf HΦ")|iApply (child_spec _ true with "Hf HΦ")].
Qed.

Lemma rebalance_same_spec d n xn k xk o i L g c Φ :
  focus (bnode d n (heavy d, xn) (bnode d k (heavy d, xk) o i) L) (g :: c) -∗
  (focus (rebalance_single d n 0 xn k 0 xk o i L) (g :: c) -∗ Φ false) -∗
  wp (RtlpRebalanceAvlTreeNode n) Φ.
Proof.
  iIntros "Hf HΦ". unfold RtlpRebalanceAvlTreeNode.
  wp_call. iApply (balance_spec with "Hf"). iIntros "Hf".
  wp_call. iApply (heavy_child_spec with "Hf"). iIntros "Hf". rw bnode_addr focus_bframe.
  wp_call. iApply (balance_spec with "Hf"). iIntros "Hf". rw Z.eqb_refl.
  wp_call. iApply (promote_spec with "Hf"). iIntros "Hf".
  wp_call. iApply (set_balance_spec with "Hf"); [done|]. iIntros "Hf".
  wp_call. iApply (set_far_spec with "Hf"); [done|]. iIntros "Hf". wp_ret. by iApply "HΦ".
Qed.

Lemma rebalance_zero_spec d n xn k xk o i L g c Φ :
  focus (bnode d n (heavy d, xn) (bnode d k (0, xk) o i) L) (g :: c) -∗
  (focus (rebalance_single d n (heavy d) xn k (- heavy d) xk o i L) (g :: c) -∗ Φ true) -∗
  wp (RtlpRebalanceAvlTreeNode n) Φ.
Proof.
  iIntros "Hf HΦ". unfold RtlpRebalanceAvlTreeNode.
  wp_call. iApply (balance_spec with "Hf"). iIntros "Hf".
  wp_call. iApply (heavy_child_spec with "Hf"). iIntros "Hf". rw bnode_addr focus_bframe.
  wp_call. iApply (balance_spec with "Hf"). iIntros "Hf".
  rw (proj2 (Z.eqb_neq 0 (heavy d))); [|by destruct d].
  wp_call. iApply (balance_spec with "Hf"). iIntros "Hf".
  rw (proj2 (Z.eqb_neq 0 (- heavy d))); [|by destruct d].
  wp_call. iApply (promote_spec with "Hf"). iIntros "Hf".
  wp_call. iApply (set_balance_spec with "Hf"); [by destruct d|]. iIntros "Hf". wp_ret.
  by iApply "HΦ".
Qed.

Lemma rebalance_opposite_spec d n xn k xk o m mb xm v w L g c Φ :
  -1 <= mb <= 1 ->
  focus (bnode d n (heavy d, xn) (bnode d k (- heavy d, xk) o (bnode d m (mb, xm) v w)) L)
    (g :: c) -∗
  (focus (rebalance_double d n xn k xk m mb xm o v w L) (g :: c) -∗ Φ false) -∗
  wp (RtlpRebalanceAvlTreeNode n) Φ.
Proof.
  iIntros (Hmb) "Hf HΦ". unfold RtlpRebalanceAvlTreeNode.
  wp_call. iApply (balance_spec with "Hf"). iIntros "Hf".
  wp_call. iApply (heavy_child_spec with "Hf"). iIntros "Hf". rw bnode_addr focus_bframe.
  wp_call. iApply (balance_spec with "Hf"). iIntros "Hf".
  rw (proj2 (Z.eqb_neq (- heavy d) (heavy d))); [|by destruct d].
  wp_call. iApply (balance_spec with "Hf"). iIntros "Hf". rw Z.eqb_refl.
  wp_call. iApply (light_child_spec with "Hf"). iIntros "Hf".
  rw bnode_addr focus_other -(bnode_negb d m).
  wp_call. iApply (promote_spec with "Hf"). iIntros "Hf". rw !bnode_negb.
  wp_call. iApply (promote_spec with "Hf"). iIntros "Hf".
  wp_call. iApply (balance_spec with "Hf"). iIntros "Hf". unfold rebalance_double.
  destruct (Z.eqb_spec mb (heavy d)) as [->|Hd].
  - rw (proj2 (Z.eqb_neq (heavy d) (- heavy d))); [|by destruct d].
    wp_call. iApply (set_near_spec with "Hf"); [done|]. iIntros "Hf".
    wp_call. iApply (set_far_spec with "Hf"); [by destruct d|]. iIntros "Hf".
    wp_call. iApply (set_balance_spec with "Hf"); [done|]. iIntros "Hf". wp_ret. by iApply "HΦ".
  - wp_call. iApply (balance_spec with "Hf"). iIntros "Hf".
    destruct (Z.eqb_spec mb (- heavy d)) as [->|Hd'].
    + wp_call. iApply (set_near_spec with "Hf"); [by destruct d|]. iIntros "Hf".
      wp_call. iApply (set_far_spec with "Hf"); [done|]. iIntros "Hf".
      wp_call. iApply (set_balance_spec with "Hf"); [done|]. iIntros "Hf". wp_ret. by iApply "HΦ".
    + wp_call. iApply (set_near_spec with "Hf"); [done|]. iIntros "Hf".
      wp_call. iApply (set_far_spec with "Hf"); [done|]. iIntros "Hf".
      wp_call. iApply (set_balance_spec with "Hf"); [done|]. iIntros "Hf". wp_ret. by iApply "HΦ".
Qed.
End rebalance.

(** ** Heights *)

Abbreviation avl_tree := (tree (Z * list Z)).

Fixpoint height {A} (t : tree A) : Z :=
  match t with
  | Leaf => 0
  | Node _ _ l r => 1 + Z.max (height l) (height r)
  end.

(** The balance of each node is the difference of the heights of its subtrees, which is
    at most one. *)
Fixpoint avl (t : avl_tree) : Prop :=
  match t with
  | Leaf => True
  | Node _ x l r => x.1 = height r - height l /\ -1 <= x.1 <= 1 /\ avl l /\ avl r
  end.

(** A position in a balanced tree of height [H] where the subtree has the height [h]. *)
Fixpoint ctx_avl (c : list (frame (Z * list Z))) (h H : Z) : Prop :=
  match c with
  | [] => h = H
  | InL _ x r :: c' =>
      x.1 = height r - h /\ -1 <= x.1 <= 1 /\ avl r /\ ctx_avl c' (1 + Z.max h (height r)) H
  | InR _ x l :: c' =>
      x.1 = h - height l /\ -1 <= x.1 <= 1 /\ avl l /\ ctx_avl c' (1 + Z.max (height l) h) H
  end.

(** The elements of a tree, without the balances. *)
Definition strip (e : Z * (Z * list Z)) : Z * list Z := (e.1, e.2.2).
Definition elems (t : avl_tree) : list (Z * list Z) := strip <$> inorder t.

Section heights.
Implicit Types (t u v s : avl_tree) (c : list (frame (Z * list Z))).

Lemma height_nonneg {A} (t : tree A) : 0 <= height t.
Proof. induction t; simpl; lia. Qed.

Lemma height_bnode d p (x : Z * list Z) u v :
  height (bnode d p x u v) = 1 + Z.max (height u) (height v).
Proof. destruct d; simpl; lia. Qed.

Lemma avl_bnode d p x u v :
  avl (bnode d p x u v) <->
  x.1 = heavy d * (height u - height v) /\ -1 <= x.1 <= 1 /\ avl u /\ avl v.
Proof. destruct d; simpl; unfold RtlLeftHeavyAvlTree, RtlRightHeavyAvlTree; intuition lia. Qed.

Lemma ctx_avl_bframe d q x s c h H :
  ctx_avl (bframe d q x s :: c) h H <->
  x.1 = heavy d * (h - height s) /\ -1 <= x.1 <= 1 /\ avl s /\
  ctx_avl c (1 + Z.max h (height s)) H.
Proof.
  destruct d; simpl; unfold RtlLeftHeavyAvlTree, RtlRightHeavyAvlTree.
  - intuition lia.
  - rw (Z.max_comm h). intuition lia.
Qed.

Lemma frame_cases (f : frame (Z * list Z)) : exists d q b x s, f = bframe d q (b, x) s.
Proof. destruct f as [q [b x] r|q [b x] l]; [exists true|exists false]; by eexists _, _, _, _. Qed.

Lemma node_cases t : t <> Leaf -> forall d, exists p b x u v, t = bnode d p (b, x) u v.
Proof.
  destruct t as [|p [b x] l r]; [done|]. intros _ d. exists p, b, x. destruct d; by eexists _, _.
Qed.

Lemma plug_bframe d q x s t c : plug t (bframe d q x s :: c) = plug (bnode d q x t s) c.
Proof. by destruct d. Qed.

Lemma plug_avl t c h H :
  avl t -> height t = h -> ctx_avl c h H -> avl (plug t c) /\ height (plug t c) = H.
Proof.
  revert t h. induction c as [|f c IH]; intros t h Ht Hh Hc; [simpl in Hc; by subst|].
  destruct (frame_cases f) as (d & q & b & x & s & ->). apply ctx_avl_bframe in Hc.
  destruct Hc as (Hb & Hb1 & Hs & Hc). rw plug_bframe. eapply IH; [|..|exact Hc].
  - apply avl_bnode. by subst h.
  - rw height_bnode. lia.
Qed.

Lemma avl_plug t c : avl (plug t c) -> avl t /\ ctx_avl c (height t) (height (plug t c)).
Proof.
  revert t. induction c as [|f c IH]; intros t Ht; [done|].
  destruct (frame_cases f) as (d & q & b & x & s & ->). rw plug_bframe in Ht.
  apply IH in Ht as [Ht Hc]. apply avl_bnode in Ht as (Hb & Hb1 & Ht & Hs).
  split; [done|]. rw plug_bframe. apply ctx_avl_bframe. rw height_bnode in Hc. done.
Qed.

Lemma elems_plug t c : elems (plug t c) = (strip <$> before c) ++ elems t ++ (strip <$> after c).
Proof. by rw /elems inorder_plug !fmap_app. Qed.

Lemma elems_plug_eq t t' c : elems t = elems t' -> elems (plug t c) = elems (plug t' c).
Proof. intros E. by rw !elems_plug E. Qed.

Lemma elems_node p x l r : elems (Node p x l r) = elems l ++ (p, x.2) :: elems r.
Proof. by rw /elems /= fmap_app. Qed.

Lemma elems_balance d p b b' x u v : elems (bnode d p (b, x) u v) = elems (bnode d p (b', x) u v).
Proof. destruct d; by rw /= !elems_node. Qed.
End heights.

(** ** Rebalancing *)

Definition root_balance (t : avl_tree) : Z :=
  match t with
  | Leaf => 0
  | Node _ x _ _ => x.1
  end.

(** The tree [T] repairs a node [n] whose subtree [K] on the side [d] is two levels higher
    than [L]; [n] ends below the root of [T]. *)
Definition repaired (d : bool) (n : Z) (xn : list Z) (K L T : avl_tree) : Prop :=
  avl T /\ height T = height L + (if root_balance K =? 0 then 3 else 2) /\
  elems T = elems (bnode d n (heavy d, xn) K L) /\
  exists k y o y' i, T = bnode d k y o (bnode d n y' i L).

Lemma repaired_single d n xn k kb xk o i L :
  avl (bnode d k (kb, xk) o i) -> avl L -> height (bnode d k (kb, xk) o i) = height L + 2 ->
  kb = heavy d \/ kb = 0 ->
  repaired d n xn (bnode d k (kb, xk) o i) L
    (rebalance_single d n (heavy d - kb) xn k (kb - heavy d) xk o i L).
Proof.
  rw avl_bnode height_bnode /=. intros (Hkb & Hk1 & Ho & Hi) HL Hh Hk.
  unfold repaired, rebalance_single. rw !avl_bnode !height_bnode /=.
  pose proof (height_nonneg L).
  replace (root_balance _) with kb by by destruct d.
  assert (heavy d = 1 \/ heavy d = -1) as Hd by (destruct d; auto).
  assert (kb = 0 -> height o = height i) by nia. assert (kb <> 0 -> height o = height i + 1) by nia.
  assert (heavy d * (height o - height i) = kb) by lia.
  destruct (Z.eqb_spec kb 0) as [->|Hne].
  - split; [repeat split; try done; nia|]. split; [nia|]. split; [|by eexists _, _, _, _, _].
    destruct d; rw /= !elems_node; by norm_app.
  - assert (kb = heavy d) as -> by lia. rw Z.sub_diag.
    split; [repeat split; try done; nia|]. split; [nia|]. split; [|by eexists _, _, _, _, _].
    destruct d; rw /= !elems_node; by norm_app.
Qed.

Lemma repaired_double d n xn k xk o m mb xm v w L :
  avl (bnode d k (- heavy d, xk) o (bnode d m (mb, xm) v w)) -> avl L ->
  height (bnode d k (- heavy d, xk) o (bnode d m (mb, xm) v w)) = height L + 2 ->
  repaired d n xn (bnode d k (- heavy d, xk) o (bnode d m (mb, xm) v w)) L
    (rebalance_double d n xn k xk m mb xm o v w L).
Proof.
  rw !avl_bnode !height_bnode /=. intros (Hkb & _ & Ho & Hmb & Hm1 & Hv & Hw) HL Hh.
  unfold repaired, rebalance_double. rw !avl_bnode !height_bnode /=.
  replace (root_balance _) with (- heavy d) by by destruct d.
  assert (heavy d = 1 \/ heavy d = -1) as Hd by (destruct d; auto).
  rw (proj2 (Z.eqb_neq (- heavy d) 0)); [|lia].
  assert (height o = height L) by nia.
  assert (1 + Z.max (height v) (height w) = height L + 1) by nia.
  split; [|split; [nia|split; [|by eexists _, _, _, _, _]]].
  - destruct (Z.eqb_spec mb (- heavy d)), (Z.eqb_spec mb (heavy d));
      repeat split; try done; nia.
  - destruct d; rw /= !elems_node; by norm_app.
Qed.

Lemma repair_spec d n xn K L g c Φ :
  avl K -> avl L -> height K = height L + 2 ->
  focus avl_node (bnode d n (heavy d, xn) K L) (g :: c) -∗
  (∀ T, ⌜repaired d n xn K L T⌝ -∗ focus avl_node T (g :: c) -∗ Φ (root_balance K =? 0)) -∗
  wp (RtlpRebalanceAvlTreeNode n) Φ.
Proof.
  iIntros (HK HL Hh) "Hf HΦ". pose proof (height_nonneg L).
  destruct (node_cases K) with (d := d) as (k & kb & xk & o & i & ->); [by intros ->; simpl in *; lia|].
  pose proof (proj1 (avl_bnode _ _ _ _ _) HK) as (Hkb & Hk1 & Ho & Hi).
  replace (root_balance _) with kb by by destruct d.
  assert (heavy d = 1 \/ heavy d = -1) as Hd by (destruct d; auto). simpl in Hkb, Hk1.
  destruct (decide (kb = 0)) as [->|Hne]; [|destruct (decide (kb = heavy d)) as [->|Hne']].
  - iApply (rebalance_zero_spec with "Hf"). iIntros "Hf". iApply ("HΦ" with "[%] Hf").
    pose proof (repaired_single d n xn k 0 xk o i L HK HL Hh) as Hr.
    rw Z.sub_0_r in Hr. apply Hr. by right.
  - iApply (rebalance_same_spec with "Hf"). iIntros "Hf".
    rw (proj2 (Z.eqb_neq (heavy d) 0)); [|lia]. iApply ("HΦ" with "[%] Hf").
    pose proof (repaired_single d n xn k (heavy d) xk o i L HK HL Hh) as Hr.
    rw Z.sub_diag in Hr. apply Hr. by left.
  - assert (kb = - heavy d) as -> by lia.
    destruct (node_cases i) with (d := d) as (m & mb & xm & v & w & ->).
    { intros ->. pose proof (height_nonneg o). simpl in *. nia. }
    iApply (rebalance_opposite_spec with "Hf"); [by apply avl_bnode in Hi as (_ & ? & _)|].
    iIntros "Hf". rw (proj2 (Z.eqb_neq (- heavy d) 0)); [|lia].
    iApply ("HΦ" with "[%] Hf"). by apply repaired_double.
Qed.
