(* ===== verification/AvlInsert.v ===== *)
(** * Insertion into a balanced tree: [RtlpInsertAvlTreeNode] of sdk/lib/rtl/avlsupp.c

    The header node of a table is the last frame of every position: the tree is its right
    child.  The loop invariant says that the subtree at the position has grown by one level
    and is balanced, and that the rest of the tree is as before; the theorem is that the
    tree is balanced again at the end, holds the new element in its place, and that
    [DepthOfTree] is its height. *)

From Stdlib Require Import ZArith Lia.
From S2P Require Import Prelude.
From stdpp Require Import gmap.
From iris.proofmode Require Import proofmode.
From S2P Require Import HeapLogic LinkTree SplayTree TableCommon AvlTree.

#[local] Open Scope Z_scope.

(** ** Positions *)

Lemma is_left_bframe {A} (own : Z -> A -> hprop) d q y s t c Φ :
  t <> Leaf ->
  focus own t (bframe d q y s :: c) -∗ (focus own t (bframe d q y s :: c) -∗ Φ d) -∗
  wp (RtlIsLeftChild (addr t)) Φ.
Proof.
  iIntros (Ht) "Hf HΦ". destruct t as [|p x l r]; [done|].
  iApply (is_left_spec with "Hf"). by destruct d.
Qed.

Lemma parent_spec {A} (own : Z -> A -> hprop) d p x u v c Φ :
  focus own (bnode d p x u v) c -∗ (focus own (bnode d p x u v) c -∗ Φ (parent_of p c)) -∗
  wp (load (Parent p)) Φ.
Proof.
  iIntros "Hf HΦ".
  destruct d; iDestruct "Hf" as "(Hc & %Hp & (HP & HL & HR) & Ht)"; simpl; wp_load;
    iApply "HΦ"; by iFrame.
Qed.

(** ** The header *)

(** The frame of the header of [Table], whose balance is [b]. *)
Definition header (Table b : Z) : frame (Z * list Z) := InR (BalancedRoot Table) (b, []) Leaf.

(** The tree [t] below the header of [Table]. *)
Definition avl_rooted (Table b : Z) (t : avl_tree) : hprop :=
  focus avl_node t [header Table b].

Section header.
Implicit Types (t : avl_tree) (c : list (frame (Z * list Z))).

Lemma focus_header t c Table b :
  focus avl_node t (c ++ [header Table b]) ⊣⊢ avl_rooted Table b (plug t c).
Proof. by rw /avl_rooted !focus_plug plug_app. Qed.

Lemma avl_rooted_node Table b t :
  avl_rooted Table b t ⊣⊢ focus avl_node (bnode false (BalancedRoot Table) (b, []) t Leaf) [].
Proof. by rw focus_bframe. Qed.

(** The balance of the header, read and written from any position. *)
Lemma header_balance_spec t c Table b Φ :
  focus avl_node t (c ++ [header Table b]) -∗
  (focus avl_node t (c ++ [header Table b]) -∗ Φ b) -∗ wp (RtlBalance (BalancedRoot Table)) Φ.
Proof. rw focus_header avl_rooted_node. apply balance_spec. Qed.

Lemma set_header_spec t c Table b w Φ :
  -1 <= w <= 1 ->
  focus avl_node t (c ++ [header Table b]) -∗
  (focus avl_node t (c ++ [header Table w]) -∗ Φ tt) -∗
  wp (RtlSetBalance (BalancedRoot Table) w) Φ.
Proof. rw !focus_header !avl_rooted_node. apply set_balance_spec. Qed.

(** ** The loop *)

Context (Table : Z).

(** What the loop leaves behind: a balanced tree of the elements [E]. *)
Definition insert_done (E : list (Z * list Z)) (Φ : unit -> hprop) : hprop :=
  (∀ T b, ⌜avl T /\ elems T = E⌝ -∗ avl_rooted Table b T -∗
     DepthOfTree Table ↦ u32 (height T) -∗ Φ tt)%I.

(** The subtree [t] at the position has grown from the height [h]. *)
Definition insert_inv (E : list (Z * list Z)) (Φ : unit -> hprop) (k : nat) (s : Z * Z) : hprop :=
  (∃ t c (h H : Z),
     ⌜s = (addr t, parent_of (addr t) (c ++ [header Table (-1)])) /\ k = length c /\
      t <> Leaf /\ avl t /\ height t = (h + 1)%Z /\ (h = 0 \/ root_balance t <> 0) /\
      ctx_avl c h H /\ elems (plug t c) = E⌝ ∗
     focus avl_node t (c ++ [header Table (-1)]) ∗ DepthOfTree Table ↦ u32 H ∗
     insert_done E Φ)%I.

(** At the header the height of the whole tree has grown. *)
Lemma insert_round_top t h Φ :
  t <> Leaf -> avl t -> height t = h + 1 ->
  focus avl_node t [header Table (-1)] -∗ DepthOfTree Table ↦ u32 h -∗
  insert_done (elems t) (fun b => Φ (inr b)) -∗
  wp (insert_round Table (addr t, BalancedRoot Table)) Φ.
Proof.
  iIntros (Hn Ht Hh) "Hf Hd HΦ". unfold insert_round. cbn [fst snd].
  wp_call. iApply (is_left_bframe _ false with "Hf"); [done|]. iIntros "Hf".
  wp_call. iApply (header_balance_spec t [] with "Hf"). iIntros "Hf". wp_test.
  wp_call. iApply (header_balance_spec t [] with "Hf"). iIntros "Hf". wp_test.
  wp_call. iApply (set_header_spec t [] with "Hf"); [done|]. iIntros "Hf".
  wp_call. iApply (header_balance_spec t [] with "Hf"). iIntros "Hf". wp_test.
  wp_load. wp_store. wp_ret. iApply ("HΦ" with "[//] Hf"). rw Hh.
  by rw /u32 Z.add_mod_idemp_l.
Qed.

Lemma insert_round_inv E Φ : round_ok (insert_round Table) (insert_inv E Φ) Φ.
Proof.
  intros k s. iIntros "(%t & %c & %h & %H & (-> & -> & %Hn & %Ht & %Hh & %Hb & %Hc & <-) & Hf & Hd & HΦ)".
  destruct c as [|f c].
  { simpl in Hc. subst h. by iApply (insert_round_top with "Hf Hd HΦ"). }
  destruct (frame_cases f) as (d & q & b & x & s & ->). rw plug_bframe.
  apply ctx_avl_bframe in Hc as (Hq & Hq1 & Hs & Hc). simpl in Hq, Hq1 |- *.
  assert (faddr (bframe d q (b, x) s) = q) as -> by by destruct d.
  assert (heavy d = 1 \/ heavy d = -1) as Hd by (destruct d; auto).
  unfold insert_round. cbn [fst snd].
  wp_call. iApply (is_left_bframe with "Hf"); [done|]. iIntros "Hf". rw -focus_bframe.
  wp_call. iApply (balance_spec with "Hf"). iIntros "Hf". fold (heavy d).
  destruct (Z.eqb_spec b RtlBalancedAvlTree) as [->|Hb0]; unfold RtlBalancedAvlTree in *.
  - assert (height s = h) as Hsh by nia.
    wp_call. iApply (set_balance_spec with "Hf"); [apply heavy_small|]. iIntros "Hf".
    wp_call. iApply (parent_spec with "Hf"). iIntros "Hf". wp_ret.
    iExists (length c). iSplit; [iPureIntro; simpl; lia|].
    iExists _, c, (1 + h), H. iFrame. iPureIntro. rw height_bnode avl_bnode bnode_addr.
    rw Hsh Z.max_id in Hc.
    split; [done|]. split; [done|]. split; [by destruct d|]. split; [simpl; repeat split; try done; nia|].
    split; [nia|]. split; [right; by destruct d|]. split; [done|].
    by apply elems_plug_eq, elems_balance.
  - wp_call. iApply (balance_spec with "Hf"). iIntros "Hf".
    destruct (Z.eqb_spec b (heavy d)) as [->|Hbd]; simpl.
    + assert (height t = height s + 2) by nia.
      assert (root_balance t <> 0) as Hr by (pose proof (height_nonneg s); lia).
      destruct (c ++ [header Table (-1)]) as [|g c'] eqn:Ec; [by destruct c|].
      wp_call. iApply (repair_spec with "Hf"); [done..|]. iIntros (T (HT & Hht & He & _)) "Hf".
      wp_ret. rw -Ec focus_header. rw (proj2 (Z.eqb_neq _ _) Hr) in Hht.
      destruct (plug_avl T c _ H HT Hht) as [HT' Hh'].
      { by replace (height s + 2) with (1 + h `max` height s) by nia. }
      iApply ("HΦ" with "[%] Hf"); [|by rw Hh'].
      split; [done|]. by apply elems_plug_eq.
    + assert (height s = h + 1) as Hsh by nia.
      wp_call. iApply (set_balance_spec with "Hf"); [done|]. iIntros "Hf".
      wp_call. iApply (header_balance_spec with "Hf"). iIntros "Hf". wp_test. wp_ret.
      rw focus_header. destruct (plug_avl (bnode d q (0, x) t s) c (1 + h + 1) H) as [HT' Hh'].
      * rw avl_bnode /=. repeat split; try done; nia.
      * rw height_bnode. nia.
      * by replace (1 + h + 1) with (1 + h `max` height s) by nia.
      * iApply ("HΦ" with "[%] Hf"); [|by rw Hh'].
        split; [done|]. by apply elems_plug_eq, elems_balance.
Qed.

Lemma insert_loop_spec n k q f c H0 Φ :
  faddr f = q ->
  ctx_avl (f :: c) 0 H0 ->
  focus avl_node (Node n (0, k) Leaf Leaf) (f :: c ++ [header Table (-1)]) -∗
  DepthOfTree Table ↦ u32 H0 -∗
  insert_done (elems (plug (Node n (0, k) Leaf Leaf) (f :: c))) Φ -∗
  wp (while (insert_round Table) (n, q)) Φ.
Proof.
  iIntros (<- Hc) "Hf Hd HΦ".
  iApply (wp_while _ (insert_inv _ Φ) Φ (length (f :: c))).
  - apply insert_round_inv.
  - iIntros "(% & %c' & % & % & (_ & -> & _) & [Hc _] & _)". iDestruct (ctx_cells with "Hc") as "Hc".
    iApply (cells_le with "Hc"). rw length_app. lia.
  - iExists (Node n (0, k) Leaf Leaf), (f :: c), 0, H0. iFrame. iPureIntro.
    split; [done|]. split; [done|]. split; [done|]. split; [done|]. split; [done|]. by auto.
Qed.

(** The memory of a node with the data [k] that is in no tree. *)
Definition avl_free (n : Z) (k : list Z) : hprop :=
  (⌜n <> NULL⌝ ∗ (∃ u v w, links n u v w) ∗ (∃ b, Balance n ↦ b) ∗
   (∃ rs, ⌜length rs = 3%nat⌝ ∗ bytes_at (Reserved n) rs) ∗ bytes_at (AvlUserData n) k)%I.

Lemma insert_empty_spec n k N b d q Φ :
  avl_free n k -∗ avl_rooted Table b Leaf -∗
  AvlNumberGenericTableElements Table ↦ N -∗ DepthOfTree Table ↦ d -∗
  (AvlNumberGenericTableElements Table ↦ u32 (N + 1) -∗ insert_done [(n, k)] Φ) -∗
  wp (RtlpInsertAvlTreeNode Table n q TableEmptyTree) Φ.
Proof.
  iIntros "(%Hn & (% & % & % & HP & HL & HR) & (% & HB) & Hrs & Hk) Hf HN Hd HΦ".
  unfold RtlpInsertAvlTreeNode, RtlSetBalance, RtlInsertAsRightChild.
  iDestruct "Hf" as "[(%HT & (HPT & HLT & HRT) & Hx & Hl & Hc) _]". cbn [addr].
  wp_run. iSpecialize ("HΦ" with "HN").
  iApply ("HΦ" $! (Node n (0, k) Leaf Leaf) b with "[//] [-Hd] Hd"). 
  iDestruct "Hx" as "(Hb & Hrs0 & Hx)". by iFrame.
Qed.

(** The new node becomes a child of [q]. *)
Lemma insert_link n k d q x s c Φ :
  n <> NULL ->
  focus avl_node Leaf (bframe d q x s :: c) -∗
  (∃ u, links n u NULL NULL) -∗ avl_node n (0, k) -∗
  (focus avl_node (Node n (0, k) Leaf Leaf) (bframe d q x s :: c) -∗ Φ tt) -∗
  wp (if (if d then TableInsertAsLeft else TableInsertAsRight) =? TableInsertAsLeft
      then RtlInsertAsLeftChild q n else RtlInsertAsRightChild q n) Φ.
Proof.
  iIntros (Hn) "Hf (%u & HP & HL & HR) Hk HΦ".
  destruct d; iDestruct "Hf" as "[(%Hq & (HPq & HLq & HRq) & Hf) _]"; cbn [addr];
    unfold RtlInsertAsLeftChild, RtlInsertAsRightChild; simpl; wp_run; iApply "HΦ"; by iFrame.
Qed.

Lemma insert_below_spec n k N b d q x s c Φ :
  let t := plug (bnode d q x Leaf s) c in
  avl t ->
  avl_free n k -∗ avl_rooted Table b t -∗
  AvlNumberGenericTableElements Table ↦ N -∗ DepthOfTree Table ↦ u32 (height t) -∗
  (AvlNumberGenericTableElements Table ↦ u32 (N + 1) -∗
   insert_done (elems (plug (Node n (0, k) Leaf Leaf) (bframe d q x s :: c))) Φ) -∗
  wp (RtlpInsertAvlTreeNode Table n q
        (if d then TableInsertAsLeft else TableInsertAsRight)) Φ.
Proof.
  iIntros (t Ht) "(%Hn & (% & % & % & HP & HL & HR) & (% & HB) & Hrs & Hk) Hf HN Hd HΦ".
  unfold RtlpInsertAvlTreeNode. unfold RtlSetBalance at 1. wp_run.
  rw -(focus_header _ c) focus_bframe.
  assert (t = plug Leaf (bframe d q x s :: c)) as Et by (by destruct d).
  rw Et in Ht. apply avl_plug in Ht as [_ Hc]. rw -Et in Hc.
  replace ((if d then TableInsertAsLeft else TableInsertAsRight) =? TableEmptyTree) with false
    by by destruct d.
  wp_call. iApply (insert_link with "Hf [HP HL HR] [HB Hrs Hk]"); [done|iExists _; iFrame|iFrame|].
  iIntros "Hf". rw app_comm_cons.
  wp_call. iApply (set_header_spec with "Hf"); [done|]. iIntros "Hf".
  iApply (insert_loop_spec with "Hf Hd"); [by destruct d|done|]. by iApply "HΦ".
Qed.
End header.
