(* ===== verification/AvlDelete.v ===== *)
(** * Deletion from a balanced tree: [RtlpDeleteAvlTreeNode] of sdk/lib/rtl/avlsupp.c

    A node with two children gives its place to a neighbour, which is taken out of the tree
    in its stead.  The loop invariant says that the subtree at the position is balanced and
    one level lower than before, and that the rest of the tree is as before; the theorem is
    that the tree is balanced again at the end, holds every element but the deleted one, and
    that [DepthOfTree] is its height. *)

From Stdlib Require Import ZArith Lia.
From S2P Require Import Prelude.
From stdpp Require Import gmap.
From iris.proofmode Require Import proofmode.
From S2P Require Import HeapLogic LinkTree SplayTree SplayDelete TableCommon AvlTree AvlInsert.

#[local] Open Scope Z_scope.

Section delete.
Context (Table : Z).
Implicit Types (t l r s : avl_tree) (c : list (frame (Z * list Z))).

(** ** The loop *)

(** What the loop leaves behind: a balanced tree of the elements [E]. *)
Definition delete_done (E : list (Z * list Z)) (Φ : unit -> hprop) : hprop :=
  (∀ T b, ⌜avl T /\ elems T = E⌝ -∗ avl_rooted Table b T -∗
     DepthOfTree Table ↦ u32 (height T) -∗ Φ tt)%I.

(** The side of a position below its parent. *)
Definition side c : Z := heavy (is_left c).

(** The subtree [t] at the position has shrunk from the height [h]. *)
Definition delete_inv (E : list (Z * list Z)) (Φ : unit -> hprop) (k : nat) (s : Z * Z) : hprop :=
  (∃ t c (h H : Z),
     ⌜s = (parent_of NULL (c ++ [header Table 0]), side (c ++ [header Table 0])) /\
      k = length c /\ avl t /\ height t = (h - 1)%Z /\ ctx_avl c h H /\ elems (plug t c) = E⌝ ∗
     focus avl_node t (c ++ [header Table 0]) ∗ DepthOfTree Table ↦ u32 H ∗
     delete_done E Φ)%I.

(** At the header the height of the whole tree has shrunk. *)
Lemma delete_round_top t h Φ :
  avl t -> height t = h - 1 ->
  focus avl_node t [header Table 0] -∗ DepthOfTree Table ↦ u32 h -∗
  delete_done (elems t) (fun b => Φ (inr b)) -∗
  wp (delete_round Table (BalancedRoot Table, RtlRightHeavyAvlTree)) Φ.
Proof.
  iIntros (Ht Hh) "Hf Hd HΦ". unfold delete_round. cbn [fst snd].
  wp_call. iApply (header_balance_spec t [] with "Hf"). iIntros "Hf". wp_test.
  wp_call. iApply (header_balance_spec t [] with "Hf"). iIntros "Hf". wp_test.
  wp_call. iApply (set_header_spec t [] with "Hf"); [done|]. iIntros "Hf".
  wp_call. iApply (header_balance_spec t [] with "Hf"). iIntros "Hf". wp_test.
  wp_load. wp_store. wp_ret. iApply ("HΦ" with "[//] Hf"). rw Hh.
  by rw /u32 Zminus_mod_idemp_l.
Qed.

(** The loop goes on from the node [q], whose subtree has shrunk. *)
Lemma delete_next_spec d q x u v c (Φ : Z * Z + unit -> hprop) :
  focus avl_node (bnode d q x u v) (c ++ [header Table 0]) -∗
  (focus avl_node (bnode d q x u v) (c ++ [header Table 0]) -∗
   Φ (inl (parent_of NULL (c ++ [header Table 0]), side (c ++ [header Table 0])))) -∗
  wp (right ← RtlIsRightChild q;
      p ← load (Parent q);
      ret (inl (p, if right then RtlRightHeavyAvlTree else RtlLeftHeavyAvlTree))) Φ.
Proof.
  iIntros "Hf HΦ".
  iAssert (wp (RtlIsRightChild q) (fun b => ⌜b = is_right (c ++ [header Table 0])⌝ ∗
    focus avl_node (bnode d q x u v) (c ++ [header Table 0])))%I with "[Hf]" as "Hright".
  { destruct d; (iApply (is_right_spec with "Hf"); by iIntros "$"). }
  wp_call. iApply (wp_wand with "Hright"). iIntros (b) "[-> Hf]".
  wp_call. iApply (parent_spec with "Hf"). iIntros "Hf". wp_ret.
  iSpecialize ("HΦ" with "Hf").
  destruct c as [|[] c]; iExact "HΦ".
Qed.

Lemma delete_round_inv E Φ : round_ok (delete_round Table) (delete_inv E Φ) Φ.
Proof.
  intros k s. iIntros "(%t & %c & %h & %H & (-> & -> & %Ht & %Hh & %Hc & <-) & Hf & Hd & HΦ)".
  destruct c as [|f c].
  { simpl in Hc. subst h. by iApply (delete_round_top with "Hf Hd HΦ"). }
  destruct (frame_cases f) as (d & q & b & x & s & ->). rw plug_bframe.
  apply ctx_avl_bframe in Hc as (Hq & Hq1 & Hs & Hc). simpl in Hq, Hq1 |- *.
  assert (faddr (bframe d q (b, x) s) = q) as -> by by destruct d.
  assert (side (bframe d q (b, x) s :: c ++ [header Table 0]) = heavy d) as -> by by destruct d.
  assert (heavy d = 1 \/ heavy d = -1) as Hd by (destruct d; auto).
  pose proof (height_nonneg t).
  unfold delete_round. cbn [fst snd]. rw -focus_bframe.
  wp_call. iApply (balance_spec with "Hf"). iIntros "Hf".
  destruct (Z.eqb_spec b (heavy d)) as [->|Hbd].
  - assert (height s = h - 1) by nia.
    wp_call. iApply (set_balance_spec with "Hf"); [done|]. iIntros "Hf".
    unfold RtlBalancedAvlTree in *.
    iApply (delete_next_spec with "Hf"). iIntros "Hf".
    iExists (length c). iSplit; [iPureIntro; simpl; lia|].
    iExists _, c, (1 + h `max` height s), H. iFrame. iPureIntro. rw height_bnode avl_bnode /=.
    split; [done|]. split; [done|]. split; [repeat split; try done; nia|].
    split; [nia|]. split; [done|]. by apply elems_plug_eq, elems_balance.
  - wp_call. iApply (balance_spec with "Hf"). iIntros "Hf".
    destruct (Z.eqb_spec b RtlBalancedAvlTree) as [->|Hb0]; unfold RtlBalancedAvlTree in *.
    + assert (height s = h) by nia.
      wp_call. iApply (set_balance_spec with "Hf"); [by destruct d|]. iIntros "Hf".
      wp_call. iApply (header_balance_spec with "Hf"). iIntros "Hf". wp_test. wp_ret.
      rw focus_header.
      destruct (plug_avl (bnode d q (- heavy d, x) t s) c (1 + h `max` height s) H) as [HT' Hh'].
      * rw avl_bnode /=. repeat split; try done; nia.
      * rw height_bnode. nia.
      * done.
      * iApply ("HΦ" with "[%] Hf"); [|by rw Hh'].
        split; [done|]. by apply elems_plug_eq, elems_balance.
    + assert (heavy (negb d) = - heavy d) as Hneg by by destruct d.
      assert (b = heavy (negb d)) as -> by lia. assert (height s = h + 1) by nia.
      rw -bnode_negb.
      destruct (c ++ [header Table 0]) as [|g c'] eqn:Ec; [by destruct c|].
      wp_call. iApply (repair_spec with "Hf"); [done|done|lia|].
      iIntros (T (HT & Hht & He & k & y & o & y' & i & ET)) "Hf". rw -Ec bnode_negb in He |- *.
      destruct (root_balance s =? 0).
      * wp_ret. rw focus_header.
        destruct (plug_avl T c (1 + h `max` height s) H HT) as [HT' Hh']; [lia|done|].
        iApply ("HΦ" with "[%] Hf"); [|by rw Hh'].
        split; [done|]. rw (elems_plug_eq _ _ _ He). by apply elems_plug_eq, elems_balance.
      * rw ET focus_other. wp_call. iApply (parent_spec with "Hf"). iIntros "Hf".
        assert (parent_of q (bframe (negb (negb d)) k y o :: c ++ [header Table 0]) = k) as ->.
        { by destruct d. }
        rw -focus_other. iApply (delete_next_spec with "Hf"). iIntros "Hf".
        iExists (length c). iSplit; [iPureIntro; simpl; lia|].
        rw -ET. iExists _, c, (1 + h `max` height s), H. iFrame. iPureIntro.
        split; [done|]. split; [done|]. split; [done|]. split; [lia|]. split; [done|].
        rw (elems_plug_eq _ _ _ He). by apply elems_plug_eq, elems_balance.
Qed.

Lemma delete_loop_spec t c h H0 b Φ :
  avl t -> height t = h - 1 -> ctx_avl c h H0 ->
  focus avl_node t (c ++ [header Table 0]) -∗ DepthOfTree Table ↦ u32 H0 -∗
  delete_done (elems (plug t c)) Φ -∗
  wp (while (delete_round Table) (parent_of NULL (c ++ [header Table b]), side (c ++ [header Table b]))) Φ.
Proof.
  iIntros (Ht Hh Hc) "Hf Hd HΦ".
  iApply (wp_while _ (delete_inv _ Φ) Φ (length c)).
  - apply delete_round_inv.
  - iIntros "(% & %c' & % & % & (_ & -> & _) & [Hc _] & _)". iDestruct (ctx_cells with "Hc") as "Hc".
    iApply (cells_le with "Hc"). rw length_app. lia.
  - iExists t, c, h, H0. iFrame. iPureIntro. by destruct c.
Qed.

(** ** Taking a node out *)

Lemma avl_unlink_spec m b y l r d q xq s c Φ :
  is_node l && is_node r = false ->
  focus avl_node (Node m (b, y) l r) (bframe d q xq s :: c) -∗
  (focus avl_node (single l r) (bframe d q xq s :: c) -∗ avl_free m y -∗ Φ (q, heavy d)) -∗
  wp (delete_unlink m) Φ.
Proof.
  iIntros (Hone) "Hf HΦ".
  destruct d; unfold focus, delete_unlink, RtlIsLeftChild; simpl;
    iDestruct "Hf" as "((%Hq & (HPq & HLq & HRq) & Hy & Hs & Hc) &
      %Hm & (HPm & HLm & HRm) & (HB & Hrs & Hb) & Hl & Hr)";
    [|iDestruct (addr_ne with "Hs HPm") as %Hsm; [done|]];
    (destruct l as [|k z u v]; [|iDestruct (tree_node_nonnull with "Hl") as %Hk]);
    cbn [single addr]; wp_run.
  all: wp_call; first [ iApply (adopt_spec with "HRm Hr"); iIntros "HRm Hr"
                      | iApply (adopt_spec _ _ _ _ (Node _ _ _ _) with "HLm Hl"); iIntros "HLm Hl" ].
  all: wp_ret; iApply ("HΦ" with "[-HPm HLm HRm HB Hrs Hb]"); [by iFrame|].
  all: by iFrame.
Qed.

(** ** Taking the place of a node *)

Lemma copy_node_spec m n u v w rs rs' b b' Φ :
  length rs = 3%nat -> length rs' = 3%nat ->
  (∃ u' v' w', links m u' v' w') -∗ Balance m ↦ b' -∗ bytes_at (Reserved m) rs' -∗
  links n u v w -∗ Balance n ↦ b -∗ bytes_at (Reserved n) rs -∗
  (links m u v w -∗ Balance m ↦ b -∗ bytes_at (Reserved m) rs -∗
   links n u v w -∗ Balance n ↦ b -∗ bytes_at (Reserved n) rs -∗ Φ tt) -∗
  wp (RtlpCopyAvlNodeData m n) Φ.
Proof.
  iIntros (Hrs Hrs') "(% & % & % & HPm & HLm & HRm) HBm Hrm (HPn & HLn & HRn) HBn Hrn HΦ".
  unfold RtlpCopyAvlNodeData, load_links, store_links. wp_run. rw -Hrs.
  wp_call. iApply (copy_bytes_spec with "Hrm Hrn"); [by rw Hrs'|]. iIntros "Hrm Hrn".
  iApply ("HΦ" with "[$HPm $HLm $HRm] HBm Hrm [$HPn $HLn $HRn] HBn Hrn").
Qed.

Lemma delete_replace_spec n m b x y l r f c Φ :
  focus avl_node (Node n (b, x) l r) (f :: c) -∗ avl_free m y -∗
  (focus avl_node (Node m (b, y) l r) (f :: c) -∗ avl_free n x -∗ Φ tt) -∗
  wp (delete_replace n m) Φ.
Proof.
  iIntros "Hf (%Hm & Hlm & (% & HBm) & (%rm & %Hrm & Hrm) & Hdm) HΦ".
  iDestruct "Hf" as "(Hc & %Hn & Hln & (HBn & (%rn & %Hrn & Hrn) & Hdn) & Hl & Hr)".
  unfold delete_replace.
  wp_call. iApply (copy_node_spec with "Hlm HBm Hrm Hln HBn Hrn"); [done|done|].
  iIntros "(HPm & HLm & HRm) HBm Hrm (HPn & HLn & HRn) HBn Hrn". unfold RtlIsLeftChild.
  destruct f as [q z s|q z s]; simpl;
    iDestruct "Hc" as "(%Hq & (HPq & HLq & HRq) & Hz & Hs & Hc)";
    [|iDestruct (addr_ne with "Hs HPn") as %Hsn; [done|]]; wp_run.
  all: wp_call; iApply (adopt_spec with "HLm Hl"); iIntros "HLm Hl".
  all: wp_call; iApply (adopt_spec with "HRm Hr"); iIntros "HRm Hr".
  all: iApply ("HΦ" with "[-HPn HLn HRn HBn Hrn Hdn]"); [by iFrame|].
  all: iFrame; done.
Qed.

(** An element of a balanced tree has a position, whose node can take another element. *)
Lemma elems_position T E1 n x E2 :
  elems T = E1 ++ (n, x) :: E2 ->
  exists b l r c, T = plug (Node n (b, x) l r) c /\
    E1 = (strip <$> before c) ++ elems l /\ E2 = elems r ++ (strip <$> after c).
Proof.
  unfold elems. intros HE. apply fmap_app_inv in HE as (xs & ys & -> & Hys & Hin).
  destruct ys as [|[n' [b x']] ys]; [done|]. injection Hys as -> -> ->.
  destruct (position _ _ _ _ _ Hin) as (l & r & c & -> & -> & ->).
  exists b, l, r, c. split; [done|]. split; apply fmap_app.
Qed.

Lemma avl_renamed n b x m y l r c :
  avl (plug (Node n (b, x) l r) c) ->
  avl (plug (Node m (b, y) l r) c) /\
  height (plug (Node m (b, y) l r) c) = height (plug (Node n (b, x) l r) c).
Proof. intros [Ht Hc]%avl_plug. by eapply plug_avl. Qed.

(** ** The deletion *)

(** The node that leaves the tree: the node itself, or a neighbour. *)
Definition candidate (n : Z) l r (m : Z) : Prop :=
  is_node l && is_node r = false /\ m = n \/
  is_node r = true /\ m = naddr (head (inorder r)) \/
  is_node l = true /\ m = naddr (last (inorder l)).

Lemma delete_candidate_spec n b x l r c Φ :
  focus avl_node (Node n (b, x) l r) c -∗
  (∀ m, ⌜candidate n l r m⌝ -∗ focus avl_node (Node n (b, x) l r) c -∗ Φ m) -∗
  wp (delete_candidate n) Φ.
Proof.
  iIntros "(Hc & %Hn & (HP & HL & HR) & Hx & Hl & Hr) HΦ". unfold delete_candidate. wp_load.
  destruct l as [|pl xl ll lr].
  { wp_run. wp_ret. iApply ("HΦ" with "[%]"); [by left|by iFrame]. }
  iDestruct (tree_node_nonnull with "Hl") as %Hpl. cbn [addr]. wp_run.
  destruct r as [|pr xr rl rr].
  { wp_run. wp_ret. iApply ("HΦ" with "[%]"); [by left|by iFrame]. }
  iDestruct (tree_node_nonnull with "Hr") as %Hpr. cbn [addr]. wp_run.
  iDestruct "Hx" as "[HB Hx]". unfold RtlBalance. wp_load.
  destruct (RtlBalancedAvlTree <=? (b, x).1); wp_load.
  - iApply (leftmost_spec avl_node pr xr rl rr (InR n (b, x) (Node pl xl ll lr) :: c) with "[-HΦ]");
      [by iFrame|]. rw focus_up. iIntros "Hf". iApply ("HΦ" with "[%] Hf"). by right; left.
  - iApply (rightmost_spec avl_node pl xl ll lr (InL n (b, x) (Node pr xr rl rr) :: c) with "[-HΦ]");
      [by iFrame|]. rw focus_up. iIntros "Hf". iApply ("HΦ" with "[%] Hf"). by right; right.
Qed.

(** A node with at most one child leaves the tree. *)
Lemma remove_spec {B} m b y l r c hb (k : M B) Φ :
  let t := plug (Node m (b, y) l r) c in
  is_node l && is_node r = false -> avl t ->
  avl_rooted Table hb t -∗ DepthOfTree Table ↦ u32 (height t) -∗
  (∀ T b', ⌜avl T /\
      elems T = (strip <$> before c) ++ elems l ++ elems r ++ (strip <$> after c)⌝ -∗
     avl_rooted Table b' T -∗ DepthOfTree Table ↦ u32 (height T) -∗ avl_free m y -∗ wp k Φ) -∗
  wp (s ← delete_unlink m;
      RtlSetBalance (BalancedRoot Table) RtlBalancedAvlTree;;
      while (delete_round Table) s;;
      k) Φ.
Proof.
  iIntros (t Hone Ht) "Hf Hd HΦ". rw -focus_header.
  destruct (c ++ [header Table hb]) as [|f c'] eqn:Ec; [by destruct c|].
  destruct (frame_cases f) as (d & q & fb & fx & s & ->).
  wp_call. iApply (avl_unlink_spec with "Hf"); [done|]. iIntros "Hf Hm". rw -Ec.
  wp_call. iApply (set_header_spec with "Hf"); [done|]. iIntros "Hf".
  apply avl_plug in Ht as [Ht Hc].
  assert ((q, heavy d) = (parent_of NULL (c ++ [header Table hb]), side (c ++ [header Table hb]))) as ->.
  { rw Ec. by destruct d. }
  wp_call. iApply (delete_loop_spec (single l r) c with "Hf Hd"); [..|exact Hc|].
  - by destruct l, Ht as (_ & _ & ? & ?).
  - pose proof (height_nonneg l). pose proof (height_nonneg r).
    destruct l, r; simpl in *; try done; lia.
  - iIntros (T b' [HT HE]) "Hf Hd". iApply ("HΦ" with "[%] Hf Hd Hm"). split; [done|].
    rw HE elems_plug /elems single_inorder // fmap_app. by norm_app.
Qed.

(** A neighbour [m] that has left the tree takes the place of [n]. *)
Lemma take_over_spec T hb n m x y E1 E2 Φ :
  avl T -> elems T = E1 ++ (n, x) :: E2 ->
  avl_rooted Table hb T -∗ DepthOfTree Table ↦ u32 (height T) -∗ avl_free m y -∗
  (∀ T', ⌜avl T' /\ elems T' = E1 ++ (m, y) :: E2⌝ -∗ avl_rooted Table hb T' -∗
     DepthOfTree Table ↦ u32 (height T') -∗ avl_free n x -∗ Φ tt) -∗
  wp (if n =? m then ret tt else delete_replace n m) Φ.
Proof.
  iIntros (HT HE) "Hf Hd Hm HΦ".
  destruct (elems_position _ _ _ _ _ HE) as (b & l & r & c & -> & -> & ->). rw -focus_header.
  destruct (c ++ [header Table hb]) as [|f c'] eqn:Ec; [by destruct c|].
  iAssert ⌜n <> m⌝%I as %Hne.
  { iDestruct "Hf" as "(_ & _ & (Hn & _) & _)". iDestruct "Hm" as "(_ & (% & % & % & Hm & _) & _)".
    iApply (points_to_ne with "Hn Hm"). }
  wp_test. iApply (delete_replace_spec with "Hf Hm"). iIntros "Hf Hn". rw -Ec focus_header.
  destruct (avl_renamed n b x m y l r c HT) as [HT' Hh]. rw -Hh.
  iApply ("HΦ" with "[%] Hf Hd Hn"). split; [done|]. by rw elems_plug elems_node; norm_app.
Qed.

(** What a deletion leaves behind. *)
Definition deleted (n : Z) (x : list Z) (E : list (Z * list Z)) (Φ : unit -> hprop) : hprop :=
  (∀ T b, ⌜avl T /\ elems T = E⌝ -∗ avl_rooted Table b T -∗
     DepthOfTree Table ↦ u32 (height T) -∗ avl_free n x -∗ Φ tt)%I.

(** [RtlpDeleteAvlTreeNode] deletes exactly the node, and keeps the tree balanced. *)
Lemma delete_node_spec n b x l r c hb Φ :
  let t := plug (Node n (b, x) l r) c in
  avl t ->
  avl_rooted Table hb t -∗ DepthOfTree Table ↦ u32 (height t) -∗
  deleted n x ((strip <$> before c) ++ elems l ++ elems r ++ (strip <$> after c)) Φ -∗
  wp (RtlpDeleteAvlTreeNode Table n) Φ.
Proof.
  iIntros (t Ht) "Hf Hd HΦ". unfold RtlpDeleteAvlTreeNode. rw -focus_header.
  wp_call. iApply (delete_candidate_spec with "Hf"). iIntros (m Hm) "Hf".
  rw focus_header. destruct Hm as [[Hone ->]|[[Hr ->]|[Hl ->]]].
  - iApply (remove_spec with "Hf Hd"); [done|done|]. iIntros (T b' HT) "Hf Hd Hn".
    rw Z.eqb_refl. wp_ret. by iApply ("HΦ" with "[%] Hf Hd Hn").
  - destruct r as [|p z rl rr]; [done|].
    destruct (first_position p z rl rr) as (m & [mb y] & mr & cr & Er & Hcr).
    rw Er inorder_plug Hcr /=. subst t. rw Er in Ht |- *.
    replace (plug (Node n (b, x) l _) c) with (plug (Node m (mb, y) Leaf mr) (cr ++ InR n (b, x) l :: c))
      in Ht |- * by by rw plug_app.
    iApply (remove_spec with "Hf Hd"); [done|done|]. iIntros (T b' [HT HE]) "Hf Hd Hm".
    iApply (take_over_spec T _ n m x y ((strip <$> before c) ++ elems l)
      (elems mr ++ (strip <$> after cr) ++ (strip <$> after c)) with "Hf Hd Hm"); [done|..].
    + rw HE before_app after_app Hcr app_nil_r /= !fmap_app /elems /=. by norm_app.
    + iIntros (T' [HT' HE']) "Hf Hd Hn". iApply ("HΦ" with "[%] Hf Hd Hn"). split; [done|].
      rw HE' elems_plug elems_node Hcr /=. by norm_app.
  - destruct l as [|p z ll lr]; [done|].
    destruct (last_position p z ll lr) as (m & [mb y] & ml & cl & El & Hcl).
    assert (naddr (last (inorder (Node p z ll lr))) = m) as ->.
    { by rw El inorder_plug Hcl app_nil_r /= app_assoc last_snoc. }
    subst t. rw El in Ht |- *.
    replace (plug (Node n (b, x) _ r) c) with (plug (Node m (mb, y) ml Leaf) (cl ++ InL n (b, x) r :: c))
      in Ht |- * by by rw plug_app.
    iApply (remove_spec with "Hf Hd"); [by destruct ml|done|]. iIntros (T b' [HT HE]) "Hf Hd Hm".
    iApply (take_over_spec T _ n m x y ((strip <$> before c) ++ (strip <$> before cl) ++ elems ml)
      (elems r ++ (strip <$> after c)) with "Hf Hd Hm"); [done|..].
    + rw HE before_app after_app Hcl /= !fmap_app /elems /=. norm_app.
      by rw -(fmap_app strip (inorder r) (after c)).
    + iIntros (T' [HT' HE']) "Hf Hd Hn". iApply ("HΦ" with "[%] Hf Hd Hn"). split; [done|].
      rw HE' elems_plug elems_node Hcl /=. by norm_app.
Qed.
End delete.
