(* ===== verification/AvlTable.v ===== *)
(** * AVL tables: sdk/lib/rtl/avltable.c

    The tables of generictable.c over balanced trees: [RtlpFindAvlTableNodeOrParent] of
    sdk/lib/rtl/avlsupp.c and the functions of avltable.c.  An AVL table keeps its elements
    in the order of the compare routine; [RestartKey] is the position of an enumeration,
    which a deletion moves when it deletes the element there. *)

From Stdlib Require Import ZArith Lia.
From S2P Require Import Prelude.
From stdpp Require Import gmap.
From iris.proofmode Require Import proofmode.
From S2P Require Import HeapLogic LinkTree SplayTree SplayDelete TableCommon.
From S2P Require Import AvlTree AvlInsert AvlDelete.

#[local] Open Scope Z_scope.

(** ** The code *)

(** [RtlZeroMemory] on [RTL_BALANCED_LINKS]. *)
Definition zero_links (Node : Z) : M unit :=
  store (Parent Node) 0;;
  store (LeftChild Node) 0;;
  store (RightChild Node) 0;;
  store (Balance Node) 0;;
  store (Reserved Node) 0;;
  store (Reserved Node + 1) 0;;
  store (Reserved Node + 1 + 1) 0.

(** The memory of the table is zeroed first. *)
Definition RtlInitializeGenericTableAvl
    (Table CompareRoutine AllocateRoutine FreeRoutine TableContext : Z) : M unit :=
  zero_links (BalancedRoot Table);;
  store (AvlOrderedPointer Table) 0;;
  store (AvlWhichOrderedElement Table) 0;;
  store (AvlNumberGenericTableElements Table) 0;;
  store (DepthOfTree Table) 0;;
  store (RestartKey Table) 0;;
  store (DeleteCount Table) 0;;
  store (AvlCompareRoutine Table) 0;;
  store (AvlAllocateRoutine Table) 0;;
  store (AvlFreeRoutine Table) 0;;
  store (AvlTableContext Table) 0;;
  store (Parent (BalancedRoot Table)) (BalancedRoot Table);;
  store (AvlCompareRoutine Table) CompareRoutine;;
  store (AvlAllocateRoutine Table) AllocateRoutine;;
  store (AvlFreeRoutine Table) FreeRoutine;;
  store (AvlTableContext Table) TableContext.

Section code.
Context (cb : callbacks).

(** The comparison of the key with the element of a node. *)
Definition RtlpAvlCompareRoutine (Table Buffer UserData : Z) : M Z :=
  f ← load (AvlCompareRoutine Table);
  CallCompare cb f Table Buffer UserData.

Definition avl_compare_with (Table Buffer CurrentNode : Z) : M Z :=
  RtlpAvlCompareRoutine Table Buffer (AvlUserData CurrentNode).

(** The search result and the new value of the variable [NodeOrParent], whose old value
    is kept when the table is empty. *)
Definition RtlpFindAvlTableNodeOrParent (Table Buffer NodeOrParent : Z) : M (Z * Z) :=
  n ← load (AvlNumberGenericTableElements Table);
  if n =? 0 then ret (TableEmptyTree, NodeOrParent)
  else
    root ← load (RightChild (BalancedRoot Table));
    while (search_round (avl_compare_with Table Buffer)) root.

Definition RtlInsertElementGenericTableFullAvl
    (Table Buffer BufferSize NewElement NodeOrParent SearchResult : Z) : M Z :=
  if SearchResult =? TableFoundNode then
    store_opt NewElement 0;;
    ret (AvlUserData NodeOrParent)
  else
    f ← load (AvlAllocateRoutine Table);
    NewNode ← CallAllocate cb f Table (u32 (BufferSize + AvlHeaderSize));
    if NewNode =? NULL then
      store_opt NewElement 0;;
      ret NULL
    else
      zero_links NewNode;;
      RtlpInsertAvlTreeNode Table NewNode NodeOrParent SearchResult;;
      RtlCopyMemory (AvlUserData NewNode) Buffer BufferSize;;
      store_opt NewElement 1;;
      ret (AvlUserData NewNode).

Definition RtlInsertElementGenericTableAvl (Table Buffer BufferSize NewElement : Z) : M Z :=
  r ← RtlpFindAvlTableNodeOrParent Table Buffer NULL;
  RtlInsertElementGenericTableFullAvl Table Buffer BufferSize NewElement r.2 r.1.

Definition RtlIsGenericTableEmptyAvl (Table : Z) : M bool :=
  n ← load (AvlNumberGenericTableElements Table);
  ret (n =? 0).

Definition RtlNumberGenericTableElementsAvl (Table : Z) : M Z :=
  load (AvlNumberGenericTableElements Table).

(** The out parameters are results: the element, the node or parent (whose old value is
    given), and the search result. *)
Definition RtlLookupElementGenericTableFullAvl (Table Buffer NodeOrParent : Z) : M (Z * Z * Z) :=
  r ← RtlpFindAvlTableNodeOrParent Table Buffer NodeOrParent;
  ret (if r.1 =? TableFoundNode then AvlUserData r.2 else NULL, r.2, r.1).

Definition RtlLookupElementGenericTableAvl (uninit Table Buffer : Z) : M Z :=
  r ← RtlLookupElementGenericTableFullAvl Table Buffer uninit;
  ret r.1.1.

(** One round of the loop of [RtlLookupFirstMatchingElementGenericTableAvl], from a node
    that matches. *)
Definition first_matching_round (Table Buffer Node : Z) : M (Z + Z) :=
  PreviousNode ← RtlRealPredecessor Node;
  if PreviousNode =? NULL then ret (inr Node)
  else
    p ← load (Parent PreviousNode);
    if p =? PreviousNode then ret (inr Node)
    else
      Result ← avl_compare_with Table Buffer PreviousNode;
      ret (if Result =? GenericEqual then inl PreviousNode else inr Node).

(** [Key] is the address of the caller's restart key. *)
Definition RtlLookupFirstMatchingElementGenericTableAvl (uninit Table Buffer Key : Z) : M Z :=
  store Key NULL;;
  r ← RtlpFindAvlTableNodeOrParent Table Buffer uninit;
  if r.1 =? TableFoundNode then
    Node ← while (first_matching_round Table Buffer) r.2;
    store Key Node;;
    ret (AvlUserData Node)
  else ret NULL.

(** [Key] is the address of the restart key. *)
Definition RtlEnumerateGenericTableWithoutSplayingAvl (Table Key : Z) : M Z :=
  empty ← RtlIsGenericTableEmptyAvl Table;
  if empty then ret NULL
  else
    key ← load Key;
    if key =? NULL then
      root ← load (RightChild (BalancedRoot Table));
      CurrentNode ← leftmost root;
      store Key CurrentNode;;
      ret (if CurrentNode =? NULL then NULL else AvlUserData CurrentNode)
    else
      CurrentNode ← RtlRealSuccessor key;
      (if CurrentNode =? NULL then ret tt else store Key CurrentNode);;
      ret (if CurrentNode =? NULL then NULL else AvlUserData CurrentNode).

Definition RtlEnumerateGenericTableAvl (Table : Z) (Restart : bool) : M Z :=
  (if Restart then store (RestartKey Table) NULL else ret tt);;
  RtlEnumerateGenericTableWithoutSplayingAvl Table (RestartKey Table).

Definition RtlDeleteElementGenericTableAvl (uninit Table Buffer : Z) : M bool :=
  r ← RtlpFindAvlTableNodeOrParent Table Buffer uninit;
  if r.1 =? TableFoundNode then
    key ← load (RestartKey Table);
    (if r.2 =? key then
       p ← RtlRealPredecessor r.2;
       store (RestartKey Table) p
     else ret tt);;
    n ← load (DeleteCount Table);
    store (DeleteCount Table) (u32 (n + 1));;
    RtlpDeleteAvlTreeNode Table r.2;;
    m ← load (AvlNumberGenericTableElements Table);
    store (AvlNumberGenericTableElements Table) (u32 (m - 1));;
    store (AvlWhichOrderedElement Table) 0;;
    store (AvlOrderedPointer Table) NULL;;
    f ← load (AvlFreeRoutine Table);
    CallFree cb f Table r.2;;
    ret true
  else ret false.
End code.

(** ** What a table owns *)

(** The memory of an entry for [n] bytes of data. *)
Definition avl_block (p : Z) (n : nat) : hprop := (∃ bs, ⌜length bs = n⌝ ∗ avl_free p bs)%I.

Section proofs.
Context (cb : callbacks) (ct : contract) (mm : manager).
Context `{!TableRoutines avl_block AvlHeaderSize cb ct mm}.
Implicit Types (t l r : avl_tree) (c : list (frame (Z * list Z))) (xs : list (Z * list Z)).

Abbreviation focus := (focus avl_node).

Definition avl_routines (Table : Z) : hprop :=
  (AvlCompareRoutine Table ↦ fcompare ct ∗ AvlAllocateRoutine Table ↦ fallocate ct ∗
   AvlFreeRoutine Table ↦ ffree ct ∗ context ct Table)%I.

(** The fields that [RtlGetElementGenericTableAvl] would use, and the count of deletions. *)
Definition avl_accounting (Table : Z) : hprop :=
  ((∃ v, AvlOrderedPointer Table ↦ v) ∗ (∃ v, AvlWhichOrderedElement Table ↦ v) ∗
   (∃ v, DeleteCount Table ↦ v))%I.

(** The elements that a table may have. *)
Definition avl_elements xs : Prop :=
  Forall (fun y => accepted ct y.2) xs /\ Z.of_nat (length xs) < 2 ^ 32.

Definition avl_table_with (Table : Z) t : hprop :=
  (∃ hb, avl_rooted Table hb t ∗
   AvlNumberGenericTableElements Table ↦ Z.of_nat (length (elems t)) ∗
   DepthOfTree Table ↦ u32 (height t) ∗ avl_accounting Table ∗ avl_routines Table ∗
   ⌜avl t /\ avl_elements (elems t)⌝)%I.

(** A table with the elements [xs], in order, each with the address of its entry, and the
    restart key [key]. *)
Definition avl_table (Table : Z) xs (key : Z) : hprop :=
  (∃ t, ⌜elems t = xs⌝ ∗ avl_table_with Table t ∗ RestartKey Table ↦ key)%I.

(** ** The search *)

(** How the key [k] compares with the element of a node. *)
Definition key_order (k : list Z) (x : Z * list Z) : comparison := cmp ct k x.2.

Definition avl_search_frame (Table Buffer : Z) (k : list Z) : hprop :=
  (bytes_at Buffer k ∗ AvlCompareRoutine Table ↦ fcompare ct)%I.

Lemma avl_compare_with_spec Table Buffer k p x Φ :
  accepted ct k -> accepted ct x.2 -> avl_node p x -∗ avl_search_frame Table Buffer k -∗
  (avl_node p x -∗ avl_search_frame Table Buffer k -∗ Φ (compare_code (key_order k x))) -∗
  wp (avl_compare_with cb Table Buffer p) Φ.
Proof.
  iIntros (Hk Hx) "(Hb & Hrs & Hx) [HB HC] HΦ". unfold avl_compare_with, RtlpAvlCompareRoutine.
  wp_load. iApply (compare_spec with "HB Hx"); [done|done|]. iIntros "HB Hx".
  iApply ("HΦ" with "[$Hb $Hrs $Hx] [$HB $HC]").
Qed.

Lemma key_ordered k t : ordered (cmp ct k) (elems t) -> ordered (key_order k) (inorder t).
Proof.
  intros Hord xs1 p x xs2 E.
  destruct (Hord (strip <$> xs1) p x.2 (strip <$> xs2)) as [HLt HGt].
  { by rw /elems E fmap_app. }
  by rw /all_less /all_greater !Forall_fmap in HLt HGt.
Qed.

Definition avl_search_result (k : list Z) t (uninit : Z) (res : Z * Z) : Prop :=
  t = Leaf /\ res = (TableEmptyTree, uninit) \/ found (key_order k) t res.

Lemma avl_find_spec Table Buffer k t hb uninit Φ :
  ordered (cmp ct k) (elems t) -> accepted ct k -> Forall (fun y => accepted ct y.2) (elems t) ->
  avl_rooted Table hb t -∗ AvlNumberGenericTableElements Table ↦ Z.of_nat (length (elems t)) -∗
  bytes_at Buffer k -∗ AvlCompareRoutine Table ↦ fcompare ct -∗
  (∀ res, ⌜avl_search_result k t uninit res⌝ -∗ avl_rooted Table hb t -∗
     AvlNumberGenericTableElements Table ↦ Z.of_nat (length (elems t)) -∗
     bytes_at Buffer k -∗ AvlCompareRoutine Table ↦ fcompare ct -∗ Φ res) -∗
  wp (RtlpFindAvlTableNodeOrParent cb Table Buffer uninit) Φ.
Proof.
  iIntros (Hord Hk Hacc) "Ht HN HB HC HΦ". unfold RtlpFindAvlTableNodeOrParent. wp_load.
  destruct t as [|n x l r].
  - wp_run. wp_ret. iApply ("HΦ" with "[] Ht HN HB HC"). by iLeft.
  - rw (proj2 (Z.eqb_neq _ 0)); [|rw elems_node length_app /=; lia].
    rw /avl_rooted. iDestruct "Ht" as "[(%HT & (HP & HL & HR) & Hc) Ht]". wp_load.
    iApply (search_spec avl_node (key_order k) (fun x => accepted ct x.2)
      (avl_search_frame Table Buffer k) _
      (fun p y Ψ => avl_compare_with_spec Table Buffer k p y Ψ Hk) n x l r [header Table hb]
      with "[HP HL HR Hc Ht] [$HB $HC]").
    + by apply key_ordered.
    + by rw /elems Forall_fmap in Hacc.
    + by iFrame.
    + iIntros (res Hres) "Ht [HB HC]". iApply ("HΦ" with "[] Ht HN HB HC"). by iRight.
Qed.

(** The search visits at most one node per level. *)
Lemma avl_search_bounded Table Buffer k t hb Φ :
  t <> Leaf ->
  ordered (cmp ct k) (elems t) -> accepted ct k -> Forall (fun y => accepted ct y.2) (elems t) ->
  avl_rooted Table hb t -∗ bytes_at Buffer k -∗ AvlCompareRoutine Table ↦ fcompare ct -∗
  (∀ res, ⌜found (key_order k) t res⌝ -∗ avl_rooted Table hb t -∗
     bytes_at Buffer k -∗ AvlCompareRoutine Table ↦ fcompare ct -∗ Φ res) -∗
  wp (iter (Z.to_nat (height t)) (search_round (avl_compare_with cb Table Buffer)) (addr t)) Φ.
Proof.
  iIntros (Hn Hord Hk Hacc) "Ht HB HC HΦ". destruct t as [|n x l r]; [done|].
  replace (Z.to_nat (height (Node n x l r))) with (S (Z.to_nat (height (Node n x l r) - 1)))
    by (pose proof (height_nonneg l); simpl; lia).
  iApply (search_bounded_spec avl_node (key_order k) (fun x => accepted ct x.2)
    (avl_search_frame Table Buffer k) _
    (fun p y Ψ => avl_compare_with_spec Table Buffer k p y Ψ Hk)
    (fun t => Z.to_nat (height t - 1)) with "Ht [$HB $HC]").
  - intros p y a b Ha. pose proof (height_nonneg b). destruct a as [|q z u v]; [done|].
    pose proof (height_nonneg u). simpl. lia.
  - intros p y a b Hb. pose proof (height_nonneg a). destruct b as [|q z u v]; [done|].
    pose proof (height_nonneg u). simpl. lia.
  - by apply key_ordered.
  - by rw /elems Forall_fmap in Hacc.
  - iIntros (res Hres) "Ht [HB HC]". iApply ("HΦ" with "[//] Ht HB HC").
Qed.

Lemma strip_greater k ys :
  all_greater (key_order k) ys -> all_greater (cmp ct k) (strip <$> ys).
Proof. by rw /all_greater Forall_fmap. Qed.

Lemma strip_less k ys : all_less (key_order k) ys -> all_less (cmp ct k) (strip <$> ys).
Proof. by rw /all_less Forall_fmap. Qed.

(** ** Insertion *)

(** The tree [T] has the element [k] at [p] between the smaller and the larger ones. *)
Definition inserted (k : list Z) (p : Z) (data : list Z) xs T : Prop :=
  avl T /\ exists xs1 xs2, xs = xs1 ++ xs2 /\ elems T = xs1 ++ (p, data) :: xs2 /\
    all_greater (cmp ct k) xs1 /\ all_less (cmp ct k) xs2.

Lemma avl_insert_node_spec Table k t res p data hb N uninit Φ :
  avl_search_result k t uninit res -> res.1 <> TableFoundNode -> avl t ->
  avl_free p data -∗ avl_rooted Table hb t -∗
  AvlNumberGenericTableElements Table ↦ N -∗ DepthOfTree Table ↦ u32 (height t) -∗
  (∀ T b, ⌜inserted k p data (elems t) T⌝ -∗ avl_rooted Table b T -∗
     DepthOfTree Table ↦ u32 (height T) -∗ AvlNumberGenericTableElements Table ↦ u32 (N + 1) -∗
     Φ tt) -∗
  wp (RtlpInsertAvlTreeNode Table p res.2 res.1) Φ.
Proof.
  iIntros (Hres Hnf Ht) "Hp Hf HN Hd HΦ".
  destruct Hres as [[-> ->]|(x & l & r & c & -> & [[H _]|[H|H]])]; [|done|..].
  - iApply (insert_empty_spec with "Hp Hf HN Hd"). iIntros "HN" (T b [HT HE]) "Hf Hd".
    iApply ("HΦ" with "[%] Hf Hd HN"). split; [done|]. exists [], []. repeat split; try done; constructor.
  - destruct H as (-> & -> & HGt & HLt).
    iApply (insert_below_spec _ _ _ _ _ true with "Hp Hf HN Hd"); [done|].
    iIntros "HN" (T b [HT HE]) "Hf Hd". iApply ("HΦ" with "[%] Hf Hd HN"). split; [done|].
    exists (strip <$> before c), (strip <$> ((res.2, x) :: inorder r ++ after c)).
    rw HE !elems_plug !elems_node. cbn [bframe before after]. rw !fmap_cons !fmap_app.
    split; [by norm_app|]. split; [by norm_app|]. split; [by apply strip_greater|].
    rw -fmap_app -fmap_cons. by apply strip_less.
  - destruct H as (-> & -> & HGt & HLt).
    iApply (insert_below_spec _ _ _ _ _ false with "Hp Hf HN Hd"); [done|].
    iIntros "HN" (T b [HT HE]) "Hf Hd". iApply ("HΦ" with "[%] Hf Hd HN"). split; [done|].
    exists (strip <$> (before c ++ inorder l ++ [(res.2, x)])), (strip <$> after c).
    rw HE !elems_plug !elems_node. cbn [bframe before after].
    split; [rw !fmap_app; by norm_app|]. split; [by norm_app|].
    split; [by apply strip_greater|by apply strip_less].
Qed.

Lemma zero_links_spec p data Φ :
  avl_free p data -∗ (avl_free p data -∗ Φ tt) -∗ wp (zero_links p) Φ.
Proof.
  iIntros "(%Hp & (% & % & % & HP & HL & HR) & (% & HB) & (%rs & %Hrs & Hrs) & Hd) HΦ".
  destruct rs as [|r1 [|r2 [|r3 [|]]]]; try done. iDestruct "Hrs" as "(H1 & H2 & H3 & _)".
  unfold zero_links. wp_run. iApply "HΦ". iFrame. iSplit; [done|]. iExists [0; 0; 0]. by iFrame.
Qed.

(** The caller's bytes are copied into the entry once it is in the tree. *)
Lemma copy_data_spec Table hb T p data k E1 E2 Buffer Φ :
  avl T -> elems T = E1 ++ (p, data) :: E2 -> length data = length k ->
  avl_rooted Table hb T -∗ DepthOfTree Table ↦ u32 (height T) -∗ bytes_at Buffer k -∗
  (∀ T', ⌜avl T' /\ elems T' = E1 ++ (p, k) :: E2⌝ -∗ avl_rooted Table hb T' -∗
     DepthOfTree Table ↦ u32 (height T') -∗ bytes_at Buffer k -∗ Φ tt) -∗
  wp (RtlCopyMemory (AvlUserData p) Buffer (Z.of_nat (length k))) Φ.
Proof.
  iIntros (HT HE Hlen) "Hf Hd HB HΦ".
  destruct (elems_position _ _ _ _ _ HE) as (b & l & r & c & -> & -> & ->). rw -focus_header.
  iDestruct "Hf" as "(Hc & %Hp & Hl & (Hb & Hrs & Hx) & Ht)".
  unfold RtlCopyMemory. rw Nat2Z.id. iApply (copy_bytes_spec with "Hx HB"); [done|].
  iIntros "Hx HB". destruct (avl_renamed p b data p k l r c HT) as [HT' Hh]. rw -Hh.
  iApply ("HΦ" with "[%] [-Hd HB] Hd HB").
  - split; [done|]. rw elems_plug elems_node. by norm_app.
  - rw -focus_header. by iFrame.
Qed.

(** The result of an insertion: the element was there, the request for memory is not granted,
    or the new element stands between the smaller and the larger ones. *)
Definition avl_insert_result (Table New : Z) (k : list Z) xs (key : Z) (j : nat) (m q : Z) : hprop :=
  ((∃ xs1 p x xs2, ⌜xs = xs1 ++ (p, x) :: xs2 /\ cmp ct k x = Eq /\ q = AvlUserData p⌝ ∗
      avl_table Table xs key ∗ opt_cell New 0 ∗ stocked mm j m xs) ∨
   (⌜q = NULL /\ none_equal (cmp ct k) xs /\ grants mm j = false⌝ ∗
      avl_table Table xs key ∗ opt_cell New 0 ∗ stocked mm (S j) m xs) ∨
   (∃ xs1 p xs2, ⌜xs = xs1 ++ xs2 /\ q = AvlUserData p /\ grants mm j = true /\
        all_greater (cmp ct k) xs1 /\ all_less (cmp ct k) xs2⌝ ∗
      avl_table Table (xs1 ++ (p, k) :: xs2) key ∗ opt_cell New 1 ∗
      stocked mm (S j) m (xs1 ++ (p, k) :: xs2)))%I.

Lemma avl_search_cases k t uninit res :
  avl_search_result k t uninit res ->
  (exists x l r c, res.1 = TableFoundNode /\ t = plug (Node res.2 x l r) c /\ cmp ct k x.2 = Eq) \/
  res.1 <> TableFoundNode /\ none_equal (cmp ct k) (elems t).
Proof.
  intros [[-> ->]|Hres]; [right; split; [done|by constructor]|].
  destruct (found_cases _ _ _ Hres) as [Hf|[Hnf Hne]]; [by left|]. right. split; [done|].
  by rw /none_equal /elems Forall_fmap.
Qed.

Lemma avl_insert_new_spec Table Buffer New v k t res key uninit j m Φ :
  avl_search_result k t uninit res -> res.1 <> TableFoundNode -> accepted ct k ->
  Z.of_nat (length k) + AvlHeaderSize < 2 ^ 32 -> Z.of_nat (length (elems t)) + 1 < 2 ^ 32 ->
  avl_table_with Table t -∗ RestartKey Table ↦ key -∗ bytes_at Buffer k -∗ opt_cell New v -∗
  stocked mm j m (elems t) -∗
  (∀ q, bytes_at Buffer k -∗ avl_insert_result Table New k (elems t) key j m q -∗ Φ q) -∗
  wp (RtlInsertElementGenericTableFullAvl cb Table Buffer (Z.of_nat (length k)) New
        res.2 res.1) Φ.
Proof.
  iIntros (Hres Hnf Hk Hlen Hmax)
    "(%hb & Hf & HN & Hd & Hacct & (HC & HA & HF & HX) & %Ht & %Hacc & %Hfew) Hkey HB Hnew Hs HΦ".
  unfold RtlInsertElementGenericTableFullAvl. wp_run.
  rw (u32_small (Z.of_nat (length k) + _)); [|unfold AvlHeaderSize in *; lia].
  wp_call. iApply (allocate_spec with "HX Hs"). iIntros (p) "HX Hp".
  destruct (grants mm j) eqn:Eg; last first.
  - iDestruct "Hp" as "[-> Hs]". wp_run. wp_call. iApply (store_opt_spec with "Hnew"). iIntros "Hnew". wp_ret.
    iApply ("HΦ" with "HB"). iRight. iLeft. iFrame "Hnew Hs". iSplit; [|iExists t; by iFrame].
    iPureIntro. split_and!; [done| |done]. by destruct (avl_search_cases _ _ _ _ Hres) as [(? & ? & ? & ? & ? & _)|[_ ?]].
  - iDestruct "Hp" as "[(%data & %Hdata & Hp) Hs]". iAssert ⌜p <> NULL⌝%I as %Hp; [by iDestruct "Hp" as "($ & _)"|]. wp_run.
    wp_call. iApply (zero_links_spec with "Hp"). iIntros "Hp".
    wp_call. iApply (avl_insert_node_spec with "Hp Hf HN Hd"); [done..|].
    iIntros (T b (HT & xs1 & xs2 & HE & HE' & HGt & HLt)) "Hf Hd HN".
    wp_call. iApply (copy_data_spec with "Hf Hd HB"); [done..|].
    iIntros (T' [HT' HE'']) "Hf Hd HB".
    wp_call. iApply (store_opt_spec with "Hnew"). iIntros "Hnew". wp_ret.
    iApply ("HΦ" with "HB"). iRight. iRight. iExists xs1, p, xs2. iSplit; [done|]. rw HE stocked_more. iFrame "Hnew Hs".
    iExists T'. iSplit; [done|]. iFrame. rw HE''.
    rw HE in Hacc Hfew Hmax. rw u32_small; [|lia]. rw !length_app /= in Hmax |- *.
    iSplitL "HN"; [by replace (Z.of_nat (length xs1 + length xs2) + 1) with
      (Z.of_nat (length xs1 + S (length xs2))) by lia|].
    iPureIntro. split; [done|]. split; [|rw length_app /=; lia].
    apply Forall_app in Hacc as [Ha1 Ha2]. apply Forall_app. split; [done|]. by constructor.
Qed.

(** [RtlInsertElementGenericTableAvl] on every path. *)
Lemma avl_insert_element_spec Table Buffer New v k xs key j m Φ :
  ordered (cmp ct k) xs -> accepted ct k ->
  Z.of_nat (length k) + AvlHeaderSize < 2 ^ 32 -> Z.of_nat (length xs) + 1 < 2 ^ 32 ->
  avl_table Table xs key -∗ bytes_at Buffer k -∗ opt_cell New v -∗ stocked mm j m xs -∗
  (∀ q, bytes_at Buffer k -∗ avl_insert_result Table New k xs key j m q -∗ Φ q) -∗
  wp (RtlInsertElementGenericTableAvl cb Table Buffer (Z.of_nat (length k)) New) Φ.
Proof.
  iIntros (Hord Hk Hlen Hmax) "(%t & <- & (%hb & Hf & HN & Hd & Hacct & (HC & HA & HF & HX) & %Hacc) & Hkey)".
  iIntros "HB Hnew Hs HΦ". unfold RtlInsertElementGenericTableAvl.
  wp_call. iApply (avl_find_spec with "Hf HN HB HC"); [done|done|apply Hacc|].
  iIntros (res Hres) "Hf HN HB HC". destruct (decide (res.1 = TableFoundNode)) as [E|E].
  - destruct Hres as [[_ ->]|Hres]; [done|].
    destruct (found_cases _ _ _ Hres) as [(x & l & r & c & _ & -> & Hx)|[Hnf _]]; [|done].
    unfold RtlInsertElementGenericTableFullAvl. rw E. wp_run.
    wp_call. iApply (store_opt_spec with "Hnew"). iIntros "Hnew". wp_ret.
    iApply ("HΦ" with "HB"). iLeft.
    iExists ((strip <$> before c) ++ elems l), res.2, x.2, (elems r ++ (strip <$> after c)).
    iSplit; [iPureIntro; rw elems_plug elems_node; by norm_app|]. iFrame "Hnew Hs".
    iExists _. iSplit; [done|]. by iFrame.
  - iApply (avl_insert_new_spec with "[$Hf $HN $Hd $Hacct $HC $HA $HF $HX //] Hkey HB Hnew Hs HΦ"); done.
Qed.

(** ** Lookup *)

(** The element equal to the key, or NULL when there is none. *)
Definition avl_lookup_result (k : list Z) xs (q : Z) : Prop :=
  (exists xs1 p x xs2, xs = xs1 ++ (p, x) :: xs2 /\ cmp ct k x = Eq /\ q = AvlUserData p) \/
  q = NULL /\ none_equal (cmp ct k) xs.

Lemma avl_lookup_element_spec Table Buffer k xs key uninit Φ :
  ordered (cmp ct k) xs -> accepted ct k ->
  avl_table Table xs key -∗ bytes_at Buffer k -∗
  (∀ q, ⌜avl_lookup_result k xs q⌝ -∗ avl_table Table xs key -∗ bytes_at Buffer k -∗ Φ q) -∗
  wp (RtlLookupElementGenericTableAvl cb uninit Table Buffer) Φ.
Proof.
  iIntros (Hord Hk) "(%t & <- & (%hb & Hf & HN & Hd & Hacct & (HC & HA & HF & HX) & %Hacc) & Hkey)".
  iIntros "HB HΦ". unfold RtlLookupElementGenericTableAvl, RtlLookupElementGenericTableFullAvl.
  wp_call. iApply (avl_find_spec with "Hf HN HB HC"); [done|done|apply Hacc|].
  iIntros (res Hres) "Hf HN HB HC". wp_ret.
  iApply ("HΦ" with "[%] [-HB] HB"); [|iExists t; iSplit; [done|]; by iFrame].
  destruct (avl_search_cases _ _ _ _ Hres) as [(x & l & r & c & -> & -> & Hx)|[E Hne]].
  - left. exists ((strip <$> before c) ++ elems l), res.2, x.2, (elems r ++ (strip <$> after c)).
    rw elems_plug elems_node. by norm_app.
  - right. by rw (proj2 (Z.eqb_neq _ _) E).
Qed.

(** ** Enumeration *)

(** The enumeration has passed the elements [xs1]: its key is unset, the header, or the
    last of them. *)
Definition passed (Table : Z) xs1 (key : Z) : Prop :=
  xs1 = [] /\ (key = NULL \/ key = BalancedRoot Table) \/
  exists ys p x, xs1 = ys ++ [(p, x)] /\ key = p.

Lemma avl_rooted_nonnull Table hb t n x E1 E2 :
  elems t = E1 ++ (n, x) :: E2 -> avl_rooted Table hb t ⊢ ⌜n <> NULL⌝.
Proof.
  intros (b & l & r & c & -> & _)%elems_position. rw -focus_header. iIntros "[_ Ht]".
  by iApply tree_node_nonnull.
Qed.

(** The node after the key. *)
Lemma avl_successor_spec Table hb t xs1 key xs2 Φ :
  elems t = xs1 ++ xs2 -> passed Table xs1 key -> key <> NULL ->
  avl_rooted Table hb t -∗
  (avl_rooted Table hb t -∗ Φ (naddr (head xs2))) -∗ wp (RtlRealSuccessor key) Φ.
Proof.
  iIntros (HE Hkey Hn) "Hf HΦ".
  destruct Hkey as [[-> [-> | ->]]|(ys & p & x & -> & ->)]; [done|..].
  - rw avl_rooted_node. iApply (real_successor_spec with "Hf"). iIntros "Hf".
    rw /= app_nil_r. simpl in HE. rw -HE /elems.
    iSpecialize ("HΦ" with "Hf"). by destruct (inorder t) as [|[]].
  - rw -app_assoc /= in HE.
    destruct (elems_position _ _ _ _ _ HE) as (b & l & r & c & -> & _ & ->).
    rw -focus_header. iApply (real_successor_spec with "Hf"). iIntros "Hf".
    rw after_app /= app_nil_r /elems -fmap_app.
    iSpecialize ("HΦ" with "Hf"). by destruct (inorder r ++ after c) as [|[]].
Qed.

Lemma avl_root_spec Table hb t Φ :
  avl_rooted Table hb t -∗ (avl_rooted Table hb t -∗ Φ (addr t)) -∗
  wp (load (RightChild (BalancedRoot Table))) Φ.
Proof.
  iIntros "[(%HT & (HP & HL & HR) & Hc) Ht] HΦ". wp_load. iApply "HΦ". by iFrame.
Qed.

Lemma avl_leftmost_spec Table hb t Φ :
  t <> Leaf ->
  avl_rooted Table hb t -∗ (avl_rooted Table hb t -∗ Φ (naddr (head (elems t)))) -∗
  wp (leftmost (addr t)) Φ.
Proof.
  iIntros (Ht) "Hf HΦ". destruct t as [|n x l r]; [done|].
  iApply (leftmost_spec with "Hf"). iIntros "Hf". iSpecialize ("HΦ" with "Hf"). rw /elems.
  by destruct (inorder (Node n x l r)) as [|[]].
Qed.

(** One step of an enumeration whose key is at the address [Key]. *)
Lemma avl_enumerate_spec Table t Key key xs1 xs2 Φ :
  elems t = xs1 ++ xs2 -> passed Table xs1 key ->
  avl_table_with Table t -∗ Key ↦ key -∗
  (avl_table_with Table t -∗
   match xs2 with
   | [] => Key ↦ key -∗ Φ NULL
   | (p, x) :: _ => ⌜passed Table (xs1 ++ [(p, x)]) p⌝ -∗ Key ↦ p -∗ Φ (AvlUserData p)
   end) -∗
  wp (RtlEnumerateGenericTableWithoutSplayingAvl Table Key) Φ.
Proof.
  iIntros (HE Hkey) "(%hb & Hf & HN & Hd & Hacct & Hrt & %Hacc) HK HΦ".
  unfold RtlEnumerateGenericTableWithoutSplayingAvl, RtlIsGenericTableEmptyAvl. wp_load.
  destruct (Z.eqb_spec (Z.of_nat (length (elems t))) 0) as [E0|E0].
  - assert (xs2 = []) as ->. { destruct xs2; [done|]. rw HE length_app /= in E0. lia. }
    wp_ret. iApply ("HΦ" with "[-HK] HK"). by iFrame.
  - wp_load. destruct (Z.eqb_spec key NULL) as [->|Hn].
    + iAssert ⌜xs1 = []⌝%I as %->.
      { destruct Hkey as [[-> _]|(ys & p & x & -> & <-)]; [done|]. rw -app_assoc /= in HE.
        by iDestruct (avl_rooted_nonnull with "Hf") as %?. }
      wp_call. iApply (avl_root_spec with "Hf"). iIntros "Hf".
      wp_call. iApply (avl_leftmost_spec with "Hf"); [by intros ->|]. iIntros "Hf".
      destruct xs2 as [|[p x] xs2]; [by rw HE in E0|].
      replace (naddr (head (elems t))) with p by by rw HE.
      iDestruct (avl_rooted_nonnull with "Hf") as %Hp; [done|]. simpl. wp_run. wp_ret.
      iApply ("HΦ" with "[-HK] [%] HK"); [by iFrame|]. right. by exists [], p, x.
    + wp_call. iApply (avl_successor_spec with "Hf"); [done..|]. iIntros "Hf".
      destruct xs2 as [|[p x] xs2]; simpl.
      * wp_run. wp_ret. iApply ("HΦ" with "[-HK] HK"). by iFrame.
      * iDestruct (avl_rooted_nonnull with "Hf") as %Hp; [done|]. wp_run. wp_ret.
        iApply ("HΦ" with "[-HK] [%] HK"); [by iFrame|]. right. by eexists _, _, _.
Qed.

Lemma avl_enumerate_next_spec Table key xs1 xs2 Φ :
  passed Table xs1 key ->
  avl_table Table (xs1 ++ xs2) key -∗
  match xs2 with
  | [] => avl_table Table (xs1 ++ xs2) key -∗ Φ NULL
  | (p, x) :: _ =>
      ⌜passed Table (xs1 ++ [(p, x)]) p⌝ -∗ avl_table Table (xs1 ++ xs2) p -∗ Φ (AvlUserData p)
  end -∗
  wp (RtlEnumerateGenericTableAvl Table false) Φ.
Proof.
  iIntros (Hkey) "(%t & %HE & Ht & HK) HΦ". unfold RtlEnumerateGenericTableAvl. wp_head.
  iApply (avl_enumerate_spec with "Ht HK"); [done..|]. iIntros "Ht".
  destruct xs2 as [|[p x] xs2].
  - iIntros "HK". iApply "HΦ". iExists t. by iFrame.
  - iIntros (Hp) "HK". iApply ("HΦ" with "[//]"). iExists t. by iFrame.
Qed.

(** A restart forgets the key. *)
Lemma avl_enumerate_restart_spec Table key xs Φ :
  avl_table Table xs key -∗
  match xs with
  | [] => avl_table Table xs NULL -∗ Φ NULL
  | (p, x) :: _ => ⌜passed Table [(p, x)] p⌝ -∗ avl_table Table xs p -∗ Φ (AvlUserData p)
  end -∗
  wp (RtlEnumerateGenericTableAvl Table true) Φ.
Proof.
  iIntros "(%t & %HE & Ht & HK) HΦ". unfold RtlEnumerateGenericTableAvl. wp_store.
  iApply (avl_enumerate_spec _ _ _ _ [] xs with "Ht HK"); [done|by left; auto|]. iIntros "Ht".
  destruct xs as [|[p x] xs].
  - iIntros "HK". iApply "HΦ". iExists t. by iFrame.
  - iIntros (Hp) "HK". iApply ("HΦ" with "[//]"). iExists t. by iFrame.
Qed.

(** ** Deletion *)

(** The key after the deletion of the element at [p], which comes after [xs1]. *)
Definition key_after_delete (Table : Z) xs1 (p key : Z) : Z :=
  if p =? key then naddr (last ((BalancedRoot Table, []) :: xs1)) else key.

Lemma naddr_strip ys : naddr (last (strip <$> ys)) = naddr (last ys).
Proof. rw fmap_last. by destruct (last ys) as [[]|]. Qed.

(** The node before the element at [m]: the header, or the last of the elements before. *)
Lemma avl_predecessor_spec Table hb t xs1 m x xs2 Φ :
  elems t = xs1 ++ (m, x) :: xs2 ->
  avl_rooted Table hb t -∗
  (avl_rooted Table hb t -∗ Φ (naddr (last ((BalancedRoot Table, []) :: xs1)))) -∗
  wp (RtlRealPredecessor m) Φ.
Proof.
  iIntros (HE) "Hf HΦ".
  destruct (elems_position _ _ _ _ _ HE) as (b & l & r & c & -> & -> & _). rw -focus_header.
  iApply (real_predecessor_spec with "Hf"). iIntros "Hf". rw before_app /= /elems -fmap_app.
  by rw -(naddr_strip ((BalancedRoot Table, (hb, [])) :: _)); iApply "HΦ".
Qed.
Lemma update_key_spec Table hb n x l r c key Φ :
  avl_rooted Table hb (plug (Node n x l r) c) -∗ RestartKey Table ↦ key -∗
  (avl_rooted Table hb (plug (Node n x l r) c) -∗
   RestartKey Table ↦ key_after_delete Table ((strip <$> before c) ++ elems l) n key -∗ Φ tt) -∗
  wp (if n =? key then p ← RtlRealPredecessor n; store (RestartKey Table) p else ret tt) Φ.
Proof.
  iIntros "Hf HK HΦ". unfold key_after_delete. destruct (n =? key).
  - wp_call. iApply (avl_predecessor_spec _ _ _ ((strip <$> before c) ++ elems l) _ x.2
      (elems r ++ (strip <$> after c)) with "Hf").
    { rw elems_plug elems_node. by norm_app. }
    iIntros "Hf". wp_store. iApply ("HΦ" with "Hf HK").
  - wp_ret. iApply ("HΦ" with "Hf HK").
Qed.

(** The element equal to the key is deleted, and a restart key at it steps back. *)
Definition avl_delete_result (Table : Z) (k : list Z) xs (key : Z) (j : nat) (m : Z) (b : bool) : hprop :=
  ((∃ xs1 p x xs2, ⌜b = true /\ xs = xs1 ++ (p, x) :: xs2 /\ cmp ct k x = Eq⌝ ∗
      avl_table Table (xs1 ++ xs2) (key_after_delete Table xs1 p key) ∗ stocked mm j m (xs1 ++ xs2)) ∨
   ⌜b = false /\ none_equal (cmp ct k) xs⌝ ∗ avl_table Table xs key ∗ stocked mm j m xs)%I.

Lemma elements_delete xs1 xs2 e xs3 xs4 :
  avl_elements (xs1 ++ (xs2 ++ e :: xs3) ++ xs4) ->
  avl_elements (xs1 ++ xs2 ++ xs3 ++ xs4) /\
  u32 (Z.of_nat (length (xs1 ++ (xs2 ++ e :: xs3) ++ xs4)) - 1) =
    Z.of_nat (length (xs1 ++ xs2 ++ xs3 ++ xs4)).
Proof.
  unfold avl_elements. rw !length_app /= !Forall_app Forall_cons.
  intros [Hacc Hlen]. split; [split; [naive_solver|lia]|]. rw u32_small; lia.
Qed.

Lemma avl_delete_element_spec Table Buffer k xs key uninit j m Φ :
  ordered (cmp ct k) xs -> accepted ct k ->
  avl_table Table xs key -∗ bytes_at Buffer k -∗ stocked mm j m xs -∗
  (∀ b, avl_delete_result Table k xs key j m b -∗ bytes_at Buffer k -∗ Φ b) -∗
  wp (RtlDeleteElementGenericTableAvl cb uninit Table Buffer) Φ.
Proof.
  iIntros (Hord Hk) "(%t & <- & (%hb & Hf & HN & Hd & Hacct & (HC & HA & HF & HX) & %Hacc) & Hkey)".
  iIntros "HB Hs HΦ". unfold RtlDeleteElementGenericTableAvl.
  wp_call. iApply (avl_find_spec with "Hf HN HB HC"); [done|done|apply Hacc|].
  iIntros (res Hres) "Hf HN HB HC".
  destruct (avl_search_cases _ _ _ _ Hres) as [([b x] & l & r & c & E & -> & Hx)|[E Hne]].
  - rw E. wp_run. destruct Hacc as (Ht & Hacc & Hfew).
    wp_call. iApply (update_key_spec with "Hf Hkey"). iIntros "Hf Hkey".
    iDestruct "Hacct" as "([% Ho] & [% Hw] & [% Hc])". wp_run.
    wp_call. iApply (delete_node_spec with "Hf Hd"); [done|].
    iIntros (T b' [HT HE]) "Hf Hd Hn". wp_run.
    wp_call. iApply (free_spec _ _ (length x) with "[Hn] Hs"); [iExists x; by iFrame|].
    iIntros "Hs". wp_ret. iApply ("HΦ" with "[-HB] HB"). iLeft.
    iExists ((strip <$> before c) ++ elems l), res.2, x, (elems r ++ (strip <$> after c)).
    rw elems_plug elems_node in Hacc Hfew |- *. iSplit; [iPureIntro; by norm_app|].
    iSplitR "Hs"; last first.
    { rw -stocked_less. rw -!app_assoc. by iApply "Hs". }
    iExists T. rw HE. iFrame "Hkey". iSplit; [iPureIntro; by norm_app|].
    iExists b'. rw HE. iFrame "Hf Hd HC HA HF HX Ho Hw Hc".
    destruct (elements_delete (strip <$> before c) (elems l) (res.2, x) (elems r) (strip <$> after c))
      as [Hel Hn]; [done|]. rw Hn. by iFrame.
  - wp_run. wp_ret. iApply ("HΦ" with "[-HB] HB"). iRight. iSplit; [done|]. iFrame "Hs". iExists t. by iFrame.
Qed.

(** ** Deletion in the course of an enumeration *)

Lemma avl_rooted_distinct Table hb t :
  avl_rooted Table hb t ⊢ ⌜NoDup (BalancedRoot Table :: (elems t).*1)⌝.
Proof.
  rw avl_rooted_node focus_root. iIntros "Ht". iDestruct (tree_nodup with "Ht") as %H. iPureIntro.
  by rw /elems -list_fmap_compose.
Qed.

Lemma filter_absent p xs : p ∉ xs.*1 -> filter (fun e => e.1 <> p) xs = xs.
Proof.
  induction xs as [|[q y] xs IH]; [done|]. simpl. rw not_elem_of_cons. intros [Hne Hin].
  rw filter_cons_True; [by rw IH|]. simpl. congruence.
Qed.

Lemma passed_last Table xs1 : passed Table xs1 (naddr (last ((BalancedRoot Table, []) :: xs1))).
Proof.
  destruct xs1 as [|[p x] ys _] using rev_ind; [by left; auto|].
  right. exists ys, p, x. split; [done|]. by rw app_comm_cons last_snoc.
Qed.

Lemma passed_other Table ys p key :
  passed Table ys key -> p <> NULL -> p <> BalancedRoot Table -> p ∉ ys.*1 -> p <> key.
Proof. clear TableRoutines0 cb mm.
  intros [[_ [-> | ->]]|(ys' & q & y & -> & ->)]; [done|done|].
  rw fmap_app. set_solver.
Qed.

(** What an enumeration has still to visit is the rest of the table, whatever is deleted. *)
Lemma passed_delete Table ys zs xs1 p x xs2 key :
  NoDup (BalancedRoot Table :: (ys ++ zs).*1) -> p <> NULL ->
  ys ++ zs = xs1 ++ (p, x) :: xs2 -> passed Table ys key ->
  exists ys', xs1 ++ xs2 = ys' ++ filter (fun e => e.1 <> p) zs /\
    passed Table ys' (key_after_delete Table xs1 p key).
Proof. clear TableRoutines0 cb mm.
  intros Hnd Hp E Hkey. rw E fmap_app fmap_cons NoDup_cons NoDup_app NoDup_cons in Hnd.
  destruct Hnd as (Hhd & Hnd1 & Hdis & Hp2 & Hnd2).
  assert (p ∉ xs1.*1) as Hp1 by (intros Hin; apply (Hdis p Hin); set_solver).
  assert (p <> BalancedRoot Table) as HpT by (intros ->; set_solver).
  apply app_eq_inv in E as [(k & -> & Hk)|(k & -> & ->)].
  - destruct k as [|e w]; simplify_eq/=.
    + exists xs1. rw app_nil_r in Hkey. rw filter_cons_False; [|by auto]. rw filter_absent //.
      split; [done|]. rw /key_after_delete (proj2 (Z.eqb_neq _ _)); [done|].
      by apply (passed_other Table xs1).
    + rw fmap_app not_elem_of_app in Hp2. destruct Hp2 as [Hpw Hpz].
      exists (xs1 ++ w). rw filter_absent // app_assoc. split; [done|].
      destruct w as [|[q y] w _] using rev_ind.
      * destruct Hkey as [[? _]|(ys' & q & y & Eq & ->)]; [by destruct xs1|].
        apply app_inj_tail in Eq as [-> Eq]. simplify_eq.
        rw /key_after_delete Z.eqb_refl app_nil_r. apply passed_last.
      * destruct Hkey as [[? _]|(ys' & q' & y' & Eq & ->)]; [by destruct xs1|].
        rw app_comm_cons app_assoc in Eq. apply app_inj_tail in Eq as [_ Eq]. simplify_eq.
        rw fmap_app /= not_elem_of_app list_elem_of_singleton in Hpw. destruct Hpw as [_ Hpq].
        rw /key_after_delete (proj2 (Z.eqb_neq _ _)); [|done].
        right. exists (xs1 ++ w), q', y'. by rw app_assoc.
  - exists ys. rw fmap_app not_elem_of_app in Hp1. destruct Hp1 as [Hpy Hpk].
    rw filter_app filter_cons_False; [|by auto]. rw !filter_absent // app_assoc. split; [done|].
    rw /key_after_delete (proj2 (Z.eqb_neq _ _)); [done|]. by apply (passed_other Table ys).
Qed.

(** ** The first of several equal elements *)

Lemma avl_rooted_cells Table hb t : avl_rooted Table hb t ⊢ cells (length (elems t)).
Proof. iIntros "[_ Ht]". rw /elems length_fmap -tree_size_inorder. by iApply tree_cells. Qed.

(** The loop is at an element that matches, after the elements [xs1]. *)
Definition matching_inv (Table Buffer hb : Z) (k : list Z) t (Φ : Z -> hprop)
    (n : nat) (m : Z) : hprop :=
  (∃ xs1 x xs2, ⌜n = length xs1 /\ elems t = xs1 ++ (m, x) :: xs2 /\ cmp ct k x = Eq⌝ ∗
     avl_rooted Table hb t ∗ avl_search_frame Table Buffer k ∗
     (∀ ys p y zs, ⌜elems t = ys ++ (p, y) :: zs /\ cmp ct k y = Eq /\ all_greater (cmp ct k) ys⌝ -∗
        avl_rooted Table hb t -∗ avl_search_frame Table Buffer k -∗ Φ p))%I.


Lemma header_parent_spec Table hb t Φ :
  avl_rooted Table hb t -∗ (avl_rooted Table hb t -∗ Φ (BalancedRoot Table)) -∗
  wp (load (Parent (BalancedRoot Table))) Φ.
Proof. rw avl_rooted_node. apply parent_spec. Qed.

Lemma element_parent_spec Table hb t ys p y zs Φ :
  elems t = ys ++ (p, y) :: zs ->
  avl_rooted Table hb t -∗ (∀ v, ⌜v <> p⌝ -∗ avl_rooted Table hb t -∗ Φ v) -∗
  wp (load (Parent p)) Φ.
Proof.
  iIntros (HE) "Hf HΦ".
  destruct (elems_position _ _ _ _ _ HE) as (b & l & r & c & -> & _ & _).
  iDestruct (focus_header with "Hf") as "(Hc & %Hp & (HP & HL & HR) & Hx & Ht)". wp_load.
  iAssert ⌜parent_of p (c ++ [header Table hb]) <> p⌝%I as %Hne.
  { destruct (c ++ [header Table hb]) as [|f c'] eqn:Ec; [by destruct c|].
    iApply (parent_ne with "HP Hc"). }
  iApply ("HΦ" with "[//]"). iApply focus_header. by iFrame.
Qed.

Lemma element_compare_spec Table Buffer hb k t ys p y zs Φ :
  elems t = ys ++ (p, y) :: zs -> accepted ct k -> accepted ct y ->
  avl_rooted Table hb t -∗ avl_search_frame Table Buffer k -∗
  (avl_rooted Table hb t -∗ avl_search_frame Table Buffer k -∗ Φ (compare_code (cmp ct k y))) -∗
  wp (avl_compare_with cb Table Buffer p) Φ.
Proof.
  iIntros (HE Hk Hy) "Hf HR HΦ".
  destruct (elems_position _ _ _ _ _ HE) as (b & l & r & c & -> & _ & _). rw -focus_header.
  iDestruct "Hf" as "(Hc & %Hp & Hl & Hx & Ht)".
  iApply (avl_compare_with_spec with "Hx HR"); [done|done|]. iIntros "Hx HR".
  iApply ("HΦ" with "[-HR] HR"). by iFrame.
Qed.

(** An element that is not equal to the key, before one that is, is smaller. *)
Lemma ordered_before k ys p y m x xs2 :
  ordered (cmp ct k) ((ys ++ [(p, y)]) ++ (m, x) :: xs2) -> cmp ct k x = Eq -> cmp ct k y <> Eq ->
  all_greater (cmp ct k) (ys ++ [(p, y)]).
Proof.
  intros Hord Hx Hy. destruct (Hord ys p y ((m, x) :: xs2)) as [HLt HGt]; [by rw -app_assoc|].
  destruct (cmp ct k y) eqn:E; [done| |].
  - apply Forall_cons in HLt as [HLt _]; [|done]. simpl in HLt. congruence.
  - apply Forall_app. split; [by apply HGt|]. by constructor.
Qed.

Lemma first_matching_round_inv Table Buffer hb k t Φ :
  ordered (cmp ct k) (elems t) -> accepted ct k -> Forall (fun y => accepted ct y.2) (elems t) ->
  round_ok (first_matching_round cb Table Buffer) (matching_inv Table Buffer hb k t Φ) Φ.
Proof.
  intros Hord Hk Hacc n m. iIntros "(%xs1 & %x & %xs2 & (-> & %HE & %Hx) & Hf & HR & HΦ)".
  unfold first_matching_round.
  wp_call. iApply (avl_predecessor_spec with "Hf"); [done|]. iIntros "Hf".
  assert (xs1 = [] \/ exists ys p y, xs1 = ys ++ [(p, y)]) as [->|(ys & p & y & ->)].
  { destruct xs1 as [|[p y] ys _] using rev_ind; eauto. }
  - iAssert ⌜BalancedRoot Table <> NULL⌝%I as %HT; [by iDestruct "Hf" as "[($ & _) _]"|].
    simpl. wp_test. wp_call. iApply (header_parent_spec with "Hf"). iIntros "Hf". wp_test. wp_ret.
    iApply ("HΦ" with "[%] Hf HR"). split; [done|]. split; [done|constructor].
  - assert (elems t = ys ++ (p, y) :: (m, x) :: xs2) as HE' by by rw HE -app_assoc.
    iDestruct (avl_rooted_nonnull with "Hf") as %Hp; [done|].
    rw app_comm_cons last_snoc. cbn [naddr]. wp_test.
    wp_call. iApply (element_parent_spec with "Hf"); [done|]. iIntros (v Hv) "Hf". wp_test.
    assert (accepted ct y) by (rw HE' Forall_app Forall_cons in Hacc; apply Hacc).
    wp_call. iApply (element_compare_spec with "Hf HR"); [done..|]. iIntros "Hf HR".
    destruct (cmp ct k y) eqn:Ey; simpl; wp_ret.
    + iExists (length ys). iSplit; [iPureIntro; rw length_app /=; lia|].
      iExists ys, y, ((m, x) :: xs2). by iFrame.
    + iApply ("HΦ" with "[%] Hf HR"). split; [done|]. split; [done|].
      rw HE in Hord. eapply ordered_before; [done|done|congruence].
    + iApply ("HΦ" with "[%] Hf HR"). split; [done|]. split; [done|].
      rw HE in Hord. eapply ordered_before; [done|done|congruence].
Qed.

(** The first of the elements equal to the key becomes the restart key of the caller. *)
Definition first_matching_result (k : list Z) xs (newkey q : Z) : Prop :=
  (exists xs1 x xs2, xs = xs1 ++ (newkey, x) :: xs2 /\ cmp ct k x = Eq /\
     all_greater (cmp ct k) xs1 /\ q = AvlUserData newkey) \/
  newkey = NULL /\ q = NULL /\ none_equal (cmp ct k) xs.

Lemma first_matching_spec Table Buffer Key v k xs key uninit Φ :
  ordered (cmp ct k) xs -> accepted ct k ->
  avl_table Table xs key -∗ bytes_at Buffer k -∗ Key ↦ v -∗
  (∀ newkey q, ⌜first_matching_result k xs newkey q⌝ -∗ avl_table Table xs key -∗
     bytes_at Buffer k -∗ Key ↦ newkey -∗ Φ q) -∗
  wp (RtlLookupFirstMatchingElementGenericTableAvl cb uninit Table Buffer Key) Φ.
Proof.
  iIntros (Hord Hk) "(%t & <- & (%hb & Hf & HN & Hd & Hacct & (HC & HA & HF & HX) & %Ht & %Hacc) & Hkey)".
  iIntros "HB HK HΦ". unfold RtlLookupFirstMatchingElementGenericTableAvl. wp_store.
  wp_call. iApply (avl_find_spec with "Hf HN HB HC"); [done|done|apply Hacc|].
  iIntros (res Hres) "Hf HN HB HC".
  destruct (avl_search_cases _ _ _ _ Hres) as [([b x] & l & r & c & E & -> & Hx)|[E Hne]].
  - rw E. wp_run. wp_call.
    iApply (wp_while _ (matching_inv Table Buffer hb k _ _) _
      (length ((strip <$> before c) ++ elems l))).
    + apply first_matching_round_inv; [done|done|apply Hacc].
    + iIntros "(%xs1 & %y & %xs2 & (-> & %HE & _) & Hf & _)".
      iDestruct (avl_rooted_cells with "Hf") as "Hf". iApply (cells_le with "Hf").
      rw HE length_app. lia.
    + iExists _, x, (elems r ++ (strip <$> after c)). iFrame "Hf HB HC".
      iSplit; [iPureIntro; split; [done|]; rw elems_plug elems_node; by norm_app|].
      iIntros (ys p y zs (HE & Hy & Hys)) "Hf [HB HC]". wp_store. wp_ret.
      iApply ("HΦ" with "[%] [-HB HK] HB HK"); [left; by exists ys, y, zs|].
      iExists _. iSplit; [done|]. by iFrame.
  - wp_test. wp_ret. iApply ("HΦ" with "[%] [-HB HK] HB HK"); [by right|].
    iExists t. iSplit; [done|]. by iFrame.
Qed.

(** ** A new table *)

(** The memory of an [RTL_AVL_TABLE]. *)
Definition avl_table_memory (Table : Z) : hprop :=
  (avl_free (BalancedRoot Table) [] ∗ avl_accounting Table ∗
   (∃ v, AvlNumberGenericTableElements Table ↦ v) ∗ (∃ v, DepthOfTree Table ↦ v) ∗
   (∃ v, RestartKey Table ↦ v) ∗ (∃ v, AvlCompareRoutine Table ↦ v) ∗
   (∃ v, AvlAllocateRoutine Table ↦ v) ∗ (∃ v, AvlFreeRoutine Table ↦ v) ∗
   (∃ v, AvlTableContext Table ↦ v))%I.

Lemma avl_initialize_spec Table ctx Φ :
  avl_table_memory Table -∗
  (AvlTableContext Table ↦ ctx -∗ context ct Table) -∗ (avl_table Table [] NULL -∗ Φ tt) -∗
  wp (RtlInitializeGenericTableAvl Table (fcompare ct) (fallocate ct) (ffree ct) ctx) Φ.
Proof.
  iIntros "(Hh & ([% Ho] & [% Hw] & [% Hc]) & [% HN] & [% Hd] & [% HK] & [% HC] & [% HA] & [% HF] & [% Hx]) Hctx HΦ".
  iDestruct "Hh" as "(%HT & (% & % & % & HP & HL & HR) & (% & HB) & (%rs & %Hrs & Hrs) & _)".
  destruct rs as [|r1 [|r2 [|r3 [|]]]]; try done. iDestruct "Hrs" as "(H1 & H2 & H3 & _)".
  unfold RtlInitializeGenericTableAvl, zero_links. wp_run.
  iDestruct ("Hctx" with "Hx") as "HX". iApply "HΦ".
  iExists Leaf. iSplit; [done|]. iFrame "HK". iExists 0. iFrame "HN Hd Ho Hw Hc HC HA HF HX".
  iSplit; [|iPureIntro; split; [done|split; [constructor|done]]].
  iSplit; [|done]. iSplit; [done|]. iFrame "HP HL HR HB". iSplit; [|done]. iSplit; [|done].
  iExists [0; 0; 0]. by iFrame.
Qed.
End proofs.

(** ** The height *)

Lemma square_sum a b P : 0 <= a -> 0 <= b -> 0 <= P -> 2 * P <= a ^ 2 -> P <= b ^ 2 -> 4 * P <= (a + b) ^ 2.
Proof.
  intros Ha Hb HP H1 H2. assert (P <= a * b).
  - assert (2 * P * P <= a ^ 2 * b ^ 2) by (apply Z.mul_le_mono_nonneg; lia).
    destruct (Z.le_gt_cases P (a * b)); [done|]. nia.
  - nia.
Qed.

(** A balanced tree of [n] elements has a height of at most [2 log2 (n + 1)]. *)
Lemma avl_height_bound t :
  avl t -> 2 ^ height t <= (Z.of_nat (length (elems t)) + 1) ^ 2.
Proof.
  induction t as [|p [b x] l IHl r IHr]; [done|].
  intros (Hb & Hb1 & Hl & Hr). specialize (IHl Hl). specialize (IHr Hr). simpl in Hb, Hb1.
  rw elems_node length_app /=. pose proof (height_nonneg l). pose proof (height_nonneg r).
  replace (Z.of_nat (_ + S _) + 1) with
    ((Z.of_nat (length (elems l)) + 1) + (Z.of_nat (length (elems r)) + 1)) by lia.
  assert (height l = height r \/ height l = height r + 1 \/ height r = height l + 1)
    as [E|[E|E]] by lia.
  - rw E Z.max_id Z.pow_add_r; [|done|done]. rw E in IHl. nia.
  - rw E in IHl. rw Z.max_l; [|lia]. rw E Z.add_assoc (Z.add_comm 1) -Z.add_assoc Z.pow_add_r //.
    rw Z.pow_add_r // in IHl. rw Z.mul_comm. apply square_sum; lia.
  - rw E in IHr. rw Z.max_r; [|lia]. rw E Z.add_assoc (Z.add_comm 1) -Z.add_assoc Z.pow_add_r //.
    rw Z.pow_add_r // in IHr. rw Z.mul_comm (Z.add_comm (_ + 1)). apply square_sum; lia.
Qed.
