(* ===== verification/TableExample.v ===== *)
(** * Routines for tables of bytes

    Concrete routines as the owner of a table would supply them: elements are single bytes,
    compared as numbers; entries come from an allocator that uses memory behind everything
    allocated so far.  It counts the requests and the blocks in use, and refuses one request.
    They satisfy the contract of the tables, for the entries of generic tables and for those
    of AVL tables. *)

From Stdlib Require Import ZArith Lia.
From S2P Require Import Prelude.
From stdpp Require Import gmap.
From iris.proofmode Require Import proofmode.
From S2P Require Import HeapLogic LinkTree ListEntry TableCommon GenericTable.
From S2P Require Import AvlTree AvlInsert AvlTable.

#[local] Open Scope Z_scope.

(** ** The allocator *)

(** Memory that holds the bytes [bs] from [p] on. *)
Fixpoint byte_heap (p : Z) (bs : list Z) : heap :=
  match bs with
  | [] => ∅
  | b :: bs' => <[p := b]> (byte_heap (p + 1) bs')
  end.

(** An address behind all memory in use. *)
Definition fresh (h : heap) : Z := map_fold (fun k _ m => Z.max (k + 1) m) 1 h.

Definition bump_allocate (n : Z) : M Z :=
  fun h => let p := fresh h in Some (p, h ∪ byte_heap p (replicate (Z.to_nat n) 0)).

Lemma byte_heap_lookup p bs k v : byte_heap p bs !! k = Some v -> p <= k.
Proof.
  revert p. induction bs as [|b bs IH]; intros p; simpl; [by rw lookup_empty|].
  rw lookup_insert_Some. intros [[-> _]|[_ H]]; [lia|]. apply IH in H. lia.
Qed.

Lemma byte_heap_bytes p bs : bytes_at p bs (byte_heap p bs).
Proof.
  revert p. induction bs as [|b bs IH]; intros p; simpl; [done|].
  assert (byte_heap (p + 1) bs !! p = None) as Hp.
  { apply eq_None_not_Some. intros [v Hv]. apply byte_heap_lookup in Hv. lia. }
  exists {[p := b]}, (byte_heap (p + 1) bs). rw insert_union_singleton_l.
  split; [done|]. split; [by apply map_disjoint_singleton_l_2|].
  split; [apply lookup_singleton_eq|done].
Qed.

Lemma fresh_spec h k v : h !! k = Some v -> k < fresh h.
Proof.
  unfold fresh. revert k v.
  apply (map_fold_weak_ind (fun m h => forall k v, h !! k = Some v -> k < m)).
  - intros k v. by rw lookup_empty.
  - intros i x m r Hi IH k v. rw lookup_insert_Some. intros [[-> _]|[_ H]]; [lia|].
    apply IH in H. lia.
Qed.

Lemma fresh_positive h : 0 < fresh h.
Proof.
  unfold fresh. apply (map_fold_weak_ind (fun m _ => 0 < m)); [done|]. intros. lia.
Qed.

Lemma bump_allocate_spec n Φ :
  (∀ p, ⌜0 < p⌝ -∗ bytes_at p (replicate (Z.to_nat n) 0) -∗ Φ p) -∗ wp (bump_allocate n) Φ.
Proof.
  apply bi.entails_wand. constructor. intros h HΦ hf Hd. set (p := fresh (h ∪ hf)).
  set (new := byte_heap p (replicate (Z.to_nat n) 0)).
  assert (h ∪ hf ##ₘ new) as [Hh Hf]%map_disjoint_union_l.
  { apply map_disjoint_spec. intros k v w Hv%fresh_spec Hw%byte_heap_lookup. subst p. lia. }
  exists p, (h ∪ new). split; [|split].
  - unfold bump_allocate. do 2 f_equal. fold p new. by rw -!assoc_L (map_union_comm hf).
  - by apply map_disjoint_union_l.
  - rw -(right_id_L ∅ (∪) h). specialize (HΦ p).
    apply (HΦ ∅ (map_disjoint_empty_r _) (fresh_positive _)).
    + by rw right_id_L.
    + apply byte_heap_bytes.
Qed.

(** The manager keeps its counts at two addresses, and refuses the fourth request. *)
Definition requests_cell : Z := 4.
Definition in_use_cell : Z := 8.

Definition granted (j : nat) : bool := negb (j =? 3)%nat.

Definition managed_allocate (n : Z) : M Z :=
  j ← load requests_cell;
  store requests_cell (j + 1);;
  if granted (Z.to_nat j) then
    m ← load in_use_cell;
    store in_use_cell (m + 1);;
    bump_allocate n
  else ret NULL.

Definition managed_free (p : Z) : M unit :=
  m ← load in_use_cell;
  store in_use_cell (m - 1).

Definition cell_manager : manager := {|
  grants := granted;
  supply j m := (requests_cell ↦ Z.of_nat j ∗ in_use_cell ↦ m)%I;
|}.

Lemma managed_allocate_spec n j m Φ :
  supply cell_manager j m -∗
  (∀ p, (if granted j then ⌜0 < p⌝ ∗ bytes_at p (replicate (Z.to_nat n) 0) ∗ supply cell_manager (S j) (m + 1)
         else ⌜p = NULL⌝ ∗ supply cell_manager (S j) m) -∗ Φ p) -∗
  wp (managed_allocate n) Φ.
Proof.
  iIntros "[Hj Hm] HΦ". unfold managed_allocate. wp_load. wp_store. rw Nat2Z.id.
  replace (Z.of_nat j + 1) with (Z.of_nat (S j)) by lia. destruct (granted j).
  - wp_load. wp_store. iApply bump_allocate_spec. iIntros (p Hp) "H". iApply "HΦ". by iFrame.
  - wp_ret. iApply "HΦ". by iFrame.
Qed.

Lemma managed_free_spec p j m Φ :
  supply cell_manager j m -∗ (supply cell_manager j (m - 1) -∗ Φ tt) -∗ wp (managed_free p) Φ.
Proof. iIntros "[Hj Hm] HΦ". unfold managed_free. wp_load. wp_store. iApply "HΦ". by iFrame. Qed.

(** ** The routines *)

Definition byte_routines : callbacks := {|
  CallCompare _ _ a b := x ← load a; y ← load b; ret (compare_code (x ?= y));
  CallAllocate _ _ n := managed_allocate n;
  CallFree _ _ p := managed_free p;
|}.

Definition byte_compare (a b : list Z) : comparison :=
  match a, b with
  | [x], [y] => x ?= y
  | _, _ => Eq
  end.

Definition byte_contract : contract := {|
  fcompare := 1;
  fallocate := 2;
  ffree := 3;
  accepted k := length k = 1%nat;
  cmp := byte_compare;
  context _ := emp%I;
|}.

(** The memory that the allocator returns is an entry. *)
Lemma entry_block_bytes p n :
  0 < p -> bytes_at p (replicate (n + 24) 0) ⊢ entry_block p n.
Proof.
  iIntros (Hp) "H". rw Nat.add_comm replicate_add bytes_at_app length_replicate.
  iDestruct "H" as "[H Hd]". iSplit; [done|].
  simpl. rw -!Z.add_assoc /=.
  iDestruct "H" as "(H0 & _ & _ & _ & H4 & _ & _ & _ & H8 & _ & _ & _ & H12 & _ & _ & _ & H16 & _)".
  iSplitL "H0 H4 H8"; [iExists _, _, _; iFrame|]. iSplitL "H12 H16".
  - iExists _, _. rw /Flink /Blink /ListEntry -Z.add_assoc. iFrame.
  - iExists (replicate n 0). by rw length_replicate; iFrame.
Qed.

Lemma avl_block_bytes p n :
  0 < p -> bytes_at p (replicate (n + 16) 0) ⊢ avl_block p n.
Proof.
  iIntros (Hp) "H". rw Nat.add_comm replicate_add bytes_at_app length_replicate.
  iDestruct "H" as "[H Hd]". iExists (replicate n 0). iSplit; [by rw length_replicate|].
  iSplit; [iPureIntro; unfold NULL; lia|]. simpl. rw -!Z.add_assoc /=.
  iDestruct "H" as "(H0 & _ & _ & _ & H4 & _ & _ & _ & H8 & _ & _ & _ & H12 & H13 & H14 & H15 & _)".
  iSplitL "H0 H4 H8"; [iExists _, _, _; iFrame|]. iSplitL "H12"; [iExists _; iFrame|].
  iFrame "Hd". iExists [0; 0; 0]. iSplit; [done|]. rw /Reserved /= -!Z.add_assoc /=. by iFrame.
Qed.

Lemma byte_compare_spec Table f a b k x Φ :
  accepted byte_contract k -> accepted byte_contract x -> bytes_at a k -∗ bytes_at b x -∗
  (bytes_at a k -∗ bytes_at b x -∗ Φ (compare_code (byte_compare k x))) -∗
  wp (CallCompare byte_routines f Table a b) Φ.
Proof.
  destruct k as [|y [|]]; [done| |done]. destruct x as [|w [|]]; [done| |done].
  iIntros (_ _) "[Ha _] [Hb _] HΦ". simpl. wp_run. wp_ret.
  iApply ("HΦ" with "[$Ha] [$Hb]").
Qed.

Lemma byte_compare_same_spec Table f a k Φ :
  accepted byte_contract k -> bytes_at a k -∗
  (bytes_at a k -∗ Φ (compare_code (byte_compare k k))) -∗
  wp (CallCompare byte_routines f Table a a) Φ.
Proof.
  destruct k as [|y [|]]; [done| |done]. iIntros (_) "[Ha _] HΦ". simpl. wp_run. wp_ret.
  iApply ("HΦ" with "[$Ha]").
Qed.

#[export] Instance byte_table_routines :
  TableRoutines entry_block HeaderSize byte_routines byte_contract cell_manager.
Proof.
  split.
  - intros. by apply byte_compare_spec.
  - intros. by apply byte_compare_same_spec.
  - iIntros (Table n j m Φ) "_ Hs HΦ". iApply (managed_allocate_spec with "Hs"). iIntros (p) "H".
    iApply ("HΦ" with "[//]"). cbn [grants cell_manager]. destruct (granted j); [|done].
    iDestruct "H" as "(%Hp & H & $)".
    replace (Z.to_nat (Z.of_nat n + HeaderSize)) with (n + 24)%nat by (unfold HeaderSize; lia).
    by iApply entry_block_bytes.
  - iIntros (Table p n j m Φ) "_". iApply managed_free_spec.
Qed.

#[export] Instance byte_avl_routines :
  TableRoutines avl_block AvlHeaderSize byte_routines byte_contract cell_manager.
Proof.
  split.
  - intros. by apply byte_compare_spec.
  - intros. by apply byte_compare_same_spec.
  - iIntros (Table n j m Φ) "_ Hs HΦ". iApply (managed_allocate_spec with "Hs"). iIntros (p) "H".
    iApply ("HΦ" with "[//]"). cbn [grants cell_manager]. destruct (granted j); [|done].
    iDestruct "H" as "(%Hp & H & $)".
    replace (Z.to_nat (Z.of_nat n + AvlHeaderSize)) with (n + 16)%nat by (unfold AvlHeaderSize; lia).
    by iApply avl_block_bytes.
  - iIntros (Table p n j m Φ) "_". iApply managed_free_spec.
Qed.
