(* ===== verification/McbExample.v ===== *)
(** * A pool, mutexes and a control block in memory

    Concrete routines as the rest of the kernel could supply them to the control blocks: memory
    comes from the allocator of the table examples, which refuses one request, and a mutex is one
    object, 1 when it is free.  They satisfy what the control blocks rely on.  A control block with two runs shows
    that the assertions of the theorems can hold. *)

From Stdlib Require Import ZArith Lia.
From S2P Require Import Prelude.
From stdpp Require Import gmap.
From iris.proofmode Require Import proofmode.
From S2P Require Import HeapLogic LinkTree ListEntry TableCommon GenericTable GenericTableWalk.
From S2P Require Import McbRuns Heap64 FsRtlMcb McbTable McbRemove McbWalk McbAdd McbState McbLarge.
From S2P Require Import TableExample.

#[local] Open Scope Z_scope.

(** ** The routines *)

Definition managed_or_raise (n : Z) : M (option Z) :=
  p ← managed_allocate n;
  ret (if p =? NULL then None else Some p).

Definition bump_pool : pool := {|
  ExAllocatePoolWithTag _ n _ := managed_allocate n;
  ExFreePoolWithTag p _ := managed_free p;
  ExAllocateFromPagedLookasideList := managed_or_raise mapping_size;
  ExFreeToPagedLookasideList p := managed_free p;
  AllocatePoolOrRaise _ n _ := managed_or_raise n;
|}.

Definition cell_mutexes : mutexes := {|
  ExAllocateFromNPagedLookasideList := managed_or_raise 32;
  ExFreeToNPagedLookasideList p := managed_free p;
  KeInitializeGuardedMutex p := store p 1;
  KeAcquireGuardedMutex p := c ← load p; if c =? 1 then store p 0 else fail;
  KeReleaseGuardedMutex p := store p 1;
|}.

Lemma table_memory_bytes p : bytes_at p (replicate 40 0) ⊢ table_memory p.
Proof.
  rw /= -!Z.add_assoc /=.
  iIntros "(H0 & _ & _ & _ & H4 & _ & _ & _ & H8 & _ & _ & _ & H12 & _ & _ & _ & H16 & _ & _ & _ &
    H20 & _ & _ & _ & H24 & _ & _ & _ & H28 & _ & _ & _ & H32 & _ & _ & _ & H36 & _)".
  iSplitL "H0"; [by iExists _|]. iSplitL "H4 H8".
  - iExists _, _. rw /Flink /Blink /InsertOrderList -Z.add_assoc. iFrame.
  - iFrame.
Qed.

Lemma managed_or_raise_spec n own j m Φ :
  (forall p, 0 < p -> bytes_at p (replicate (Z.to_nat n) 0) ⊢ own p) ->
  supply cell_manager j m -∗
  (∀ r, reply cell_manager j m (some_memory own) None r -∗ Φ r) -∗
  wp (managed_or_raise n) Φ.
Proof.
  iIntros (Hown) "Hs HΦ". unfold managed_or_raise. wp_call. iApply (managed_allocate_spec with "Hs").
  iIntros (p) "H". unfold reply. cbn [grants cell_manager]. destruct (granted j).
  - iDestruct "H" as "(%Hp & H & Hs)". rw (proj2 (Z.eqb_neq p NULL)); [|unfold NULL; lia]. wp_ret.
    iApply "HΦ". iFrame "Hs". iExists p. iSplit; [done|]. by iApply Hown.
  - iDestruct "H" as "[-> Hs]". wp_test. wp_ret. iApply "HΦ". by iFrame.
Qed.

#[export] Instance bump_pool_routines : PoolRoutines bump_pool cell_manager.
Proof.
  split.
  - iIntros (pt n tag j m Φ) "Hs HΦ". iApply (managed_allocate_spec with "Hs"). iIntros (p) "H".
    iApply "HΦ". unfold reply. cbn [grants cell_manager]. destruct (granted j); [|done].
    iDestruct "H" as "(%Hp & H & $)".
    replace (Z.to_nat (Z.of_nat n + HeaderSize)) with (n + 24)%nat by (unfold HeaderSize; lia).
    by iApply entry_block_bytes.
  - iIntros (p n tag j m Φ) "_". iApply managed_free_spec.
  - intros. apply managed_or_raise_spec. intros. apply table_memory_bytes.
  - intros. apply managed_or_raise_spec. intros. apply table_memory_bytes.
  - iIntros (p j m Φ) "_". iApply managed_free_spec.
  - iIntros (p tag j m Φ) "_". iApply managed_free_spec.
Qed.

Definition cell_mutex (p : Z) (held : bool) : hprop := (p ↦ if held then 0 else 1)%I.

Lemma first_byte p n : (0 < n)%nat -> bytes_at p (replicate n 0) ⊢ ∃ v, p ↦ v.
Proof. destruct n as [|n]; [lia|]. iIntros (_) "[H _]". by iExists 0. Qed.

Lemma cell_allocate_spec j m Φ :
  supply cell_manager j m -∗
  (∀ r, reply cell_manager j m (some_memory (fun p => ⌜p <> NULL⌝ ∗ ∃ v, p ↦ v)%I) None r -∗ Φ r) -∗
  wp (ExAllocateFromNPagedLookasideList cell_mutexes) Φ.
Proof.
  apply managed_or_raise_spec. iIntros (p Hp) "H". iSplit; [iPureIntro; unfold NULL; lia|].
  iApply (first_byte with "H"). lia.
Qed.

Lemma cell_free_spec p j m Φ :
  cell_mutex p false -∗ supply cell_manager j m -∗ (supply cell_manager j (m - 1) -∗ Φ tt) -∗
  wp (ExFreeToNPagedLookasideList cell_mutexes p) Φ.
Proof. iIntros "_". iApply managed_free_spec. Qed.

Lemma cell_initialize_spec p Φ :
  (∃ v, p ↦ v) -∗ (cell_mutex p false -∗ Φ tt) -∗ wp (KeInitializeGuardedMutex cell_mutexes p) Φ.
Proof. iIntros "[%v H] HΦ". simpl. wp_store. by iApply "HΦ". Qed.

Lemma cell_acquire_spec p Φ :
  cell_mutex p false -∗ (cell_mutex p true -∗ Φ tt) -∗ wp (KeAcquireGuardedMutex cell_mutexes p) Φ.
Proof. iIntros "H HΦ". simpl. unfold cell_mutex. wp_load. wp_test. wp_store. by iApply "HΦ". Qed.

Lemma cell_release_spec p Φ :
  cell_mutex p true -∗ (cell_mutex p false -∗ Φ tt) -∗ wp (KeReleaseGuardedMutex cell_mutexes p) Φ.
Proof. iIntros "H HΦ". simpl. unfold cell_mutex. wp_store. by iApply "HΦ". Qed.

#[export] Instance cell_mutex_routines : MutexRoutines cell_mutexes cell_manager := {|
  mutex_memory p := (∃ v, p ↦ v)%I;
  mutex_at := cell_mutex;
  mutex_allocate_spec := cell_allocate_spec;
  mutex_free_spec := cell_free_spec;
  mutex_initialize_spec := cell_initialize_spec;
  mutex_acquire_spec := cell_acquire_spec;
  mutex_release_spec := cell_release_spec;
|}.

(** ** A control block with two runs *)

Definition byte_objects (p : Z) (bs : list Z) : list (Z * Z) :=
  imap (fun i b => (p + Z.of_nat i, b)) bs.

Lemma byte_objects_hold p bs : ([∗ list] c ∈ byte_objects p bs, c.1 ↦ c.2) ⊢ bytes_at p bs.
Proof.
  revert p. induction bs as [|b bs IH]; intros p; simpl; [done|]. rw Z.add_0_r.
  iIntros "[$ H]". iApply IH. unfold byte_objects. 
  rw (imap_ext _ (fun i c => (p + 1 + Z.of_nat i, c)) bs); [done|].
  intros i c _. simpl. f_equal. lia.
Qed.

(** Blocks 0 to 9 at 100, and blocks 20 to 29 at 200. *)
Definition run1 : run := MkRun 0 10 100.
Definition run2 : run := MkRun 20 30 200.
Definition two_runs : list run := [run1; run2].

Definition two_runs_tree : tree (list Z) :=
  Node 200 (run_bytes run1) Leaf (Node 260 (run_bytes run2) Leaf Leaf).

(** The [LARGE_MCB] at 10, its mutex at 50, its table at 100, the entries at 200 and 260. *)
Definition mcb_objects : list (Z * Z) :=
  [(14, 15); (18, 2); (22, 0); (26, 100);
   (100, 200); (104, 212); (108, 272); (112, 104); (116, 0); (120, 2); (124, 1); (128, 3); (132, 4);
   (136, 14);
   (200, 200); (204, 0); (208, 260); (212, 272); (216, 104);
   (260, 200); (264, 0); (268, 0); (272, 104); (276, 212)] ++
  byte_objects 224 (run_bytes run1) ++ byte_objects 284 (run_bytes run2).

Definition mutex_objects : list (Z * Z) := [(10, 50); (50, 1)].

Lemma two_runs_ok : runs_ok two_runs.
Proof.
  unfold runs_ok, two_runs, run1, run2. split.
  - repeat constructor; simpl; unfold in64; lia.
  - repeat constructor; unfold behind; simpl; lia.
Qed.

(** The nodes of the tree, whatever their data. *)
Lemma two_nodes b1 b2 :
  200 ↦ 200 -∗ 204 ↦ 0 -∗ 208 ↦ 260 -∗ 260 ↦ 200 -∗ 264 ↦ 0 -∗ 268 ↦ 0 -∗
  bytes_at 224 b1 -∗ bytes_at 284 b2 -∗
  rooted element (Node 200 b1 Leaf (Node 260 b2 Leaf Leaf)).
Proof.
  iIntros "A0 A4 A8 B0 B4 B8 HA HB". unfold rooted, links, element. cbn [tree_at addr].
  iSplit; [done|]. iSplitL "A0 A4 A8"; [iFrame|]. iSplitL "HA"; [iSplit; [done|iExact "HA"]|].
  iSplit; [done|]. iSplit; [done|]. iSplitL "B0 B4 B8"; [iFrame|].
  iSplitL "HB"; [iSplit; [done|iExact "HB"]|]. by iSplit.
Qed.

Lemma mcb_objects_hold : ([∗ list] c ∈ mcb_objects, c.1 ↦ c.2) ⊢ mcb 14 two_runs 0.
Proof.
  unfold mcb_objects. rw !big_sepL_app !byte_objects_hold.
  iIntros "((M0 & M4 & M8 & M12 & T0 & T4 & T8 & T12 & T16 & T20 & T24 & T28 & T32 & T36 &
    A0 & A4 & A8 & A12 & A16 & B0 & B4 & B8 & B12 & B16 & _) & HA & HB)".
  iSplit; [iPureIntro; exact two_runs_ok|].
  iExists 100, 0, 15, [(200, run1); (260, run2)]. iSplit; [done|]. iFrame "M0 M4 M12".
  iExists [200; 260], two_runs_tree. iSplit; [done|]. iFrame "T0 T20".
  iSplitL "A0 A4 A8 B0 B4 B8 HA HB".
  { iApply (two_nodes with "A0 A4 A8 B0 B4 B8 HA HB"). }
  iSplitL "T4 T8 A12 A16 B12 B16"; [by iFrame|].
  iSplitL "T12 T16"; [iExists 104, 0; iFrame; iPureIntro; split; [by left|done]|].
  iFrame. iPureIntro. split; [done|]. constructor; [|constructor; [|done]].
  - exists run1. split; [|done]. apply run_ok_fields, (runs_ok_in _ _ two_runs_ok). by left.
  - exists run2. split; [|done]. apply run_ok_fields, (runs_ok_in _ _ two_runs_ok). by right; left.
Qed.

Lemma two_runs_large :
  ([∗ list] c ∈ (mutex_objects ++ mcb_objects), c.1 ↦ c.2) ⊢
  large_mcb cell_mutexes cell_manager 10 two_runs 0.
Proof.
  rw big_sepL_app mcb_objects_hold. iIntros "[(H1 & H2 & _) $]". iExists 50. by iFrame.
Qed.

(** ** The frames *)

Definition remove_objects (sp : Z) : list (Z * Z) :=
  byte_objects sp (replicate 24 0) ++ byte_objects (sp + 24) (replicate 24 0) ++
  byte_objects (sp + 48) (replicate 24 0) ++ [(sp + 72, 0)].

Definition add_objects (sp : Z) : list (Z * Z) :=
  byte_objects sp (replicate 24 0) ++ byte_objects (sp + 24) (replicate 24 0) ++ [(sp + 48, 0)] ++
  remove_objects (sp + 56).

Lemma variable_hold p v : p <> NULL -> p ↦ v ⊢ variable p.
Proof. iIntros (Hp) "H". iSplit; [done|]. by iExists v. Qed.

Lemma remove_objects_hold sp :
  0 < sp -> ([∗ list] c ∈ remove_objects sp, c.1 ↦ c.2) ⊢ remove_frame sp.
Proof.
  iIntros (Hsp). unfold remove_objects. rw !big_sepL_app !byte_objects_hold !free_run_bytes.
  iIntros "($ & $ & $ & H & _)". iApply (variable_hold with "H").
  unfold pNewElement, NULL. simpl. lia.
Qed.

Lemma add_objects_hold sp :
  0 < sp -> ([∗ list] c ∈ add_objects sp, c.1 ↦ c.2) ⊢ add_frame sp.
Proof.
  iIntros (Hsp). unfold add_objects. rw 3!big_sepL_app (remove_objects_hold (sp + 56)); [|lia].
  rw 2!byte_objects_hold 2!free_run_bytes. iIntros "($ & $ & [H _] & $)".
  iApply (variable_hold with "H"). unfold pAddNewElement, NULL. simpl. lia.
Qed.
