(* ===== verification/McbTheorems.v ===== *)
(** * Mapping control blocks: the theorems

    What the functions on a [LARGE_MCB] do to the mapping from virtual to logical blocks. *)

From Stdlib Require Import ZArith Lia.
From S2P Require Import Prelude.
From stdpp Require Import gmap.
From iris.proofmode Require Import proofmode.
From S2P Require Import HeapLogic LinkTree TableCommon McbRuns Heap64 FsRtlMcb McbTable McbRemove.
From S2P Require Import McbWalk McbAdd McbState McbLarge McbSpec TableExample McbExample.

#[local] Open Scope Z_scope.

(** ** Mappings *)

(** The blocks [v] to [e] are unmapped, and no others change. *)
Definition unmapped_between (rs rs' : list run) (v e : Z) : Prop :=
  forall w, mapped rs' w = if (v <=? w) && (w <? e) then None else mapped rs w.

(** What a removal of [n] blocks from [v] on does after [j] requests.  Only for a run around the
    blocks there is a request, for the memory of its tail; if it is refused, that run loses its
    tail as well. *)
Definition removed (gr : nat -> bool) (rs : list run) (lost : Z) (j : nat) (v n : Z)
    (rs' : list run) (lost' : Z) (j' : nat) : Prop :=
  if surrounded (MkRun v (v + n) (-1)) rs then
    j' = S j /\
    if gr j then lost' = lost /\ unmapped_between rs rs' v (v + n)
    else lost' = lost + 1 /\ exists h, h ∈ rs /\ RunStartVbn h < v /\ v + n < RunEndVbn h /\
      unmapped_between rs rs' v (RunEndVbn h)
  else j' = j /\ lost' = lost /\ unmapped_between rs rs' v (v + n).

Lemma remove_result_removed gr rs lost j v n rs' lost' j' :
  0 <= v -> 0 < n -> runs_ok rs ->
  remove_result gr (MkRun v (v + n) (-1)) rs lost j rs' lost' j' -> removed gr rs lost j v n rs' lost' j'.
Proof.
  intros Hv Hn Hok. set (k := MkRun v (v + n) (-1)).
  assert (0 <= RunStartVbn k < RunEndVbn k) as Hk by (simpl; lia).
  assert (unmapped_between rs (cut k rs) v (v + n)) as Hcut.
  { intros w. by rw cut_mapped. }
  unfold remove_result, removed. fold k. destruct (surrounded k rs); [|by intros (-> & -> & ->)].
  intros [-> H]. split; [done|]. destruct (gr j), H as [H ->]; [by rw H|].
  split; [done|]. apply tail_lost_mapped in H as (_ & h & H); [|done|done]. by exists h.
Qed.

(** The logical blocks of the runs are not negative. *)
Lemma lbns_mapped rs v l : runs_ok rs -> Forall lbns_ok rs -> mapped rs v = Some l -> 0 <= l.
Proof.
  intros Hok Hl (r & Hr & Hi & ->)%mapped_in. rewrite -> Forall_forall in Hl.
  specialize (Hl r Hr). pose proof (runs_ok_in _ _ Hok Hr) as Hrun.
  assert (RunStartVbn r <= v < RunEndVbn r) as Hv by (clear - Hi; blocks).
  unfold lbns_ok, run_ok, lbn_of in *. rw s64_small; lia.
Qed.

Lemma lbns_lookup rs : Forall lbns_ok rs -> Forall (fun r => StartingLbn r <> -1) rs.
Proof. intros H. eapply Forall_impl; [exact H|]. unfold lbns_ok. intros. simpl in *. lia. Qed.

Lemma positive_lookup rs : Forall lbn_positive rs -> Forall (fun r => StartingLbn r <> -1) rs.
Proof. intros H. eapply Forall_impl; [exact H|]. unfold lbn_positive. intros. simpl in *. lia. Qed.

(** The tests before an addition look at the first block. *)
Lemma add_refused_mapped rs v l :
  runs_ok rs -> Forall lbns_ok rs -> 0 <= v ->
  add_refused rs v l = match mapped rs v with Some l0 => negb (l0 =? l) | None => false end.
Proof.
  intros Hok Hl Hv. pose proof (lookup_from_means rs v Hok (lbns_lookup rs Hl) Hv) as Hm.
  unfold add_refused. destruct (lookup_from v 0 (entries 0 rs)) as [o|].
  - destruct Hm as (-> & _). destruct (mapped rs v) as [l0|] eqn:E; simpl; [|done].
    pose proof (lbns_mapped rs v l0 Hok Hl E). by rw (proj2 (Z.eqb_neq l0 (-1))); [|lia].
  - simpl in Hm. by rw Hm.
Qed.

Lemma add_known_mapped rs v n :
  runs_ok rs -> Forall lbns_ok rs -> 0 <= v -> add_known rs v n = true ->
  exists l, mapped rs v = Some l /\
    forall j, 0 <= j < n -> mapped rs (v + j) = Some (s64 (l + j)).
Proof.
  intros Hok Hl Hv Hk. pose proof (lookup_from_means rs v Hok (lbns_lookup rs Hl) Hv) as Hm.
  unfold add_known in Hk. destruct (lookup_from v 0 (entries 0 rs)) as [o|]; [|done].
  destruct Hm as (Ho & _ & Hj & _). apply andb_true_iff in Hk as [H1 H2%Z.leb_le].
  destruct (mapped rs v) as [l|].
  - exists l. split; [done|]. intros j Hj'. rw Hj; [done|lia].
  - by rw Ho in H1.
Qed.

(** ** What an addition means *)

(** All [n] blocks from [v] on are mapped, to those from [l] on. *)
Definition range_mapped (rs : list run) (v l n : Z) : Prop :=
  forall j, 0 <= j < n -> mapped rs (v + j) = Some (s64 (l + j)).

Definition outside_same (rs rs' : list run) (v n : Z) : Prop :=
  forall w, w < v \/ v + n <= w -> mapped rs' w = mapped rs w.

(** The block behind the range is not mapped, or it continues the range. *)
Definition free_behind (rs : list run) (v l n : Z) : Prop :=
  mapped rs (v + n) = None \/ mapped rs (v + n) = Some (s64 (l + n)).

(** Whether an addition is accepted: its first block is not mapped to another logical block. *)
Definition add_accepted (rs : list run) (v l : Z) : bool :=
  match mapped rs v with Some l0 => l0 =? l | None => true end.

(** The requests from [j] on up to [j'] are granted. *)
Definition granted_between (gr : nat -> bool) (j j' : nat) : Prop :=
  forall k, (j <= k < j')%nat -> gr k = true.

(** An addition that is not accepted changes nothing.  Else there are at most two requests; if
    they are granted, the range is mapped, and where the block behind it is free nothing else
    changes. *)
Definition add_means (gr : nat -> bool) (rs : list run) (lost : Z) (j : nat) (v l n : Z) (b : bool)
    (rs' : list run) (lost' : Z) (j' : nat) : Prop :=
  b = add_accepted rs v l /\
  if b then
    (j <= j' <= j + 2)%nat /\
    (granted_between gr j j' ->
     lost' = lost /\ range_mapped rs' v l n /\ (free_behind rs v l n -> outside_same rs rs' v n))
  else rs' = rs /\ lost' = lost /\ j' = j.

Lemma add_outcome_requests gr k rs lost j rs' lost' j' :
  add_outcome gr k rs lost j rs' lost' j' -> (S j <= j' <= j + 2)%nat.
Proof.
  intros (base & lost1 & j1 & Hr & _ & _ & ->). unfold remove_result in Hr.
  destruct (surrounded _ rs); [destruct Hr as [-> _]; lia|destruct Hr as (_ & _ & ->); lia].
Qed.

(** An addition for which no request is refused. *)
Lemma add_outcome_stored gr k rs lost j rs' lost' j' :
  add_outcome gr k rs lost j rs' lost' j' -> granted_between gr j j' ->
  lost' = lost /\ add_result k (cut (MkRun (RunStartVbn k) (RunEndVbn k) (-1)) rs) rs' true.
Proof.
  intros Ho Hg. pose proof (add_outcome_requests _ _ _ _ _ _ _ _ Ho) as Hj.
  destruct Ho as (base & lost1 & j1 & Hr & Ha & -> & ->). rw (Hg j1) in Ha *; [|lia..].
  rw Z.add_0_r. unfold remove_result in Hr. destruct (surrounded _ rs); [|by destruct Hr as (-> & -> & _)].
  destruct Hr as [-> Hr]. rw (Hg j) in Hr; [|lia]. by destruct Hr as [-> ->].
Qed.

Lemma add_outcome_means gr rs lost j rs' lost' j' v l n :
  0 <= v -> 0 < n -> v + n < 2 ^ 63 -> in64 l -> runs_ok rs ->
  add_outcome gr (MkRun v (v + n) l) rs lost j rs' lost' j' -> granted_between gr j j' ->
  lost' = lost /\ range_mapped rs' v l n /\ (free_behind rs v l n -> outside_same rs rs' v n).
Proof.
  intros Hv Hn Hend Hl Hok Ho E. destruct (add_outcome_stored _ _ _ _ _ _ _ _ Ho E) as [-> Ha].
  simpl in Ha. split; [done|].
  set (k := MkRun v (v + n) l) in *. assert (run_ok k) as Hk.
  { unfold run_ok. split_and!; [simpl; lia..|exact Hl]. }
  rw (cut_range v (v + n) (-1) l) in Ha. fold k in Ha.
  pose proof (pending_cut k rs Hk Hok) as Hp.
  assert (0 <= RunStartVbn k < RunEndVbn k) as Hk' by (simpl; lia).
  pose proof (fun w => cut_mapped k Hk' rs w Hok) as Hc. split.
  - intros i Hi0. assert (inside k (v + i) = true) as Hi by (clear - Hi0; subst k; blocks).
    rw (add_inside k _ rs' (v + i) Hp Ha Hi). unfold lbn_of. simpl. do 2 f_equal. lia.
  - intros Hf w Hw. assert (inside k w = false) as Hi by (clear - Hw; subst k; blocks).
    rw (add_mapped k _ rs' w Hp Ha).
    + unfold with_run. by rw Hi Hc Hi.
    + rw Hc not_inside_end. unfold lbn_of. simpl. by replace (v + n - v) with n by lia.
Qed.

Lemma add_accepted_refused rs v l :
  runs_ok rs -> Forall lbns_ok rs -> 0 <= v -> add_refused rs v l = negb (add_accepted rs v l).
Proof.
  intros. rw add_refused_mapped // /add_accepted. by destruct (mapped rs v).
Qed.

Lemma add_step_means gr rs lost j v l n b rs' lost' j' :
  0 <= v -> 0 < n -> v + n < 2 ^ 63 -> in64 l -> runs_ok rs -> Forall lbns_ok rs ->
  mcb_step gr (AddEntry v l n) rs lost j (Answer b) rs' lost' j' ->
  add_means gr rs lost j v l n b rs' lost' j'.
Proof.
  intros Hv Hn Hend Hl Hok Hlb. cbn [mcb_step]. rw (proj2 (Z.ltb_ge v 0) Hv).
  rw (proj2 (Z.leb_gt n 0) Hn). simpl. rw add_accepted_refused // /add_means. intros Hs.
  destruct (add_accepted rs v l) eqn:Ea; simpl in Hs; [|by destruct Hs as ([= ->] & -> & -> & ->)].
  destruct Hs as ([= ->] & Hs). split; [done|]. destruct (add_known rs v n) eqn:Ek.
  - destruct Hs as (-> & -> & ->). split; [lia|]. intros _.
    apply add_known_mapped in Ek as (l0 & Hm & Hj); [|done..].
    rw /add_accepted Hm in Ea. apply Z.eqb_eq in Ea as ->. by split.
  - pose proof (add_outcome_requests _ _ _ _ _ _ _ _ Hs). split; [lia|].
    by apply (add_outcome_means gr rs lost j rs' lost' j').
Qed.


(** The runs behind an addition have logical blocks that are not negative. *)
Lemma added_found gr rs lost j rs' lost' j' v l n w :
  0 <= v -> v + n < 2 ^ 63 -> 0 <= l -> l + n <= 2 ^ 63 -> v <= w < v + n ->
  runs_ok rs -> runs_ok rs' -> Forall lbns_ok rs ->
  mcb_step gr (AddEntry v l n) rs lost j (Answer true) rs' lost' j' -> granted_between gr j j' ->
  exists o, lookup_from w 0 (entries 0 rs') = Some o /\ Lbn o = l + (w - v) /\ 0 < SectorCountFromLbn o.
Proof.
  intros Hv Hend Hl Hln Hw Hok Hok' Hlb Hstep Hg.
  assert (in64 l) as Hl64 by (unfold in64; lia).
  destruct (add_step_means gr rs lost j v l n true rs' lost' j') as (_ & _ & Hm); [done|lia|lia|done..|].
  destruct (Hm Hg) as (-> & Hm' & _). clear Hm. rename Hm' into Hm.
  assert (mapped rs' w = Some (l + (w - v))) as Hmw.
  { specialize (Hm (w - v)). rw s64_small in Hm; [|lia].
    replace (v + (w - v)) with w in Hm by lia. apply Hm. lia. }
  assert (Forall (fun r => StartingLbn r <> -1) rs') as Hne.
  { cbn [mcb_step] in Hstep. rw (proj2 (Z.ltb_ge v 0) Hv) (proj2 (Z.leb_gt n 0)) in Hstep; [|lia].
    destruct (false || false || add_refused rs v l); [by destruct Hstep|]. destruct Hstep as [_ Hstep].
    destruct (add_known rs v n); [destruct Hstep as [-> _]; by apply lbns_lookup|].
    apply positive_lookup. destruct (add_outcome_stored _ _ _ _ _ _ _ _ Hstep Hg) as [_ Ha].
    apply (add_lbns _ _ _ _ Ha); [done|]. apply cut_lbns; [simpl; lia|done|done]. }
  pose proof (lookup_from_means rs' w Hok' Hne ltac:(lia)) as Hf.
  destruct (lookup_from w 0 (entries 0 rs')) as [o|].
  - exists o. destruct Hf as (Ho & Hc & _). rw Hmw in Ho. done.
  - simpl in Hf. rw Hf in Hmw; [done|lia].
Qed.

(** ** The theorems *)

Section theorems.
Context (ex : pool) (ke : mutexes) (mm : manager) `{!PoolRoutines ex mm, !MutexRoutines ke mm}.
Context (dbg : bool) (Hdbg : reliable dbg mm) (uninit sp Mcb l : Z).


(** C12.  [FsRtlRemoveLargeMcbEntry] returns, leaves the runs in order, unmaps exactly the
    given blocks and changes no other, splitting the runs that cross the borders; only when a
    run goes beyond the blocks on both sides and the request for the memory of its tail is
    refused, that tail is unmapped as well.  The memory in use is that of the runs. *)
Theorem remove_unmaps rs lost j v n :
  0 <= v -> 0 < n -> v + n < 2 ^ 63 ->
  large_mcb ke mm Mcb rs lost ∗ add_frame sp ∗ stocked mm j l rs ⊢
  wp (FsRtlRemoveLargeMcbEntry ex ke dbg uninit (callee_frame sp) Mcb v n) (fun _ => ∃ rs' lost' j',
    ⌜runs_ok rs' /\ removed (grants mm) rs lost j v n rs' lost' j'⌝ ∗
    large_mcb ke mm Mcb rs' lost' ∗ add_frame sp ∗ stocked mm j' l rs').
Proof.
  iIntros (Hv Hn Hend) "Hs". iDestruct (large_state_runs with "Hs") as %Hok.
  iApply (locked_call with "Hs"); [apply remove_call; first [done|unfold in64; lia]|].
  iIntros (r rs' lost' j' Hstep) "Hs". iDestruct (large_state_runs with "Hs") as %Hok'.
  iExists rs', lost', j'. iFrame "Hs". iPureIntro. split; [done|].
  apply remove_result_removed; [done..|]. destruct Hstep as [_ Hstep].
  rw (proj2 (Z.ltb_ge v 0) Hv) (proj2 (Z.leb_gt n 0) Hn) (proj2 (Z.leb_gt (2 ^ 63) (v + n)) Hend) in Hstep.
  done.
Qed.

(** C13.  [FsRtlAddLargeMcbEntry] returns and leaves the runs in order; it refuses a range whose
    first block is mapped to another logical block, without a change.  Else it makes at most
    two requests for memory, and if they are granted the range is mapped to the logical blocks
    given, and no other block changes when the block behind the range is not mapped or continues
    the range.  The memory in use is that of the runs. *)
Theorem add_maps rs lost j v L n :
  fits rs -> Forall lbns_ok rs -> 0 <= v -> 0 < n -> v + n + 1 < 2 ^ 63 -> in64 L ->
  large_mcb ke mm Mcb rs lost ∗ add_frame sp ∗ stocked mm j l rs ⊢
  wp (FsRtlAddLargeMcbEntry ex ke dbg uninit sp Mcb v L n) (fun b => ∃ rs' lost' j',
    ⌜runs_ok rs' /\ add_means (grants mm) rs lost j v L n b rs' lost' j'⌝ ∗
    large_mcb ke mm Mcb rs' lost' ∗ add_frame sp ∗ stocked mm j' l rs').
Proof.
  iIntros (Hfit Hlb Hv Hn Hend Hl) "Hs". iDestruct (large_state_runs with "Hs") as %Hok.
  iApply (locked_call with "Hs"); [by apply add_call|].
  iIntros (b rs' lost' j' Hstep) "Hs". iDestruct (large_state_runs with "Hs") as %Hok'.
  iExists rs', lost', j'. iFrame "Hs". iPureIntro. split; [done|].
  apply add_step_means; [done|done|lia|done..].
Qed.

(** C22.  [FsRtlLookupLargeMcbEntry] returns and changes nothing; it fails exactly for blocks
    behind the last run, and else returns the logical block of the block, or -1 in a hole,
    with a number of blocks that are mapped on from there alike. *)
Theorem lookup_finds rs lost v :
  fits rs -> Forall (fun r => StartingLbn r <> -1) rs -> 0 <= v < 2 ^ 63 ->
  large_mcb ke mm Mcb rs lost ⊢
  wp (FsRtlLookupLargeMcbEntry ke Mcb v) (fun r =>
    ⌜lookup_means rs v r⌝ ∗ large_mcb ke mm Mcb rs lost).
Proof.
  iIntros (Hfit Hl Hv) "(%m & Hm & Hb)".
  iAssert ⌜runs_ok rs⌝%I as %Hok; [by iDestruct "Hb" as "[$ _]"|].
  iApply (locked_spec _ _ _ _ _ (fun r => ⌜lookup_means rs v r⌝ ∗ mcb (BaseMcb Mcb) rs lost)%I
    with "Hm [Hb]").
  - iApply (lookup_spec with "Hb"); [done|done|unfold in64; lia|]. iIntros "$".
    iPureIntro. apply lookup_from_means; [done|done|lia].
  - iIntros (r) "Hm [$ Hb]". iExists m. iFrame.
Qed.

(** An addition, and then the lookup of the block [w]. *)
Definition add_lookup (v L n w : Z) : M (bool * option lookup_result64) :=
  b ← FsRtlAddLargeMcbEntry ex ke dbg uninit sp Mcb v L n;
  r ← FsRtlLookupLargeMcbEntry ke Mcb w;
  ret (b, r).

(** C29.  What was added is found: an addition returns TRUE unless the first block is mapped to
    another logical block, and then, if its requests for memory are granted, the lookup of each
    block of the range returns its logical block, whatever runs the addition was joined with. *)
Theorem add_lookup_roundtrip rs lost j v L n w :
  room rs 1 -> Forall lbns_ok rs -> 0 <= v -> v + n + 1 < 2 ^ 63 -> 0 <= L -> L + n <= 2 ^ 63 ->
  v <= w < v + n ->
  large_mcb ke mm Mcb rs lost ∗ add_frame sp ∗ stocked mm j l rs ⊢
  wp (add_lookup v L n w) (fun r => ∃ rs' lost' j',
    ⌜r.1 = add_accepted rs v L /\
     (r.1 = true -> granted_between (grants mm) j j' ->
      exists o, r.2 = Some o /\ Lbn o = (L + (w - v))%Z /\ 0 < SectorCountFromLbn o)⌝ ∗
    large_mcb ke mm Mcb rs' lost' ∗ add_frame sp ∗ stocked mm j' l rs').
Proof.
  iIntros (Hroom Hlb Hv Hend Hl Hln Hw) "Hs". unfold add_lookup, FsRtlAddLargeMcbEntry.
  iDestruct (large_state_runs with "Hs") as %Hok. unfold room in Hroom.
  wp_call. iApply (locked_call with "Hs"); [apply add_call; first [done|unfold fits, in64; lia]|].
  iIntros (b rs' lost' j' Hstep) "Hs". iDestruct (large_state_runs with "Hs") as %Hok'.
  pose proof (mcb_step_length _ _ _ _ _ _ _ _ _ Hok Hstep) as Hlen.
  wp_call. iApply (locked_call with "Hs").
  { apply (read_call _ _ _ _ _ _ _ _ (lookup_from w 0 (entries 0 rs')) Block (LookupEntry w)); [done|].
    intros Φ'. apply lookup_spec; [unfold fits; lia|done|unfold in64; lia]. }
  iIntros (r rs2 lost2 j2 ([= ->] & -> & -> & ->)) "Hs". wp_ret. iExists rs', lost', j'. iFrame "Hs".
  iPureIntro. simpl. split.
  - apply (add_step_means (grants mm) rs lost j v L n b rs' lost' j'); try done; unfold in64; lia.
  - intros -> Hg. apply (added_found (grants mm) rs lost j rs' lost' j' v L n w); try done; lia.
Qed.

End theorems.

(** ** The theorems at concrete control blocks *)

(** Four requests were made before: two runs, the mapping and the mutex are in use. *)
Definition example_supply : list (Z * Z) := [(requests_cell, 4); (in_use_cell, 4)].

Definition example_memory : heap :=
  memory (((mutex_objects ++ mcb_objects) ++ add_objects 400) ++ example_supply).

Lemma mcb_example_holds :
  (large_mcb cell_mutexes cell_manager 10 two_runs 0 ∗ add_frame 400 ∗ stocked cell_manager 4 2 two_runs)%I
    example_memory.
Proof.
  apply memory_holds; [decided|]. rw 2!big_sepL_app two_runs_large add_objects_hold; [|lia].
  iIntros "[[$ $] (Hj & Hm & _)]". by iFrame.
Qed.

Lemma two_runs_lbns : Forall lbns_ok two_runs.
Proof. repeat constructor; simpl; lia. Qed.

Lemma free_build : reliable false cell_manager.
Proof. done. Qed.






(** The blocks 25 to 26 are removed from the run of the blocks 20 to 29. *)
Lemma remove_unmaps_witness :
  exists r h', FsRtlRemoveLargeMcbEntry bump_pool cell_mutexes false 0 (callee_frame 400) 10 25 2 example_memory
      = Some (r, h') /\
    (∃ rs' lost' j', ⌜runs_ok rs' /\ removed granted two_runs 0 4 25 2 rs' lost' j'⌝ ∗
       large_mcb cell_mutexes cell_manager 10 rs' lost' ∗ add_frame 400 ∗ stocked cell_manager j' 2 rs')%I h'.
Proof.
  refine (wp_adequacy _ _ _ _ (remove_unmaps bump_pool cell_mutexes cell_manager false free_build
    0 400 10 2 two_runs 0 4 25 2 _ _ _) mcb_example_holds); lia.
Defined.

(** The range 10 to 14 continues the run of the blocks 0 to 9. *)
Lemma add_maps_witness :
  exists r h', FsRtlAddLargeMcbEntry bump_pool cell_mutexes false 0 400 10 10 110 5 example_memory
      = Some (r, h') /\
    (∃ rs' lost' j', ⌜runs_ok rs' /\ add_means granted two_runs 0 4 10 110 5 r rs' lost' j'⌝ ∗
       large_mcb cell_mutexes cell_manager 10 rs' lost' ∗ add_frame 400 ∗ stocked cell_manager j' 2 rs')%I h'.
Proof.
  refine (wp_adequacy _ _ _ _ (add_maps bump_pool cell_mutexes cell_manager false free_build
    0 400 10 2 two_runs 0 4 10 110 5 _ two_runs_lbns _ _ _ _) mcb_example_holds);
    unfold fits, in64; simpl; lia.
Defined.

Lemma lookup_finds_witness :
  exists r h', FsRtlLookupLargeMcbEntry cell_mutexes 10 25 example_memory = Some (r, h') /\
    (⌜lookup_means two_runs 25 r⌝ ∗ large_mcb cell_mutexes cell_manager 10 two_runs 0)%I h'.
Proof.
  refine (wp_adequacy _ _ _ _ _ mcb_example_holds).
  iIntros "[H _]". iApply (lookup_finds cell_mutexes cell_manager 10 two_runs 0 25 with "H").
  - unfold fits. simpl. lia.
  - exact (lbns_lookup _ two_runs_lbns).
  - lia.
Defined.

Lemma add_lookup_roundtrip_witness :
  exists r h', add_lookup bump_pool cell_mutexes false 0 400 10 10 110 5 12 example_memory = Some (r, h') /\
    (∃ rs' lost' j', ⌜r.1 = add_accepted two_runs 10 110 /\
       (r.1 = true -> granted_between granted 4 j' ->
        exists o, r.2 = Some o /\ Lbn o = (110 + (12 - 10))%Z /\ 0 < SectorCountFromLbn o)⌝ ∗
      large_mcb cell_mutexes cell_manager 10 rs' lost' ∗ add_frame 400 ∗ stocked cell_manager j' 2 rs')%I h'.
Proof.
  refine (wp_adequacy _ _ _ _ (add_lookup_roundtrip bump_pool cell_mutexes cell_manager false free_build
    0 400 10 2 two_runs 0 4 10 110 5 12 _ two_runs_lbns _ _ _ _ _) mcb_example_holds);
    unfold room; simpl; lia.
Defined.

