(* ===== verification/TableClient.v ===== *)
(** * Ordered tables, seen by their clients

    Generic tables and AVL tables implement the same abstract object: a sequence of elements
    sorted by the compare routine.  [table_step] is the specification, one operation at a
    time; the class [OrderedTable] says that an implementation takes only such steps, and
    both tables are instances of it.  A client that runs any sequence of operations on a
    table that satisfies [OrderedTable] sees a run of the specification. *)

From Stdlib Require Import ZArith Lia.
From S2P Require Import Prelude.
From stdpp Require Import gmap sorting.
From iris.proofmode Require Import proofmode.
From S2P Require Import HeapLogic LinkTree ListEntry TableCommon GenericTable GenericTableWalk.
From S2P Require Import AvlTree AvlInsert AvlTable TableExample.

#[local] Open Scope Z_scope.

(** ** The specification *)

(** The compare routine orders the elements that it accepts. *)
Class OrderLaws (ct : contract) : Prop := {
  cmp_opp a b : accepted ct a -> accepted ct b -> cmp ct b a = CompOpp (cmp ct a b);
  cmp_trans a b c : accepted ct a -> accepted ct b -> accepted ct c ->
    cmp ct a b = Lt -> cmp ct b c = Lt -> cmp ct a c = Lt;
}.

(** The operations of a client, with the address and the bytes of their key. *)
Inductive operation :=
  | OpInsert (Buffer : Z) (k : list Z)
  | OpLookup (Buffer : Z) (k : list Z)
  | OpDelete (Buffer : Z) (k : list Z).

Definition op_buffer (o : operation) : Z :=
  match o with
  | OpInsert b _ | OpLookup b _ | OpDelete b _ => b
  end.

Definition op_key (o : operation) : list Z :=
  match o with
  | OpInsert _ k | OpLookup _ k | OpDelete _ k => k
  end.

Section specification.
(** [data p] is the address of the element in the entry at [p]. *)
Context (ct : contract) (mm : manager) (data : Z -> Z).
Implicit Types xs : list (Z * list Z).

Definition smaller (a b : Z * list Z) : Prop := cmp ct a.2 b.2 = Lt.

Definition sorted xs : Prop :=
  StronglySorted smaller xs /\ Forall (fun y => accepted ct y.2) xs.

(** The state: how many requests for memory were made, and the sorted elements. *)
Definition table_state : Type := nat * list (Z * list Z).

(** One operation, and its result: an element, NULL, or a truth value.  An insertion finds an
    equal element, or it makes a request, and puts the new element between the smaller and the
    larger ones if it is granted. *)
Inductive table_step : table_state -> operation -> Z -> table_state -> Prop :=
  | step_present j xs1 p x xs2 b k :
      cmp ct k x = Eq ->
      table_step (j, xs1 ++ (p, x) :: xs2) (OpInsert b k) (data p) (j, xs1 ++ (p, x) :: xs2)
  | step_no_memory j xs b k :
      none_equal (cmp ct k) xs -> grants mm j = false ->
      table_step (j, xs) (OpInsert b k) NULL (S j, xs)
  | step_insert j xs1 p xs2 b k :
      grants mm j = true -> all_greater (cmp ct k) xs1 -> all_less (cmp ct k) xs2 ->
      table_step (j, xs1 ++ xs2) (OpInsert b k) (data p) (S j, xs1 ++ (p, k) :: xs2)
  | step_found j xs1 p x xs2 b k :
      cmp ct k x = Eq ->
      table_step (j, xs1 ++ (p, x) :: xs2) (OpLookup b k) (data p) (j, xs1 ++ (p, x) :: xs2)
  | step_missing j xs b k :
      none_equal (cmp ct k) xs -> table_step (j, xs) (OpLookup b k) NULL (j, xs)
  | step_delete j xs1 p x xs2 b k :
      cmp ct k x = Eq -> table_step (j, xs1 ++ (p, x) :: xs2) (OpDelete b k) 1 (j, xs1 ++ xs2)
  | step_absent j xs b k :
      none_equal (cmp ct k) xs -> table_step (j, xs) (OpDelete b k) 0 (j, xs).

Inductive table_run : table_state -> list operation -> list Z -> table_state -> Prop :=
  | run_done s : table_run s [] [] s
  | run_step s o r s' os rs s'' :
      table_step s o r s' -> table_run s' os rs s'' -> table_run s (o :: os) (r :: rs) s''.

Context `{!OrderLaws ct}.

(** A key that the compare routine accepts sees the elements in order. *)
Lemma sorted_ordered k xs : accepted ct k -> sorted xs -> ordered (cmp ct k) xs.
Proof.
  intros Hk [Hs Hacc] xs1 p x xs2 ->.
  apply StronglySorted_app in Hs as (Hcross & _ & Hs2). apply StronglySorted_cons in Hs2 as [Hx _].
  apply Forall_app in Hacc as [Ha1 [Hax Ha2]%Forall_cons]. simpl in *.
  rewrite -> Forall_forall in Ha1, Ha2, Hx. split; intros Hkx; apply Forall_forall; intros y Hy.
  - exact (cmp_trans _ _ _ Hk Hax (Ha2 y Hy) Hkx (Hx y Hy)).
  - assert (cmp ct y.2 x = Lt) as Hyx.
    { apply (Hcross y (p, x)); [done|apply list_elem_of_here]. }
    assert (cmp ct x k = Lt) as Hxk by by rw (cmp_opp k x Hk Hax) Hkx.
    rw (cmp_opp y.2 k (Ha1 y Hy) Hk). by rw (cmp_trans _ _ _ (Ha1 y Hy) Hax Hk Hyx Hxk).
Qed.

Lemma step_sorted s o r s' :
  accepted ct (op_key o) -> table_step s o r s' -> sorted s.2 -> sorted s'.2.
Proof.
  intros Hk Hstep. destruct Hstep as [| |j xs1 p xs2 b k _ HGt HLt| | |j xs1 p x xs2 b k _|]; try done; cbn [snd].
  - intros [Hs [Ha1 Ha2]%Forall_app]. split; [|by apply Forall_app; split; [|constructor]].
    apply StronglySorted_app in Hs as (Hcross & Hs1 & Hs2). apply StronglySorted_app.
    unfold all_greater in HGt. rewrite -> Forall_forall in Ha1, HGt. split; [|split; [done|by apply StronglySorted_cons]].
    intros y z Hy [->|Hz]%elem_of_cons; [|by apply Hcross].
    rw /smaller (cmp_opp k y.2 Hk (Ha1 y Hy)). by rw (HGt y Hy).
  - intros [Hs [Ha1 [_ Ha2]%Forall_cons]%Forall_app]. split; [|by apply Forall_app].
    apply StronglySorted_app in Hs as (Hcross & Hs1 & [_ Hs2]%StronglySorted_cons).
    apply StronglySorted_app. split; [|done]. intros y z Hy Hz. apply Hcross; [done|].
    by apply list_elem_of_further.
Qed.

Lemma step_length s o r s' :
  table_step s o r s' -> (length s'.2 <= S (length s.2))%nat.
Proof. destruct 1; simpl; rw ?length_app /=; lia. Qed.
End specification.

(** ** Implementations *)

(** The code of a table: insertion, lookup and deletion, by the table and the key. *)
Record table_code := {
  DoInsert : Z -> Z -> Z -> M Z;
  DoLookup : Z -> Z -> M Z;
  DoDelete : Z -> Z -> M bool;
}.

Definition run_op (code : table_code) (Table : Z) (o : operation) : M Z :=
  match o with
  | OpInsert b k => DoInsert code Table b (Z.of_nat (length k))
  | OpLookup b _ => DoLookup code Table b
  | OpDelete b _ => r ← DoDelete code Table b; ret (if r then 1 else 0)
  end.

Fixpoint run_ops (code : table_code) (Table : Z) (os : list operation) : M (list Z) :=
  match os with
  | [] => ret []
  | o :: os' =>
      r ← run_op code Table o;
      rs ← run_ops code Table os';
      ret (r :: rs)
  end.

(** The key of an operation is in memory. *)
Definition key_at (o : operation) : hprop := bytes_at (op_buffer o) (op_key o).

(** The sizes that the code computes fit into 32 bits. *)
Definition op_fits (ct : contract) (xs : list (Z * list Z)) (o : operation) : Prop :=
  accepted ct (op_key o) /\ Z.of_nat (length (op_key o)) + 24 < 2 ^ 32 /\
  Z.of_nat (length xs) + 1 < 2 ^ 32.

(** A table refines the specification: each operation returns, with a result and contents
    that a step of the specification has, and has the blocks of its elements in use. *)
Class OrderedTable (ct : contract) (mm : manager) (data : Z -> Z) (code : table_code)
    (table : Z -> list (Z * list Z) -> hprop) : Prop :=
  op_refines Table j m xs o Φ :
    sorted ct xs -> op_fits ct xs o ->
    table Table xs -∗ key_at o -∗ stocked mm j m xs -∗
    (∀ r j' xs', ⌜table_step ct mm data (j, xs) o r (j', xs')⌝ -∗ table Table xs' -∗ key_at o -∗
       stocked mm j' m xs' -∗ Φ r) -∗
    wp (run_op code Table o) Φ.

Section client.
Context (ct : contract) (mm : manager) (data : Z -> Z) (code : table_code)
  (table : Z -> list (Z * list Z) -> hprop).
Context `{!OrderLaws ct, !OrderedTable ct mm data code table}.

Definition ops_fit (n : nat) (os : list operation) : Prop :=
  Forall (fun o => accepted ct (op_key o) /\ Z.of_nat (length (op_key o)) + 24 < 2 ^ 32) os /\
  Z.of_nat (n + length os) < 2 ^ 32.

(** Any sequence of operations is a run of the specification, and leaves the table sorted. *)
Lemma run_ops_refines Table j m xs os Φ :
  sorted ct xs -> ops_fit (length xs) os ->
  table Table xs -∗ ([∗ list] o ∈ os, key_at o) -∗ stocked mm j m xs -∗
  (∀ rs j' xs', ⌜table_run ct mm data (j, xs) os rs (j', xs') /\ sorted ct xs'⌝ -∗ table Table xs' -∗
     ([∗ list] o ∈ os, key_at o) -∗ stocked mm j' m xs' -∗ Φ rs) -∗
  wp (run_ops code Table os) Φ.
Proof.
  revert j xs Φ. induction os as [|o os IH]; intros j xs Φ Hs [Hacc Hlen]; simpl;
    iIntros "Ht Hk Hst HΦ".
  - wp_ret. iApply ("HΦ" with "[%] Ht Hk Hst"). split; [constructor|done].
  - iDestruct "Hk" as "[Hk Hks]". apply Forall_cons in Hacc as [[Ho Hlo] Hacc]. simpl in Hlen.
    wp_call. iApply (op_refines with "Ht Hk Hst"); [done|split; [done|lia]|].
    iIntros (r j' xs' Hstep) "Ht Hk Hst". pose proof (step_length _ _ _ _ _ _ _ Hstep) as Hl. simpl in Hl.
    wp_call. iApply (IH with "Ht Hks Hst");
      [exact (step_sorted _ _ _ _ _ _ _ Ho Hstep Hs)|split; [done|lia]|].
    iIntros (rs j'' xs'' [Hrun Hs'']) "Ht Hks Hst". wp_ret.
    iApply ("HΦ" with "[%] Ht [$Hk $Hks] Hst"). split; [by econstructor|done].
Qed.
End client.

(** ** Generic tables and AVL tables *)

Definition generic_code (cb : callbacks) (uninit : Z) : table_code := {|
  DoInsert Table b n := RtlInsertElementGenericTable cb uninit Table b n NULL;
  DoLookup := RtlLookupElementGenericTable cb uninit;
  DoDelete := RtlDeleteElementGenericTable cb uninit;
|}.

Definition avl_code (cb : callbacks) (uninit : Z) : table_code := {|
  DoInsert Table b n := RtlInsertElementGenericTableAvl cb Table b n NULL;
  DoLookup := RtlLookupElementGenericTableAvl cb uninit;
  DoDelete := RtlDeleteElementGenericTableAvl cb uninit;
|}.

Section instances.
Context (cb : callbacks) (ct : contract) (mm : manager) (uninit : Z) `{!OrderLaws ct}.

Lemma no_flag v : ⊢ opt_cell NULL v.
Proof. by iLeft. Qed.

#[export] Instance generic_ordered `{!TableRoutines entry_block HeaderSize cb ct mm} :
  OrderedTable ct mm UserData (generic_code cb uninit)
    (fun Table xs => ∃ ins s, generic_table ct Table xs ins s)%I.
Proof.
  intros Table j m xs o Φ Hs (Hk & Hlen & Hmax). pose proof (sorted_ordered ct (op_key o) xs Hk Hs).
  iIntros "(%ins & %s & Ht) Hb Hst HΦ". destruct o as [b k|b k|b k]; cbn [op_key run_op DoInsert DoLookup DoDelete generic_code avl_code] in *.
  - iApply (insert_element_spec with "Ht Hb [] Hst"); [done|done|done|iApply (no_flag 0)|].
    iIntros (q) "Hb [(% & % & % & % & (-> & % & ->) & Ht & _ & Hst)|[((-> & % & %) & Ht & _ & Hst)|
      (% & % & % & (-> & -> & % & % & %) & Ht & _ & Hst)]]"; iApply ("HΦ" with "[%] [Ht] Hb Hst");
      first [by iExists _, _ | by constructor].
  - iApply (lookup_element_spec with "Ht Hb"); [done|done|].
    iIntros (q [(? & ? & ? & ? & -> & ? & ->)|[-> ?]]) "Ht Hb";
      iApply ("HΦ" with "[%] [Ht] Hb Hst"); first [by iExists _, _ | by constructor].
  - wp_call. iApply (delete_element_spec with "Ht Hb Hst"); [done|done|].
    iIntros (r) "[(% & % & % & % & % & % & (-> & -> & % & %) & Ht & Hst)|[(-> & %) [Ht Hst]]] Hb"; wp_ret;
      iApply ("HΦ" with "[%] [Ht] Hb Hst"); first [by iExists _, _ | by econstructor].
Qed.

#[export] Instance avl_ordered `{!TableRoutines avl_block AvlHeaderSize cb ct mm} :
  OrderedTable ct mm AvlUserData (avl_code cb uninit)
    (fun Table xs => ∃ key, avl_table ct Table xs key)%I.
Proof.
  intros Table j m xs o Φ Hs (Hk & Hlen & Hmax). pose proof (sorted_ordered ct (op_key o) xs Hk Hs).
  iIntros "[%key Ht] Hb Hst HΦ". destruct o as [b k|b k|b k]; cbn [op_key run_op DoInsert DoLookup DoDelete generic_code avl_code] in *.
  - iApply (avl_insert_element_spec with "Ht Hb [] Hst");
      [done|done|unfold AvlHeaderSize; cbn [op_key]; lia|done|iApply (no_flag 0)|].
    iIntros (q) "Hb [(% & % & % & % & (-> & % & ->) & Ht & _ & Hst)|[((-> & % & %) & Ht & _ & Hst)|
      (% & % & % & (-> & -> & % & % & %) & Ht & _ & Hst)]]"; iApply ("HΦ" with "[%] [Ht] Hb Hst");
      first [by iExists _ | by constructor].
  - iApply (avl_lookup_element_spec with "Ht Hb"); [done|done|].
    iIntros (q [(? & ? & ? & ? & -> & ? & ->)|[-> ?]]) "Ht Hb";
      iApply ("HΦ" with "[%] [Ht] Hb Hst"); first [by iExists _ | by constructor].
  - wp_call. iApply (avl_delete_element_spec with "Ht Hb Hst"); [done|done|].
    iIntros (r) "[(% & % & % & % & (-> & -> & %) & Ht & Hst)|[(-> & %) [Ht Hst]]] Hb"; wp_ret;
      iApply ("HΦ" with "[%] [Ht] Hb Hst"); first [by iExists _ | by econstructor].
Qed.
End instances.
