(* ===== verification/Containers.v ===== *)
(** * The containers of Rtl: what they promise

    The theorems about splay trees, generic tables and AVL tables, stated for whole calls:
    from the memory on the left of the turnstile the call returns, and the memory and the
    result are as the assertion on the right says.  Each has a run on a concrete memory. *)

From Stdlib Require Import ZArith Lia.
From S2P Require Import Prelude.
From stdpp Require Import gmap sorting.
From iris.proofmode Require Import proofmode.
From S2P Require Import HeapLogic LinkTree SplayTree SplayDelete ListEntry TableCommon.
From S2P Require Import GenericTable GenericTableWalk AvlTree AvlInsert AvlDelete AvlTable.
From S2P Require Import TableExample TableClient.

#[local] Open Scope Z_scope.

(** ** Clients and memories *)

(** The objects of a tree without data, and of a generic table's memory. *)
Fixpoint tree_objects (par : Z) (t : tree unit) : list (Z * Z) :=
  match t with
  | Leaf => []
  | Node p _ l r =>
      (Parent p, par) :: (LeftChild p, addr l) :: (RightChild p, addr r) ::
      tree_objects p l ++ tree_objects p r
  end.

Definition no_data (p : Z) (x : unit) : hprop := emp%I.

Definition nodes_valid (t : tree unit) : Prop := Forall (fun e => e.1 <> NULL) (inorder t).

(** The loop with which clients visit a generic table: restart, then go on until NULL. *)
Definition enumerate_round (Table : Z) (s : list Z * Z) : M (list Z * Z + list Z) :=
  if s.2 =? NULL then ret (inr s.1)
  else
    p ← RtlEnumerateGenericTable Table false;
    ret (inl (s.1 ++ [s.2], p)).

Definition enumerate_all (Table : Z) : M (list Z) :=
  p ← RtlEnumerateGenericTable Table true;
  while (enumerate_round Table) ([], p).

(** [RtlpFindAvlTableNodeOrParent] whose loop is cut off after [rounds] rounds. *)
Definition find_within (cb : callbacks) (rounds : nat) (Table Buffer NodeOrParent : Z) : M (Z * Z) :=
  n ← load (AvlNumberGenericTableElements Table);
  if n =? 0 then ret (TableEmptyTree, NodeOrParent)
  else
    root ← load (RightChild (BalancedRoot Table));
    iter rounds (search_round (avl_compare_with cb Table Buffer)) root.

Lemma tree_objects_hold par t :
  nodes_valid t -> ([∗ list] c ∈ tree_objects par t, c.1 ↦ c.2) ⊢ tree_at no_data par t.
Proof.
  unfold nodes_valid. revert par. induction t as [|p [] l IHl r IHr]; intros par; simpl; [by auto|].
  rw Forall_app Forall_cons. intros (Hl & Hp & Hr). rw big_sepL_app.
  iIntros "(HP & HL & HR & Hl & Hr)". iSplit; [done|]. iFrame "HP HL HR". iSplit; [done|].
  iSplitL "Hl"; [by iApply IHl|by iApply IHr].
Qed.

(** ** Splay trees *)

(** [RtlSplay] returns on every tree and every node of it, with the node at the root;
    the elements before and after the node keep their order, as its left and right
    subtrees. *)
Theorem splay_moves_to_root {A} (own : Z -> A -> hprop) n x l r c :
  focus own (Node n x l r) c ⊢
  wp (RtlSplay n) (fun q => ∃ a b,
    ⌜q = n /\ inorder a = before c ++ inorder l /\ inorder b = inorder r ++ after c⌝ ∗
    rooted own (Node n x a b)).
Proof.
  iIntros "Hf". iApply (RtlSplay_spec with "Hf"). iIntros "Ht".
  destruct (splay_root c n x l r) as (a & b & -> & Ha & Hb). iExists a, b. by iFrame.
Qed.

(** A chain of four nodes, seen from its lowest node. *)
Definition chain_tree : tree unit :=
  Node 100 tt (Node 112 tt (Node 124 tt (Node 136 tt Leaf Leaf) Leaf) Leaf) Leaf.

Definition chain_context : list (frame unit) := [InL 124 tt Leaf; InL 112 tt Leaf; InL 100 tt Leaf].

Lemma chain_holds : focus no_data (Node 136 tt Leaf Leaf) chain_context (memory (tree_objects 100 chain_tree)).
Proof.
  apply memory_holds; [decided|]. rw focus_plug. apply tree_objects_hold. by repeat constructor.
Qed.

Lemma splay_moves_to_root_witness :
  exists q h', RtlSplay 136 (memory (tree_objects 100 chain_tree)) = Some (q, h') /\
    (∃ a b, ⌜q = 136 /\ inorder a = [] /\ inorder b = [(124, tt); (112, tt); (100, tt)]⌝ ∗
       rooted no_data (Node 136 tt a b))%I h'.
Proof.
  exact (wp_adequacy _ _ _ _ (splay_moves_to_root no_data 136 tt Leaf Leaf chain_context) chain_holds).
Defined.

(** C18.  [RtlDelete] and [RtlDeleteNoSplay] take exactly the given node out of its tree, on
    every path (no child, one child, two children, the root or not): they return the root of
    a tree of the other elements in their order, and the node is free. *)
Theorem delete_removes_node {A} (own : Z -> A -> hprop) n x l r c Root :
  let rest := before c ++ inorder l ++ inorder r ++ after c in
  (focus own (Node n x l r) c ⊢
   wp (RtlDelete n) (fun q => ∃ t,
     ⌜q = addr t /\ inorder t = rest⌝ ∗ rooted own t ∗ detached own n x)) /\
  (focus own (Node n x l r) c ∗ Root ↦ addr (plug (Node n x l r) c) ⊢
   wp (RtlDeleteNoSplay n Root) (fun _ => ∃ t,
     ⌜inorder t = rest⌝ ∗ rooted own t ∗ Root ↦ addr t ∗ detached own n x)).
Proof.
  split.
  - iIntros "Hf". iApply (RtlDelete_spec with "Hf"). iIntros (t Ht) "Ht Hn". iExists t. by iFrame.
  - iIntros "[Hf HR]". iApply (RtlDeleteNoSplay_spec with "Hf HR").
    iIntros (t Ht) "Ht HR Hn". iExists t. by iFrame.
Qed.

(** A root with two children, of which the left one has a right child. *)
Definition fork_tree : tree unit :=
  Node 100 tt (Node 112 tt Leaf (Node 124 tt Leaf Leaf)) (Node 136 tt Leaf Leaf).

Lemma delete_removes_node_witness :
  exists q h', RtlDelete 100 (memory (tree_objects 100 fork_tree)) = Some (q, h') /\
    (∃ t, ⌜q = addr t /\ inorder t = [(112, tt); (124, tt); (136, tt)]⌝ ∗
       rooted no_data t ∗ detached no_data 100 tt)%I h'.
Proof.
  apply (wp_adequacy _ _ _ _ (proj1 (delete_removes_node no_data 100 tt
    (Node 112 tt Leaf (Node 124 tt Leaf Leaf)) (Node 136 tt Leaf Leaf) [] 0))).
  apply memory_holds; [decided|]. rw focus_root. apply tree_objects_hold. by repeat constructor.
Defined.

(** ** Tables as ordered sets *)

#[export] Instance byte_order : OrderLaws byte_contract.
Proof.
  split.
  - intros [|a [|]] [|b [|]]; try done. intros _ _. apply Z.compare_antisym.
  - intros [|a [|]] [|b [|]] [|c [|]]; try done. intros _ _ _. simpl. rw !Z.compare_lt_iff. lia.
Qed.

(** C6.  A generic table refines the specification of an ordered table: from the memory of
    a table, [RtlInitializeGenericTable] and then any sequence of insertions, lookups and
    deletions return, their results are those of a run of the specification from the empty
    table, and the table keeps its elements sorted.  An insertion fails only if there is no
    equal element and the request for its memory is refused.  Whatever was requested before
    and is in use, afterwards the blocks of the elements are in use and no others. *)
Theorem generic_table_refines cb ct mm uninit Table ctx j l os
    `{!OrderLaws ct, !TableRoutines entry_block HeaderSize cb ct mm} :
  ops_fit ct 0 os ->
  table_memory Table ∗ (TableContext Table ↦ ctx -∗ context ct Table) ∗
  ([∗ list] o ∈ os, key_at o) ∗ supply mm j l ⊢
  wp (RtlInitializeGenericTable Table (fcompare ct) (fallocate ct) (ffree ct) ctx;;
      run_ops (generic_code cb uninit) Table os) (fun rs =>
    ∃ j' xs ins s, ⌜table_run ct mm UserData (j, []) os rs (j', xs) /\ sorted ct xs⌝ ∗
      generic_table ct Table xs ins s ∗ supply mm j' (l + Z.of_nat (length xs))).
Proof.
  iIntros (Hfit) "(HT & Hctx & Hks & Hst)".
  wp_call. iApply (initialize_spec ct with "HT Hctx"). iIntros "Ht".
  iApply (run_ops_refines ct mm UserData _ (fun T xs => ∃ ins s, generic_table ct T xs ins s)%I _ j l []
    with "[Ht] Hks [Hst]"); [split; constructor|done|by iExists _, _|by rw -stocked_none|].
  iIntros (rs j' xs Hrun) "(%ins & %s & Ht) _ Hst". iExists j', xs, ins, s. by iFrame.
Qed.

(** Two insertions, a lookup and a deletion of bytes that are at 1000 and 1001. *)
Definition byte_ops : list operation :=
  [OpInsert 1000 [5]; OpInsert 1001 [3]; OpLookup 1002 [5]; OpDelete 1003 [3]].

Definition byte_keys : list (Z * Z) := [(1000, 5); (1001, 3); (1002, 5); (1003, 3)].

(** No request has been made. *)
Definition manager_objects : list (Z * Z) := [(requests_cell, 0); (in_use_cell, 0)].

Lemma manager_holds : ([∗ list] c ∈ manager_objects, c.1 ↦ c.2) ⊢ supply cell_manager 0 0.
Proof. iIntros "($ & $ & _)". Qed.

Definition table_objects (Table : Z) : list (Z * Z) :=
  (fun i => (Table + i, 0)) <$> [0; 4; 8; 12; 16; 20; 24; 28; 32; 36].

Lemma generic_table_refines_witness :
  exists rs h',
    (RtlInitializeGenericTable 100 1 2 3 0;; run_ops (generic_code byte_routines 0) 100 byte_ops)%heap
      (memory (manager_objects ++ table_objects 100 ++ byte_keys)) = Some (rs, h') /\
    (∃ j' xs ins s, ⌜table_run byte_contract cell_manager UserData (O, []) byte_ops rs (j', xs) /\
         sorted byte_contract xs⌝ ∗
       generic_table byte_contract 100 xs ins s ∗ supply cell_manager j' (0 + Z.of_nat (length xs)))%I h'.
Proof.
  apply (wp_adequacy _ _ _ _ (generic_table_refines byte_routines byte_contract cell_manager 0 100 0 0 0
    byte_ops ltac:(split; [by repeat constructor|done]))).
  apply memory_holds; [decided|]. rw !big_sepL_app manager_holds.
  iIntros "(Hs & (HT & H4 & H8 & H12 & H16 & H20 & H24 & H28 & H32 & H36 & _) & (K0 & K1 & K2 & K3 & _))".
  iFrame "Hs". iSplitR "K0 K1 K2 K3"; [by iFrame|]. iSplitR; [by iIntros "_"|]. by iFrame.
Defined.

(** C5.  An AVL table refines the same specification: from the memory of a table,
    [RtlInitializeGenericTableAvl] and then any sequence of insertions, lookups and deletions
    return with the results of a run of the specification, the table keeps its elements
    sorted, and the blocks of the elements and no others have come into use. *)
Theorem avl_table_refines cb ct mm uninit Table ctx j l os
    `{!OrderLaws ct, !TableRoutines avl_block AvlHeaderSize cb ct mm} :
  ops_fit ct 0 os ->
  avl_table_memory Table ∗ (AvlTableContext Table ↦ ctx -∗ context ct Table) ∗
  ([∗ list] o ∈ os, key_at o) ∗ supply mm j l ⊢
  wp (RtlInitializeGenericTableAvl Table (fcompare ct) (fallocate ct) (ffree ct) ctx;;
      run_ops (avl_code cb uninit) Table os) (fun rs =>
    ∃ j' xs key, ⌜table_run ct mm AvlUserData (j, []) os rs (j', xs) /\ sorted ct xs⌝ ∗
      avl_table ct Table xs key ∗ supply mm j' (l + Z.of_nat (length xs))).
Proof.
  iIntros (Hfit) "(HT & Hctx & Hks & Hst)".
  wp_call. iApply (avl_initialize_spec ct with "HT Hctx"). iIntros "Ht".
  iApply (run_ops_refines ct mm AvlUserData _ (fun T xs => ∃ key, avl_table ct T xs key)%I _ j l []
    with "[Ht] Hks [Hst]"); [split; constructor|done|by iExists _|by rw -stocked_none|].
  iIntros (rs j' xs Hrun) "[%key Ht] _ Hst". iExists j', xs, key. by iFrame.
Qed.

Definition avl_table_objects (Table : Z) : list (Z * Z) :=
  (fun i => (Table + i, 0)) <$> [0; 4; 8; 12; 13; 14; 15; 16; 20; 24; 28; 32; 36; 40; 44; 48; 52].

Lemma avl_memory_holds :
  ([∗ list] c ∈ avl_table_objects 100, c.1 ↦ c.2) ⊢ avl_table_memory 100.
Proof.
  iIntros "(HP & HL & HR & HB & H13 & H14 & H15 & H16 & H20 & H24 & H28 & H32 & H36 & H40 & H44 & H48 & H52 & _)".
  iSplitL "HP HL HR HB H13 H14 H15"; [|by iFrame].
  iSplit; [done|]. iSplitL "HP HL HR"; [iExists _, _, _; iFrame|]. iSplitL "HB"; [by iExists _|].
  iSplit; [|done]. iExists [0; 0; 0]. by iFrame.
Qed.

Lemma avl_table_refines_witness :
  exists rs h',
    (RtlInitializeGenericTableAvl 100 1 2 3 0;; run_ops (avl_code byte_routines 0) 100 byte_ops)%heap
      (memory (manager_objects ++ avl_table_objects 100 ++ byte_keys)) = Some (rs, h') /\
    (∃ j' xs key, ⌜table_run byte_contract cell_manager AvlUserData (O, []) byte_ops rs (j', xs) /\
         sorted byte_contract xs⌝ ∗
       avl_table byte_contract 100 xs key ∗ supply cell_manager j' (0 + Z.of_nat (length xs)))%I h'.
Proof.
  apply (wp_adequacy _ _ _ _ (avl_table_refines byte_routines byte_contract cell_manager 0 100 0 0 0
    byte_ops ltac:(split; [by repeat constructor|done]))).
  apply memory_holds; [decided|]. rw !big_sepL_app manager_holds.
  iIntros "(Hs & HT & (K0 & K1 & K2 & K3 & _))". iFrame "Hs".
  iSplitL "HT"; [by iApply avl_memory_holds|]. iSplitR; [by iIntros "_"|]. by iFrame.
Defined.

(** ** Enumeration *)

(** The loop of a client has passed the elements [xs1]; [p] is the next one. *)
Definition enumerate_inv ct (Table : Z) (xs : list (Z * list Z)) (ins : list Z) (reset : bool)
    (k : nat) (s : list Z * Z) : hprop :=
  (∃ xs1 xs2, ⌜xs = xs1 ++ xs2 /\ s.1 = UserData <$> xs1.*1 /\ k = length xs2⌝ ∗
     match xs2 with
     | [] => ⌜s.2 = NULL⌝ ∗ generic_table ct Table xs ins reset
     | (p, _) :: _ => ⌜s.2 = UserData p⌝ ∗ table_at_index ct Table xs ins reset (length xs1)
     end)%I.

Lemma enumerate_round_ok ct Table xs ins reset :
  round_ok (enumerate_round Table) (enumerate_inv ct Table xs ins reset)
    (fun r => ⌜r = UserData <$> xs.*1⌝ ∗ generic_table ct Table xs ins reset)%I.
Proof.
  intros k s. iIntros "(%xs1 & %xs2 & (-> & %Hs & ->) & Ht)". unfold enumerate_round.
  destruct xs2 as [|[p x] xs2].
  - iDestruct "Ht" as "[-> Ht]". wp_test. wp_ret. rw app_nil_r. by iFrame.
  - iDestruct "Ht" as "[-> Ht]". iDestruct (enumerated_positive with "Ht") as %Hp.
    rw (proj2 (Z.eqb_neq _ NULL)); [|unfold UserData, NULL; lia].
    wp_call. iApply (enumerate_next_spec with "Ht").
    rw lookup_app_r; [|lia]. replace (S (length xs1) - length xs1)%nat with 1%nat by lia.
    assert (s.1 ++ [UserData p] = UserData <$> (xs1 ++ [(p, x)]).*1) as Hs' by by rw !fmap_app Hs.
    destruct xs2 as [|[q y] xs2]; simpl; iIntros "Ht"; wp_ret.
    + iExists 0%nat. iSplit; [iPureIntro; lia|]. iExists (xs1 ++ [(p, x)]), []. rw app_nil_r.
      iSplit; [done|]. iSplit; [done|]. by iApply table_at_index_forget.
    + iExists (S (length xs2)). iSplit; [iPureIntro; lia|].
      iExists (xs1 ++ [(p, x)]), ((q, y) :: xs2). rw -app_assoc length_app Nat.add_comm /=.
      iSplit; [done|]. by iFrame.
Qed.

(** C30.  The loop of a client over [RtlEnumerateGenericTable] ends, and it visits each
    element of the table once, in the order of the compare routine; the table keeps its
    elements. *)
Theorem enumerate_all_visits ct Table xs ins reset :
  generic_table ct Table xs ins reset ⊢
  wp (enumerate_all Table) (fun r =>
    ⌜r = UserData <$> xs.*1⌝ ∗ generic_table ct Table xs ins reset).
Proof.
  iIntros "Ht". unfold enumerate_all. wp_call. destruct xs as [|[p x] xs].
  - iApply (enumerate_empty_spec with "Ht"). iIntros "Ht".
    iApply (wp_while _ (enumerate_inv ct Table [] ins reset) _ 0).
    + by apply enumerate_round_ok.
    + iIntros "_". iApply cells_0.
    + iExists [], []. by iFrame.
  - iApply (enumerate_restart_spec with "Ht"). iIntros "Ht".
    iApply (wp_while _ (enumerate_inv ct Table ((p, x) :: xs) ins reset) _ (S (length xs))).
    + by apply enumerate_round_ok.
    + iIntros "(%xs1 & %xs2 & (%E & _ & ->) & Ht)". rw E.
      iApply (cells_le (length (xs1 ++ xs2))); [rw length_app; lia|].
      destruct xs2 as [|[]]; iDestruct "Ht" as "[_ Ht]"; [|rw table_at_index_forget];
        by iApply generic_table_cells.
    + iExists [], ((p, x) :: xs). by iFrame.
Qed.

(** A table at 100 with the bytes 3 and 5 in the entries at 200 and 240; 5 was inserted
    first. *)
Definition two_bytes : list (Z * list Z) := [(200, [3]); (240, [5])].

Definition two_bytes_tree : tree (list Z) := Node 240 [5] (Node 200 [3] Leaf Leaf) Leaf.

Definition two_bytes_objects : list (Z * Z) :=
  [(100, 240); (104, 252); (108, 212); (112, 104); (116, 0); (120, 2); (124, 1); (128, 2); (132, 3);
   (240, 240); (244, 200); (248, 0); (252, 212); (256, 104); (264, 5);
   (200, 240); (204, 0); (208, 0); (212, 104); (216, 252); (224, 3)].

Lemma two_bytes_hold :
  ([∗ list] c ∈ two_bytes_objects, c.1 ↦ c.2) ⊢
  table_position byte_contract 100 two_bytes [240; 200] 0.
Proof.
  iIntros "(T0 & T4 & T8 & T12 & T16 & T20 & T24 & T28 & T32 & A0 & A4 & A8 & A12 & A16 & A24 &
    B0 & B4 & B8 & B12 & B16 & B24 & _)".
  iExists two_bytes_tree, 104. iSplit; [done|]. iFrame "T0 T12 T16 T20".
  iSplitL "A0 A4 A8 A24 B0 B4 B8 B24"; [by iFrame|].
  iSplitL "T4 T8 A12 A16 B12 B16"; [by iFrame|]. iSplitL "T24 T28 T32"; [by iFrame|].
  iPureIntro. split; [|by repeat constructor]. apply perm_swap.
Qed.

Lemma position_forget ct Table xs ins w :
  table_position ct Table xs ins w ⊢ generic_table ct Table xs ins false.
Proof.
  iIntros "(%t & %op & (%Ht & %Hop) & HT & Ht & Hl & Hn & Ho & Hw & Hr & %Hpure)".
  iApply (forget_position with "HT Ht Hl Hn Ho Hw Hr"); [done| |done].
  by apply list_elem_of_lookup_2 in Hop.
Qed.

Lemma enumerate_all_visits_witness :
  exists r h', enumerate_all 100 (memory two_bytes_objects) = Some (r, h') /\
    (⌜r = [224; 264]⌝ ∗ generic_table byte_contract 100 two_bytes [240; 200] false)%I h'.
Proof.
  apply (wp_adequacy _ _ _ _ (enumerate_all_visits byte_contract 100 two_bytes [240; 200] false)).
  apply memory_holds; [decided|]. rw two_bytes_hold. apply position_forget.
Defined.

(** C38.  [RtlGetElementGenericTable] on a table whose position is the list head, as it is
    after initialisation and after a deletion, walks back from the head where it should
    walk forward: for an index in the first half of the order of insertion it returns the
    element that has that many elements behind it, not before it. *)
Theorem get_element_counts_from_end ct Table xs insA q insB :
  Z.of_nat (length (insA ++ q :: insB)) < MAXULONG -> (length insB <= length insA)%nat ->
  table_position ct Table xs (insA ++ q :: insB) 0 ⊢
  wp (RtlGetElementGenericTable Table (Z.of_nat (length insB))) (fun r =>
    ⌜r = UserData q⌝ ∗ generic_table ct Table xs (insA ++ q :: insB) false).
Proof.
  iIntros (Hmax Hle) "Ht". iApply (get_element_mirrored with "Ht"); [done|done|].
  iIntros "Ht". by iFrame.
Qed.

(** Index 0 is the byte 3, which was inserted last. *)
Lemma get_element_counts_from_end_witness :
  exists r h', RtlGetElementGenericTable 100 0 (memory two_bytes_objects) = Some (r, h') /\
    (⌜r = UserData 200⌝ ∗ generic_table byte_contract 100 two_bytes [240; 200] false)%I h'.
Proof.
  apply (wp_adequacy _ _ _ _ (get_element_counts_from_end byte_contract 100 two_bytes [240] 200 []
    ltac:(done) ltac:(simpl; lia))).
  apply memory_holds; [decided|]. apply two_bytes_hold.
Defined.

(** ** Balanced trees *)

(** C17.  [RtlpInsertAvlTreeNode] keeps the tree well formed: when the balance of each node
    is the difference of the heights of its subtrees and at most one, this holds of the tree
    with the new node as the child on the side [d] of [q], whichever rotations are needed,
    and [DepthOfTree] is its height. *)
Theorem avl_insert_keeps_balance Table n k N hb d q x s c :
  let t := plug (bnode d q x Leaf s) c in
  avl t ->
  avl_free n k ∗ avl_rooted Table hb t ∗ AvlNumberGenericTableElements Table ↦ N ∗
    DepthOfTree Table ↦ u32 (height t) ⊢
  wp (RtlpInsertAvlTreeNode Table n q (if d then TableInsertAsLeft else TableInsertAsRight))
    (fun _ => ∃ T b,
       ⌜avl T /\ elems T = elems (plug (Node n (0, k) Leaf Leaf) (bframe d q x s :: c))⌝ ∗
       avl_rooted Table b T ∗ DepthOfTree Table ↦ u32 (height T) ∗
       AvlNumberGenericTableElements Table ↦ u32 (N + 1)).
Proof.
  iIntros (t Ht) "(Hn & Hf & HN & Hd)". iApply (insert_below_spec with "Hn Hf HN Hd"); [done|].
  iIntros "HN" (T b HT) "Hf Hd". iExists T, b. by iFrame.
Qed.

(** The objects of a balanced tree whose elements have no bytes, and of its header. *)
Definition node_objects (p par l r b : Z) : list (Z * Z) :=
  [(Parent p, par); (LeftChild p, l); (RightChild p, r); (Balance p, b);
   (Reserved p, 0); (Reserved p + 1, 0); (Reserved p + 1 + 1, 0)].

Fixpoint avl_objects (par : Z) (t : tree (Z * list Z)) : list (Z * Z) :=
  match t with
  | Leaf => []
  | Node p x l r =>
      node_objects p par (addr l) (addr r) x.1 ++ avl_objects p l ++ avl_objects p r
  end.

Definition header_objects (Table : Z) (t : tree (Z * list Z)) : list (Z * Z) :=
  node_objects (BalancedRoot Table) (BalancedRoot Table) NULL (addr t) 0 ++
  avl_objects (BalancedRoot Table) t.

Definition bare_valid (t : tree (Z * list Z)) : Prop :=
  Forall (fun e => e.1 <> NULL /\ e.2.2 = []) (inorder t).

Lemma node_objects_hold p par l r b :
  ([∗ list] c ∈ node_objects p par l r b, c.1 ↦ c.2) ⊢ links p par l r ∗ avl_node p (b, []).
Proof.
  iIntros "(HP & HL & HR & HB & H1 & H2 & H3 & _)". iFrame "HP HL HR HB". iSplit; [|done].
  iExists [0; 0; 0]. by iFrame.
Qed.

Lemma avl_objects_hold par t :
  bare_valid t -> ([∗ list] c ∈ avl_objects par t, c.1 ↦ c.2) ⊢ tree_at avl_node par t.
Proof.
  unfold bare_valid. revert par. induction t as [|p [b x] l IHl r IHr]; intros par; cbn [avl_objects];
    [by auto|].
  cbn [inorder]. rw Forall_app Forall_cons. intros (Hl & [Hp Hx] & Hr). simpl in Hp, Hx. subst x.
  rw !big_sepL_app node_objects_hold. iIntros "([Hp Hx] & Hl & Hr)". iSplit; [done|].
  iFrame "Hp Hx". iSplitL "Hl"; [by iApply IHl|by iApply IHr].
Qed.

Lemma header_objects_hold Table t :
  Table <> NULL -> bare_valid t ->
  ([∗ list] c ∈ header_objects Table t, c.1 ↦ c.2) ⊢ avl_rooted Table 0 t.
Proof.
  intros HT Ht. rw /header_objects big_sepL_app node_objects_hold avl_objects_hold //.
  iIntros "[[Hh Hx] Ht]". iFrame "Ht". iSplit; [done|]. by iFrame "Hh Hx".
Qed.

(** A third node goes to the right of two that already lean to the right. *)
Definition leaning : tree (Z * list Z) :=
  Node 300 (1, []) Leaf (Node 316 (0, []) Leaf Leaf).

Lemma avl_insert_keeps_balance_witness :
  exists r h', RtlpInsertAvlTreeNode 100 332 316 TableInsertAsRight
      (memory (node_objects 332 0 0 0 0 ++ header_objects 100 leaning ++ [(124, 2); (128, 2)])) =
      Some (r, h') /\
    (∃ T b, ⌜avl T /\ elems T = [(300, []); (316, []); (332, [])]⌝ ∗ avl_rooted 100 b T ∗
       DepthOfTree 100 ↦ u32 (height T) ∗ AvlNumberGenericTableElements 100 ↦ u32 (2 + 1))%I h'.
Proof.
  apply (wp_adequacy _ _ _ _ (avl_insert_keeps_balance 100 332 [] 2 0 false 316 (0, []) Leaf
    [InR 300 (1, []) Leaf] ltac:(repeat split; simpl; lia))).
  apply memory_holds; [decided|]. rw big_sepL_app node_objects_hold big_sepL_app.
  rw header_objects_hold; [|done|by repeat constructor].
  iIntros "([Hl (HB & Hrs & _)] & Hf & HN & Hd & _)". iFrame "Hf HN Hd".
  iSplit; [done|]. iFrame "Hrs". iSplitL "Hl"; [by iExists _, _, _|]. by iFrame "HB".
Defined.

(** C16.  [RtlpDeleteAvlTreeNode] keeps the tree well formed as well: the node leaves it, the
    other elements keep their order, the tree is balanced, and [DepthOfTree] is its height.
    The memory of the node is free, although a neighbour may have taken its place. *)
Theorem avl_delete_keeps_balance Table n b x l r c hb :
  let t := plug (Node n (b, x) l r) c in
  avl t ->
  avl_rooted Table hb t ∗ DepthOfTree Table ↦ u32 (height t) ⊢
  wp (RtlpDeleteAvlTreeNode Table n) (fun _ => ∃ T b',
    ⌜avl T /\ elems T = (strip <$> before c) ++ elems l ++ elems r ++ (strip <$> after c)⌝ ∗
    avl_rooted Table b' T ∗ DepthOfTree Table ↦ u32 (height T) ∗ avl_free n x).
Proof.
  iIntros (t Ht) "[Hf Hd]". iApply (delete_node_spec with "Hf Hd"); [done|].
  iIntros (T b' HT) "Hf Hd Hn". iExists T, b'. by iFrame.
Qed.

(** The root of four nodes, which its successor replaces. *)
Definition four_nodes : tree (Z * list Z) :=
  Node 316 (-1, []) (Node 300 (-1, []) (Node 284 (0, []) Leaf Leaf) Leaf) (Node 332 (0, []) Leaf Leaf).

Lemma avl_delete_keeps_balance_witness :
  exists u h', RtlpDeleteAvlTreeNode 100 316 (memory (header_objects 100 four_nodes ++ [(128, 3)])) =
      Some (u, h') /\
    (∃ T b, ⌜avl T /\ elems T = [(284, []); (300, []); (332, [])]⌝ ∗ avl_rooted 100 b T ∗
       DepthOfTree 100 ↦ u32 (height T) ∗ avl_free 316 [])%I h'.
Proof.
  apply (wp_adequacy _ _ _ _ (avl_delete_keeps_balance 100 316 (-1) []
    (Node 300 (-1, []) (Node 284 (0, []) Leaf Leaf) Leaf) (Node 332 (0, []) Leaf Leaf) [] 0
    ltac:(repeat split; simpl; lia))).
  apply memory_holds; [decided|]. rw big_sepL_app header_objects_hold; [|done|by repeat constructor].
  iIntros "(Hf & Hd & _)". iFrame "Hf Hd".
Defined.

(** What a search tells about the elements [xs]. *)
Definition search_answer ct (k : list Z) (xs : list (Z * list Z)) (res : Z * Z) : Prop :=
  (exists xs1 x xs2, res.1 = TableFoundNode /\ xs = xs1 ++ (res.2, x) :: xs2 /\ cmp ct k x = Eq) \/
  res.1 <> TableFoundNode /\ none_equal (cmp ct k) xs.

Lemma search_result_answer ct k t uninit res :
  avl_search_result ct k t uninit res -> search_answer ct k (elems t) res.
Proof.
  intros [(x & l & r & c & E & -> & Hx)|[E Hne]]%avl_search_cases; [left|by right].
  exists ((strip <$> before c) ++ elems l), x.2, (elems r ++ (strip <$> after c)).
  rw elems_plug elems_node. by norm_app.
Qed.

Lemma depth_small t n :
  avl t -> Z.of_nat (length (elems t)) = n -> n < 2 ^ 32 ->
  u32 (height t) = height t /\ 2 ^ height t <= (n + 1) ^ 2.
Proof.
  intros Ht Hn Hmax. pose proof (avl_height_bound t Ht) as Hb. rw Hn in Hb. split; [|done].
  pose proof (height_nonneg t). apply u32_small. split; [done|].
  assert (2 ^ height t <= 2 ^ 64) as Hle by nia.
  apply Z.pow_le_mono_r_iff in Hle; lia.
Qed.

(** C31.  A search in an AVL table compares the key with at most [DepthOfTree] elements, and
    this is at most twice the binary logarithm of the number of elements plus one: cut off
    after that many rounds, the loop of [RtlpFindAvlTableNodeOrParent] has found the element
    or knows that there is none. *)
Theorem avl_search_depth cb ct mm uninit Table Buffer k xs key
    `{!TableRoutines avl_block AvlHeaderSize cb ct mm} :
  ordered (cmp ct k) xs -> accepted ct k ->
  avl_table ct Table xs key ∗ bytes_at Buffer k ⊢
  wp (d ← load (DepthOfTree Table);
      res ← find_within cb (Z.to_nat d) Table Buffer uninit;
      ret (d, res)) (fun r =>
    ⌜2 ^ r.1 <= (Z.of_nat (length xs) + 1) ^ 2 /\ search_answer ct k xs r.2⌝ ∗
    avl_table ct Table xs key ∗ bytes_at Buffer k).
Proof.
  iIntros (Hord Hk) "[(%t & <- & (%hb & Hf & HN & Hd & Hacct & (HC & HA & HF) & %Ht & %Hacc & %Hfew) & HK) HB]".
  destruct (depth_small t _ Ht eq_refl Hfew) as [Hh Hb]. wp_load. unfold find_within. wp_load.
  assert (t = Leaf \/ t <> Leaf) as [->|Hn] by (destruct t; auto).
  - wp_test. wp_ret. iFrame "HB". iSplit.
    + iPureIntro. split; [done|]. apply (search_result_answer _ _ _ uninit). by left.
    + iExists Leaf. iSplit; [done|]. by iFrame.
  - rw (proj2 (Z.eqb_neq _ 0)); [|destruct t; [done|rw elems_node length_app /=; lia]].
    wp_call. iApply (avl_root_spec with "Hf"). iIntros "Hf". rw Hh.
    wp_call. iApply (avl_search_bounded with "Hf HB HC"); [done..|].
    iIntros (res Hres) "Hf HB HC". wp_ret. iFrame "HB". iSplit.
    + iPureIntro. split; [done|]. apply (search_result_answer _ _ _ uninit). by right.
    + iExists t. iSplit; [done|]. iFrame. by rw Hh; iFrame.
Qed.

(** A table at 100 with the bytes 3 and 5 in the entries at 300 and 320. *)
Definition two_avl_bytes : list (Z * list Z) := [(300, [3]); (320, [5])].

Definition two_avl_tree : tree (Z * list Z) := Node 300 (1, [3]) Leaf (Node 320 (0, [5]) Leaf Leaf).

Definition two_avl_objects (key : Z) : list (Z * Z) :=
  [(100, 100); (104, 0); (108, 300); (112, 0); (113, 0); (114, 0); (115, 0);
   (116, 0); (120, 0); (124, 2); (128, 2); (132, key); (136, 0); (140, 1); (144, 2); (148, 3);
   (300, 100); (304, 0); (308, 320); (312, 1); (313, 0); (314, 0); (315, 0); (316, 3);
   (320, 300); (324, 0); (328, 0); (332, 0); (333, 0); (334, 0); (335, 0); (336, 5)].

Lemma reserved_holds p :
  Reserved p ↦ 0 -∗ (Reserved p + 1) ↦ 0 -∗ (Reserved p + 1 + 1) ↦ 0 -∗
  ∃ rs, ⌜length rs = 3%nat⌝ ∗ bytes_at (Reserved p) rs.
Proof. iIntros "H1 H2 H3". iExists [0; 0; 0]. by iFrame. Qed.

Lemma two_avl_hold key :
  ([∗ list] c ∈ two_avl_objects key, c.1 ↦ c.2) ⊢ avl_table byte_contract 100 two_avl_bytes key.
Proof.
  iIntros "(T0 & T4 & T8 & T12 & T13 & T14 & T15 & T16 & T20 & T24 & T28 & T32 & T36 & T40 & T44 & T48 &
    A0 & A4 & A8 & A12 & A13 & A14 & A15 & A16 & B0 & B4 & B8 & B12 & B13 & B14 & B15 & B16 & _)".
  iDestruct (reserved_holds 100 with "T13 T14 T15") as "Tr".
  iDestruct (reserved_holds 300 with "A13 A14 A15") as "Ar".
  iDestruct (reserved_holds 320 with "B13 B14 B15") as "Br".
  iExists two_avl_tree. iSplit; [done|]. iFrame "T32". iExists 0. iFrame "T24 T28".
  iSplitL "T0 T4 T8 T12 Tr A0 A4 A8 A12 Ar A16 B0 B4 B8 B12 Br B16"; [by iFrame|].
  iSplitL "T16 T20 T36"; [by iFrame|]. iSplitL "T40 T44 T48"; [by iFrame|].
  iPureIntro. split; [by repeat split|]. split; [by repeat constructor|done].
Qed.

Lemma two_avl_ordered b : ordered (cmp byte_contract [b]) two_avl_bytes.
Proof.
  apply sorted_ordered; [apply byte_order|done|].
  split; [|by repeat constructor]. by repeat constructor.
Qed.

Lemma avl_search_depth_witness :
  exists r h', (d ← load (DepthOfTree 100); res ← find_within byte_routines (Z.to_nat d) 100 1000 0;
                ret (d, res))%heap (memory (two_avl_objects 0 ++ [(1000, 5)])) = Some (r, h') /\
    (⌜2 ^ r.1 <= (Z.of_nat (length two_avl_bytes) + 1) ^ 2 /\
       search_answer byte_contract [5] two_avl_bytes r.2⌝ ∗
     avl_table byte_contract 100 two_avl_bytes 0 ∗ bytes_at 1000 [5])%I h'.
Proof.
  apply (wp_adequacy _ _ _ _ (avl_search_depth byte_routines byte_contract cell_manager 0 100 1000 [5]
    two_avl_bytes 0 (two_avl_ordered 5) ltac:(done))).
  apply memory_holds; [decided|]. rw big_sepL_app two_avl_hold.
  iIntros "($ & HB & _)". by iFrame.
Defined.

(** What a deletion leaves of the elements [zs] that an enumeration has not visited. *)
Definition left_to_visit ct (k : list Z) (ys zs zs' : list (Z * list Z)) (deleted : bool) : Prop :=
  if deleted then exists p x, (p, x) ∈ ys ++ zs /\ cmp ct k x = Eq /\
    zs' = filter (fun e => e.1 <> p) zs
  else none_equal (cmp ct k) (ys ++ zs) /\ zs' = zs.

Lemma avl_table_distinct ct Table xs key :
  avl_table ct Table xs key ⊢
  ⌜NoDup (BalancedRoot Table :: xs.*1) /\ Forall (fun e => e.1 <> NULL) xs⌝.
Proof.
  iIntros "(%t & <- & (%hb & Hf & _) & _)".
  iAssert ⌜Forall (fun e => e.1 <> NULL) (elems t)⌝%I as %Hnn.
  - rw Forall_forall. iIntros ([p x] (E1 & E2 & HE)%list_elem_of_split).
    by iDestruct (avl_rooted_nonnull with "Hf") as %?.
  - iDestruct (avl_rooted_distinct with "Hf") as %Hnd. done.
Qed.

Lemma enumerate_after ct Table ys zs key Φ :
  passed Table ys key ->
  avl_table ct Table (ys ++ zs) key -∗
  (∀ q key', ⌜q = match zs with [] => NULL | (p, _) :: _ => AvlUserData p end /\
       passed Table (ys ++ take 1 zs) key'⌝ -∗ avl_table ct Table (ys ++ zs) key' -∗ Φ q) -∗
  wp (RtlEnumerateGenericTableAvl Table false) Φ.
Proof.
  iIntros (Hkey) "Ht HΦ". iApply (avl_enumerate_next_spec with "Ht"); [done|].
  destruct zs as [|[p x] zs].
  - iIntros "Ht". iApply ("HΦ" with "[%] Ht"). by rw app_nil_r.
  - iIntros (Hp) "Ht". by iApply ("HΦ" with "[%] Ht").
Qed.

(** C19.  An element of an AVL table may be deleted in the course of an enumeration: when
    [RtlEnumerateGenericTableAvl] has visited the elements [ys] of a table, the next call
    after a deletion returns the first of the others that is left, whether the element
    deleted was visited, is the one visited last, or comes next, and the enumeration can go
    on from there in the same way.  The block of the element deleted is freed. *)
Theorem avl_delete_while_enumerating cb ct mm uninit Table Buffer k ys zs key j l
    `{!TableRoutines avl_block AvlHeaderSize cb ct mm} :
  ordered (cmp ct k) (ys ++ zs) -> accepted ct k -> passed Table ys key ->
  avl_table ct Table (ys ++ zs) key ∗ bytes_at Buffer k ∗ stocked mm j l (ys ++ zs) ⊢
  wp (deleted ← RtlDeleteElementGenericTableAvl cb uninit Table Buffer;
      q ← RtlEnumerateGenericTableAvl Table false;
      ret (deleted, q)) (fun r => ∃ ys' zs' key',
    ⌜left_to_visit ct k ys zs zs' r.1 /\
     r.2 = match zs' with [] => NULL | (p, _) :: _ => AvlUserData p end /\
     passed Table (ys' ++ take 1 zs') key'⌝ ∗ avl_table ct Table (ys' ++ zs') key' ∗
    stocked mm j l (ys' ++ zs')).
Proof.
  iIntros (Hord Hk Hkey) "(Ht & HB & Hst)". iDestruct (avl_table_distinct with "Ht") as %[Hnd Hnn].
  wp_call. iApply (avl_delete_element_spec with "Ht HB Hst"); [done|done|].
  iIntros (b) "[(%xs1 & %p & %x & %xs2 & (-> & %E & %Hx) & Ht & Hst)|[[-> %Hne] [Ht Hst]]] _".
  - rw E Forall_app Forall_cons in Hnn. destruct Hnn as (_ & Hp & _).
    destruct (passed_delete Table ys zs xs1 p x xs2 key Hnd Hp E Hkey) as (ys' & E' & Hkey'). rw E'.
    wp_call. iApply (enumerate_after with "Ht"); [done|]. iIntros (q key' [Hq Hpass]) "Ht". wp_ret.
    iExists ys', _, key'. iFrame "Ht Hst". iPureIntro. split; [|done]. exists p, x.
    rw E. split; [|done]. apply elem_of_app. right. apply list_elem_of_here.
  - wp_call. iApply (enumerate_after with "Ht"); [done|]. iIntros (q key' [Hq Hpass]) "Ht". wp_ret.
    iExists ys, zs, key'. by iFrame "Ht Hst".
Qed.

(** The byte 3, just visited, is deleted. *)
Lemma avl_delete_while_enumerating_witness :
  exists r h', (deleted ← RtlDeleteElementGenericTableAvl byte_routines 0 100 1000;
                q ← RtlEnumerateGenericTableAvl 100 false;
                ret (deleted, q))%heap
      (memory (two_avl_objects 300 ++ [(1000, 3); (requests_cell, 2); (in_use_cell, 2)])) = Some (r, h') /\
    (∃ ys' zs' key', ⌜left_to_visit byte_contract [3] [(300, [3])] [(320, [5])] zs' r.1 /\
       r.2 = match zs' with [] => NULL | (p, _) :: _ => AvlUserData p end /\
       passed 100 (ys' ++ take 1 zs') key'⌝ ∗ avl_table byte_contract 100 (ys' ++ zs') key' ∗
     stocked cell_manager 2 0 (ys' ++ zs'))%I h'.
Proof.
  apply (wp_adequacy _ _ _ _ (avl_delete_while_enumerating byte_routines byte_contract cell_manager 0
    100 1000 [3] [(300, [3])] [(320, [5])] 300 2 0 (two_avl_ordered 3) ltac:(done)
    (or_intror (ex_intro _ [] (ex_intro _ 300 (ex_intro _ [3] (conj eq_refl eq_refl))))))).
  apply memory_holds; [decided|]. rw big_sepL_app two_avl_hold.
  iIntros "($ & HB & Hj & Hm & _)". by iFrame.
Defined.
